(* ===== verification/_CoqProject ===== *)
-Q . S2P
Prelude.v
CStd.v
CText.v
CDouble.v
CFormat.v
Types.v
Chunk.v
CacheApi.v
CacheInterface.v
IndexedList.v
ArcCache.v
MemoryCache.v
MemoryThreads.v
CacheTier.v
Codec.v
DiskCache.v
DiskRestart.v
DiskThreads.v
Coordinator.v
CoordinatorThreads.v
HashRing.v
SparseCache.v
UnixServer.v
UnixListener.v
SdkClient.v
SdkResources.v
Cluster.v
GossipLoops.v
ClusterNetwork.v
ClusterSystem.v
Metrics.v
HttpApi.v
Config.v
Daemon.v
