(* ===== verification/Prelude.v ===== *)
(** * ElCache: a verification of the cache daemon, its cluster protocol and its client library

    ElCache is a distributed cache for large values (C++20, with a client library in C). A value is cut
    into chunks of [CHUNK_SIZE] bytes that are stored under the hash of their content. A node keeps
    values in a memory tier (an ARC cache of chunks) and a disk tier (a file per chunk), reached through
    a coordinator, which can also ask the other nodes of a cluster; the nodes are found by consistent
    hashing and know each other by gossip. Clients come over HTTP, and over a Unix socket with the C
    client library. All sources named below are under src/.

    ** The parts, their files and how they interact

    Shared libraries
    - Prelude.v (this file): machine words and their notations, the outcome monad, loops with fuel, byte
      slices, generic lemmas, tactics and hint databases.
    - CStd.v, CText.v: std::string, std::stoull, std::stoi, std::to_string, find, substr, hexadecimal output.
    - CDouble.v, CFormat.v: IEEE doubles (SpecFloat), their printing and reading.

    The data of the cache
    - Types.v (types.hpp, types.cpp): hashes, keys, node and chunk identifiers, ranges, metadata, statuses.
      xxHash is not part of the repository: class [Hasher] is what the code calls it for, and [fnv_hasher],
      the fallback the sources define, is an instance with which the witnesses compute.
    - Chunk.v (chunk.hpp, chunk.cpp): chunks, value descriptors, partial values.
    - CacheApi.v (cache.hpp): options, results, statistics.

    The tiers
    - CacheInterface.v: class [BoundedCache], what MemoryCache needs of its chunk cache, and the lossy map
      it refines. IndexedList.v and ArcCache.v (arc_cache.hpp) implement and discharge it.
    - MemoryCache.v (memory_cache.hpp, memory_cache.cpp), proved against [BoundedCache], one call after the
      other. MemoryThreads.v: the same operations at the granularity of their locks, over the ARC cache, as
      programs that any number of threads interleave.
    - CacheTier.v: class [CacheTier], ICache with the contract of both tiers; the memory tier is an
      instance there, the disk tier in DiskCache.v (disk_cache.hpp, disk_cache.cpp).
    - DiskRestart.v: runs of the disk tier under any results of the system calls, crash and restart.
      DiskThreads.v: its files read, written and deleted by many threads, one system call at a time.
    - Coordinator.v (cache_coordinator.hpp, cache_coordinator.cpp): the coordinator and its streams, proved
      against two [CacheTier]s and class [ClusterLink], the operations of the cluster it calls.
      CoordinatorThreads.v: its operations cut at the calls of the tiers, interleaved by many clients.

    The cluster
    - Codec.v (protocol.hpp, codec.cpp, protocol.cpp): messages and their encoding.
    - HashRing.v (class HashRing of cluster.hpp and cluster.cpp).
    - Cluster.v (the rest of cluster.hpp and cluster.cpp): connections, nodes, membership, gossip, remote
      operations, as a transition relation on the state of a node; [cluster_link] is the instance of
      [ClusterLink] the coordinator runs on. GossipLoops.v (the same sources): the two
      coroutines that gossip and check for failures, from start to stop. ClusterNetwork.v: two nodes on the
      two ends of one connection, from the first Hello to the first gossip. ClusterSystem.v: any number of
      nodes as one system, with every connection joining an end at one node to an end at another.

    The services
    - SparseCache.v (sparse_cache.hpp, sparse_cache.cpp): uploads in parts.
    - UnixServer.v (unix_server.hpp, unix_server.cpp): the server of SDK clients, in its two copies.
      UnixListener.v (the same sources): start in its two ways, the accept loops, the loop of every
      connection and stop, as loops that interleave and share descriptors.
    - SdkClient.v (elcache_sdk.h, elcache_client.c): the C client library. SdkResources.v (the same sources):
      the heap blocks, descriptors and mappings its functions acquire and give back.
    - Metrics.v (metrics.hpp, metrics.cpp), HttpApi.v (http_api.hpp, http_api.cpp): the HTTP service.
    - Config.v (config.hpp, config.cpp): configuration, its text form and validation.
    - Daemon.v (main.cpp, elcache.hpp, class HttpServer of http_api.cpp): command line, wiring, start and stop
      of all services, the loop and the exit code of main, and the running daemon with the connections that
      come in.

    ** How the code is translated

    A struct or class is a record, an enum an inductive type, an operation a function from the state to an
    [outcome]: [Done] with the result and the new state, [Throw] for an exception, [Undef] for undefined
    behaviour (a read or write outside a buffer, a dangling iterator, overlapping memcpy), [Spin] for a loop
    that does not end. Unsigned integers are [Z] with their wrap-around written out ([u64], [u32], [+w], [-w]);
    doubles are IEEE binary64. Hash maps are gmaps; where iteration order matters they are association
    lists. Clocks, random choices, results of system calls and pieces of incoming bytes are arguments or
    part of the state, and the theorems hold for all of them unless a hypothesis says otherwise. Times are
    signed 64-bit nanoseconds; where the sum of a time and a time to live overflows, which C++ leaves undefined, the
    model wraps around ([ns_of_seconds], [MemoryCache.ttl_overflow_expires]). Members a constructor leaves without a
    value are arguments ([kc_stray_memory_used] of Cluster.v).

    Operations of the code that run under one lock, and coroutines that run to completion, are one step.
    Interleavings are explicit where components meet: [cluster_step] interleaves the message handlers,
    timers and calls of a node, [daemon_step] HTTP requests with new SDK connections and the requests of all
    of them, [us_step] of UnixListener.v the loops of the socket server with stop. Inside the memory tier,
    [run_schedule] of MemoryThreads.v runs the operations of many threads, one critical section at a time;
    [run_sessions] of CoordinatorThreads.v interleaves clients of the coordinator between the tiers;
    [disk_step] of DiskThreads.v interleaves the system calls on the files of the disk tier; [system_step] of
    ClusterSystem.v interleaves the nodes of a cluster with the delivery of what they send, and suspends the
    operations that wait for an answer.

    ** Fuel

    Structural recursion is used where the loop is structural. The other loops are [loop fuel step]: fuel is
    one more than a bound on the number of rounds that is visible in the arguments (the bytes that are left,
    the entries of a list, the points of the ring), and running out of it is [Spin]. Theorems state
    that the result is [Done], or that it is not [Spin], so the fuel is shown to be enough;
    [HashRing.get_nodes_never_returns] shows the one loop of the code that may not end, whatever the fuel.

    ** What the theorems show

    - The daemon: [Daemon.daemon_refines] (any interleaving of HTTP and SDK requests answers as the combined
      specification), [Daemon.standalone_serves] (from the command line to answered requests),
      [Daemon.server_start_spec] (which services run after a start), [Daemon.sdk_blind_to_http],
      [Daemon.config_file_discards_options], [Daemon.failed_start_exits_zero].
    - The HTTP service: [HttpApi.http_refines], [HttpApi.http_parallel_upload], and the loss of refused uploads.
    - The SDK: [UnixServer.session_refines] and [SdkClient.sdk_end_to_end] (client, wire and server together),
      safety and termination on hostile input ([dispatch_safe], [handle_client_terminates]), equality of the
      two copies of the server, and the cases in which the client breaks its promises. Descriptors and memory:
      [UnixListener.us_descriptors], [us_stop_drains], [us_start_spec], [us_stop_race] for the server,
      [SdkResources.sdk_no_leaks] for the client.
    - The caches: refinement of a map of values by coordinator, memory tier, disk tier and ARC cache
      ([coord_refines_value_map], [mc_refines_value_map], [disk_put_get], [arc_refines_lossy_map]), capacity
      bounds, what is evicted, range arithmetic, and where a read can return other bytes. Concurrency:
      [MemoryThreads.mt_linearizable], [mt_readers_safe] and the races [mt_use_after_free] and
      [mt_overwrite_race]; [CoordinatorThreads.ct_isolated] (clients with keys
      of their own do not disturb each other), [ct_alone] and the race [ct_puts_diverge];
      [DiskThreads.disk_threads_safe] (with failing calls too, reads see nothing else than the chunk or zeros, and
      files are complete whenever no write is in progress or ended short) and the race [disk_torn_read]. Restarts,
      with failing calls and exceptions of [std::filesystem]: [DiskRestart.disk_crash_restart]. Uploads in parts,
      offsets that wrap included: [SparseCache.sparse_cache_refines].
    - The cluster: [codec_roundtrip], [decode_well_typed] and [decode_terminates] for the wire;
      [get_nodes_correct] (all cases, the walk that never ends among them), [ring_consistent] and [ring_holds_members] for
      the ring; [cluster_membership],
      [gossip_converges] and [connection_delivers] for the nodes; [ClusterNetwork.seed_handshake] and
      [seed_cluster_agrees] for two nodes that meet; [ClusterSystem.system_truthful] (nobody ever believes anything
      of a node but what it said itself), [system_agrees] and [gossip_spreads] for any number of them; [GossipLoops.gossip_runs] and
      [gossip_stops] for the timers; [cluster_never_answers], [seed_gossip_lost] and [restart_doubles] for what is
      missing.
    - Configuration and metrics: [config_reload], [validate_spec], [histogram_cumulative], [collect_memory_gauges].
    Theorems with hypotheses have a witness, a closed instance at concrete inputs, under the name followed
    by [_witness].

    Hypotheses on the environment are named where they are used: [no_collision] (chunks with equal hashes are
    equal, for the values in play), [pieces_ok] (a read that succeeds returns something), [sched_ok] (writes to
    a connection make progress), ranges of numbers that fit the fields of the protocol.

    ** Not modelled

    - The Elio library (scheduler, sockets, HTTP parser and router), which is not part of the sources: what
      the code calls of it is input of the steps.
    - Interleavings of the index of the disk tier, which is locked, with its files, and of the coordinator while
      it waits for other nodes; memory weaker than sequentially consistent. In ClusterSystem.v writes succeed,
      and an attempt to connect that fails is no step.
    - Exhaustion of memory in the C++ parts: allocations succeed there, whatever their size ([SparseEntry_make] of a
      huge size included).
    - Conversions of a double outside 64 bits to an integer, which are undefined: [size_of_double] is total.
    - Printed diagnostics, the delivery of signals, the five empty methods at the end of unix_server.cpp, and
      sources that are placeholders (storage/, util/, gossip.cpp, node.cpp, and three C files of sdk/). *)

From Stdlib Require Export ZArith Lia Bool.
From Stdlib Require Import Strings.Byte.
From stdpp Require Export base decidable countable option list list_numbers gmap fin_maps sets strings.


#[export] Set Default Goal Selector "!".
#[export] Set Warnings "-clear-no-such-hyp".

Open Scope Z_scope.

(** ** Scopes, hint databases *)

Declare Scope word_scope.
Delimit Scope word_scope with word.

Create HintDb elcache discriminated.
Create HintDb word discriminated.
Create Rewrite HintDb word_rw.
Create Rewrite HintDb elcache_rw.

(** ** Machine-width unsigned integers

    A [uint64_t] (and [size_t], the code is built for 64-bit hosts) is a [Z] in [0, 2^64); the
    arithmetic of the code wraps, so every addition, subtraction and multiplication of the model is
    followed by [u64]. *)

Definition u8 (z : Z) : Z := z mod 2 ^ 8.
Definition u16 (z : Z) : Z := z mod 2 ^ 16.
Definition u32 (z : Z) : Z := z mod 2 ^ 32.
Definition u64 (z : Z) : Z := z mod 2 ^ 64.

(** Two's complement reading of a 64-bit word: conversion [uint64_t] to [int64_t]. *)
Definition i64 (z : Z) : Z := (z + 2 ^ 63) mod 2 ^ 64 - 2 ^ 63.

Notation "a +w b" := (u64 (a + b)) (at level 50, left associativity) : word_scope.
Notation "a -w b" := (u64 (a - b)) (at level 50, left associativity) : word_scope.
Notation "a *w b" := (u64 (a * b)) (at level 40, left associativity) : word_scope.
Open Scope word_scope.

Definition is_u16 (z : Z) : Prop := 0 <= z < 2 ^ 16.
Definition is_u32 (z : Z) : Prop := 0 <= z < 2 ^ 32.
Definition is_u64 (z : Z) : Prop := 0 <= z < 2 ^ 64.

Lemma u64_range z : is_u64 (u64 z).
Proof. apply Z.mod_pos_bound. lia. Qed.

Lemma u64_small z : is_u64 z -> u64 z = z.
Proof. apply Z.mod_small. Qed.

Lemma u32_small z : is_u32 z -> u32 z = z.
Proof. apply Z.mod_small. Qed.

Lemma u16_small z : is_u16 z -> u16 z = z.
Proof. apply Z.mod_small. Qed.

Lemma u64_u64 z : u64 (u64 z) = u64 z.
Proof. apply u64_small, u64_range. Qed.

Lemma u64_add_l a b : u64 (u64 a + b) = u64 (a + b).
Proof. unfold u64. apply Zplus_mod_idemp_l. Qed.

Lemma u64_add_r a b : u64 (a + u64 b) = u64 (a + b).
Proof. unfold u64. apply Zplus_mod_idemp_r. Qed.

Lemma u64_sub_l a b : u64 (u64 a - b) = u64 (a - b).
Proof. unfold u64. apply Zminus_mod_idemp_l. Qed.

Lemma u64_sub_r a b : u64 (a - u64 b) = u64 (a - b).
Proof. unfold u64. apply Zminus_mod_idemp_r. Qed.

Lemma i64_u64 z : - 2 ^ 63 <= z < 2 ^ 63 -> i64 (u64 z) = z.
Proof.
  intros H. unfold i64, u64. rewrite Zplus_mod_idemp_l, Z.mod_small; lia.
Qed.

Lemma i64_small z : - 2 ^ 63 <= z < 2 ^ 63 -> i64 z = z.
Proof. intros H. unfold i64. rewrite Z.mod_small; lia. Qed.

#[export] Hint Resolve u64_range : word.
#[export] Hint Rewrite u64_u64 u64_add_l u64_add_r u64_sub_l : word_rw.

(** Remove every [u64] whose argument provably fits. *)
Ltac word_small :=
  repeat match goal with
  | |- context [u64 ?z] => rewrite (u64_small z) by (unfold is_u64 in *; lia)
  | H : context [u64 ?z] |- _ => rewrite (u64_small z) in H by (unfold is_u64 in *; lia)
  end.

(** ** Bytes *)

Abbreviation byte := Byte.byte.

(** [std::string], [std::vector<uint8_t>] and the spans over them. *)
Abbreviation bytes := (list byte).

Definition Z_of_byte (b : byte) : Z := Z.of_N (Byte.to_N b).

(** Conversion of an integer to [uint8_t]. *)
Definition byte_of_Z (z : Z) : byte :=
  default Byte.x00 (Byte.of_N (Z.to_N (u8 z))).

#[export] Instance byte_eq_dec : EqDecision byte := Byte.byte_eq_dec.
#[export] Program Instance byte_countable : Countable byte :=
  inj_countable Byte.to_N Byte.of_N _.
Next Obligation. intros b. apply Byte.of_to_N. Qed.

Lemma Z_of_byte_range b : 0 <= Z_of_byte b < 2 ^ 8.
Proof.
  unfold Z_of_byte. pose proof (Byte.to_N_bounded b). lia.
Qed.

Lemma Z_of_byte_of_Z z : Z_of_byte (byte_of_Z z) = u8 z.
Proof.
  unfold Z_of_byte, byte_of_Z.
  assert (0 <= u8 z < 256) as Hr by (apply Z.mod_pos_bound; lia).
  destruct (Byte.of_N (Z.to_N (u8 z))) as [b|] eqn:E; simpl.
  - apply Byte.to_of_N in E. rewrite E. lia.
  - apply Byte.of_N_None_iff in E. lia.
Qed.

Lemma byte_of_Z_of_byte b : byte_of_Z (Z_of_byte b) = b.
Proof.
  unfold byte_of_Z, u8. rewrite Z.mod_small by apply Z_of_byte_range.
  unfold Z_of_byte. rewrite N2Z.id, Byte.of_to_N. reflexivity.
Qed.

#[export] Hint Rewrite Z_of_byte_of_Z byte_of_Z_of_byte : elcache_rw.

(** A string literal as the bytes of a [std::string]. *)
Definition str (s : string) : bytes := String.list_byte_of_string s.

(** ** Sizes and slices of vectors *)

(** [size()] of a container. *)
Definition size_of {A} (l : list A) : Z := Z.of_nat (length l).

(** The elements at positions [off, off + len) of a vector, as a pair of iterators gives them. *)
Definition slice {A} (off len : Z) (l : list A) : list A :=
  take (Z.to_nat len) (drop (Z.to_nat off) l).

Lemma size_of_nonneg {A} (l : list A) : 0 <= size_of l.
Proof. unfold size_of. lia. Qed.

Lemma size_of_app {A} (l k : list A) : size_of (l ++ k) = size_of l + size_of k.
Proof. unfold size_of. rewrite length_app. lia. Qed.

Lemma size_of_cons {A} (x : A) (l : list A) : size_of (x :: l) = 1 + size_of l.
Proof. unfold size_of. cbn [length]. lia. Qed.

Lemma size_of_nil {A} : size_of (@nil A) = 0.
Proof. reflexivity. Qed.

Lemma size_of_zero {A} (l : list A) : size_of l = 0 -> l = [].
Proof. destruct l; [done|]. rewrite size_of_cons. pose proof (size_of_nonneg l). lia. Qed.

Lemma size_of_slice {A} off len (l : list A) :
  0 <= off -> 0 <= len -> off + len <= size_of l -> size_of (slice off len l) = len.
Proof.
  unfold size_of, slice. intros. rewrite length_take, length_drop. lia.
Qed.

Lemma slice_all {A} n (l : list A) : size_of l <= n -> slice 0 n l = l.
Proof.
  unfold slice, size_of. intros. rewrite drop_0. apply take_ge. lia.
Qed.

Lemma slice_nil_len {A} off (l : list A) : slice off 0 l = [].
Proof. reflexivity. Qed.

(** Adjacent slices concatenate. *)
Lemma slice_app_adj {A} off a b (l : list A) :
  0 <= off -> 0 <= a -> 0 <= b ->
  slice off a l ++ slice (off + a) b l = slice off (a + b) l.
Proof.
  intros. unfold slice.
  replace (Z.to_nat (off + a)) with (Z.to_nat off + Z.to_nat a)%nat by lia.
  replace (Z.to_nat (a + b)) with (Z.to_nat a + Z.to_nat b)%nat by lia.
  rewrite <- drop_drop, <- take_take_drop. reflexivity.
Qed.

(** A slice of a slice. *)
Lemma slice_slice {A} o1 l1 o2 l2 (l : list A) :
  0 <= o1 -> 0 <= o2 -> 0 <= l2 -> o2 + l2 <= l1 ->
  slice o2 l2 (slice o1 l1 l) = slice (o1 + o2) l2 l.
Proof.
  intros. unfold slice.
  rewrite skipn_firstn_comm, take_take, drop_drop.
  f_equal; [lia|]. f_equal. lia.
Qed.

Lemma slice_app_r {A} off len (l k : list A) :
  size_of l <= off -> slice off len (l ++ k) = slice (off - size_of l) len k.
Proof.
  unfold slice, size_of. intros. rewrite drop_app_ge by lia.
  do 2 f_equal. lia.
Qed.

Lemma slice_app_l {A} off len (l k : list A) :
  0 <= off -> 0 <= len -> off + len <= size_of l -> slice off len (l ++ k) = slice off len l.
Proof.
  unfold slice, size_of. intros.
  rewrite drop_app_le by lia. rewrite take_app_le; [done|].
  rewrite length_drop. lia.
Qed.

Lemma list_filter_all {A} (P : A -> Prop) `{forall x, Decision (P x)} (l : list A) :
  (forall x, x ∈ l -> P x) -> filter P l = l.
Proof.
  induction l as [|x l IH]; intros HP; [done|].
  rewrite filter_cons_True by (apply HP; by left).
  f_equal. apply IH. intros y Hy. apply HP. by right.
Qed.

#[export] Instance size_of_proper {A} : Proper ((≡ₚ) ==> (=)) (@size_of A).
Proof. intros l k Hp. unfold size_of. by rewrite Hp. Qed.

Lemma submseteq_NoDup {A} (l k : list A) : l ⊆+ k -> NoDup k -> NoDup l.
Proof.
  intros [k' Hk]%submseteq_Permutation Hnd. rewrite Hk in Hnd. by apply NoDup_app in Hnd as (? & _ & _).
Qed.

#[export] Hint Rewrite @size_of_app @size_of_cons @size_of_nil : elcache_rw.
#[export] Hint Resolve size_of_nonneg : elcache.

(** ** Outcomes of fallible code

    [Done] is a normal return, [Throw] a C++ exception with its message, [Undef] an execution whose
    behaviour the language leaves undefined (an out-of-range access), [Spin] a loop that was cut off
    by the model's fuel. *)

Inductive outcome (A : Type) : Type :=
| Done (a : A)
| Throw (what : string)
| Undef
| Spin.
Arguments Done {A} a.
Arguments Throw {A} what.
Arguments Undef {A}.
Arguments Spin {A}.

#[export] Instance outcome_ret : MRet outcome := fun A a => Done a.
#[export] Instance outcome_bind : MBind outcome := fun A B f m =>
  match m with
  | Done a => f a
  | Throw w => Throw w
  | Undef => Undef
  | Spin => Spin
  end.

#[export] Instance outcome_fmap : FMap outcome := fun A B f m =>
  match m with
  | Done a => Done (f a)
  | Throw w => Throw w
  | Undef => Undef
  | Spin => Spin
  end.

Lemma outcome_bind_Done {A B} (f : A -> outcome B) (m : outcome A) b :
  m ≫= f = Done b -> exists a, m = Done a /\ f a = Done b.
Proof. destruct m; try discriminate. eauto. Qed.

(** ** Loops

    [loop fuel step s] runs the body of a C++ loop: [inl s'] continues with the loop variables [s'],
    [inr r] leaves the loop with [r]. *)

Fixpoint loop {S R : Type} (fuel : nat) (step : S -> S + R) (s : S) : option R :=
  match fuel with
  | O => None
  | Datatypes.S fuel =>
      match step s with
      | inl s' => loop fuel step s'
      | inr r => Some r
      end
  end.

(** Total correctness of a loop from an invariant and a decreasing measure. *)
Lemma loop_rule {S R} (I : S -> Prop) (Q : R -> Prop) (m : S -> Z) (step : S -> S + R) :
  (forall s, I s -> match step s with
                    | inl s' => I s' /\ 0 <= m s' < m s
                    | inr r => Q r
                    end) ->
  forall fuel s, I s -> m s < Z.of_nat fuel -> 0 <= m s ->
  exists r, loop fuel step s = Some r /\ Q r.
Proof.
  intros Hstep fuel. induction fuel as [|fuel IH]; intros s HI Hm Hm0; [lia|].
  specialize (Hstep s HI). simpl. destruct (step s) as [s'|r]; [|eauto].
  destruct Hstep as [HI' Hm']. apply IH; [done|lia|lia].
Qed.

(** More fuel does not change the result of a loop that has ended. *)
Lemma loop_mono {S R} (step : S -> S + R) n m s r :
  (n <= m)%nat -> loop n step s = Some r -> loop m step s = Some r.
Proof.
  revert m s. induction n as [|n IH]; intros m s Hle H; [done|].
  destruct m as [|m]; [lia|]. simpl in *. destruct (step s); [|done].
  apply IH; [lia|done].
Qed.

(** Two loops in lockstep have the same result. *)
Lemma loop_lockstep {S1 S2 R} (I : S1 -> S2 -> Prop) (step1 : S1 -> S1 + R) (step2 : S2 -> S2 + R) :
  (forall s1 s2, I s1 s2 -> match step1 s1, step2 s2 with
                            | inl s1', inl s2' => I s1' s2'
                            | inr r1, inr r2 => r1 = r2
                            | _, _ => False
                            end) ->
  forall fuel s1 s2, I s1 s2 -> loop fuel step1 s1 = loop fuel step2 s2.
Proof.
  intros Hs fuel. induction fuel as [|fuel IH]; intros s1 s2 HI; [done|]. simpl.
  specialize (Hs s1 s2 HI). destruct (step1 s1), (step2 s2); [by apply IH|done..|by subst].
Qed.

(** A loop whose every step continues inside [I] never ends. *)
Lemma loop_diverges {S R} (I : S -> Prop) (step : S -> S + R) :
  (forall s, I s -> exists s', step s = inl s' /\ I s') ->
  forall fuel s, I s -> loop fuel step s = None.
Proof.
  intros Hstep fuel. induction fuel as [|fuel IH]; intros s HI; [done|].
  simpl. destruct (Hstep s HI) as (s' & -> & HI'). auto.
Qed.

(** ** Proof automation of the development *)

(** Case analysis on the first test of the goal or of a hypothesis. *)
Ltac case_match_goal :=
  match goal with
  | |- context [if ?b then _ else _] => let E := fresh "E" in destruct b eqn:E
  | |- context [match ?x with _ => _ end] => let E := fresh "E" in destruct x eqn:E
  end.

(** Boolean comparisons of hypotheses turned into propositions. *)
Ltac bool_hyps :=
  repeat match goal with
  | H : (_ && _) = true |- _ => apply andb_true_iff in H; destruct H
  | H : (_ && _) = false |- _ => apply andb_false_iff in H
  | H : (_ || _) = false |- _ => apply orb_false_iff in H; destruct H
  | H : (_ || _) = true |- _ => apply orb_true_iff in H
  | H : negb _ = true |- _ => apply negb_true_iff in H
  | H : negb _ = false |- _ => apply negb_false_iff in H
  | H : (_ <? _) = true |- _ => apply Z.ltb_lt in H
  | H : (_ <? _) = false |- _ => apply Z.ltb_ge in H
  | H : (_ <=? _) = true |- _ => apply Z.leb_le in H
  | H : (_ <=? _) = false |- _ => apply Z.leb_gt in H
  | H : (_ =? _) = true |- _ => apply Z.eqb_eq in H
  | H : (_ =? _) = false |- _ => apply Z.eqb_neq in H
  | H : bool_decide _ = true |- _ => apply bool_decide_eq_true in H
  | H : bool_decide _ = false |- _ => apply bool_decide_eq_false in H
  end.
