(* ===== verification/CStd.v ===== *)
(** * What the sources use of the C++ standard library on strings

    [std::stoull], [std::to_string] and the hexadecimal [std::ostringstream] output, on the bytes of
    a [std::string]; the shared lemma is that printing and reading a number in one base are inverse.
    [std::stoull] follows [strtoull]: leading white space, an optional sign, an optional [0x] in base
    16, then the longest run of digits; no digit or a value of more than 64 bits is an exception, and
    a minus sign negates modulo 2^64. *)

From S2P Require Import Prelude.
From Stdlib Require Import Strings.Byte.
Open Scope Z_scope.

Definition isspace (b : byte) : bool :=
  let z := Z_of_byte b in (z =? 32) || ((9 <=? z) && (z <=? 13)).

(** Value of a digit in a base up to 36. *)
Definition digit_val (b : byte) : option Z :=
  let z := Z_of_byte b in
  if (48 <=? z) && (z <=? 57) then Some (z - 48)
  else if (97 <=? z) && (z <=? 122) then Some (z - 97 + 10)
  else if (65 <=? z) && (z <=? 90) then Some (z - 65 + 10)
  else None.

(** The digit as output prints it. *)
Definition digit_char (d : Z) : byte :=
  byte_of_Z (if d <? 10 then 48 + d else 97 + (d - 10)).

Fixpoint skip_spaces (s : bytes) : bytes :=
  match s with
  | b :: s' => if isspace b then skip_spaces s' else s
  | [] => []
  end.

Fixpoint read_digits (base : Z) (s : bytes) : list Z :=
  match s with
  | b :: s' =>
      match digit_val b with
      | Some d => if d <? base then d :: read_digits base s' else []
      | None => []
      end
  | [] => []
  end.

Definition digits_value (base : Z) (ds : list Z) : Z :=
  foldl (fun acc d => acc * base + d) 0 ds.

Definition read_sign (s : bytes) : bool * bytes :=
  match s with
  | Byte.x2d :: s' => (true, s')
  | Byte.x2b :: s' => (false, s')
  | _ => (false, s)
  end.

Definition skip_0x (s : bytes) : bytes :=
  match s with
  | Byte.x30 :: x :: d :: s' =>
      if ((Z_of_byte x =? 120) || (Z_of_byte x =? 88))
         && match digit_val d with Some v => v <? 16 | None => false end
      then d :: s' else s
  | _ => s
  end.

(** [std::stoull(s, nullptr, base)], for the bases 10 and 16. *)
Definition stoull (base : Z) (s : bytes) : outcome Z :=
  let '(neg, s1) := read_sign (skip_spaces s) in
  let s2 := if base =? 16 then skip_0x s1 else s1 in
  match read_digits base s2 with
  | [] => Throw "stoull"
  | ds =>
      let v := digits_value base ds in
      if v <? 2 ^ 64 then Done (if neg then u64 (- v) else v) else Throw "stoull"
  end.

(** The [n] low digits of [v], most significant first. *)
Fixpoint digits (base : Z) (n : nat) (v : Z) : list Z :=
  match n with
  | O => []
  | S n => digits base n (v / base) ++ [v mod base]
  end.

(** Leading zeros dropped, one digit kept. *)
Fixpoint strip_zeros (ds : list Z) : list Z :=
  match ds with
  | 0 :: (_ :: _) as ds' => strip_zeros ds'
  | _ => ds
  end.

(** [oss << std::hex << std::setfill('0') << std::setw(16) << v] for a 64-bit [v]. *)
Definition hex16 (v : Z) : bytes := digit_char <$> digits 16 16 v.

(** [std::to_string(v)] for an unsigned [v] of at most 64 bits (20 digits are enough). *)
Definition to_string (v : Z) : bytes := digit_char <$> strip_zeros (digits 10 20 v).

(** ** Printing and reading are inverse *)

Lemma digits_value_app base ds es :
  digits_value base (ds ++ es)
  = foldl (fun acc d => acc * base + d) (digits_value base ds) es.
Proof. apply foldl_app. Qed.

Lemma digits_value_digits base n v :
  1 < base -> digits_value base (digits base n v) = v mod base ^ Z.of_nat n.
Proof.
  intros Hb. revert v. induction n as [|n IH]; intros v.
  - rewrite Z.mod_1_r. reflexivity.
  - cbn [digits]. rewrite digits_value_app, IH. cbn [foldl].
    rewrite Nat2Z.inj_succ, Z.pow_succ_r by lia.
    rewrite Z.rem_mul_r by lia. lia.
Qed.

Lemma digits_range base n v :
  1 < base -> Forall (fun d => 0 <= d < base) (digits base n v).
Proof.
  intros Hb. revert v. induction n as [|n IH]; intros v; [constructor|].
  apply Forall_app. split; [apply IH|].
  constructor; [|constructor]. apply Z.mod_pos_bound. lia.
Qed.

Lemma digits_length base n v : length (digits base n v) = n.
Proof. revert v. induction n as [|n IH]; intros v; [done|]. simpl. rewrite length_app, IH. simpl. lia. Qed.

Lemma strip_zeros_value base ds : digits_value base (strip_zeros ds) = digits_value base ds.
Proof.
  unfold digits_value. induction ds as [|d ds IH]; [done|].
  cbn. destruct d; [|done..]. destruct ds; [done|]. exact IH.
Qed.

Lemma strip_zeros_range base ds :
  Forall (fun d => 0 <= d < base) ds -> Forall (fun d => 0 <= d < base) (strip_zeros ds).
Proof.
  induction 1 as [|d ds Hd Hds IH]; [constructor|].
  destruct d; [|by constructor..]. destruct ds; [by constructor|]. exact IH.
Qed.

Lemma strip_zeros_nonempty ds : ds <> [] -> strip_zeros ds <> [].
Proof.
  induction ds as [|d ds IH]; [done|]. intros _.
  destruct d; [|done..]. destruct ds; [done|]. by apply IH.
Qed.

Lemma digit_val_char d : 0 <= d < 36 -> digit_val (digit_char d) = Some d.
Proof.
  intros H. unfold digit_val, digit_char. rewrite Z_of_byte_of_Z.
  destruct (Z.ltb_spec d 10); unfold u8; rewrite Z.mod_small by lia.
  - destruct (Z.leb_spec 48 (48 + d)); [|lia].
    destruct (Z.leb_spec (48 + d) 57); [|lia]. simpl. f_equal. lia.
  - destruct (Z.leb_spec 48 (97 + (d - 10))); [|lia].
    destruct (Z.leb_spec (97 + (d - 10)) 57); [lia|].
    destruct (Z.leb_spec 97 (97 + (d - 10))); [|lia].
    destruct (Z.leb_spec (97 + (d - 10)) 122); [|lia]. simpl. f_equal. lia.
Qed.

Lemma read_digits_print base ds :
  base <= 36 -> Forall (fun d => 0 <= d < base) ds ->
  read_digits base (digit_char <$> ds) = ds.
Proof.
  intros Hb. induction 1 as [|d ds Hd Hds IH]; [done|].
  cbn [fmap list_fmap read_digits]. rewrite digit_val_char by lia.
  destruct (Z.ltb_spec d base); [|lia]. f_equal. exact IH.
Qed.

Lemma digit_char_code d :
  0 <= d < 36 -> (48 <= Z_of_byte (digit_char d) < 58) \/ (97 <= Z_of_byte (digit_char d) < 123).
Proof.
  intros H. unfold digit_char. rewrite Z_of_byte_of_Z.
  destruct (Z.ltb_spec d 10); unfold u8; rewrite Z.mod_small by lia; lia.
Qed.

Lemma digit_char_plain d s :
  0 <= d < 36 -> read_sign (skip_spaces (digit_char d :: s)) = (false, digit_char d :: s).
Proof.
  intros H. apply digit_char_code in H. cbn [skip_spaces]. unfold isspace.
  destruct (Z.eqb_spec (Z_of_byte (digit_char d)) 32); [lia|].
  destruct (Z.leb_spec 9 (Z_of_byte (digit_char d))); [|lia].
  destruct (Z.leb_spec (Z_of_byte (digit_char d)) 13); [lia|].
  simpl. unfold read_sign.
  destruct (digit_char d); try reflexivity; unfold Z_of_byte in H; simpl in H; lia.
Qed.

Lemma skip_0x_printed ds :
  Forall (fun d => 0 <= d < 16) ds -> skip_0x (digit_char <$> ds) = digit_char <$> ds.
Proof.
  intros H. destruct ds as [|d [|e [|f ds]]]; try done.
  - simpl. destruct (digit_char d); done.
  - simpl. destruct (digit_char d); done.
  - cbn [fmap list_fmap].
    apply Forall_cons in H as [_ H]. apply Forall_cons in H as [He _].
    assert ((48 <= Z_of_byte (digit_char e) < 58) \/ (97 <= Z_of_byte (digit_char e) < 103)) as Hc.
    { unfold digit_char. rewrite Z_of_byte_of_Z.
      destruct (Z.ltb_spec e 10); unfold u8; rewrite Z.mod_small by lia; lia. }
    unfold skip_0x.
    destruct (Z.eqb_spec (Z_of_byte (digit_char e)) 120); [lia|].
    destruct (Z.eqb_spec (Z_of_byte (digit_char e)) 88); [lia|].
    simpl. destruct (digit_char d); reflexivity.
Qed.

(** Reading back a printed number. *)
Lemma stoull_print base ds :
  base = 10 \/ base = 16 -> ds <> [] -> Forall (fun d => 0 <= d < base) ds ->
  digits_value base ds < 2 ^ 64 ->
  stoull base (digit_char <$> ds) = Done (digits_value base ds).
Proof.
  intros Hb Hne Hr Hv. destruct ds as [|d ds]; [done|].
  assert (0 <= d < 36) as Hd by (apply Forall_cons in Hr as [? _]; lia).
  unfold stoull. rewrite fmap_cons, digit_char_plain, <- fmap_cons by done.
  replace (if base =? 16 then skip_0x (digit_char <$> d :: ds) else digit_char <$> d :: ds)
    with (digit_char <$> d :: ds).
  2: { destruct (Z.eqb_spec base 16) as [->|]; [|done]. by rewrite skip_0x_printed. }
  rewrite read_digits_print; [|lia|done].
  destruct (Z.ltb_spec (digits_value base (d :: ds)) (2 ^ 64)); [done|lia].
Qed.

Lemma stoull_hex16 v : is_u64 v -> stoull 16 (hex16 v) = Done v.
Proof.
  intros Hv. unfold hex16. rewrite stoull_print.
  - rewrite digits_value_digits by lia. f_equal. apply Z.mod_small.
    change (16 ^ Z.of_nat 16) with (2 ^ 64). exact Hv.
  - by right.
  - intros E. apply (f_equal length) in E. by rewrite digits_length in E.
  - by apply digits_range.
  - rewrite digits_value_digits by lia. change (16 ^ Z.of_nat 16) with (2 ^ 64).
    apply Z.mod_pos_bound. lia.
Qed.

Lemma stoull_to_string v : is_u64 v -> stoull 10 (to_string v) = Done v.
Proof.
  intros Hv. unfold to_string.
  assert (digits_value 10 (strip_zeros (digits 10 20 v)) = v) as Ev.
  { rewrite strip_zeros_value, digits_value_digits by lia. apply Z.mod_small.
    unfold is_u64 in Hv. split; [lia|].
    apply Z.lt_trans with (2 ^ 64); [lia|]. vm_compute. reflexivity. }
  rewrite stoull_print.
  - by rewrite Ev.
  - by left.
  - apply strip_zeros_nonempty. intros E. apply (f_equal length) in E. by rewrite digits_length in E.
  - by apply strip_zeros_range, digits_range.
  - rewrite Ev. apply Hv.
Qed.
