(* ===== verification/CText.v ===== *)
(** * More of the C++ standard library on strings

    Searching ([find], [rfind], [starts_with]), [substr], [std::tolower] and the signed conversions
    [std::stoi] and [std::stoll], on the bytes of a [std::string]. A position that is not found
    ([npos]) is [None]. *)

From S2P Require Import Prelude CStd.
From Stdlib Require Import Strings.Byte.
Open Scope Z_scope.

(** ** Searching *)

Fixpoint starts_with (pat s : bytes) : bool :=
  match pat, s with
  | [], _ => true
  | p :: pat', b :: s' => bool_decide (p = b) && starts_with pat' s'
  | _ :: _, [] => false
  end.

(** [s.find(pat)]: the first position where [pat] starts. *)
Fixpoint find (pat s : bytes) : option Z :=
  if starts_with pat s then Some 0
  else match s with
       | [] => None
       | _ :: s' => (Z.add 1) <$> find pat s'
       end.

(** [s.rfind(pat)]: the last one. *)
Fixpoint rfind (pat s : bytes) : option Z :=
  match s with
  | [] => if starts_with pat [] then Some 0 else None
  | _ :: s' =>
      match rfind pat s' with
      | Some i => Some (1 + i)
      | None => if starts_with pat s then Some 0 else None
      end
  end.

(** [s.substr(pos)] and [s.substr(pos, n)]: [std::out_of_range] beyond the end. *)
Definition substr (s : bytes) (pos : Z) : outcome bytes :=
  if size_of s <? pos then Throw "out_of_range" else Done (drop (Z.to_nat pos) s).

Definition substr_n (s : bytes) (pos n : Z) : outcome bytes :=
  if size_of s <? pos then Throw "out_of_range" else Done (slice pos (Z.min n (size_of s - pos)) s).

Definition tolower (b : byte) : byte :=
  let z := Z_of_byte b in if (65 <=? z) && (z <=? 90) then byte_of_Z (z + 32) else b.

(** ** Signed numbers *)

(** [strtol] and [strtoll] in base 10, then the check of the range [lo, hi]. *)
Definition sto_signed (lo hi : Z) (what : string) (s : bytes) : outcome Z :=
  let '(neg, s1) := read_sign (skip_spaces s) in
  match read_digits 10 s1 with
  | [] => Throw what
  | ds =>
      let v := if neg : bool then - digits_value 10 ds else digits_value 10 ds in
      if (lo <=? v) && (v <=? hi) then Done v else Throw what
  end.

Definition stoi : bytes -> outcome Z := sto_signed (- 2 ^ 31) (2 ^ 31 - 1) "stoi".
Definition stoll : bytes -> outcome Z := sto_signed (- 2 ^ 63) (2 ^ 63 - 1) "stoll".

(** [std::to_string] of a signed 64-bit number. *)
Definition to_string_signed (v : Z) : bytes := if v <? 0 then x2d :: to_string (- v) else to_string v.

(** Printing and reading a number that fits. *)
Lemma sto_signed_to_string lo hi what v :
  lo <= v <= hi -> is_u64 v -> sto_signed lo hi what (to_string v) = Done v.
Proof.
  intros Hv Hu. unfold to_string, is_u64 in *.
  assert (digits_value 10 (strip_zeros (digits 10 20 v)) = v) as Ev.
  { rewrite strip_zeros_value, digits_value_digits by lia. apply Z.mod_small. split; [lia|].
    apply Z.lt_trans with (2 ^ 64); [lia|]. vm_compute. reflexivity. }
  pose proof (strip_zeros_range 10 _ (digits_range 10 20 v ltac:(lia))) as Hr.
  assert (strip_zeros (digits 10 20 v) <> []) as Hne.
  { apply strip_zeros_nonempty. intros E. apply (f_equal length) in E. by rewrite digits_length in E. }
  destruct (strip_zeros (digits 10 20 v)) as [|d ds]; [done|]. unfold sto_signed.
  rewrite fmap_cons, digit_char_plain, <- fmap_cons by (apply Forall_cons in Hr as [? _]; lia).
  rewrite read_digits_print; [|lia|done]. rewrite Ev.
  destruct (Z.leb_spec lo v), (Z.leb_spec v hi); simpl; (done || lia).
Qed.

(** ** Text output *)

Definition nl : bytes := [x0a].

(** The text between double quotes. *)
Definition quoted (s : bytes) : bytes := x22 :: s ++ [x22].

(** One line of JSON output: a name, a printed value and what follows it. *)
Definition json_line (indent name : string) (value : bytes) (rest : string) : bytes :=
  str indent ++ quoted (str name) ++ str ": " ++ value ++ str rest ++ nl.

Definition bool_text (b : bool) : bytes := if b then str "true" else str "false".

(** ** Lemmas *)

Lemma starts_with_app pat rest : starts_with pat (pat ++ rest) = true.
Proof. induction pat as [|b pat IH]; [done|]. simpl. rewrite bool_decide_true by done. apply IH. Qed.

Lemma starts_with_spec pat s : starts_with pat s = true <-> exists rest, s = pat ++ rest.
Proof.
  split; [|intros [rest ->]; apply starts_with_app].
  revert s. induction pat as [|b pat IH]; intros s H; [by exists s|]. destruct s as [|c s]; [done|].
  cbn [starts_with] in H. bool_hyps. subst. destruct (IH s) as [rest ->]; [done|]. by exists rest.
Qed.

(** A single character is found at its first occurrence. *)
Lemma find_char b pre rest : b ∉ pre -> find [b] (pre ++ b :: rest) = Some (size_of pre).
Proof.
  induction pre as [|c pre IH]; intros Hn; cbn [app find starts_with].
  - by rewrite bool_decide_true.
  - rewrite bool_decide_false by (intros ->; apply Hn; by left). simpl. rewrite IH by (intros ?; apply Hn; by right).
    cbn [fmap option_fmap option_map]. rewrite size_of_cons. done.
Qed.

Lemma find_char_None b s : b ∉ s -> find [b] s = None.
Proof.
  induction s as [|c s IH]; intros Hn; [done|]. cbn [find starts_with].
  rewrite bool_decide_false by (intros ->; apply Hn; by left). simpl. by rewrite IH by (intros ?; apply Hn; by right).
Qed.

(** And at its last one. *)
Lemma rfind_char b pre rest : b ∉ rest -> rfind [b] (pre ++ b :: rest) = Some (size_of pre).
Proof.
  intros Hn. assert (forall r, b ∉ r -> rfind [b] r = None) as Hnone.
  { induction r as [|c r IH]; intros Hr; [done|]. cbn [rfind]. rewrite IH by (intros ?; apply Hr; by right).
    cbn [starts_with]. by rewrite bool_decide_false by (intros ->; apply Hr; by left). }
  induction pre as [|c pre IH]; cbn [app rfind].
  - rewrite Hnone by done. cbn [starts_with]. by rewrite bool_decide_true.
  - rewrite IH, size_of_cons. done.
Qed.

Lemma substr_app pre rest : substr (pre ++ rest) (size_of pre) = Done rest.
Proof.
  unfold substr. rewrite size_of_app. pose proof (size_of_nonneg rest).
  destruct (Z.ltb_spec (size_of pre + size_of rest) (size_of pre)); [lia|].
  unfold size_of. by rewrite Nat2Z.id, drop_app_length.
Qed.

Lemma substr_n_app pre rest : substr_n (pre ++ rest) 0 (size_of pre) = Done pre.
Proof.
  unfold substr_n. destruct (Z.ltb_spec (size_of (pre ++ rest)) 0); [pose proof (size_of_nonneg (pre ++ rest)); lia|].
  pose proof (size_of_nonneg pre). pose proof (size_of_nonneg rest). rewrite size_of_app, Z.sub_0_r, Z.min_l by lia.
  rewrite slice_app_l by lia. by rewrite slice_all.
Qed.

(** ** Printed numbers *)

Lemma size_of_pos {A} (l : list A) : l <> [] -> 0 < size_of l.
Proof. destruct l; [done|]. rewrite size_of_cons. pose proof (size_of_nonneg l). lia. Qed.

Lemma if_ltb {A} a b (x y : A) : a < b -> (if a <? b then x else y) = x.
Proof. intros H. by rewrite (proj2 (Z.ltb_lt a b) H). Qed.

Lemma to_string_char b v : b ∈ to_string v -> 48 <= Z_of_byte b < 58.
Proof.
  unfold to_string. intros (d & -> & Hd)%list_elem_of_fmap.
  pose proof (strip_zeros_range 10 _ (digits_range 10 20 v ltac:(lia))) as Hr. rewrite Forall_forall in Hr. specialize (Hr d Hd).
  unfold digit_char. destruct (Z.ltb_spec d 10); [|lia]. rewrite Z_of_byte_of_Z. unfold u8. rewrite Z.mod_small; lia.
Qed.

Lemma to_string_not b v : ~ 48 <= Z_of_byte b < 58 -> b ∉ to_string v.
Proof. intros Hb Hin. by apply to_string_char in Hin. Qed.

Lemma to_string_nonempty v : to_string v <> [].
Proof.
  unfold to_string. intros E%fmap_nil_inv. revert E. apply strip_zeros_nonempty. intros E. apply (f_equal length) in E.
  by rewrite digits_length in E.
Qed.

Lemma strip_zeros_length ds : (length (strip_zeros ds) <= length ds)%nat.
Proof.
  induction ds as [|d ds IH]; [done|]. destruct d; [|done..]. destruct ds; [done|].
  etrans; [exact IH|]. simpl. lia.
Qed.

Lemma to_string_size v : 0 < size_of (to_string v) <= 20.
Proof.
  split; [apply size_of_pos, to_string_nonempty|]. unfold size_of, to_string. rewrite length_fmap.
  pose proof (strip_zeros_length (digits 10 20 v)) as H. rewrite digits_length in H. lia.
Qed.

(** Printing a number and reading its prefix up to a delimiter. *)
Lemma find_after_number b v rest : ~ 48 <= Z_of_byte b < 58 -> find [b] (to_string v ++ b :: rest) = Some (size_of (to_string v)).
Proof. intros Hb. by apply find_char, to_string_not. Qed.

Lemma substr_after pre b rest : substr (pre ++ b :: rest) (size_of pre + 1) = Done rest.
Proof.
  replace (pre ++ b :: rest) with ((pre ++ [b]) ++ rest) by by rewrite <- app_assoc.
  replace (size_of pre + 1) with (size_of (pre ++ [b])) by by rewrite size_of_app. apply substr_app.
Qed.
