(* ===== verification/CDouble.v ===== *)
(** * C++ [double]

    IEEE 754 binary64 with round-to-nearest-even, on the Standard Library's executable specification
    of floating point ([SpecFloat], no axiom). *)

From S2P Require Import Prelude.
From Stdlib Require Import SpecFloat.
Open Scope Z_scope.

Abbreviation double := spec_float.

Definition dzero : double := S754_zero false.

(** [static_cast<double>(n)] of an integer. *)
Definition double_of_Z (z : Z) : double := binary_normalize 53 1024 z 0 false.

Definition done_ : double := double_of_Z 1.

Definition dadd (a b : double) : double := SFadd 53 1024 a b.
Definition dsub (a b : double) : double := SFsub 53 1024 a b.
Definition dmul (a b : double) : double := SFmul 53 1024 a b.
Definition ddiv (a b : double) : double := SFdiv 53 1024 a b.
Definition dltb (a b : double) : bool := SFltb a b.
Definition dleb (a b : double) : bool := SFleb a b.

(** [std::min] and [std::max]: the first argument unless the second is strictly better. *)
Definition dmin (a b : double) : double := if dltb b a then b else a.
Definition dmax (a b : double) : double := if dltb a b then b else a.

(** [static_cast<size_t>(d)]: truncation towards zero. The conversion is undefined on a NaN, an
    infinity and values outside 64 bits; there the model is a total function like any other, and says nothing of
    the code. The parameter of the ARC cache stays between 0 and the capacity, and a watermark of at most 1 times
    a size below 2^63 stays in range. *)
Definition size_of_double (d : double) : Z :=
  match d with
  | S754_finite false m e => u64 (Z.shiftl (Zpos m) e)
  | _ => 0
  end.

Example size_of_double_trunc :
  size_of_double (ddiv (double_of_Z 7) (double_of_Z 2)) = 3 /\
  size_of_double (dadd (double_of_Z 2) (ddiv (double_of_Z 1) (double_of_Z 3))) = 2 /\
  dltb (ddiv done_ (double_of_Z 3)) (ddiv done_ (double_of_Z 2)) = true.
Proof. vm_compute. auto. Qed.
