(* ===== verification/CFormat.v ===== *)
(** * Printing and reading a C++ [double]

    [std::fixed << std::setprecision(p)] and [std::to_string] ([print_fixed]), the default output of a
    stream ([print_general], C's [%g] with six digits) and [std::stod] on the decimal notation without
    exponent. A finite [double] is an exact fraction, and every conversion rounds it once, to nearest
    with ties to even, as the C library does. *)

From S2P Require Import Prelude CStd CDouble.
From Stdlib Require Import Strings.Byte SpecFloat.
Open Scope Z_scope.

(** [m * 2^e] as a fraction. *)
Definition ratio_of (m : positive) (e : Z) : Z * Z :=
  if 0 <=? e then (Zpos m * 2 ^ e, 1) else (Zpos m, 2 ^ (- e)).

(** The integer nearest to [n / d], ties to even. *)
Definition round_ratio (n d : Z) : Z :=
  let q := n / d in
  match 2 * (n mod d) ?= d with
  | Lt => q
  | Gt => q + 1
  | Eq => if Z.even q then q else q + 1
  end.

(** All the decimal digits of a natural number; [log2 + 1] is more than enough of them. *)
Definition decimal_digits (n : Z) : list Z := strip_zeros (digits 10 (S (Z.to_nat (Z.log2 n))) n).

Definition decimal (n : Z) : bytes := digit_char <$> decimal_digits n.

Definition sign_of (negative : bool) : bytes := if negative then [x2d] else [].

(** [n / 10^p] with [p] decimals. *)
Definition print_scaled (p : nat) (n : Z) : bytes :=
  decimal (n / 10 ^ Z.of_nat p) ++
  (if (p =? 0)%nat then [] else [x2e]) ++ (digit_char <$> digits 10 p (n mod 10 ^ Z.of_nat p)).

(** [std::fixed] with precision [p]; [std::to_string] is precision 6. *)
Definition print_fixed (p : nat) (d : double) : bytes :=
  match d with
  | S754_nan => str "nan"
  | S754_infinity s => sign_of s ++ str "inf"
  | S754_zero s => sign_of s ++ print_scaled p 0
  | S754_finite s m e =>
      let '(n, den) := ratio_of m e in sign_of s ++ print_scaled p (round_ratio (n * 10 ^ Z.of_nat p) den)
  end.

Definition to_string_double (d : double) : bytes := print_fixed 6 d.

(** ** The default format of a stream *)

(** The least [j] from [j0] on with [d <= n * 10^j]: at most 400 steps, a double is not below 10^-324. *)
Definition tiny_exponent (n d : Z) : Z :=
  default 400 (loop 401 (fun j => if d <=? n * 10 ^ j then inr j else inl (j + 1)) 1).

(** The decimal exponent of [n / d]. *)
Definition exponent10 (n d : Z) : Z :=
  if d <=? n then size_of (decimal_digits (n / d)) - 1 else - tiny_exponent n d.

(** [n / d * 10^k], rounded. *)
Definition round_scaled (n d k : Z) : Z :=
  if 0 <=? k then round_ratio (n * 10 ^ k) d else round_ratio n (d * 10 ^ (- k)).

(** Six significant digits and their exponent. *)
Definition six_digits (n d : Z) : Z * Z :=
  let x := exponent10 n d in
  let v := round_scaled n d (5 - x) in
  if v =? 10 ^ 6 then (10 ^ 5, x + 1) else (v, x).

(** Trailing zeros of a fraction, and the point when nothing is left of it. *)
Fixpoint drop_zeros (ds : list Z) : list Z :=
  match ds with
  | [] => []
  | d :: rest => match drop_zeros rest with [] => if d =? 0 then [] else [d] | rest' => d :: rest' end
  end.

Definition print_fraction (ds : list Z) : bytes :=
  match drop_zeros ds with [] => [] | rest => x2e :: (digit_char <$> rest) end.

Definition print_exponent (x : Z) : bytes :=
  str "e" ++ (if x <? 0 then [x2d] else [x2b]) ++ (if Z.abs x <? 10 then str "0" else []) ++ decimal (Z.abs x).

Definition print_ratio (n d : Z) : bytes :=
  let '(v, x) := six_digits n d in
  let ds := digits 10 6 v in
  if (-4 <=? x) && (x <? 6) then
    if 0 <=? x then (digit_char <$> take (Z.to_nat (x + 1)) ds) ++ print_fraction (drop (Z.to_nat (x + 1)) ds)
    else str "0" ++ print_fraction (replicate (Z.to_nat (- x - 1)) 0 ++ ds)
  else (digit_char <$> take 1 ds) ++ print_fraction (drop 1 ds) ++ print_exponent x.

(** [oss << d] on a fresh stream. *)
Definition print_general (d : double) : bytes :=
  match d with
  | S754_nan => str "nan"
  | S754_infinity s => sign_of s ++ str "inf"
  | S754_zero s => sign_of s ++ str "0"
  | S754_finite s m e => let '(n, den) := ratio_of m e in sign_of s ++ print_ratio n den
  end.

(** ** Reading *)

(** The double nearest to [n / d]. *)
Definition double_of_ratio (negative : bool) (n d : Z) : double :=
  if n =? 0 then S754_zero negative
  else let '(q, e, l) := SFdiv_core_binary 53 1024 n 0 d 0 in binary_round_aux 53 1024 negative q e l.

(** [std::stod]: white space, sign, digits, point, digits; at least one digit, and no overflow. *)
Definition stod (s : bytes) : outcome double :=
  let '(neg, s1) := read_sign (skip_spaces s) in
  let whole := read_digits 10 s1 in
  let rest := drop (length whole) s1 in
  let frac := match rest with x2e :: rest' => read_digits 10 rest' | _ => [] end in
  match whole ++ frac with
  | [] => Throw "stod"
  | ds =>
      match double_of_ratio neg (digits_value 10 ds) (10 ^ size_of frac) with
      | S754_infinity _ => Throw "stod"
      | d => Done d
      end
  end.

(** ** Samples *)

Definition tenth : double := ddiv (double_of_Z 1) (double_of_Z 10).

Example print_samples :
  print_fixed 2 (double_of_Z 3) = str "3.00" /\ print_fixed 1 tenth = str "0.1" /\
  print_fixed 3 (ddiv (double_of_Z 2) (double_of_Z 3)) = str "0.667" /\
  to_string_double (ddiv (double_of_Z 200) (double_of_Z 3)) = str "66.666667" /\
  print_fixed 0 (ddiv (double_of_Z 5) (double_of_Z 2)) = str "2" /\
  print_general (ddiv (double_of_Z 200) (double_of_Z 3)) = str "66.6667" /\
  print_general (double_of_Z 100) = str "100" /\ print_general (double_of_Z 1234567) = str "1.23457e+06" /\
  print_general (ddiv (double_of_Z 1) (double_of_Z 100000)) = str "1e-05" /\
  print_general (double_of_Z 9999999) = str "1e+07" /\ print_general (ddiv tenth (double_of_Z 1000)) = str "0.0001".
Proof. vm_compute. done. Qed.

Example stod_samples :
  stod (str "0.1") = Done tenth /\ stod (str "0.95") = Done (ddiv (double_of_Z 95) (double_of_Z 100)) /\
  stod (str "-2.50") = Done (SFopp (ddiv (double_of_Z 5) (double_of_Z 2))) /\ stod (str ".") = Throw "stod" /\
  stod (str "7") = Done (double_of_Z 7).
Proof. vm_compute. done. Qed.
