(* ===== verification/Types.v ===== *)
(** * Core types: [include/elcache/types.hpp], [src/core/types.cpp]

    Hashes, keys, node and chunk identifiers, byte ranges, metadata, error codes and statuses, and
    [ChunkRange::compute]. The build uses xxHash, which is not part of the repository: the class
    [Hasher] is what the code calls it for; [fnv_hasher] is the fallback the sources define. *)

From S2P Require Import Prelude CStd.
From Stdlib Require Import Strings.Byte.
Open Scope Z_scope.

(** ** Constants *)

Definition MAX_KEY_SIZE : Z := 8 * 1024.
Definition MAX_VALUE_SIZE : Z := 20 * 1024 * 1024 * 1024 * 1024.
Definition CHUNK_SIZE : Z := 4 * 1024 * 1024.
Definition MAX_CHUNKS_PER_VALUE : Z := (MAX_VALUE_SIZE + CHUNK_SIZE - 1) / CHUNK_SIZE.

Lemma CHUNK_SIZE_pos : 0 < CHUNK_SIZE.
Proof. reflexivity. Qed.

Lemma CHUNK_SIZE_u64 : is_u64 CHUNK_SIZE.
Proof. done. Qed.

(** ** Hashes *)

Record Hash128 := mkHash128 { low : Z; high : Z }.

#[export] Instance Hash128_eq_dec : EqDecision Hash128.
Proof. solve_decision. Defined.

#[export] Program Instance Hash128_countable : Countable Hash128 :=
  inj_countable' (fun h => (low h, high h)) (fun p => mkHash128 p.1 p.2) _.
Next Obligation. by intros []. Qed.

Definition Hash128_zero : Hash128 := mkHash128 0 0.

Definition Hash128_eqb (a b : Hash128) : bool := (low a =? low b) && (high a =? high b).

Definition Hash128_ltb (a b : Hash128) : bool :=
  (high a <? high b) || ((high a =? high b) && (low a <? low b)).

Definition Hash128_is_zero (h : Hash128) : bool := (low h =? 0) && (high h =? 0).

Definition Hash128_wf (h : Hash128) : Prop := is_u64 (low h) /\ is_u64 (high h).

Definition Hash128_to_hex (h : Hash128) : bytes := hex16 (high h) ++ hex16 (low h).

Definition Hash128_from_hex (hex : bytes) : outcome Hash128 :=
  if 32 <=? size_of hex then
    let high_str := take 16 hex in
    let low_str := take 16 (drop 16 hex) in
    hi ← stoull 16 high_str;
    lo ← stoull 16 low_str;
    Done (mkHash128 lo hi)
  else Done Hash128_zero.

(** The FNV-1a fallback of [types.cpp]. *)
Definition fnv1a_64 (data : bytes) : Z :=
  foldl (fun hash b => u64 (Z.lxor hash (Z_of_byte b) * 1099511628211))
        14695981039346656037 data.

Definition golden : Z := 0x9E3779B97F4A7C15.

(** ** The hash functions the code is built with *)

Class Hasher := {
  hash64 : bytes -> Z;
  hash128 : bytes -> Hash128;
  content_hash : bytes -> Hash128;
  hash64_wf : forall s, is_u64 (hash64 s);
  hash128_wf : forall s, Hash128_wf (hash128 s);
  content_hash_wf : forall s, Hash128_wf (content_hash s)
}.

(** The content hash of the fallback branch of [Chunk::id] ([src/core/chunk.cpp]). *)
Definition fnv_content_step (h : Z * Z) (b : byte) : Z * Z :=
  let h1 := u64 (Z.lxor h.1 (Z_of_byte b) * 1099511628211) in
  let h2 := u64 (Z.lxor h.2 (Z_of_byte b) * 1099511628211) in
  (h1, u64 (Z.lor (u64 (Z.shiftl h2 13)) (Z.shiftr h2 51))).

Definition fnv_content_hash (data : bytes) : Hash128 :=
  let '(h1, h2) := foldl fnv_content_step
    (14695981039346656037, Z.lxor 14695981039346656037 golden) data in
  mkHash128 h1 h2.

Definition fnv_hash128 (data : bytes) : Hash128 :=
  mkHash128 (fnv1a_64 data) (Z.lxor (fnv1a_64 data) golden).

Lemma is_u64_lxor a b : is_u64 a -> is_u64 b -> is_u64 (Z.lxor a b).
Proof.
  intros [Ha Ha'] [Hb Hb']. split; [by apply Z.lxor_nonneg|].
  destruct (Z.eq_dec (Z.lxor a b) 0) as [E|E]; [rewrite E; lia|].
  apply Z.log2_lt_pow2; [pose proof (Z.lxor_nonneg a b); lia|].
  apply Z.le_lt_trans with (Z.max (Z.log2 a) (Z.log2 b)); [by apply Z.log2_lxor|].
  apply Z.max_lub_lt.
  - destruct (Z.eq_dec a 0) as [->|]; [simpl; lia|]. apply Z.log2_lt_pow2; lia.
  - destruct (Z.eq_dec b 0) as [->|]; [simpl; lia|]. apply Z.log2_lt_pow2; lia.
Qed.

Lemma fnv1a_64_wf s : is_u64 (fnv1a_64 s).
Proof.
  unfold fnv1a_64. destruct s as [|b s] using rev_ind; [done|].
  rewrite foldl_snoc. apply u64_range.
Qed.

Lemma fnv_content_hash_wf s : Hash128_wf (fnv_content_hash s).
Proof.
  unfold fnv_content_hash. destruct s as [|b s] using rev_ind; [done|].
  rewrite foldl_snoc. unfold fnv_content_step at 1. split; apply u64_range.
Qed.

Lemma golden_u64 : is_u64 golden.
Proof. done. Qed.

(** The fallback branch ([ELCACHE_USE_XXHASH] not defined). *)
Definition fnv_hasher : Hasher := {|
  hash64 := fnv1a_64;
  hash128 := fnv_hash128;
  content_hash := fnv_content_hash;
  hash64_wf := fnv1a_64_wf;
  hash128_wf s := conj (fnv1a_64_wf s) (is_u64_lxor _ _ (fnv1a_64_wf s) golden_u64);
  content_hash_wf := fnv_content_hash_wf
|}.

(** ** Keys *)

Record CacheKey := mkCacheKey { key_data : bytes; key_hash : Z; key_hash128 : Hash128 }.

#[export] Instance CacheKey_eq_dec : EqDecision CacheKey.
Proof. solve_decision. Defined.

#[export] Program Instance CacheKey_countable : Countable CacheKey :=
  inj_countable' (fun k => (key_data k, key_hash k, key_hash128 k))
                 (fun p => mkCacheKey p.1.1 p.1.2 p.2) _.
Next Obligation. by intros []. Qed.

(** [CacheKey::compute_hash], run by the constructor on [data_]. *)
Definition compute_hash `{Hasher} (data : bytes) : Z * Hash128 :=
  if bool_decide (data = []) then (0, Hash128_zero) else (hash64 data, hash128 data).

Definition CacheKey_make `{Hasher} (key : bytes) : CacheKey :=
  mkCacheKey key (compute_hash key).1 (compute_hash key).2.

Definition CacheKey_size (k : CacheKey) : Z := size_of (key_data k).

(** [operator==] compares the 64-bit hash first, then the bytes. *)
Definition CacheKey_eqb (a b : CacheKey) : bool :=
  (key_hash a =? key_hash b) && bool_decide (key_data a = key_data b).

(** A key the program can hold: default-constructed or made from a string. *)
Definition CacheKey_wf `{Hasher} (k : CacheKey) : Prop := k = CacheKey_make (key_data k).

(** ** Chunk and node identifiers *)

Abbreviation ChunkId := Hash128 (only parsing).

Definition ChunkId_is_valid (c : ChunkId) : bool := negb (Hash128_is_zero c).

Definition ChunkId_eqb (c other : ChunkId) : bool := Hash128_eqb c other.
Definition ChunkId_ltb (c other : ChunkId) : bool := Hash128_ltb c other.
Definition ChunkId_to_string (c : ChunkId) : bytes := Hash128_to_hex c.

Abbreviation NodeId := Z (only parsing).

Definition NodeId_is_valid (id : NodeId) : bool := negb (id =? 0).

Definition NodeId_eqb (id other : NodeId) : bool := id =? other.
Definition NodeId_ltb (id other : NodeId) : bool := id <? other.

Definition NodeId_from_address `{Hasher} (addr : bytes) (port : Z) : NodeId :=
  hash64 (addr ++ str ":" ++ to_string port).

Definition NodeId_to_string (id : NodeId) : bytes := hex16 id.

(** ** [std::hash] *)

Definition hash_CacheKey (k : CacheKey) : Z := key_hash k.
Definition hash_ChunkId (c : ChunkId) : Z := Z.lxor (low c) (high c).
Definition hash_NodeId (n : NodeId) : Z := n.
Definition hash_Hash128 (h : Hash128) : Z := Z.lxor (low h) (high h).

(** ** Byte ranges *)

Record Range := mkRange { r_offset : Z; r_length : Z }.

#[export] Instance Range_eq_dec : EqDecision Range.
Proof. solve_decision. Defined.

Definition Range_end (r : Range) : Z := r_offset r +w r_length r.

Definition Range_overlaps (r other : Range) : bool :=
  (r_offset r <? Range_end other) && (r_offset other <? Range_end r).

Definition Range_intersect (r other : Range) : Range :=
  let start := Z.max (r_offset r) (r_offset other) in
  let stop := Z.min (Range_end r) (Range_end other) in
  if stop <=? start then mkRange 0 0 else mkRange start (stop -w start).

Definition Range_contains (r other : Range) : bool :=
  (r_offset r <=? r_offset other) && (Range_end other <=? Range_end r).

Definition Range_is_empty (r : Range) : bool := r_length r =? 0.

(** A range of 64-bit fields whose end does not wrap. *)
Definition Range_ok (r : Range) : Prop :=
  0 <= r_offset r /\ 0 <= r_length r /\ r_offset r + r_length r < 2 ^ 64.

(** Byte position [b] lies in the range. *)
Definition in_range (b : Z) (r : Range) : Prop :=
  r_offset r <= b < r_offset r + r_length r.

(** ** Chunk ranges *)

Record ChunkRange := mkChunkRange {
  chunk_index : Z; offset_in_chunk : Z; cr_length : Z }.

(** The loop of [ChunkRange::compute]: variables [current_offset], [remaining], [ranges]. *)
Definition compute_step (chunk_size : Z) (s : Z * Z * list ChunkRange)
  : (Z * Z * list ChunkRange) + list ChunkRange :=
  let '(current_offset, remaining, ranges) := s in
  if 0 <? remaining then
    let index := current_offset / chunk_size in
    let off := current_offset mod chunk_size in
    let available_in_chunk := chunk_size -w off in
    let to_read := Z.min remaining available_in_chunk in
    inl (current_offset +w to_read, remaining -w to_read,
         ranges ++ [mkChunkRange index off to_read])
  else inr ranges.

(** Iterations: one per chunk touched. *)
Definition compute_fuel (r : Range) (chunk_size : Z) : nat :=
  Z.to_nat (r_length r / chunk_size + 3).

Definition ChunkRange_compute (r : Range) (chunk_size : Z) : outcome (list ChunkRange) :=
  if r_length r =? 0 then Done []
  else if chunk_size =? 0 then Undef (* division by zero *)
  else match loop (compute_fuel r chunk_size) (compute_step chunk_size)
                  (r_offset r, r_length r, []) with
       | Some ranges => Done ranges
       | None => Spin
       end.

(** ** Metadata, results, statuses *)

(** Times are nanoseconds of [std::chrono::system_clock] since the epoch; [now] is read from the
    clock by the caller of the model. *)
Record CacheMetadata := mkMetadata {
  md_total_size : Z;
  md_chunk_count : Z;
  md_created_at : Z;
  md_last_accessed : Z;
  md_expires_at : option Z;
  md_flags : Z
}.

Definition CacheMetadata_default : CacheMetadata := mkMetadata 0 0 0 0 None 0.

Definition is_expired (now : Z) (m : CacheMetadata) : bool :=
  match md_expires_at m with
  | None => false
  | Some t => t <=? now
  end.

Inductive CacheResult := Hit | Miss | PartialHit | CacheError | Expired | ResultNotFound
  | CacheResult_other (v : Z).

Inductive ErrorCode :=
| EOk | KeyTooLarge | ValueTooLarge | NotFound | PartialData | NetworkError | DiskError
| Timeout | InvalidArgument | OutOfMemory | InternalError
| ErrorCode_other (v : Z).

#[export] Instance CacheResult_eq_dec : EqDecision CacheResult.
Proof. solve_decision. Defined.
#[export] Instance ErrorCode_eq_dec : EqDecision ErrorCode.
Proof. solve_decision. Defined.

Record Status := mkStatus { st_code : ErrorCode; st_message : bytes }.

Definition make_ok : Status := mkStatus EOk [].
Definition status_error (code : ErrorCode) (msg : bytes) : Status := mkStatus code msg.
Definition is_ok (s : Status) : bool := bool_decide (st_code s = EOk).
Definition is_error (s : Status) : bool := negb (bool_decide (st_code s = EOk)).

Definition error_code_string (code : ErrorCode) : string :=
  match code with
  | EOk => "Ok"
  | KeyTooLarge => "Key too large"
  | ValueTooLarge => "Value too large"
  | NotFound => "Not found"
  | PartialData => "Partial data"
  | NetworkError => "Network error"
  | DiskError => "Disk error"
  | Timeout => "Timeout"
  | InvalidArgument => "Invalid argument"
  | OutOfMemory => "Out of memory"
  | InternalError => "Internal error"
  | ErrorCode_other _ => "Unknown error"
  end.

(** ** Properties *)

Lemma hex16_length v : length (hex16 v) = 16%nat.
Proof. unfold hex16. by rewrite length_fmap, digits_length. Qed.

(** Reading back the hexadecimal form of a 128-bit hash gives the hash: [from_hex] inverts
    [to_hex]. *)
Theorem from_hex_to_hex h : Hash128_wf h -> Hash128_from_hex (Hash128_to_hex h) = Done h.
Proof.
  intros [Hl Hh]. unfold Hash128_from_hex, Hash128_to_hex.
  assert (size_of (hex16 (high h) ++ hex16 (low h)) = 32) as ->.
  { unfold size_of. by rewrite length_app, !hex16_length. }
  simpl (32 <=? 32). cbn match.
  rewrite take_app_length' by (by rewrite hex16_length).
  rewrite drop_app_length' by (by rewrite hex16_length).
  rewrite take_ge by (rewrite hex16_length; lia).
  rewrite !stoull_hex16 by done. by destruct h.
Qed.

Lemma from_hex_to_hex_witness :
  Hash128_from_hex (Hash128_to_hex (mkHash128 0xdeadbeef 0x123456789abcdef0))
  = Done (mkHash128 0xdeadbeef 0x123456789abcdef0).
Proof. apply from_hex_to_hex. split; split; vm_compute; congruence. Defined.

(** [operator==] of keys is equality: the [unordered_map]s over keys are maps over keys. *)
Lemma CacheKey_eqb_spec `{Hasher} a b :
  CacheKey_wf a -> CacheKey_wf b -> CacheKey_eqb a b = bool_decide (a = b).
Proof.
  intros Ha Hb. unfold CacheKey_eqb. destruct (decide (key_data a = key_data b)) as [E|E].
  - assert (a = b) as -> by (rewrite Ha, Hb, E; reflexivity).
    by rewrite Z.eqb_refl, !bool_decide_eq_true_2.
  - rewrite !bool_decide_eq_false_2 by congruence. apply andb_false_r.
Qed.

(** What the ordered containers need of [operator<] and the unordered ones of [operator==] and [std::hash]:
    a strict total order whose equality is [operator==], and equal hashes of equal values. *)
Definition container_key {A} (ok : A -> Prop) (eqb ltb : A -> A -> bool) (hash : A -> Z) : Prop :=
  (forall a b, eqb a b = true <-> a = b) /\ (forall a, ltb a a = false) /\
  (forall a b c, ltb a b = true -> ltb b c = true -> ltb a c = true) /\
  (forall a b, a <> b -> ltb a b = true \/ ltb b a = true) /\ (forall a, ok a -> is_u64 (hash a)).

Lemma Hash128_container_key : container_key Hash128_wf Hash128_eqb Hash128_ltb hash_Hash128.
Proof.
  unfold container_key, Hash128_eqb, Hash128_ltb. split_and!.
  - intros [la ha] [lb hb]. cbn. rewrite andb_true_iff, !Z.eqb_eq. split; [by intros [-> ->]|by intros [= -> ->]].
  - intros [l h]. cbn. by rewrite !Z.ltb_irrefl, Z.eqb_refl.
  - intros [la ha] [lb hb] [lc hc]. cbn. rewrite !orb_true_iff, !andb_true_iff, !Z.ltb_lt, !Z.eqb_eq. lia.
  - intros [la ha] [lb hb] Hne. cbn. rewrite !orb_true_iff, !andb_true_iff, !Z.ltb_lt, !Z.eqb_eq.
    destruct (Z.eq_dec ha hb) as [->|]; [|lia]. destruct (Z.eq_dec la lb) as [->|]; [done|lia].
  - intros h [Hl Hh]. by apply is_u64_lxor.
Qed.

Lemma ChunkId_container_key : container_key Hash128_wf ChunkId_eqb ChunkId_ltb hash_ChunkId.
Proof. exact Hash128_container_key. Qed.

Lemma NodeId_container_key : container_key is_u64 NodeId_eqb NodeId_ltb hash_NodeId.
Proof.
  unfold container_key, NodeId_eqb, NodeId_ltb. split_and!; [apply Z.eqb_eq|apply Z.ltb_irrefl| | |done].
  - intros a b c. rewrite !Z.ltb_lt. lia.
  - intros a b Hne. rewrite !Z.ltb_lt. lia.
Qed.

(** Keys are only compared for equality: equal keys have equal hashes. *)
Lemma CacheKey_hash_eqb a b : CacheKey_eqb a b = true -> hash_CacheKey a = hash_CacheKey b.
Proof. unfold CacheKey_eqb. intros [H _]%andb_true_iff. by apply Z.eqb_eq in H. Qed.

(** A value of the largest size has exactly [MAX_CHUNKS_PER_VALUE] chunks. *)
Lemma max_chunks : MAX_CHUNKS_PER_VALUE * CHUNK_SIZE = MAX_VALUE_SIZE.
Proof. reflexivity. Qed.

Lemma Range_end_ok r : Range_ok r -> Range_end r = r_offset r + r_length r.
Proof. intros (? & ? & ?). unfold Range_end. apply u64_small. unfold is_u64. lia. Qed.

(** On ranges that do not wrap, [intersect] holds exactly the common bytes, [overlaps] tells
    whether two non-empty ranges have one, and [contains] is inclusion of the bytes for a non-empty
    inner range. *)
Theorem Range_set_operations r s :
  Range_ok r -> Range_ok s ->
  (forall b, in_range b (Range_intersect r s) <-> in_range b r /\ in_range b s) /\
  (0 < r_length r -> 0 < r_length s ->
     (Range_overlaps r s = true <-> exists b, in_range b r /\ in_range b s)) /\
  (0 < r_length s ->
     (Range_contains r s = true <-> forall b, in_range b s -> in_range b r)).
Proof.
  intros Hr Hs. pose proof (Range_end_ok r Hr) as Er. pose proof (Range_end_ok s Hs) as Es.
  destruct Hr as (? & ? & ?), Hs as (? & ? & ?). unfold in_range.
  split; [|split].
  - intros b. unfold Range_intersect. rewrite Er, Es.
    case_match_goal; bool_hyps; simpl; [lia|]. word_small. lia.
  - intros Hlr Hls. unfold Range_overlaps. rewrite Er, Es, andb_true_iff, !Z.ltb_lt. split.
    + intros ?. exists (Z.max (r_offset r) (r_offset s)). lia.
    + intros (b & ? & ?). lia.
  - intros Hls. unfold Range_contains. rewrite Er, Es, andb_true_iff, !Z.leb_le. split.
    + intros ? b ?. lia.
    + intros Hsub. pose proof (Hsub (r_offset s)). pose proof (Hsub (r_offset s + r_length s - 1)). lia.
Qed.

Lemma Range_set_operations_witness :
  Range_overlaps (mkRange 0 10) (mkRange 5 10) = true /\
  in_range 7 (Range_intersect (mkRange 0 10) (mkRange 5 10)).
Proof.
  destruct (Range_set_operations (mkRange 0 10) (mkRange 5 10)) as (HI & HO & _).
  - repeat split; simpl; lia.
  - repeat split; simpl; lia.
  - split; [reflexivity|]. apply HI. unfold in_range. simpl. lia.
Defined.

(** The pieces of [ChunkRange::compute] cover [off, off + len) in order, each inside one chunk, and
    every piece but the last runs to the end of its chunk. *)
Fixpoint tiles (cs off len : Z) (ps : list ChunkRange) : Prop :=
  match ps with
  | [] => len = 0
  | p :: ps' =>
      chunk_index p * cs + offset_in_chunk p = off /\
      0 <= offset_in_chunk p /\ 0 < cr_length p /\
      offset_in_chunk p + cr_length p <= cs /\
      (ps' <> [] -> offset_in_chunk p + cr_length p = cs) /\
      tiles cs (off + cr_length p) (len - cr_length p) ps'
  end.

Lemma tiles_snoc cs off len ps p :
  tiles cs off len ps ->
  (ps <> [] -> (off + len) mod cs = 0) -> 0 < cs ->
  chunk_index p * cs + offset_in_chunk p = off + len ->
  0 <= offset_in_chunk p -> 0 < cr_length p -> offset_in_chunk p + cr_length p <= cs ->
  tiles cs off (len + cr_length p) (ps ++ [p]).
Proof.
  revert off len. induction ps as [|q ps IH]; intros off len Ht Hb Hcs Hi Ho Hl Hle; simpl in *.
  - subst. split_and!; try lia. intros []. done.
  - destruct Ht as (? & ? & ? & ? & Hend & Ht). split_and!; try lia.
    + intros _. destruct ps as [|q' ps]; [|by apply Hend].
      simpl in Ht. specialize (Hb ltac:(done)).
      replace (off + len) with (chunk_index q * cs + (offset_in_chunk q + cr_length q)) in Hb by lia.
      rewrite Z.add_comm, Z_mod_plus_full in Hb.
      apply Z.mod_divide in Hb as [k Hk]; [|lia]. assert (k = 1) by nia. lia.
    + replace (len + cr_length p - cr_length q) with ((len - cr_length q) + cr_length p) by lia.
      apply IH; try done.
      * intros Hne. replace (off + cr_length q + (len - cr_length q)) with (off + len) by lia.
        by apply Hb.
      * lia.
Qed.

(** The loop of [compute]: what was cut off so far, and how many pieces are left. *)
Definition compute_inv (r : Range) (cs : Z) (s : Z * Z * list ChunkRange) : Prop :=
  let '(cur, rem, ps) := s in
  0 <= rem <= r_length r /\ cur = r_offset r + (r_length r - rem) /\
  tiles cs (r_offset r) (r_length r - rem) ps /\
  (ps <> [] -> 0 < rem -> cur mod cs = 0).

Definition compute_measure (cs : Z) (s : Z * Z * list ChunkRange) : Z :=
  let '(cur, rem, _) := s in if 0 <? rem then (cur mod cs + rem + cs - 1) / cs else 0.

Lemma compute_step_inv r cs s :
  Range_ok r -> 0 < cs < 2 ^ 64 -> compute_inv r cs s ->
  match compute_step cs s with
  | inl s' => compute_inv r cs s' /\ 0 <= compute_measure cs s' < compute_measure cs s
  | inr ps => tiles cs (r_offset r) (r_length r) ps
  end.
Proof.
  intros (Ho & Hl & Hw) Hcs. destruct s as [[cur rem] ps]. intros (Hrem & Hcur & Ht & Hal). unfold compute_step.
  pose proof (Z.mod_pos_bound cur cs) as Hm. pose proof (Z.div_mod cur cs) as Hdm.
  destruct (Z.ltb_spec 0 rem) as [Hp|Hp].
  2: { replace rem with 0 in Ht by lia. by rewrite Z.sub_0_r in Ht. }
  word_small. set (tr := Z.min rem (cs - cur mod cs)). split.
  - split_and!; try lia.
    + replace (r_length r - (rem - tr)) with ((r_length r - rem) + tr) by lia.
      apply (tiles_snoc _ _ _ _ (mkChunkRange (cur / cs) (cur mod cs) tr)); simpl; try lia; [done|].
      intros Hne. rewrite <- Hcur. by apply Hal.
    + intros _ Hrem'. replace (cur + tr) with ((cur / cs + 1) * cs) by lia.
      apply Z.mod_mul. lia.
  - unfold compute_measure. destruct (Z.ltb_spec 0 rem); [|lia].
    assert (0 <= (cur mod cs + rem + cs - 1) / cs) by (apply Z.div_pos; lia).
    destruct (Z.ltb_spec 0 (rem - tr)).
    + replace (cur + tr) with ((cur / cs + 1) * cs) by lia. rewrite Z.mod_mul by lia.
      replace (cur mod cs + rem + cs - 1) with ((0 + (rem - tr) + cs - 1) + 1 * cs) by lia.
      rewrite Z.div_add by lia. split; [apply Z.div_pos|]; lia.
    + split; [lia|]. apply Z.lt_le_trans with 1; [lia|].
      apply Z.div_le_lower_bound; lia.
Qed.

(** For a range that does not wrap and a positive chunk size, [ChunkRange::compute] ends, and
    its pieces tile the range: in order, without gap or overlap, each inside the chunk it names. *)
Theorem ChunkRange_compute_tiles r cs :
  Range_ok r -> 0 < cs < 2 ^ 64 ->
  exists ps, ChunkRange_compute r cs = Done ps /\ tiles cs (r_offset r) (r_length r) ps.
Proof.
  intros Hr Hcs. pose proof Hr as (Ho & Hl & Hw). unfold ChunkRange_compute.
  destruct (Z.eqb_spec (r_length r) 0) as [E|E]; [exists []; simpl; auto|].
  destruct (Z.eqb_spec cs 0); [lia|]. pose proof (Z.mod_pos_bound (r_offset r) cs).
  destruct (loop_rule (compute_inv r cs) (tiles cs (r_offset r) (r_length r)) (compute_measure cs) (compute_step cs))
    with (fuel := compute_fuel r cs) (s := (r_offset r, r_length r, @nil ChunkRange)) as (ps & Hps & Ht).
  - intros s Hs. by apply compute_step_inv.
  - split_and!; try lia; [|done]. simpl. lia.
  - unfold compute_measure, compute_fuel. destruct (Z.ltb_spec 0 (r_length r)); [|lia].
    pose proof (Z.div_pos (r_length r) cs). rewrite Z2Nat.id by lia.
    apply Z.le_lt_trans with ((r_length r + 2 * cs) / cs); [apply Z.div_le_mono; lia|].
    rewrite Z.div_add by lia. lia.
  - unfold compute_measure. destruct (Z.ltb_spec 0 (r_length r)); [|lia]. apply Z.div_pos; lia.
  - rewrite Hps. eauto.
Qed.

Lemma ChunkRange_compute_tiles_witness :
  exists ps, ChunkRange_compute (mkRange (CHUNK_SIZE - 1) (CHUNK_SIZE + 2)) CHUNK_SIZE = Done ps /\
  tiles CHUNK_SIZE (CHUNK_SIZE - 1) (CHUNK_SIZE + 2) ps.
Proof.
  apply (ChunkRange_compute_tiles (mkRange (CHUNK_SIZE - 1) (CHUNK_SIZE + 2)) CHUNK_SIZE).
  - repeat split; vm_compute; congruence.
  - split; vm_compute; congruence.
Defined.
