(* ===== verification/Chunk.v ===== *)
(** * Chunks and partial values: [include/elcache/chunk.hpp], [src/core/chunk.cpp]

    A value is stored as chunks of [CHUNK_SIZE] bytes under the hash of their content; a
    [PartialValue] tracks which chunks of a value are present and answers range queries. The theorems
    give the byte-level meaning of the range queries. *)

From S2P Require Import Prelude CStd CDouble Types.
Open Scope Z_scope.

(** ** Chunks *)

Record Chunk := mkChunk { chunk_data : bytes; chunk_id_ : option ChunkId }.

(** [std::shared_ptr<Chunk>]; [None] is [nullptr]. *)
Abbreviation SharedChunk := (option Chunk).

Definition Chunk_make (data : bytes) : Chunk := mkChunk data None.

Definition Chunk_size (c : Chunk) : Z := size_of (chunk_data c).

(** [Chunk::id]: the content hash, computed at the first call and kept in [id_]. *)
Definition Chunk_id `{Hasher} (c : Chunk) : ChunkId * Chunk :=
  match chunk_id_ c with
  | Some i => (i, c)
  | None => let i := content_hash (chunk_data c) in (i, mkChunk (chunk_data c) (Some i))
  end.

Definition Chunk_read (c : Chunk) (offset length : Z) : bytes :=
  if Chunk_size c <=? offset then []
  else
    let actual_length := Z.min length (Chunk_size c -w offset) in
    slice offset actual_length (chunk_data c).

(** ** Value descriptors *)

Record ValueDescriptor := mkDescriptor {
  vd_key : CacheKey;
  vd_total_size : Z;
  vd_chunks : list ChunkId;
  vd_metadata : CacheMetadata
}.

Definition locate_chunk (byte_offset : Z) : Z * Z :=
  (byte_offset / CHUNK_SIZE, byte_offset mod CHUNK_SIZE).

Definition vd_is_complete (d : ValueDescriptor) : bool :=
  let expected := (vd_total_size d +w CHUNK_SIZE -w 1) / CHUNK_SIZE in
  size_of (vd_chunks d) =? expected.

(** The last chunk index a clamped range touches, as the three range functions compute it. *)
Definition end_chunk_of (end_offset : Z) : Z :=
  if 0 <? end_offset then (end_offset -w 1) / CHUNK_SIZE else 0.

Definition chunks_for_range_step (end_chunk n : Z) (s : Z * list Z) : (Z * list Z) + list Z :=
  let '(i, result) := s in
  if (i <=? end_chunk) && (i <? n) then inl (i +w 1, result ++ [i]) else inr result.

Definition chunks_for_range (d : ValueDescriptor) (range : Range) : list Z :=
  if (r_length range =? 0) || (vd_total_size d <=? r_offset range) then []
  else
    let start_chunk := r_offset range / CHUNK_SIZE in
    let end_offset := Z.min (Range_end range) (vd_total_size d) in
    let end_chunk := end_chunk_of end_offset in
    default [] (loop (S (length (vd_chunks d)))
                     (chunks_for_range_step end_chunk (size_of (vd_chunks d))) (start_chunk, [])).

(** ** Partial values *)

Record PartialValue := mkPartial {
  pv_total_size : Z;
  pv_availability : list bool;
  pv_chunk_ids : list ChunkId
}.

Definition PartialValue_make (d : ValueDescriptor) : PartialValue :=
  mkPartial (vd_total_size d) (replicate (length (vd_chunks d)) false) (vd_chunks d).

(** [chunk_availability_[i]] for an index in range. *)
Definition avail_at (l : list bool) (i : Z) : bool := default false (l !! Z.to_nat i).

Definition has_chunk (p : PartialValue) (index : Z) : bool :=
  if size_of (pv_availability p) <=? index then false else avail_at (pv_availability p) index.

Definition mark_chunk_available (p : PartialValue) (index : Z) (id : ChunkId) : PartialValue :=
  if size_of (pv_availability p) <=? index then p
  else mkPartial (pv_total_size p) (<[Z.to_nat index := true]> (pv_availability p))
                 (<[Z.to_nat index := id]> (pv_chunk_ids p)).

Definition mark_chunk_unavailable (p : PartialValue) (index : Z) : PartialValue :=
  if size_of (pv_availability p) <=? index then p
  else mkPartial (pv_total_size p) (<[Z.to_nat index := false]> (pv_availability p))
                 (pv_chunk_ids p).

Definition has_range_step (p : PartialValue) (end_chunk i : Z) : Z + bool :=
  if i <=? end_chunk then
    if (size_of (pv_availability p) <=? i) || negb (avail_at (pv_availability p) i)
    then inr false else inl (i +w 1)
  else inr true.

Definition has_range (p : PartialValue) (range : Range) : bool :=
  if r_length range =? 0 then true
  else if pv_total_size p <=? r_offset range then false
  else
    let start_chunk := r_offset range / CHUNK_SIZE in
    let end_offset := Z.min (Range_end range) (pv_total_size p) in
    let end_chunk := end_chunk_of end_offset in
    default false (loop (S (S (length (pv_availability p))))
                        (has_range_step p end_chunk) start_chunk).

(** [missing.back().length += ...] when contiguous, [push_back] otherwise. *)
Definition push_missing (missing : list Range) (miss_start miss_end : Z) : list Range :=
  let fresh := missing ++ [mkRange miss_start (miss_end -w miss_start)] in
  match last missing with
  | Some back =>
      if Range_end back =? miss_start then
        removelast missing ++ [mkRange (r_offset back) (r_length back +w (miss_end -w miss_start))]
      else fresh
  | None => fresh
  end.

Definition missing_ranges_step (p : PartialValue) (effective_end : Z) (s : Z * list Range)
  : (Z * list Range) + list Range :=
  let '(current, missing) := s in
  if current <? effective_end then
    let index := current / CHUNK_SIZE in
    let chunk_start := index *w CHUNK_SIZE in
    let chunk_end := Z.min (chunk_start +w CHUNK_SIZE) (pv_total_size p) in
    let missing' :=
      if (size_of (pv_availability p) <=? index) || negb (avail_at (pv_availability p) index) then
        push_missing missing (Z.max current chunk_start) (Z.min effective_end chunk_end)
      else missing in
    inl (chunk_end, missing')
  else inr missing.

Definition missing_ranges (p : PartialValue) (range : Range) : list Range :=
  if (r_length range =? 0) || (pv_total_size p <=? r_offset range) then []
  else
    let effective_end := Z.min (Range_end range) (pv_total_size p) in
    default [] (loop (Z.to_nat (effective_end / CHUNK_SIZE - r_offset range / CHUNK_SIZE + 2))
                     (missing_ranges_step p effective_end) (r_offset range, [])).

(** The inner loop: variables [i] and [end]. *)
Definition available_run_step (p : PartialValue) (s : Z * Z) : (Z * Z) + (Z * Z) :=
  let '(i, e) := s in
  if (i <? size_of (pv_availability p)) && avail_at (pv_availability p) i then
    inl (i +w 1, Z.min ((i +w 1) *w CHUNK_SIZE) (pv_total_size p))
  else inr (i, e).

Definition available_ranges_step (p : PartialValue) (s : Z * list Range)
  : (Z * list Range) + list Range :=
  let '(i, available) := s in
  if i <? size_of (pv_availability p) then
    if avail_at (pv_availability p) i then
      let start := i *w CHUNK_SIZE in
      let '(i', e) := default (i, start)
        (loop (S (length (pv_availability p))) (available_run_step p) (i, start)) in
      inl (i', available ++ [mkRange start (e -w start)])
    else inl (i +w 1, available)
  else inr available.

Definition available_ranges (p : PartialValue) : list Range :=
  default [] (loop (S (length (pv_availability p))) (available_ranges_step p) (0, [])).

Definition completion_ratio (p : PartialValue) : double :=
  if bool_decide (pv_availability p = []) then dzero
  else ddiv (double_of_Z (size_of (filter (fun b => b = true) (pv_availability p))))
            (double_of_Z (size_of (pv_availability p))).

(** The loop over the chunks, [i] the index of the head of [l], [n] the number of chunks. *)
Fixpoint available_bytes_from (total n i bytes_ : Z) (l : list bool) : Z :=
  match l with
  | [] => bytes_
  | a :: l' =>
      let bytes' :=
        if a then
          if i =? n -w 1 then bytes_ +w (total -w (i *w CHUNK_SIZE)) else bytes_ +w CHUNK_SIZE
        else bytes_ in
      available_bytes_from total n (i +w 1) bytes' l'
  end.

Definition available_bytes (p : PartialValue) : Z :=
  available_bytes_from (pv_total_size p) (size_of (pv_availability p)) 0 0 (pv_availability p).

(** ** Byte-level meaning *)

(** Byte [b] of the value lies in a chunk that is present. *)
Definition byte_available (p : PartialValue) (b : Z) : Prop :=
  avail_at (pv_availability p) (b / CHUNK_SIZE) = true.

(** Sizes far from the 64-bit limit, so that chunk boundaries do not wrap ([MAX_VALUE_SIZE] is
    20 TiB). *)
Definition pv_ok (p : PartialValue) : Prop :=
  0 <= pv_total_size p /\ pv_total_size p + CHUNK_SIZE < 2 ^ 64 /\
  size_of (pv_availability p) * CHUNK_SIZE + CHUNK_SIZE < 2 ^ 64.

(** The clamped end of a range query. *)
Definition clamped_end (p : PartialValue) (r : Range) : Z :=
  Z.min (r_offset r + r_length r) (pv_total_size p).

Lemma avail_at_ge l i : size_of l <= i -> avail_at l i = false.
Proof.
  intros H. unfold avail_at. rewrite lookup_ge_None_2; [done|]. unfold size_of in H. lia.
Qed.

Lemma avail_test p i :
  (size_of (pv_availability p) <=? i) || negb (avail_at (pv_availability p) i)
  = negb (avail_at (pv_availability p) i).
Proof.
  destruct (Z.leb_spec (size_of (pv_availability p)) i) as [H|H]; [|done].
  by rewrite avail_at_ge.
Qed.

Lemma end_chunk_bounds e :
  0 < e < 2 ^ 64 -> end_chunk_of e * CHUNK_SIZE < e <= end_chunk_of e * CHUNK_SIZE + CHUNK_SIZE.
Proof.
  intros H. unfold end_chunk_of. destruct (Z.ltb_spec 0 e); [|lia]. word_small.
  pose proof CHUNK_SIZE_pos. pose proof (Z.div_mod (e - 1) CHUNK_SIZE).
  pose proof (Z.mod_pos_bound (e - 1) CHUNK_SIZE). lia.
Qed.

(** Chunk [j] holds byte [b]. *)
Lemma chunk_of_byte b j :
  b / CHUNK_SIZE = j <-> j * CHUNK_SIZE <= b < j * CHUNK_SIZE + CHUNK_SIZE.
Proof.
  pose proof CHUNK_SIZE_pos. pose proof (Z.div_mod b CHUNK_SIZE).
  pose proof (Z.mod_pos_bound b CHUNK_SIZE). split; [intros <-; lia|].
  intros Hj. symmetry. apply Z.div_unique_pos with (b - j * CHUNK_SIZE); lia.
Qed.

Lemma has_range_loop p e s :
  0 <= s -> size_of (pv_availability p) < 2 ^ 64 - 1 ->
  exists res, loop (S (S (length (pv_availability p)))) (has_range_step p e) s = Some res /\
    (res = true <-> forall j, s <= j <= e -> avail_at (pv_availability p) j = true).
Proof.
  intros Hs Hn. set (n := size_of (pv_availability p)) in *.
  apply (loop_rule
    (fun i => s <= i /\ forall j, s <= j < i -> avail_at (pv_availability p) j = true)
    _ (fun i => Z.max 0 (n - i + 1))).
  - intros i [Hi Hall]. unfold has_range_step. rewrite avail_test.
    destruct (Z.leb_spec i e) as [Hie|Hie].
    + destruct (avail_at (pv_availability p) i) eqn:Ha; simpl.
      * assert (i < n).
        { destruct (Z.lt_ge_cases i n); [done|]. by rewrite avail_at_ge in Ha. }
        word_small. split; [split; [lia|]|lia].
        intros j Hj. destruct (Z.eq_dec j i) as [->|]; [done|]. apply Hall. lia.
      * split; [done|]. intros H. rewrite H in Ha; [done|lia].
    + split; [|done]. intros _ j Hj. apply Hall. lia.
  - split; [lia|]. intros j Hj. lia.
  - subst n. unfold size_of. lia.
  - lia.
Qed.

Lemma range_guard r t :
  0 <= r_length r -> (r_length r =? 0) || (t <=? r_offset r) = false ->
  0 < r_length r /\ r_offset r < t.
Proof. intros. bool_hyps. lia. Qed.

Lemma has_range_bytes p r :
  pv_ok p -> Range_ok r -> 0 < r_length r -> r_offset r < pv_total_size p ->
  has_range p r = true <->
  (forall b, in_range b r -> b < pv_total_size p -> byte_available p b).
Proof.
  intros (Ht & Htw & Hn) Hr Hl Ho. pose proof CHUNK_SIZE_pos as Hcs.
  unfold has_range. rewrite (Range_end_ok r Hr). destruct Hr as (Hr1 & Hr2 & Hr3).
  destruct (Z.eqb_spec (r_length r) 0); [lia|].
  destruct (Z.leb_spec (pv_total_size p) (r_offset r)); [lia|].
  set (e := Z.min (r_offset r + r_length r) (pv_total_size p)).
  pose proof (end_chunk_bounds e) as He. pose proof (size_of_nonneg (pv_availability p)).
  destruct (has_range_loop p (end_chunk_of e) (r_offset r / CHUNK_SIZE)) as (res & -> & ->).
  { apply Z.div_pos; lia. } { nia. }
  unfold in_range, byte_available.
  pose proof (proj1 (chunk_of_byte (r_offset r) _) eq_refl) as Hob. split.
  - intros H1 b Hb Hbt. apply H1. pose proof (proj1 (chunk_of_byte b _) eq_refl). nia.
  - intros H1 j Hj.
    replace j with (Z.max (r_offset r) (j * CHUNK_SIZE) / CHUNK_SIZE); [apply H1; nia|].
    apply chunk_of_byte. nia.
Qed.

Definition pv_sample : PartialValue := mkPartial (CHUNK_SIZE + 10) [true; false] [Hash128_zero; Hash128_zero].

Lemma pv_sample_ok : pv_ok pv_sample.
Proof. repeat split; vm_compute; congruence. Qed.

(** ** Lists of ranges *)

(** Byte [b] is in one of the ranges. *)
Definition covered (ms : list Range) (b : Z) : Prop := Exists (in_range b) ms.

(** Non-empty ranges inside [lo, hi], in increasing order and never adjacent. *)
Fixpoint separated (lo hi : Z) (ms : list Range) : Prop :=
  match ms with
  | [] => True
  | m :: ms' =>
      lo <= r_offset m /\ 0 < r_length m /\ r_offset m + r_length m <= hi /\
      separated (r_offset m + r_length m + 1) hi ms'
  end.

Lemma separated_snoc lo hi ms m :
  separated lo hi (ms ++ [m]) <->
  separated lo (r_offset m - 1) ms /\ lo <= r_offset m /\ 0 < r_length m /\
  r_offset m + r_length m <= hi.
Proof.
  revert lo. induction ms as [|a ms IH]; intros lo; simpl.
  - tauto.
  - rewrite IH. split; intros; destruct_and!; split_and!; try lia; done.
Qed.

Lemma separated_weaken lo hi hi' ms : hi <= hi' -> separated lo hi ms -> separated lo hi' ms.
Proof.
  revert lo. induction ms as [|a ms IH]; intros lo Hh H; simpl in *; [done|].
  destruct H as (? & ? & ? & ?). split_and!; [lia..|]. by apply IH.
Qed.

Lemma covered_snoc ms m b : covered (ms ++ [m]) b <-> covered ms b \/ in_range b m.
Proof.
  unfold covered. rewrite Exists_app, Exists_cons, Exists_nil. tauto.
Qed.

(** Adding the bytes [s, e) to the right of ranges that end at or before [s]. *)
Lemma push_missing_spec lo s e ms :
  0 <= lo <= s -> s < e < 2 ^ 64 -> separated lo s ms ->
  separated lo e (push_missing ms s e) /\
  (forall b, covered (push_missing ms s e) b <-> covered ms b \/ s <= b < e).
Proof.
  intros Hlo Hse Hsep. unfold push_missing. word_small.
  destruct ms as [|m ms _] using rev_ind; simpl.
  - split; [lia|]. intros b. unfold covered, in_range. rewrite Exists_cons, Exists_nil. simpl. lia.
  - rewrite last_snoc, removelast_last. apply separated_snoc in Hsep as (H1 & H2 & H3 & H4).
    unfold Range_end. word_small.
    destruct (Z.eqb_spec (r_offset m + r_length m) s) as [E|E].
    + split.
      * apply separated_snoc. simpl. split_and!; [done|lia..].
      * intros b. rewrite !covered_snoc. unfold in_range. simpl. intuition lia.
    + split.
      * apply separated_snoc. simpl. split_and!; try lia. apply separated_snoc. split_and!; try lia. done.
      * intros b. rewrite !covered_snoc. unfold in_range. simpl. intuition lia.
Qed.

(** The loop of [missing_ranges] at [current = c]: the bytes before [c] are sorted out. *)
Definition missing_inv (p : PartialValue) (off e : Z) (s : Z * list Range) : Prop :=
  let '(c, ms) := s in
  off <= c /\ c <= pv_total_size p /\ separated off (Z.min c e) ms /\
  forall b, covered ms b <-> (off <= b < Z.min c e /\ ~ byte_available p b).

(** Chunks left to visit. *)
Definition missing_measure (e : Z) (s : Z * list Range) : Z :=
  if s.1 <? e then e / CHUNK_SIZE + 1 - s.1 / CHUNK_SIZE else 0.

Lemma missing_step_inv p off e c ms :
  pv_ok p -> 0 <= off -> e <= pv_total_size p -> c < e -> missing_inv p off e (c, ms) ->
  exists s', missing_ranges_step p e (c, ms) = inl s' /\ missing_inv p off e s' /\
    0 <= missing_measure e s' < missing_measure e (c, ms).
Proof.
  intros (Ht & Htw & Hn) Hoff He Hce (Hc & Hct & Hsep & Hcov). pose proof CHUNK_SIZE_pos as Hcs.
  unfold missing_ranges_step, missing_measure. cbn [fst]. destruct (Z.ltb_spec c e); [|lia].
  eexists. split; [reflexivity|].
  pose proof (proj1 (chunk_of_byte c _) eq_refl) as Hb.
  assert (0 <= c / CHUNK_SIZE <= e / CHUNK_SIZE) by (split; [apply Z.div_pos|apply Z.div_le_mono]; lia).
  rewrite avail_test. word_small. set (k := c / CHUNK_SIZE) in *.
  set (ce := Z.min (k * CHUNK_SIZE + CHUNK_SIZE) (pv_total_size p)).
  replace (Z.max c (k * CHUNK_SIZE)) with c by lia.
  assert (forall b, c <= b < ce -> b / CHUNK_SIZE = k) as Hk by (intros; apply chunk_of_byte; lia).
  replace (Z.min c e) with c in * by lia. split.
  - destruct (avail_at (pv_availability p) k) eqn:Ha; simpl.
    + split_and!; [lia|lia|by apply separated_weaken with c; [lia|]|].
      intros b. rewrite Hcov. split; [intuition lia|]. intros [Hb1 Hb2]. split; [|done].
      destruct (Z.lt_ge_cases b c); [lia|]. exfalso. apply Hb2.
      unfold byte_available. by rewrite Hk by lia.
    + destruct (push_missing_spec off c (Z.min e ce) ms) as [P1 P2]; [lia|lia|done|].
      split_and!; [lia|lia|by apply separated_weaken with (Z.min e ce); [lia|]|].
      intros b. rewrite P2, Hcov. unfold byte_available. split.
      * intros [?|Hb']; [intuition lia|]. split; [lia|]. by rewrite Hk, Ha by lia.
      * intros [Hb1 Hb2]. destruct (Z.lt_ge_cases b c); [left; auto with lia|right; lia].
  - cbn [fst]. destruct (Z.ltb_spec ce e) as [Hlt|Hge]; [|lia].
    replace (ce / CHUNK_SIZE) with (k + 1); [lia|]. symmetry. apply chunk_of_byte. lia.
Qed.

(** The loop ends and its ranges hold exactly the missing bytes. *)
Lemma missing_ranges_bytes p r :
  pv_ok p -> Range_ok r ->
  separated (r_offset r) (clamped_end p r) (missing_ranges p r) /\
  (forall b, covered (missing_ranges p r) b <->
             in_range b r /\ b < pv_total_size p /\ ~ byte_available p b).
Proof.
  intros Hp Hr. pose proof CHUNK_SIZE_pos as Hcs. unfold missing_ranges, clamped_end.
  rewrite (Range_end_ok r Hr). destruct Hr as (Hr1 & Hr2 & Hr3).
  destruct ((r_length r =? 0) || (pv_total_size p <=? r_offset r)) eqn:G.
  { split; [done|]. intros b. unfold covered, in_range. rewrite Exists_nil.
    bool_hyps. destruct G as [G|G]; bool_hyps; lia. }
  apply range_guard in G as [Hl Ho]; [|done].
  set (e := Z.min (r_offset r + r_length r) (pv_total_size p)).
  assert (r_offset r / CHUNK_SIZE <= e / CHUNK_SIZE) by (apply Z.div_le_mono; lia).
  destruct (loop_rule (missing_inv p (r_offset r) e) (fun ms => separated (r_offset r) e ms /\
      forall b, covered ms b <-> in_range b r /\ b < pv_total_size p /\ ~ byte_available p b)
    (missing_measure e) (missing_ranges_step p e)) with
    (fuel := Z.to_nat (e / CHUNK_SIZE - r_offset r / CHUNK_SIZE + 2)) (s := (r_offset r, @nil Range))
    as (ms & -> & H1 & H2); [| | | |done].
  - intros [c ms] HI. destruct (Z.lt_ge_cases c e) as [Hce|Hce].
    + destruct (missing_step_inv p (r_offset r) e c ms) as (s' & -> & ? & ?); [done|lia|lia|done..].
    + unfold missing_ranges_step. destruct (Z.ltb_spec c e); [lia|].
      destruct HI as (Hc & Hct & Hsep & Hcov).
      split; [by apply separated_weaken with (Z.min c e); [lia|]|].
      intros b. rewrite Hcov. unfold in_range. intuition lia.
  - replace (Z.min (r_offset r) e) with (r_offset r) by lia. unfold missing_inv.
    replace (Z.min (r_offset r) e) with (r_offset r) by lia. split_and!; [lia|lia|done|].
    intros b. unfold covered. rewrite Exists_nil. lia.
  - unfold missing_measure. cbn [fst]. case_match_goal; lia.
  - unfold missing_measure. cbn [fst]. case_match_goal; lia.
Qed.

Lemma covered_nil_iff ms lo hi : separated lo hi ms -> (ms = [] <-> forall b, ~ covered ms b).
Proof.
  intros H. split; [intros -> b Hb; by inversion Hb|].
  destruct ms as [|m ms]; [done|]. intros Hn. exfalso. apply (Hn (r_offset m)).
  left. destruct H as (_ & H & _). unfold in_range. lia.
Qed.

(** The number of chunks is the one [is_complete] expects. *)
Definition pv_complete (p : PartialValue) : Prop :=
  size_of (pv_availability p) = (pv_total_size p + CHUNK_SIZE - 1) / CHUNK_SIZE.

Lemma pv_complete_bounds p i :
  pv_complete p -> 0 <= i < size_of (pv_availability p) -> i * CHUNK_SIZE < pv_total_size p.
Proof.
  unfold pv_complete. intros -> Hi. pose proof CHUNK_SIZE_pos.
  pose proof (Z.mul_div_le (pv_total_size p + CHUNK_SIZE - 1) CHUNK_SIZE). nia.
Qed.

Lemma pv_complete_total p : pv_complete p -> pv_total_size p <= size_of (pv_availability p) * CHUNK_SIZE.
Proof.
  unfold pv_complete. intros ->. pose proof CHUNK_SIZE_pos.
  pose proof (Z.div_mod (pv_total_size p + CHUNK_SIZE - 1) CHUNK_SIZE).
  pose proof (Z.mod_pos_bound (pv_total_size p + CHUNK_SIZE - 1) CHUNK_SIZE). lia.
Qed.

(** The inner loop of [available_ranges] finds the end of the run of available chunks. *)
Lemma available_run p i :
  pv_ok p -> pv_complete p -> 0 <= i -> avail_at (pv_availability p) i = true ->
  exists j, i < j <= size_of (pv_availability p) /\
    loop (S (length (pv_availability p))) (available_run_step p) (i, i *w CHUNK_SIZE)
    = Some (j, Z.min (j * CHUNK_SIZE) (pv_total_size p)) /\
    (forall k, i <= k < j -> avail_at (pv_availability p) k = true) /\
    avail_at (pv_availability p) j = false.
Proof.
  intros (Ht & Htw & Hn) Hco Hi Ha. pose proof CHUNK_SIZE_pos as Hcs.
  set (n := size_of (pv_availability p)) in *.
  assert (forall k, avail_at (pv_availability p) k = true -> k < n) as Hlt.
  { intros k Hk. destruct (Z.lt_ge_cases k n); [done|]. by rewrite avail_at_ge in Hk. }
  pose proof (Hlt i Ha). pose proof (pv_complete_bounds p i Hco ltac:(lia)).
  destruct (loop_rule
    (fun s : Z * Z => i <= s.1 <= n /\ s.2 = Z.min (s.1 * CHUNK_SIZE) (pv_total_size p) /\
       forall k, i <= k < s.1 -> avail_at (pv_availability p) k = true)
    (fun r : Z * Z => i < r.1 <= n /\ r.2 = Z.min (r.1 * CHUNK_SIZE) (pv_total_size p) /\
       (forall k, i <= k < r.1 -> avail_at (pv_availability p) k = true) /\
       avail_at (pv_availability p) r.1 = false)
    (fun s => n - s.1) (available_run_step p)) with
    (fuel := S (length (pv_availability p))) (s := (i, i *w CHUNK_SIZE))
    as ([j e] & -> & H1 & H2 & H3 & H4).
  - intros [k e] (Hk & Hke & Hall). simpl in *. fold n.
    destruct (Z.ltb_spec k n) as [Hkn|Hkn]; simpl.
    + destruct (avail_at (pv_availability p) k) eqn:Hak; simpl.
      * assert (0 <= k * CHUNK_SIZE /\ (k + 1) * CHUNK_SIZE <= n * CHUNK_SIZE) by nia.
        word_small. split; [|lia]. split_and!; [lia|lia|done|].
        intros k' Hk'. destruct (Z.eq_dec k' k) as [->|]; [done|]. apply Hall. lia.
      * split_and!; [|lia|done|done|done]. destruct (Z.eq_dec k i); [congruence|lia].
    + assert (k = n) by lia. split_and!; [lia|lia|done|done|]. apply avail_at_ge. fold n. lia.
  - assert (0 <= i * CHUNK_SIZE <= n * CHUNK_SIZE) by nia.
    simpl. word_small. split_and!; [lia|lia|lia|]. intros k Hk. lia.
  - simpl. subst n. unfold size_of. lia.
  - simpl. lia.
  - simpl in *. exists j. subst e. split_and!; try lia; done.
Qed.

(** The outer loop of [available_ranges] at index [i]. *)
Definition available_inv (p : PartialValue) (s : Z * list Range) : Prop :=
  let '(i, av) := s in
  0 <= i <= size_of (pv_availability p) /\
  separated 0 (if avail_at (pv_availability p) i then i * CHUNK_SIZE - 1
               else Z.min (i * CHUNK_SIZE) (pv_total_size p)) av /\
  forall b, covered av b <->
    (0 <= b < Z.min (i * CHUNK_SIZE) (pv_total_size p) /\ byte_available p b).

Lemma available_step_inv p i av :
  pv_ok p -> pv_complete p -> i < size_of (pv_availability p) -> available_inv p (i, av) ->
  exists i' av', available_ranges_step p (i, av) = inl (i', av') /\ i < i' /\
    available_inv p (i', av').
Proof.
  intros Hp Hco Hin (Hi & Hsep & Hcov). pose proof CHUNK_SIZE_pos as Hcs.
  unfold available_ranges_step. destruct (Z.ltb_spec i (size_of (pv_availability p))); [|lia].
  pose proof (pv_complete_bounds p i Hco ltac:(lia)).
  destruct (avail_at (pv_availability p) i) eqn:Ha.
  - destruct (available_run p i) as (j & Hj & -> & Hall & Hend); [done..|lia|done|].
    destruct Hp as (Ht & Htw & Hn). simpl.
    assert (0 <= i * CHUNK_SIZE /\ i * CHUNK_SIZE + CHUNK_SIZE <= j * CHUNK_SIZE) by nia. word_small.
    eexists _, _. split; [reflexivity|]. split; [lia|]. split; [lia|]. rewrite Hend.
    split.
    + apply separated_snoc. simpl. split_and!; [done|lia..].
    + intros b. rewrite covered_snoc, Hcov. unfold in_range. simpl. split.
      * intros [[? ?]|Hb]; [split; [lia|done]|]. split; [lia|]. apply Hall.
        pose proof (proj1 (chunk_of_byte b _) eq_refl). nia.
      * intros [? ?]. destruct (Z.lt_ge_cases b (i * CHUNK_SIZE)); [left; split; [lia|done]|right; lia].
  - destruct Hp as (Ht & Htw & Hn). word_small.
    eexists _, _. split; [reflexivity|]. split; [lia|]. split; [lia|]. split.
    + apply separated_weaken with (Z.min (i * CHUNK_SIZE) (pv_total_size p)); [case_match_goal; lia|done].
    + intros b. rewrite Hcov. split; intros [Hb1 Hb2]; (split; [|done]); [lia|].
      destruct (Z.lt_ge_cases b (i * CHUNK_SIZE)); [lia|]. exfalso.
      unfold byte_available in Hb2. rewrite (proj2 (chunk_of_byte b i)) in Hb2 by lia. congruence.
Qed.

Lemma available_ranges_bytes p :
  pv_ok p -> pv_complete p ->
  separated 0 (pv_total_size p) (available_ranges p) /\
  (forall b, covered (available_ranges p) b <-> 0 <= b < pv_total_size p /\ byte_available p b).
Proof.
  intros Hp Hco. pose proof CHUNK_SIZE_pos. pose proof (pv_complete_total p Hco) as Htot.
  pose proof (size_of_nonneg (pv_availability p)). unfold available_ranges.
  destruct (loop_rule (available_inv p) (fun av => separated 0 (pv_total_size p) av /\
      forall b, covered av b <-> 0 <= b < pv_total_size p /\ byte_available p b)
    (fun s => size_of (pv_availability p) - s.1) (available_ranges_step p)) with
    (fuel := S (length (pv_availability p))) (s := (0, @nil Range)) as (av & -> & ?).
  - intros [i av] HI. destruct (Z.lt_ge_cases i (size_of (pv_availability p))) as [Hi|Hi].
    + destruct (available_step_inv p i av) as (i' & av' & -> & ? & HI'); [done..|].
      split; [done|]. destruct HI' as (? & _). simpl. lia.
    + unfold available_ranges_step. destruct (Z.ltb_spec i (size_of (pv_availability p))); [lia|].
      destruct HI as (? & Hsep & Hcov). assert (i = size_of (pv_availability p)) as -> by lia.
      rewrite avail_at_ge in Hsep by lia. rewrite Z.min_r in * by lia. done.
  - split_and!; [lia|lia|done|]. intros b. unfold covered. rewrite Exists_nil. destruct Hp. lia.
  - simpl. unfold size_of. lia.
  - simpl. lia.
  - done.
Qed.

(** For a non-empty range that starts inside the value, [has_range] answers exactly whether every
    byte of the range that lies inside the value is in an available chunk, and it agrees with
    [missing_ranges] reporting nothing. *)
Theorem has_range_spec p r :
  pv_ok p -> Range_ok r -> 0 < r_length r -> r_offset r < pv_total_size p ->
  (has_range p r = true <->
    (forall b, in_range b r -> b < pv_total_size p -> byte_available p b)) /\
  (has_range p r = true <-> missing_ranges p r = []).
Proof.
  intros Hp Hr Hl Ho. split; [by apply has_range_bytes|].
  destruct (missing_ranges_bytes p r Hp Hr) as [Hsep Hcov].
  rewrite (covered_nil_iff _ _ _ Hsep), (has_range_bytes p r Hp Hr Hl Ho).
  setoid_rewrite Hcov. unfold byte_available. split.
  - intros H b (Hb & Hbt & Hn). auto.
  - intros H b Hb Hbt. destruct (avail_at (pv_availability p) (b / CHUNK_SIZE)) eqn:E; [done|].
    exfalso. apply (H b). split_and!; [done..|congruence].
Qed.

Lemma has_range_spec_witness :
  (has_range pv_sample (mkRange 5 20) = true <->
    (forall b, in_range b (mkRange 5 20) -> b < CHUNK_SIZE + 10 -> byte_available pv_sample b)) /\
  (has_range pv_sample (mkRange 5 20) = true <-> missing_ranges pv_sample (mkRange 5 20) = []).
Proof.
  apply (has_range_spec pv_sample (mkRange 5 20)).
  - exact pv_sample_ok.
  - repeat split; simpl; lia.
  - reflexivity.
  - reflexivity.
Defined.

(** C34: for a partial value with one flag per chunk, and sizes that do not wrap,
    [missing_ranges] and [available_ranges] terminate; each returns non-empty ranges in
    increasing order that are never adjacent (runs of chunks are merged); the missing ranges hold
    exactly the bytes of the query that lie inside the value and in no available chunk, the available
    ranges exactly the bytes of the available chunks. *)
Theorem partial_value_partition p r :
  pv_ok p -> pv_complete p -> Range_ok r ->
  separated (r_offset r) (clamped_end p r) (missing_ranges p r) /\
  separated 0 (pv_total_size p) (available_ranges p) /\
  (forall b, covered (missing_ranges p r) b <->
             in_range b r /\ b < pv_total_size p /\ ~ covered (available_ranges p) b) /\
  (forall b, covered (available_ranges p) b <-> 0 <= b < pv_total_size p /\ byte_available p b).
Proof.
  intros Hp Hco Hr. destruct (missing_ranges_bytes p r Hp Hr) as [M1 M2].
  destruct (available_ranges_bytes p Hp Hco) as [A1 A2].
  split_and!; [done..| |done]. intros b. rewrite M2, A2.
  destruct Hr as (? & _). unfold in_range. split.
  - intros (? & ? & Hn). split_and!; [lia..|]. intros [_ Ha]. by apply Hn.
  - intros (? & ? & Hn). split_and!; [lia..|]. intros Ha. apply Hn. split; [lia|done].
Qed.

Lemma partial_value_partition_witness :
  missing_ranges pv_sample (mkRange 5 (CHUNK_SIZE + 20)) = [mkRange CHUNK_SIZE 10] /\
  available_ranges pv_sample = [mkRange 0 CHUNK_SIZE] /\
  separated 5 (CHUNK_SIZE + 10) (missing_ranges pv_sample (mkRange 5 (CHUNK_SIZE + 20))).
Proof.
  split; [reflexivity|]. split; [reflexivity|].
  apply (partial_value_partition pv_sample (mkRange 5 (CHUNK_SIZE + 20))).
  - exact pv_sample_ok.
  - reflexivity.
  - repeat split; vm_compute; congruence.
Defined.

(** ** The chunks of a range *)

Lemma seqZ_snoc m n : 0 <= n -> seqZ m (n + 1) = seqZ m n ++ [m + n].
Proof.
  intros. rewrite seqZ_app by lia. f_equal.
Qed.

Lemma chunks_for_range_loop e n s (fuel : nat) :
  0 <= s -> 0 <= n < 2 ^ 64 - 1 -> n < Z.of_nat fuel ->
  loop fuel (chunks_for_range_step e n) (s, []) = Some (seqZ s (Z.min (e + 1) n - s)).
Proof.
  intros Hs Hn Hf.
  destruct (loop_rule
    (fun st : Z * list Z => s <= st.1 /\ (s < st.1 -> st.1 <= Z.min (e + 1) n) /\
       st.2 = seqZ s (st.1 - s))
    (fun r => r = seqZ s (Z.min (e + 1) n - s))
    (fun st => Z.max 0 (n - st.1)) (chunks_for_range_step e n)) with (fuel := fuel) (s := (s, @nil Z))
    as (r & -> & ->); [| | | |done].
  - intros [i acc] (H1 & H2 & H3). simpl in *. subst acc. destruct ((i <=? e) && (i <? n)) eqn:G; bool_hyps.
    + cbn [fst snd]. word_small. split; [|lia]. split_and!; [lia|lia|].
      replace (i + 1 - s) with ((i - s) + 1) by lia. rewrite seqZ_snoc by lia.
      do 2 f_equal. lia.
    + destruct (Z.eq_dec s i) as [->|].
      * rewrite !seqZ_nil; [done|..]; destruct G; bool_hyps; lia.
      * f_equal. destruct G; bool_hyps; lia.
  - simpl. rewrite Z.sub_diag. split_and!; [lia|lia|done].
  - simpl. lia.
  - simpl. lia.
Qed.

Lemma chunks_for_range_eq d r :
  Range_ok r -> 0 < r_length r -> r_offset r < vd_total_size d ->
  size_of (vd_chunks d) < 2 ^ 64 - 1 ->
  chunks_for_range d r =
  seqZ (r_offset r / CHUNK_SIZE)
    (Z.min (end_chunk_of (Z.min (r_offset r + r_length r) (vd_total_size d)) + 1)
           (size_of (vd_chunks d)) - r_offset r / CHUNK_SIZE).
Proof.
  intros Hr Hl Ho Hn. unfold chunks_for_range. rewrite (Range_end_ok r Hr).
  destruct Hr as (? & ? & ?). pose proof CHUNK_SIZE_pos. pose proof (size_of_nonneg (vd_chunks d)).
  destruct (Z.eqb_spec (r_length r) 0); [lia|].
  destruct (Z.leb_spec (vd_total_size d) (r_offset r)); [lia|]. simpl orb. cbn match.
  rewrite chunks_for_range_loop; [done|apply Z.div_pos; lia|lia|unfold size_of; lia].
Qed.
