(* ===== verification/CacheApi.v ===== *)
(** * The cache interface: [include/elcache/cache.hpp]

    Options, results and statistics that every cache tier exchanges with its callers. *)

From S2P Require Import Prelude Types.
Open Scope Z_scope.

Record ReadResult := mkReadResult {
  rr_result : CacheResult;
  rr_data : bytes;
  rr_actual_range : Range;
  rr_metadata : option CacheMetadata
}.

(** A default-constructed [ReadResult]. *)
Definition ReadResult_default : ReadResult := mkReadResult Miss [] (mkRange 0 0) None.

Definition rr_is_hit (r : ReadResult) : bool := bool_decide (rr_result r = Hit).
Definition rr_is_partial (r : ReadResult) : bool := bool_decide (rr_result r = PartialHit).
Definition rr_is_miss (r : ReadResult) : bool := bool_decide (rr_result r = Miss).

Record AvailabilityResult := mkAvailability {
  av_exists : bool;
  av_metadata : option CacheMetadata;
  av_available_ranges : list Range;
  av_missing_ranges : list Range
}.

Definition AvailabilityResult_default : AvailabilityResult := mkAvailability false None [] [].

Definition av_is_complete (a : AvailabilityResult) : bool :=
  av_exists a && bool_decide (av_missing_ranges a = []).

(** Time-to-live in seconds, timeouts in milliseconds. *)
Record WriteOptions := mkWriteOptions {
  wo_ttl : option Z;
  wo_flags : Z;
  wo_no_memory : bool;
  wo_no_disk : bool;
  wo_no_cluster : bool;
  wo_overwrite : bool
}.

Definition WriteOptions_default : WriteOptions := mkWriteOptions None 0 false false false true.

Record ReadOptions := mkReadOptions {
  ro_allow_partial : bool;
  ro_prefer_local : bool;
  ro_update_access_time : bool;
  ro_range : option Range;
  ro_timeout : Z
}.

Definition ReadOptions_default : ReadOptions := mkReadOptions true true true None 30000.

Record DeleteOptions := mkDeleteOptions {
  do_from_memory : bool;
  do_from_disk : bool;
  do_from_cluster : bool
}.

Definition DeleteOptions_default : DeleteOptions := mkDeleteOptions true true true.

Record Stats := mkStats {
  s_hits : Z;
  s_misses : Z;
  s_partial_hits : Z;
  s_bytes_read : Z;
  s_bytes_written : Z;
  s_evictions : Z;
  s_entry_count : Z;
  s_size_bytes : Z;
  s_capacity_bytes : Z
}.

(** Nanoseconds of a [std::chrono::seconds]: a product of 64-bit signed integers. C++ leaves its overflow
    undefined; the model takes the value two's complement hardware computes. *)
Definition ns_of_seconds (s : Z) : Z := i64 (s * 1000000000).

(** The time to live and the moment it ends are representable. *)
Definition ttl_fits (now ttl : Z) : Prop :=
  - 2 ^ 63 <= ttl * 1000000000 < 2 ^ 63 /\ - 2 ^ 63 <= now + ttl * 1000000000 < 2 ^ 63.

Lemma ttl_fits_exact now ttl : ttl_fits now ttl -> i64 (now + ns_of_seconds ttl) = now + ttl * 1000000000.
Proof. intros [Ht He]. unfold ns_of_seconds. by rewrite (i64_small (ttl * _)), i64_small. Qed.
