(* ===== verification/CacheInterface.v ===== *)
(** * What a bounded in-memory cache promises

    [MemoryCache] keeps its chunks in an [ARCCache] ([include/elcache/arc_cache.hpp]) and relies on
    little of it: a lookup returns the value last put, a put may push other entries out and hands
    them back, a removal removes. [BoundedCache] is that contract. It is discharged by
    [ArcCache.arc_bounded_cache]; the theorems of [MemoryCache] are proved against it.

    The contract is also stated as a transition system, the lossy map: a finite map that may drop
    entries when something is put. [cache_run_refines] is the simulation of a cache by it, for every
    sequence of calls. *)

From S2P Require Import Prelude.
Open Scope Z_scope.

Class BoundedCache (K V : Type) `{Countable K} (size_fn : V -> Z) := {
  bc_state : Type;
  bc_make : Z -> bc_state;
  bc_get : bc_state -> K -> outcome (option V * bc_state);
  bc_put : bc_state -> K -> V -> outcome (list (K * V) * bc_state);
  bc_remove : bc_state -> K -> outcome (bool * bc_state);
  bc_contains : bc_state -> K -> bool;
  bc_clear : bc_state -> bc_state;
  bc_size : bc_state -> Z;
  bc_capacity : bc_state -> Z;
  (** Invariant, contents, and the exact number of resident bytes. *)
  bc_wf : bc_state -> Prop;
  bc_map : bc_state -> gmap K V;
  bc_bytes : bc_state -> Z;
  bc_make_ok cap :
    bc_wf (bc_make cap) /\ bc_map (bc_make cap) = ∅ /\ bc_bytes (bc_make cap) = 0 /\
    bc_capacity (bc_make cap) = cap;
  bc_size_ok s : bc_wf s -> bc_size s = u64 (bc_bytes s);
  bc_contains_ok s k : bc_wf s -> bc_contains s k = bool_decide (is_Some (bc_map s !! k));
  bc_get_ok s k : bc_wf s -> exists s', bc_get s k = Done (bc_map s !! k, s') /\
    bc_wf s' /\ bc_map s' = bc_map s /\ bc_bytes s' = bc_bytes s /\ bc_capacity s' = bc_capacity s;
  bc_put_ok s k v : bc_wf s -> exists ev s', bc_put s k v = Done (ev, s') /\
    bc_wf s' /\ bc_map s' !! k = Some v /\
    (list_to_map ev : gmap K V) ##ₘ bc_map s' /\ list_to_map ev ∪ bc_map s' = <[k := v]> (bc_map s) /\
    bc_capacity s' = bc_capacity s /\
    match bc_map s !! k with
    | Some old => ev = [] /\ bc_bytes s' = bc_bytes s - size_fn old + size_fn v
    | None => bc_bytes s + size_fn v < 2 ^ 64 -> bc_bytes s + size_fn v <= bc_capacity s ->
              ev = [] /\ bc_bytes s' = bc_bytes s + size_fn v
    end;
  bc_remove_ok s k : bc_wf s ->
    exists s', bc_remove s k = Done (bool_decide (is_Some (bc_map s !! k)), s') /\
    bc_wf s' /\ bc_map s' = delete k (bc_map s) /\ bc_capacity s' = bc_capacity s;
  bc_clear_ok s :
    bc_wf (bc_clear s) /\ bc_map (bc_clear s) = ∅ /\ bc_bytes (bc_clear s) = 0 /\
    bc_capacity (bc_clear s) = bc_capacity s
}.

Section lossy_map.
Context {K V : Type} `{Countable K}.

Inductive cache_op := OGet (k : K) | OPut (k : K) (v : V) | ORemove (k : K) | OContains (k : K) | OClear.

Inductive cache_res := RValue (r : option V) | REvicted (ev : list (K * V)) | RBool (b : bool) | RUnit.

(** One call on the lossy map. *)
Inductive lossy_step (m : gmap K V) : cache_op -> cache_res -> gmap K V -> Prop :=
| lossy_get k : lossy_step m (OGet k) (RValue (m !! k)) m
| lossy_put k v ev m' :
    m' !! k = Some v -> (list_to_map ev : gmap K V) ##ₘ m' ->
    list_to_map ev ∪ m' = <[k := v]> m ->
    lossy_step m (OPut k v) (REvicted ev) m'
| lossy_remove k : lossy_step m (ORemove k) (RBool (bool_decide (is_Some (m !! k)))) (delete k m)
| lossy_contains k : lossy_step m (OContains k) (RBool (bool_decide (is_Some (m !! k)))) m
| lossy_clear : lossy_step m OClear RUnit ∅.

Inductive lossy_trace : gmap K V -> list (cache_op * cache_res) -> gmap K V -> Prop :=
| lossy_nil m : lossy_trace m [] m
| lossy_snoc m tr m1 op res m2 :
    lossy_trace m tr m1 -> lossy_step m1 op res m2 -> lossy_trace m (tr ++ [(op, res)]) m2.

(** The value a key was last given, unless it was removed or everything was cleared since. *)
Definition latest_step (k : K) (cur : option V) (op : cache_op) : option V :=
  match op with
  | OPut k' v => if decide (k' = k) then Some v else cur
  | ORemove k' => if decide (k' = k) then None else cur
  | OClear => None
  | OGet _ | OContains _ => cur
  end.

Definition latest (k : K) (ops : list cache_op) : option V := foldl (latest_step k) None ops.

Lemma latest_snoc k ops op : latest k (ops ++ [op]) = latest_step k (latest k ops) op.
Proof. apply foldl_snoc. Qed.

Lemma lossy_put_subseteq (m m' : gmap K V) k v ev :
  (list_to_map ev : gmap K V) ##ₘ m' -> list_to_map ev ∪ m' = <[k := v]> m -> m' ⊆ <[k := v]> m.
Proof. intros Hd <-. by apply map_union_subseteq_r. Qed.

(** The lossy map never makes anything up: what it holds is the latest value. *)
Lemma lossy_trace_latest tr m :
  lossy_trace ∅ tr m -> forall k v, m !! k = Some v -> latest k (tr.*1) = Some v.
Proof.
  remember ∅ as m0 eqn:E0. induction 1 as [m|m tr m1 op res m2 Ht IH Hs]; intros k v.
  - subst m. by rewrite lookup_empty.
  - rewrite fmap_app. cbn [fmap list_fmap fst]. rewrite latest_snoc. specialize (IH E0 k).
    destruct Hs as [k'|k' v' ev m2 Hk Hd Hu|k'|k'|]; cbn [latest_step]; [by apply IH| | |by apply IH|by rewrite lookup_empty].
    + intros Hv. pose proof (lookup_weaken _ _ _ _ Hv (lossy_put_subseteq _ _ _ _ _ Hd Hu)) as Hi.
      apply lookup_insert_Some in Hi as [[-> ->]|[Hne Hv']].
      * by rewrite decide_True.
      * rewrite decide_False by done. by apply IH.
    + rewrite lookup_delete_Some. intros [Hne Hv]. rewrite decide_False by done. by apply IH.
Qed.

(** Every value a lookup returns in a trace of the lossy map is the latest. *)
Lemma lossy_reads_latest tr m tr1 k v tr2 :
  lossy_trace ∅ tr m -> tr = tr1 ++ (OGet k, RValue (Some v)) :: tr2 -> latest k (tr1.*1) = Some v.
Proof.
  remember ∅ as m0 eqn:E0. intros Ht. revert tr1 tr2.
  induction Ht as [m|m tr m1 op res m2 Ht IH Hs]; intros tr1 tr2 E; [by destruct tr1|]. subst m.
  destruct tr2 as [|x tr2 _] using rev_ind.
  - apply app_inj_tail in E as [-> [= -> ->]]. inversion Hs as [k' Ek Ev Em| | | |]; subst.
    rewrite Ev. by eapply lossy_trace_latest.
  - rewrite app_comm_cons, app_assoc in E. apply app_inj_tail in E as [-> _]. by eapply IH.
Qed.

Context {size_fn : V -> Z} `{BC : !BoundedCache K V size_fn}.

(** One call of the cache. *)
Definition cache_step (s : bc_state) (op : cache_op) : outcome (cache_res * bc_state) :=
  match op with
  | OGet k => '(r, s') ← bc_get s k; Done (RValue r, s')
  | OPut k v => '(ev, s') ← bc_put s k v; Done (REvicted ev, s')
  | ORemove k => '(b, s') ← bc_remove s k; Done (RBool b, s')
  | OContains k => Done (RBool (bc_contains s k), s)
  | OClear => Done (RUnit, bc_clear s)
  end.

(** A sequence of calls: the answers and the last state. *)
Fixpoint cache_run (s : bc_state) (ops : list cache_op) : outcome (list (cache_op * cache_res) * bc_state) :=
  match ops with
  | [] => Done ([], s)
  | op :: ops' =>
      '(res, s1) ← cache_step s op;
      '(tr, s2) ← cache_run s1 ops';
      Done ((op, res) :: tr, s2)
  end.

Lemma cache_step_refines s op :
  bc_wf s -> exists res s', cache_step s op = Done (res, s') /\ bc_wf s' /\
    lossy_step (bc_map s) op res (bc_map s').
Proof.
  intros Hwf. destruct op as [k|k v|k|k|]; simpl.
  - destruct (bc_get_ok s k Hwf) as (s' & -> & ? & Em & _). eexists _, _. split; [done|].
    split; [done|]. rewrite Em. constructor.
  - destruct (bc_put_ok s k v Hwf) as (ev & s' & -> & ? & ? & ? & ? & _). eexists _, _.
    split; [done|]. split; [done|]. by constructor.
  - destruct (bc_remove_ok s k Hwf) as (s' & -> & ? & Em & _). eexists _, _.
    split; [done|]. split; [done|]. rewrite Em. constructor.
  - eexists _, _. split; [done|]. split; [done|]. rewrite bc_contains_ok by done. constructor.
  - destruct (bc_clear_ok s) as (? & Em & _). eexists _, _. split; [done|]. split; [done|].
    rewrite Em. constructor.
Qed.

Lemma cache_run_sim ops : forall s tr0,
  bc_wf s -> lossy_trace ∅ tr0 (bc_map s) ->
  exists tr s', cache_run s ops = Done (tr, s') /\ bc_wf s' /\ tr.*1 = ops /\
    lossy_trace ∅ (tr0 ++ tr) (bc_map s').
Proof.
  induction ops as [|op ops IH]; intros s tr0 Hwf Ht; simpl.
  - exists [], s. by rewrite app_nil_r.
  - destruct (cache_step_refines s op Hwf) as (res & s1 & -> & Hwf1 & Hs). simpl.
    destruct (IH s1 (tr0 ++ [(op, res)]) Hwf1) as (tr & s2 & -> & Hwf2 & Hops & Ht2); [by econstructor|].
    simpl. eexists _, _. split; [done|]. rewrite <- app_assoc in Ht2.
    split_and!; [done|by rewrite fmap_cons, Hops|done].
Qed.

(** Every sequence of calls on a new cache returns, and its answers are a trace of the lossy map. *)
Lemma cache_run_refines cap ops :
  exists tr s, cache_run (bc_make cap) ops = Done (tr, s) /\ bc_wf s /\ tr.*1 = ops /\
    lossy_trace ∅ tr (bc_map s).
Proof.
  destruct (bc_make_ok cap) as (Hwf & Em & _). apply (cache_run_sim ops _ []); [done|].
  rewrite Em. constructor.
Qed.

End lossy_map.
Arguments cache_op K V : clear implicits.
Arguments cache_res K V : clear implicits.
