(* ===== verification/IndexedList.v ===== *)
(** * A [std::list] indexed by an [std::unordered_map] of iterators

    [ARCCache::LRUList] and [ARCCache::GhostList] ([include/elcache/arc_cache.hpp]) share one
    representation: a linked list of entries and a map from keys to the list nodes. A node is modelled
    by its address, so that the map can go stale exactly as the iterators of the code can: the list
    holds pairs (address, entry), the map sends a key to an address, and a fresh address is taken for
    every inserted node. [il_wf] is the invariant that ties the two; under it every operation refines
    an operation on the plain list of entries, [il_entries]. *)

From S2P Require Import Prelude.
Open Scope Z_scope.

Section indexed_list.
Context {K X : Type} `{Countable K} (kof : X -> K).

Record ilist := mkIlist {
  il_nodes : list (nat * X);
  il_map : gmap K nat;
  il_next : nat
}.

Definition il_empty : ilist := mkIlist [] ∅ 0.

(** Dereferencing an iterator. *)
Fixpoint node_find (a : nat) (ns : list (nat * X)) : option X :=
  match ns with
  | [] => None
  | (a', x) :: ns' => if decide (a = a') then Some x else node_find a ns'
  end.

Definition il_deref (l : ilist) (a : nat) : option X := node_find a (il_nodes l).

(** The list without the node at an address. *)
Definition nodes_without (a : nat) (ns : list (nat * X)) : list (nat * X) :=
  filter (fun n => n.1 <> a) ns.

Definition il_contains (l : ilist) (k : K) : bool := bool_decide (is_Some (il_map l !! k)).

(** [list_.push_front(x); map_[key] = list_.begin();] *)
Definition il_push_front (l : ilist) (x : X) : ilist :=
  mkIlist ((il_next l, x) :: il_nodes l) (<[kof x := il_next l]> (il_map l)) (S (il_next l)).

(** [list_.back()], [map_.erase(key)], [list_.pop_back()]; undefined on an empty list. *)
Definition il_pop_back (l : ilist) : option (X * ilist) :=
  match last (il_nodes l) with
  | None => None
  | Some (_, x) =>
      Some (x, mkIlist (removelast (il_nodes l)) (delete (kof x) (il_map l)) (il_next l))
  end.

(** [erase(key)]: through the map. *)
Definition il_erase (l : ilist) (k : K) : ilist :=
  match il_map l !! k with
  | Some a => mkIlist (nodes_without a (il_nodes l)) (delete k (il_map l)) (il_next l)
  | None => l
  end.

(** [list_.splice(list_.begin(), list_, it)]. *)
Definition il_move_to_front (l : ilist) (a : nat) : ilist :=
  match il_deref l a with
  | Some x => mkIlist ((a, x) :: nodes_without a (il_nodes l)) (il_map l) (il_next l)
  | None => l
  end.

(** Writing through an iterator. *)
Definition il_write (l : ilist) (a : nat) (f : X -> X) : ilist :=
  mkIlist ((fun n => if decide (n.1 = a) then (n.1, f n.2) else n) <$> il_nodes l)
          (il_map l) (il_next l).

(** ** Invariant and abstraction *)

Definition il_entries (l : ilist) : list X := (il_nodes l).*2.
Definition il_keys (l : ilist) : list K := kof <$> il_entries l.

Record il_wf (l : ilist) : Prop := {
  wf_map : forall k a, il_map l !! k = Some a <-> exists x, (a, x) ∈ il_nodes l /\ kof x = k;
  wf_addr : NoDup (il_nodes l).*1;
  wf_keys : NoDup (il_keys l);
  wf_next : forall a x, (a, x) ∈ il_nodes l -> (a < il_next l)%nat
}.

(** ** Refinement of the plain list of entries *)

(** The entries whose key is not [k]. *)
Definition without (k : K) (es : list X) : list X := filter (fun x => kof x <> k) es.

Lemma elem_of_entries l x : x ∈ il_entries l <-> exists a, (a, x) ∈ il_nodes l.
Proof.
  unfold il_entries. rewrite list_elem_of_fmap. split.
  - intros ([a y] & -> & Hy). eauto.
  - intros [a Ha]. by exists (a, x).
Qed.

Lemma elem_of_il_keys l k : k ∈ il_keys l <-> exists a x, (a, x) ∈ il_nodes l /\ kof x = k.
Proof.
  unfold il_keys. rewrite list_elem_of_fmap. setoid_rewrite elem_of_entries. naive_solver.
Qed.

Lemma node_find_spec ns a x :
  NoDup ns.*1 -> node_find a ns = Some x <-> (a, x) ∈ ns.
Proof.
  induction ns as [|[a' y] ns IH]; simpl; intros Hnd.
  - by rewrite elem_of_nil.
  - apply NoDup_cons in Hnd as [Hni Hnd]. rewrite elem_of_cons. case_decide as E.
    + subst a'. split; [intros [= ->]; by left|]. intros [[= ->]|Hin]; [done|].
      exfalso. apply Hni. apply list_elem_of_fmap. by exists (a, x).
    + rewrite IH by done. split; [by right|]. intros [[= -> ->]|?]; done.
Qed.

Lemma il_wf_empty : il_wf il_empty.
Proof.
  split; simpl; try constructor.
  - by rewrite lookup_empty.
  - intros (x & Hx & _). by apply elem_of_nil in Hx.
  - intros a x Hx. by apply elem_of_nil in Hx.
Qed.

Lemma il_contains_spec l k : il_wf l -> il_contains l k = bool_decide (k ∈ il_keys l).
Proof.
  intros Hwf. unfold il_contains. apply bool_decide_ext. rewrite elem_of_il_keys.
  split.
  - intros [a Ha]. apply (wf_map _ Hwf) in Ha as (x & ? & ?). eauto.
  - intros (a & x & ? & ?). exists a. apply (wf_map _ Hwf). eauto.
Qed.

Lemma il_find_None l k : il_wf l -> il_map l !! k = None <-> k ∉ il_keys l.
Proof.
  intros Hwf. pose proof (il_contains_spec l k Hwf) as E. unfold il_contains in E.
  rewrite eq_None_not_Some. do 2 case_bool_decide; naive_solver.
Qed.

(** The address the map gives for [k] is the one node with key [k]. *)
Lemma il_find_Some l k a :
  il_wf l -> il_map l !! k = Some a ->
  exists x, il_deref l a = Some x /\ kof x = k /\ x ∈ il_entries l /\
    (forall b y, (b, y) ∈ il_nodes l -> (b = a <-> kof y = k)).
Proof.
  intros Hwf Ha. pose proof Ha as Hk. apply (wf_map _ Hwf) in Hk as (x & Hx & Hkx).
  exists x. split_and!.
  - by apply (node_find_spec _ _ _ (wf_addr _ Hwf)).
  - done.
  - apply elem_of_entries. eauto.
  - intros b y Hy. split.
    + intros ->. apply (node_find_spec _ _ _ (wf_addr _ Hwf)) in Hx, Hy. naive_solver.
    + intros Hk. assert (il_map l !! k = Some b) by (apply (wf_map _ Hwf); eauto). naive_solver.
Qed.

Lemma nodes_without_entries a k ns :
  (forall b y, (b, y) ∈ ns -> (b = a <-> kof y = k)) ->
  (nodes_without a ns).*2 = without k ns.*2.
Proof.
  unfold nodes_without, without. induction ns as [|[b y] ns IH]; intros Hn; [done|].
  assert (b = a <-> kof y = k) as Hby by (apply Hn; by left).
  rewrite filter_cons, fmap_cons, filter_cons. cbn [fst snd].
  rewrite <- IH by (intros; apply Hn; by right).
  do 2 case_decide; naive_solver.
Qed.

Lemma elem_of_without k es x : x ∈ without k es <-> x ∈ es /\ kof x <> k.
Proof. unfold without. rewrite list_elem_of_filter. tauto. Qed.

Lemma without_keys_sublist k es : kof <$> without k es `sublist_of` kof <$> es.
Proof. apply fmap_sublist, sublist_filter. Qed.

Lemma nodes_without_nodup a ns : NoDup ns.*1 -> NoDup (nodes_without a ns).*1.
Proof. intros Hn. eapply sublist_NoDup; [exact Hn|]. apply fmap_sublist, sublist_filter. Qed.

Lemma il_push_front_wf l x : il_wf l -> kof x ∉ il_keys l -> il_wf (il_push_front l x).
Proof.
  intros Hwf Hx. split; simpl.
  - intros k a. rewrite lookup_insert. setoid_rewrite elem_of_cons. case_decide as E.
    + split.
      * intros [= <-]. exists x. auto.
      * intros (y & [[= -> ->]|Hy] & Hk); [done|].
        exfalso. apply Hx. apply elem_of_il_keys. exists a, y. split; [done|congruence].
    + rewrite (wf_map _ Hwf). split; [naive_solver|].
      intros (y & [[= -> ->]|Hy] & Hk); [done|eauto].
  - constructor; [|apply (wf_addr _ Hwf)]. intros Hin.
    apply list_elem_of_fmap in Hin as ([a y] & Ea & Hy). simpl in Ea. subst a.
    apply (wf_next _ Hwf) in Hy. lia.
  - unfold il_keys, il_entries. simpl. constructor; [exact Hx|apply (wf_keys _ Hwf)].
  - intros a y [[= -> ->]|Hy]%elem_of_cons; [lia|]. apply (wf_next _ Hwf) in Hy. lia.
Qed.

Lemma il_push_front_entries l x : il_entries (il_push_front l x) = x :: il_entries l.
Proof. done. Qed.

(** Removing the node of key [k]. *)
Lemma il_remove_wf l k a :
  il_wf l -> il_map l !! k = Some a ->
  let l' := mkIlist (nodes_without a (il_nodes l)) (delete k (il_map l)) (il_next l) in
  il_wf l' /\ il_entries l' = without k (il_entries l).
Proof.
  intros Hwf Ha. destruct (il_find_Some l k a Hwf Ha) as (x & _ & _ & _ & Hiff).
  assert (il_entries (mkIlist (nodes_without a (il_nodes l)) (delete k (il_map l)) (il_next l))
          = without k (il_entries l)) as He by (by apply nodes_without_entries).
  split; [|done]. split; simpl.
  - intros k' a'. rewrite lookup_delete. unfold nodes_without. case_decide as E.
    + split; [done|]. intros (y & Hy & Hk). apply list_elem_of_filter in Hy as [Hne Hy].
      simpl in Hne. exfalso. apply Hne. apply (Hiff _ _ Hy). congruence.
    + rewrite (wf_map _ Hwf). setoid_rewrite list_elem_of_filter. simpl. split.
      * intros (y & Hy & Hk). exists y. split_and!; [|done..]. rewrite (Hiff _ _ Hy). congruence.
      * naive_solver.
  - apply nodes_without_nodup, Hwf.
  - unfold il_keys. rewrite He. eapply sublist_NoDup; [apply (wf_keys _ Hwf)|apply without_keys_sublist].
  - intros b y Hy. apply list_elem_of_filter in Hy as [_ Hy]. by apply (wf_next _ Hwf) in Hy.
Qed.

Lemma without_id k es : k ∉ (kof <$> es) -> without k es = es.
Proof.
  intros Hk. unfold without. apply list_filter_all. intros x Hx E. apply Hk.
  apply list_elem_of_fmap. eauto.
Qed.

Lemma il_erase_spec l k :
  il_wf l -> il_wf (il_erase l k) /\ il_entries (il_erase l k) = without k (il_entries l).
Proof.
  intros Hwf. unfold il_erase. destruct (il_map l !! k) as [a|] eqn:Ha.
  - by apply il_remove_wf.
  - apply il_find_None in Ha; [|done]. split; [done|]. by rewrite without_id.
Qed.

Lemma il_move_to_front_spec l k a x :
  il_wf l -> il_map l !! k = Some a -> il_deref l a = Some x ->
  il_wf (il_move_to_front l a) /\
  il_entries (il_move_to_front l a) = x :: without k (il_entries l).
Proof.
  intros Hwf Ha Hx. unfold il_move_to_front. rewrite Hx.
  destruct (il_find_Some l k a Hwf Ha) as (x' & Hx' & Hkx & _ & Hiff).
  rewrite Hx in Hx'. injection Hx' as <-.
  apply (node_find_spec _ _ _ (wf_addr _ Hwf)) in Hx.
  destruct (il_remove_wf l k a Hwf Ha) as [Hwf' He]. split.
  2: { unfold il_entries. simpl. f_equal. exact He. }
  split; simpl.
  - intros k' a'. rewrite (wf_map _ Hwf). unfold nodes_without.
    setoid_rewrite elem_of_cons. setoid_rewrite list_elem_of_filter. simpl. split.
    + intros (y & Hy & Hk). exists y. split; [|done].
      destruct (decide (a' = a)) as [->|]; [|auto]. left.
      apply (node_find_spec _ _ _ (wf_addr _ Hwf)) in Hx, Hy. naive_solver.
    + intros (y & [[= -> ->]|[_ Hy]] & Hk); eauto.
  - constructor; [|apply nodes_without_nodup, Hwf]. intros Hin.
    apply list_elem_of_fmap in Hin as ([b y] & Eb & Hy). simpl in Eb. subst b.
    apply list_elem_of_filter in Hy as [Hne _]. done.
  - unfold il_keys, il_entries. simpl. constructor.
    + rewrite (nodes_without_entries a k) by done. intros Hin.
      apply list_elem_of_fmap in Hin as (y & Ey & Hy). apply elem_of_without in Hy as [_ Hy]. congruence.
    + exact (wf_keys _ Hwf').
  - intros b y [[= -> ->]|Hy]%elem_of_cons; [by apply (wf_next _ Hwf) in Hx|].
    apply list_elem_of_filter in Hy as [_ Hy]. by apply (wf_next _ Hwf) in Hy.
Qed.

Lemma il_pop_back_spec l es x :
  il_wf l -> il_entries l = es ++ [x] ->
  exists l', il_pop_back l = Some (x, l') /\ il_wf l' /\ il_entries l' = es.
Proof.
  intros Hwf He. unfold il_pop_back, il_entries in *.
  destruct (il_nodes l) as [|[a y] ns _] eqn:En using rev_ind.
  { by destruct es. }
  rewrite fmap_app in He. simpl in He. apply app_inj_tail in He as [He ->].
  rewrite last_snoc, removelast_last.
  eexists. split; [reflexivity|]. split; [|done].
  assert (il_map l !! kof x = Some a) as Hax.
  { apply (wf_map _ Hwf). exists x. rewrite En. split; [|done]. apply elem_of_app. right. by left. }
  destruct (il_find_Some l (kof x) a Hwf Hax) as (_ & _ & _ & _ & Hiff).
  assert (nodes_without a (il_nodes l) = ns) as Hns.
  { unfold nodes_without. rewrite En, filter_app, filter_cons_False by (simpl; naive_solver).
    rewrite filter_nil, app_nil_r. apply list_filter_all. intros [b z] Hz. simpl. intros ->.
    pose proof (wf_addr _ Hwf) as Hnd. rewrite En, fmap_app in Hnd.
    apply NoDup_app in Hnd as (_ & Hnd & _). apply (Hnd a); [|by left].
    apply list_elem_of_fmap. by exists (a, z). }
  rewrite <- Hns. by apply il_remove_wf.
Qed.

Lemma il_write_spec l k a f :
  il_wf l -> il_map l !! k = Some a -> (forall x, kof (f x) = kof x) ->
  il_wf (il_write l a f) /\
  il_entries (il_write l a f) = (fun x => if decide (kof x = k) then f x else x) <$> il_entries l.
Proof.
  intros Hwf Ha Hf. destruct (il_find_Some l k a Hwf Ha) as (x0 & _ & _ & _ & Hiff).
  assert ((il_nodes (il_write l a f)).*1 = (il_nodes l).*1) as E1.
  { unfold il_write. simpl. rewrite <- list_fmap_compose. apply list_fmap_ext.
    intros i [b y] _. simpl. by case_decide. }
  assert (il_entries (il_write l a f)
          = (fun x => if decide (kof x = k) then f x else x) <$> il_entries l) as E2.
  { unfold il_entries, il_write. simpl. rewrite <- !list_fmap_compose. apply list_fmap_ext.
    intros i [b y] Hy. apply list_elem_of_lookup_2 in Hy. simpl. pose proof (Hiff _ _ Hy).
    do 2 case_decide; naive_solver. }
  assert (il_keys (il_write l a f) = il_keys l) as E3.
  { unfold il_keys. rewrite E2, <- list_fmap_compose. apply list_fmap_ext. intros i y _.
    simpl. case_decide; [by rewrite Hf|done]. }
  assert (forall b y, (b, y) ∈ il_nodes (il_write l a f) <->
            exists z, (b, z) ∈ il_nodes l /\ y = if decide (b = a) then f z else z) as Hin.
  { intros b y. unfold il_write. simpl. rewrite list_elem_of_fmap. split.
    - intros ([c z] & E & Hz). simpl in E. exists z. destruct (decide (c = a)), (decide (b = a)); naive_solver.
    - intros (z & Hz & ->). exists (b, z). simpl. split; [|done]. destruct (decide (b = a)); done. }
  split; [|done]. split.
  - intros k' a'. simpl (il_map _). rewrite (wf_map _ Hwf). setoid_rewrite Hin. split.
    + intros (y & Hy & Hk). exists (if decide (a' = a) then f y else y).
      split; [by eauto|]. case_decide; by rewrite ?Hf.
    + intros (y & (z & Hz & ->) & Hk). exists z. split; [done|]. case_decide; by rewrite ?Hf in Hk.
  - rewrite E1. apply Hwf.
  - rewrite E3. apply Hwf.
  - intros b y Hy. apply Hin in Hy as (z & Hz & _). by apply (wf_next _ Hwf) in Hz.
Qed.

End indexed_list.

Arguments ilist K X {_ _}.
Arguments il_empty {K X _ _}.
