(* ===== verification/ArcCache.v ===== *)
(** * The ARC cache: [include/elcache/arc_cache.hpp]

    [ARCCache<K, V>] with its two resident lists T1 (seen once) and T2 (seen again), its two ghost
    lists B1 and B2 of evicted keys, and the adaptation parameter [p_], a [double]. The locks of the
    class make every public operation atomic; an operation is a function from a state to an outcome
    and a new state. Dangling iterators and [back()] of an empty list are [Undef], an eviction loop
    that does not end is [Spin]: the theorems show that neither happens. *)

From S2P Require Import Prelude CDouble CacheInterface IndexedList.
Open Scope Z_scope.

Section arc_cache.
Context {K V : Type} `{Countable K} (size_fn : V -> Z).

(** ** [LRUList] *)

Record Entry := mkEntry { e_key : K; e_value : V; e_size : Z }.

Abbreviation LRUList := (ilist K Entry).

Definition lru_contains (l : LRUList) (key : K) : bool := il_contains l key.

(** [find]: [None] is [list_.end()]. *)
Definition lru_find (l : LRUList) (key : K) : option nat := il_map l !! key.

Definition lru_get (l : LRUList) (key : K) : option V :=
  it ← lru_find l key; e_value <$> il_deref l it.

Definition lru_push_front (l : LRUList) (key : K) (value : V) (size : Z) : LRUList :=
  il_push_front e_key l (mkEntry key value size).

Definition lru_move_to_front (l : LRUList) (it : nat) : LRUList := il_move_to_front l it.

Definition lru_pop_back (l : LRUList) : option (Entry * LRUList) := il_pop_back e_key l.

Definition lru_erase (l : LRUList) (key : K) : LRUList := il_erase l key.

(** [erase(iterator)]: the key is read from the node. *)
Definition lru_erase_it (l : LRUList) (it : nat) : LRUList :=
  match il_deref l it with
  | Some e => mkIlist (nodes_without it (il_nodes l)) (delete (e_key e) (il_map l)) (il_next l)
  | None => l
  end.

Definition lru_is_empty (l : LRUList) : bool := bool_decide (il_nodes l = []).
Definition lru_size (l : LRUList) : Z := size_of (il_nodes l).
Definition lru_clear (l : LRUList) : LRUList := mkIlist [] ∅ (il_next l).

Definition lru_total_size (l : LRUList) : Z :=
  foldl (fun total n => total +w e_size n.2) 0 (il_nodes l).

(** ** [GhostList] *)

Abbreviation GhostList := (ilist K K).

Definition ghost_contains (l : GhostList) (key : K) : bool := il_contains l key.
Definition ghost_push_front (l : GhostList) (key : K) : GhostList := il_push_front id l key.
Definition ghost_pop_back (l : GhostList) : option (K * GhostList) := il_pop_back id l.
Definition ghost_erase (l : GhostList) (key : K) : GhostList := il_erase l key.
Definition ghost_is_empty (l : GhostList) : bool := bool_decide (il_nodes l = []).
Definition ghost_size (l : GhostList) : Z := size_of (il_nodes l).
Definition ghost_clear (l : GhostList) : GhostList := mkIlist [] ∅ (il_next l).

(** ** The cache *)

Record ARCCache := mkArc {
  capacity_ : Z;
  t1_ : LRUList;
  t2_ : LRUList;
  b1_ : GhostList;
  b2_ : GhostList;
  p_ : double;
  current_size_ : Z;
  hits_ : Z;
  misses_ : Z
}.

Definition arc_make (capacity : Z) : ARCCache :=
  mkArc capacity il_empty il_empty il_empty il_empty dzero 0 0 0.

Definition arc_contains (c : ARCCache) (key : K) : bool :=
  lru_contains (t1_ c) key || lru_contains (t2_ c) key.

Definition arc_size (c : ARCCache) : Z := current_size_ c.

(** [ARCCache::Stats] and [stats()]. *)
Record ArcStats := mkArcStats {
  as_hits : Z;
  as_misses : Z;
  as_t1_size : Z;
  as_t2_size : Z;
  as_b1_size : Z;
  as_b2_size : Z;
  as_p : double
}.

Definition arc_stats (c : ARCCache) : ArcStats :=
  mkArcStats (hits_ c) (misses_ c) (lru_size (t1_ c)) (lru_size (t2_ c)) (ghost_size (b1_ c)) (ghost_size (b2_ c)) (p_ c).

Definition arc_clear (c : ARCCache) : ARCCache :=
  mkArc (capacity_ c) (lru_clear (t1_ c)) (lru_clear (t2_ c)) (ghost_clear (b1_ c))
        (ghost_clear (b2_ c)) dzero 0 (hits_ c) (misses_ c).

(** [get_impl]: the result of the lookup and the new state. *)
Definition get_impl (c : ARCCache) (key : K) : outcome (option V * ARCCache) :=
  let '(mkArc cap t1 t2 b1 b2 p cur hits misses) := c in
  match lru_find t1 key with
  | Some it =>
      match il_deref t1 it with
      | Some e =>
          let t1' := lru_erase_it t1 it in
          let t2' := lru_push_front t2 key (e_value e) (e_size e) in
          Done (lru_get t2' key, mkArc cap t1' t2' b1 b2 p cur (hits +w 1) misses)
      | None => Undef
      end
  | None =>
      match lru_find t2 key with
      | Some it =>
          let t2' := lru_move_to_front t2 it in
          match il_deref t2' it with
          | Some e => Done (Some (e_value e), mkArc cap t1 t2' b1 b2 p cur (hits +w 1) misses)
          | None => Undef
          end
      | None => Done (None, mkArc cap t1 t2 b1 b2 p cur hits (misses +w 1))
      end
  end.

Definition evict_one (s : ARCCache * list (K * V)) : outcome (ARCCache * list (K * V)) :=
  let '(c, evicted) := s in
  let '(mkArc cap t1 t2 b1 b2 p cur hits misses) := c in
  let t1_size := lru_total_size t1 in
  if negb (lru_is_empty t1) && ((size_of_double p <? t1_size) || lru_is_empty t2) then
    match lru_pop_back t1 with
    | Some (e, t1') =>
        Done (mkArc cap t1' t2 (ghost_push_front b1 (e_key e)) b2 p (cur -w e_size e) hits misses,
              evicted ++ [(e_key e, e_value e)])
    | None => Undef
    end
  else if negb (lru_is_empty t2) then
    match lru_pop_back t2 with
    | Some (e, t2') =>
        Done (mkArc cap t1 t2' b1 (ghost_push_front b2 (e_key e)) p (cur -w e_size e) hits misses,
              evicted ++ [(e_key e, e_value e)])
    | None => Undef
    end
  else Done (c, evicted).

Definition evict_step (needed : Z) (s : ARCCache * list (K * V))
  : (ARCCache * list (K * V)) + outcome (ARCCache * list (K * V)) :=
  let c := s.1 in
  if (capacity_ c <? current_size_ c +w needed)
     && (negb (lru_is_empty (t1_ c)) || negb (lru_is_empty (t2_ c)))
  then match evict_one s with
       | Done s' => inl s'
       | other => inr other
       end
  else inr (Done s).

(** One round per resident entry at most. *)
Definition evict_for_size (needed : Z) (s : ARCCache * list (K * V))
  : outcome (ARCCache * list (K * V)) :=
  default Spin (loop (S (length (il_nodes (t1_ s.1)) + length (il_nodes (t2_ s.1))))
                     (evict_step needed) s).

(** The cases of [put_impl] for a key that is not resident end alike: evict, insert, account. *)
Definition insert_t2 (c : ARCCache) (key : K) (value : V) (value_size : Z)
  : outcome (list (K * V) * ARCCache) :=
  '(c1, evicted) ← evict_for_size value_size (c, []);
  let '(mkArc cap t1 t2 b1 b2 p cur hits misses) := c1 in
  Done (evicted, mkArc cap t1 (lru_push_front t2 key value value_size) b1 b2 p
                       (cur +w value_size) hits misses).

Definition insert_t1 (c : ARCCache) (key : K) (value : V) (value_size : Z)
  : outcome (list (K * V) * ARCCache) :=
  '(c1, evicted) ← evict_for_size value_size (c, []);
  let '(mkArc cap t1 t2 b1 b2 p cur hits misses) := c1 in
  Done (evicted, mkArc cap (lru_push_front t1 key value value_size) t2 b1 b2 p
                       (cur +w value_size) hits misses).

(** Case 3: a hit in B1 raises [p_], at most to the capacity. *)
Definition adapt_up (p : double) (b1 b2 : GhostList) (cap : Z) : double :=
  let delta := if ghost_size b1 <=? ghost_size b2 then done_
               else ddiv (double_of_Z (ghost_size b2)) (double_of_Z (ghost_size b1)) in
  dmin (dadd p delta) (double_of_Z cap).

(** Case 4: a hit in B2 lowers [p_], at least to zero. *)
Definition adapt_down (p : double) (b1 b2 : GhostList) : double :=
  let delta := if ghost_size b2 <=? ghost_size b1 then done_
               else ddiv (double_of_Z (ghost_size b1)) (double_of_Z (ghost_size b2)) in
  dmax (dsub p delta) dzero.

(** Case 5: make room in the ghost lists. *)
Definition trim_ghosts (t1 t2 : LRUList) (b1 b2 : GhostList) (cap : Z)
  : outcome (GhostList * GhostList) :=
  let total_ghost := ghost_size b1 +w ghost_size b2 in
  if cap <=? lru_size t1 +w ghost_size b1 then
    if negb (ghost_is_empty b1) then
      match ghost_pop_back b1 with Some (_, b1') => Done (b1', b2) | None => Undef end
    else Done (b1, b2)
  else if cap *w 2 <=? lru_size t1 +w lru_size t2 +w total_ghost then
    if negb (ghost_is_empty b2) then
      match ghost_pop_back b2 with Some (_, b2') => Done (b1, b2') | None => Undef end
    else Done (b1, b2)
  else Done (b1, b2).

Definition put_impl (c : ARCCache) (key : K) (value : V) : outcome (list (K * V) * ARCCache) :=
  let value_size := size_fn value in
  let '(mkArc cap t1 t2 b1 b2 p cur hits misses) := c in
  match lru_find t1 key with
  | Some it =>
      match il_deref t1 it with
      | Some e =>
          let cur' := cur -w e_size e +w value_size in
          let t1' := lru_erase_it
            (il_write t1 it (fun e => mkEntry (e_key e) value value_size)) it in
          Done ([], mkArc cap t1' (lru_push_front t2 key value value_size) b1 b2 p cur' hits misses)
      | None => Undef
      end
  | None =>
  match lru_find t2 key with
  | Some it =>
      match il_deref t2 it with
      | Some e =>
          let cur' := cur -w e_size e +w value_size in
          let t2' := lru_move_to_front
            (il_write t2 it (fun e => mkEntry (e_key e) value value_size)) it in
          Done ([], mkArc cap t1 t2' b1 b2 p cur' hits misses)
      | None => Undef
      end
  | None =>
  if ghost_contains b1 key then
    let p' := adapt_up p b1 b2 cap in
    insert_t2 (mkArc cap t1 t2 (ghost_erase b1 key) b2 p' cur hits misses) key value value_size
  else if ghost_contains b2 key then
    let p' := adapt_down p b1 b2 in
    insert_t2 (mkArc cap t1 t2 b1 (ghost_erase b2 key) p' cur hits misses) key value value_size
  else
    '(b1', b2') ← trim_ghosts t1 t2 b1 b2 cap;
    insert_t1 (mkArc cap t1 t2 b1' b2' p cur hits misses) key value value_size
  end
  end.

Definition remove_impl (c : ARCCache) (key : K) : outcome (bool * ARCCache) :=
  let '(mkArc cap t1 t2 b1 b2 p cur hits misses) := c in
  match lru_find t1 key with
  | Some it =>
      match il_deref t1 it with
      | Some e => Done (true, mkArc cap (lru_erase_it t1 it) t2 b1 b2 p (cur -w e_size e) hits misses)
      | None => Undef
      end
  | None =>
  match lru_find t2 key with
  | Some it =>
      match il_deref t2 it with
      | Some e => Done (true, mkArc cap t1 (lru_erase_it t2 it) b1 b2 p (cur -w e_size e) hits misses)
      | None => Undef
      end
  | None => Done (false, mkArc cap t1 t2 (ghost_erase b1 key) (ghost_erase b2 key) p cur hits misses)
  end
  end.

Definition arc_get := get_impl.
Definition arc_put := put_impl.
Definition arc_remove := remove_impl.

(** ** Invariant *)

Abbreviation ents l := (il_entries (X:=Entry) l).
Abbreviation lkeys l := (e_key <$> il_entries (X:=Entry) l).
Abbreviation gkeys l := (il_entries (X:=K) l).

Definition sum_sizes (es : list Entry) : Z := foldr (fun e acc => e_size e + acc) 0 es.

(** The resident entries and the keys the cache knows. *)
Definition arc_entries (c : ARCCache) : list Entry := ents (t1_ c) ++ ents (t2_ c).
Definition arc_keys (c : ARCCache) : list K :=
  (lkeys (t1_ c) ++ lkeys (t2_ c)) ++ gkeys (b1_ c) ++ gkeys (b2_ c).
Definition arc_bytes (c : ARCCache) : Z := sum_sizes (arc_entries c).

(** The abstract contents: what a caller can look up. *)
Definition pair_of (e : Entry) : K * V := (e_key e, e_value e).
Definition arc_map (c : ARCCache) : gmap K V := list_to_map (pair_of <$> arc_entries c).

Record arc_wf (c : ARCCache) : Prop := {
  wf_t1 : il_wf e_key (t1_ c);
  wf_t2 : il_wf e_key (t2_ c);
  wf_b1 : il_wf id (b1_ c);
  wf_b2 : il_wf id (b2_ c);
  wf_disjoint : NoDup (arc_keys c);
  wf_sizes : Forall (fun e => e_size e = size_fn (e_value e)) (arc_entries c);
  wf_current : current_size_ c = u64 (arc_bytes c)
}.

(** ** Lists *)

Lemma sum_sizes_app es fs : sum_sizes (es ++ fs) = sum_sizes es + sum_sizes fs.
Proof. induction es as [|e es IH]; simpl; [done|]. rewrite IH. lia. Qed.

(** The list sizes reported by [stats] count the entries a caller can look up and the keys remembered. *)
Lemma arc_stats_counts c :
  arc_wf c ->
  as_t1_size (arc_stats c) + as_t2_size (arc_stats c) = Z.of_nat (size (arc_map c)) /\
  as_t1_size (arc_stats c) + as_t2_size (arc_stats c) + as_b1_size (arc_stats c) + as_b2_size (arc_stats c) = size_of (arc_keys c).
Proof.
  intros Hwf. assert (NoDup (fst <$> (pair_of <$> arc_entries c))) as Hn.
  { pose proof (wf_disjoint _ Hwf) as Hd. unfold arc_keys in Hd. apply NoDup_app in Hd as [Hd _].
    unfold arc_entries. rewrite <- list_fmap_compose, fmap_app. exact Hd. }
  unfold arc_map. rewrite <- (length_map_to_list (list_to_map _)), (map_to_list_to_map _ Hn).
  unfold arc_stats, lru_size, ghost_size, arc_entries, arc_keys, size_of, il_entries. cbn.
  rewrite !length_app, !length_fmap, !length_app, !length_fmap. lia.
Qed.

#[local] Instance sum_sizes_proper : Proper ((≡ₚ) ==> (=)) sum_sizes.
Proof. induction 1; simpl; lia. Qed.

Lemma lru_total_size_spec l : lru_total_size l = u64 (sum_sizes (ents l)).
Proof.
  unfold lru_total_size, il_entries. enough (forall (ns : list (nat * Entry)) acc,
    foldl (fun total n => total +w e_size n.2) (u64 acc) ns = u64 (acc + sum_sizes ns.*2)) as Hg.
  { specialize (Hg (il_nodes l) 0). exact Hg. }
  unfold sum_sizes. induction ns as [|[a e] ns IH]; intros acc.
  - simpl. f_equal. lia.
  - cbn [foldl]. rewrite u64_add_l, IH, fmap_cons. cbn [foldr snd]. f_equal. lia.
Qed.

Lemma lru_is_empty_spec (l : LRUList) : lru_is_empty l = bool_decide (ents l = []).
Proof.
  unfold lru_is_empty. apply bool_decide_ext. unfold il_entries.
  destruct (il_nodes l); simpl; naive_solver.
Qed.

Lemma entries_split k e es :
  NoDup (e_key <$> es) -> e ∈ es -> e_key e = k -> es ≡ₚ e :: without e_key k es.
Proof.
  induction es as [|f es IH]; intros Hnd Hin Hk; [by apply elem_of_nil in Hin|].
  rewrite fmap_cons in Hnd. apply NoDup_cons in Hnd as [Hni Hnd].
  unfold without. rewrite filter_cons. apply elem_of_cons in Hin as [<-|Hin].
  - case_decide; [done|]. constructor. fold (without e_key k es). by rewrite without_id; [|congruence].
  - case_decide as Hd.
    + rewrite (IH Hnd Hin Hk) at 1. apply Permutation_swap.
    + exfalso. apply Hni. apply list_elem_of_fmap. exists e. split; [congruence|done].
Qed.

(** A key found in a list: its node, and the list without it. *)
Lemma lru_found l key it :
  il_wf e_key l -> lru_find l key = Some it ->
  exists e, il_deref l it = Some e /\ e_key e = key /\
    ents l ≡ₚ e :: without e_key key (ents l) /\
    il_wf e_key (lru_erase_it l it) /\ ents (lru_erase_it l it) = without e_key key (ents l).
Proof.
  intros Hwf Hf. destruct (il_find_Some e_key l key it Hwf Hf) as (e & He & Hk & Hin & _).
  exists e. split_and!; [done..| | |].
  - apply entries_split; [apply (wf_keys _ _ Hwf)|done..].
  - unfold lru_erase_it. rewrite He, Hk. by apply il_remove_wf.
  - unfold lru_erase_it. rewrite He, Hk. by apply il_remove_wf.
Qed.

Lemma lru_not_found l key : il_wf e_key l -> lru_find l key = None -> key ∉ lkeys l.
Proof. intros Hwf Hf. by apply (il_find_None e_key l key Hwf). Qed.

Lemma lru_find_key l key : il_wf e_key l -> key ∈ lkeys l -> exists it, lru_find l key = Some it.
Proof.
  intros Hwf Hin. destruct (lru_find l key) as [it|] eqn:E; [eauto|].
  by apply lru_not_found in E.
Qed.

Lemma lru_get_front l key value size :
  lru_get (lru_push_front l key value size) key = Some value.
Proof.
  unfold lru_get, lru_find, lru_push_front, il_push_front, il_deref. simpl.
  rewrite lookup_insert_eq. simpl. by rewrite decide_True.
Qed.

(** The map depends on the resident entries only up to order. *)
Lemma arc_map_perm c es :
  arc_wf c -> arc_entries c ≡ₚ es -> arc_map c = list_to_map (pair_of <$> es).
Proof.
  intros Hwf Hp. unfold arc_map. apply list_to_map_proper.
  - rewrite <- list_fmap_compose. pose proof (wf_disjoint _ Hwf) as Hnd.
    unfold arc_keys in Hnd. rewrite <- fmap_app in Hnd. by apply NoDup_app in Hnd as (? & _ & _).
  - by rewrite Hp.
Qed.

Lemma arc_map_same c c' : arc_wf c -> arc_entries c ≡ₚ arc_entries c' -> arc_map c' = arc_map c.
Proof. intros Hwf Hp. symmetry. by apply arc_map_perm. Qed.

Lemma arc_map_lookup c k v :
  arc_wf c -> arc_map c !! k = Some v <-> exists e, e ∈ arc_entries c /\ e_key e = k /\ e_value e = v.
Proof.
  intros Hwf. unfold arc_map. rewrite <- elem_of_list_to_map.
  - rewrite list_elem_of_fmap. unfold pair_of. naive_solver.
  - rewrite <- list_fmap_compose. pose proof (wf_disjoint _ Hwf) as Hnd.
    unfold arc_keys in Hnd. rewrite <- fmap_app in Hnd. by apply NoDup_app in Hnd as (? & _ & _).
Qed.

Lemma arc_map_None c k : arc_wf c -> arc_map c !! k = None <-> k ∉ lkeys (t1_ c) ++ lkeys (t2_ c).
Proof.
  intros Hwf. unfold arc_map. rewrite <- not_elem_of_list_to_map.
  unfold arc_entries. by rewrite <- list_fmap_compose, <- fmap_app.
Qed.

(** Everything but the four list invariants follows from a rearrangement of a well-formed state. *)
Lemma arc_wf_rearrange c c' :
  arc_wf c ->
  il_wf e_key (t1_ c') -> il_wf e_key (t2_ c') -> il_wf id (b1_ c') -> il_wf id (b2_ c') ->
  arc_keys c' ⊆+ arc_keys c -> arc_entries c ≡ₚ arc_entries c' ->
  current_size_ c' = current_size_ c -> arc_wf c'.
Proof.
  intros Hwf H1 H2 H3 H4 Hk He Hc. split; try done.
  - eapply submseteq_NoDup; [exact Hk|apply Hwf].
  - rewrite <- He. apply Hwf.
  - rewrite Hc, (wf_current _ Hwf). unfold arc_bytes. by rewrite He.
Qed.

(** [c'] holds what [c] holds. *)
Definition arc_same (c c' : ARCCache) : Prop :=
  arc_wf c' /\ arc_map c' = arc_map c /\ arc_bytes c' = arc_bytes c /\
  capacity_ c' = capacity_ c /\ arc_keys c' ≡ₚ arc_keys c.

(** Moving entries within the two resident lists. *)
Lemma arc_moved cap t1 t2 b1 b2 p cur hits misses t1' t2' hits' misses' :
  let c := mkArc cap t1 t2 b1 b2 p cur hits misses in
  arc_wf c -> il_wf e_key t1' -> il_wf e_key t2' ->
  ents t1 ++ ents t2 ≡ₚ ents t1' ++ ents t2' ->
  arc_same c (mkArc cap t1' t2' b1 b2 p cur hits' misses').
Proof.
  intros c Hwf H1 H2 HP.
  assert (arc_keys (mkArc cap t1' t2' b1 b2 p cur hits' misses') ≡ₚ arc_keys c) as HK.
  { unfold arc_keys. simpl. apply Permutation_app_tail. rewrite <- !fmap_app. by rewrite HP. }
  split_and!; try done.
  - apply arc_wf_rearrange with (1 := Hwf); try done; [apply Hwf|apply Hwf|by rewrite HK].
  - by apply arc_map_same.
  - unfold arc_bytes, arc_entries. simpl. by rewrite HP.
Qed.

Lemma arc_map_elem c e : arc_wf c -> e ∈ arc_entries c -> arc_map c !! e_key e = Some (e_value e).
Proof. intros Hwf Hin. apply arc_map_lookup; eauto. Qed.

(** A key of T1 is not in T2. *)
Lemma t1_not_t2 c key : arc_wf c -> key ∈ lkeys (t1_ c) -> key ∉ lkeys (t2_ c).
Proof.
  intros Hwf H1 H2. pose proof (wf_disjoint _ Hwf) as Wd. unfold arc_keys in Wd.
  apply NoDup_app in Wd as (Wd & _ & _). apply NoDup_app in Wd as (_ & Wd & _). by apply (Wd key).
Qed.

(** ** Lookups *)

Lemma get_impl_spec c key :
  arc_wf c ->
  exists c', get_impl c key = Done (arc_map c !! key, c') /\ arc_same c c' /\
    (hits_ c', misses_ c') = (if decide (is_Some (arc_map c !! key))
                              then (hits_ c +w 1, misses_ c) else (hits_ c, misses_ c +w 1)).
Proof.
  intros Hwf. pose proof (wf_t1 _ Hwf) as W1. pose proof (wf_t2 _ Hwf) as W2.
  pose proof (t1_not_t2 c key Hwf) as Hn2. pose proof (arc_map_elem c) as Hel.
  destruct c as [cap t1 t2 b1 b2 p cur hits misses]. unfold arc_entries in Hel. simpl in *.
  destruct (lru_find t1 key) as [it|] eqn:F1; [|destruct (lru_find t2 key) as [it|] eqn:F2].
  - destruct (lru_found t1 key it W1 F1) as (e & -> & <- & Hp & Hw & He).
    specialize (Hel e Hwf). rewrite Hel by (rewrite Hp; by left).
    eexists. rewrite lru_get_front. split; [reflexivity|]. split; [|by rewrite decide_True by eauto].
    apply arc_moved; [done..| |].
    + apply il_push_front_wf; [done|]. apply Hn2. rewrite Hp. by left.
    + rewrite He. etransitivity; [apply Permutation_app_tail, Hp|].
      unfold lru_push_front. rewrite il_push_front_entries. destruct e. simpl.
      by rewrite <- Permutation_middle.
  - destruct (lru_found t2 key it W2 F2) as (e & Hd & <- & Hp & _).
    destruct (il_move_to_front_spec e_key t2 (e_key e) it e W2 F2 Hd) as [Hw He].
    assert (il_deref (lru_move_to_front t2 it) it = Some e) as ->.
    { unfold lru_move_to_front, il_move_to_front. rewrite Hd. unfold il_deref. simpl.
      by rewrite decide_True. }
    rewrite (Hel e Hwf) by (rewrite Hp; set_solver).
    eexists. split; [reflexivity|]. split; [|by rewrite decide_True by eauto].
    apply arc_moved; [done..|]. unfold lru_move_to_front. rewrite He. by rewrite <- Hp.
  - assert (arc_map (mkArc cap t1 t2 b1 b2 p cur hits misses) !! key = None) as ->.
    { apply arc_map_None; [done|]. simpl. rewrite elem_of_app.
      apply lru_not_found in F1, F2; [|done..]. tauto. }
    eexists. split; [reflexivity|]. split; [by apply arc_moved|].
    rewrite decide_False; [done|]. by intros [? ?].
Qed.

(** ** Evictions *)

(** The state after the entries [es] left the resident lists; their keys may live on as ghosts. *)
Record arc_lost (c c' : ARCCache) (es : list Entry) : Prop := {
  lost_wf : arc_wf c';
  lost_entries : arc_entries c ≡ₚ es ++ arc_entries c';
  lost_keys : arc_keys c' ≡ₚ arc_keys c;
  lost_rest : (capacity_ c', p_ c', hits_ c', misses_ c') = (capacity_ c, p_ c, hits_ c, misses_ c)
}.

Lemma arc_lost_refl c : arc_wf c -> arc_lost c c [].
Proof. by split. Qed.

Lemma arc_lost_trans c1 c2 c3 es fs : arc_lost c1 c2 es -> arc_lost c2 c3 fs -> arc_lost c1 c3 (es ++ fs).
Proof.
  intros [? He Hk Hr] [? He' Hk' Hr']. split; [done| | |congruence].
  - by rewrite He, He', app_assoc.
  - by rewrite Hk', Hk.
Qed.

Lemma arc_lost_bytes c c' es : arc_lost c c' es -> arc_bytes c = sum_sizes es + arc_bytes c'.
Proof. intros [_ He _ _]. unfold arc_bytes. by rewrite He, sum_sizes_app. Qed.

(** One entry leaves: the four list invariants and the bookkeeping give the rest. *)
Lemma arc_lost_one c c' e :
  arc_wf c ->
  il_wf e_key (t1_ c') -> il_wf e_key (t2_ c') -> il_wf id (b1_ c') -> il_wf id (b2_ c') ->
  arc_keys c' ⊆+ arc_keys c -> arc_entries c ≡ₚ e :: arc_entries c' ->
  current_size_ c' = current_size_ c -w e_size e -> arc_wf c'.
Proof.
  intros Hwf H1 H2 H3 H4 Hk He Hc. split; try done.
  - eapply submseteq_NoDup; [exact Hk|apply Hwf].
  - pose proof (wf_sizes _ Hwf) as Hs. rewrite He in Hs. by apply Forall_cons in Hs as [_ ?].
  - rewrite Hc, (wf_current _ Hwf), u64_sub_l. f_equal. unfold arc_bytes. rewrite He. simpl. lia.
Qed.

(** The list [evict_one] takes its victim from. *)
Definition evicts_t1 (c : ARCCache) : bool :=
  negb (lru_is_empty (t1_ c)) &&
  ((size_of_double (p_ c) <? u64 (sum_sizes (ents (t1_ c)))) || lru_is_empty (t2_ c)).

Lemma ghost_fresh c e :
  arc_wf c -> e ∈ arc_entries c -> (e_key e ∉ gkeys (b1_ c)) /\ (e_key e ∉ gkeys (b2_ c)).
Proof.
  intros Hwf Hin. pose proof (wf_disjoint _ Hwf) as Hd. unfold arc_keys in Hd.
  rewrite <- fmap_app in Hd. apply NoDup_app in Hd as (_ & Hd & _).
  specialize (Hd (e_key e)). rewrite elem_of_app in Hd.
  assert (e_key e ∈ (e_key <$> (ents (t1_ c) ++ ents (t2_ c)))) by (apply list_elem_of_fmap; eauto). tauto.
Qed.

Lemma ghost_push_front_wf l k : il_wf id l -> k ∉ gkeys l -> il_wf id (ghost_push_front l k).
Proof.
  intros Hwf Hk. apply il_push_front_wf; [done|]. unfold il_keys. by rewrite list_fmap_id.
Qed.

Lemma list_snoc_inv {A} (l : list A) : l <> [] -> exists k x, l = k ++ [x].
Proof. destruct l as [|x k _] using rev_ind; [done|]. eauto. Qed.

(** What one eviction does: the victim is the least recent entry of T1 or of T2, and it becomes the
    most recent ghost of B1 or of B2. *)
Lemma evict_one_spec c ev :
  arc_wf c -> arc_entries c <> [] ->
  exists e c', evict_one (c, ev) = Done (c', ev ++ [pair_of e]) /\ arc_lost c c' [e] /\
    if evicts_t1 c
    then ents (t1_ c) = ents (t1_ c') ++ [e] /\ gkeys (b1_ c') = e_key e :: gkeys (b1_ c) /\
         t2_ c' = t2_ c /\ b2_ c' = b2_ c
    else ents (t2_ c) = ents (t2_ c') ++ [e] /\ gkeys (b2_ c') = e_key e :: gkeys (b2_ c) /\
         t1_ c' = t1_ c /\ b1_ c' = b1_ c.
Proof.
  intros Hwf Hne. pose proof (ghost_fresh c) as Hgf. pose proof Hwf as [W1 W2 W3 W4 _ _ _].
  unfold evict_one, evicts_t1. destruct c as [cap t1 t2 b1 b2 p cur hits misses].
  unfold arc_entries in Hne, Hgf. simpl in *. rewrite lru_total_size_spec.
  destruct (_ && _) eqn:E.
  - rewrite lru_is_empty_spec in E. apply andb_true_iff in E as [E _]. bool_hyps.
    destruct (list_snoc_inv _ E) as (es & e & He).
    destruct (il_pop_back_spec e_key t1 es e W1 He) as (t1' & Hpop & W1' & He').
    unfold lru_pop_back. rewrite Hpop.
    eexists e, _. split; [reflexivity|]. simpl. split; [|by rewrite He, He'].
    destruct (Hgf e Hwf) as [Hb1 _]; [rewrite He; set_solver|].
    assert (arc_keys (mkArc cap t1' t2 (ghost_push_front b1 (e_key e)) b2 p (cur -w e_size e) hits misses)
      ≡ₚ arc_keys (mkArc cap t1 t2 b1 b2 p cur hits misses)) as HK.
    { unfold arc_keys. simpl. rewrite He, He', fmap_app. simpl. solve_Permutation. }
    split; [|unfold arc_entries; simpl; rewrite He, He'; solve_Permutation|done|done].
    eapply (arc_lost_one _ _ e Hwf); simpl; try done; [by apply ghost_push_front_wf|by rewrite HK|].
    unfold arc_entries. simpl. rewrite He, He'. solve_Permutation.
  - assert (ents t2 <> []) as E2.
    { intros E2. rewrite !lru_is_empty_spec, E2 in E. rewrite E2, app_nil_r in Hne.
      rewrite bool_decide_eq_false_2 in E by done. simpl in E. by rewrite orb_true_r in E. }
    rewrite lru_is_empty_spec, bool_decide_eq_false_2 by done. simpl.
    destruct (list_snoc_inv _ E2) as (es & e & He).
    destruct (il_pop_back_spec e_key t2 es e W2 He) as (t2' & Hpop & W2' & He').
    unfold lru_pop_back. rewrite Hpop.
    eexists e, _. split; [reflexivity|]. simpl. split; [|by rewrite He, He'].
    destruct (Hgf e Hwf) as [_ Hb2]; [rewrite He; set_solver|].
    assert (arc_keys (mkArc cap t1 t2' b1 (ghost_push_front b2 (e_key e)) p (cur -w e_size e) hits misses)
      ≡ₚ arc_keys (mkArc cap t1 t2 b1 b2 p cur hits misses)) as HK.
    { unfold arc_keys. simpl. rewrite He, He', fmap_app. simpl. solve_Permutation. }
    split; [|unfold arc_entries; simpl; rewrite He, He'; solve_Permutation|done|done].
    eapply (arc_lost_one _ _ e Hwf); simpl; try done; [by apply ghost_push_front_wf|by rewrite HK|].
    unfold arc_entries. simpl. rewrite He, He'. solve_Permutation.
Qed.

(** The loop ends, with the size fitting or nothing left, and without a needless eviction. *)
Definition arc_fits (c : ARCCache) (needed : Z) : Prop := u64 (arc_bytes c + needed) <= capacity_ c.

Lemma evict_for_size_spec c needed :
  arc_wf c ->
  exists es c', evict_for_size needed (c, []) = Done (c', pair_of <$> es) /\ arc_lost c c' es /\
    (arc_fits c' needed \/ arc_entries c' = []) /\
    (forall e, last es = Some e -> capacity_ c < u64 (arc_bytes c' + e_size e + needed)).
Proof.
  intros Hwf. unfold evict_for_size. cbn [fst].
  set (I := fun s : ARCCache * list (K * V) => exists es, s.2 = pair_of <$> es /\ arc_lost c s.1 es /\
    (forall e, last es = Some e -> capacity_ c < u64 (arc_bytes s.1 + e_size e + needed))).
  set (Q := fun r : outcome (ARCCache * list (K * V)) => exists s, r = Done s /\ I s /\
    (arc_fits s.1 needed \/ arc_entries s.1 = [])).
  destruct (loop_rule I Q (fun s => size_of (arc_entries s.1)) (evict_step needed))
    with (fuel := S (length (il_nodes (t1_ c)) + length (il_nodes (t2_ c)))) (s := (c, @nil (K * V)))
    as (r & -> & [c' ev] & -> & (es & E & Hl & Hmin) & Hfit).
  - intros [c' ev] (es & E & Hl & Hmin). simpl in *. subst ev. unfold evict_step. cbn [fst].
    assert (capacity_ c' = capacity_ c) as Ecap by (pose proof (lost_rest _ _ _ Hl); congruence).
    rewrite (wf_current _ (lost_wf _ _ _ Hl)), u64_add_l, !lru_is_empty_spec, <- negb_andb.
    destruct (_ && _) eqn:Ew.
    + apply andb_true_iff in Ew as [Ew En]. apply Z.ltb_lt in Ew. apply negb_true_iff, andb_false_iff in En.
      destruct (evict_one_spec c' (pair_of <$> es) (lost_wf _ _ _ Hl)) as (e & c'' & -> & Hl' & _).
      { unfold arc_entries. intros Hnil. apply app_nil in Hnil. destruct En; bool_hyps; tauto. }
      split.
      * exists (es ++ [e]). rewrite fmap_app. split_and!; [done|by eapply arc_lost_trans|].
        intros f. rewrite last_snoc. intros [= <-]. simpl. rewrite <- Ecap.
        apply arc_lost_bytes in Hl'. rewrite Hl' in Ew. simpl in Ew. by rewrite Z.add_0_r, (Z.add_comm (e_size e)) in Ew.
      * simpl. rewrite (lost_entries _ _ _ Hl'). unfold size_of. simpl. lia.
    + exists (c', pair_of <$> es). split; [done|]. split; [by exists es|].
      simpl. unfold arc_fits, arc_entries. apply andb_false_iff in Ew as [Ew|Ew]; bool_hyps; [by left|].
      right. by rewrite H1, H0.
  - exists []. split_and!; [done|by apply arc_lost_refl|done].
  - unfold size_of, arc_entries, il_entries. simpl. rewrite length_app, !length_fmap. lia.
  - apply size_of_nonneg.
  - simpl in *. subst ev. exists es, c'. done.
Qed.

(** ** Insertions *)

(** [c'] is [c] with one more resident entry. *)
Lemma arc_gain_one c c' k v :
  arc_wf c ->
  il_wf e_key (t1_ c') -> il_wf e_key (t2_ c') -> il_wf id (b1_ c') -> il_wf id (b2_ c') ->
  k ∉ arc_keys c -> arc_keys c' ≡ₚ k :: arc_keys c ->
  arc_entries c' ≡ₚ mkEntry k v (size_fn v) :: arc_entries c ->
  current_size_ c' = current_size_ c +w size_fn v -> arc_wf c'.
Proof.
  intros Hwf H1 H2 H3 H4 Hf Hk He Hc. split; try done.
  - rewrite Hk. constructor; [done|apply Hwf].
  - rewrite He. constructor; [done|apply Hwf].
  - rewrite Hc, (wf_current _ Hwf), u64_add_l. f_equal. unfold arc_bytes. rewrite He. simpl. lia.
Qed.

(** The contents after an eviction: what is left and what was handed out. *)
Lemma arc_lost_map c c' es :
  arc_wf c -> arc_lost c c' es ->
  list_to_map (pair_of <$> es) ##ₘ arc_map c' /\
  list_to_map (pair_of <$> es) ∪ arc_map c' = arc_map c.
Proof.
  intros Hwf Hl. pose proof (lost_entries _ _ _ Hl) as He. pose proof (wf_disjoint _ Hwf) as Hd.
  unfold arc_keys in Hd. rewrite <- fmap_app in Hd. apply NoDup_app in Hd as (Hd & _ & _).
  fold (arc_entries c) in Hd. rewrite He, fmap_app in Hd. apply NoDup_app in Hd as (_ & Hd & _).
  split.
  - apply map_disjoint_spec. intros k v w Hk Hw.
    apply elem_of_list_to_map_2, list_elem_of_fmap in Hk as (e & [= -> ->] & Hin).
    apply elem_of_list_to_map_2, list_elem_of_fmap in Hw as (f & [= Ef ->] & Hin').
    apply (Hd (e_key e)); apply list_elem_of_fmap; eauto.
  - rewrite (arc_map_perm c _ Hwf He), fmap_app, list_to_map_app. done.
Qed.

(** The two insertions, for a key the cache does not know. *)
Definition inserted (c : ARCCache) (k : K) (v : V) (r : outcome (list (K * V) * ARCCache)) : Prop :=
  exists es c1 c', r = Done (pair_of <$> es, c') /\ arc_lost c c1 es /\ arc_wf c' /\
    arc_entries c' ≡ₚ mkEntry k v (size_fn v) :: arc_entries c1 /\ capacity_ c' = capacity_ c /\
    (arc_fits c1 (size_fn v) \/ arc_entries c1 = []) /\
    (forall e, last es = Some e -> capacity_ c < u64 (arc_bytes c1 + e_size e + size_fn v)).

Lemma not_known_t1 c k : k ∉ arc_keys c -> k ∉ lkeys (t1_ c).
Proof. unfold arc_keys. rewrite !elem_of_app. tauto. Qed.
Lemma not_known_t2 c k : k ∉ arc_keys c -> k ∉ lkeys (t2_ c).
Proof. unfold arc_keys. rewrite !elem_of_app. tauto. Qed.

Lemma insert_t1_spec c k v :
  arc_wf c -> k ∉ arc_keys c -> inserted c k v (insert_t1 c k v (size_fn v)).
Proof.
  intros Hwf Hk. destruct (evict_for_size_spec c (size_fn v) Hwf) as (es & c1 & E & Hl & Hfit & Hmin).
  unfold insert_t1. rewrite E. simpl.
  pose proof (lost_keys _ _ _ Hl) as HK. pose proof (lost_wf _ _ _ Hl) as Hwf1.
  assert (k ∉ arc_keys c1) as Hk1 by (by rewrite HK).
  assert (capacity_ c1 = capacity_ c) as Hcap by (pose proof (lost_rest _ _ _ Hl); congruence).
  destruct c1 as [cap t1 t2 b1 b2 p cur hits misses]. simpl in *.
  eexists es, (mkArc cap t1 t2 b1 b2 p cur hits misses), _. split; [reflexivity|].
  split_and!; try done.
  eapply (arc_gain_one _ _ k v Hwf1); try done; simpl; try apply Hwf1.
  apply il_push_front_wf; [apply Hwf1|]. exact (not_known_t1 _ _ Hk1).
Qed.

Lemma insert_t2_spec c k v :
  arc_wf c -> k ∉ arc_keys c -> inserted c k v (insert_t2 c k v (size_fn v)).
Proof.
  intros Hwf Hk. destruct (evict_for_size_spec c (size_fn v) Hwf) as (es & c1 & E & Hl & Hfit & Hmin).
  unfold insert_t2. rewrite E. simpl.
  pose proof (lost_keys _ _ _ Hl) as HK. pose proof (lost_wf _ _ _ Hl) as Hwf1.
  assert (k ∉ arc_keys c1) as Hk1 by (by rewrite HK).
  assert (capacity_ c1 = capacity_ c) as Hcap by (pose proof (lost_rest _ _ _ Hl); congruence).
  destruct c1 as [cap t1 t2 b1 b2 p cur hits misses]. simpl in *.
  eexists es, (mkArc cap t1 t2 b1 b2 p cur hits misses), _. split; [reflexivity|].
  assert (arc_entries (mkArc cap t1 (lru_push_front t2 k v (size_fn v)) b1 b2 p (cur +w size_fn v) hits misses)
    ≡ₚ mkEntry k v (size_fn v) :: arc_entries (mkArc cap t1 t2 b1 b2 p cur hits misses)) as HE.
  { unfold arc_entries. simpl. solve_Permutation. }
  split_and!; try done.
  eapply (arc_gain_one _ _ k v Hwf1); try done; simpl; try apply Hwf1.
  - apply il_push_front_wf; [apply Hwf1|]. exact (not_known_t2 _ _ Hk1).
  - unfold arc_keys. simpl. solve_Permutation.
Qed.

(** Case 5 drops at most one ghost. *)
Lemma trim_ghosts_spec t1 t2 b1 b2 cap :
  il_wf id b1 -> il_wf id b2 ->
  exists b1' b2', trim_ghosts t1 t2 b1 b2 cap = Done (b1', b2') /\ il_wf id b1' /\ il_wf id b2' /\
    gkeys b1' ++ gkeys b2' ⊆+ gkeys b1 ++ gkeys b2.
Proof.
  intros W1 W2. unfold trim_ghosts, ghost_pop_back, ghost_is_empty.
  assert (forall b : GhostList, il_wf id b -> il_nodes b <> [] ->
    exists k b', il_pop_back id b = Some (k, b') /\ il_wf id b' /\ gkeys b = gkeys b' ++ [k]) as Hpop.
  { intros b W Hne. destruct (list_snoc_inv (gkeys b)) as (es & k & He).
    { unfold il_entries. by destruct (il_nodes b). }
    destruct (il_pop_back_spec id b es k W He) as (b' & ? & ? & E). exists k, b'. by rewrite E, He. }
  repeat case_match_goal; bool_hyps; try (eexists _, _; split_and!; done).
  all: match goal with H : il_nodes ?b <> [], W : il_wf id ?b |- _ =>
         destruct (Hpop b W H) as (k0 & b' & E' & ? & Eb) end.
  all: rewrite E' in *; simplify_eq.
  - eexists _, _. split; [reflexivity|]. split_and!; [done..|]. rewrite Eb. solve_submseteq.
  - eexists _, _. split; [reflexivity|]. split_and!; [done..|]. rewrite Eb. solve_submseteq.
Qed.

(** ** Updates in place *)

Lemma il_deref_write (l : LRUList) it f : il_deref (il_write l it f) it = f <$> il_deref l it.
Proof.
  unfold il_deref, il_write. simpl. induction (il_nodes l) as [|[a x] ns IH]; [done|].
  simpl. destruct (decide (a = it)) as [->|Hne]; simpl; [by rewrite !decide_True|].
  by rewrite !decide_False by congruence.
Qed.

Lemma without_write k (f : Entry -> Entry) es :
  (forall e, e_key (f e) = e_key e) ->
  without e_key k ((fun e => if decide (e_key e = k) then f e else e) <$> es) = without e_key k es.
Proof.
  intros Hf. unfold without. induction es as [|e es IH]; [done|].
  rewrite fmap_cons, !filter_cons, IH. destruct (decide (e_key e = k)) as [E|E].
  - rewrite Hf. by case_decide.
  - done.
Qed.

(** Writing the node of a key and then erasing it, or moving it to the front. *)
Lemma lru_write_spec l key it e v sz :
  il_wf e_key l -> lru_find l key = Some it -> il_deref l it = Some e -> e_key e = key ->
  let l' := il_write l it (fun e => mkEntry (e_key e) v sz) in
  (il_wf e_key (lru_erase_it l' it) /\ ents (lru_erase_it l' it) = without e_key key (ents l)) /\
  (il_wf e_key (lru_move_to_front l' it) /\
   ents (lru_move_to_front l' it) = mkEntry key v sz :: without e_key key (ents l)).
Proof.
  intros Hwf Hf He Hk l'.
  destruct (il_write_spec e_key l key it (fun e => mkEntry (e_key e) v sz) Hwf Hf) as [Hwf' He'];
    [done|]. fold l' in Hwf', He'.
  assert (lru_find l' key = Some it) as Hf' by done.
  assert (il_deref l' it = Some (mkEntry key v sz)) as Hd.
  { unfold l'. rewrite il_deref_write, He. simpl. by rewrite Hk. }
  destruct (lru_found l' key it Hwf' Hf') as (_ & _ & _ & _ & Hw & Hents).
  destruct (il_move_to_front_spec e_key l' key it _ Hwf' Hf' Hd) as [Hw2 Hents2].
  unfold lru_move_to_front. rewrite Hents, Hents2, He', without_write by done. done.
Qed.

Lemma sum_sizes_without es e : es ≡ₚ e :: without e_key (e_key e) es ->
  sum_sizes (without e_key (e_key e) es) = sum_sizes es - e_size e.
Proof. intros Hp. apply sum_sizes_proper in Hp. rewrite Hp. simpl. lia. Qed.

(** Replacing the entry [e] by one for the same key. *)
Lemma arc_replace c c' e v rest :
  arc_wf c ->
  il_wf e_key (t1_ c') -> il_wf e_key (t2_ c') -> b1_ c' = b1_ c -> b2_ c' = b2_ c ->
  arc_entries c ≡ₚ e :: rest ->
  arc_entries c' ≡ₚ mkEntry (e_key e) v (size_fn v) :: rest ->
  current_size_ c' = current_size_ c -w e_size e +w size_fn v ->
  arc_wf c' /\ arc_map c' = <[e_key e := v]> (arc_map c) /\
  arc_bytes c' = arc_bytes c - e_size e + size_fn v.
Proof.
  intros Hwf H1 H2 Hb1 Hb2 He He' Hc.
  assert (arc_bytes c' = arc_bytes c - e_size e + size_fn v) as Hbytes.
  { unfold arc_bytes. rewrite He, He'. simpl. lia. }
  assert (arc_wf c') as Hwf'.
  { split; try done.
    - rewrite Hb1. apply Hwf.
    - rewrite Hb2. apply Hwf.
    - pose proof (wf_disjoint _ Hwf) as Hd. unfold arc_keys in *. rewrite Hb1, Hb2.
      rewrite <- fmap_app in *. fold (arc_entries c) in Hd. fold (arc_entries c'). by rewrite He', He in *.
    - pose proof (wf_sizes _ Hwf) as Hs. rewrite He'. rewrite He in Hs.
      apply Forall_cons in Hs as [_ Hs]. by constructor.
    - rewrite Hc, (wf_current _ Hwf), Hbytes. by rewrite u64_sub_l, u64_add_l. }
  split_and!; [done| |done].
  rewrite (arc_map_perm _ _ Hwf' He'), (arc_map_perm _ _ Hwf He). simpl. by rewrite insert_insert_eq.
Qed.

(** ** [put] *)

(** The effect of a put on the contents: the new value is resident, the values handed back are the
    ones that left, and nothing else changed. *)
Record put_effect (c : ARCCache) (k : K) (v : V) (ev : list (K * V)) (c' : ARCCache) : Prop := {
  pe_wf : arc_wf c';
  pe_capacity : capacity_ c' = capacity_ c;
  pe_key : arc_map c' !! k = Some v;
  pe_disjoint : (list_to_map ev : gmap K V) ##ₘ arc_map c';
  pe_contents : list_to_map ev ∪ arc_map c' = <[k := v]> (arc_map c)
}.

(** What a put does to the resident bytes. *)
Definition put_bytes (c : ARCCache) (k : K) (v : V) (ev : list (K * V)) (c' : ARCCache) : Prop :=
  match arc_map c !! k with
  | Some old => ev = [] /\ arc_bytes c' = arc_bytes c - size_fn old + size_fn v
  | None =>
      arc_bytes c + size_fn v < 2 ^ 64 ->
      (arc_bytes c' <= capacity_ c \/ arc_map c' = {[k := v]}) /\
      (arc_bytes c + size_fn v <= capacity_ c -> ev = [] /\ arc_bytes c' = arc_bytes c + size_fn v)
  end.

Lemma put_replaced c c' e v rest :
  arc_wf c ->
  il_wf e_key (t1_ c') -> il_wf e_key (t2_ c') -> b1_ c' = b1_ c -> b2_ c' = b2_ c ->
  arc_entries c ≡ₚ e :: rest ->
  arc_entries c' ≡ₚ mkEntry (e_key e) v (size_fn v) :: rest ->
  current_size_ c' = current_size_ c -w e_size e +w size_fn v -> capacity_ c' = capacity_ c ->
  put_effect c (e_key e) v [] c' /\ put_bytes c (e_key e) v [] c'.
Proof.
  intros Hwf ? ? ? ? He He' Hc Hcap.
  destruct (arc_replace c c' e v rest) as (Hwf' & Hmap & Hbytes); try done. split.
  - split; try done.
    + by rewrite Hmap, lookup_insert_eq.
    + apply map_disjoint_empty_l.
    + simpl. by rewrite map_empty_union.
  - unfold put_bytes. rewrite (arc_map_elem c e Hwf) by (rewrite He; by left).
    split; [done|]. pose proof (wf_sizes _ Hwf) as Hs. rewrite He in Hs.
    apply Forall_cons in Hs as [Hs _]. lia.
Qed.

(** [size_fn] returns a [size_t]. *)
Hypothesis size_fn_u64 : forall v, is_u64 (size_fn v).

Lemma sum_sizes_nonneg es :
  Forall (fun e => e_size e = size_fn (e_value e)) es -> 0 <= sum_sizes es.
Proof.
  induction 1 as [|e es He _ IH]; simpl; [lia|]. rewrite He. destruct (size_fn_u64 (e_value e)). lia.
Qed.

Lemma arc_bytes_nonneg c : arc_wf c -> 0 <= arc_bytes c.
Proof. intros Hwf. apply sum_sizes_nonneg, Hwf. Qed.

(** From an insertion into a cache [c0] with the contents of [c]. *)
Lemma put_inserted c c0 k v r :
  arc_wf c -> arc_wf c0 -> arc_entries c0 = arc_entries c -> capacity_ c0 = capacity_ c ->
  arc_map c !! k = None -> inserted c0 k v r ->
  exists ev c', r = Done (ev, c') /\ put_effect c k v ev c' /\ put_bytes c k v ev c'.
Proof.
  intros Hwf Hwf0 He Hcap Hk (es & c1 & c' & -> & Hl & Hwf' & He' & Hcap' & Hfit & Hmin).
  exists (pair_of <$> es), c'. split; [done|].
  assert (arc_map c0 = arc_map c) as Em by (unfold arc_map; by rewrite He).
  assert (arc_bytes c0 = arc_bytes c) as Eb by (unfold arc_bytes; by rewrite He).
  destruct (arc_lost_map _ _ _ Hwf0 Hl) as [Hd Hu]. rewrite Em in Hu.
  pose proof (arc_map_perm _ _ Hwf' He') as Em'. simpl in Em'. fold (arc_map c1) in Em'.
  pose proof Hk as Hk'. rewrite <- Hu in Hk'. apply lookup_union_None in Hk' as [Hk1 Hk2].
  split; [split; try done; [congruence|by rewrite Em', lookup_insert_eq| |]|].
  - rewrite Em'. by apply map_disjoint_insert_r_2.
  - by rewrite Em', <- Hu, insert_union_r.
  - unfold put_bytes. rewrite Hk. intros Hov.
    pose proof (arc_lost_bytes _ _ _ Hl) as Hb. pose proof (arc_bytes_nonneg c1 (lost_wf _ _ _ Hl)) as Hb1.
    pose proof (wf_sizes _ Hwf0) as Hs. rewrite (lost_entries _ _ _ Hl) in Hs. apply Forall_app in Hs as [Hs _].
    pose proof (sum_sizes_nonneg es Hs) as Hes. destruct (size_fn_u64 v) as [Hv _].
    assert (arc_bytes c' = size_fn v + arc_bytes c1) as Hb' by (unfold arc_bytes; by rewrite He').
    assert (capacity_ c1 = capacity_ c0) as Hcap1 by (pose proof (lost_rest _ _ _ Hl); congruence).
    split.
    + destruct Hfit as [Hfit|Hnil]; [left|right].
      * unfold arc_fits in Hfit. rewrite u64_small in Hfit by (split; lia). lia.
      * rewrite Em'. unfold arc_map. by rewrite Hnil.
    + intros Hroom. destruct es as [|e es _] using rev_ind; [simpl in *; split; [done|lia]|].
      exfalso. specialize (Hmin e (last_snoc _ _)). rewrite sum_sizes_app in Hb, Hes. simpl in Hb, Hes.
      apply Forall_app in Hs as [Hs1 Hs2]. pose proof (sum_sizes_nonneg _ Hs1).
      apply sum_sizes_nonneg in Hs2. simpl in Hs2.
      rewrite u64_small in Hmin by (split; lia). lia.
Qed.

Lemma ghost_erase_spec b k :
  il_wf id b -> il_wf id (ghost_erase b k) /\ gkeys (ghost_erase b k) = without id k (gkeys b).
Proof. apply il_erase_spec. Qed.

Lemma without_ghosts (k : K) (ks : list K) : (k ∉ without id k ks) /\ without id k ks ⊆+ ks.
Proof.
  split; [by intros [_ []]%elem_of_without|]. apply sublist_submseteq, sublist_filter.
Qed.

(** Changing the ghost lists and [p_] only. *)
Lemma arc_wf_ghosts cap t1 t2 b1 b2 p cur hits misses b1' b2' p' :
  arc_wf (mkArc cap t1 t2 b1 b2 p cur hits misses) ->
  il_wf id b1' -> il_wf id b2' -> gkeys b1' ++ gkeys b2' ⊆+ gkeys b1 ++ gkeys b2 ->
  arc_wf (mkArc cap t1 t2 b1' b2' p' cur hits misses).
Proof.
  intros Hwf H1 H2 Hs. eapply (arc_wf_rearrange _ _ Hwf); simpl; try done; try apply Hwf.
  unfold arc_keys. simpl. by apply submseteq_app.
Qed.

Lemma ghost_contains_spec b k : il_wf id b -> ghost_contains b k = bool_decide (k ∈ gkeys b).
Proof.
  intros W. unfold ghost_contains. rewrite (il_contains_spec id) by done. unfold il_keys.
  by rewrite list_fmap_id.
Qed.

(** Cases 3 to 5: the key is not resident. *)
Lemma put_absent c k v :
  arc_wf c -> lru_find (t1_ c) k = None -> lru_find (t2_ c) k = None ->
  exists ev c', put_impl c k v = Done (ev, c') /\ put_effect c k v ev c' /\ put_bytes c k v ev c'.
Proof.
  intros Hwf F1 F2. pose proof Hwf as [W1 W2 W3 W4 Hdis _ _]. pose proof (arc_map_None c k Hwf) as Hnone.
  destruct c as [cap t1 t2 b1 b2 p cur hits misses]. simpl in *. rewrite F1, F2.
  apply lru_not_found in F1, F2; [|done..].
  assert (k ∉ lkeys t1 ++ lkeys t2) as Hres by (rewrite elem_of_app; tauto).
  assert (arc_map (mkArc cap t1 t2 b1 b2 p cur hits misses) !! k = None) as Hm by (by apply Hnone).
  destruct (ghost_erase_spec b1 k W3) as [Wb1 Eb1]. destruct (ghost_erase_spec b2 k W4) as [Wb2 Eb2].
  destruct (without_ghosts k (gkeys b1)) as [Hk1 Hs1]. destruct (without_ghosts k (gkeys b2)) as [Hk2 Hs2].
  unfold arc_keys in Hdis. simpl in Hdis.
  apply NoDup_app in Hdis as (_ & _ & Hdis). apply NoDup_app in Hdis as (_ & Hdis & _).
  rewrite !ghost_contains_spec by done. case_bool_decide as C1; [|case_bool_decide as C2].
  - eapply put_inserted; [done| | | | |apply insert_t2_spec]; try done.
    + eapply arc_wf_ghosts; [done..|]. rewrite Eb1. by apply submseteq_app.
    + eapply arc_wf_ghosts; [done..|]. rewrite Eb1. by apply submseteq_app.
    + unfold arc_keys. simpl. rewrite Eb1, elem_of_app, (elem_of_app (without _ _ _)). naive_solver.
  - eapply put_inserted; [done| | | | |apply insert_t2_spec]; try done.
    + eapply arc_wf_ghosts; [done..|]. rewrite Eb2. by apply submseteq_app.
    + eapply arc_wf_ghosts; [done..|]. rewrite Eb2. by apply submseteq_app.
    + unfold arc_keys. simpl. rewrite Eb2, elem_of_app, (elem_of_app (gkeys b1)). naive_solver.
  - destruct (trim_ghosts_spec t1 t2 b1 b2 cap W3 W4) as (b1' & b2' & -> & ? & ? & Hs). simpl.
    eapply put_inserted; [done| | | | |apply insert_t1_spec]; try done.
    + by eapply arc_wf_ghosts.
    + by eapply arc_wf_ghosts.
    + unfold arc_keys. simpl. rewrite elem_of_app. intros [?|Hg]; [done|].
      eapply elem_of_submseteq in Hg; [|exact Hs]. apply elem_of_app in Hg as [?|?]; done.
Qed.

Lemma put_impl_spec c k v :
  arc_wf c ->
  exists ev c', put_impl c k v = Done (ev, c') /\ put_effect c k v ev c' /\ put_bytes c k v ev c'.
Proof.
  intros Hwf. pose proof Hwf as [W1 W2 _ _ _ _ _]. pose proof (t1_not_t2 c k Hwf) as Hn2.
  destruct (lru_find (t1_ c) k) as [it|] eqn:F1; [|destruct (lru_find (t2_ c) k) as [it|] eqn:F2].
  3: by apply put_absent.
  - destruct c as [cap t1 t2 b1 b2 p cur hits misses]. simpl in *. rewrite F1.
    destruct (lru_found t1 k it W1 F1) as (e & Hd & Hk & Hp & _). rewrite Hd.
    destruct (lru_write_spec t1 k it e v (size_fn v) W1 F1 Hd Hk) as [[Hw He] _].
    eexists [], _. split; [reflexivity|]. subst k.
    eapply (put_replaced _ _ e v (without e_key (e_key e) (ents t1) ++ ents t2)); try done; simpl.
    + apply il_push_front_wf; [done|]. apply Hn2. rewrite Hp. by left.
    + unfold arc_entries. simpl. etransitivity; [apply Permutation_app_tail, Hp|done].
    + unfold arc_entries. simpl. rewrite He. solve_Permutation.
  - destruct c as [cap t1 t2 b1 b2 p cur hits misses]. simpl in *. rewrite F1, F2.
    destruct (lru_found t2 k it W2 F2) as (e & Hd & Hk & Hp & _). rewrite Hd.
    destruct (lru_write_spec t2 k it e v (size_fn v) W2 F2 Hd Hk) as [_ [Hw He]].
    eexists [], _. split; [reflexivity|]. subst k.
    eapply (put_replaced _ _ e v (ents t1 ++ without e_key (e_key e) (ents t2))); try done; simpl.
    + unfold arc_entries. simpl. etransitivity; [apply Permutation_app_head, Hp|]. solve_Permutation.
    + unfold arc_entries. simpl. rewrite He. solve_Permutation.
Qed.

(** ** [remove], [contains], [clear] *)

Lemma arc_map_lost c c' e :
  arc_wf c -> arc_wf c' -> arc_entries c ≡ₚ e :: arc_entries c' ->
  arc_map c !! e_key e = Some (e_value e) /\ arc_map c' = delete (e_key e) (arc_map c).
Proof.
  intros Hwf Hwf' He. split; [apply arc_map_elem; [done|]; rewrite He; by left|].
  rewrite (arc_map_perm _ _ Hwf He). simpl. rewrite delete_insert_id; [done|].
  apply not_elem_of_list_to_map. rewrite <- list_fmap_compose.
  pose proof (wf_disjoint _ Hwf) as Hd. unfold arc_keys in Hd. rewrite <- fmap_app in Hd.
  apply NoDup_app in Hd as (Hd & _ & _). fold (arc_entries c) in Hd. rewrite He in Hd.
  by apply NoDup_cons in Hd as [? _].
Qed.

(** The effect of taking the node of [e] out of a resident list. *)
Lemma arc_taken c c' e :
  arc_wf c ->
  il_wf e_key (t1_ c') -> il_wf e_key (t2_ c') -> b1_ c' = b1_ c -> b2_ c' = b2_ c ->
  arc_entries c ≡ₚ e :: arc_entries c' ->
  current_size_ c' = current_size_ c -w e_size e ->
  arc_wf c' /\ arc_map c !! e_key e = Some (e_value e) /\ arc_map c' = delete (e_key e) (arc_map c).
Proof.
  intros Hwf H1 H2 Hb1 Hb2 He Hc. assert (arc_wf c') as Hwf'.
  { eapply (arc_lost_one c c' e); try done.
    - rewrite Hb1. apply Hwf.
    - rewrite Hb2. apply Hwf.
    - unfold arc_keys. rewrite Hb1, Hb2. apply submseteq_app; [|done].
      rewrite <- !fmap_app. apply fmap_submseteq. fold (arc_entries c) (arc_entries c').
      rewrite He. by apply submseteq_cons. }
  split; [done|]. by apply arc_map_lost.
Qed.

Lemma remove_impl_spec c k :
  arc_wf c ->
  exists c', remove_impl c k = Done (bool_decide (is_Some (arc_map c !! k)), c') /\ arc_wf c' /\
    arc_map c' = delete k (arc_map c) /\ capacity_ c' = capacity_ c.
Proof.
  intros Hwf. pose proof Hwf as [W1 W2 W3 W4 _ _ _]. pose proof (arc_map_None c k Hwf) as Hnone.
  pose proof (arc_taken c) as Htk.
  destruct c as [cap t1 t2 b1 b2 p cur hits misses]. simpl in *.
  destruct (lru_find t1 k) as [it|] eqn:F1; [|destruct (lru_find t2 k) as [it|] eqn:F2].
  - destruct (lru_found t1 k it W1 F1) as (e & Hd & Hk & Hp & Hw & He). rewrite Hd. subst k.
    edestruct (Htk (mkArc cap (lru_erase_it t1 it) t2 b1 b2 p (cur -w e_size e) hits misses) e)
      as (Hwf' & Hm & Hm'); try done.
    { unfold arc_entries. simpl. rewrite He. etransitivity; [apply Permutation_app_tail, Hp|done]. }
    rewrite Hm. eexists. by rewrite bool_decide_eq_true_2.
  - destruct (lru_found t2 k it W2 F2) as (e & Hd & Hk & Hp & Hw & He). rewrite Hd. subst k.
    edestruct (Htk (mkArc cap t1 (lru_erase_it t2 it) b1 b2 p (cur -w e_size e) hits misses) e)
      as (Hwf' & Hm & Hm'); try done.
    { unfold arc_entries. simpl. rewrite He. etransitivity; [apply Permutation_app_head, Hp|].
      solve_Permutation. }
    rewrite Hm. eexists. by rewrite bool_decide_eq_true_2.
  - apply lru_not_found in F1, F2; [|done..].
    assert (arc_map (mkArc cap t1 t2 b1 b2 p cur hits misses) !! k = None) as Hm.
    { apply Hnone. rewrite elem_of_app. tauto. }
    rewrite Hm, bool_decide_eq_false_2 by (by intros [? ?]). eexists. split; [reflexivity|].
    destruct (ghost_erase_spec b1 k W3) as [? E1]. destruct (ghost_erase_spec b2 k W4) as [? E2].
    split_and!; [|by rewrite delete_id|done]. eapply arc_wf_ghosts; [done..|].
    rewrite E1, E2. apply submseteq_app; apply without_ghosts.
Qed.

Lemma arc_contains_spec c k : arc_wf c -> arc_contains c k = bool_decide (is_Some (arc_map c !! k)).
Proof.
  intros Hwf. unfold arc_contains, lru_contains. rewrite !(il_contains_spec e_key) by apply Hwf.
  rewrite <- bool_decide_or. apply bool_decide_ext. unfold il_keys.
  pose proof (arc_map_None c k Hwf) as Hn. rewrite elem_of_app, eq_None_not_Some in Hn.
  destruct (decide (is_Some (arc_map c !! k))), (decide (k ∈ lkeys (t1_ c) \/ k ∈ lkeys (t2_ c))); tauto.
Qed.

Lemma arc_clear_spec c :
  arc_wf (arc_clear c) /\ arc_map (arc_clear c) = ∅ /\ capacity_ (arc_clear c) = capacity_ c.
Proof.
  assert (forall X (kof : X -> K) n, il_wf kof (mkIlist [] ∅ n)) as Hnil.
  { intros X kof n. pose proof (il_wf_empty kof) as [? ? ? ?]. split; try done. simpl.
    intros a x Hx. by apply elem_of_nil in Hx. }
  split; [split; try apply Hnil|done]; simpl; [constructor|constructor|reflexivity].
Qed.

Lemma arc_make_wf cap : arc_wf (arc_make cap).
Proof. split; try apply il_wf_empty; [constructor|constructor|reflexivity]. Qed.

Lemma arc_put_law c k v :
  arc_wf c -> exists ev c', put_impl c k v = Done (ev, c') /\
    arc_wf c' /\ arc_map c' !! k = Some v /\
    (list_to_map ev : gmap K V) ##ₘ arc_map c' /\ list_to_map ev ∪ arc_map c' = <[k := v]> (arc_map c) /\
    capacity_ c' = capacity_ c /\
    match arc_map c !! k with
    | Some old => ev = [] /\ arc_bytes c' = arc_bytes c - size_fn old + size_fn v
    | None => arc_bytes c + size_fn v < 2 ^ 64 -> arc_bytes c + size_fn v <= capacity_ c ->
              ev = [] /\ arc_bytes c' = arc_bytes c + size_fn v
    end.
Proof.
  intros Hwf. destruct (put_impl_spec c k v Hwf) as (ev & c' & -> & [? ? ? ? ?] & Hb).
  exists ev, c'. split_and!; try done. unfold put_bytes in Hb.
  destruct (arc_map c !! k); [done|]. intros Ho Hroom. by apply Hb.
Qed.

Lemma arc_get_law c k :
  arc_wf c -> exists c', get_impl c k = Done (arc_map c !! k, c') /\
    arc_wf c' /\ arc_map c' = arc_map c /\ arc_bytes c' = arc_bytes c /\ capacity_ c' = capacity_ c.
Proof.
  intros Hwf. destruct (get_impl_spec c k Hwf) as (c' & -> & (? & ? & ? & ? & _) & _). eauto 10.
Qed.

(** [ARCCache] keeps the promises of [BoundedCache]. *)
#[local] Instance arc_bounded_cache : BoundedCache K V size_fn.
Proof.
  refine {|
    bc_make := arc_make; bc_get := arc_get; bc_put := arc_put; bc_remove := arc_remove;
    bc_contains := arc_contains; bc_clear := arc_clear; bc_size := arc_size;
    bc_capacity := capacity_; bc_wf := arc_wf; bc_map := arc_map; bc_bytes := arc_bytes
  |}.
  - intros cap. split_and!; try done. apply arc_make_wf.
  - intros c Hwf. apply (wf_current _ Hwf).
  - intros c k. apply arc_contains_spec.
  - intros c k. apply arc_get_law.
  - intros c k v. apply arc_put_law.
  - intros c k. apply remove_impl_spec.
  - intros c. destruct (arc_clear_spec c) as (? & ? & ?). by split_and!.
Defined.

End arc_cache.




Arguments ARCCache K V {_ _}.
Arguments Entry : clear implicits.

(** ** Properties *)

Section properties.
Context {K V : Type} `{Countable K} (size_fn : V -> Z) (size_fn_u64 : forall v, is_u64 (size_fn v)).

(** On a well-formed cache, [get] returns (no dangling iterator is dereferenced), answers with
    the value the cache holds for the key, leaves contents, bytes and capacity as they are, and
    counts one hit or one miss. *)
Theorem arc_get_correct (c : ARCCache K V) k :
  arc_wf size_fn c ->
  exists c', arc_get c k = Done (arc_map c !! k, c') /\ arc_wf size_fn c' /\
    arc_map c' = arc_map c /\ arc_bytes c' = arc_bytes c /\ capacity_ c' = capacity_ c /\
    (hits_ c', misses_ c') = (if decide (is_Some (arc_map c !! k))
                              then (hits_ c +w 1, misses_ c) else (hits_ c, misses_ c +w 1)).
Proof.
  intros Hwf. destruct (get_impl_spec size_fn c k Hwf) as (c' & E & (? & ? & ? & ? & _) & Hc).
  exists c'. split_and!; done.
Qed.

(** [put] on a well-formed cache returns and keeps the invariant; the new value is resident; the
    entries it hands back are exactly the ones that left: together with what stayed they are the old
    contents with the key updated, and none of them stayed. *)
Theorem arc_put_contents (c : ARCCache K V) k v :
  arc_wf size_fn c ->
  exists ev c', arc_put size_fn c k v = Done (ev, c') /\ arc_wf size_fn c' /\
    arc_map c' !! k = Some v /\ (list_to_map ev : gmap K V) ##ₘ arc_map c' /\
    list_to_map ev ∪ arc_map c' = <[k := v]> (arc_map c).
Proof.
  intros Hwf. destruct (put_impl_spec size_fn size_fn_u64 c k v Hwf) as (ev & c' & E & [? ? ? ? ?] & _).
  exists ev, c'. split_and!; done.
Qed.

(** C31: a [put] of a key that is not resident leaves at most [capacity] bytes, unless the new value
    alone is resident; and when the value fits beside what is there nothing is evicted. The sum of
    sizes must stay below 2^64, as [current_size_ + needed] is a [size_t]. *)
Theorem arc_put_capacity (c : ARCCache K V) k v :
  arc_wf size_fn c -> arc_map c !! k = None -> arc_bytes c + size_fn v < 2 ^ 64 ->
  exists ev c', arc_put size_fn c k v = Done (ev, c') /\
    current_size_ c' = u64 (arc_bytes c') /\
    (arc_bytes c' <= capacity_ c \/ arc_map c' = {[k := v]}) /\
    (arc_bytes c + size_fn v <= capacity_ c ->
     ev = [] /\ arc_bytes c' = arc_bytes c + size_fn v /\ arc_map c' = <[k := v]> (arc_map c)).
Proof.
  intros Hwf Hk Hov. destruct (put_impl_spec size_fn size_fn_u64 c k v Hwf) as (ev & c' & E & He & Hb).
  exists ev, c'. unfold put_bytes in Hb. rewrite Hk in Hb. destruct (Hb Hov) as [Hcap Hroom].
  split_and!; [done|apply (pe_wf _ _ _ _ _ _ He)|done|]. intros Hfit. destruct (Hroom Hfit) as [-> Hbytes].
  split_and!; [done..|]. rewrite <- (pe_contents _ _ _ _ _ _ He). simpl. by rewrite map_empty_union.
Qed.

(** The replacement policy. [evict_one] takes the least recent entry of T1 when T1 holds more
    than [p_] bytes or T2 is empty, and the least recent entry of T2 otherwise; the victim's key
    becomes the most recent ghost of B1 or of B2, and the victim is handed to the caller. *)
Theorem arc_evict_policy (c : ARCCache K V) ev :
  arc_wf size_fn c -> arc_entries c <> [] ->
  exists e c', evict_one (c, ev) = Done (c', ev ++ [(e_key e, e_value e)]) /\
    arc_wf size_fn c' /\ arc_map c' = delete (e_key e) (arc_map c) /\
    if negb (lru_is_empty (t1_ c)) &&
       ((size_of_double (p_ c) <? u64 (sum_sizes (il_entries (t1_ c)))) || lru_is_empty (t2_ c))
    then il_entries (t1_ c) = il_entries (t1_ c') ++ [e] /\
         il_entries (b1_ c') = e_key e :: il_entries (b1_ c) /\ t2_ c' = t2_ c /\ b2_ c' = b2_ c
    else il_entries (t2_ c) = il_entries (t2_ c') ++ [e] /\
         il_entries (b2_ c') = e_key e :: il_entries (b2_ c) /\ t1_ c' = t1_ c /\ b1_ c' = b1_ c.
Proof.
  intros Hwf Hne. destruct (evict_one_spec size_fn c ev Hwf Hne) as (e & c' & E & Hl & Hpol).
  exists e, c'. split_and!; [done|apply Hl| |done].
  apply (arc_map_lost size_fn c c' e Hwf); [apply Hl|]. exact (lost_entries _ _ _ _ Hl).
Qed.

(** C6: for every sequence of calls on a new cache, each call returns, and the answers are those of
    the lossy map: in particular a [get] returns nothing or the latest value put for the key since
    it was last removed, never a stale or a foreign one. *)
Theorem arc_refines_lossy_map cap (ops : list (cache_op K V)) :
  exists tr s, cache_run (BC := arc_bounded_cache size_fn size_fn_u64) (arc_make cap) ops = Done (tr, s) /\
    tr.*1 = ops /\ arc_wf size_fn s /\ lossy_trace ∅ tr (arc_map s) /\
    (forall tr1 k v tr2, tr = tr1 ++ (OGet k, RValue (Some v)) :: tr2 -> latest k (tr1.*1) = Some v).
Proof.
  destruct (cache_run_refines (BC := arc_bounded_cache size_fn size_fn_u64) cap ops)
    as (tr & s & E & Hwf & Hops & Ht).
  exists tr, s. split_and!; try done. intros tr1 k v tr2. by apply lossy_reads_latest with (1 := Ht).
Qed.

(** A [put] of a key that is resident replaces the value and never evicts: the resident bytes
    become the old ones less the old value plus the new one, whatever the capacity is. *)
Theorem arc_put_resident (c : ARCCache K V) k v old :
  arc_wf size_fn c -> arc_map c !! k = Some old ->
  exists c', arc_put size_fn c k v = Done ([], c') /\ arc_wf size_fn c' /\
    arc_map c' = <[k := v]> (arc_map c) /\ arc_bytes c' = arc_bytes c - size_fn old + size_fn v /\
    capacity_ c' = capacity_ c.
Proof.
  intros Hwf Hk. destruct (put_impl_spec size_fn size_fn_u64 c k v Hwf) as (ev & c' & E & He & Hb).
  unfold put_bytes in Hb. rewrite Hk in Hb. destruct Hb as [-> Hb]. exists c'.
  split_and!; [done|apply He| |done|apply He]. rewrite <- (pe_contents _ _ _ _ _ _ He). simpl.
  by rewrite map_empty_union.
Qed.

(** [remove] on a well-formed cache returns, says whether the key was resident, and takes away
    that key and nothing else; [clear] empties the cache; [contains] tells residency. *)
Theorem arc_remove_clear_contains (c : ARCCache K V) k :
  arc_wf size_fn c ->
  (exists c', arc_remove c k = Done (bool_decide (is_Some (arc_map c !! k)), c') /\
     arc_wf size_fn c' /\ arc_map c' = delete k (arc_map c)) /\
  (arc_wf size_fn (arc_clear c) /\ arc_map (arc_clear c) = ∅ /\ arc_size (arc_clear c) = 0) /\
  arc_contains c k = bool_decide (is_Some (arc_map c !! k)).
Proof.
  intros Hwf. split; [|split].
  - destruct (remove_impl_spec size_fn c k Hwf) as (c' & ? & ? & ? & _). eauto.
  - by destruct (arc_clear_spec size_fn c) as (? & ? & _).
  - by apply (arc_contains_spec size_fn).
Qed.

End properties.

(** ** Witnesses: a cache of ten bytes holding integers, the size of a value being the value *)

Definition sample_put (c : ARCCache Z Z) (k v : Z) : ARCCache Z Z :=
  match arc_put u64 c k v with Done (_, c') => c' | _ => c end.

Lemma sample_put_wf c k v : arc_wf u64 c -> arc_wf u64 (sample_put c k v).
Proof.
  intros Hwf. unfold sample_put. destruct (put_impl_spec u64 u64_range c k v Hwf) as (ev & c' & E & He & _).
  unfold arc_put. rewrite E. apply He.
Qed.

(** Key 1 was put twice, so it is in T2; key 2 is in T1; key 3 was evicted. *)
Definition sample_arc : ARCCache Z Z :=
  sample_put (sample_put (sample_put (sample_put (arc_make 10) 3 6) 1 4) 1 5) 2 3.

Lemma sample_arc_wf : arc_wf u64 sample_arc.
Proof. repeat apply sample_put_wf. apply arc_make_wf. Qed.

Lemma arc_get_correct_witness :
  exists c', arc_get sample_arc 2 = Done (Some 3, c') /\ arc_map c' = arc_map sample_arc.
Proof.
  destruct (arc_get_correct u64 sample_arc 2 sample_arc_wf) as (c' & E & _ & Em & _).
  exists c'. split; [exact E|exact Em].
Defined.

Lemma arc_put_contents_witness :
  exists ev c', arc_put u64 sample_arc 7 9 = Done (ev, c') /\ arc_map c' !! 7 = Some 9 /\
  list_to_map ev ∪ arc_map c' = <[7 := 9]> (arc_map sample_arc).
Proof.
  destruct (arc_put_contents u64 u64_range sample_arc 7 9 sample_arc_wf) as (ev & c' & E & _ & Hk & _ & Hu).
  exists ev, c'. split; [exact E|]. split; [exact Hk|exact Hu].
Defined.

Lemma arc_put_capacity_witness :
  exists ev c', arc_put u64 sample_arc 7 9 = Done (ev, c') /\
  (arc_bytes c' <= 10 \/ arc_map c' = {[7 := 9]}).
Proof.
  destruct (arc_put_capacity u64 u64_range sample_arc 7 9 sample_arc_wf) as (ev & c' & E & _ & Hc & _).
  - vm_compute. reflexivity.
  - vm_compute. reflexivity.
  - exists ev, c'. split; [exact E|exact Hc].
Defined.

Lemma arc_evict_policy_witness :
  exists e c', evict_one (sample_arc, []) = Done (c', [(e_key e, e_value e)]) /\
  arc_map c' = delete (e_key e) (arc_map sample_arc).
Proof.
  destruct (arc_evict_policy u64 sample_arc [] sample_arc_wf) as (e & c' & E & _ & Em & _).
  - vm_compute. discriminate.
  - exists e, c'. split; [exact E|exact Em].
Defined.

Lemma arc_refines_lossy_map_witness :
  exists tr s, cache_run (BC := arc_bounded_cache u64 u64_range) (arc_make 10)
      [OPut 1 4; OPut 2 9; OGet 1; OGet 2] = Done (tr, s) /\
    lossy_trace ∅ tr (arc_map s).
Proof.
  destruct (arc_refines_lossy_map u64 u64_range 10 [OPut 1 4; OPut 2 9; OGet 1; OGet 2])
    as (tr & s & E & _ & _ & Ht & _).
  exists tr, s. split; [exact E|exact Ht].
Defined.

(** Ten bytes of capacity, a hundred and three resident after the update. *)
Lemma arc_put_resident_witness :
  exists c', arc_put u64 sample_arc 1 100 = Done ([], c') /\
  capacity_ c' = 10 /\ arc_bytes c' = 103.
Proof.
  destruct (arc_put_resident u64 u64_range sample_arc 1 100 5 sample_arc_wf) as (c' & E & _ & _ & Hb & Hcap).
  - vm_compute. reflexivity.
  - exists c'. split; [exact E|]. split; [rewrite Hcap|rewrite Hb]; vm_compute; reflexivity.
Defined.

Lemma arc_remove_clear_contains_witness :
  exists c', arc_remove sample_arc 2 = Done (true, c') /\
  arc_map c' = delete 2 (arc_map sample_arc) /\ arc_contains sample_arc 3 = false.
Proof.
  destruct (arc_remove_clear_contains u64 sample_arc 2 sample_arc_wf) as ((c' & E & _ & Em) & _ & _).
  exists c'. split; [exact E|]. split; [exact Em|]. vm_compute. reflexivity.
Defined.
