(* ===== verification/MemoryCache.v ===== *)
(** * The memory tier: [include/elcache/memory_cache.hpp], [src/cache/memory_cache.cpp]

    [MemoryCache] keeps the chunks of values in an ARC cache under their content hash, and a
    descriptor per key. The chunk cache is reached through the interface [BoundedCache] only. Every
    operation is a function from a state to an outcome and a new state; the clock is the argument
    [now]. The coroutines run to completion one after the other; [MemoryThreads.v] interleaves them. *)

From S2P Require Import Prelude CStd CDouble Types Chunk CacheApi CacheInterface ArcCache.
Open Scope Z_scope.

(** The size function the constructor gives to the chunk cache, a [size_t]: 0 for a null pointer. *)
Definition chunk_size_fn (chunk : SharedChunk) : Z :=
  match chunk with Some c => u64 (Chunk_size c) | None => 0 end.

Lemma chunk_size_fn_u64 chunk : is_u64 (chunk_size_fn chunk).
Proof. destruct chunk; [apply u64_range|done]. Qed.

Section memory_cache.
Context `{HH : Hasher} `{BC : !BoundedCache ChunkId SharedChunk chunk_size_fn}.

(** ** State *)

Record MemoryCache := mkMemoryCache {
  mc_chunk_cache : bc_state;
  mc_descriptors : gmap CacheKey ValueDescriptor;
  mc_hits : Z;
  mc_misses : Z;
  mc_partial_hits : Z;
  mc_bytes_read : Z;
  mc_bytes_written : Z;
  mc_evictions : Z
}.

Definition mc_make (max_size : Z) : MemoryCache := mkMemoryCache (bc_make max_size) ∅ 0 0 0 0 0 0.

Definition with_chunks (c : MemoryCache) (cc : bc_state) : MemoryCache :=
  mkMemoryCache cc (mc_descriptors c) (mc_hits c) (mc_misses c) (mc_partial_hits c)
                (mc_bytes_read c) (mc_bytes_written c) (mc_evictions c).

Definition with_descriptors (c : MemoryCache) (d : gmap CacheKey ValueDescriptor) : MemoryCache :=
  mkMemoryCache (mc_chunk_cache c) d (mc_hits c) (mc_misses c) (mc_partial_hits c)
                (mc_bytes_read c) (mc_bytes_written c) (mc_evictions c).

(** The counters [hits_], [misses_], [partial_hits_] and [bytes_read_] advanced. *)
Definition count_reads (c : MemoryCache) (h mi ph br : Z) : MemoryCache :=
  mkMemoryCache (mc_chunk_cache c) (mc_descriptors c) (mc_hits c +w h) (mc_misses c +w mi)
                (mc_partial_hits c +w ph) (mc_bytes_read c +w br) (mc_bytes_written c) (mc_evictions c).

Definition count_written (c : MemoryCache) (n : Z) : MemoryCache :=
  mkMemoryCache (mc_chunk_cache c) (mc_descriptors c) (mc_hits c) (mc_misses c) (mc_partial_hits c)
                (mc_bytes_read c) (mc_bytes_written c +w n) (mc_evictions c).

Definition count_evictions (c : MemoryCache) (n : Z) : MemoryCache :=
  mkMemoryCache (mc_chunk_cache c) (mc_descriptors c) (mc_hits c) (mc_misses c) (mc_partial_hits c)
                (mc_bytes_read c) (mc_bytes_written c) (mc_evictions c +w n).

(** ** Chunk and descriptor operations *)

(** [get_chunk]: a stored pointer is copied out; nothing stored is [nullptr]. *)
Definition mc_get_chunk (c : MemoryCache) (id : ChunkId) : outcome (SharedChunk * MemoryCache) :=
  '(r, cc) ← bc_get (mc_chunk_cache c) id;
  Done (match r with Some chunk => chunk | None => None end, with_chunks c cc).

Definition mc_put_chunk (c : MemoryCache) (chunk : SharedChunk) : outcome (Status * MemoryCache) :=
  match chunk with
  | None => Done (status_error InvalidArgument (str "Null chunk"), c)
  | Some ch =>
      let '(id, ch') := Chunk_id ch in
      '(evicted, cc) ← bc_put (mc_chunk_cache c) id (Some ch');
      Done (make_ok, count_evictions (with_chunks c cc) (size_of evicted))
  end.

Definition mc_remove_chunk (c : MemoryCache) (id : ChunkId) : outcome (Status * MemoryCache) :=
  '(_, cc) ← bc_remove (mc_chunk_cache c) id;
  Done (make_ok, with_chunks c cc).

Definition mc_has_chunk (c : MemoryCache) (id : ChunkId) : bool := bc_contains (mc_chunk_cache c) id.

Definition mc_get_descriptor (c : MemoryCache) (key : CacheKey) : option ValueDescriptor :=
  mc_descriptors c !! key.

Definition mc_put_descriptor (c : MemoryCache) (desc : ValueDescriptor) : Status * MemoryCache :=
  (make_ok, with_descriptors c (<[vd_key desc := desc]> (mc_descriptors c))).

Definition mc_remove_descriptor (c : MemoryCache) (key : CacheKey) : Status * MemoryCache :=
  (make_ok, with_descriptors c (delete key (mc_descriptors c))).

Fixpoint mc_get_chunks (c : MemoryCache) (ids : list ChunkId) : outcome (list SharedChunk * MemoryCache) :=
  match ids with
  | [] => Done ([], c)
  | id :: ids' =>
      '(chunk, c1) ← mc_get_chunk c id;
      '(rest, c2) ← mc_get_chunks c1 ids';
      Done (chunk :: rest, c2)
  end.

(** [evict] is a stub in the code: it evicts nothing and answers 0. *)
Definition mc_evict (c : MemoryCache) (bytes_needed : Z) : Z * MemoryCache := (0, c).

(** ** Splitting and assembling values *)

(** The loop of [split_value]: variables [offset] and [chunks]. *)
Definition split_step (value : bytes) (s : Z * list Chunk) : (Z * list Chunk) + list Chunk :=
  let '(offset, chunks) := s in
  if offset <? size_of value then
    let chunk_size := Z.min CHUNK_SIZE (size_of value -w offset) in
    inl (offset +w chunk_size, chunks ++ [Chunk_make (slice offset chunk_size value)])
  else inr chunks.

Definition split_value (value : bytes) : outcome (list Chunk) :=
  match loop (Z.to_nat (size_of value / CHUNK_SIZE + 2)) (split_step value) (0, []) with
  | Some chunks => Done chunks
  | None => Spin
  end.

(** The loop of [assemble_value]: the rest of [chunks] from index [i] on, and the loop variables. *)
Fixpoint assemble_from (start_chunk i : Z) (chunks : list SharedChunk)
    (current_offset remaining : Z) (result : bytes) : bytes :=
  match chunks with
  | [] => result
  | chunk :: rest =>
      if 0 <? remaining then
        match chunk with
        | None =>
            let skip := Z.min remaining CHUNK_SIZE in
            assemble_from start_chunk (i +w 1) rest (current_offset +w skip) (remaining -w skip) result
        | Some ch =>
            let chunk_global_offset := (start_chunk +w i) *w CHUNK_SIZE in
            let off_in_chunk := if chunk_global_offset <? current_offset
                                then current_offset -w chunk_global_offset else 0 in
            let available := Chunk_size ch -w off_in_chunk in
            let to_copy := Z.min remaining available in
            let chunk_data := Chunk_read ch off_in_chunk to_copy in
            assemble_from start_chunk (i +w 1) rest (current_offset +w to_copy) (remaining -w to_copy)
                          (result ++ chunk_data)
        end
      else result
  end.

Definition assemble_value (chunks : list SharedChunk) (range : Range) : bytes :=
  let start_chunk := r_offset range / CHUNK_SIZE in
  assemble_from start_chunk 0 chunks (r_offset range) (r_length range) [].

(** ** [get] *)

(** The loop that fetches the chunks: the chunks so far, [all_found], and the cache. *)
Fixpoint fetch_chunks (c : MemoryCache) (desc : ValueDescriptor) (allow_partial : bool)
    (indices : list Z) (chunks : list SharedChunk) (all_found : bool)
  : outcome (list SharedChunk * bool * MemoryCache) :=
  match indices with
  | [] => Done (chunks, all_found, c)
  | idx :: rest =>
      match vd_chunks desc !! Z.to_nat idx with
      | None => Done (chunks, false, c)
      | Some id =>
          '(chunk, c') ← mc_get_chunk c id;
          match chunk with
          | None => if allow_partial then fetch_chunks c' desc allow_partial rest (chunks ++ [None]) false
                    else Done (chunks, false, c')
          | Some ch => fetch_chunks c' desc allow_partial rest (chunks ++ [Some ch]) all_found
          end
      end
  end.

(** The last part of [get]: assemble what was fetched. *)
Definition finish_get (c : MemoryCache) (desc : ValueDescriptor) (opts : ReadOptions) (range : Range)
    (chunks : list SharedChunk) (all_found : bool) : ReadResult * MemoryCache :=
  if bool_decide (chunks = []) || (negb all_found && negb (ro_allow_partial opts)) then
    (ReadResult_default, count_reads c 0 1 0 0)
  else
    let data := assemble_value chunks range in
    let hit := all_found && (size_of data =? r_length range) in
    (mkReadResult (if hit then Hit else PartialHit) data (mkRange (r_offset range) (size_of data))
                  (Some (vd_metadata desc)),
     if hit then count_reads c 1 0 0 (size_of data) else count_reads c 0 0 1 (size_of data)).

Definition mc_get (now : Z) (c : MemoryCache) (key : CacheKey) (opts : ReadOptions)
  : outcome (ReadResult * MemoryCache) :=
  match mc_get_descriptor c key with
  | None => Done (ReadResult_default, count_reads c 0 1 0 0)
  | Some desc =>
      if is_expired now (vd_metadata desc) then
        Done (mkReadResult Expired [] (mkRange 0 0) None, count_reads c 0 1 0 0)
      else
        let range := match ro_range opts with
                     | Some r => r
                     | None => mkRange 0 (vd_total_size desc)
                     end in
        if vd_total_size desc <=? r_offset range then
          Done (mkReadResult Hit [] (mkRange (r_offset range) 0) (Some (vd_metadata desc)), c)
        else
          let effective_length := Z.min (r_length range) (vd_total_size desc -w r_offset range) in
          let range := mkRange (r_offset range) effective_length in
          '(chunks, all_found, c') ←
            fetch_chunks c desc (ro_allow_partial opts) (chunks_for_range desc range) [] true;
          Done (finish_get c' desc opts range chunks all_found)
  end.

(** ** [put], [remove], [check], [metadata], [stats], [start], [stop] *)

(** Store the chunks; the identifiers so far, and the first failing status. *)
Fixpoint store_chunks (c : MemoryCache) (chunks : list Chunk) (ids : list ChunkId)
  : outcome (option Status * list ChunkId * MemoryCache) :=
  match chunks with
  | [] => Done (None, ids, c)
  | chunk :: rest =>
      let '(id, chunk') := Chunk_id chunk in
      '(status, c') ← mc_put_chunk c (Some chunk');
      if is_ok status then store_chunks c' rest (ids ++ [id]) else Done (Some status, ids ++ [id], c')
  end.

(** [created_at + *opts.ttl] is a sum of 64-bit signed nanoseconds, as [ns_of_seconds]. *)
Definition put_metadata (now : Z) (value : bytes) (n_chunks : Z) (opts : WriteOptions) : CacheMetadata :=
  mkMetadata (size_of value) n_chunks now now
             (match wo_ttl opts with Some ttl => Some (i64 (now + ns_of_seconds ttl)) | None => None end)
             (wo_flags opts).

Definition mc_put (now : Z) (c : MemoryCache) (key : CacheKey) (value : bytes) (opts : WriteOptions)
  : outcome (Status * MemoryCache) :=
  if MAX_KEY_SIZE <? CacheKey_size key then
    Done (status_error KeyTooLarge (str "Key exceeds maximum size"), c)
  else if MAX_VALUE_SIZE <? size_of value then
    Done (status_error ValueTooLarge (str "Value exceeds maximum size"), c)
  else
    chunks ← split_value value;
    '(failed, ids, c1) ← store_chunks c chunks [];
    match failed with
    | Some status => Done (status, c1)
    | None =>
        let desc := mkDescriptor key (size_of value) ids
                                 (put_metadata now value (size_of chunks) opts) in
        let '(status, c2) := mc_put_descriptor c1 desc in
        if is_ok status then Done (make_ok, count_written c2 (size_of value)) else Done (status, c2)
    end.

Fixpoint remove_chunks (c : MemoryCache) (ids : list ChunkId) : outcome MemoryCache :=
  match ids with
  | [] => Done c
  | id :: rest => '(_, c') ← mc_remove_chunk c id; remove_chunks c' rest
  end.

Definition mc_remove (c : MemoryCache) (key : CacheKey) (opts : DeleteOptions)
  : outcome (Status * MemoryCache) :=
  match mc_get_descriptor c key with
  | None => Done (status_error NotFound (str "Key not found"), c)
  | Some desc =>
      c1 ← remove_chunks c (vd_chunks desc);
      Done (make_ok, (mc_remove_descriptor c1 key).2)
  end.

(** The marking loop of [check]. *)
Definition mark_step (c : MemoryCache) (desc : ValueDescriptor) (partial : PartialValue) (idx : Z)
  : PartialValue :=
  if idx <? size_of (vd_chunks desc) then
    match vd_chunks desc !! Z.to_nat idx with
    | Some id => if mc_has_chunk c id then mark_chunk_available partial idx id else partial
    | None => partial
    end
  else partial.

Definition mc_check (c : MemoryCache) (key : CacheKey) (range : option Range) : AvailabilityResult :=
  match mc_get_descriptor c key with
  | None => AvailabilityResult_default
  | Some desc =>
      let check_range := match range with Some r => r | None => mkRange 0 (vd_total_size desc) end in
      let partial := foldl (mark_step c desc) (PartialValue_make desc) (chunks_for_range desc check_range) in
      mkAvailability true (Some (vd_metadata desc)) (available_ranges partial)
                     (missing_ranges partial check_range)
  end.

Definition mc_metadata (c : MemoryCache) (key : CacheKey) : option CacheMetadata :=
  vd_metadata <$> mc_get_descriptor c key.

Definition mc_stats (c : MemoryCache) : Stats :=
  mkStats (mc_hits c) (mc_misses c) (mc_partial_hits c) (mc_bytes_read c) (mc_bytes_written c)
          (mc_evictions c) (Z.of_nat (size (mc_descriptors c))) (bc_size (mc_chunk_cache c))
          (bc_capacity (mc_chunk_cache c)).

Definition mc_start (c : MemoryCache) : Status * MemoryCache := (make_ok, c).

Definition mc_stop (c : MemoryCache) : MemoryCache :=
  with_descriptors (with_chunks c (bc_clear (mc_chunk_cache c))) ∅.

(** ** The pieces of a value *)

Definition n_chunks (v : bytes) : Z := (size_of v + CHUNK_SIZE - 1) / CHUNK_SIZE.
Definition piece (v : bytes) (i : Z) : bytes := slice (i * CHUNK_SIZE) CHUNK_SIZE v.
Definition pieces (v : bytes) : list bytes := piece v <$> seqZ 0 (n_chunks v).

Lemma n_chunks_bounds v :
  0 <= n_chunks v /\ size_of v <= n_chunks v * CHUNK_SIZE < size_of v + CHUNK_SIZE.
Proof.
  pose proof CHUNK_SIZE_pos. pose proof (size_of_nonneg v). unfold n_chunks.
  pose proof (Z.div_mod (size_of v + CHUNK_SIZE - 1) CHUNK_SIZE).
  pose proof (Z.mod_pos_bound (size_of v + CHUNK_SIZE - 1) CHUNK_SIZE).
  split; [apply Z.div_pos|]; lia.
Qed.

Lemma slice_clip off len (v : bytes) :
  0 <= off <= size_of v -> slice off (Z.min len (size_of v - off)) v = slice off len v.
Proof.
  intros Ho. unfold slice. destruct (Z.le_ge_cases len (size_of v - off)).
  - do 2 f_equal. lia.
  - rewrite !take_ge; [done|..]; rewrite length_drop; unfold size_of in *; lia.
Qed.

Lemma size_of_piece v i :
  0 <= i < n_chunks v -> size_of (piece v i) = Z.min CHUNK_SIZE (size_of v - i * CHUNK_SIZE) /\
  0 < size_of (piece v i).
Proof.
  intros Hi. pose proof (n_chunks_bounds v). pose proof CHUNK_SIZE_pos.
  assert (i * CHUNK_SIZE < size_of v) by nia.
  unfold piece. rewrite <- slice_clip by lia. rewrite size_of_slice; lia.
Qed.

Lemma pieces_length v : length (pieces v) = Z.to_nat (n_chunks v).
Proof. unfold pieces. rewrite length_fmap, length_seqZ. done. Qed.

Lemma pieces_lookup v i :
  0 <= i -> pieces v !! Z.to_nat i = if i <? n_chunks v then Some (piece v i) else None.
Proof.
  intros Hi. unfold pieces. rewrite list_lookup_fmap. destruct (Z.ltb_spec i (n_chunks v)).
  - rewrite lookup_seqZ_lt by lia. simpl. do 2 f_equal. lia.
  - by rewrite lookup_seqZ_ge by lia.
Qed.

Lemma concat_pieces v : concat (pieces v) = v.
Proof.
  pose proof (n_chunks_bounds v) as [Hn [Hle _]]. pose proof CHUNK_SIZE_pos.
  enough (forall k : nat, concat (piece v <$> seqZ 0 (Z.of_nat k)) = slice 0 (Z.of_nat k * CHUNK_SIZE) v) as Hg.
  { unfold pieces. specialize (Hg (Z.to_nat (n_chunks v))). rewrite Z2Nat.id in Hg by done.
    by rewrite Hg, slice_all. }
  induction k as [|k IH]; [done|]. replace (Z.of_nat (S k)) with (Z.of_nat k + 1) by lia.
  rewrite seqZ_snoc, fmap_app, concat_app, IH by lia. simpl. rewrite app_nil_r. unfold piece.
  rewrite slice_app_adj by lia. f_equal. lia.
Qed.

Lemma split_value_eq v :
  size_of v + CHUNK_SIZE < 2 ^ 64 -> split_value v = Done (Chunk_make <$> pieces v).
Proof.
  intros Hv. pose proof (n_chunks_bounds v) as Hn. pose proof CHUNK_SIZE_pos as Hcs. unfold split_value.
  set (I := fun s : Z * list Chunk => exists k, 0 <= k <= n_chunks v /\
    s = (Z.min (k * CHUNK_SIZE) (size_of v), Chunk_make <$> (piece v <$> seqZ 0 k))).
  set (mu := fun s : Z * list Chunk => (size_of v - s.1 + CHUNK_SIZE - 1) / CHUNK_SIZE).
  assert (forall k, 0 <= k <= n_chunks v -> mu (Z.min (k * CHUNK_SIZE) (size_of v), []) = n_chunks v - k) as Hmu.
  { intros k Hk. unfold mu. cbn [fst]. destruct (Z.le_gt_cases (k * CHUNK_SIZE) (size_of v)) as [Hle|Hgt].
    - rewrite Z.min_l by lia. replace (size_of v - k * CHUNK_SIZE + CHUNK_SIZE - 1)
        with ((size_of v + CHUNK_SIZE - 1) + (- k) * CHUNK_SIZE) by lia.
      rewrite Z.div_add by lia. unfold n_chunks. lia.
    - rewrite Z.min_r by lia. rewrite Z.div_small by lia. nia. }
  destruct (loop_rule I (fun r => r = Chunk_make <$> pieces v) mu (split_step v))
    with (fuel := Z.to_nat (size_of v / CHUNK_SIZE + 2)) (s := (0, @nil Chunk)) as (r & -> & ->); [| | | |done].
  - intros s (k & Hk & ->). unfold split_step.
    destruct (Z.ltb_spec (Z.min (k * CHUNK_SIZE) (size_of v)) (size_of v)) as [Hlt|Hge].
    + assert (k * CHUNK_SIZE < size_of v) by lia. rewrite Z.min_l by lia. word_small.
      assert (k + 1 <= n_chunks v) by nia.
      replace (k * CHUNK_SIZE + Z.min CHUNK_SIZE (size_of v - k * CHUNK_SIZE))
        with (Z.min ((k + 1) * CHUNK_SIZE) (size_of v)) by lia.
      split.
      * exists (k + 1). split; [lia|]. f_equal. rewrite seqZ_snoc, !fmap_app by lia. do 2 f_equal.
        simpl. unfold piece. by rewrite slice_clip by lia.
      * pose proof (Hmu k Hk) as E1. pose proof (Hmu (k + 1)) as E2. unfold mu in *. cbn [fst] in *.
        rewrite Z.min_l in E1 by lia. lia.
    + assert (k = n_chunks v) as -> by nia. done.
  - exists 0. split; [lia|]. pose proof (size_of_nonneg v). f_equal. lia.
  - unfold mu. cbn [fst]. replace (size_of v - 0 + CHUNK_SIZE - 1) with (size_of v - 1 + 1 * CHUNK_SIZE) by lia.
    rewrite Z.div_add by lia. pose proof (size_of_nonneg v). pose proof (Z.div_pos (size_of v) CHUNK_SIZE).
    pose proof (Z.div_le_mono (size_of v - 1) (size_of v) CHUNK_SIZE). lia.
  - unfold mu. cbn [fst]. pose proof (size_of_nonneg v). apply Z.div_pos; lia.
Qed.

(** ** Assembling the pieces *)

(** A chunk in the cache: the data and its content hash. *)
Definition stored (d : bytes) : Chunk := mkChunk d (Some (content_hash d)).

Lemma Chunk_read_slice d off len :
  0 <= off < size_of d -> 0 <= len <= size_of d - off -> size_of d < 2 ^ 64 ->
  Chunk_read (stored d) off len = slice off len d.
Proof.
  intros Ho Hl Hd. unfold Chunk_read, Chunk_size. simpl.
  destruct (Z.leb_spec (size_of d) off); [lia|]. word_small. f_equal. lia.
Qed.

(** From position [cur], inside chunk [start + i], the loop appends the next [rem] bytes. *)
Lemma assemble_from_pieces v start chunks : forall i cur rem acc,
  size_of v + 2 * CHUNK_SIZE < 2 ^ 64 -> 0 <= start -> 0 <= i -> 0 <= rem -> cur + rem <= size_of v ->
  0 <= cur -> (0 < rem -> (start + i) * CHUNK_SIZE <= cur < (start + i + 1) * CHUNK_SIZE) ->
  cur + rem <= (start + i + size_of chunks) * CHUNK_SIZE \/ rem = 0 ->
  (forall j ch, chunks !! j = Some ch -> ch = Some (stored (piece v (start + i + Z.of_nat j)))) ->
  assemble_from start i chunks cur rem acc = acc ++ slice cur rem v.
Proof.
  pose proof CHUNK_SIZE_pos as Hcs.
  induction chunks as [|ch chunks IH]; intros i cur rem acc Hv Hs Hi Hrem Hend Hlo Hhi Hcov Hch.
  - assert (rem = 0) as -> by (rewrite size_of_nil in Hcov; lia). by rewrite slice_nil_len, app_nil_r.
  - cbn [assemble_from]. destruct (Z.ltb_spec 0 rem) as [Hp|Hp].
    2: { replace rem with 0 by lia. by rewrite slice_nil_len, app_nil_r. }
    rewrite (Hch 0%nat ch eq_refl). rewrite Z.add_0_r.
    specialize (Hhi Hp). remember (start + i) as k eqn:Ek.
    assert (0 <= k < n_chunks v) as Hk by (pose proof (n_chunks_bounds v); nia).
    destruct (size_of_piece v k Hk) as [Hsz Hszp].
    assert (k + 1 < 2 ^ 64) by nia. rewrite (u64_small k) by (split; lia).
    rewrite (u64_small (k * CHUNK_SIZE)) by (split; lia).
    replace (if k * CHUNK_SIZE <? cur then cur -w k * CHUNK_SIZE else 0) with (cur - k * CHUNK_SIZE).
    2: { destruct (Z.ltb_spec (k * CHUNK_SIZE) cur); [|lia]. rewrite u64_small; [done|split; lia]. }
    unfold Chunk_size at 1 2 3. cbn [chunk_data stored]. rewrite Hsz.
    rewrite (u64_small (Z.min _ _ - _)) by (split; lia).
    set (tc := Z.min rem _). assert (0 < tc <= rem) by lia. word_small.
    rewrite Chunk_read_slice by lia.
    rewrite IH; replace (start + (i + 1)) with (k + 1) by lia; try lia.
    + rewrite <- app_assoc. f_equal. unfold piece. rewrite slice_slice by lia.
      replace (k * CHUNK_SIZE + (cur - k * CHUNK_SIZE)) with cur by lia.
      rewrite slice_app_adj by lia. f_equal. lia.
    + destruct (Z.eq_dec tc rem); [right; lia|]. left. rewrite size_of_cons in Hcov. lia.
    + intros j c Hj. rewrite (Hch (S j) c Hj). do 3 f_equal. lia.
Qed.

(** ** Invariant

    [P] holds of the chunk contents the cache was ever given; the content hash separates them. *)

Definition no_collision (P : bytes -> Prop) : Prop :=
  forall a b, P a -> P b -> content_hash a = content_hash b -> a = b.

(** A descriptor of the value [v]. *)
Definition describes (key : CacheKey) (desc : ValueDescriptor) (v : bytes) : Prop :=
  (vd_key desc = key /\ md_total_size (vd_metadata desc) = size_of v) /\ vd_total_size desc = size_of v /\ vd_chunks desc = content_hash <$> pieces v /\
  size_of v <= MAX_VALUE_SIZE.

(** [vals] is the abstract state: the value each key was last given. *)
Record mc_inv (P : bytes -> Prop) (vals : gmap CacheKey bytes) (c : MemoryCache) : Prop := {
  inv_cache : bc_wf (mc_chunk_cache c);
  inv_chunks : forall id sc, bc_map (mc_chunk_cache c) !! id = Some sc ->
    exists d, sc = Some (stored d) /\ content_hash d = id /\ P d;
  inv_descs : forall key, match mc_descriptors c !! key with
    | Some desc => exists v, vals !! key = Some v /\ describes key desc v /\ Forall P (pieces v)
    | None => vals !! key = None
    end
}.

(** The chunk the cache holds under an identifier. *)
Definition resident (c : MemoryCache) (id : ChunkId) : SharedChunk :=
  match bc_map (mc_chunk_cache c) !! id with Some sc => sc | None => None end.

(** [c'] has the contents of [c]; recency and counters may differ. *)
Definition mc_same (c c' : MemoryCache) : Prop :=
  bc_wf (mc_chunk_cache c') /\ bc_map (mc_chunk_cache c') = bc_map (mc_chunk_cache c) /\
  bc_bytes (mc_chunk_cache c') = bc_bytes (mc_chunk_cache c) /\
  bc_capacity (mc_chunk_cache c') = bc_capacity (mc_chunk_cache c) /\
  mc_descriptors c' = mc_descriptors c.

Lemma mc_same_trans c1 c2 c3 : mc_same c1 c2 -> mc_same c2 c3 -> mc_same c1 c3.
Proof. unfold mc_same. intros (? & ? & ? & ? & ?) (? & ? & ? & ? & ?). split_and!; congruence. Qed.

Lemma mc_same_inv P vals c c' : mc_inv P vals c -> mc_same c c' -> mc_inv P vals c'.
Proof.
  intros [? Hc Hd] (? & Em & _ & _ & Ed). split; [done| |].
  - intros id sc. rewrite Em. apply Hc.
  - intros key. rewrite Ed. apply Hd.
Qed.

Lemma mc_same_resident c c' id : mc_same c c' -> resident c' id = resident c id.
Proof. intros (_ & Em & _). unfold resident. by rewrite Em. Qed.

Lemma mc_get_chunk_spec c id :
  bc_wf (mc_chunk_cache c) -> exists c', mc_get_chunk c id = Done (resident c id, c') /\ mc_same c c'.
Proof.
  intros Hwf. unfold mc_get_chunk, resident.
  destruct (bc_get_ok (mc_chunk_cache c) id Hwf) as (cc & -> & ? & ? & ? & ?). simpl.
  eexists. split; [done|]. by split_and!.
Qed.

(** The chunks come back in order; all are found exactly when all are resident. *)
Lemma fetch_chunks_spec desc ap indices ids :
  Forall2 (fun idx id => vd_chunks desc !! Z.to_nat idx = Some id) indices ids ->
  forall c chunks af, bc_wf (mc_chunk_cache c) ->
  exists got found c', fetch_chunks c desc ap indices chunks af = Done (chunks ++ got, found, c') /\
    mc_same c c' /\
    (Forall (fun id => is_Some (resident c id)) ids -> found = af /\ got = resident c <$> ids) /\
    (found = true -> Forall (fun id => is_Some (resident c id)) ids).
Proof.
  induction 1 as [|idx id indices ids Hid _ IH]; intros c chunks af Hwf; cbn [fetch_chunks].
  - exists [], af, c. rewrite app_nil_r. split_and!; [done|by split_and!|done..].
  - rewrite Hid. destruct (mc_get_chunk_spec c id Hwf) as (c1 & -> & Hs1). simpl.
    destruct (resident c id) as [ch|] eqn:Er.
    + destruct (IH c1 (chunks ++ [Some ch]) af) as (got & found & c2 & -> & Hs2 & Hall & Hfound); [apply Hs1|].
      setoid_rewrite (mc_same_resident c c1) in Hall; [|done..].
      setoid_rewrite (mc_same_resident c c1) in Hfound; [|done..].
      exists (Some ch :: got), found, c2. rewrite <- app_assoc. split_and!; [done|by eapply mc_same_trans| |].
      * intros [_ Hr]%Forall_cons. destruct (Hall Hr) as [-> ->]. simpl. rewrite ?Er. split; [done|].
        f_equal. apply list_fmap_ext. intros ? ? _. by apply mc_same_resident.
      * intros Hf. constructor; [by rewrite Er|auto].
    + destruct ap.
      * destruct (IH c1 (chunks ++ [None]) false) as (got & found & c2 & -> & Hs2 & Hall & Hfound); [apply Hs1|].
        exists (None :: got), found, c2. rewrite <- app_assoc.
        split_and!; [done|by eapply mc_same_trans| |].
        -- intros [[? Hc] _]%Forall_cons. congruence.
        -- intros ->. specialize (Hfound eq_refl).
           setoid_rewrite (mc_same_resident c c1) in Hfound; [|done..].
           setoid_rewrite (mc_same_resident c c1) in Hall; [|done..].
           by destruct (Hall Hfound).
      * exists [], false, c1. rewrite app_nil_r. split_and!; [done..| |done].
        intros [[? Hc] _]%Forall_cons. congruence.
Qed.

(** ** [get] *)

(** The chunk indices of a non-empty range inside a value. *)
Definition first_chunk (off : Z) : Z := off / CHUNK_SIZE.
Definition chunk_span (off len : Z) : Z := (off + len - 1) / CHUNK_SIZE + 1 - off / CHUNK_SIZE.

Lemma chunk_span_bounds off len :
  0 <= off -> 0 < len ->
  0 <= first_chunk off /\ 0 < chunk_span off len /\
  first_chunk off * CHUNK_SIZE <= off < (first_chunk off + 1) * CHUNK_SIZE /\
  off + len <= (first_chunk off + chunk_span off len) * CHUNK_SIZE /\
  (first_chunk off + chunk_span off len - 1) * CHUNK_SIZE < off + len.
Proof.
  intros Ho Hl. pose proof CHUNK_SIZE_pos. unfold first_chunk, chunk_span.
  pose proof (Z.div_mod off CHUNK_SIZE). pose proof (Z.mod_pos_bound off CHUNK_SIZE).
  pose proof (Z.div_mod (off + len - 1) CHUNK_SIZE). pose proof (Z.mod_pos_bound (off + len - 1) CHUNK_SIZE).
  pose proof (Z.div_pos off CHUNK_SIZE).
  pose proof (Z.div_le_mono off (off + len - 1) CHUNK_SIZE). lia.
Qed.

Lemma chunk_in_span off len b :
  off <= b < off + len -> first_chunk off <= b / CHUNK_SIZE < first_chunk off + chunk_span off len.
Proof.
  intros Hb. pose proof CHUNK_SIZE_pos. unfold first_chunk, chunk_span.
  pose proof (Z.div_le_mono off b CHUNK_SIZE). pose proof (Z.div_le_mono b (off + len - 1) CHUNK_SIZE). lia.
Qed.

Lemma MAX_VALUE_SIZE_small : MAX_VALUE_SIZE + 2 * CHUNK_SIZE < 2 ^ 64.
Proof. done. Qed.

Lemma span_in_value v off len :
  0 <= off -> 0 < len -> off + len <= size_of v ->
  first_chunk off + chunk_span off len <= n_chunks v.
Proof.
  intros. pose proof (chunk_span_bounds off len). pose proof (n_chunks_bounds v).
  pose proof CHUNK_SIZE_pos. nia.
Qed.

Lemma chunks_for_value key desc v off len :
  describes key desc v -> 0 <= off -> 0 < len -> off + len <= size_of v ->
  chunks_for_range desc (mkRange off len) = seqZ (first_chunk off) (chunk_span off len).
Proof.
  intros (_ & Ht & Hch & Hmax) Ho Hl Hend. pose proof MAX_VALUE_SIZE_small. pose proof CHUNK_SIZE_pos.
  pose proof (span_in_value v off len Ho Hl Hend). pose proof (n_chunks_bounds v).
  assert (size_of (vd_chunks desc) = n_chunks v) as Hn.
  { rewrite Hch. unfold size_of. rewrite length_fmap, pieces_length. lia. }
  rewrite chunks_for_range_eq; simpl; [|repeat split; simpl; lia|lia|lia|nia].
  rewrite Hn, Ht. unfold end_chunk_of. rewrite (Z.min_l (off + len) (size_of v)) by lia.
  destruct (Z.ltb_spec 0 (off + len)); [|lia]. rewrite u64_small by (split; lia).
  unfold first_chunk, chunk_span in *. f_equal. lia.
Qed.

Lemma describes_lookup key desc v i :
  describes key desc v -> 0 <= i < n_chunks v ->
  vd_chunks desc !! Z.to_nat i = Some (content_hash (piece v i)).
Proof.
  intros (_ & _ & -> & _) Hi. rewrite list_lookup_fmap, pieces_lookup by lia.
  by destruct (Z.ltb_spec i (n_chunks v)); [|lia].
Qed.

Definition span_ids (v : bytes) (off len : Z) : list ChunkId :=
  (fun j => content_hash (piece v j)) <$> seqZ (first_chunk off) (chunk_span off len).

Lemma span_indices key desc v off len :
  describes key desc v -> 0 <= off -> 0 < len -> off + len <= size_of v ->
  Forall2 (fun idx id => vd_chunks desc !! Z.to_nat idx = Some id)
    (seqZ (first_chunk off) (chunk_span off len)) (span_ids v off len).
Proof.
  intros Hdesc Ho Hl Hend. pose proof (span_in_value v off len Ho Hl Hend).
  pose proof (chunk_span_bounds off len Ho Hl). unfold span_ids. apply Forall2_fmap_r, Forall_Forall2_diag.
  apply Forall_forall. intros j Hj%elem_of_seqZ. apply (describes_lookup key); [done|lia].
Qed.

(** What is resident under the hash of a known piece is that piece. *)
Lemma resident_known P vals c d :
  no_collision P -> mc_inv P vals c -> P d -> is_Some (resident c (content_hash d)) ->
  resident c (content_hash d) = Some (stored d).
Proof.
  intros Hnc Hinv Hd [ch Hr]. unfold resident in *.
  destruct (bc_map (mc_chunk_cache c) !! content_hash d) as [sc|] eqn:E; [|done].
  destruct (inv_chunks _ _ _ Hinv _ _ E) as (d' & -> & Hh & HP). by rewrite (Hnc d' d).
Qed.

(** Assembling the resident chunks of a range. *)
Lemma assemble_resident P vals c v off len :
  no_collision P -> mc_inv P vals c -> Forall P (pieces v) -> size_of v <= MAX_VALUE_SIZE ->
  0 <= off -> 0 < len -> off + len <= size_of v ->
  Forall (fun id => is_Some (resident c id)) (span_ids v off len) ->
  assemble_value (resident c <$> span_ids v off len) (mkRange off len) = slice off len v.
Proof.
  intros Hnc Hinv HP Hmax Ho Hl Hend Hres. pose proof (chunk_span_bounds off len Ho Hl).
  pose proof (span_in_value v off len Ho Hl Hend) as Hsp. pose proof MAX_VALUE_SIZE_small.
  unfold assemble_value. cbn [r_offset r_length]. fold (first_chunk off).
  rewrite (assemble_from_pieces v); try lia; [done| |].
  - unfold size_of, span_ids. rewrite !length_fmap, length_seqZ. lia.
  - intros j ch Hj. unfold span_ids in *. rewrite <- list_fmap_compose in Hj.
    apply list_lookup_fmap_Some in Hj as (k & -> & Hk). simpl.
    pose proof (list_elem_of_lookup_2 _ _ _ Hk) as Hin. apply elem_of_seqZ in Hin as Hb.
    apply lookup_seqZ in Hk as [-> Hj]. rewrite Z.add_0_r. apply (resident_known P vals); [done..| |].
    + rewrite Forall_lookup in HP. apply (HP (Z.to_nat (first_chunk off + Z.of_nat j))).
      rewrite pieces_lookup by lia. destruct (Z.ltb_spec (first_chunk off + Z.of_nat j) (n_chunks v)); [done|lia].
    + rewrite Forall_fmap, Forall_forall in Hres. by apply Hres.
Qed.

(** The bytes a read asks for. *)
Definition wanted (opts : ReadOptions) (v : bytes) : bytes :=
  match ro_range opts with
  | None => v
  | Some r => slice (r_offset r) (r_length r) v
  end.

(** Byte position [b] of the value is among them. *)
Definition in_wanted (opts : ReadOptions) (v : bytes) (b : Z) : Prop :=
  0 <= b < size_of v /\ match ro_range opts with None => True | Some r => in_range b r end.

Definition opts_ok (opts : ReadOptions) : Prop :=
  match ro_range opts with
  | None => True
  | Some r => is_u64 (r_offset r) /\ is_u64 (r_length r)
  end.

Lemma count_reads_same c c' h mi ph br : mc_same c c' -> mc_same c (count_reads c' h mi ph br).
Proof. done. Qed.

Lemma mc_same_refl c : bc_wf (mc_chunk_cache c) -> mc_same c c.
Proof. intros Hwf. by split_and!. Qed.

(** The last part of [get], for a range inside the value. *)
Lemma finish_get_spec P vals c c' key desc v opts off len got found :
  no_collision P -> mc_inv P vals c -> describes key desc v -> Forall P (pieces v) ->
  0 <= off -> 0 < len -> off + len <= size_of v -> mc_same c c' ->
  (Forall (fun id => is_Some (resident c id)) (span_ids v off len) ->
     found = true /\ got = resident c <$> span_ids v off len) ->
  (found = true -> Forall (fun id => is_Some (resident c id)) (span_ids v off len)) ->
  let '(r, c'') := finish_get c' desc opts (mkRange off len) got found in
  mc_same c c'' /\
  (rr_result r = Hit <-> Forall (fun id => is_Some (resident c id)) (span_ids v off len)) /\
  (rr_result r = Hit -> rr_data r = slice off len v /\ rr_actual_range r = mkRange off len).
Proof.
  intros Hnc Hinv (_ & _ & _ & Hmax) HP Ho Hl Hend Hs Hall Hfound.
  pose proof (assemble_resident P vals c v off len Hnc Hinv HP Hmax Ho Hl Hend) as Has.
  assert (size_of (slice off len v) = len) as Hsz by (by apply size_of_slice; lia).
  unfold finish_get. destruct (decide (Forall (fun id => is_Some (resident c id)) (span_ids v off len))) as [Hf|Hf].
  - destruct (Hall Hf) as [-> ->]. rewrite (Has Hf). rewrite bool_decide_eq_false_2.
    2: { pose proof (chunk_span_bounds off len Ho Hl). unfold span_ids. intros E%(f_equal length).
         rewrite !length_fmap, length_seqZ in E. simpl in E. lia. }
    simpl. rewrite Hsz, Z.eqb_refl. by split_and!.
  - destruct found; [by specialize (Hfound eq_refl)|]. simpl.
    destruct (_ || _); simpl; split_and!; try done; split; done.
Qed.

(** The range a read of [v] asks for, before clamping. *)
Definition asked (opts : ReadOptions) (v : bytes) : Range :=
  match ro_range opts with Some r => r | None => mkRange 0 (size_of v) end.

Lemma asked_spec opts v :
  opts_ok opts -> size_of v <= MAX_VALUE_SIZE ->
  let r := asked opts v in
  0 <= r_offset r /\ 0 <= r_length r /\ wanted opts v = slice (r_offset r) (r_length r) v /\
  (forall b, in_wanted opts v b <-> in_range b r /\ b < size_of v).
Proof.
  intros Ho Hv. pose proof (size_of_nonneg v). pose proof MAX_VALUE_SIZE_small. pose proof CHUNK_SIZE_pos.
  unfold asked, wanted, opts_ok, in_wanted, in_range, is_u64 in *.
  destruct (ro_range opts) as [[o l]|]; simpl in *.
  - split_and!; [lia..|done|]. intros b. lia.
  - rewrite slice_all by lia. split_and!; [lia..|done|]. intros b. lia.
Qed.

(** Fetching and assembling a non-empty range inside the value. *)
Lemma get_inside P vals c key desc v opts off n :
  no_collision P -> mc_inv P vals c -> describes key desc v -> Forall P (pieces v) ->
  0 <= off -> 0 < n -> off + n <= size_of v ->
  exists r c', ('(chunks, all_found, c') ←
      fetch_chunks c desc (ro_allow_partial opts) (chunks_for_range desc (mkRange off n)) [] true;
      Done (finish_get c' desc opts (mkRange off n) chunks all_found)) = Done (r, c') /\ mc_same c c' /\
    (rr_result r = Hit -> rr_data r = slice off n v) /\
    (rr_result r = Hit <->
     forall b, off <= b < off + n -> is_Some (resident c (content_hash (piece v (b / CHUNK_SIZE))))).
Proof.
  intros Hnc Hinv Hdesc HP Ho Hn Hend. rewrite (chunks_for_value key desc v) by done.
  destruct (fetch_chunks_spec desc (ro_allow_partial opts) _ _ (span_indices key desc v off n Hdesc
    Ho Hn Hend) c [] true (inv_cache _ _ _ Hinv)) as (got & found & c1 & -> & Hs & Hall & Hfd).
  simpl. pose proof (finish_get_spec P vals c c1 key desc v opts off n got found Hnc Hinv Hdesc HP
    Ho Hn Hend Hs Hall Hfd) as Hfin.
  destruct (finish_get c1 desc opts (mkRange off n) got found) as [r c2]. destruct Hfin as (Hs2 & Hiff & Hdata).
  exists r, c2. split_and!; [done..|by apply Hdata|]. rewrite Hiff.
  unfold span_ids. rewrite Forall_fmap, Forall_forall. split; intros Hres.
  { intros b Hb. apply (Hres (b / CHUNK_SIZE)). by apply elem_of_seqZ, chunk_in_span. }
  intros j Hj%elem_of_seqZ.
  pose proof (chunk_span_bounds off n Ho Hn) as Hsb. pose proof CHUNK_SIZE_pos.
  assert (Z.max off (j * CHUNK_SIZE) / CHUNK_SIZE = j) as E by (apply chunk_of_byte; nia).
  rewrite <- E. apply Hres. nia.
Qed.

Lemma mc_get_spec P vals now c key opts :
  no_collision P -> mc_inv P vals c -> opts_ok opts ->
  exists r c', mc_get now c key opts = Done (r, c') /\ mc_same c c' /\
    (vals !! key = None -> r = ReadResult_default) /\
    (rr_result r = Hit -> exists v, vals !! key = Some v /\ rr_data r = wanted opts v /\
       forall b, in_wanted opts v b -> is_Some (resident c (content_hash (piece v (b / CHUNK_SIZE))))) /\
    (forall v, vals !! key = Some v ->
       (forall md, mc_metadata c key = Some md -> is_expired now md = false) ->
       wanted opts v <> [] ->
       (forall b, in_wanted opts v b -> is_Some (resident c (content_hash (piece v (b / CHUNK_SIZE))))) ->
       rr_result r = Hit).
Proof.
  intros Hnc Hinv Hopts. pose proof (inv_descs _ _ _ Hinv key) as Hd.
  pose proof (mc_same_refl c (inv_cache _ _ _ Hinv)) as Hrefl.
  unfold mc_get, mc_metadata, mc_get_descriptor.
  destruct (mc_descriptors c !! key) as [desc|] eqn:Ed.
  2: { eexists _, _. split; [done|]. split_and!; [done..|]. intros v Hv. congruence. }
  destruct Hd as (v & Hv & Hdesc & HP). simpl. rewrite Hv.
  destruct (is_expired now (vd_metadata desc)) eqn:Ex.
  { eexists _, _. split; [done|]. split_and!; [done..|]. intros v' _ Hex. by rewrite (Hex _ eq_refl) in Ex. }
  pose proof Hdesc as (_ & Ht & _ & Hmax). rewrite Ht. fold (asked opts v).
  destruct (asked_spec opts v Hopts Hmax) as (Hoff & Hlen & Hw & Hin). unfold in_range in Hin.
  set (off := r_offset (asked opts v)) in *. set (len := r_length (asked opts v)) in *.
  destruct (Z.leb_spec (size_of v) off) as [Hge|Hlt].
  { assert (slice off len v = []) as Hnil.
    { unfold slice. rewrite drop_ge by (unfold size_of in *; lia). apply take_nil. }
    eexists _, _. split; [done|]. split_and!; [done..| |done]. intros _. exists v. rewrite Hw, Hnil.
    split_and!; [done..|]. intros b Hb%Hin. lia. }
  pose proof MAX_VALUE_SIZE_small. pose proof CHUNK_SIZE_pos.
  rewrite (u64_small (size_of v - off)) by (split; lia).
  rewrite <- slice_clip in Hw by lia. set (n := Z.min len (size_of v - off)) in *.
  destruct (Z.eq_dec n 0) as [E0|En].
  { unfold chunks_for_range. cbn [r_length]. rewrite E0. simpl. eexists _, _. split; [done|].
    split_and!; [by apply count_reads_same|done..|]. intros v' [= <-] _. by rewrite Hw, E0, slice_nil_len. }
  destruct (get_inside P vals c key desc v opts off n) as (r & c' & -> & Hs & Hdata & Hhit); try done; try lia.
  exists r, c'. split; [done|]. split_and!; [done..| |].
  - intros Hh. exists v. split_and!; [done|rewrite Hw; by apply Hdata|].
    intros b Hb%Hin. apply Hhit; [done|lia].
  - intros v' [= <-] _ _ Hres. apply Hhit. intros b Hb. apply Hres, Hin. lia.
Qed.

(** ** [put] *)

(** The bytes in the chunk cache. *)
Abbreviation mc_bytes c := (bc_bytes (mc_chunk_cache c)).
Abbreviation mc_capacity c := (bc_capacity (mc_chunk_cache c)).
Abbreviation mc_map c := (bc_map (mc_chunk_cache c)).

Lemma put_chunk_spec P vals c d :
  no_collision P -> mc_inv P vals c -> P d ->
  exists c', mc_put_chunk c (Some (stored d)) = Done (make_ok, c') /\ mc_inv P vals c' /\
    mc_descriptors c' = mc_descriptors c /\ mc_capacity c' = mc_capacity c /\
    (mc_bytes c + size_of d < 2 ^ 64 -> mc_bytes c + size_of d <= mc_capacity c ->
     mc_map c' = <[content_hash d := Some (stored d)]> (mc_map c) /\ mc_bytes c' <= mc_bytes c + size_of d).
Proof.
  intros Hnc Hinv Hd. unfold mc_put_chunk. simpl.
  destruct (bc_put_ok (mc_chunk_cache c) (content_hash d) (Some (stored d)) (inv_cache _ _ _ Hinv))
    as (ev & cc & -> & Hwf & Hk & Hdis & Hu & Hcap & Hb). simpl.
  eexists. split; [done|]. pose proof (lossy_put_subseteq _ _ _ _ _ Hdis Hu) as Hsub.
  split_and!; simpl; try done.
  - split; simpl; [done| |apply Hinv]. intros id sc Hid. eapply lookup_weaken in Hid; [|exact Hsub].
    apply lookup_insert_Some in Hid as [[<- <-]|[_ Hid]]; [by exists d|by apply (inv_chunks _ _ _ Hinv)].
  - intros Hov Hroom. simpl in Hb. change (Chunk_size (stored d)) with (size_of d) in Hb.
    assert (u64 (size_of d) <= size_of d) as Hle by (apply Z.mod_le; [apply size_of_nonneg|lia]).
    assert (ev = [] /\ bc_bytes cc <= mc_bytes c + size_of d) as [-> Hbytes].
    { destruct (mc_map c !! content_hash d) as [old|] eqn:Eo; [|destruct Hb as [-> ->]; [lia..|]; split; [done|lia]].
      destruct Hb as [-> ->]. destruct (inv_chunks _ _ _ Hinv _ _ Eo) as (d' & -> & Hh & HP).
      rewrite (Hnc d' d HP Hd Hh). simpl. pose proof (size_of_nonneg d). change (Chunk_size (stored d)) with (size_of d).
      split; [done|lia]. }
    split; [|done]. rewrite <- Hu. simpl. by rewrite map_empty_union.
Qed.

Definition total_bytes (ds : list bytes) : Z := foldr (fun d acc => size_of d + acc) 0 ds.

Lemma total_bytes_concat ds : total_bytes ds = size_of (concat ds).
Proof. induction ds as [|d ds IH]; [done|]. simpl. rewrite IH, size_of_app. done. Qed.

(** Storing the chunks: the invariant holds after it; with room for all, all stay. *)
Lemma store_chunks_spec P vals ds : no_collision P -> Forall P ds -> forall c ids,
  mc_inv P vals c ->
  exists c', store_chunks c (Chunk_make <$> ds) ids = Done (None, ids ++ (content_hash <$> ds), c') /\
    mc_inv P vals c' /\ mc_descriptors c' = mc_descriptors c /\
    (mc_bytes c + total_bytes ds < 2 ^ 64 -> mc_bytes c + total_bytes ds <= mc_capacity c ->
     forall d, d ∈ ds \/ mc_map c !! content_hash d = Some (Some (stored d)) -> P d ->
       mc_map c' !! content_hash d = Some (Some (stored d))).
Proof.
  intros Hnc HP. induction HP as [|d ds Hd HP IH]; intros c ids Hinv; cbn [fmap list_fmap store_chunks].
  - exists c. rewrite app_nil_r. split_and!; [done..|]. intros _ _ d [Hd|Hd]; [by apply elem_of_nil in Hd|done].
  - cbn [Chunk_id chunk_id_ Chunk_make chunk_data]. fold (stored d).
    destruct (put_chunk_spec P vals c d Hnc Hinv Hd) as (c1 & -> & Hinv1 & Hdesc1 & Hcap1 & Hroom1). simpl.
    destruct (IH c1 (ids ++ [content_hash d]) Hinv1) as (c2 & -> & Hinv2 & Hdesc2 & Hroom2).
    exists c2. rewrite <- app_assoc. split_and!; [done..|congruence|]. intros Hov Hroom d0 Hd0 HPd.
    pose proof (size_of_nonneg (concat ds)) as Hnn. rewrite <- total_bytes_concat in Hnn.
    destruct Hroom1 as [Hm1 Hb1]; [lia..|]. rewrite Hcap1 in Hroom2.
    apply Hroom2; [lia..| |done]. rewrite Hm1.
    destruct (decide (content_hash d0 = content_hash d)) as [E|E].
    + right. rewrite E, lookup_insert_eq. by rewrite (Hnc d0 d HPd Hd E).
    + rewrite lookup_insert_ne by congruence. destruct Hd0 as [Hd0|?]; [|by right].
      apply elem_of_cons in Hd0 as [->|?]; [done|by left].
Qed.

Definition put_accepted (key : CacheKey) (v : bytes) : bool :=
  (CacheKey_size key <=? MAX_KEY_SIZE) && (size_of v <=? MAX_VALUE_SIZE).

Lemma mc_put_spec P vals now c key v opts :
  no_collision P -> mc_inv P vals c -> Forall P (pieces v) -> put_accepted key v = true ->
  exists c', mc_put now c key v opts = Done (make_ok, c') /\ mc_inv P (<[key := v]> vals) c' /\
    mc_metadata c' key = Some (put_metadata now v (n_chunks v) opts) /\
    (mc_bytes c + size_of v < 2 ^ 64 -> mc_bytes c + size_of v <= mc_capacity c ->
     Forall (fun d => is_Some (resident c' (content_hash d))) (pieces v)).
Proof.
  intros Hnc Hinv HP Hacc. unfold put_accepted in Hacc. bool_hyps.
  unfold mc_put. destruct (Z.ltb_spec MAX_KEY_SIZE (CacheKey_size key)); [lia|].
  destruct (Z.ltb_spec MAX_VALUE_SIZE (size_of v)); [lia|].
  pose proof MAX_VALUE_SIZE_small. pose proof CHUNK_SIZE_pos. rewrite split_value_eq by lia. simpl.
  destruct (store_chunks_spec P vals (pieces v) Hnc HP c [] Hinv) as (c1 & -> & Hinv1 & Hdesc1 & Hroom). simpl.
  assert (size_of (Chunk_make <$> pieces v) = n_chunks v) as Hsz.
  { unfold size_of. rewrite length_fmap, pieces_length. pose proof (n_chunks_bounds v). lia. }
  rewrite Hsz. eexists. split; [done|]. split_and!.
  - split; simpl; [apply Hinv1|apply Hinv1|]. intros k. destruct (decide (key = k)) as [<-|Hne].
    + rewrite !lookup_insert_eq. exists v. split_and!; done.
    + rewrite !lookup_insert_ne by done. apply Hinv1.
  - unfold mc_metadata, mc_get_descriptor. simpl. by rewrite lookup_insert_eq.
  - intros Hov Hfit. rewrite total_bytes_concat, concat_pieces in Hroom. apply Forall_forall. intros d Hd.
    unfold resident. simpl. rewrite (Hroom Hov Hfit d); [done|by left|]. by eapply Forall_forall in HP.
Qed.

Lemma mc_put_rejected now c key v opts :
  put_accepted key v = false ->
  exists st, mc_put now c key v opts = Done (st, c) /\ is_ok st = false.
Proof.
  unfold put_accepted, mc_put. intros Hacc. apply andb_false_iff in Hacc as [Ha|Ha]; bool_hyps.
  - destruct (Z.ltb_spec MAX_KEY_SIZE (CacheKey_size key)); [|lia]. by eexists.
  - destruct (Z.ltb_spec MAX_KEY_SIZE (CacheKey_size key)); [by eexists|].
    destruct (Z.ltb_spec MAX_VALUE_SIZE (size_of v)); [|lia]. by eexists.
Qed.

(** A value whose chunks are all resident is read back. *)
Lemma mc_get_stored P vals now c key v md opts :
  no_collision P -> mc_inv P vals c -> vals !! key = Some v -> mc_metadata c key = Some md -> is_expired now md = false ->
  Forall (fun d => is_Some (resident c (content_hash d))) (pieces v) -> opts_ok opts -> wanted opts v <> [] ->
  exists r c', mc_get now c key opts = Done (r, c') /\ rr_result r = Hit /\ rr_data r = wanted opts v.
Proof.
  intros Hnc Hinv Hv Hmd Hex Hres Hopts Hw.
  destruct (mc_get_spec P vals now c key opts Hnc Hinv Hopts) as (r & c' & Eg & _ & _ & Hhit & Hcomp).
  assert (rr_result r = Hit) as Hh.
  { apply (Hcomp v Hv); [|done|]; [intros md'; rewrite Hmd; by intros [= <-]|].
    intros b [Hb _]. rewrite Forall_lookup in Hres. apply (Hres (Z.to_nat (b / CHUNK_SIZE))). pose proof CHUNK_SIZE_pos.
    rewrite pieces_lookup by (apply Z.div_pos; lia). pose proof (n_chunks_bounds v).
    pose proof (proj1 (chunk_of_byte b (b / CHUNK_SIZE)) eq_refl).
    destruct (Z.ltb_spec (b / CHUNK_SIZE) (n_chunks v)); [done|nia]. }
  exists r, c'. destruct (Hhit Hh) as (v' & Hv' & Hdata & _). assert (v' = v) as -> by congruence. done.
Qed.

(** ** [remove], [stop] *)

Lemma remove_chunks_spec P vals ids : forall c,
  mc_inv P vals c ->
  exists c', remove_chunks c ids = Done c' /\ mc_inv P vals c' /\ mc_descriptors c' = mc_descriptors c /\
    mc_map c' ⊆ mc_map c /\ (forall id, id ∈ ids -> resident c' id = None).
Proof.
  induction ids as [|id ids IH]; intros c Hinv; simpl.
  - exists c. split_and!; [done..|]. intros id Hid. by apply elem_of_nil in Hid.
  - unfold mc_remove_chunk. destruct (bc_remove_ok (mc_chunk_cache c) id (inv_cache _ _ _ Hinv))
      as (cc & -> & Hwf & Em & _). simpl.
    destruct (IH (with_chunks c cc)) as (c' & -> & Hinv' & Hd & Hsub & Hgone).
    { split; simpl; [done| |apply Hinv]. intros i sc. rewrite Em, lookup_delete_Some. intros [_ Hi].
      by apply (inv_chunks _ _ _ Hinv). }
    simpl in *. rewrite Em in Hsub. exists c'. split_and!; [done..| |].
    + etransitivity; [exact Hsub|apply delete_subseteq].
    + intros i [->|Hi]%elem_of_cons; [|by apply Hgone]. unfold resident.
      destruct (mc_map c' !! id) as [sc|] eqn:E; [|done].
      eapply lookup_weaken in E; [|exact Hsub]. by rewrite lookup_delete_eq in E.
Qed.

Lemma mc_remove_spec P vals c key opts :
  mc_inv P vals c ->
  exists st c', mc_remove c key opts = Done (st, c') /\ mc_inv P (delete key vals) c' /\
    is_ok st = bool_decide (is_Some (vals !! key)).
Proof.
  intros Hinv. pose proof (inv_descs _ _ _ Hinv key) as Hd. unfold mc_remove, mc_get_descriptor.
  destruct (mc_descriptors c !! key) as [desc|] eqn:Ed.
  - destruct Hd as (v & Hv & _). rewrite Hv.
    destruct (remove_chunks_spec P vals (vd_chunks desc) c Hinv) as (c1 & -> & Hinv1 & Hd1 & _). simpl.
    eexists _, _. split; [done|]. split; [|done].
    split; simpl; [apply Hinv1|apply Hinv1|]. intros k. destruct (decide (key = k)) as [<-|Hne].
    + by rewrite !lookup_delete_eq.
    + rewrite !lookup_delete_ne by done. apply Hinv1.
  - rewrite Hd. eexists _, _. split; [done|]. split; [by rewrite delete_id|done].
Qed.

Lemma mc_stop_inv P vals c : mc_inv P vals c -> mc_inv P ∅ (mc_stop c).
Proof.
  intros Hinv. destruct (bc_clear_ok (mc_chunk_cache c)) as (Hwf & Em & _). split; simpl; [done| |].
  - intros id sc. by rewrite Em, lookup_empty.
  - intros key. by rewrite !lookup_empty.
Qed.

Lemma mc_make_inv P max_size : mc_inv P ∅ (mc_make max_size).
Proof.
  destruct (bc_make_ok max_size) as (Hwf & Em & _). split; simpl; [done| |].
  - intros id sc. by rewrite Em, lookup_empty.
  - intros key. by rewrite !lookup_empty.
Qed.

(** ** [check] *)

Lemma mc_has_chunk_spec P vals c id :
  mc_inv P vals c -> mc_has_chunk c id = bool_decide (is_Some (resident c id)).
Proof.
  intros Hinv. unfold mc_has_chunk, resident. rewrite bc_contains_ok by apply Hinv.
  destruct (mc_map c !! id) as [sc|] eqn:E; [|by rewrite !bool_decide_eq_false_2 by (by intros [? ?])].
  destruct (inv_chunks _ _ _ Hinv _ _ E) as (d & -> & _). by rewrite !bool_decide_eq_true_2.
Qed.

(** The marks of [check]: the resident chunks among the indices. *)
Lemma mark_fold P vals c desc indices : mc_inv P vals c -> Forall (fun i => 0 <= i) indices ->
  forall p, length (pv_availability p) = length (vd_chunks desc) ->
  let p' := foldl (mark_step c desc) p indices in
  pv_total_size p' = pv_total_size p /\ length (pv_availability p') = length (vd_chunks desc) /\
  (forall i id, 0 <= i -> vd_chunks desc !! Z.to_nat i = Some id ->
     avail_at (pv_availability p') i = true <->
     avail_at (pv_availability p) i = true \/ (i ∈ indices /\ is_Some (resident c id))).
Proof.
  intros Hinv Hpos. induction Hpos as [|j indices Hj Hpos IH]; intros p Hlen; cbn [foldl].
  - split_and!; [done..|]. intros i id Hi Hid. rewrite elem_of_nil. tauto.
  - assert (pv_total_size (mark_step c desc p j) = pv_total_size p /\
      length (pv_availability (mark_step c desc p j)) = length (vd_chunks desc) /\
      (forall i id, 0 <= i -> vd_chunks desc !! Z.to_nat i = Some id ->
         avail_at (pv_availability (mark_step c desc p j)) i = true <->
         avail_at (pv_availability p) i = true \/ (i = j /\ is_Some (resident c id)))) as (Ht & Hl & Hm).
    { unfold mark_step. destruct (Z.ltb_spec j (size_of (vd_chunks desc))) as [Hjn|Hjn].
      2: { split_and!; [done..|]. intros i id Hi Hid. apply lookup_lt_Some in Hid.
           unfold size_of in Hjn. assert (i <> j) by lia. tauto. }
      destruct (lookup_lt_is_Some_2 (vd_chunks desc) (Z.to_nat j)) as [idj Ej]; [unfold size_of in Hjn; lia|].
      rewrite Ej, (mc_has_chunk_spec P vals) by done. case_bool_decide as Hr.
      - unfold mark_chunk_available. destruct (Z.leb_spec (size_of (pv_availability p)) j) as [Hc|Hc];
          [unfold size_of in *; lia|]. simpl. split_and!; [done|by rewrite length_insert|].
        intros i id Hi Hid. unfold avail_at. destruct (decide (i = j)) as [->|Hne].
        + rewrite list_lookup_insert_eq by (unfold size_of in Hc; lia). simpl. naive_solver.
        + rewrite list_lookup_insert_ne by lia. tauto.
      - split_and!; [done..|]. intros i id Hi Hid. split; [tauto|]. intros [?|[-> ?]]; [done|congruence]. }
    destruct (IH _ Hl) as (Ht' & Hl' & Hm'). split_and!; [congruence|done|].
    intros i id Hi Hid. rewrite (Hm' i id Hi Hid), (Hm i id Hi Hid), elem_of_cons. tauto.
Qed.

Lemma chunks_for_range_clip desc r :
  Range_ok r -> r_offset r < vd_total_size desc -> vd_total_size desc < 2 ^ 64 ->
  chunks_for_range desc r =
  chunks_for_range desc (mkRange (r_offset r) (Z.min (r_length r) (vd_total_size desc - r_offset r))).
Proof.
  intros Hr Ho Ht. unfold chunks_for_range. rewrite (Range_end_ok r Hr). destruct Hr as (? & ? & ?).
  rewrite Range_end_ok by (repeat split; simpl; lia). cbn [r_offset r_length].
  destruct (Z.eqb_spec (r_length r) 0) as [E|].
  { rewrite E. destruct (Z.eqb_spec (Z.min 0 (vd_total_size desc - r_offset r)) 0); [done|lia]. }
  destruct (Z.eqb_spec (Z.min (r_length r) (vd_total_size desc - r_offset r)) 0); [lia|].
  replace (Z.min (r_offset r + Z.min (r_length r) (vd_total_size desc - r_offset r)) (vd_total_size desc))
    with (Z.min (r_offset r + r_length r) (vd_total_size desc)) by lia. done.
Qed.

(** [check] finds missing exactly the bytes whose chunk is not resident. *)
Lemma mc_check_spec P vals c key v r :
  mc_inv P vals c -> vals !! key = Some v -> Range_ok r -> 0 < r_length r -> r_offset r < size_of v ->
  let a := mc_check c key (Some r) in
  av_exists a = true /\ av_metadata a = mc_metadata c key /\
  separated (r_offset r) (Z.min (r_offset r + r_length r) (size_of v)) (av_missing_ranges a) /\
  (forall b, covered (av_missing_ranges a) b <->
     in_range b r /\ b < size_of v /\ resident c (content_hash (piece v (b / CHUNK_SIZE))) = None).
Proof.
  intros Hinv Hv Hr Hl Ho. pose proof (inv_descs _ _ _ Hinv key) as Hd. rewrite Hv in Hd.
  unfold mc_check, mc_metadata, mc_get_descriptor. destruct (mc_descriptors c !! key) as [desc|]; [|done].
  destruct Hd as (v' & [= <-] & Hdesc & HP). pose proof Hdesc as (_ & Ht & Hch & Hmax). simpl.
  pose proof MAX_VALUE_SIZE_small. pose proof CHUNK_SIZE_pos. pose proof Hr as (Hr1 & Hr2 & Hr3).
  pose proof (n_chunks_bounds v) as Hn.
  rewrite (chunks_for_range_clip desc r) by (done || lia). rewrite Ht.
  set (n := Z.min (r_length r) (size_of v - r_offset r)).
  rewrite (chunks_for_value key desc v) by (done || lia).
  pose proof (chunk_span_bounds (r_offset r) n Hr1 ltac:(lia)) as Hsp.
  pose proof (span_in_value v (r_offset r) n Hr1 ltac:(lia) ltac:(lia)) as Hin.
  edestruct (mark_fold P vals c desc (seqZ (first_chunk (r_offset r)) (chunk_span (r_offset r) n)) Hinv)
    with (p := PartialValue_make desc) as (Pt & Pl & Pm).
  { apply Forall_forall. intros i Hi%elem_of_seqZ. lia. }
  { simpl. apply length_replicate. }
  set (p := foldl _ _ _) in *. simpl in Pt.
  assert (size_of (pv_availability p) = n_chunks v) as Hav.
  { unfold size_of. rewrite Pl, Hch, length_fmap, pieces_length. lia. }
  destruct (missing_ranges_bytes p r) as [Hsep Hcov]; [|done|].
  { unfold pv_ok. rewrite Pt, Ht, Hav. split_and!; lia. }
  unfold clamped_end in Hsep. rewrite Pt, Ht in Hsep. split_and!; [done..|].
  intros b. rewrite Hcov, Pt, Ht. unfold byte_available.
  split; intros (Hb & Hbv & Hres); split_and!; try done; unfold in_range in Hb.
  all: pose proof (proj1 (chunk_of_byte b (b / CHUNK_SIZE)) eq_refl) as Hbk.
  all: assert (0 <= b / CHUNK_SIZE < n_chunks v) as Hk by (split; [apply Z.div_pos; lia|nia]).
  all: pose proof (describes_lookup key desc v _ Hdesc Hk) as Hid.
  all: rewrite (Pm _ _ (proj1 Hk) Hid) in *.
  - apply eq_None_not_Some. intros Hs. apply Hres. right. split; [|done].
    apply elem_of_seqZ, chunk_in_span. lia.
  - rewrite Hres. intros [Hf|[_ [? ?]]]; [|done]. unfold avail_at in Hf. simpl in Hf.
    rewrite lookup_replicate_2 in Hf; [done|]. apply lookup_lt_Some in Hid. done.
Qed.

(** ** Sequences of calls *)

Inductive mc_op :=
| MGet (now : Z) (key : CacheKey) (opts : ReadOptions)
| MPut (now : Z) (key : CacheKey) (value : bytes) (opts : WriteOptions)
| MRemove (key : CacheKey) (opts : DeleteOptions)
| MCheck (key : CacheKey) (range : option Range)
| MStop.

Inductive mc_res :=
| MRead (r : ReadResult)
| MStatus (s : Status)
| MAvailable (a : AvailabilityResult)
| MUnit.

Definition mc_step (c : MemoryCache) (op : mc_op) : outcome (mc_res * MemoryCache) :=
  match op with
  | MGet now key opts => '(r, c') ← mc_get now c key opts; Done (MRead r, c')
  | MPut now key v opts => '(st, c') ← mc_put now c key v opts; Done (MStatus st, c')
  | MRemove key opts => '(st, c') ← mc_remove c key opts; Done (MStatus st, c')
  | MCheck key range => Done (MAvailable (mc_check c key range), c)
  | MStop => Done (MUnit, mc_stop c)
  end.

Fixpoint mc_run (c : MemoryCache) (ops : list mc_op) : outcome (list (mc_op * mc_res) * MemoryCache) :=
  match ops with
  | [] => Done ([], c)
  | op :: ops' =>
      '(res, c1) ← mc_step c op;
      '(tr, c2) ← mc_run c1 ops';
      Done ((op, res) :: tr, c2)
  end.

(** The specification: a map from keys to the values last accepted. *)
Definition vals_step (vals : gmap CacheKey bytes) (op : mc_op) : gmap CacheKey bytes :=
  match op with
  | MPut _ key v _ => if put_accepted key v then <[key := v]> vals else vals
  | MRemove key _ => delete key vals
  | MStop => ∅
  | MGet _ _ _ | MCheck _ _ => vals
  end.

(** The answers the specification allows: the cache may lose data, never return other data. *)
Definition answer_ok (vals : gmap CacheKey bytes) (op : mc_op) (res : mc_res) : Prop :=
  match op, res with
  | MGet _ key opts, MRead r =>
      (rr_result r = Hit -> exists v, vals !! key = Some v /\ rr_data r = wanted opts v) /\
      (vals !! key = None -> r = ReadResult_default)
  | MPut _ key v _, MStatus st => is_ok st = put_accepted key v
  | MRemove key _, MStatus st => is_ok st = bool_decide (is_Some (vals !! key))
  | MCheck key _, MAvailable a => av_exists a = bool_decide (is_Some (vals !! key))
  | MStop, MUnit => True
  | _, _ => False
  end.

Fixpoint answers_ok (vals : gmap CacheKey bytes) (tr : list (mc_op * mc_res)) : Prop :=
  match tr with
  | [] => True
  | (op, res) :: tr' => answer_ok vals op res /\ answers_ok (vals_step vals op) tr'
  end.

Definition op_ok (op : mc_op) : Prop :=
  match op with MGet _ _ opts => opts_ok opts | _ => True end.

(** The chunk contents an operation brings in. *)
Definition op_pieces (op : mc_op) : list bytes :=
  match op with MPut _ _ v _ => pieces v | _ => [] end.

Lemma mc_step_ok P vals c op :
  no_collision P -> mc_inv P vals c -> op_ok op -> Forall P (op_pieces op) ->
  exists res c', mc_step c op = Done (res, c') /\ mc_inv P (vals_step vals op) c' /\ answer_ok vals op res.
Proof.
  intros Hnc Hinv Hop HP. destruct op as [now key opts|now key v opts|key opts|key range|]; simpl in *.
  - destruct (mc_get_spec P vals now c key opts Hnc Hinv Hop) as (r & c' & -> & Hs & Hnone & Hhit & _). simpl.
    eexists _, _. split; [done|]. split; [by eapply mc_same_inv|]. split; [|done].
    intros Hh. destruct (Hhit Hh) as (v & ? & ? & _). eauto.
  - destruct (put_accepted key v) eqn:Ha.
    + destruct (mc_put_spec P vals now c key v opts Hnc Hinv HP Ha) as (c' & -> & Hinv' & _). simpl.
      eexists _, _. split; [done|]. done.
    + destruct (mc_put_rejected now c key v opts Ha) as (st & -> & Hst). simpl. eexists _, _. done.
  - destruct (mc_remove_spec P vals c key opts Hinv) as (st & c' & -> & Hinv' & Hst). simpl. eexists _, _. done.
  - eexists _, _. split; [done|]. split; [done|]. pose proof (inv_descs _ _ _ Hinv key) as Hd.
    unfold mc_check, mc_get_descriptor. destruct (mc_descriptors c !! key) as [desc|].
    + destruct Hd as (v & -> & _). by rewrite bool_decide_eq_true_2.
    + by rewrite Hd.
  - eexists _, _. split; [done|]. split; [by eapply mc_stop_inv|done].
Qed.

Lemma mc_run_ok P ops : no_collision P -> Forall op_ok ops -> Forall P (concat (op_pieces <$> ops)) ->
  forall vals c, mc_inv P vals c ->
  exists tr c', mc_run c ops = Done (tr, c') /\ tr.*1 = ops /\ answers_ok vals tr.
Proof.
  intros Hnc Hop HP. induction Hop as [|op ops Hop Hops IH]; intros vals c Hinv; [by exists [], c|].
  cbn [fmap list_fmap concat] in HP. apply Forall_app in HP as [HP1 HP2].
  destruct (mc_step_ok P vals c op Hnc Hinv Hop HP1) as (res & c1 & E & Hinv1 & Hok).
  destruct (IH HP2 _ c1 Hinv1) as (tr & c2 & E2 & Htr & Hoks).
  cbn [mc_run]. rewrite E. cbn. rewrite E2. eexists _, _. split; [done|].
  split; [by rewrite fmap_cons, Htr|done].
Qed.

End memory_cache.

(** ** Properties

    Stated for any hash functions and any chunk cache that keeps the contract; the witnesses use the
    hash functions of the sources and the ARC cache. *)

(** An entry is fresh until its time to live ends. *)
Lemma put_fresh now now' v n opts :
  (forall ttl, wo_ttl opts = Some ttl -> ttl_fits now ttl /\ now' < now + ttl * 1000000000) ->
  is_expired now' (put_metadata now v n opts) = false.
Proof.
  intros Httl. unfold is_expired, put_metadata. simpl. destruct (wo_ttl opts) as [ttl|]; [|done].
  destruct (Httl _ eq_refl) as [Hfit Hlt]. rewrite ttl_fits_exact by done. by apply Z.leb_gt.
Qed.

(** A time to live of ten billion seconds, about 317 years: the sum wraps, and the entry has expired
    the moment it is stored. *)
Lemma ttl_overflow_expires now v n opts :
  0 <= now < 2 ^ 62 -> wo_ttl opts = Some 10000000000 -> is_expired now (put_metadata now v n opts) = true.
Proof.
  intros Hn E. unfold is_expired, put_metadata. simpl. rewrite E.
  change (ns_of_seconds 10000000000) with (-8446744073709551616). rewrite i64_small by lia. apply Z.leb_le. lia.
Qed.

Section properties.
Context `{HH : Hasher} `{BC : !BoundedCache ChunkId SharedChunk chunk_size_fn}.

(** [split_value] ends; its chunks concatenate to the value, none is empty, there are as many as
    the size of the value in chunks rounded up, and every one but the last is full. *)
Theorem split_value_correct v :
  size_of v <= MAX_VALUE_SIZE ->
  exists chunks, split_value v = Done chunks /\
    concat (chunk_data <$> chunks) = v /\
    size_of chunks = (size_of v + CHUNK_SIZE - 1) / CHUNK_SIZE /\
    (forall i c, chunks !! i = Some c ->
       Chunk_size c = Z.min CHUNK_SIZE (size_of v - Z.of_nat i * CHUNK_SIZE) /\ 0 < Chunk_size c).
Proof.
  intros Hv. pose proof MAX_VALUE_SIZE_small. pose proof CHUNK_SIZE_pos. pose proof (n_chunks_bounds v) as [Hn _].
  exists (Chunk_make <$> pieces v). rewrite split_value_eq by lia. split_and!; [done| | |].
  - rewrite <- list_fmap_compose. rewrite list_fmap_id. apply concat_pieces.
  - unfold size_of at 1. rewrite length_fmap, pieces_length. fold (n_chunks v). lia.
  - intros i c (d & -> & Hd)%list_lookup_fmap_Some.
    pose proof (pieces_lookup v (Z.of_nat i) ltac:(lia)) as Hp. rewrite Nat2Z.id, Hd in Hp.
    destruct (Z.ltb_spec (Z.of_nat i) (n_chunks v)); [|done]. injection Hp as ->.
    apply size_of_piece. lia.
Qed.

(** Reading back what was written. After a [put] for which the chunk cache has room, a [get]
    of any range with at least one byte of the value, before the entry expires, is a hit with exactly
    the bytes asked for. *)
Theorem mc_put_get P vals now now' c key v wopts ropts :
  no_collision P -> mc_inv P vals c -> Forall P (pieces v) ->
  CacheKey_size key <= MAX_KEY_SIZE -> size_of v <= MAX_VALUE_SIZE ->
  opts_ok ropts -> wanted ropts v <> [] ->
  bc_bytes (mc_chunk_cache c) + size_of v < 2 ^ 64 ->
  bc_bytes (mc_chunk_cache c) + size_of v <= bc_capacity (mc_chunk_cache c) ->
  (forall ttl, wo_ttl wopts = Some ttl -> ttl_fits now ttl /\ now' < now + ttl * 1000000000) ->
  exists c1 r c2, mc_put now c key v wopts = Done (make_ok, c1) /\ mc_get now' c1 key ropts = Done (r, c2) /\
    rr_result r = Hit /\ rr_data r = wanted ropts v.
Proof.
  intros Hnc Hinv HP Hk Hv Hopts Hw Hov Hroom Httl.
  assert (put_accepted key v = true) as Ha by (unfold put_accepted; apply andb_true_iff; split; by apply Z.leb_le).
  destruct (mc_put_spec P vals now c key v wopts Hnc Hinv HP Ha) as (c1 & Ep & Hinv1 & Hmd & Hres).
  destruct (mc_get_stored P (<[key := v]> vals) now' c1 key v (put_metadata now v (n_chunks v) wopts) ropts)
    as (r & c2 & Eg & Hh & Hd); [done|done|by rewrite lookup_insert_eq|done| |by apply Hres|done|done|].
  { by apply put_fresh. }
  by exists c1, r, c2.
Qed.

(** C7: for every sequence of calls on a new memory cache, whatever its capacity, every call
    returns, a hit carries exactly the requested bytes of the value last put for the key, a key that
    was never put or was removed is a plain miss, and [put], [remove] and [check] answer by the size
    limits and by presence. The content hash must separate the chunks of the values put. *)
Theorem mc_refines_value_map max_size ops :
  no_collision (fun d => d ∈ concat (op_pieces <$> ops)) -> Forall op_ok ops ->
  exists tr c, mc_run (mc_make max_size) ops = Done (tr, c) /\ tr.*1 = ops /\ answers_ok ∅ tr.
Proof.
  intros Hnc Hops. apply mc_run_ok with (1 := Hnc); [done| |apply mc_make_inv]. by apply Forall_forall.
Qed.

(** [check] reports as missing exactly the bytes of the range, inside the value, whose chunk is
    not in the chunk cache; and when it reports nothing missing, reading that range before the entry
    expires is a hit with its bytes. *)
Theorem mc_check_correct P vals now c key v r opts :
  no_collision P -> mc_inv P vals c -> vals !! key = Some v ->
  Range_ok r -> 0 < r_length r -> r_offset r < size_of v -> ro_range opts = Some r ->
  (forall md, mc_metadata c key = Some md -> is_expired now md = false) ->
  let a := mc_check c key (Some r) in
  (forall b, covered (av_missing_ranges a) b <->
     in_range b r /\ b < size_of v /\ resident c (content_hash (piece v (b / CHUNK_SIZE))) = None) /\
  (av_is_complete a = true ->
   exists res c', mc_get now c key opts = Done (res, c') /\ rr_result res = Hit /\
     rr_data res = slice (r_offset r) (r_length r) v).
Proof.
  intros Hnc Hinv Hv Hr Hl Ho Hopt Hex a.
  destruct (mc_check_spec P vals c key v r Hinv Hv Hr Hl Ho) as (_ & _ & Hsep & Hcov). fold a in Hsep, Hcov.
  split; [done|]. unfold av_is_complete. intros Hc. apply andb_true_iff in Hc as [_ Hc]. bool_hyps.
  pose proof Hr as (Hr1 & Hr2 & Hr3).
  assert (opts_ok opts) as Hok by (unfold opts_ok, is_u64; rewrite Hopt; lia).
  destruct (mc_get_spec P vals now c key opts Hnc Hinv Hok) as (res & c' & E & _ & _ & Hhit & Hcomp).
  assert (rr_result res = Hit) as Hh.
  { apply (Hcomp v Hv Hex).
    - unfold wanted. rewrite Hopt, <- slice_clip by lia. intros Hn%(f_equal size_of).
      rewrite size_of_slice in Hn by lia. rewrite size_of_nil in Hn. lia.
    - unfold in_wanted. rewrite Hopt. intros b [Hb Hbr]. rewrite Hc in Hcov. specialize (Hcov b).
      unfold covered in Hcov. rewrite Exists_nil in Hcov.
      destruct (resident c (content_hash (piece v (b / CHUNK_SIZE)))); [done|]. tauto. }
  exists res, c'. destruct (Hhit Hh) as (v' & Hv' & Hd & _). unfold wanted in Hd. rewrite Hopt in Hd.
  assert (v' = v) as -> by congruence. done.
Qed.

(** Chunks are shared between keys by content but not counted. Removing one key takes away the
    chunks another key still needs: a full read of the other key, which was neither removed nor
    evicted, is then never a hit. *)
Theorem mc_remove_takes_shared_chunks P vals now c k1 k2 v1 v2 d dopts ropts :
  no_collision P -> mc_inv P vals c -> vals !! k1 = Some v1 -> vals !! k2 = Some v2 -> k1 <> k2 ->
  d ∈ pieces v1 -> d ∈ pieces v2 -> ro_range ropts = None ->
  exists c1 r c2, mc_remove c k1 dopts = Done (make_ok, c1) /\ mc_metadata c1 k2 = mc_metadata c k2 /\
    mc_get now c1 k2 ropts = Done (r, c2) /\ rr_result r <> Hit.
Proof.
  intros Hnc Hinv H1 H2 Hne Hd1 Hd2 Hro. pose proof (inv_descs _ _ _ Hinv k1) as Hdesc.
  unfold mc_remove, mc_get_descriptor. destruct (mc_descriptors c !! k1) as [desc|]; [|congruence].
  destruct Hdesc as (v & Hv & (_ & _ & Hch & _) & _). assert (v = v1) as -> by congruence.
  destruct (remove_chunks_spec P vals (vd_chunks desc) c Hinv) as (c1 & -> & Hinv1 & Hds & _ & Hgone). simpl.
  set (c1' := with_descriptors c1 (delete k1 (mc_descriptors c1))).
  assert (mc_inv P (delete k1 vals) c1') as Hinv'.
  { split; simpl; [apply Hinv1|apply Hinv1|]. intros k. destruct (decide (k1 = k)) as [<-|Hk].
    - by rewrite !lookup_delete_eq.
    - rewrite !lookup_delete_ne by done. apply Hinv1. }
  destruct (mc_get_spec P _ now c1' k2 ropts Hnc Hinv') as (r & c2 & E & _ & _ & Hhit & _).
  { unfold opts_ok. by rewrite Hro. }
  exists c1', r, c2. split_and!; [done| |done|].
  { unfold mc_metadata, mc_get_descriptor. simpl. by rewrite lookup_delete_ne, Hds. }
  intros Hh. destruct (Hhit Hh) as (v & Hv' & _ & Hres). rewrite lookup_delete_ne in Hv' by done.
  assert (v = v2) as -> by congruence.
  apply list_elem_of_lookup in Hd2 as [i Hi]. pose proof (pieces_lookup v2 (Z.of_nat i) ltac:(lia)) as Hp.
  rewrite Nat2Z.id, Hi in Hp. destruct (Z.ltb_spec (Z.of_nat i) (n_chunks v2)) as [Hlt|]; [|done].
  injection Hp as ->. pose proof (n_chunks_bounds v2). pose proof CHUNK_SIZE_pos.
  destruct (Hres (Z.of_nat i * CHUNK_SIZE)) as [ch Hch'].
  { unfold in_wanted. rewrite Hro. split; [nia|done]. }
  rewrite Z.div_mul in Hch' by lia.
  assert (resident c1 (content_hash (piece v2 (Z.of_nat i))) = None) as Hn.
  { apply Hgone. rewrite Hch. apply list_elem_of_fmap. eauto. }
  unfold resident in *. simpl in Hch'. congruence.
Qed.

Lemma assemble_from_None start i rest cur rem acc :
  0 < rem ->
  assemble_from start i (None :: rest) cur rem acc =
  assemble_from start (i +w 1) rest (cur +w Z.min rem CHUNK_SIZE) (rem -w Z.min rem CHUNK_SIZE) acc.
Proof. intros Hr. cbn [assemble_from]. by destruct (Z.ltb_spec 0 rem); [|lia]. Qed.

(** A range that starts inside a missing first chunk: the loop of [assemble_value] skips a whole chunk
    from there, so the result starts as far into the next chunk, the bytes before that are left out
    although their chunk is present, and the reported range still starts at the requested offset. *)
Lemma assemble_skips_resident_bytes v off len :
  size_of v <= 2 * CHUNK_SIZE -> 0 < off < CHUNK_SIZE -> CHUNK_SIZE < len -> off + len <= size_of v ->
  assemble_value [None; Some (stored (piece v 1))] (mkRange off len)
  = slice (off + CHUNK_SIZE) (len - CHUNK_SIZE) v.
Proof.
  intros Hv Ho Hl Hend. pose proof MAX_VALUE_SIZE_small. assert (CHUNK_SIZE < 2 ^ 32) by done.
  unfold assemble_value. cbn [r_offset r_length]. rewrite Z.div_small by lia.
  rewrite assemble_from_None, Z.min_r by lia. word_small.
  rewrite (assemble_from_pieces v); try lia; [done| |].
  - left. change (size_of [Some (stored (piece v 1))]) with 1. lia.
  - intros [|j] ch; [|done]. by intros [= <-].
Qed.

End properties.

(** ** Witnesses *)

#[local] Existing Instance fnv_hasher.
#[local] Instance chunk_arc : BoundedCache ChunkId SharedChunk chunk_size_fn :=
  arc_bounded_cache chunk_size_fn chunk_size_fn_u64.

Lemma pieces_small v : 0 < size_of v <= CHUNK_SIZE -> pieces v = [v].
Proof.
  intros Hv. assert (n_chunks v = 1) as Hn.
  { pose proof (n_chunks_bounds v). pose proof CHUNK_SIZE_pos. nia. }
  unfold pieces. rewrite Hn. simpl. unfold piece. by rewrite slice_all by lia.
Qed.

Definition sample_value : bytes := str "hello".
Definition sample_key (s : string) : CacheKey := mkCacheKey (str s) 0 Hash128_zero.

Lemma sample_pieces : pieces sample_value = [sample_value].
Proof. apply pieces_small. by vm_compute. Qed.

Definition only_sample (d : bytes) : Prop := d = sample_value.

Lemma only_sample_ok : no_collision only_sample /\ Forall only_sample (pieces sample_value).
Proof. split; [by intros a b -> ->|]. rewrite sample_pieces. by repeat constructor. Qed.

Definition sample_mc_put (c : MemoryCache) (key : CacheKey) : MemoryCache :=
  match mc_put 0 c key sample_value WriteOptions_default with Done (_, c') => c' | _ => c end.

Lemma sample_mc_put_inv vals c key :
  put_accepted key sample_value = true -> mc_inv only_sample vals c ->
  mc_inv only_sample (<[key := sample_value]> vals) (sample_mc_put c key).
Proof.
  intros Ha Hinv. destruct only_sample_ok as [Hnc HP]. unfold sample_mc_put.
  destruct (mc_put_spec only_sample vals 0 c key sample_value WriteOptions_default Hnc Hinv HP Ha)
    as (c' & -> & Hinv' & _). done.
Qed.

(** Two keys with the same value, hence the same chunk. *)
Definition sample_mc : MemoryCache :=
  sample_mc_put (sample_mc_put (mc_make 100) (sample_key "a")) (sample_key "b").

Lemma sample_mc_inv :
  mc_inv only_sample (<[sample_key "b" := sample_value]> (<[sample_key "a" := sample_value]> ∅)) sample_mc.
Proof. repeat (apply sample_mc_put_inv; [by vm_compute|]). apply mc_make_inv. Qed.

Lemma split_value_correct_witness :
  exists chunks, split_value sample_value = Done chunks /\ concat (chunk_data <$> chunks) = sample_value.
Proof.
  destruct (split_value_correct sample_value) as (chunks & E & Hc & _); [by vm_compute|].
  exists chunks. split; [exact E|exact Hc].
Defined.

Lemma mc_put_get_witness :
  exists c1 r c2, mc_put 5 (mc_make 100) (sample_key "a") sample_value WriteOptions_default = Done (make_ok, c1) /\
  mc_get 9 c1 (sample_key "a") ReadOptions_default = Done (r, c2) /\
  rr_result r = Hit /\ rr_data r = str "hello".
Proof.
  destruct (mc_put_get only_sample ∅ 5 9 (mc_make 100) (sample_key "a") sample_value WriteOptions_default
    ReadOptions_default) as (c1 & r & c2 & H); [..|exists c1, r, c2; exact H].
  - apply only_sample_ok.
  - apply mc_make_inv.
  - apply only_sample_ok.
  - by vm_compute.
  - by vm_compute.
  - exact I.
  - discriminate.
  - reflexivity.
  - by vm_compute.
  - discriminate.
Defined.

Lemma mc_refines_value_map_witness :
  exists tr c, mc_run (mc_make 100) [MPut 0 (sample_key "a") sample_value WriteOptions_default;
    MRemove (sample_key "a") DeleteOptions_default; MGet 1 (sample_key "a") ReadOptions_default]
    = Done (tr, c) /\ answers_ok ∅ tr.
Proof.
  destruct (mc_refines_value_map 100 [MPut 0 (sample_key "a") sample_value WriteOptions_default;
    MRemove (sample_key "a") DeleteOptions_default; MGet 1 (sample_key "a") ReadOptions_default])
    as (tr & c & E & _ & Hok); [..|exists tr, c; split; [exact E|exact Hok]].
  - cbn [fmap list_fmap concat op_pieces]. rewrite sample_pieces. simpl.
    intros a b Ha Hb _. apply list_elem_of_singleton in Ha, Hb. congruence.
  - repeat constructor.
Defined.

Lemma mc_check_correct_witness :
  exists res c', mc_get 1 sample_mc (sample_key "b") (mkReadOptions true true true (Some (mkRange 1 3)) 0)
    = Done (res, c') /\ rr_result res = Hit /\ rr_data res = slice 1 3 sample_value.
Proof.
  destruct (mc_check_correct only_sample (<[sample_key "b" := sample_value]> (<[sample_key "a" := sample_value]> ∅)) 1
    sample_mc (sample_key "b") sample_value (mkRange 1 3) (mkReadOptions true true true (Some (mkRange 1 3)) 0))
    as [_ H].
  - apply only_sample_ok.
  - apply sample_mc_inv.
  - reflexivity.
  - repeat split; simpl; lia.
  - reflexivity.
  - reflexivity.
  - reflexivity.
  - intros md E. vm_compute in E. injection E as <-. reflexivity.
  - apply H. vm_compute. reflexivity.
Defined.

Lemma mc_remove_takes_shared_chunks_witness :
  exists c1 r c2, mc_remove sample_mc (sample_key "a") DeleteOptions_default = Done (make_ok, c1) /\
    mc_metadata c1 (sample_key "b") = mc_metadata sample_mc (sample_key "b") /\
    mc_get 1 c1 (sample_key "b") ReadOptions_default = Done (r, c2) /\ rr_result r <> Hit.
Proof.
  apply (mc_remove_takes_shared_chunks only_sample
    (<[sample_key "b" := sample_value]> (<[sample_key "a" := sample_value]> ∅)) 1
    sample_mc (sample_key "a") (sample_key "b") sample_value sample_value sample_value).
  - apply only_sample_ok.
  - apply sample_mc_inv.
  - reflexivity.
  - reflexivity.
  - discriminate.
  - rewrite sample_pieces. by left.
  - rewrite sample_pieces. by left.
  - reflexivity.
Defined.
