(* ===== verification/MemoryThreads.v ===== *)
(** * The memory tier under concurrency: [src/cache/memory_cache.cpp] at the granularity of its locks

    The operations of [MemoryCache] are coroutines that a scheduler runs on several threads. What one
    of them does between two suspensions is not atomic either: the chunk cache and the map of
    descriptors have a lock each, taken and released by every access. Here an operation is a program of
    atomic actions, one for every critical section and every atomic counter; a pool of such programs
    shares one cache and a schedule picks the program that acts next.

    [ARCCache::get] returns a pointer to a value inside a node of a list, and [get_chunk] copies the value
    through it after the lock is released. Lookup, begin and end of the copy are separate actions here: a
    node that another program has erased makes the copy [Undef], and so is a [put] that overwrites the
    value of a node while it is being copied.

    Alone, a program does what the sequential definition of [MemoryCache] does. In a pool, every finished
    operation has answered as the specification of the tier allows for the order in which the operations
    read and changed the map of descriptors, unless a copy went wrong; readers alone never go wrong, and
    answer what they answer alone. *)

From S2P Require Import Prelude CStd CDouble Types Chunk CacheApi CacheInterface IndexedList ArcCache MemoryCache.
Open Scope Z_scope.

(** ** Pointers into the chunk cache *)

Section pointers.
Context {K V : Type} `{Countable K}.

(** [get_impl] with the pointer it returns: the node of T2 that holds the value. *)
Definition get_ptr (c : ARCCache K V) (key : K) : outcome (option nat * ARCCache K V) :=
  let '(mkArc cap t1 t2 b1 b2 p cur hits misses) := c in
  match lru_find t1 key with
  | Some it =>
      match il_deref t1 it with
      | Some e =>
          let t1' := lru_erase_it t1 it in
          let t2' := lru_push_front t2 key (e_value e) (e_size e) in
          Done (lru_find t2' key, mkArc cap t1' t2' b1 b2 p cur (hits +w 1) misses)
      | None => Undef
      end
  | None =>
      match lru_find t2 key with
      | Some it =>
          match il_deref t2 it with
          | Some _ => Done (Some it, mkArc cap t1 (lru_move_to_front t2 it) b1 b2 p cur (hits +w 1) misses)
          | None => Undef
          end
      | None => Done (None, mkArc cap t1 t2 b1 b2 p cur hits (misses +w 1))
      end
  end.

(** The copy [*chunk]: undefined when the node is gone. *)
Definition deref_ptr (c : ARCCache K V) (it : nat) : outcome V :=
  match il_deref (t2_ c) it with Some e => Done (e_value e) | None => Undef end.

Lemma get_impl_ptr (c : ARCCache K V) key :
  get_impl c key = ('(p, c') ← get_ptr c key;
                    match p with
                    | Some it => v ← deref_ptr c' it; Done (Some v, c')
                    | None => Done (None, c')
                    end).
Proof.
  destruct c as [cap t1 t2 b1 b2 p cur hits misses]. unfold get_impl, get_ptr.
  destruct (lru_find t1 key) as [it|].
  - destruct (il_deref t1 it) as [e|]; [|done]. cbn [mbind outcome_bind].
    unfold lru_get, lru_find, lru_push_front. simpl. rewrite lookup_insert_eq. simpl.
    unfold deref_ptr, il_deref. simpl. by rewrite decide_True by done.
  - destruct (lru_find t2 key) as [it|]; [|done]. unfold lru_move_to_front, il_move_to_front.
    destruct (il_deref t2 it) as [e|] eqn:E; [|by rewrite E]. cbn [mbind outcome_bind].
    unfold deref_ptr, il_deref. simpl. by rewrite decide_True by done.
Qed.

(** ** How the nodes of a list change

    Nodes are never renamed: the node at an address keeps its key for as long as it is in the list, and
    an address is not used again. *)

Record il_evolves (l l' : ilist K (Entry K V)) : Prop := {
  ev_next : (il_next l <= il_next l')%nat;
  ev_nodes : forall a x', (a, x') ∈ il_nodes l' -> (a < il_next l)%nat ->
    exists x, (a, x) ∈ il_nodes l /\ e_key x = e_key x'
}.

(** No node is lost. *)
Definition il_keeps (l l' : ilist K (Entry K V)) : Prop :=
  forall a x, (a, x) ∈ il_nodes l -> exists x', (a, x') ∈ il_nodes l'.

#[export] Instance il_evolves_preorder : PreOrder il_evolves.
Proof.
  split.
  - intros l. split; [done|]. eauto.
  - intros l1 l2 l3 [Hn1 H1] [Hn2 H2]. split; [lia|]. intros a x Hx Ha.
    destruct (H2 a x Hx) as (y & Hy & Ey); [lia|]. destruct (H1 a y Hy Ha) as (z & Hz & Ez).
    exists z. split; [done|congruence].
Qed.

#[export] Instance il_keeps_preorder : PreOrder il_keeps.
Proof.
  split; [intros l a x; eauto|]. intros l1 l2 l3 H1 H2 a x Hx. destruct (H1 a x Hx) as [y Hy]. eauto.
Qed.

(** Fewer nodes, the same addresses. *)
Lemma il_evolves_sub l l' :
  il_next l' = il_next l -> (forall n, n ∈ il_nodes l' -> n ∈ il_nodes l) -> il_evolves l l'.
Proof. intros Hn Hs. split; [lia|]. intros a x Hx _. eauto. Qed.

Lemma il_evolves_push_front l k v sz :
  il_evolves l (lru_push_front l k v sz) /\ il_keeps l (lru_push_front l k v sz).
Proof.
  split; [split; simpl; [lia|]|].
  - intros a x [[= -> ->]|Hx]%elem_of_cons Ha; [lia|]. eauto.
  - intros a x Hx. exists x. simpl. by right.
Qed.

Lemma il_evolves_erase_it l it : il_evolves l (lru_erase_it l it).
Proof.
  unfold lru_erase_it. destruct (il_deref l it); [|done]. apply il_evolves_sub; [done|].
  simpl. intros n Hn. by apply list_elem_of_filter in Hn as [_ Hn].
Qed.

Lemma node_find_elem {X} a (ns : list (nat * X)) x : node_find a ns = Some x -> (a, x) ∈ ns.
Proof.
  induction ns as [|[b y] ns IH]; simpl; [done|]. case_decide; [intros [= ->]; subst; by left|].
  intros Hf. right. by apply IH.
Qed.

Lemma il_evolves_move l it : il_evolves l (lru_move_to_front l it) /\ il_keeps l (lru_move_to_front l it).
Proof.
  unfold lru_move_to_front, il_move_to_front. destruct (il_deref l it) as [e|] eqn:E; [|done].
  apply node_find_elem in E. split.
  - apply il_evolves_sub; [done|]. simpl. intros n [->|Hn]%elem_of_cons; [done|].
    by apply list_elem_of_filter in Hn as [_ Hn].
  - intros a x Hx. simpl. setoid_rewrite elem_of_cons. unfold nodes_without.
    setoid_rewrite list_elem_of_filter. simpl. destruct (decide (a = it)) as [->|Hne]; [by exists e; left|].
    exists x. by right.
Qed.

Lemma il_evolves_pop_back l e l' : lru_pop_back l = Some (e, l') -> il_evolves l l'.
Proof.
  unfold lru_pop_back, il_pop_back. destruct (last (il_nodes l)) as [[a x]|] eqn:E; [|done].
  intros [= <- <-]. apply il_evolves_sub; [done|]. simpl. apply last_Some in E as [ns ->].
  rewrite removelast_last. intros n Hn. apply elem_of_app. by left.
Qed.

Lemma il_evolves_write l it v sz :
  il_evolves l (il_write l it (fun e => mkEntry (e_key e) v sz)).
Proof.
  split; simpl; [lia|]. intros a x Hx _. apply list_elem_of_fmap in Hx as ([b y] & E & Hy).
  simpl in E. case_decide; injection E as -> ->; eauto.
Qed.

Lemma il_evolves_clear l : il_evolves l (lru_clear l).
Proof. apply il_evolves_sub; [done|]. simpl. intros n Hn. by apply elem_of_nil in Hn. Qed.

(** The T2 lists of two states of the cache. *)
Definition arc_evolves (c c' : ARCCache K V) : Prop := il_evolves (t2_ c) (t2_ c').
Definition arc_keeps (c c' : ARCCache K V) : Prop := il_keeps (t2_ c) (t2_ c').

#[export] Instance arc_evolves_preorder : PreOrder arc_evolves.
Proof. split; [intros c; red; done|]. intros c1 c2 c3 H1 H2. red. by transitivity (t2_ c2). Qed.

#[export] Instance arc_keeps_preorder : PreOrder arc_keeps.
Proof. split; [intros c; red; done|]. intros c1 c2 c3 H1 H2. red. by transitivity (t2_ c2). Qed.

(** What a lookup leaves: the contents as [get_impl] leaves them, and a pointer to a live node. *)
Lemma get_ptr_spec size_fn (c : ARCCache K V) key :
  arc_wf size_fn c ->
  exists p c', get_ptr c key = Done (p, c') /\ arc_wf size_fn c' /\ arc_map c' = arc_map c /\
    arc_bytes c' = arc_bytes c /\ capacity_ c' = capacity_ c /\ arc_evolves c c' /\ arc_keeps c c' /\
    match p with
    | Some it => exists e, (it, e) ∈ il_nodes (t2_ c') /\ e_key e = key
    | None => arc_map c !! key = None
    end.
Proof.
  intros Hwf. destruct (arc_get_law size_fn c key Hwf) as (c' & Eg & Hwf' & Em & Eb & Ec).
  rewrite get_impl_ptr in Eg. apply outcome_bind_Done in Eg as ([p c1] & Ep & Eg).
  exists p, c1. assert (c1 = c') as ->.
  { destruct p as [it|]; [|by injection Eg]. destruct (deref_ptr c1 it); try done. by injection Eg. }
  split_and!; try done.
  all: destruct c as [cap t1 t2 b1 b2 pp cur hits misses]; unfold get_ptr in Ep.
  all: unfold arc_evolves, arc_keeps.
  all: destruct (lru_find t1 key) as [it1|]; [|destruct (lru_find t2 key) as [it2|] eqn:E2].
  all: try (destruct (il_deref t1 it1) as [e1|] eqn:D1; [|done]).
  all: try (destruct (il_deref t2 it2) as [e2|] eqn:D2; [|done]).
  all: injection Ep as <- <-; cbn [t2_] in *.
  all: try apply il_evolves_push_front; try apply il_evolves_move; try done.
  - unfold lru_find, lru_push_front. simpl. rewrite lookup_insert_eq.
    eexists. split; [by left|]. done.
  - destruct (il_find_Some e_key t2 key it2 (wf_t2 _ _ Hwf) E2) as (x & Hx & Hk & _).
    rewrite D2 in Hx. injection Hx as ->. exists x. split; [|done].
    unfold lru_move_to_front, il_move_to_front. rewrite D2. by left.
  - by injection Eg as ->.
Qed.

Lemma evict_one_evolves s s' : evict_one (K := K) (V := V) s = Done s' -> arc_evolves s.1 s'.1.
Proof.
  destruct s as [c ev]. destruct c as [cap t1 t2 b1 b2 p cur hits misses]. unfold evict_one, arc_evolves.
  destruct (_ && _).
  { destruct (lru_pop_back t1) as [[e t1']|]; [|done]. by intros [= <-]. }
  destruct (negb _); [|by intros [= <-]].
  destruct (lru_pop_back t2) as [[e t2']|] eqn:E; [|done]. intros [= <-]. by eapply il_evolves_pop_back.
Qed.

Lemma evict_for_size_evolves needed s s' :
  evict_for_size (K := K) (V := V) needed s = Done s' -> arc_evolves s.1 s'.1.
Proof.
  unfold evict_for_size. generalize (S (length (il_nodes (t1_ s.1)) + length (il_nodes (t2_ s.1)))).
  intros fuel. revert s. induction fuel as [|fuel IH]; intros s; simpl; [done|].
  unfold evict_step at 1. destruct (_ && _); [|by intros [= ->]].
  destruct (evict_one s) as [s1| | |] eqn:E; try done. intros Hl. transitivity s1.1; [|by apply IH].
  by apply evict_one_evolves.
Qed.

Lemma put_impl_evolves size_fn (c : ARCCache K V) key v ev c' :
  put_impl size_fn c key v = Done (ev, c') -> arc_evolves c c'.
Proof.
  destruct c as [cap t1 t2 b1 b2 p cur hits misses]. unfold put_impl.
  assert (forall c0 : ARCCache K V, t2_ c0 = t2 -> insert_t2 c0 key v (size_fn v) = Done (ev, c') \/
    insert_t1 c0 key v (size_fn v) = Done (ev, c') -> il_evolves t2 (t2_ c')) as Hins.
  { intros c0 <- [Hi|Hi]; unfold insert_t1, insert_t2 in Hi;
      apply outcome_bind_Done in Hi as ([c1 ev1] & He%evict_for_size_evolves & Hi);
      destruct c1 as [cap1 u1 u2 d1 d2 p1 cur1 h1 m1]; injection Hi as <- <-; unfold arc_evolves in He; cbn [fst t2_] in *; [|done].
    etransitivity; [exact He|apply il_evolves_push_front]. }
  unfold arc_evolves. cbn [t2_].
  destruct (lru_find t1 key) as [it|].
  { destruct (il_deref t1 it); [|done]. intros [= <- <-]. apply il_evolves_push_front. }
  destruct (lru_find t2 key) as [it|].
  { destruct (il_deref t2 it); [|done]. intros [= <- <-]. cbn [t2_].
    etransitivity; [apply il_evolves_write|apply il_evolves_move]. }
  destruct (ghost_contains b1 key); [intros Hi; by refine (Hins _ _ (or_introl Hi))|].
  destruct (ghost_contains b2 key); [intros Hi; by refine (Hins _ _ (or_introl Hi))|].
  intros Hi. apply outcome_bind_Done in Hi as ([b1' b2'] & _ & Hi). by refine (Hins _ _ (or_intror Hi)).
Qed.

Lemma remove_impl_evolves (c : ARCCache K V) key b c' :
  remove_impl c key = Done (b, c') -> arc_evolves c c'.
Proof.
  destruct c as [cap t1 t2 b1 b2 p cur hits misses]. unfold remove_impl, arc_evolves. cbn [t2_].
  destruct (lru_find t1 key) as [it|].
  { destruct (il_deref t1 it); [|done]. by intros [= <- <-]. }
  destruct (lru_find t2 key) as [it|]; [|by intros [= <- <-]].
  destruct (il_deref t2 it); [|done]. intros [= <- <-]. apply il_evolves_erase_it.
Qed.

End pointers.

(** ** Atomic actions *)

Section threads.
Context `{HH : Hasher}.

#[local] Instance chunk_arc : BoundedCache ChunkId SharedChunk chunk_size_fn :=
  arc_bounded_cache chunk_size_fn chunk_size_fn_u64.

Abbreviation Cache := (MemoryCache (BC := chunk_arc)).

(** The atomic counters an operation advances. *)
Inductive counter := CHits | CMisses | CPartialHits | CBytesRead | CBytesWritten | CEvictions.

Definition add_counter (c : Cache) (x : counter) (n : Z) : Cache :=
  let '(mkMemoryCache cc d h mi ph br bw ev) := c in
  match x with
  | CHits => mkMemoryCache cc d (h +w n) mi ph br bw ev
  | CMisses => mkMemoryCache cc d h (mi +w n) ph br bw ev
  | CPartialHits => mkMemoryCache cc d h mi (ph +w n) br bw ev
  | CBytesRead => mkMemoryCache cc d h mi ph (br +w n) bw ev
  | CBytesWritten => mkMemoryCache cc d h mi ph br (bw +w n) ev
  | CEvictions => mkMemoryCache cc d h mi ph br bw (ev +w n)
  end.

(** One critical section each, with its result; [ACopy] begins the copy of a [std::shared_ptr] through a pointer,
    [ADeref] ends it. *)
Inductive atom : Type -> Type :=
| AGetDescriptor (key : CacheKey) : atom (option ValueDescriptor)
| APutDescriptor (desc : ValueDescriptor) : atom Status
| ARemoveDescriptor (key : CacheKey) : atom Status
| AClearDescriptors : atom unit
| AArcGet (id : ChunkId) : atom (option nat)
| ACopy (it : nat) : atom unit
| ADeref (it : nat) : atom SharedChunk
| AArcPut (id : ChunkId) (chunk : SharedChunk) : atom (list (ChunkId * SharedChunk))
| AArcRemove (id : ChunkId) : atom bool
| AArcContains (id : ChunkId) : atom bool
| AArcClear : atom unit
| AAdd (x : counter) (n : Z) : atom unit.

(** The node whose value a [put] of the key assigns to in place: case 2 of [put_impl]. (Case 1 erases the node, which a
    copy that goes on finds gone.) *)
Definition overwritten (c : Cache) (id : ChunkId) : option nat :=
  match lru_find (t1_ (mc_chunk_cache c)) id with
  | Some _ => None
  | None => lru_find (t2_ (mc_chunk_cache c)) id
  end.

(** [busy]: the nodes other programs are copying from. Assigning to one of them is a data race. *)
Definition exec {A} (busy : list nat) (a : atom A) (c : Cache) : outcome (A * Cache) :=
  match a in atom A return outcome (A * Cache) with
  | AGetDescriptor key => Done (mc_get_descriptor c key, c)
  | APutDescriptor desc => Done (mc_put_descriptor c desc)
  | ARemoveDescriptor key => Done (mc_remove_descriptor c key)
  | AClearDescriptors => Done (tt, with_descriptors c ∅)
  | AArcGet id => '(p, cc) ← get_ptr (mc_chunk_cache c) id; Done (p, with_chunks c cc)
  | ACopy it => _ ← deref_ptr (mc_chunk_cache c) it; Done (tt, c)
  | ADeref it => v ← deref_ptr (mc_chunk_cache c) it; Done (v, c)
  | AArcPut id chunk =>
      if existsb (fun it => bool_decide (overwritten c id = Some it)) busy then Undef
      else '(ev, cc) ← bc_put (mc_chunk_cache c) id chunk; Done (ev, with_chunks c cc)
  | AArcRemove id => '(b, cc) ← bc_remove (mc_chunk_cache c) id; Done (b, with_chunks c cc)
  | AArcContains id => Done (bc_contains (mc_chunk_cache c) id, c)
  | AArcClear => Done (tt, with_chunks c (bc_clear (mc_chunk_cache c)))
  | AAdd x n => Done (tt, add_counter c x n)
  end.

(** ** Programs: the coroutines, as sequences of actions *)

Inductive prog (R : Type) : Type :=
| Fin (o : outcome R)
| Act {A} (a : atom A) (k : A -> prog R).
Arguments Fin {R} o.
Arguments Act {R A} a k.

#[export] Instance prog_ret : MRet prog := fun R r => Fin (Done r).

#[export] Instance prog_bind : MBind prog := fun R S f =>
  fix go (p : prog R) : prog S :=
    match p with
    | Fin (Done r) => f r
    | Fin (Throw w) => Fin (Throw w)
    | Fin Undef => Fin Undef
    | Fin Spin => Fin Spin
    | Act a k => Act a (fun r => go (k r))
    end.

Definition act {A} (a : atom A) : prog A := Act a (fun r => Fin (Done r)).

(** [get_chunk], [put_chunk], [remove_chunk], [has_chunk] *)
Definition get_chunk_p (id : ChunkId) : prog SharedChunk :=
  p ← act (AArcGet id);
  match p with
  | Some it => _ ← act (ACopy it); act (ADeref it)
  | None => mret None
  end.

Definition put_chunk_p (chunk : SharedChunk) : prog Status :=
  match chunk with
  | None => mret (status_error InvalidArgument (str "Null chunk"))
  | Some ch =>
      let '(id, ch') := Chunk_id ch in
      evicted ← act (AArcPut id (Some ch'));
      _ ← act (AAdd CEvictions (size_of evicted));
      mret make_ok
  end.

Definition remove_chunk_p (id : ChunkId) : prog Status :=
  _ ← act (AArcRemove id); mret make_ok.

(** The loop of [get] over the chunk indices. *)
Fixpoint fetch_p (desc : ValueDescriptor) (allow_partial : bool) (indices : list Z)
    (chunks : list SharedChunk) (all_found : bool) : prog (list SharedChunk * bool) :=
  match indices with
  | [] => mret (chunks, all_found)
  | idx :: rest =>
      match vd_chunks desc !! Z.to_nat idx with
      | None => mret (chunks, false)
      | Some id =>
          chunk ← get_chunk_p id;
          match chunk with
          | None => if allow_partial then fetch_p desc allow_partial rest (chunks ++ [None]) false
                    else mret (chunks, false)
          | Some ch => fetch_p desc allow_partial rest (chunks ++ [Some ch]) all_found
          end
      end
  end.

Definition finish_p (desc : ValueDescriptor) (opts : ReadOptions) (range : Range)
    (chunks : list SharedChunk) (all_found : bool) : prog ReadResult :=
  if bool_decide (chunks = []) || (negb all_found && negb (ro_allow_partial opts)) then
    _ ← act (AAdd CMisses 1); mret ReadResult_default
  else
    let data := assemble_value chunks range in
    let hit := all_found && (size_of data =? r_length range) in
    _ ← act (AAdd (if hit then CHits else CPartialHits) 1);
    _ ← act (AAdd CBytesRead (size_of data));
    mret (mkReadResult (if hit then Hit else PartialHit) data (mkRange (r_offset range) (size_of data))
                       (Some (vd_metadata desc))).

(** [get] once it has the descriptor. *)
Definition get_found_p (now : Z) (desc : ValueDescriptor) (opts : ReadOptions) : prog ReadResult :=
  if is_expired now (vd_metadata desc) then
    _ ← act (AAdd CMisses 1); mret (mkReadResult Expired [] (mkRange 0 0) None)
  else
    let range := match ro_range opts with
                 | Some r => r
                 | None => mkRange 0 (vd_total_size desc)
                 end in
    if vd_total_size desc <=? r_offset range then
      mret (mkReadResult Hit [] (mkRange (r_offset range) 0) (Some (vd_metadata desc)))
    else
      let effective_length := Z.min (r_length range) (vd_total_size desc -w r_offset range) in
      let range := mkRange (r_offset range) effective_length in
      '(chunks, all_found) ← fetch_p desc (ro_allow_partial opts) (chunks_for_range desc range) [] true;
      finish_p desc opts range chunks all_found.

Definition get_p (now : Z) (key : CacheKey) (opts : ReadOptions) : prog ReadResult :=
  desc ← act (AGetDescriptor key);
  match desc with
  | None => _ ← act (AAdd CMisses 1); mret ReadResult_default
  | Some desc => get_found_p now desc opts
  end.

Fixpoint store_p (chunks : list Chunk) (ids : list ChunkId) : prog (option Status * list ChunkId) :=
  match chunks with
  | [] => mret (None, ids)
  | chunk :: rest =>
      let '(id, chunk') := Chunk_id chunk in
      status ← put_chunk_p (Some chunk');
      if is_ok status then store_p rest (ids ++ [id]) else mret (Some status, ids ++ [id])
  end.

Definition put_p (now : Z) (key : CacheKey) (value : bytes) (opts : WriteOptions) : prog Status :=
  if MAX_KEY_SIZE <? CacheKey_size key then
    mret (status_error KeyTooLarge (str "Key exceeds maximum size"))
  else if MAX_VALUE_SIZE <? size_of value then
    mret (status_error ValueTooLarge (str "Value exceeds maximum size"))
  else
    chunks ← Fin (split_value value);
    '(failed, ids) ← store_p chunks [];
    match failed with
    | Some status => mret status
    | None =>
        let desc := mkDescriptor key (size_of value) ids
                                 (put_metadata now value (size_of chunks) opts) in
        status ← act (APutDescriptor desc);
        if is_ok status then _ ← act (AAdd CBytesWritten (size_of value)); mret make_ok
        else mret status
    end.

Fixpoint remove_chunks_p (ids : list ChunkId) : prog unit :=
  match ids with
  | [] => mret tt
  | id :: rest => _ ← remove_chunk_p id; remove_chunks_p rest
  end.

Definition remove_p (key : CacheKey) (opts : DeleteOptions) : prog Status :=
  desc ← act (AGetDescriptor key);
  match desc with
  | None => mret (status_error NotFound (str "Key not found"))
  | Some desc =>
      _ ← remove_chunks_p (vd_chunks desc);
      _ ← act (ARemoveDescriptor key);
      mret make_ok
  end.

(** The marking loop of [check]. *)
Fixpoint mark_p (desc : ValueDescriptor) (indices : list Z) (partial : PartialValue) : prog PartialValue :=
  match indices with
  | [] => mret partial
  | idx :: rest =>
      if idx <? size_of (vd_chunks desc) then
        match vd_chunks desc !! Z.to_nat idx with
        | Some id =>
            has ← act (AArcContains id);
            mark_p desc rest (if has : bool then mark_chunk_available partial idx id else partial)
        | None => mark_p desc rest partial
        end
      else mark_p desc rest partial
  end.

Definition check_p (key : CacheKey) (range : option Range) : prog AvailabilityResult :=
  desc ← act (AGetDescriptor key);
  match desc with
  | None => mret AvailabilityResult_default
  | Some desc =>
      let check_range := match range with Some r => r | None => mkRange 0 (vd_total_size desc) end in
      partial ← mark_p desc (chunks_for_range desc check_range) (PartialValue_make desc);
      mret (mkAvailability true (Some (vd_metadata desc)) (available_ranges partial)
                           (missing_ranges partial check_range))
  end.

Definition stop_p : prog unit :=
  _ ← act AArcClear; act AClearDescriptors.

Definition op_prog (op : mc_op) : prog mc_res :=
  match op with
  | MGet now key opts => r ← get_p now key opts; mret (MRead r)
  | MPut now key v opts => st ← put_p now key v opts; mret (MStatus st)
  | MRemove key opts => st ← remove_p key opts; mret (MStatus st)
  | MCheck key range => a ← check_p key range; mret (MAvailable a)
  | MStop => _ ← stop_p; mret MUnit
  end.

(** ** A program on its own *)

Fixpoint run_alone {R} (p : prog R) (c : Cache) : outcome (R * Cache) :=
  match p with
  | Fin o => r ← o; Done (r, c)
  | Act a k =>
      match exec [] a c with
      | Done (r, c') => run_alone (k r) c'
      | Throw w => Throw w
      | Undef => Undef
      | Spin => Spin
      end
  end.

Lemma run_alone_bind {R S} (p : prog R) (f : R -> prog S) : forall c,
  run_alone (p ≫= f) c = '(r, c') ← run_alone p c; run_alone (f r) c'.
Proof.
  induction p as [o|A a k IH]; intros c.
  - by destruct o.
  - change (Act a k ≫= f) with (Act a (fun r => k r ≫= f)). cbn [run_alone].
    destruct (exec [] a c) as [[r c']| | |]; [apply IH|done..].
Qed.

Lemma run_alone_act {A} (a : atom A) c : run_alone (act a) c = exec [] a c.
Proof. unfold act. cbn [run_alone]. by destruct (exec [] a c) as [[r c']| | |]. Qed.

Lemma run_get_chunk id c : run_alone (get_chunk_p id) c = mc_get_chunk c id.
Proof.
  unfold get_chunk_p, mc_get_chunk. rewrite run_alone_bind, run_alone_act. cbn [exec].
  change (bc_get (mc_chunk_cache c) id) with (get_impl (mc_chunk_cache c) id). rewrite get_impl_ptr.
  destruct (get_ptr (mc_chunk_cache c) id) as [[p cc]| | |]; try done. cbn [mbind outcome_bind].
  destruct p as [it|]; [|done]. rewrite run_alone_bind, run_alone_act. cbn [exec].
  change (mc_chunk_cache (with_chunks c cc)) with cc. destruct (deref_ptr cc it) as [v| | |] eqn:E; [|done..].
  cbn [mbind outcome_bind]. rewrite run_alone_act. cbn [exec]. change (mc_chunk_cache (with_chunks c cc)) with cc. by rewrite E.
Qed.

Lemma run_fetch desc ap indices : forall chunks af c,
  run_alone (fetch_p desc ap indices chunks af) c =
  '(chunks', af', c') ← fetch_chunks c desc ap indices chunks af; Done ((chunks', af'), c').
Proof.
  induction indices as [|idx rest IH]; intros chunks af c; cbn [fetch_p fetch_chunks]; [done|].
  destruct (vd_chunks desc !! Z.to_nat idx) as [id|]; [|done].
  rewrite run_alone_bind, run_get_chunk. destruct (mc_get_chunk c id) as [[chunk c']| | |]; try done.
  cbn [mbind outcome_bind]. destruct chunk as [ch|]; [apply IH|]. destruct ap; [apply IH|done].
Qed.

Lemma run_put_chunk chunk c : run_alone (put_chunk_p chunk) c = mc_put_chunk c chunk.
Proof.
  destruct chunk as [ch|]; [|done]. unfold put_chunk_p, mc_put_chunk.
  destruct (Chunk_id ch) as [id ch']. rewrite run_alone_bind, run_alone_act. cbn [exec existsb].
  by destruct (bc_put (mc_chunk_cache c) id (Some ch')) as [[ev cc]| | |].
Qed.

Lemma run_store chunks : forall ids c,
  run_alone (store_p chunks ids) c =
  '(failed, ids', c') ← store_chunks c chunks ids; Done ((failed, ids'), c').
Proof.
  induction chunks as [|chunk rest IH]; intros ids c; cbn [store_p store_chunks]; [done|].
  destruct (Chunk_id chunk) as [id chunk']. rewrite run_alone_bind, run_put_chunk.
  destruct (mc_put_chunk c (Some chunk')) as [[st c']| | |]; try done. cbn [mbind outcome_bind].
  destruct (is_ok st); [apply IH|done].
Qed.

Lemma run_remove_chunks ids : forall c,
  run_alone (remove_chunks_p ids) c = c' ← remove_chunks c ids; Done (tt, c').
Proof.
  induction ids as [|id rest IH]; intros c; cbn [remove_chunks_p remove_chunks]; [done|].
  rewrite run_alone_bind. unfold remove_chunk_p, mc_remove_chunk. rewrite run_alone_bind, run_alone_act.
  cbn [exec]. destruct (bc_remove (mc_chunk_cache c) id) as [[b cc]| | |]; try done. apply IH.
Qed.

Lemma run_mark desc indices : forall p c,
  run_alone (mark_p desc indices p) c = Done (foldl (mark_step c desc) p indices, c).
Proof.
  induction indices as [|idx rest IH]; intros p c; cbn [mark_p foldl]; [done|]. unfold mark_step at 2.
  destruct (idx <? size_of (vd_chunks desc)); [|apply IH].
  destruct (vd_chunks desc !! Z.to_nat idx) as [id|]; [|apply IH].
  rewrite run_alone_bind, run_alone_act. cbn [exec mbind outcome_bind]. rewrite IH. done.
Qed.

(** The counters of a cache are 64-bit words. *)
Definition counters_ok (c : Cache) : Prop :=
  is_u64 (mc_hits c) /\ is_u64 (mc_misses c) /\ is_u64 (mc_partial_hits c) /\ is_u64 (mc_bytes_read c).

Lemma counters_kept c cc : counters_ok c -> counters_ok (with_chunks c cc).
Proof. done. Qed.

Lemma fetch_counters desc ap indices : forall c chunks af chunks' af' c',
  fetch_chunks c desc ap indices chunks af = Done (chunks', af', c') -> counters_ok c -> counters_ok c'.
Proof.
  induction indices as [|idx rest IH]; intros c chunks af chunks' af' c'; cbn [fetch_chunks]; [by intros [= <- <- <-]|].
  destruct (vd_chunks desc !! Z.to_nat idx) as [id|]; [|by intros [= <- <- <-]].
  unfold mc_get_chunk. destruct (bc_get (mc_chunk_cache c) id) as [[r cc]| | |]; try done.
  cbn [mbind outcome_bind]. intros E Hc. pose proof (counters_kept c cc Hc) as Hc'.
  destruct r as [[ch|]|]; [by eapply IH| |]; destruct ap; try (by eapply IH); by injection E as <- <- <-.
Qed.

(** Advancing the read counters one by one, or all at once. *)
Lemma count_misses c : counters_ok c -> add_counter c CMisses 1 = count_reads c 0 1 0 0.
Proof.
  destruct c as [cc d h mi ph br bw ev]. intros (Hh & _ & Hp & Hb). cbn in Hh, Hp, Hb.
  unfold count_reads, add_counter. cbn [mc_chunk_cache mc_descriptors mc_hits mc_misses mc_partial_hits mc_bytes_read
    mc_bytes_written mc_evictions]. rewrite !Z.add_0_r, (u64_small h), (u64_small ph), (u64_small br) by done. done.
Qed.

Lemma count_found c (hit : bool) n : counters_ok c ->
  add_counter (add_counter c (if hit then CHits else CPartialHits) 1) CBytesRead n =
  if hit then count_reads c 1 0 0 n else count_reads c 0 0 1 n.
Proof.
  destruct c as [cc d h mi ph br bw ev]. intros (Hh & Hm & Hp & Hb). cbn in Hh, Hm, Hp.
  destruct hit; unfold count_reads, add_counter; cbn [mc_chunk_cache mc_descriptors mc_hits mc_misses mc_partial_hits
    mc_bytes_read mc_bytes_written mc_evictions]; rewrite !Z.add_0_r.
  - by rewrite (u64_small mi), (u64_small ph) by done.
  - by rewrite (u64_small mi), (u64_small h) by done.
Qed.

Lemma run_finish desc opts range chunks af c : counters_ok c ->
  run_alone (finish_p desc opts range chunks af) c = Done (finish_get c desc opts range chunks af).
Proof.
  intros Hc. unfold finish_p, finish_get. destruct (_ || _).
  - rewrite run_alone_bind, run_alone_act. cbn [exec mbind outcome_bind run_alone mret prog_ret].
    by rewrite count_misses.
  - rewrite run_alone_bind, run_alone_act. cbn [exec mbind outcome_bind].
    rewrite run_alone_bind, run_alone_act. cbn [exec mbind outcome_bind run_alone mret prog_ret].
    by rewrite count_found.
Qed.

Lemma run_get now key opts c : counters_ok c -> run_alone (get_p now key opts) c = mc_get now c key opts.
Proof.
  intros Hc. unfold get_p, mc_get. rewrite run_alone_bind, run_alone_act. cbn [exec mbind outcome_bind].
  destruct (mc_get_descriptor c key) as [desc|].
  2: { rewrite run_alone_bind, run_alone_act. cbn [exec mbind outcome_bind run_alone mret prog_ret].
       by rewrite count_misses. }
  unfold get_found_p. destruct (is_expired now (vd_metadata desc)).
  { rewrite run_alone_bind, run_alone_act. cbn [exec mbind outcome_bind run_alone mret prog_ret].
    by rewrite count_misses. }
  destruct (_ <=? _); [done|]. rewrite run_alone_bind, run_fetch.
  destruct (fetch_chunks _ _ _ _ _ _) as [[[chunks af] c']| | |] eqn:E; try done.
  cbn [mbind outcome_bind]. apply run_finish. by eapply fetch_counters.
Qed.

Lemma run_put now key v opts c : run_alone (put_p now key v opts) c = mc_put now c key v opts.
Proof.
  unfold put_p, mc_put. destruct (_ <? _); [done|]. destruct (_ <? _); [done|].
  rewrite run_alone_bind. cbn [run_alone]. destruct (split_value v) as [chunks| | |]; try done.
  cbn [mbind outcome_bind]. rewrite run_alone_bind, run_store.
  destruct (store_chunks c chunks []) as [[[failed ids] c1]| | |]; try done. cbn [mbind outcome_bind].
  destruct failed; [done|]. rewrite run_alone_bind, run_alone_act. done.
Qed.

Lemma run_remove key opts c : run_alone (remove_p key opts) c = mc_remove c key opts.
Proof.
  unfold remove_p, mc_remove. rewrite run_alone_bind, run_alone_act. cbn [exec mbind outcome_bind].
  destruct (mc_get_descriptor c key) as [desc|]; [|done]. rewrite run_alone_bind, run_remove_chunks.
  by destruct (remove_chunks c (vd_chunks desc)) as [c1| | |].
Qed.

Lemma run_check key range c : run_alone (check_p key range) c = Done (mc_check c key range, c).
Proof.
  unfold check_p, mc_check. rewrite run_alone_bind, run_alone_act. cbn [exec mbind outcome_bind].
  destruct (mc_get_descriptor c key) as [desc|]; [|done]. by rewrite run_alone_bind, run_mark.
Qed.

Lemma run_op op c : counters_ok c -> run_alone (op_prog op) c = mc_step c op.
Proof.
  intros Hc. destruct op; cbn [op_prog mc_step]; rewrite ?run_alone_bind.
  - rewrite run_get by done. done.
  - rewrite run_put. done.
  - rewrite run_remove. done.
  - rewrite run_check. done.
  - done.
Qed.

(** ** Pools of programs *)

(** The history of the accesses to the map of descriptors, by the number of the program. *)
Inductive event := Look | Effect.
Abbreviation log := (list (nat * event)).

Definition events {A} (i : nat) (a : atom A) : log :=
  match a with
  | AGetDescriptor _ => [(i, Look)]
  | APutDescriptor _ | ARemoveDescriptor _ | AClearDescriptors => [(i, Effect)]
  | _ => []
  end.

Record pool := mkPool {
  pl_cache : Cache;
  pl_threads : list (prog mc_res);
  pl_log : log
}.

(** The node a program is in the middle of copying from. *)
Definition copies {R} (p : prog R) : list nat :=
  match p with
  | Act a _ => match a with ADeref it => [it] | _ => [] end
  | Fin _ => []
  end.

(** The nodes the programs other than [i] are copying from. *)
Definition busy_for (ts : list (prog mc_res)) (i : nat) : list nat := concat (copies <$> (take i ts ++ drop (S i) ts)).

(** The next action of program [i]; nothing happens when it has finished. *)
Definition step_thread (s : pool) (i : nat) : pool :=
  match pl_threads s !! i with
  | Some (Act a k) =>
      match exec (busy_for (pl_threads s) i) a (pl_cache s) with
      | Done (r, c') => mkPool c' (<[i := k r]> (pl_threads s)) (pl_log s ++ events i a)
      | Throw w => mkPool (pl_cache s) (<[i := Fin (Throw w)]> (pl_threads s)) (pl_log s)
      | Undef => mkPool (pl_cache s) (<[i := Fin Undef]> (pl_threads s)) (pl_log s)
      | Spin => mkPool (pl_cache s) (<[i := Fin Spin]> (pl_threads s)) (pl_log s)
      end
  | _ => s
  end.

Definition run_schedule (sched : list nat) (s : pool) : pool := foldl step_thread s sched.

Definition pool_of (c : Cache) (ops : list mc_op) : pool := mkPool c (op_prog <$> ops) [].

Definition finished {R} (p : prog R) : bool := match p with Fin _ => true | Act _ _ => false end.

(** The programs that copied through a pointer to an erased node, or wrote to a node that was being copied. *)
Definition crashed (s : pool) (i : nat) : Prop := pl_threads s !! i = Some (Fin Undef).

(** ** Every fair schedule finishes every program *)

Definition smaller {R} (q p : prog R) : Prop :=
  match p with
  | Fin _ => False
  | @Act _ A a k => (exists r, q = k r) \/ finished q = true
  end.

Lemma smaller_wf {R} : well_founded (@smaller R).
Proof.
  assert (forall o, Acc smaller (Fin (R := R) o)) as Hfin by (intros o; constructor; done).
  intros p. induction p as [o|A a k IH]; [done|]. constructor. intros q [[r ->]|Hq]; [apply IH|].
  destruct q; [done|discriminate].
Qed.

(** One program of the list gets smaller. *)
Definition one_smaller (ts' ts : list (prog mc_res)) : Prop :=
  exists i p q, ts !! i = Some p /\ smaller q p /\ ts' = <[i := q]> ts.

Lemma one_smaller_cons p : forall ts, Acc one_smaller ts -> Acc one_smaller (p :: ts).
Proof.
  induction (smaller_wf p) as [p _ IHp]. intros ts Hts. induction Hts as [ts Hts IHts].
  constructor. intros ts' (i & p0 & q & Hi & Hq & ->). destruct i as [|i]; simpl in *.
  - injection Hi as ->. apply IHp; [done|]. by constructor.
  - apply IHts. exists i, p0, q. done.
Qed.

Lemma one_smaller_wf ts : Acc one_smaller ts.
Proof.
  induction ts as [|p ts IH]; [|by apply one_smaller_cons].
  constructor. intros ts' (i & p & q & Hi & _). by rewrite lookup_nil in Hi.
Qed.

Lemma step_thread_smaller s i : step_thread s i = s \/ one_smaller (pl_threads (step_thread s i)) (pl_threads s).
Proof.
  unfold step_thread. destruct (pl_threads s !! i) as [[o|A a k]|] eqn:E; [by left| |by left].
  right. destruct (exec (busy_for (pl_threads s) i) a (pl_cache s)) as [[r c']| | |]; exists i, (Act a k); eexists; cbn [pl_threads];
    (split; [done|]; split; [|reflexivity]); simpl; eauto.
Qed.

Lemma step_thread_unfinished s i p :
  pl_threads s !! i = Some p -> finished p = false -> one_smaller (pl_threads (step_thread s i)) (pl_threads s).
Proof.
  intros Hi Hp. destruct p as [o|A a k]; [discriminate|]. unfold step_thread. rewrite Hi.
  destruct (exec (busy_for (pl_threads s) i) a (pl_cache s)) as [[r c']| | |]; exists i, (Act a k); eexists; cbn [pl_threads];
    (split; [done|]; split; [|reflexivity]); simpl; eauto.
Qed.

Definition all_finished (s : pool) : Prop := Forall (fun p => finished p = true) (pl_threads s).

(** An infinite schedule, cut after [n] turns. *)
Definition turns (sched : nat -> nat) (n : nat) : list nat := sched <$> seq 0 n.

Definition fair (sched : nat -> nat) (n_threads : nat) : Prop :=
  forall i m, (i < n_threads)%nat -> exists k, (m <= k)%nat /\ sched k = i.

Lemma turns_add sched n m : turns sched (n + m) = turns sched n ++ turns (fun k => sched (n + k)%nat) m.
Proof.
  unfold turns. rewrite seq_app, fmap_app, Nat.add_0_l. f_equal.
  replace (seq n m) with (Nat.add n <$> seq 0 m) by (rewrite fmap_add_seq; f_equal; lia).
  by rewrite <- list_fmap_compose.
Qed.

Lemma run_schedule_app l1 l2 s : run_schedule (l1 ++ l2) s = run_schedule l2 (run_schedule l1 s).
Proof. apply foldl_app. Qed.

Lemma step_thread_length s i : length (pl_threads (step_thread s i)) = length (pl_threads s).
Proof.
  unfold step_thread. destruct (pl_threads s !! i) as [[o|A a k]|]; [done| |done].
  destruct (exec (busy_for (pl_threads s) i) a (pl_cache s)) as [[r c']| | |]; cbn [pl_threads]; by rewrite length_insert.
Qed.

(** Within [m] turns, either nothing has changed or some program has become smaller. *)
Lemma first_change sched : forall m s,
  run_schedule (turns sched m) s = s \/
  exists n, (n <= m)%nat /\ one_smaller (pl_threads (run_schedule (turns sched n) s)) (pl_threads s) /\
    length (pl_threads (run_schedule (turns sched n) s)) = length (pl_threads s).
Proof.
  induction m as [|m IH]; intros s; [by left|].
  destruct (IH s) as [E|(n & Hn & Hs)]; [|right; exists n; split; [lia|done]].
  assert (run_schedule (turns sched (S m)) s = step_thread s (sched m)) as Es.
  { replace (S m) with (m + 1)%nat by lia. rewrite turns_add, run_schedule_app, E. simpl.
    by rewrite Nat.add_0_r. }
  destruct (step_thread_smaller s (sched m)) as [E1|H1]; [left; congruence|].
  right. exists (S m). rewrite Es. split; [lia|]. split; [done|apply step_thread_length].
Qed.

Lemma fair_finishes s : forall sched, fair sched (length (pl_threads s)) ->
  exists n, all_finished (run_schedule (turns sched n) s).
Proof.
  remember (pl_threads s) as ts eqn:Ets. revert s Ets.
  induction (one_smaller_wf ts) as [ts _ IH]. intros s -> sched Hfair.
  destruct (decide (all_finished s)) as [Hf|Hf]; [by exists 0%nat|].
  unfold all_finished in Hf. apply not_Forall_Exists in Hf; [|intros p; apply _].
  apply Exists_exists in Hf as (p & Hp & Hnf). apply list_elem_of_lookup in Hp as [i Hi].
  apply not_true_is_false in Hnf. pose proof (lookup_lt_Some _ _ _ Hi) as Hlt.
  destruct (Hfair i 0%nat Hlt) as (k & _ & Hk).
  assert (exists n, one_smaller (pl_threads (run_schedule (turns sched n) s)) (pl_threads s) /\
    length (pl_threads (run_schedule (turns sched n) s)) = length (pl_threads s)) as (n & Hs & Hlen).
  { destruct (first_change sched k s) as [E|(n & _ & Hs)]; [|by exists n].
    exists (S k). replace (S k) with (k + 1)%nat by lia. rewrite turns_add, run_schedule_app, E. simpl.
    rewrite Nat.add_0_r, Hk. split; [by apply (step_thread_unfinished s i p)|apply step_thread_length]. }
  destruct (IH _ Hs _ eq_refl (fun j => sched (n + j)%nat)) as [m Hm].
  { rewrite Hlen. intros j m Hj. destruct (Hfair j (n + m)%nat Hj) as (x & Hx & Ex).
    exists (x - n)%nat. split; [lia|]. rewrite <- Ex. f_equal. lia. }
  exists (n + m)%nat. by rewrite turns_add, run_schedule_app.
Qed.

(** ** The order of the accesses to the map of descriptors *)

Definition events_of (i : nat) (l : log) : log := filter (fun e => e.1 = i) l.

(** The specification after the events of a history: operation [i] happens at its [Effect]. *)
Definition vals_event (ops : list mc_op) (vals : gmap CacheKey bytes) (e : nat * event) : gmap CacheKey bytes :=
  match e.2, ops !! e.1 with
  | Effect, Some op => vals_step vals op
  | _, _ => vals
  end.

Definition vals_of (vals0 : gmap CacheKey bytes) (ops : list mc_op) (l : log) : gmap CacheKey bytes :=
  foldl (vals_event ops) vals0 l.

Definition succeeded (res : mc_res) : bool := match res with MStatus st => is_ok st | _ => false end.

(** What a finished operation has done and answered. A lookup answers for the moment it looked; a [put] or
    [remove] that is accepted takes effect exactly once, anything else never. *)
Definition answered (vals0 : gmap CacheKey bytes) (ops : list mc_op) (l : log) (i : nat) (op : mc_op)
    (res : mc_res) : Prop :=
  match op with
  | MGet _ _ _ | MCheck _ _ =>
      exists l1, l1 ++ [(i, Look)] `prefix_of` l /\ events_of i l = [(i, Look)] /\
        answer_ok (vals_of vals0 ops l1) op res
  | MPut _ key v _ =>
      answer_ok ∅ op res /\ events_of i l = if put_accepted key v then [(i, Effect)] else []
  | MRemove _ _ =>
      exists l1, l1 ++ [(i, Look)] `prefix_of` l /\ answer_ok (vals_of vals0 ops l1) op res /\
        events_of i l = if succeeded res then [(i, Look); (i, Effect)] else [(i, Look)]
  | MStop => answer_ok ∅ op res /\ events_of i l = [(i, Effect)]
  end.

Section safety.
Context (P : bytes -> Prop) (vals0 : gmap CacheKey bytes) (ops : list mc_op).

Definition Inv (l : log) (c : Cache) : Prop := mc_inv P (vals_of vals0 ops l) c.

(** What the steps of all programs respect: nodes keep their keys. *)
Definition Rel (c c' : Cache) : Prop := arc_evolves (mc_chunk_cache c) (mc_chunk_cache c').

#[local] Instance Rel_preorder : PreOrder Rel.
Proof. split; [intros c; by red|]. intros c1 c2 c3 H1 H2. red. by etransitivity. Qed.

Lemma Rel_same c c' : mc_chunk_cache c' = mc_chunk_cache c -> Rel c c'.
Proof. unfold Rel. by intros ->. Qed.

(** What program [i] may rely on while the others run. *)
Definition later (i : nat) (l : log) (c : Cache) (l' : log) (c' : Cache) : Prop :=
  l `prefix_of` l' /\ events_of i l' = events_of i l /\ Rel c c'.

Lemma later_refl i l c : later i l c l c.
Proof. by split_and!. Qed.

Lemma later_trans i l1 c1 l2 c2 l3 c3 : later i l1 c1 l2 c2 -> later i l2 c2 l3 c3 -> later i l1 c1 l3 c3.
Proof. intros (? & ? & ?) (? & ? & ?). split_and!; [by etransitivity|congruence|by etransitivity]. Qed.

(** The actions that can go wrong: a copy, and an assignment to a node that is being copied. *)
Definition risky {A} (a : atom A) : bool := match a with ACopy _ | ADeref _ | AArcPut _ _ => true | _ => false end.

(** From here on, program [i] keeps the invariant and the relation at each of its actions, and ends
    with a result in [Q], unless a risky action goes wrong. *)
Fixpoint ok {R} (i : nat) (Q : R -> log -> Cache -> Prop) (p : prog R) (l : log) (c : Cache) : Prop :=
  match p with
  | Fin (Done r) => Q r l c
  | Fin _ => False
  | Act a k =>
      forall busy l' c', later i l c l' c' -> Inv l' c' ->
      match exec busy a c' with
      | Done (r, c2) => Inv (l' ++ events i a) c2 /\ Rel c' c2 /\ ok i Q (k r) (l' ++ events i a) c2
      | Undef => risky a = true
      | _ => False
      end
  end.

Lemma ok_bind {R S} i (p : prog R) (f : R -> prog S) Q l c :
  ok i (fun r l' c' => ok i Q (f r) l' c') p l c -> ok i Q (p ≫= f) l c.
Proof.
  revert l c. induction p as [o|A a k IH]; intros l c; [by destruct o|].
  change (Act a k ≫= f) with (Act a (fun r => k r ≫= f)). cbn [ok]. intros Hok busy l' c' Hl Hi.
  specialize (Hok busy l' c' Hl Hi). destruct (exec busy a c') as [[r c2]| | |]; try done.
  destruct Hok as (? & ? & Hok). split_and!; [done..|]. by apply IH.
Qed.

Lemma ok_impl {R} i (p : prog R) (Q Q' : R -> log -> Cache -> Prop) l c :
  (forall r l' c', Q r l' c' -> Q' r l' c') -> ok i Q p l c -> ok i Q' p l c.
Proof.
  intros HQ. revert l c. induction p as [o|A a k IH]; intros l c; cbn [ok]; [destruct o; auto|].
  intros Hok busy l' c' Hl Hi. specialize (Hok busy l' c' Hl Hi). destruct (exec busy a c') as [[r c2]| | |]; try done.
  destruct Hok as (? & ? & Hok). eauto.
Qed.

Lemma ok_later {R} i (p : prog R) (Q : R -> log -> Cache -> Prop) l c l' c' :
  (forall r l1 c1 l2 c2, later i l1 c1 l2 c2 -> Q r l1 c1 -> Q r l2 c2) ->
  later i l c l' c' -> ok i Q p l c -> ok i Q p l' c'.
Proof.
  intros HQ Hl. destruct p as [o|A a k]; cbn [ok]; [destruct o; eauto|].
  intros Hok busy l2 c2 Hl2. apply Hok. by eapply later_trans.
Qed.

(** Programs without accesses to the map of descriptors. *)
Fixpoint quiet {R} (p : prog R) : Prop :=
  match p with
  | Fin _ => True
  | Act a k => events 0 a = [] /\ forall r, quiet (k r)
  end.

Lemma prog_quiet_bind {R S} (p : prog R) (f : R -> prog S) : quiet p -> (forall r, quiet (f r)) -> quiet (p ≫= f).
Proof.
  intros Hp Hf. induction p as [o|A a k IH]; [by destruct o; [apply Hf|..]|].
  destruct Hp as [Ha Hk]. split; [done|]. intros r. by apply IH.
Qed.

Lemma quiet_events {A} (a : atom A) i : events 0 a = [] -> events i a = [].
Proof. by destruct a. Qed.

(** A quiet program leaves the events of its number alone. *)
Lemma ok_quiet {R} i (p : prog R) (Q : R -> Prop) : forall l c,
  quiet p -> ok i (fun r _ _ => Q r) p l c -> ok i (fun r l' c' => later i l c l' c' /\ Q r) p l c.
Proof.
  intros l c Hq. pose proof (later_refl i l c) as Hl0.
  enough (forall l1 c1, later i l c l1 c1 -> ok i (fun r _ _ => Q r) p l1 c1 ->
    ok i (fun r l' c' => later i l c l' c' /\ Q r) p l1 c1) as Hg by (intros; by apply Hg).
  clear Hl0. induction p as [o|A a k IH]; intros l1 c1 Hl; cbn [ok]; [destruct o; eauto|].
  destruct Hq as [Ha Hk]. intros Hok busy l' c' Hl' Hi. specialize (Hok busy l' c' Hl' Hi).
  rewrite (quiet_events a i Ha), app_nil_r in *.
  destruct (exec busy a c') as [[r c2]| | |]; try done. destruct Hok as (? & HR & Hok). split_and!; [done..|].
  apply IH; [apply Hk| |done]. eapply later_trans; [exact Hl|]. destruct Hl' as (? & ? & ?).
  split_and!; [done..|by etransitivity].
Qed.

(** An action without event that keeps the contents. *)
Lemma ok_step {R A} (a : atom A) i (k : A -> prog R) Q l c :
  events i a = [] ->
  (forall busy l' c', later i l c l' c' -> Inv l' c' ->
   match exec busy a c' with
   | Done (r, c2) => Inv l' c2 /\ Rel c' c2 /\ ok i Q (k r) l' c2
   | Undef => risky a = true
   | _ => False
   end) -> ok i Q (Act a k) l c.
Proof.
  intros Ha Hk. cbn [ok]. intros busy l' c' Hl Hi. specialize (Hk busy l' c' Hl Hi). by rewrite Ha, app_nil_r.
Qed.

Lemma ok_count {R} x n i (k : unit -> prog R) Q l c :
  (forall l' c', ok i Q (k tt) l' c') -> ok i Q (Act (AAdd x n) k) l c.
Proof.
  intros Hk. apply ok_step; [done|]. intros busy l' c' _ Hi. cbn [exec].
  assert (mc_chunk_cache (add_counter c' x n) = mc_chunk_cache c' /\
          mc_descriptors (add_counter c' x n) = mc_descriptors c') as [Ec Ed] by (by destruct c', x).
  split_and!; [|by apply Rel_same|apply Hk]. destruct Hi as [? ? ?].
  split; [by rewrite Ec|by rewrite Ec|by rewrite Ed].
Qed.

(** A chunk the cache holds under an identifier, or none. *)
Definition chunk_of (id : ChunkId) (sc : SharedChunk) : Prop :=
  sc = None \/ exists d, sc = Some (stored d) /\ content_hash d = id /\ P d.

Lemma get_chunk_ok i id l c : ok i (fun sc _ _ => chunk_of id sc) (get_chunk_p id) l c.
Proof.
  apply ok_step; [done|]. intros busy l1 c1 _ Hi1. cbn [exec].
  destruct (get_ptr_spec _ (mc_chunk_cache c1) id (inv_cache _ _ _ Hi1))
    as (p & cc & -> & Hwf & Em & Eb & Ec & Hev & Hkp & Hp). cbn [mbind outcome_bind].
  assert (Inv l1 (with_chunks c1 cc)) as Hi2.
  { eapply mc_same_inv; [exact Hi1|]. by split_and!. }
  split_and!; [done|done|]. destruct p as [it|]; [|by left].
  apply ok_step; [done|]. intros busy2 l2 c2 Hl2 Hi2'. cbn [exec].
  destruct (deref_ptr (mc_chunk_cache c2) it) as [v2| | |] eqn:E2; unfold deref_ptr in E2;
    destruct (il_deref (t2_ (mc_chunk_cache c2)) it) as [e2|]; try done. cbn [mbind outcome_bind]. split_and!; [done|by apply Rel_same|].
  apply ok_step; [done|]. intros busy3 l3 c3 Hl3 Hi3. cbn [exec]. unfold deref_ptr.
  destruct (il_deref (t2_ (mc_chunk_cache c3)) it) as [e3|] eqn:E3; [|done].
  destruct (later_trans _ _ _ _ _ _ _ Hl2 Hl3) as (_ & _ & Hev3). destruct Hp as (e & He & Hk).
  cbn [with_chunks mc_chunk_cache] in *. split_and!; [done|by apply Rel_same|]. right. apply node_find_elem in E3.
  assert (it < il_next (t2_ cc))%nat as Hlt by (eapply wf_next; [apply (wf_t2 _ _ Hwf)|done]).
  destruct (ev_nodes _ _ Hev3 it e3 E3 Hlt) as (x & Hx & Ex).
  assert (x = e) as ->.
  { pose proof (wf_addr _ _ (wf_t2 _ _ Hwf)) as Hnd. apply (node_find_spec _ _ _ Hnd) in Hx, He. congruence. }
  apply (inv_chunks _ _ _ Hi3). rewrite <- Hk, Ex. apply (arc_map_elem chunk_size_fn); [apply Hi3|].
  unfold arc_entries. apply elem_of_app. right. apply elem_of_entries. eauto.
Qed.

Lemma quiet_get_chunk id : quiet (get_chunk_p id).
Proof. apply prog_quiet_bind; [by split|]. intros [it|]; [|done]. by repeat (split; [done|intros ?]). Qed.

Lemma quiet_fetch desc ap indices : forall chunks af, quiet (fetch_p desc ap indices chunks af).
Proof.
  induction indices as [|idx rest IH]; intros chunks af; cbn [fetch_p]; [done|].
  destruct (vd_chunks desc !! Z.to_nat idx); [|done]. apply prog_quiet_bind; [apply quiet_get_chunk|].
  intros [ch|]; [apply IH|]. destruct ap; [apply IH|done].
Qed.

Lemma quiet_finish desc opts range chunks af : quiet (finish_p desc opts range chunks af).
Proof. unfold finish_p. by destruct (_ || _); [|destruct (_ && _)]; repeat (split; [done|intros []]). Qed.

Lemma quiet_get_found now desc opts : quiet (get_found_p now desc opts).
Proof.
  unfold get_found_p. destruct (is_expired _ _); [by split|]. destruct (_ <=? _); [done|].
  apply prog_quiet_bind; [apply quiet_fetch|]. intros [chunks af]. apply quiet_finish.
Qed.

Lemma quiet_store chunks : forall ids, quiet (store_p chunks ids).
Proof.
  induction chunks as [|ch rest IH]; intros ids; cbn [store_p]; [done|].
  destruct (Chunk_id ch) as [id ch']. apply prog_quiet_bind.
  - unfold put_chunk_p. destruct (Chunk_id ch'). split; [done|]. intros ev. by split.
  - intros st. destruct (is_ok st); [apply IH|done].
Qed.

Lemma quiet_remove_chunks ids : quiet (remove_chunks_p ids).
Proof.
  induction ids as [|id rest IH]; cbn [remove_chunks_p]; [done|]. apply prog_quiet_bind; [by split|]. done.
Qed.

Lemma quiet_mark desc indices : forall p, quiet (mark_p desc indices p).
Proof.
  induction indices as [|idx rest IH]; intros p; cbn [mark_p]; [done|].
  destruct (_ <? _); [|apply IH]. destruct (vd_chunks desc !! Z.to_nat idx); [|apply IH].
  split; [done|]. intros r. apply IH.
Qed.

(** ** [get] *)

Context (Hnc : no_collision P).

(** The chunks of the indices, all found. *)
Definition fetched (v : bytes) (indices : list Z) (chunks : list SharedChunk) : Prop :=
  Forall2 (fun idx sc => sc = Some (stored (piece v idx))) indices chunks.

Lemma fetch_ok i key desc v ap indices :
  describes key desc v -> Forall P (pieces v) -> Forall (fun idx => 0 <= idx < n_chunks v) indices ->
  forall chunks af l c,
  ok i (fun r _ _ => r.2 = true -> af = true /\ exists got, r.1 = chunks ++ got /\ fetched v indices got)
    (fetch_p desc ap indices chunks af) l c.
Proof.
  intros Hd HP. induction 1 as [|idx rest Hidx _ IH]; intros chunks af l c; cbn [fetch_p].
  - intros Haf. split; [done|]. exists []. rewrite app_nil_r. split; [done|constructor].
  - rewrite (describes_lookup key desc v idx Hd Hidx). apply ok_bind.
    eapply ok_impl; [|apply get_chunk_ok]. intros sc l1 c1 [->|(d & -> & Hh & HPd)].
    + destruct ap; [|done]. eapply ok_impl; [|apply IH]. intros r ? ? Hr Ht. by destruct (Hr Ht).
    + assert (d = piece v idx) as ->.
      { apply Hnc; [done| |done]. rewrite Forall_lookup in HP. apply (HP (Z.to_nat idx)).
        rewrite pieces_lookup by lia. by destruct (Z.ltb_spec idx (n_chunks v)); [|lia]. }
      eapply ok_impl; [|apply IH]. intros r ? ? Hr Ht. destruct (Hr Ht) as (Haf & got & Eg & Hgot).
      rewrite Eg. split; [done|]. exists (Some (stored (piece v idx)) :: got). rewrite <- app_assoc.
      split; [done|by constructor].
Qed.

Lemma assemble_fetched v off n chunks :
  size_of v <= MAX_VALUE_SIZE -> 0 <= off -> 0 < n -> off + n <= size_of v ->
  fetched v (seqZ (first_chunk off) (chunk_span off n)) chunks ->
  assemble_value chunks (mkRange off n) = slice off n v.
Proof.
  intros Hmax Ho Hn Hend Hf. pose proof (chunk_span_bounds off n Ho Hn). pose proof MAX_VALUE_SIZE_small.
  pose proof (Forall2_length _ _ _ Hf) as Hlen. rewrite length_seqZ in Hlen.
  unfold assemble_value. cbn [r_offset r_length]. fold (first_chunk off).
  rewrite (assemble_from_pieces v); try lia; [done| |].
  - unfold size_of in *. rewrite <- Hlen. lia.
  - intros j ch Hj. destruct (Forall2_lookup_r _ _ _ _ _ Hf Hj) as (idx & Hidx & ->).
    apply lookup_seqZ in Hidx as [-> _]. do 3 f_equal. lia.
Qed.

Lemma finish_ok i desc v opts off n chunks af l c :
  size_of v <= MAX_VALUE_SIZE -> 0 <= off -> 0 < n -> off + n <= size_of v ->
  (af = true -> fetched v (seqZ (first_chunk off) (chunk_span off n)) chunks) ->
  ok i (fun r _ _ => rr_result r = Hit -> rr_data r = slice off n v)
    (finish_p desc opts (mkRange off n) chunks af) l c.
Proof.
  intros Hmax Ho Hn Hend Hf. unfold finish_p. destruct (_ || _).
  { apply ok_count. intros l' c'. done. }
  apply ok_count. intros l1 c1. apply ok_count. intros l2 c2. cbn.
  destruct af; cbn [andb]; [|done]. intros _. by apply assemble_fetched, Hf.
Qed.

Lemma get_found_ok i now key desc v opts l c :
  describes key desc v -> Forall P (pieces v) -> opts_ok opts ->
  ok i (fun r _ _ => rr_result r = Hit -> rr_data r = wanted opts v) (get_found_p now desc opts) l c.
Proof.
  intros Hdesc HP Hopts. pose proof Hdesc as (_ & Ht & _ & Hmax). unfold get_found_p.
  destruct (is_expired now (vd_metadata desc)); [by apply ok_count|]. rewrite Ht. fold (asked opts v).
  destruct (asked_spec opts v Hopts Hmax) as (Hoff & Hlen & Hw & _).
  set (off := r_offset (asked opts v)) in *. set (len := r_length (asked opts v)) in *.
  destruct (Z.leb_spec (size_of v) off) as [Hge|Hlt].
  { intros _. rewrite Hw. unfold slice. rewrite drop_ge by (unfold size_of in *; lia). by rewrite take_nil. }
  pose proof MAX_VALUE_SIZE_small. pose proof CHUNK_SIZE_pos.
  rewrite (u64_small (size_of v - off)) by (split; lia).
  rewrite <- slice_clip in Hw by lia. set (n := Z.min len (size_of v - off)) in *.
  destruct (Z.eq_dec n 0) as [E0|En].
  { rewrite E0. apply ok_bind. cbn [ok fetch_p mret prog_ret chunks_for_range r_length Z.eqb orb].
    unfold finish_p. rewrite bool_decide_eq_true_2 by done. by apply ok_count. }
  rewrite (chunks_for_value key desc v) by (done || lia). apply ok_bind.
  pose proof (span_in_value v off n). pose proof (chunk_span_bounds off n).
  eapply ok_impl; [|apply (fetch_ok i key desc v); [done..|]].
  - intros [chunks af] l1 c1 Hr. rewrite Hw. apply finish_ok; [lia..|]. intros Haf.
    destruct (Hr Haf) as (_ & got & Eg & Hgot). cbn in Eg. by rewrite Eg.
  - apply Forall_forall. intros j Hj%elem_of_seqZ. lia.
Qed.

(** The first action of [get], [check] and [remove]. *)
Lemma ok_look {R} i key (k : option ValueDescriptor -> prog R) Q l c :
  (forall l' c' desc, later i l c l' c' -> Inv l' c' ->
   match desc with
   | Some desc => exists v, vals_of vals0 ops l' !! key = Some v /\ describes key desc v /\ Forall P (pieces v)
   | None => vals_of vals0 ops l' !! key = None
   end -> ok i Q (k desc) (l' ++ [(i, Look)]) c') ->
  ok i Q (Act (AGetDescriptor key) k) l c.
Proof.
  intros Hk. cbn [ok]. intros busy l' c' Hl Hi. cbn [exec events].
  assert (Inv (l' ++ [(i, Look)]) c') as Hi'.
  { unfold Inv, vals_of. rewrite foldl_snoc. apply Hi. }
  split_and!; [done|done|]. apply Hk; [done..|]. apply (inv_descs _ _ _ Hi).
Qed.

Lemma events_of_snoc i l e : events_of i (l ++ [(i, e)]) = events_of i l ++ [(i, e)].
Proof. unfold events_of. rewrite filter_app. by rewrite filter_cons_True. Qed.

(** After a look and quiet steps, the look is still where it was. *)
Lemma looked i l0 c0 l c l' c' :
  events_of i l0 = [] -> later i l0 c0 l c -> later i (l ++ [(i, Look)]) c l' c' ->
  l ++ [(i, Look)] `prefix_of` l' /\ events_of i l' = [(i, Look)].
Proof.
  intros H0 (_ & E & _) (Hp & E' & _). split; [done|]. by rewrite E', events_of_snoc, E, H0.
Qed.

Abbreviation done_ok i op := (fun res l c => answered vals0 ops l i op res).

Lemma get_ok i now key opts l c :
  opts_ok opts -> events_of i l = [] ->
  ok i (done_ok i (MGet now key opts)) (op_prog (MGet now key opts)) l c.
Proof.
  intros Hopts H0. cbn [op_prog]. apply ok_bind. apply ok_look. intros l1 c1 desc Hl Hi Hd.
  destruct desc as [desc|].
  - destruct Hd as (v & Hv & Hdesc & HP).
    eapply ok_impl; [|apply ok_quiet; [apply quiet_get_found|by apply (get_found_ok i now key desc v)]].
    intros r l2 c2 [Hl2 Hr]. destruct (looked _ _ _ _ _ _ _ H0 Hl Hl2) as [? ?].
    exists l1. split_and!; [done..|]. cbn [answer_ok]. rewrite Hv. split; [eauto|done].
  - eapply ok_impl; [|apply (ok_quiet _ _ (fun r => r = ReadResult_default)); [by split|by apply ok_count]].
    intros r l2 c2 [Hl2 ->]. destruct (looked _ _ _ _ _ _ _ H0 Hl Hl2) as [? ?].
    exists l1. split_and!; [done..|]. cbn [answer_ok]. by split.
Qed.

(** ** [check] *)

Lemma mark_ok i desc indices : forall p l c, ok i (fun _ _ _ => True) (mark_p desc indices p) l c.
Proof.
  induction indices as [|idx rest IH]; intros p l c; cbn [mark_p]; [done|].
  destruct (_ <? _); [|apply IH]. destruct (vd_chunks desc !! Z.to_nat idx); [|apply IH].
  apply ok_step; [done|]. intros busy l' c' _ Hi. cbn [exec]. split_and!; [done|done|apply IH].
Qed.

Lemma check_ok i key range l c :
  events_of i l = [] -> ok i (done_ok i (MCheck key range)) (op_prog (MCheck key range)) l c.
Proof.
  intros H0. cbn [op_prog]. apply ok_bind. apply ok_look. intros l1 c1 desc Hl Hi Hd.
  destruct desc as [desc|].
  - destruct Hd as (v & Hv & _). apply ok_bind.
    eapply ok_impl; [|apply ok_quiet; [apply quiet_mark|apply mark_ok]].
    intros p l2 c2 [Hl2 _]. destruct (looked _ _ _ _ _ _ _ H0 Hl Hl2) as [? ?].
    exists l1. split_and!; [done..|]. cbn [answer_ok]. by rewrite Hv, bool_decide_eq_true_2.
  - destruct (looked _ _ _ _ _ _ _ H0 Hl (later_refl _ _ _)) as [? ?].
    exists l1. split_and!; [done..|]. cbn [answer_ok]. by rewrite Hd.
Qed.

(** ** [put], [remove], [stop]: these erase nodes *)

Lemma store_ok i ds : Forall P ds -> forall ids l c,
  ok i (fun r _ _ => r = (None, ids ++ (content_hash <$> ds))) (store_p (Chunk_make <$> ds) ids) l c.
Proof.
  induction 1 as [|d ds Hd _ IH]; intros ids l c; [cbn; by rewrite app_nil_r|].
  cbn [fmap list_fmap store_p Chunk_id chunk_id_ Chunk_make chunk_data]. apply ok_bind.
  cbn [put_chunk_p Chunk_id chunk_id_]. apply ok_step; [done|]. intros busy l1 c1 _ Hi1.
  destruct (put_chunk_spec P _ c1 d Hnc Hi1 Hd) as (c' & Ep & Hi' & _).
  unfold mc_put_chunk, stored in Ep. cbn [Chunk_id chunk_id_] in Ep. cbn [exec]. destruct (existsb _ busy); [done|].
  destruct (bc_put (mc_chunk_cache c1) (content_hash d) _) as [[ev cc]| | |] eqn:E; try done.
  cbn [mbind outcome_bind] in Ep |- *. injection Ep as <-. split_and!; [|exact (put_impl_evolves _ _ _ _ _ _ E)|].
  { destruct Hi' as [? ? ?]. by split. }
  apply ok_count. intros l2 c2. cbn [ok mret prog_ret]. change (is_ok make_ok) with true.
  cbn match. replace (ids ++ content_hash d :: (content_hash <$> ds))
    with ((ids ++ [content_hash d]) ++ (content_hash <$> ds)) by (by rewrite <- app_assoc). apply IH.
Qed.

Lemma put_p_rejected now key v opts : put_accepted key v = false ->
  exists st, put_p now key v opts = mret st /\ is_ok st = false.
Proof.
  unfold put_accepted, put_p. rewrite !Z.leb_antisym, <- negb_orb, negb_false_iff.
  destruct (_ <? _); [by eexists|]. cbn [orb]. intros ->. by eexists.
Qed.

Lemma put_ok i now key v opts l c :
  ops !! i = Some (MPut now key v opts) -> Forall P (pieces v) -> events_of i l = [] ->
  ok i (done_ok i (MPut now key v opts)) (op_prog (MPut now key v opts)) l c.
Proof.
  intros Hop HP H0. cbn [op_prog]. apply ok_bind. destruct (put_accepted key v) eqn:Ha.
  2: { destruct (put_p_rejected now key v opts Ha) as (st & -> & Hst). cbn. by rewrite Ha, H0. }
  unfold put_p, put_accepted in *.
  pose proof Ha as Ha'. apply andb_true_iff in Ha' as [Hk Hv]. apply Z.leb_le in Hk, Hv.
  destruct (Z.ltb_spec MAX_KEY_SIZE (CacheKey_size key)); [lia|].
  destruct (Z.ltb_spec MAX_VALUE_SIZE (size_of v)); [lia|].
  pose proof MAX_VALUE_SIZE_small. pose proof CHUNK_SIZE_pos. rewrite split_value_eq by lia.
  apply ok_bind. cbn [ok]. apply ok_bind.
  eapply ok_impl; [|apply ok_quiet; [apply quiet_store|by apply store_ok]].
  intros r l1 c1 [Hl1 ->]. cbn match. cbn [ok]. intros busy l2 c2 Hl2 Hi2. cbn [exec events mc_put_descriptor].
  assert (size_of (Chunk_make <$> pieces v) = n_chunks v) as Hsz.
  { unfold size_of. rewrite length_fmap, pieces_length. pose proof (n_chunks_bounds v). lia. }
  split_and!; [|by apply Rel_same|].
  - unfold Inv, vals_of. rewrite foldl_snoc. unfold vals_event at 1. cbn [snd fst]. rewrite Hop.
    cbn [vals_step]. unfold put_accepted. rewrite Ha. fold (vals_of vals0 ops l2).
    split; cbn [with_descriptors mc_chunk_cache mc_descriptors vd_key]; [apply Hi2|apply Hi2|].
    intros k. destruct (decide (key = k)) as [<-|Hne].
    + rewrite !lookup_insert_eq. exists v. split_and!; [done| |done]. by split_and!.
    + rewrite !lookup_insert_ne by done. apply Hi2.
  - change (is_ok make_ok) with true. cbn match.
    eapply ok_impl; [|apply (ok_quiet _ _ (fun st => st = make_ok)); [by split|by apply ok_count]].
    intros st l3 c3 [(_ & He & _) ->]. split; [cbn; unfold put_accepted; by rewrite Ha|].
    unfold put_accepted. rewrite Ha, He, events_of_snoc. destruct Hl1 as (_ & E1 & _), Hl2 as (_ & E2 & _).
    by rewrite E2, E1, H0.
Qed.

Lemma remove_chunks_ok i ids : forall l c, ok i (fun _ _ _ => True) (remove_chunks_p ids) l c.
Proof.
  induction ids as [|id rest IH]; intros l c; cbn [remove_chunks_p]; [done|]. apply ok_bind, ok_bind.
  apply ok_step; [done|]. intros busy l1 c1 _ Hi1. cbn [exec].
  destruct (bc_remove_ok (mc_chunk_cache c1) id (inv_cache _ _ _ Hi1)) as (cc & E & Hwf & Em & _).
  rewrite E. cbn [mbind outcome_bind]. split_and!; [|exact (remove_impl_evolves _ _ _ _ E)|apply IH].
  split; cbn [with_chunks mc_chunk_cache mc_descriptors]; [done| |apply Hi1].
  intros j sc. rewrite Em, lookup_delete_Some. intros [_ Hj]. by apply (inv_chunks _ _ _ Hi1).
Qed.

Lemma remove_ok i key opts l c :
  ops !! i = Some (MRemove key opts) -> events_of i l = [] ->
  ok i (done_ok i (MRemove key opts)) (op_prog (MRemove key opts)) l c.
Proof.
  intros Hop H0. cbn [op_prog]. apply ok_bind, ok_look. intros l1 c1 desc Hl Hi Hd.
  destruct desc as [desc|].
  - destruct Hd as (v & Hv & _). apply ok_bind.
    eapply ok_impl; [|apply ok_quiet; [apply quiet_remove_chunks|apply remove_chunks_ok]].
    intros r l2 c2 [Hl2 _]. cbn [ok]. intros busy l3 c3 Hl3 Hi3. cbn [exec events mc_remove_descriptor].
    pose proof (looked _ _ _ _ _ _ _ H0 Hl (later_trans _ _ _ _ _ _ _ Hl2 Hl3)) as [Hpre Hev].
    split_and!; [|by apply Rel_same|].
    + unfold Inv, vals_of. rewrite foldl_snoc. unfold vals_event at 1. cbn [snd fst]. rewrite Hop.
      cbn [vals_step]. fold (vals_of vals0 ops l3).
      split; cbn [with_descriptors mc_chunk_cache mc_descriptors]; [apply Hi3|apply Hi3|].
      intros k. destruct (decide (key = k)) as [<-|Hne]; [by rewrite !lookup_delete_eq|].
      rewrite !lookup_delete_ne by done. apply Hi3.
    + exists l1. split_and!; [by apply prefix_app_r| |].
      * cbn [answer_ok]. by rewrite Hv, bool_decide_eq_true_2.
      * change (succeeded (MStatus make_ok)) with true. cbn match. by rewrite events_of_snoc, Hev.
  - destruct (looked _ _ _ _ _ _ _ H0 Hl (later_refl _ _ _)) as [? Hev]. exists l1.
    split_and!; [done| |done]. cbn [answer_ok]. by rewrite Hd.
Qed.

Lemma stop_ok i l c :
  ops !! i = Some MStop -> events_of i l = [] -> ok i (done_ok i MStop) (op_prog MStop) l c.
Proof.
  intros Hop H0. cbn [op_prog stop_p]. apply ok_bind. apply ok_step; [done|].
  intros busy l1 c1 (_ & E1 & _) Hi1. cbn [exec]. destruct (bc_clear_ok (mc_chunk_cache c1)) as (Hwf & Em & _).
  split_and!.
  - split; cbn [with_chunks mc_chunk_cache mc_descriptors]; [done| |apply Hi1].
    intros id sc. by rewrite Em, lookup_empty.
  - apply il_evolves_clear.
  - cbn [ok]. intros busy2 l2 c2 (_ & E2 & _) Hi2. cbn [exec events]. split_and!; [|by apply Rel_same|].
    + unfold Inv, vals_of. rewrite foldl_snoc. unfold vals_event at 1. cbn [snd fst]. rewrite Hop.
      cbn [vals_step]. split; cbn [with_descriptors mc_chunk_cache mc_descriptors]; [apply Hi2|apply Hi2|].
      intros k. by rewrite !lookup_empty.
    + split; [done|]. by rewrite events_of_snoc, E2, E1, H0.
Qed.

End safety.

(** ** Pools *)

Section pools.
Context (P : bytes -> Prop) (vals0 : gmap CacheKey bytes) (ops : list mc_op).

Record pool_ok (s : pool) : Prop := {
  pool_inv : Inv P vals0 ops (pl_log s) (pl_cache s);
  pool_threads : forall i op p, ops !! i = Some op -> pl_threads s !! i = Some p ->
    p = Fin Undef \/
    ok P vals0 ops i (fun res l _ => answered vals0 ops l i op res) p (pl_log s) (pl_cache s)
}.

Lemma answered_later i op res l c l' c' :
  later i l c l' c' -> answered vals0 ops l i op res -> answered vals0 ops l' i op res.
Proof.
  intros (Hp & He & _). unfold answered. destruct op; rewrite He.
  - intros (l1 & ? & ?). exists l1. split; [by etransitivity|done].
  - done.
  - intros (l1 & ? & ?). exists l1. split; [by etransitivity|done].
  - intros (l1 & ? & ?). exists l1. split; [by etransitivity|done].
  - done.
Qed.

Lemma events_of_other {A} i j (a : atom A) l : j <> i -> events_of j (l ++ events i a) = events_of j l.
Proof.
  intros Hne. unfold events_of. rewrite filter_app. destruct a; cbn [events];
    rewrite ?filter_nil, ?filter_cons_False by (simpl; congruence); rewrite ?filter_nil; apply app_nil_r.
Qed.

Lemma step_thread_ok s i : pool_ok s -> length (pl_threads s) = length ops ->
  pool_ok (step_thread s i).
Proof.
  intros [Hinv Hts] Hlen. unfold step_thread.
  destruct (pl_threads s !! i) as [[o|A a k]|] eqn:Ei; [by split| |by split].
  destruct (lookup_lt_is_Some_2 ops i) as [op Hop]; [rewrite <- Hlen; by eapply lookup_lt_Some|].
  destruct (Hts i op _ Hop Ei) as [?|Hok]; [done|]. cbn [ok] in Hok.
  specialize (Hok (busy_for (pl_threads s) i) _ _ (later_refl _ _ _) Hinv).
  destruct (exec (busy_for (pl_threads s) i) a (pl_cache s)) as [[r c']| | |]; [|done| |done].
  - destruct Hok as (Hinv' & HR & Hok). split; [done|]. cbn [pl_threads pl_log pl_cache].
    intros j opj p Hj Hp. apply list_lookup_insert_Some in Hp as [(<- & <- & _)|[Hne Hp]].
    { right. assert (opj = op) as -> by congruence. done. }
    destruct (Hts j opj p Hj Hp) as [?|Hokj]; [by left|]. right.
    eapply ok_later; [| |exact Hokj]; [intros; by eapply answered_later|].
    split_and!; [by apply prefix_app_r|by apply events_of_other|done].
  - split; [done|]. cbn [pl_threads pl_log pl_cache].
    intros j opj p Hj Hp. apply list_lookup_insert_Some in Hp as [(<- & <- & _)|[Hne Hp]]; [by left|].
    by apply (Hts j).
Qed.

Lemma run_schedule_ok sched : forall s, pool_ok s -> length (pl_threads s) = length ops ->
  pool_ok (run_schedule sched s) /\ length (pl_threads (run_schedule sched s)) = length ops.
Proof.
  induction sched as [|i sched IH]; intros s Hs Hlen; [done|]. cbn [run_schedule foldl]. apply IH.
  - by apply step_thread_ok.
  - by rewrite step_thread_length.
Qed.

Context (Hnc : no_collision P) (HP : Forall P (concat (op_pieces <$> ops))) (Hops : Forall op_ok ops).

Lemma op_prog_ok i op c : ops !! i = Some op ->
  ok P vals0 ops i (fun res l _ => answered vals0 ops l i op res) (op_prog op) [] c.
Proof.
  intros Hop. assert (op_ok op) as Hok by (by eapply Forall_lookup_1 in Hops).
  assert (Forall P (op_pieces op)) as HPo.
  { apply Forall_concat in HP. rewrite Forall_fmap in HP. by eapply Forall_lookup_1 in HP. }
  destruct op; [by apply get_ok|by apply put_ok|by apply remove_ok|by apply check_ok|by apply stop_ok].
Qed.

Lemma pool_of_ok c : mc_inv P vals0 c -> pool_ok (pool_of c ops).
Proof.
  intros Hinv. split; [exact Hinv|]. cbn [pool_of pl_threads pl_log pl_cache]. intros i op p Hop Hp.
  rewrite list_lookup_fmap, Hop in Hp. injection Hp as <-. right. by apply op_prog_ok.
Qed.

Lemma pool_run_ok sched c : mc_inv P vals0 c -> pool_ok (run_schedule sched (pool_of c ops)).
Proof. intros Hinv. apply run_schedule_ok; [by apply pool_of_ok|]. cbn. apply length_fmap. Qed.

Lemma finished_answer s i op o : pool_ok s -> ops !! i = Some op -> pl_threads s !! i = Some (Fin o) ->
  o = Undef \/ exists res, o = Done res /\ answered vals0 ops (pl_log s) i op res.
Proof.
  intros [_ Hts] Hop Hi. destruct (Hts i op _ Hop Hi) as [[= ->]|Hok]; [by left|].
  cbn [ok] in Hok. destruct o; try done. eauto.
Qed.

End pools.

(** ** Readers only *)

(** The operations that only read. *)
Definition reads (op : mc_op) : bool := match op with MGet _ _ _ | MCheck _ _ => true | _ => false end.

Section readers.
Context (m : gmap ChunkId SharedChunk) (ds : gmap CacheKey ValueDescriptor).

(** Readers change the order of the nodes, not what they hold. *)
Definition holds (c : Cache) : Prop :=
  arc_wf chunk_size_fn (mc_chunk_cache c) /\ arc_map (mc_chunk_cache c) = m /\ mc_descriptors c = ds.

Definition grows (c c' : Cache) : Prop :=
  arc_evolves (mc_chunk_cache c) (mc_chunk_cache c') /\ arc_keeps (mc_chunk_cache c) (mc_chunk_cache c').

#[local] Instance grows_preorder : PreOrder grows.
Proof. split; [intros c; by split|]. intros c1 c2 c3 [H1 K1] [H2 K2]. split; by etransitivity. Qed.

(** Whatever other readers do between its actions, the program ends, and with the result [r]. *)
Fixpoint gives {R} (r : R) (p : prog R) (c : Cache) : Prop :=
  match p with
  | Fin o => o = Done r
  | Act a k =>
      forall busy c', grows c c' -> holds c' ->
      match exec busy a c' with
      | Done (x, c2) => holds c2 /\ grows c' c2 /\ gives r (k x) c2
      | _ => False
      end
  end.

(** One result for all interleavings. *)
Definition steady_answer {R} (p : prog R) : Prop := exists r, forall c, gives r p c.

Lemma gives_bind {R S} (p : prog R) (f : R -> prog S) r s : forall c,
  gives r p c -> (forall c', gives s (f r) c') -> gives s (p ≫= f) c.
Proof.
  induction p as [o|A a k IH]; intros c Hp Hf; [cbn in Hp; by subst|].
  change (Act a k ≫= f) with (Act a (fun x => k x ≫= f)). cbn [gives] in *. intros busy c' Hg Hh.
  specialize (Hp busy c' Hg Hh). destruct (exec busy a c') as [[x c2]| | |]; try done. destruct Hp as (? & ? & Hp).
  split_and!; [done..|]. by apply IH.
Qed.

Lemma undisturbed_bind {R S} (p : prog R) (f : R -> prog S) :
  steady_answer p -> (forall r, steady_answer (f r)) -> steady_answer (p ≫= f).
Proof. intros [r Hp] Hf. destruct (Hf r) as [s Hs]. exists s. intros c. by eapply gives_bind. Qed.

Lemma undisturbed_ret {R} (r : R) : steady_answer (mret r).
Proof. by exists r. Qed.

Lemma gives_grows {R} (r : R) p c c' : grows c c' -> gives r p c -> gives r p c'.
Proof. intros Hg. destruct p as [o|A a k]; [done|]. intros Hp busy c2 Hg2. apply Hp. by etransitivity. Qed.

Lemma steady_count x n : steady_answer (act (AAdd x n)).
Proof.
  exists tt. intros c busy c' _ (Hwf & Hm & Hd). cbn [exec].
  assert (mc_chunk_cache (add_counter c' x n) = mc_chunk_cache c' /\
          mc_descriptors (add_counter c' x n) = mc_descriptors c') as [Ec Ed] by (by destruct c', x).
  unfold holds, grows. rewrite Ec, Ed. done.
Qed.

Lemma steady_look key : steady_answer (act (AGetDescriptor key)).
Proof.
  exists (ds !! key). intros c busy c' _ Hh. pose proof Hh as (_ & _ & Hd). cbn [exec gives]. split_and!; [done..|].
  unfold mc_get_descriptor. by rewrite Hd.
Qed.

Lemma steady_contains id : steady_answer (act (AArcContains id)).
Proof.
  exists (bool_decide (is_Some (m !! id))). intros c busy c' _ Hh. pose proof Hh as (Hwf & Hm & _). cbn [exec gives].
  split_and!; [done..|]. rewrite bc_contains_ok by done. change (bc_map (mc_chunk_cache c')) with (arc_map (mc_chunk_cache c')).
  by rewrite Hm.
Qed.

(** The copy finds the node the lookup found, and in it the value the cache holds for the key. *)
Lemma steady_get_chunk id : steady_answer (get_chunk_p id).
Proof.
  exists (default None (m !! id)). intros c. cbn [get_chunk_p]. intros busy c1 _ (Hwf1 & Hm1 & Hd1). cbn [exec].
  destruct (get_ptr_spec _ (mc_chunk_cache c1) id Hwf1) as (p & cc & -> & Hwf & Em & _ & _ & Hev & Hkp & Hp).
  cbn [mbind outcome_bind]. assert (holds (with_chunks c1 cc)) as Hh by (split_and!; [done|by rewrite <- Hm1|done]).
  split_and!; [done|by split|]. destruct p as [it|]; [|cbn; by rewrite <- Hm1, Hp].
  destruct Hp as (e & He & Hk). pose proof (wf_next _ _ (wf_t2 _ _ Hwf) it e He) as Hlt.
  assert (forall c2, grows (with_chunks c1 cc) c2 -> holds c2 -> deref_ptr (mc_chunk_cache c2) it = Done (default None (m !! id))) as Hcopy.
  { intros c2 [Hev2 Hk2] (Hwf2 & Hm2 & _). cbn [with_chunks mc_chunk_cache] in *. destruct (Hk2 it e He) as [e2 He2].
    destruct (ev_nodes _ _ Hev2 it e2 He2 Hlt) as (x & Hx & Ex).
    assert (x = e) as ->.
    { pose proof (wf_addr _ _ (wf_t2 _ _ Hwf)) as Hnd. apply (node_find_spec _ _ _ Hnd) in Hx, He. congruence. }
    unfold deref_ptr, il_deref.
    rewrite (proj2 (node_find_spec (il_nodes (t2_ (mc_chunk_cache c2))) it e2 (wf_addr _ _ (wf_t2 _ _ Hwf2))) He2).
    assert (arc_map (mc_chunk_cache c2) !! id = Some (e_value e2)) as Hv; [|by rewrite <- Hm2, Hv].
    rewrite <- Hk, Ex. apply (arc_map_elem chunk_size_fn); [done|]. unfold arc_entries. apply elem_of_app. right.
    apply elem_of_entries. eauto. }
  intros busy2 c2 Hg2 Hh2. cbn [exec]. rewrite (Hcopy c2 Hg2 Hh2). cbn [mbind outcome_bind]. split_and!; [done..|].
  intros busy3 c3 Hg3 Hh3. cbn [exec]. rewrite (Hcopy c3) by (done || by etransitivity). done.
Qed.

Lemma steady_fetch desc ap indices : forall chunks af, steady_answer (fetch_p desc ap indices chunks af).
Proof.
  induction indices as [|idx rest IH]; intros chunks af; cbn [fetch_p]; [apply undisturbed_ret|].
  destruct (vd_chunks desc !! Z.to_nat idx); [|apply undisturbed_ret]. apply undisturbed_bind; [apply steady_get_chunk|].
  intros [ch|]; [apply IH|]. destruct ap; [apply IH|apply undisturbed_ret].
Qed.

Lemma steady_get now key opts : steady_answer (get_p now key opts).
Proof.
  assert (forall x n R (r : R), steady_answer (_ ← act (AAdd x n); mret r)) as Hcount.
  { intros x n R r. apply undisturbed_bind; [apply steady_count|]. intros _. apply undisturbed_ret. }
  apply undisturbed_bind; [apply steady_look|]. intros [desc|]; [|apply Hcount]. unfold get_found_p.
  destruct (is_expired _ _); [apply Hcount|]. destruct (_ <=? _); [apply undisturbed_ret|].
  apply undisturbed_bind; [apply steady_fetch|]. intros [chunks af]. unfold finish_p. destruct (_ || _); [apply Hcount|].
  apply undisturbed_bind; [apply steady_count|]. intros _. apply Hcount.
Qed.

Lemma steady_mark desc indices : forall p, steady_answer (mark_p desc indices p).
Proof.
  induction indices as [|idx rest IH]; intros p; cbn [mark_p]; [apply undisturbed_ret|].
  destruct (_ <? _); [|apply IH]. destruct (vd_chunks desc !! Z.to_nat idx); [|apply IH].
  apply undisturbed_bind; [apply steady_contains|]. intros has. apply IH.
Qed.

Lemma steady_op op : reads op = true -> steady_answer (op_prog op).
Proof.
  intros Hr. destruct op as [now key opts| | |key range|]; try done; cbn [op_prog].
  - apply undisturbed_bind; [apply steady_get|]. intros r. apply undisturbed_ret.
  - apply undisturbed_bind; [|intros r; apply undisturbed_ret]. apply undisturbed_bind; [apply steady_look|].
    intros [desc|]; [|apply undisturbed_ret]. apply undisturbed_bind; [apply steady_mark|]. intros p. apply undisturbed_ret.
Qed.

Lemma gives_alone {R} (r : R) p : forall c, holds c -> gives r p c -> exists c', run_alone p c = Done (r, c').
Proof.
  induction p as [o|A a k IH]; intros c Hh Hp; cbn in *; [subst; by eexists|].
  specialize (Hp [] c ltac:(done) Hh). destruct (exec [] a c) as [[x c2]| | |]; try done.
  destruct Hp as (Hh2 & _ & Hp). by apply IH.
Qed.

(** Every program of a pool of readers keeps its answer. *)
Lemma readers_step s i results :
  holds (pl_cache s) -> Forall2 (fun r p => gives r p (pl_cache s)) results (pl_threads s) ->
  holds (pl_cache (step_thread s i)) /\
  Forall2 (fun r p => gives r p (pl_cache (step_thread s i))) results (pl_threads (step_thread s i)).
Proof.
  intros Hh Hall. unfold step_thread. destruct (pl_threads s !! i) as [[o|A a k]|] eqn:Ei; [done| |done].
  destruct (Forall2_lookup_r _ _ _ _ _ Hall Ei) as (r & Hr & Hg). cbn [gives] in Hg.
  specialize (Hg (busy_for (pl_threads s) i) (pl_cache s) ltac:(done) Hh).
  destruct (exec _ a (pl_cache s)) as [[x c2]| | |]; try done. destruct Hg as (Hh2 & Hgr & Hg). cbn [pl_cache pl_threads].
  split; [done|]. rewrite <- (list_insert_id results i r) by done. apply Forall2_insert; [|done].
  eapply Forall2_impl; [exact Hall|]. intros r' p. by apply gives_grows.
Qed.

Lemma readers_run sched results : forall s,
  holds (pl_cache s) -> Forall2 (fun r p => gives r p (pl_cache s)) results (pl_threads s) ->
  Forall2 (fun r p => gives r p (pl_cache (run_schedule sched s))) results (pl_threads (run_schedule sched s)).
Proof.
  induction sched as [|i sched IH]; intros s Hh Hall; [done|]. destruct (readers_step s i results Hh Hall). by apply IH.
Qed.

Lemma gives_finished results (ts : list (prog mc_res)) c :
  Forall2 (fun r p => gives r p c) results ts -> Forall (fun p => finished p = true) ts -> ts = Fin ∘ Done <$> results.
Proof.
  induction 1 as [|r p rs ts Hp _ IH]; [done|]. intros [Hf Hfs]%Forall_cons. destruct p as [o|]; [|discriminate].
  cbn in Hp. subst. rewrite fmap_cons. by rewrite IH.
Qed.

End readers.

(** *** A lookup and a removal of one chunk *)

Lemma exec_remove busy (c : Cache) id b cc : remove_impl (mc_chunk_cache c) id = Done (b, cc) ->
  exec busy (AArcRemove id) c = Done (b, with_chunks c cc).
Proof.
  intros E. cbn [exec]. change (bc_remove (mc_chunk_cache c) id) with (remove_impl (mc_chunk_cache c) id).
  by rewrite E.
Qed.

(** A chunk looked up, then removed by another program: the pointer dangles. *)
Lemma get_then_remove P vals c id :
  mc_inv P vals c -> is_Some (resident c id) ->
  exists it c1 c2 b, (forall busy, exec busy (AArcGet id) c = Done (Some it, c1)) /\ mc_descriptors c1 = mc_descriptors c /\
    (forall busy, exec busy (AArcRemove id) c1 = Done (b, c2)) /\ (forall busy, exec busy (ACopy it) c2 = Undef).
Proof.
  intros Hinv [ch Hres]. cbn [exec].
  destruct (get_ptr_spec _ (mc_chunk_cache c) id (inv_cache _ _ _ Hinv))
    as (p & cc & -> & Hwf & Em & _ & _ & _ & _ & Hp). cbn [mbind outcome_bind].
  destruct p as [it|].
  2: { unfold resident in Hres. change (bc_map (mc_chunk_cache c)) with (arc_map (mc_chunk_cache c)) in Hres.
       by rewrite Hp in Hres. }
  destruct Hp as (e & He & Hk). exists it, (with_chunks c cc). cbn [with_chunks mc_chunk_cache].
  destruct (remove_impl_spec chunk_size_fn cc id Hwf) as (cc2 & Er & Hwf2 & Em2 & _).
  eexists _, _. split_and!; [done|done|intros busy; exact (exec_remove busy (with_chunks c cc) id _ cc2 Er)|]. intros busy. cbn [exec]. cbn [with_chunks mc_chunk_cache]. unfold deref_ptr.
  destruct (il_deref (t2_ cc2) it) as [e2|] eqn:E; [|done]. exfalso. apply node_find_elem in E.
  pose proof (remove_impl_evolves cc id _ cc2 Er) as [_ Hev].
  destruct (Hev it e2 E) as (x & Hx & Ex); [eapply wf_next; [apply (wf_t2 _ _ Hwf)|done]|].
  pose proof (wf_addr _ _ (wf_t2 _ _ Hwf)) as Hnd. apply (node_find_spec _ _ _ Hnd) in Hx, He.
  assert (arc_map cc2 !! id = Some (e_value e2)) as Hm.
  { replace id with (e_key e2) by congruence. apply (arc_map_elem chunk_size_fn); [done|].
    unfold arc_entries. apply elem_of_app. right. apply elem_of_entries. eauto. }
  by rewrite Em2, lookup_delete_eq in Hm.
Qed.

(** A whole read of a stored value starts with the chunk with index 0. *)
Lemma first_chunk_read P vals c key v : mc_inv P vals c -> vals !! key = Some v -> v <> [] ->
  exists desc ids, mc_descriptors c !! key = Some desc /\ vd_chunks desc = content_hash (piece v 0) :: ids /\
  forall now opts, ro_range opts = None -> is_expired now (vd_metadata desc) = false ->
  exists k, get_found_p now desc opts = Act (AArcGet (content_hash (piece v 0))) k /\
    forall it, exists k', k (Some it) = Act (ACopy it) k'.
Proof.
  intros Hinv Hv Hne. pose proof (inv_descs _ _ _ Hinv key) as Hd.
  destruct (mc_descriptors c !! key) as [desc|]; [|congruence].
  destruct Hd as (v' & Hv' & Hdesc & _). assert (v' = v) as -> by congruence.
  pose proof (n_chunks_bounds v) as [Hn Hb]. pose proof CHUNK_SIZE_pos. pose proof (size_of_nonneg v).
  assert (0 < size_of v) as Hpos by (destruct v; [done|rewrite size_of_cons; pose proof (size_of_nonneg v); lia]).
  pose proof (describes_lookup key desc v 0 Hdesc ltac:(nia)) as Hl.
  change (Z.to_nat 0) with 0%nat in Hl.
  destruct (vd_chunks desc) as [|id ids] eqn:Ec; [done|]. injection Hl as ->.
  exists desc, ids. split_and!; [done..|]. intros now opts Hro Hex. unfold get_found_p. rewrite Hex, Hro.
  pose proof Hdesc as (_ & Ht & _ & Hmax). pose proof MAX_VALUE_SIZE_small. rewrite Ht. cbn [r_offset r_length].
  destruct (Z.leb_spec (size_of v) 0); [lia|]. rewrite (u64_small (size_of v - 0)) by (split; lia).
  rewrite (chunks_for_value key desc v) by (done || lia).
  pose proof (chunk_span_bounds 0 (Z.min (size_of v) (size_of v - 0)) ltac:(lia) ltac:(lia)) as (_ & Hsp & _).
  change (first_chunk 0) with 0. rewrite (seqZ_cons 0) by lia. cbn [fetch_p]. rewrite Ec. cbn [lookup list_lookup Z.to_nat].
  eexists. split; [reflexivity|]. intros it. by eexists.
Qed.

Lemma run_act i sched s {A} (a : atom A) k r c' :
  pl_threads s !! i = Some (Act a k) -> (forall busy, exec busy a (pl_cache s) = Done (r, c')) ->
  run_schedule (i :: sched) s
  = run_schedule sched (mkPool c' (<[i := k r]> (pl_threads s)) (pl_log s ++ events i a)).
Proof. intros Hi He. cbn [run_schedule foldl]. unfold step_thread at 2. by rewrite Hi, He. Qed.

Lemma run_undef s i {A} (a : atom A) k :
  pl_threads s !! i = Some (Act a k) -> (forall busy, exec busy a (pl_cache s) = Undef) -> crashed (run_schedule [i] s) i.
Proof.
  intros Hi He. cbn [run_schedule foldl]. unfold step_thread, crashed. rewrite Hi, He. cbn [pl_threads].
  apply list_lookup_insert_eq. by eapply lookup_lt_Some.
Qed.

End threads.
Arguments Fin {R} o.
Arguments Act {R A} a k.

(** ** Properties *)

Section properties.
Context `{HH : Hasher}.

(** C8: operations of any number of threads on a new memory cache, interleaved in any way at their
    critical sections: in every run in which no thread has copied a chunk through a pointer to an erased
    node or assigned to a node that was being copied ([crashed]; [mt_use_after_free] and
    [mt_overwrite_race] show such runs), every finished operation has answered as the map of values allows at the moment it read the map of
    descriptors, every accepted [put] and [remove] has taken effect exactly once, and the cache stands for
    the values these effects leave, in the order in which they happened. *)
Theorem mt_linearizable max_size ops sched :
  no_collision (fun d => d ∈ concat (op_pieces <$> ops)) -> Forall op_ok ops ->
  let s := run_schedule sched (pool_of (mc_make max_size) ops) in
  (forall i, ~ crashed s i) ->
  mc_inv (fun d => d ∈ concat (op_pieces <$> ops)) (vals_of ∅ ops (pl_log s)) (pl_cache s) /\
  (forall i op o, ops !! i = Some op -> pl_threads s !! i = Some (Fin o) ->
     exists res, o = Done res /\ answered ∅ ops (pl_log s) i op res).
Proof.
  intros Hnc Hops s Hcr.
  assert (pool_ok (fun d => d ∈ concat (op_pieces <$> ops)) ∅ ops s) as Hs.
  { apply pool_run_ok; [done|by apply Forall_forall|done|apply mc_make_inv]. }
  split; [apply (pool_inv _ _ _ _ Hs)|]. intros i op o Hop Hi.
  destruct (finished_answer _ _ _ s i op o Hs Hop Hi) as [->|?]; [|done].
  by destruct (Hcr i).
Qed.

(** C27: any number of lookups at once, on a cache that holds values: under every fair schedule all of
    them finish, no pointer dangles, and each gives the very answer the operation gives when it runs
    alone on the cache as it was, hit or miss, whatever the interleaving. *)
Theorem mt_readers_safe P vals c ops sched :
  mc_inv P vals c -> counters_ok c -> Forall (fun op => reads op = true) ops -> fair sched (length ops) ->
  exists n results, pl_threads (run_schedule (turns sched n) (pool_of c ops)) = Fin ∘ Done <$> results /\
    Forall2 (fun op res => exists c', mc_step c op = Done (res, c')) ops results.
Proof.
  intros Hinv Hcnt Hr Hf. destruct (fair_finishes (pool_of c ops) sched) as [n Hn].
  { cbn. by rewrite length_fmap. }
  set (m := arc_map (mc_chunk_cache c)). set (ds := mc_descriptors c).
  assert (holds m ds c) as Hh by (split_and!; [apply (inv_cache _ _ _ Hinv)|done..]).
  assert (exists results, Forall2 (fun op r => forall c, gives m ds r (op_prog op) c) ops results) as [results Hres].
  { clear -Hr. induction Hr as [|op ops Hop _ [rs IH]]; [by exists []|]. destruct (steady_op m ds op Hop) as [r Hg].
    exists (r :: rs). by constructor. }
  exists n, results. split.
  - eapply gives_finished; [|exact Hn]. apply readers_run; [exact Hh|]. cbn [pool_of pl_threads pl_cache].
    apply Forall2_fmap_r. apply Forall2_flip. eapply Forall2_impl; [exact Hres|]. intros op r Hg. apply Hg.
  - eapply Forall2_impl; [exact Hres|]. intros op r Hg. rewrite <- run_op by done. by apply (gives_alone m ds).
Qed.

(** C40: [get_chunk] copies the chunk after the lock of the chunk cache is released. Whenever a stored value
    is read while its key is removed, there is an interleaving, the removal of the first chunk between
    the lookup and the copy, in which the copy reads a node that has been freed. *)
Theorem mt_use_after_free P vals now c key v ropts dopts :
  no_collision P -> mc_inv P vals c -> vals !! key = Some v -> v <> [] -> ro_range ropts = None ->
  (forall md, mc_metadata c key = Some md -> is_expired now md = false) ->
  is_Some (resident c (content_hash (piece v 0))) ->
  crashed (run_schedule [0; 0; 1; 1; 0]%nat (pool_of c [MGet now key ropts; MRemove key dopts])) 0.
Proof.
  intros Hnc Hinv Hv Hne Hro Hex Hres.
  destruct (first_chunk_read P vals c key v Hinv Hv Hne) as (desc & ids & Ed & Hch & Hidx).
  unfold mc_metadata, mc_get_descriptor in Hex. rewrite Ed in Hex. specialize (Hex _ eq_refl).
  destruct (get_then_remove P vals c (content_hash (piece v 0)) Hinv Hres)
    as (it & c1 & c2 & b & E1 & Ed1 & E2 & E3).
  destruct (Hidx now ropts Hro Hex) as (k & Ek & Hk). destruct (Hk it) as [k' Ek'].
  erewrite run_act; [|reflexivity|intros busy; cbn [exec pool_of pl_cache]; unfold mc_get_descriptor; by rewrite Ed].
  erewrite run_act; [|cbn; rewrite Ek; reflexivity|exact E1].
  erewrite run_act; [|reflexivity|intros busy; cbn [exec pl_cache]; unfold mc_get_descriptor; by rewrite Ed1, Ed].
  erewrite run_act; [|cbn; rewrite Hch; reflexivity|exact E2].
  eapply run_undef; [cbn; rewrite Ek'; reflexivity|exact E3].
Qed.

End properties.

(** ** Witnesses *)

#[local] Existing Instance fnv_hasher.

Abbreviation sample_get now key := (MGet now (sample_key key) ReadOptions_default).
Abbreviation sample_remove key := (MRemove (sample_key key) DeleteOptions_default).

(** A [put] and two lookups of its key, the first of which runs in the middle of it. *)
Definition sample_ops : list mc_op :=
  [MPut 0 (sample_key "a") sample_value WriteOptions_default; sample_get 1 "a"; sample_get 2 "a"].

Definition sample_turns : list nat := [0; 0; 1; 1; 0; 0; 2; 2; 2; 2; 2; 2]%nat.

Definition sample_read : ReadResult :=
  mkReadResult Hit sample_value (mkRange 0 5) (Some (put_metadata 0 sample_value 1 WriteOptions_default)).

Lemma mt_linearizable_witness :
  let s := run_schedule sample_turns (pool_of (mc_make 100) sample_ops) in
  pl_log s = [(1%nat, Look); (0%nat, Effect); (2%nat, Look)] /\
  pl_threads s !! 2%nat = Some (Fin (Done (MRead sample_read))) /\
  answered ∅ sample_ops (pl_log s) 2 (sample_get 2 "a") (MRead sample_read).
Proof.
  destruct (mt_linearizable 100 sample_ops sample_turns) as [_ H].
  - unfold sample_ops. cbn [fmap list_fmap concat op_pieces]. rewrite sample_pieces. simpl.
    intros a b Ha Hb _. apply list_elem_of_singleton in Ha, Hb. congruence.
  - repeat constructor.
  - intros [|[|[|i]]]; vm_compute; discriminate.
  - assert (pl_threads (run_schedule sample_turns (pool_of (mc_make 100) sample_ops)) !! 2%nat
            = Some (Fin (Done (MRead sample_read)))) as E by (vm_compute; reflexivity).
    split; [vm_compute; reflexivity|]. split; [exact E|].
    destruct (H 2%nat (sample_get 2 "a") _ eq_refl E) as (res & [= <-] & Ha). exact Ha.
Defined.

Lemma mt_readers_safe_witness :
  exists n results, pl_threads (run_schedule (turns (fun k => k mod 2)%nat n)
      (pool_of sample_mc [sample_get 1 "a"; MCheck (sample_key "b") None])) = Fin ∘ Done <$> results /\
    Forall2 (fun op res => exists c', mc_step sample_mc op = Done (res, c')) [sample_get 1 "a"; MCheck (sample_key "b") None] results.
Proof.
  apply (mt_readers_safe only_sample (<[sample_key "b" := sample_value]> (<[sample_key "a" := sample_value]> ∅))).
  - apply sample_mc_inv.
  - repeat split; vm_compute; congruence.
  - repeat constructor.
  - intros i m Hi. exists (i + m * 2)%nat. split; [lia|]. rewrite Nat.Div0.mod_add.
    apply Nat.mod_small. exact Hi.
Defined.

Lemma mt_use_after_free_witness :
  crashed (run_schedule [0; 0; 1; 1; 0]%nat (pool_of sample_mc [sample_get 1 "a"; sample_remove "a"])) 0.
Proof.
  apply (mt_use_after_free only_sample
    (<[sample_key "b" := sample_value]> (<[sample_key "a" := sample_value]> ∅)) 1 sample_mc (sample_key "a")
    sample_value).
  - apply only_sample_ok.
  - apply sample_mc_inv.
  - reflexivity.
  - discriminate.
  - reflexivity.
  - intros md E. vm_compute in E. injection E as <-. reflexivity.
  - exists (stored sample_value). vm_compute. reflexivity.
Defined.

(** Two removals of one key can both report success: each looked before the other erased. *)
Lemma removes_both_succeed :
  let s := run_schedule [0; 1; 0; 0; 1; 1]%nat (pool_of sample_mc [sample_remove "a"; sample_remove "a"]) in
  pl_threads s = [Fin (Done (MStatus make_ok)); Fin (Done (MStatus make_ok))].
Proof. vm_compute. reflexivity. Qed.

(** A value is read while the same contents are put under another key: the [put] assigns to the chunk's node in
    the middle of the copy. *)
Lemma mt_overwrite_race :
  crashed (run_schedule [0; 0; 0; 1]%nat
    (pool_of sample_mc [sample_get 1 "a"; MPut 2 (sample_key "b") sample_value WriteOptions_default])) 1.
Proof. vm_compute. reflexivity. Qed.
