(* ===== verification/CacheTier.v ===== *)
(** * What the tiers promise: [class ICache] of [include/elcache/cache.hpp]

    The operations the coordinator calls on a tier, as a class with the contract both tiers keep: an
    abstract map of the value each key was last given, from which a tier may lose data but never
    return other data. The memory tier is an instance here, the disk tier in [DiskCache]. *)

From S2P Require Import Prelude Types Chunk CacheApi CacheInterface ArcCache MemoryCache.
Open Scope Z_scope.

Class CacheTier := {
  tier_state : Type;
  tier_get : Z -> tier_state -> CacheKey -> ReadOptions -> outcome (ReadResult * tier_state);
  tier_put : Z -> tier_state -> CacheKey -> bytes -> WriteOptions -> outcome (Status * tier_state);
  tier_remove : tier_state -> CacheKey -> DeleteOptions -> outcome (Status * tier_state);
  tier_check : tier_state -> CacheKey -> option Range -> AvailabilityResult;
  tier_metadata : tier_state -> CacheKey -> option CacheMetadata;
  tier_stats : tier_state -> Stats;
  tier_start : tier_state -> outcome (Status * tier_state);
  tier_stop : tier_state -> tier_state;

  (** [tier_inv vals c]: [c] stands for the map [vals]. *)
  tier_inv : gmap CacheKey bytes -> tier_state -> Prop;
  (** Values the contract speaks of, and which of them a put takes. *)
  tier_value : bytes -> Prop;
  tier_accepts : CacheKey -> bytes -> bool;

  tier_get_ok : forall vals now c key opts, tier_inv vals c -> opts_ok opts ->
    exists r c', tier_get now c key opts = Done (r, c') /\ tier_inv vals c' /\
      (rr_result r = Hit -> exists v, vals !! key = Some v /\ rr_data r = wanted opts v) /\
      (vals !! key = None -> r = ReadResult_default);
  tier_put_ok : forall vals now c key v opts, tier_inv vals c -> tier_value v ->
    exists st c', tier_put now c key v opts = Done (st, c') /\ is_ok st = tier_accepts key v /\
      tier_inv (if tier_accepts key v then <[key := v]> vals else vals) c';
  tier_remove_ok : forall vals c key opts, tier_inv vals c ->
    exists st c', tier_remove c key opts = Done (st, c') /\ tier_inv (delete key vals) c' /\
      is_ok st = bool_decide (is_Some (vals !! key));
  tier_check_ok : forall vals c key range, tier_inv vals c ->
    av_exists (tier_check c key range) = bool_decide (is_Some (vals !! key));
  tier_metadata_ok : forall vals c key, tier_inv vals c ->
    match vals !! key with
    | Some v => exists md, tier_metadata c key = Some md /\ md_total_size md = size_of v /\ size_of v <= MAX_VALUE_SIZE
    | None => tier_metadata c key = None
    end
}.

Section memory_tier.
Context `{HH : Hasher} `{BC : !BoundedCache ChunkId SharedChunk chunk_size_fn}.
Context (P : bytes -> Prop) (Hnc : no_collision P).

Lemma memory_tier_put vals now c key v opts :
  mc_inv P vals c -> Forall P (pieces v) ->
  exists st c', mc_put now c key v opts = Done (st, c') /\ is_ok st = put_accepted key v /\
    mc_inv P (if put_accepted key v then <[key := v]> vals else vals) c'.
Proof.
  intros Hinv HP. destruct (put_accepted key v) eqn:Ha.
  - destruct (mc_put_spec P vals now c key v opts Hnc Hinv HP Ha) as (c' & -> & Hinv' & _). by exists make_ok, c'.
  - destruct (mc_put_rejected now c key v opts Ha) as (st & -> & Hst). by exists st, c.
Qed.

Lemma memory_tier_get vals now c key opts :
  mc_inv P vals c -> opts_ok opts ->
  exists r c', mc_get now c key opts = Done (r, c') /\ mc_inv P vals c' /\
    (rr_result r = Hit -> exists v, vals !! key = Some v /\ rr_data r = wanted opts v) /\
    (vals !! key = None -> r = ReadResult_default).
Proof.
  intros Hinv Hopts. destruct (mc_get_spec P vals now c key opts Hnc Hinv Hopts) as (r & c' & E & Hs & Hn & Hh & _).
  exists r, c'. split_and!; [done|by eapply mc_same_inv| |done]. intros Hit. destruct (Hh Hit) as (v & ? & ? & _). eauto.
Qed.

Lemma memory_tier_remove vals c key opts :
  mc_inv P vals c ->
  exists st c', mc_remove c key opts = Done (st, c') /\ mc_inv P (delete key vals) c' /\
    is_ok st = bool_decide (is_Some (vals !! key)).
Proof. apply mc_remove_spec. Qed.

Lemma memory_tier_check vals c key range :
  mc_inv P vals c -> av_exists (mc_check c key range) = bool_decide (is_Some (vals !! key)).
Proof.
  intros Hinv. pose proof (inv_descs _ _ _ Hinv key) as Hd. unfold mc_check, mc_get_descriptor.
  destruct (mc_descriptors c !! key) as [desc|]; [|by rewrite Hd].
  destruct Hd as (v & -> & _). by rewrite bool_decide_eq_true_2.
Qed.

Lemma memory_tier_metadata vals c key :
  mc_inv P vals c ->
  match vals !! key with
  | Some v => exists md, mc_metadata c key = Some md /\ md_total_size md = size_of v /\ size_of v <= MAX_VALUE_SIZE
  | None => mc_metadata c key = None
  end.
Proof.
  intros Hinv. pose proof (inv_descs _ _ _ Hinv key) as Hd. unfold mc_metadata, mc_get_descriptor.
  destruct (mc_descriptors c !! key) as [desc|]; [|by rewrite Hd].
  destruct Hd as (v & -> & [[_ Hmd] (_ & _ & Hmax)] & _). by eexists.
Qed.

Definition memory_tier : CacheTier := {|
  tier_state := MemoryCache;
  tier_get := mc_get; tier_put := mc_put; tier_remove := mc_remove; tier_check := mc_check;
  tier_metadata := mc_metadata; tier_stats := mc_stats; tier_start := fun c => Done (mc_start c); tier_stop := mc_stop;
  tier_inv := mc_inv P; tier_value := fun v => Forall P (pieces v); tier_accepts := put_accepted;
  tier_get_ok := memory_tier_get; tier_put_ok := memory_tier_put; tier_remove_ok := memory_tier_remove;
  tier_check_ok := memory_tier_check; tier_metadata_ok := memory_tier_metadata
|}.
End memory_tier.
