(* ===== verification/Codec.v ===== *)
(** * The cluster wire protocol: [include/elcache/protocol.hpp], [src/protocol/codec.cpp],
      [src/protocol/protocol.cpp]

    Messages, the header, [Codec::encode] and [Codec::decode]. An encoder gives the bytes it appends to
    the buffer; a decoder takes the [ByteView] and returns the value and the rest of it. A read of
    [data[0]] on an empty view is [Undef]. [memcpy] of header fields is little-endian, as on the hosts
    the code is built for. *)

From S2P Require Import Prelude CStd CDouble Types.
From Stdlib Require Import Strings.Byte.
Open Scope Z_scope.

(** ** Message types *)

Definition VERSION : Z := 1.
Definition MAGIC : Z := 0x454C4341.

Inductive MessageType :=
| THello | THelloAck
| TGossipPush | TGossipPull | TGossipAck
| TGet | TGetResponse | TPut | TPutResponse | TDelete | TDeleteResponse | TCheck | TCheckResponse
| TGetChunk | TGetChunkResponse | TPutChunk | TPutChunkResponse | THasChunk | THasChunkResponse
| TStreamStart | TStreamData | TStreamEnd | TStreamAck | TStreamAbort
| TNodeJoin | TNodeLeave | TNodeStatus
| TError.

(** The enumerator values. *)
Definition type_code (t : MessageType) : Z :=
  match t with
  | THello => 0x0001 | THelloAck => 0x0002
  | TGossipPush => 0x0010 | TGossipPull => 0x0011 | TGossipAck => 0x0012
  | TGet => 0x0100 | TGetResponse => 0x0101 | TPut => 0x0102 | TPutResponse => 0x0103
  | TDelete => 0x0104 | TDeleteResponse => 0x0105 | TCheck => 0x0106 | TCheckResponse => 0x0107
  | TGetChunk => 0x0200 | TGetChunkResponse => 0x0201 | TPutChunk => 0x0202
  | TPutChunkResponse => 0x0203 | THasChunk => 0x0204 | THasChunkResponse => 0x0205
  | TStreamStart => 0x0300 | TStreamData => 0x0301 | TStreamEnd => 0x0302 | TStreamAck => 0x0303
  | TStreamAbort => 0x0304
  | TNodeJoin => 0x0400 | TNodeLeave => 0x0401 | TNodeStatus => 0x0402
  | TError => 0xFFFF
  end.

(** [static_cast<MessageType>] of a wire value: [None] when it is no enumerator. *)
Definition all_types : list MessageType :=
  [THello; THelloAck; TGossipPush; TGossipPull; TGossipAck; TGet; TGetResponse; TPut; TPutResponse;
   TDelete; TDeleteResponse; TCheck; TCheckResponse; TGetChunk; TGetChunkResponse; TPutChunk;
   TPutChunkResponse; THasChunk; THasChunkResponse; TStreamStart; TStreamData; TStreamEnd; TStreamAck;
   TStreamAbort; TNodeJoin; TNodeLeave; TNodeStatus; TError].

Definition message_type (z : Z) : option MessageType :=
  snd <$> list_find (fun t => type_code t = z) all_types.

Record MessageHeader := mkHeader {
  h_magic : Z; h_version : Z; h_type : Z; h_length : Z; h_request_id : Z; h_timestamp : Z
}.

Definition HEADER_SIZE : Z := 24.

Record NodeInfo := mkNodeInfo {
  ni_id : NodeId;
  ni_address : bytes;
  ni_port : Z;
  ni_memory_capacity : Z;
  ni_memory_used : Z;
  ni_disk_capacity : Z;
  ni_disk_used : Z;
  ni_generation : Z;
  ni_state : Z;
  ni_last_seen : Z
}.

(** The variant [Message]; the fields of each structure in order. *)
Inductive Message :=
| HelloMessage (sender : NodeInfo) (cluster_name : bytes) (capabilities : list bytes)
| HelloAckMessage (sender : NodeInfo) (accepted : bool) (reject_reason : bytes)
| GossipPushMessage (sender : NodeId) (nodes : list NodeInfo)
| GossipPullMessage (sender : NodeId) (requested : list NodeId)
| GossipAckMessage (sender : NodeId) (nodes : list NodeInfo)
| GetMessage (key : CacheKey) (metadata_only : bool) (range : option Range)
| GetResponseMessage (result : CacheResult) (metadata : option CacheMetadata) (data : bytes)
    (actual_range : Range)
| PutMessage (key : CacheKey) (data : bytes) (ttl : option Z) (flags : Z)
| PutResponseMessage (code : ErrorCode) (message : bytes)
| DeleteMessage (key : CacheKey)
| DeleteResponseMessage (code : ErrorCode) (existed : bool)
| CheckMessage (key : CacheKey) (range : option Range)
| CheckResponseMessage (exists_ : bool) (metadata : option CacheMetadata) (available_ranges : list Range)
| GetChunkMessage (id : ChunkId) (offset length : Z)
| GetChunkResponseMessage (found : bool) (data : bytes)
| PutChunkMessage (id : ChunkId) (data : bytes)
| PutChunkResponseMessage (code : ErrorCode)
| HasChunkMessage (ids : list ChunkId)
| HasChunkResponseMessage (exists_ : list bool)
| StreamStartMessage (stream_id : Z) (key : CacheKey) (total_size chunk_count : Z)
| StreamDataMessage (stream_id sequence : Z) (data : bytes)
| StreamEndMessage (stream_id : Z) (checksum : Hash128)
| StreamAckMessage (stream_id acked_sequence : Z) (code : ErrorCode)
| StreamAbortMessage (stream_id : Z) (reason : ErrorCode) (message : bytes)
| ErrorMessage (code : ErrorCode) (message : bytes) (original_request_id : Z).

(** ** Enumerations on the wire: [static_cast] to and from [uint32_t] *)

Definition error_to_u32 (c : ErrorCode) : Z :=
  match c with
  | EOk => 0 | KeyTooLarge => 1 | ValueTooLarge => 2 | NotFound => 3 | PartialData => 4
  | NetworkError => 5 | DiskError => 6 | Timeout => 7 | InvalidArgument => 8 | OutOfMemory => 9
  | InternalError => 10 | ErrorCode_other v => v
  end.

Definition error_of_u32 (z : Z) : ErrorCode :=
  match z with
  | 0 => EOk | 1 => KeyTooLarge | 2 => ValueTooLarge | 3 => NotFound | 4 => PartialData
  | 5 => NetworkError | 6 => DiskError | 7 => Timeout | 8 => InvalidArgument | 9 => OutOfMemory
  | 10 => InternalError | _ => ErrorCode_other z
  end.

Definition result_to_u32 (r : CacheResult) : Z :=
  match r with
  | Hit => 0 | Miss => 1 | PartialHit => 2 | CacheError => 3 | Expired => 4 | ResultNotFound => 5
  | CacheResult_other v => v
  end.

Definition result_of_u32 (z : Z) : CacheResult :=
  match z with
  | 0 => Hit | 1 => Miss | 2 => PartialHit | 3 => CacheError | 4 => Expired | 5 => ResultNotFound
  | _ => CacheResult_other z
  end.

(** ** Encoding helpers *)

(** [(v >> k) & 0xFF] pushed as a byte. *)
Definition byte_at (v k : Z) : byte := byte_of_Z (Z.land (Z.shiftr v k) 0xFF).

Definition encode_u16 (v : Z) : bytes := [byte_at v 0; byte_at v 8].
Definition encode_u32 (v : Z) : bytes := [byte_at v 0; byte_at v 8; byte_at v 16; byte_at v 24].
Definition encode_u64 (v : Z) : bytes := (fun i => byte_at v (i * 8)) <$> [0; 1; 2; 3; 4; 5; 6; 7].

Definition encode_string (s : bytes) : bytes := encode_u32 (u32 (size_of s)) ++ s.
Definition encode_bytes (data : bytes) : bytes := encode_u32 (u32 (size_of data)) ++ data.

Definition encode_bool (b : bool) : bytes := [if b then x01 else x00].

(** [now_ms]: milliseconds since the epoch. *)
Definition encode_header (now_ms : Z) (type payload_len request_id : Z) : bytes :=
  encode_u32 MAGIC ++ encode_u16 VERSION ++ encode_u16 type ++ encode_u32 payload_len ++
  encode_u32 request_id ++ encode_u64 (u64 now_ms).

Definition encode_node_info (info : NodeInfo) : bytes :=
  encode_u64 (ni_id info) ++ encode_string (ni_address info) ++ encode_u16 (ni_port info) ++
  encode_u64 (ni_memory_capacity info) ++ encode_u64 (ni_memory_used info) ++
  encode_u64 (ni_disk_capacity info) ++ encode_u64 (ni_disk_used info) ++
  encode_u64 (ni_generation info) ++ encode_u32 (ni_state info).

Definition encode_range (r : Range) : bytes := encode_u64 (r_offset r) ++ encode_u64 (r_length r).

Definition encode_opt_range (r : option Range) : bytes :=
  match r with None => encode_bool false | Some r => encode_bool true ++ encode_range r end.

Definition encode_opt_meta (m : option CacheMetadata) : bytes :=
  match m with
  | None => encode_bool false
  | Some m => encode_bool true ++ encode_u64 (md_total_size m) ++ encode_u64 (md_chunk_count m) ++
              encode_u32 (md_flags m)
  end.

(** A count as [uint32_t], then the elements. *)
Definition encode_list {A} (enc : A -> bytes) (l : list A) : bytes :=
  encode_u32 (u32 (size_of l)) ++ concat (enc <$> l).

(** ** [Codec::encode]: the visitor, then header and payload *)

Definition encode_payload (msg : Message) : MessageType * bytes :=
  match msg with
  | HelloMessage sender cluster_name capabilities =>
      (THello, encode_node_info sender ++ encode_string cluster_name ++ encode_list encode_string capabilities)
  | HelloAckMessage sender accepted reject_reason =>
      (THelloAck, encode_node_info sender ++ encode_bool accepted ++ encode_string reject_reason)
  | GossipPushMessage sender nodes =>
      (TGossipPush, encode_u64 sender ++ encode_list encode_node_info nodes)
  | GetMessage key metadata_only range =>
      (TGet, encode_string (key_data key) ++ encode_bool metadata_only ++ encode_opt_range range)
  | GetResponseMessage result metadata data actual_range =>
      (TGetResponse, encode_u32 (result_to_u32 result) ++ encode_opt_meta metadata ++ encode_bytes data ++
                     encode_range actual_range)
  | PutMessage key data ttl flags =>
      (TPut, encode_string (key_data key) ++ encode_bytes data ++
             (match ttl with None => encode_bool false | Some t => encode_bool true ++ encode_u64 (u64 t) end) ++
             encode_u32 flags)
  | PutResponseMessage code message => (TPutResponse, encode_u32 (error_to_u32 code) ++ encode_string message)
  | DeleteMessage key => (TDelete, encode_string (key_data key))
  | DeleteResponseMessage code existed =>
      (TDeleteResponse, encode_u32 (error_to_u32 code) ++ encode_bool existed)
  | CheckMessage key range => (TCheck, encode_string (key_data key) ++ encode_opt_range range)
  | CheckResponseMessage exists_ metadata available_ranges =>
      (TCheckResponse, encode_bool exists_ ++ encode_opt_meta metadata ++ encode_list encode_range available_ranges)
  | GetChunkMessage id offset length =>
      (TGetChunk, encode_u64 (low id) ++ encode_u64 (high id) ++ encode_u64 offset ++ encode_u64 length)
  | GetChunkResponseMessage found data => (TGetChunkResponse, encode_bool found ++ encode_bytes data)
  | ErrorMessage code message original_request_id =>
      (TError, encode_u32 (error_to_u32 code) ++ encode_string message ++ encode_u32 original_request_id)
  | _ => (TError, [])
  end.

Definition encode (now_ms : Z) (msg : Message) (request_id : Z) : bytes :=
  let '(type, payload) := encode_payload msg in
  encode_header now_ms (type_code type) (u32 (size_of payload)) request_id ++ payload.

(** ** Decoding helpers *)

Abbreviation decoder A := (bytes -> outcome (A * bytes)).

Definition decode_u16 : decoder Z := fun data =>
  match data with
  | b0 :: b1 :: rest => Done (Z.lor (Z_of_byte b0) (u16 (Z.shiftl (Z_of_byte b1) 8)), rest)
  | _ => Throw "Truncated u16"
  end.

Definition decode_u32 : decoder Z := fun data =>
  match data with
  | b0 :: b1 :: b2 :: b3 :: rest =>
      Done (Z.lor (Z.lor (Z.lor (Z_of_byte b0) (u32 (Z.shiftl (Z_of_byte b1) 8)))
                         (u32 (Z.shiftl (Z_of_byte b2) 16)))
                  (u32 (Z.shiftl (Z_of_byte b3) 24)), rest)
  | _ => Throw "Truncated u32"
  end.

(** The loop [v |= uint64_t(data[i]) << (i * 8)] over the first bytes, [i] the index of the head. *)
Fixpoint or_bytes (i v : Z) (bs : bytes) : Z :=
  match bs with
  | [] => v
  | b :: bs' => or_bytes (i + 1) (Z.lor v (u64 (Z.shiftl (Z_of_byte b) (i * 8)))) bs'
  end.

Definition decode_u64 : decoder Z := fun data =>
  if size_of data <? 8 then Throw "Truncated u64"
  else Done (or_bytes 0 0 (take 8 data), drop 8 data).

Definition decode_blob (what : string) : decoder bytes := fun data =>
  '(len, data) ← decode_u32 data;
  if size_of data <? len then Throw what
  else Done (take (Z.to_nat len) data, drop (Z.to_nat len) data).

Definition decode_string : decoder bytes := decode_blob "Truncated string".
Definition decode_bytes : decoder bytes := decode_blob "Truncated bytes".

(** [data[0] != 0; data = data.subspan(1)]: no bounds check in the code. *)
Definition decode_flag : decoder bool := fun data =>
  match data with
  | b :: rest => Done (negb (Z_of_byte b =? 0), rest)
  | [] => Undef
  end.

Definition decode_range : decoder Range := fun data =>
  '(o, data) ← decode_u64 data;
  '(l, data) ← decode_u64 data;
  Done (mkRange o l, data).

Definition parse_header (data : bytes) : outcome MessageHeader :=
  if size_of data <? HEADER_SIZE then Throw "Truncated header"
  else
    '(magic, data) ← decode_u32 data;
    '(version, data) ← decode_u16 data;
    '(type, data) ← decode_u16 data;
    '(length, data) ← decode_u32 data;
    '(request_id, data) ← decode_u32 data;
    '(timestamp, data) ← decode_u64 data;
    if magic =? MAGIC then Done (mkHeader magic version type length request_id timestamp)
    else Throw "Invalid magic number".

(** [last_seen] is not on the wire: it is the default time point. *)
Definition decode_node_info : decoder NodeInfo := fun data =>
  '(id, data) ← decode_u64 data;
  '(address, data) ← decode_string data;
  '(port, data) ← decode_u16 data;
  '(memory_capacity, data) ← decode_u64 data;
  '(memory_used, data) ← decode_u64 data;
  '(disk_capacity, data) ← decode_u64 data;
  '(disk_used, data) ← decode_u64 data;
  '(generation, data) ← decode_u64 data;
  '(state, data) ← decode_u32 data;
  Done (mkNodeInfo id address port memory_capacity memory_used disk_capacity disk_used generation state 0, data).

(** A counted loop of [push_back(dec(data))]. Every element takes at least one byte of the view, so
    one more round than there are bytes is enough. *)
Definition decode_list_step {A} (dec : decoder A) (count : Z) (s : Z * list A * bytes)
  : (Z * list A * bytes) + outcome (list A * bytes) :=
  let '(i, acc, data) := s in
  if i <? count then
    match dec data with
    | Done (x, data') => inl (i + 1, acc ++ [x], data')
    | Throw w => inr (Throw w)
    | Undef => inr Undef
    | Spin => inr Spin
    end
  else inr (Done (acc, data)).

Definition decode_list {A} (dec : decoder A) : decoder (list A) := fun data =>
  '(count, data) ← decode_u32 data;
  default Spin (loop (S (S (length data))) (decode_list_step dec count) (0, [], data)).

Definition decode_meta : decoder CacheMetadata := fun data =>
  '(total_size, data) ← decode_u64 data;
  '(chunk_count, data) ← decode_u64 data;
  '(flags, data) ← decode_u32 data;
  Done (mkMetadata total_size chunk_count 0 0 None flags, data).

(** A flag and, when it is set, what follows it. *)
Definition decode_opt {A} (dec : decoder A) : decoder (option A) := fun data =>
  '(has, data) ← decode_flag data;
  if has : bool then '(x, data) ← dec data; Done (Some x, data) else Done (None, data).

(** ** [Codec::decode] *)

Section codec.
Context `{HH : Hasher}.

Definition decode_payload (type : Z) : decoder Message := fun data =>
  match message_type type with
  | Some THello =>
      '(sender, data) ← decode_node_info data;
      '(cluster_name, data) ← decode_string data;
      '(capabilities, data) ← decode_list decode_string data;
      Done (HelloMessage sender cluster_name capabilities, data)
  | Some THelloAck =>
      '(sender, data) ← decode_node_info data;
      '(accepted, data) ← decode_flag data;
      '(reject_reason, data) ← decode_string data;
      Done (HelloAckMessage sender accepted reject_reason, data)
  | Some TGossipPush =>
      '(sender, data) ← decode_u64 data;
      '(nodes, data) ← decode_list decode_node_info data;
      Done (GossipPushMessage sender nodes, data)
  | Some TGet =>
      '(key, data) ← decode_string data;
      '(metadata_only, data) ← decode_flag data;
      '(range, data) ← decode_opt decode_range data;
      Done (GetMessage (CacheKey_make key) metadata_only range, data)
  | Some TGetResponse =>
      '(result, data) ← decode_u32 data;
      '(metadata, data) ← decode_opt decode_meta data;
      '(bytes_, data) ← decode_bytes data;
      '(actual_range, data) ← decode_range data;
      Done (GetResponseMessage (result_of_u32 result) metadata bytes_ actual_range, data)
  | Some TPut =>
      '(key, data) ← decode_string data;
      '(bytes_, data) ← decode_bytes data;
      '(ttl, data) ← decode_opt decode_u64 data;
      '(flags, data) ← decode_u32 data;
      Done (PutMessage (CacheKey_make key) bytes_ (i64 <$> ttl) flags, data)
  | Some TPutResponse =>
      '(code, data) ← decode_u32 data;
      '(message, data) ← decode_string data;
      Done (PutResponseMessage (error_of_u32 code) message, data)
  | Some TDelete =>
      '(key, data) ← decode_string data;
      Done (DeleteMessage (CacheKey_make key), data)
  | Some TDeleteResponse =>
      '(code, data) ← decode_u32 data;
      '(existed, data) ← decode_flag data;
      Done (DeleteResponseMessage (error_of_u32 code) existed, data)
  | Some TError =>
      '(code, data) ← decode_u32 data;
      '(message, data) ← decode_string data;
      '(original_request_id, data) ← decode_u32 data;
      Done (ErrorMessage (error_of_u32 code) message original_request_id, data)
  | _ => Throw "Unknown message type"
  end.

Definition decode (data : bytes) : outcome (Message * MessageHeader) :=
  header ← parse_header data;
  '(msg, _) ← decode_payload (h_type header) (drop (Z.to_nat HEADER_SIZE) data);
  Done (msg, header).

(** [protocol.cpp]: only an exact match is compatible. *)
Definition is_compatible_version (remote_version : Z) : bool := remote_version =? VERSION.

End codec.

(** ** Integers *)

Lemma testbit_small a k n : 0 <= a < 2 ^ k -> 0 <= k <= n -> Z.testbit a n = false.
Proof.
  intros Ha Hn. destruct (Z.eq_dec a 0) as [->|]; [apply Z.bits_0|].
  apply Z.bits_above_log2; [lia|]. apply Z.log2_lt_pow2; [lia|].
  apply Z.lt_le_trans with (2 ^ k); [lia|apply Z.pow_le_mono_r; lia].
Qed.

(** Adding disjoint bits. *)
Lemma lor_shiftl_add a b k : 0 <= k -> 0 <= a < 2 ^ k -> Z.lor a (Z.shiftl b k) = a + b * 2 ^ k.
Proof.
  intros Hk Ha. rewrite <- Z.shiftl_mul_pow2 by done.
  assert (Z.land a (Z.shiftl b k) = 0) as Hd.
  { apply Z.bits_inj'. intros n Hn. rewrite Z.land_spec, Z.bits_0. destruct (Z.lt_ge_cases n k).
    - rewrite Z.shiftl_spec_low by done. apply andb_false_r.
    - rewrite (testbit_small a k) by lia. apply andb_false_l. }
  rewrite <- Z.lxor_lor, <- Z.add_nocarry_lxor by done. done.
Qed.

Lemma Z_of_byte_at v k : 0 <= k -> Z_of_byte (byte_at v k) = (v / 2 ^ k) mod 256.
Proof.
  intros Hk. unfold byte_at. rewrite Z_of_byte_of_Z, Z.shiftr_div_pow2 by done.
  change 0xFF with (Z.ones 8). rewrite Z.land_ones by lia. unfold u8. by rewrite Zmod_mod.
Qed.

(** The value of bytes in little-endian order. *)
Fixpoint le_value (bs : bytes) : Z :=
  match bs with [] => 0 | b :: bs' => Z_of_byte b + 256 * le_value bs' end.

Lemma le_value_bytes v (n : nat) : forall k, 0 <= k ->
  le_value ((fun i => byte_at v (k + 8 * i)) <$> seqZ 0 (Z.of_nat n)) = (v / 2 ^ k) mod 2 ^ (8 * Z.of_nat n).
Proof.
  induction n as [|n IH]; intros k Hk; [by rewrite Z.mod_1_r|].
  rewrite seqZ_cons by lia. rewrite fmap_cons. cbn [le_value].
  replace (Z.pred (Z.of_nat (S n))) with (Z.of_nat n) by lia.
  change (Z.succ 0) with (1 + 0). rewrite <- fmap_add_seqZ, <- list_fmap_compose.
  rewrite (list_fmap_ext _ (fun i => byte_at v ((k + 8) + 8 * i)));
    [|intros i x _; unfold compose; f_equal; lia].
  rewrite IH, Z_of_byte_at by lia. rewrite Z.mul_0_r, Z.add_0_r, Z.pow_add_r by lia.
  replace (8 * Z.of_nat (S n)) with (8 + 8 * Z.of_nat n) by lia. rewrite (Z.pow_add_r 2 8) by lia.
  rewrite <- Z.div_div by lia. change (2 ^ 8) with 256.
  rewrite Z.rem_mul_r by (try apply Z.pow_pos_nonneg; lia). lia.
Qed.

Lemma le_value_range bs : 0 <= le_value bs < 2 ^ (8 * size_of bs).
Proof.
  induction bs as [|b bs IH]; [done|]. cbn [le_value]. pose proof (Z_of_byte_range b).
  rewrite size_of_cons. replace (8 * (1 + size_of bs)) with (8 + 8 * size_of bs) by lia.
  rewrite Z.pow_add_r by (pose proof (size_of_nonneg bs); lia). lia.
Qed.

Lemma or_bytes_value bs : forall i v,
  0 <= i -> i + size_of bs <= 8 -> 0 <= v < 2 ^ (8 * i) ->
  or_bytes i v bs = v + 2 ^ (8 * i) * le_value bs.
Proof.
  induction bs as [|b bs IH]; intros i v Hi Hn Hv; cbn [or_bytes le_value]; [lia|].
  rewrite size_of_cons in Hn. pose proof (size_of_nonneg bs). pose proof (Z_of_byte_range b).
  assert (0 < 2 ^ (8 * i)) by (apply Z.pow_pos_nonneg; lia).
  assert (2 ^ (8 * i) * 2 ^ 8 = 2 ^ (8 * (i + 1))) as Hp by (rewrite <- Z.pow_add_r by lia; f_equal; lia).
  assert (2 ^ (8 * (i + 1)) <= 2 ^ 64) by (apply Z.pow_le_mono_r; lia).
  replace (i * 8) with (8 * i) by lia.
  rewrite (u64_small (Z.shiftl (Z_of_byte b) (8 * i))) by (rewrite Z.shiftl_mul_pow2 by lia; split; nia).
  rewrite lor_shiftl_add by lia. rewrite IH by nia. rewrite <- Hp. change (2 ^ 8) with 256. lia.
Qed.

(** The bytes of a value that fits. *)
Lemma le_value_fits v (n : nat) :
  0 <= v < 2 ^ (8 * Z.of_nat n) -> le_value ((fun i => byte_at v (0 + 8 * i)) <$> seqZ 0 (Z.of_nat n)) = v.
Proof. intros Hv. rewrite le_value_bytes, Z.div_1_r by lia. by apply Z.mod_small. Qed.

Lemma encode_u64_le v : is_u64 v -> le_value (encode_u64 v) = v.
Proof. exact (le_value_fits v 8). Qed.

Lemma encode_u32_le v : is_u32 v -> le_value (encode_u32 v) = v.
Proof. exact (le_value_fits v 4). Qed.

Lemma encode_u16_le v : is_u16 v -> le_value (encode_u16 v) = v.
Proof. exact (le_value_fits v 2). Qed.

(** Codecs that invert each other in front of any rest. *)

Lemma decode_encode_u64 v rest : is_u64 v -> decode_u64 (encode_u64 v ++ rest) = Done (v, rest).
Proof.
  intros Hv. unfold decode_u64. rewrite size_of_app. change (size_of (encode_u64 v)) with 8.
  pose proof (size_of_nonneg rest). destruct (Z.ltb_spec (8 + size_of rest) 8); [lia|].
  rewrite take_app_length' by done. rewrite drop_app_length' by done.
  rewrite or_bytes_value by (change (size_of (encode_u64 v)) with 8; lia).
  rewrite encode_u64_le by done. do 2 f_equal. simpl. lia.
Qed.

Lemma decode_encode_u32 v rest : is_u32 v -> decode_u32 (encode_u32 v ++ rest) = Done (v, rest).
Proof.
  intros Hv. unfold encode_u32. cbn [app decode_u32]. do 2 f_equal.
  pose proof (Z_of_byte_range (byte_at v 0)). pose proof (Z_of_byte_range (byte_at v 8)).
  pose proof (Z_of_byte_range (byte_at v 16)). pose proof (Z_of_byte_range (byte_at v 24)).
  rewrite !u32_small by (rewrite Z.shiftl_mul_pow2 by lia; split; lia).
  rewrite (lor_shiftl_add _ _ 8), (lor_shiftl_add _ _ 16), (lor_shiftl_add _ _ 24) by lia.
  pose proof (encode_u32_le v Hv) as E. cbn [encode_u32 le_value] in E. lia.
Qed.

Lemma decode_encode_u16 v rest : is_u16 v -> decode_u16 (encode_u16 v ++ rest) = Done (v, rest).
Proof.
  intros Hv. unfold encode_u16. cbn [app decode_u16]. do 2 f_equal.
  pose proof (Z_of_byte_range (byte_at v 0)). pose proof (Z_of_byte_range (byte_at v 8)).
  rewrite !u16_small by (rewrite Z.shiftl_mul_pow2 by lia; split; lia).
  rewrite !lor_shiftl_add by lia.
  pose proof (encode_u16_le v Hv) as E. cbn [encode_u16 le_value] in E. lia.
Qed.

(** ** Strings, lists, records *)

Definition blob_ok (s : bytes) : Prop := size_of s < 2 ^ 32.

Lemma decode_encode_blob what s rest :
  blob_ok s -> decode_blob what (encode_string s ++ rest) = Done (s, rest).
Proof.
  unfold blob_ok. intros Hs. pose proof (size_of_nonneg s). pose proof (size_of_nonneg rest).
  unfold decode_blob, encode_string. rewrite <- app_assoc, u32_small by (split; lia).
  rewrite decode_encode_u32 by (split; lia). cbn [mbind outcome_bind]. rewrite size_of_app.
  destruct (Z.ltb_spec (size_of s + size_of rest) (size_of s)); [lia|].
  unfold size_of. rewrite Nat2Z.id, take_app_length, drop_app_length. done.
Qed.

Lemma decode_encode_string s rest : blob_ok s -> decode_string (encode_string s ++ rest) = Done (s, rest).
Proof. apply decode_encode_blob. Qed.

Lemma decode_encode_bytes s rest : blob_ok s -> decode_bytes (encode_bytes s ++ rest) = Done (s, rest).
Proof. apply decode_encode_blob. Qed.

Lemma decode_encode_bool b rest : decode_flag (encode_bool b ++ rest) = Done (b, rest).
Proof. by destruct b. Qed.

Definition range_u64 (r : Range) : Prop := is_u64 (r_offset r) /\ is_u64 (r_length r).

Lemma decode_encode_range r rest : range_u64 r -> decode_range (encode_range r ++ rest) = Done (r, rest).
Proof.
  intros [Ho Hl]. unfold decode_range, encode_range. rewrite <- app_assoc.
  rewrite decode_encode_u64 by done. cbn [mbind outcome_bind]. rewrite decode_encode_u64 by done. by destruct r.
Qed.

(** What is left of metadata and of a node description on the wire. *)
Definition wire_meta (m : CacheMetadata) : CacheMetadata :=
  mkMetadata (md_total_size m) (md_chunk_count m) 0 0 None (md_flags m).

Definition wire_node (n : NodeInfo) : NodeInfo :=
  mkNodeInfo (ni_id n) (ni_address n) (ni_port n) (ni_memory_capacity n) (ni_memory_used n)
             (ni_disk_capacity n) (ni_disk_used n) (ni_generation n) (ni_state n) 0.

Definition meta_ok (m : CacheMetadata) : Prop :=
  is_u64 (md_total_size m) /\ is_u64 (md_chunk_count m) /\ is_u32 (md_flags m).

Definition node_ok (n : NodeInfo) : Prop :=
  is_u64 (ni_id n) /\ blob_ok (ni_address n) /\ is_u16 (ni_port n) /\ is_u64 (ni_memory_capacity n) /\
  is_u64 (ni_memory_used n) /\ is_u64 (ni_disk_capacity n) /\ is_u64 (ni_disk_used n) /\
  is_u64 (ni_generation n) /\ is_u32 (ni_state n).

Definition opt_ok {A} (P : A -> Prop) (o : option A) : Prop :=
  match o with None => True | Some x => P x end.

Lemma decode_encode_opt_range r rest :
  opt_ok range_u64 r -> decode_opt decode_range (encode_opt_range r ++ rest) = Done (r, rest).
Proof.
  intros Hr. unfold decode_opt. destruct r as [r|]; [|done]. cbn [encode_opt_range].
  rewrite <- app_assoc, decode_encode_bool. cbn [mbind outcome_bind]. by rewrite decode_encode_range.
Qed.

Lemma decode_encode_opt_meta m rest :
  opt_ok meta_ok m -> decode_opt decode_meta (encode_opt_meta m ++ rest) = Done (wire_meta <$> m, rest).
Proof.
  intros Hm. unfold decode_opt. destruct m as [m|]; [|done]. destruct Hm as (H1 & H2 & H3).
  cbn [encode_opt_meta]. rewrite <- !app_assoc, decode_encode_bool. cbn [mbind outcome_bind]. unfold decode_meta.
  rewrite decode_encode_u64 by done. cbn [mbind outcome_bind]. rewrite decode_encode_u64 by done. cbn [mbind outcome_bind].
  by rewrite decode_encode_u32.
Qed.

Lemma decode_encode_node n rest :
  node_ok n -> decode_node_info (encode_node_info n ++ rest) = Done (wire_node n, rest).
Proof.
  intros (? & ? & ? & ? & ? & ? & ? & ? & ?). unfold decode_node_info, encode_node_info.
  rewrite <- !app_assoc. rewrite decode_encode_u64 by done. cbn [mbind outcome_bind]. rewrite decode_encode_string by done. cbn [mbind outcome_bind].
  rewrite decode_encode_u16 by done. cbn [mbind outcome_bind]. do 5 (rewrite decode_encode_u64 by done; cbn [mbind outcome_bind]).
  by rewrite decode_encode_u32.
Qed.

Lemma decode_list_loop {A} (enc : A -> bytes) (dec : decoder A) (ok : A -> Prop) (wire : A -> A) count rest :
  (forall x rest, ok x -> dec (enc x ++ rest) = Done (wire x, rest)) ->
  forall xs i acc fuel, Forall ok xs -> i + size_of xs = count -> (length xs < fuel)%nat ->
  loop fuel (decode_list_step dec count) (i, acc, concat (enc <$> xs) ++ rest)
  = Some (Done (acc ++ (wire <$> xs), rest)).
Proof.
  intros Hrt xs. induction xs as [|x xs IH]; intros i acc fuel Hok Hn Hf.
  - destruct fuel; [simpl in Hf; lia|]. rewrite size_of_nil in Hn. simpl.
    destruct (Z.ltb_spec i count); [lia|]. by rewrite app_nil_r.
  - destruct fuel; [simpl in Hf; lia|]. rewrite size_of_cons in Hn. pose proof (size_of_nonneg xs).
    apply Forall_cons in Hok as [Hx Hok]. rewrite !fmap_cons. cbn [concat loop decode_list_step].
    destruct (Z.ltb_spec i count); [|lia]. rewrite <- app_assoc, Hrt by done.
    rewrite IH by (done || lia || (simpl in Hf; lia)). by rewrite <- app_assoc.
Qed.

Lemma length_concat_ge {A} (enc : A -> bytes) xs :
  (forall x, 1 <= length (enc x))%nat -> (length xs <= length (concat (enc <$> xs)))%nat.
Proof.
  intros He. induction xs as [|x xs IH]; [done|]. rewrite fmap_cons. cbn [concat length].
  rewrite length_app. specialize (He x). lia.
Qed.

Lemma decode_encode_list {A} (enc : A -> bytes) (dec : decoder A) (ok : A -> Prop) (wire : A -> A) xs rest :
  (forall x rest, ok x -> dec (enc x ++ rest) = Done (wire x, rest)) ->
  (forall x, 1 <= length (enc x))%nat -> Forall ok xs -> size_of xs < 2 ^ 32 ->
  decode_list dec (encode_list enc xs ++ rest) = Done (wire <$> xs, rest).
Proof.
  intros Hrt He Hok Hn. pose proof (size_of_nonneg xs). unfold decode_list, encode_list.
  rewrite u32_small by (split; lia). rewrite <- app_assoc, decode_encode_u32 by (split; lia). cbn [mbind outcome_bind].
  rewrite (decode_list_loop enc dec ok wire) by (done || lia || (pose proof (length_concat_ge enc xs He);
    rewrite length_app; lia)).
  done.
Qed.

(** ** The round trip of messages *)

Section roundtrip.
Context `{HH : Hasher}.

Definition error_ok (c : ErrorCode) : Prop := is_u32 (error_to_u32 c) /\ error_of_u32 (error_to_u32 c) = c.
Definition result_ok (r : CacheResult) : Prop := is_u32 (result_to_u32 r) /\ result_of_u32 (result_to_u32 r) = r.

(** Fields within their C++ types, and strings and lists whose size fits the 32-bit length. *)
Definition msg_ok (m : Message) : Prop :=
  match m with
  | HelloMessage sender cluster_name capabilities =>
      node_ok sender /\ blob_ok cluster_name /\ Forall blob_ok capabilities /\ size_of capabilities < 2 ^ 32
  | HelloAckMessage sender _ reject_reason => node_ok sender /\ blob_ok reject_reason
  | GossipPushMessage sender nodes => is_u64 sender /\ Forall node_ok nodes /\ size_of nodes < 2 ^ 32
  | GetMessage key _ range => CacheKey_wf key /\ blob_ok (key_data key) /\ opt_ok range_u64 range
  | GetResponseMessage result metadata data actual_range =>
      result_ok result /\ opt_ok meta_ok metadata /\ blob_ok data /\ range_u64 actual_range
  | PutMessage key data ttl flags =>
      CacheKey_wf key /\ blob_ok (key_data key) /\ blob_ok data /\
      opt_ok (fun t => - 2 ^ 63 <= t < 2 ^ 63) ttl /\ is_u32 flags
  | PutResponseMessage code message => error_ok code /\ blob_ok message
  | DeleteMessage key => CacheKey_wf key /\ blob_ok (key_data key)
  | DeleteResponseMessage code _ => error_ok code
  | ErrorMessage code message original_request_id =>
      error_ok code /\ blob_ok message /\ is_u32 original_request_id
  | _ => True
  end.

(** The messages [decode] has a case for. *)
Definition decodable (m : Message) : bool :=
  match m with
  | HelloMessage _ _ _ | HelloAckMessage _ _ _ | GossipPushMessage _ _ | GetMessage _ _ _
  | GetResponseMessage _ _ _ _ | PutMessage _ _ _ _ | PutResponseMessage _ _ | DeleteMessage _
  | DeleteResponseMessage _ _ | ErrorMessage _ _ _ => true
  | _ => false
  end.

(** The message the receiver sees: times are not sent. *)
Definition wire (m : Message) : Message :=
  match m with
  | HelloMessage sender cluster_name capabilities => HelloMessage (wire_node sender) cluster_name capabilities
  | HelloAckMessage sender accepted reject_reason => HelloAckMessage (wire_node sender) accepted reject_reason
  | GossipPushMessage sender nodes => GossipPushMessage sender (wire_node <$> nodes)
  | GetResponseMessage result metadata data actual_range =>
      GetResponseMessage result (wire_meta <$> metadata) data actual_range
  | m => m
  end.

#[local] Ltac wire_step :=
  first [rewrite decode_encode_u64 by done | rewrite decode_encode_u32 by done
        | rewrite decode_encode_string by done | rewrite decode_encode_bytes by done
        | rewrite decode_encode_bool | rewrite decode_encode_range by done
        | rewrite decode_encode_opt_range by done | rewrite decode_encode_opt_meta by done
        | rewrite decode_encode_node by done];
  cbn [mbind outcome_bind].

Lemma message_type_code t : message_type (type_code t) = Some t.
Proof. by destruct t. Qed.

Lemma decode_payload_encode m rest :
  msg_ok m -> decodable m = true ->
  decode_payload (type_code (encode_payload m).1) ((encode_payload m).2 ++ rest) = Done (wire m, rest).
Proof.
  intros Hok Hd. destruct m; try discriminate Hd; cbn [encode_payload fst snd];
    unfold decode_payload; rewrite message_type_code; cbn [msg_ok] in Hok; rewrite <- ?app_assoc.
  - destruct Hok as (? & ? & ? & ?). do 2 wire_step.
    rewrite (decode_encode_list encode_string decode_string blob_ok id); try done;
      [|apply decode_encode_string|intros x; simpl; lia].
    cbn [mbind outcome_bind]. by rewrite list_fmap_id.
  - destruct Hok as (? & ?). by repeat wire_step.
  - destruct Hok as (? & ? & ?). wire_step.
    rewrite (decode_encode_list encode_node_info decode_node_info node_ok wire_node); try done;
      [apply decode_encode_node|intros x; simpl; lia].
  - destruct Hok as (Hk & ? & ?). repeat wire_step. by rewrite <- Hk.
  - destruct Hok as ([? Hr] & ? & ? & ?). repeat wire_step. by rewrite Hr.
  - destruct Hok as (Hk & ? & ? & Ht & ?). do 2 wire_step. unfold decode_opt. rewrite <- Hk.
    destruct ttl as [t|]; rewrite <- ?app_assoc; wire_step; [|by wire_step].
    rewrite decode_encode_u64 by apply u64_range. cbn [mbind outcome_bind]. wire_step.
    cbn [fmap option_fmap option_map]. by rewrite i64_u64.
  - destruct Hok as ([? Hr] & ?). repeat wire_step. by rewrite Hr.
  - destruct Hok as (Hk & ?). wire_step. by rewrite <- Hk.
  - destruct Hok as (? & Hr). repeat wire_step. by rewrite Hr.
  - destruct Hok as ([? Hr] & ? & ?). repeat wire_step. by rewrite Hr.
Qed.

Lemma type_code_u16 t : is_u16 (type_code t).
Proof. by destruct t. Qed.

Lemma parse_encode_header now_ms t len rid rest :
  is_u32 len -> is_u32 rid ->
  parse_header (encode_header now_ms (type_code t) len rid ++ rest)
  = Done (mkHeader MAGIC VERSION (type_code t) len rid (u64 now_ms)).
Proof.
  intros Hl Hr. unfold parse_header. rewrite size_of_app.
  change (size_of (encode_header now_ms (type_code t) len rid)) with 24.
  pose proof (size_of_nonneg rest). unfold HEADER_SIZE. destruct (Z.ltb_spec (24 + size_of rest) 24); [lia|].
  unfold encode_header. rewrite <- !app_assoc.
  rewrite decode_encode_u32 by done. cbn [mbind outcome_bind].
  rewrite decode_encode_u16 by done. cbn [mbind outcome_bind].
  rewrite decode_encode_u16 by apply type_code_u16. cbn [mbind outcome_bind].
  do 2 wire_step. by rewrite decode_encode_u64 by apply u64_range.
Qed.

Lemma decode_header_payload now_ms m rid rest :
  is_u32 rid ->
  decode (encode now_ms m rid ++ rest) =
  '(msg, _) ← decode_payload (type_code (encode_payload m).1) ((encode_payload m).2 ++ rest);
  Done (msg, mkHeader MAGIC VERSION (type_code (encode_payload m).1) (u32 (size_of (encode_payload m).2))
                      rid (u64 now_ms)).
Proof.
  intros Hr. unfold decode, encode. destruct (encode_payload m) as [t payload]. cbn [fst snd].
  rewrite <- app_assoc. rewrite parse_encode_header by (done || apply Z.mod_pos_bound; lia).
  cbn [mbind outcome_bind h_type]. rewrite drop_app_length' by done. done.
Qed.

End roundtrip.

(** ** Termination on any input

    A decoder returns a shorter view, throws, or is undefined; it does not run for ever. *)

Definition shrinks {A} (dec : decoder A) : Prop := forall data,
  match dec data with
  | Done (_, data') => (length data' < length data)%nat
  | Throw _ | Undef => True
  | Spin => False
  end.

Definition steady {A} (dec : decoder A) : Prop := forall data,
  match dec data with
  | Done (_, data') => (length data' <= length data)%nat
  | Throw _ | Undef => True
  | Spin => False
  end.

Lemma shrinks_steady {A} (dec : decoder A) : shrinks dec -> steady dec.
Proof. intros H data. specialize (H data). destruct (dec data) as [[a d]| | |]; [lia|done..]. Qed.

Lemma steady_ret {A} (x : A) : steady (fun data => Done (x, data)).
Proof. by intros data. Qed.

Lemma steady_bind {A B} (dec : decoder A) (f : A -> decoder B) :
  steady dec -> (forall x, steady (f x)) -> steady (fun data => '(x, data') ← dec data; f x data').
Proof.
  intros Hd Hf data. specialize (Hd data). destruct (dec data) as [[a d]| | |]; cbn; [|done..].
  specialize (Hf a d). destruct (f a d) as [[b d']| | |]; [lia|done..].
Qed.

Lemma shrinks_bind {A B} (dec : decoder A) (f : A -> decoder B) :
  shrinks dec -> (forall x, steady (f x)) -> shrinks (fun data => '(x, data') ← dec data; f x data').
Proof.
  intros Hd Hf data. specialize (Hd data). destruct (dec data) as [[a d]| | |]; cbn; [|done..].
  specialize (Hf a d). destruct (f a d) as [[b d']| | |]; [lia|done..].
Qed.

Lemma decode_u16_shrinks : shrinks decode_u16.
Proof. intros [|b0 [|b1 rest]]; simpl; done || lia. Qed.

Lemma decode_u32_shrinks : shrinks decode_u32.
Proof. intros [|b0 [|b1 [|b2 [|b3 rest]]]]; simpl; done || lia. Qed.

Lemma decode_u64_shrinks : shrinks decode_u64.
Proof.
  intros data. unfold decode_u64. destruct (Z.ltb_spec (size_of data) 8); [done|].
  rewrite length_drop. unfold size_of in *. lia.
Qed.

Lemma decode_flag_shrinks : shrinks decode_flag.
Proof. intros [|b rest]; simpl; done || lia. Qed.

Lemma decode_blob_shrinks what : shrinks (decode_blob what).
Proof.
  apply (shrinks_bind decode_u32); [apply decode_u32_shrinks|]. intros len data.
  destruct (size_of data <? len); [done|]. rewrite length_drop. lia.
Qed.

Create HintDb decoders discriminated.
#[export] Hint Resolve shrinks_steady steady_ret steady_bind shrinks_bind decode_u16_shrinks
  decode_u32_shrinks decode_u64_shrinks decode_flag_shrinks : decoders.
#[export] Hint Extern 1 (shrinks decode_string) => apply decode_blob_shrinks : decoders.
#[export] Hint Extern 1 (shrinks decode_bytes) => apply decode_blob_shrinks : decoders.

(** Peel one decoder off a sequence. *)
Ltac peel :=
  match goal with
  | |- shrinks (fun data => mbind _ (_ data)) => apply shrinks_bind; [|intros ?]
  | |- steady (fun data => mbind _ (_ data)) => apply steady_bind; [|intros ?]
  end.

Lemma decode_range_shrinks : shrinks decode_range.
Proof. unfold decode_range. repeat peel; auto with decoders. Qed.

Lemma decode_meta_shrinks : shrinks decode_meta.
Proof. unfold decode_meta. repeat peel; auto with decoders. Qed.

Lemma decode_node_info_shrinks : shrinks decode_node_info.
Proof. unfold decode_node_info. repeat peel; auto with decoders. Qed.

Lemma decode_opt_shrinks {A} (dec : decoder A) : shrinks dec -> shrinks (decode_opt dec).
Proof.
  intros Hd. unfold decode_opt. peel; [auto with decoders|].
  match goal with |- steady (fun data => if ?b then _ else _) => destruct b end; repeat peel; auto with decoders.
Qed.

Lemma decode_list_steady {A} (dec : decoder A) : shrinks dec -> steady (decode_list dec).
Proof.
  intros Hd. unfold decode_list. peel; [auto with decoders|]. intros data.
  destruct (loop_rule (fun s : Z * list A * bytes => (length s.2 <= length data)%nat)
    (fun r => match r with Done (_, d) => (length d <= length data)%nat | Spin => False | _ => True end)
    (fun s => size_of s.2) (decode_list_step dec x)) with (fuel := S (S (length data))) (s := (0, @nil A, data))
    as (r & -> & Hr); [| | | |done].
  - intros [[i acc] d] Hle. simpl in *. destruct (i <? x); [|done]. specialize (Hd d).
    destruct (dec d) as [[y d']| | |]; try done. simpl. unfold size_of. lia.
  - simpl. lia.
  - simpl. unfold size_of. lia.
  - apply size_of_nonneg.
Qed.

#[export] Hint Resolve decode_range_shrinks decode_meta_shrinks decode_node_info_shrinks
  decode_opt_shrinks decode_list_steady : decoders.

Lemma decode_payload_steady `{Hasher} type : steady (decode_payload type).
Proof.
  unfold decode_payload. destruct (message_type type) as [[]|]; try done; repeat peel; auto with decoders.
Qed.

Lemma bind_terminates {A B} (dec : decoder A) (f : A -> bytes -> outcome B) data :
  shrinks dec -> (forall x d, f x d <> Spin) -> ('(x, d) ← dec data; f x d) <> Spin.
Proof. intros Hd Hf. specialize (Hd data). destruct (dec data) as [[a d]| | |]; cbn; [apply Hf|done..]. Qed.

Lemma parse_header_terminates data : parse_header data <> Spin.
Proof.
  unfold parse_header. destruct (size_of data <? HEADER_SIZE); [done|].
  do 6 (apply bind_terminates; [auto with decoders|intros ? ?]). by case_match_goal.
Qed.

(** ** The type of what is decoded *)

(** Every value [dec] returns satisfies [P]. *)
Definition yields {A} (P : A -> Prop) (dec : decoder A) : Prop := forall data x data', dec data = Done (x, data') -> P x.

Lemma yields_ret {A} (P : A -> Prop) x : P x -> yields P (fun data => Done (x, data)).
Proof. intros Hx data y d [= <- _]. done. Qed.

Lemma yields_bind {A B} (P : A -> Prop) (Q : B -> Prop) (dec : decoder A) (f : A -> decoder B) :
  yields P dec -> (forall x, P x -> yields Q (f x)) -> yields Q (fun data => '(x, data') ← dec data; f x data').
Proof.
  intros Hd Hf data y d E. destruct (dec data) as [[x d1]| | |] eqn:Ex; try done. cbn [mbind outcome_bind] in E. by eapply Hf; [eapply Hd|].
Qed.

Lemma le_bytes_value bs : size_of bs <= 8 -> or_bytes 0 0 bs = le_value bs.
Proof. intros H. rewrite or_bytes_value by lia. change (2 ^ (8 * 0)) with 1. lia. Qed.

Lemma decode_u64_yields : yields is_u64 decode_u64.
Proof.
  intros data x d. unfold decode_u64. destruct (Z.ltb_spec (size_of data) 8) as [|Hl]; [done|]. intros [= <- _].
  assert (size_of (take 8 data) = 8) as H8 by (unfold size_of in *; rewrite length_take; lia).
  rewrite le_bytes_value by lia. pose proof (le_value_range (take 8 data)) as Hr. by rewrite H8 in Hr.
Qed.

Lemma lor_bytes_range n a b : 0 <= n -> 0 <= a < 2 ^ n -> 0 <= b < 2 ^ n -> 0 <= Z.lor a b < 2 ^ n.
Proof.
  intros Hn Ha Hb. assert (0 <= Z.lor a b) by (apply Z.lor_nonneg; lia). split; [done|].
  apply Z.bounded_iff_bits_nonneg; [done..|]. intros l Hl. rewrite Z.lor_spec, !(testbit_small _ n) by done. done.
Qed.

Lemma decode_u32_yields : yields is_u32 decode_u32.
Proof.
  intros [|b0 [|b1 [|b2 [|b3 rest]]]] x d; try done. intros [= <- _]. pose proof (Z_of_byte_range b0).
  repeat apply (lor_bytes_range 32); try apply Z.mod_pos_bound; lia.
Qed.

Lemma decode_u16_yields : yields is_u16 decode_u16.
Proof.
  intros [|b0 [|b1 rest]] x d; try done. intros [= <- _]. pose proof (Z_of_byte_range b0).
  apply (lor_bytes_range 16); try apply Z.mod_pos_bound; lia.
Qed.

Lemma decode_blob_yields what : yields blob_ok (decode_blob what).
Proof.
  apply (yields_bind is_u32); [apply decode_u32_yields|]. intros len Hlen data x d. destruct (size_of data <? len); [done|]. intros [= <- _].
  unfold blob_ok, is_u32, size_of in *. rewrite length_take. lia.
Qed.

Lemma decode_flag_yields : yields (fun _ => True) decode_flag.
Proof. done. Qed.

Create HintDb typed discriminated.
#[export] Hint Resolve decode_u64_yields decode_u32_yields decode_u16_yields decode_flag_yields : typed.
#[export] Hint Extern 1 (yields _ decode_string) => apply decode_blob_yields : typed.
#[export] Hint Extern 1 (yields _ decode_bytes) => apply decode_blob_yields : typed.

(** Peel one decoder off a sequence, with the type of what it returns. *)
Ltac typed_peel :=
  match goal with
  | |- yields _ (fun data => mbind _ (_ data)) => eapply yields_bind; [solve [auto with typed]|intros ? ?]
  | |- yields _ (fun data => Done (_, data)) => apply yields_ret
  end.

Lemma decode_range_yields : yields range_u64 decode_range.
Proof. unfold decode_range. repeat typed_peel. done. Qed.

Lemma decode_meta_yields : yields (fun m => meta_ok m /\ wire_meta m = m) decode_meta.
Proof. unfold decode_meta. repeat typed_peel. done. Qed.

Lemma decode_node_info_yields : yields (fun n => node_ok n /\ wire_node n = n) decode_node_info.
Proof. unfold decode_node_info. repeat typed_peel. by split_and!. Qed.

Lemma decode_opt_yields {A} (P : A -> Prop) (dec : decoder A) : yields P dec -> yields (opt_ok P) (decode_opt dec).
Proof. intros Hd. unfold decode_opt. typed_peel. destruct x; [eapply yields_bind; [exact Hd|intros ? ?]|]; by typed_peel. Qed.

Lemma decode_list_yields {A} (P : A -> Prop) (dec : decoder A) :
  yields P dec -> yields (fun l => Forall P l /\ size_of l < 2 ^ 32) (decode_list dec).
Proof.
  intros Hd. unfold decode_list. typed_peel. intros data l d.
  assert (forall fuel i acc data l, Forall P acc -> size_of acc = i -> i <= x -> loop fuel (decode_list_step dec x) (i, acc, data) = Some (Done (l, d)) ->
    Forall P l /\ size_of l <= x) as Hloop.
  { induction fuel as [|fuel IH]; intros i acc data' l' Hacc Hi Hx E; [done|]. cbn [loop decode_list_step] in E.
    destruct (Z.ltb_spec i x) as [Hlt|]; [|by injection E as -> _; rewrite Hi].
    destruct (dec data') as [[y d']| | |] eqn:Ey; try done. apply IH in E; [done|..].
    - apply Forall_app. split; [done|]. apply Forall_singleton. by eapply Hd.
    - rewrite size_of_app, Hi. reflexivity.
    - lia. }
  destruct (loop _ _ _) as [r|] eqn:E; [|done]. intros [= ->]. destruct H as [H0 H1]. apply Hloop in E as [HF Hs]; [split; [done|lia]|done|done|lia].
Qed.

#[export] Hint Resolve decode_range_yields decode_meta_yields decode_node_info_yields decode_opt_yields decode_list_yields : typed.

Lemma error_of_u32_ok z : is_u32 z -> error_ok (error_of_u32 z).
Proof.
  intros Hz. assert (error_to_u32 (error_of_u32 z) = z) as E by (unfold error_of_u32; repeat case_match; done). unfold error_ok. by rewrite E.
Qed.

Lemma result_of_u32_ok z : is_u32 z -> result_ok (result_of_u32 z).
Proof.
  intros Hz. assert (result_to_u32 (result_of_u32 z) = z) as E by (unfold result_of_u32; repeat case_match; done). unfold result_ok. by rewrite E.
Qed.

Lemma i64_fits z : - 2 ^ 63 <= i64 z < 2 ^ 63.
Proof. unfold i64. pose proof (Z.mod_pos_bound (z + 2 ^ 63) (2 ^ 64)). lia. Qed.

Lemma wire_nodes l : Forall (fun n => node_ok n /\ wire_node n = n) l -> Forall node_ok l /\ wire_node <$> l = l.
Proof. induction 1 as [|n l [Hn Hw] _ [IH1 IH2]]; [done|]. split; [by constructor|]. by rewrite fmap_cons, Hw, IH2. Qed.

Lemma wire_metas m : opt_ok (fun m => meta_ok m /\ wire_meta m = m) m -> opt_ok meta_ok m /\ wire_meta <$> m = m.
Proof. destruct m as [m|]; [|done]. cbn. intros [Hm ->]. done. Qed.

(** A message whose fields are within their types and which has no time stamps to lose. *)
Definition received `{Hasher} (m : Message) : Prop := msg_ok m /\ decodable m = true /\ wire m = m.

Lemma decode_payload_yields `{Hasher} (type : Z) : yields received (decode_payload type).
Proof.
  unfold decode_payload. destruct (message_type type) as [[]|]; try done; repeat typed_peel; unfold received; cbn [msg_ok decodable wire].
  - destruct H0 as [Hn ->], H2. by split_and!.
  - destruct H0 as [Hn ->]. by split_and!.
  - destruct H1 as [[Hn ->]%wire_nodes Hs]. by split_and!.
  - by split_and!.
  - destruct (wire_metas x0 H1) as [Hm ->]. split_and!; auto using result_of_u32_ok.
  - split_and!; try done. destruct x1; [apply i64_fits|done].
  - split_and!; auto using error_of_u32_ok.
  - by split_and!.
  - split_and!; auto using error_of_u32_ok.
  - split_and!; auto using error_of_u32_ok.
Qed.

(** The header comes back with its fields within their types. *)
Lemma parse_header_yields data h :
  parse_header data = Done h ->
  h_magic h = MAGIC /\ is_u16 (h_version h) /\ is_u16 (h_type h) /\ is_u32 (h_length h) /\ is_u32 (h_request_id h) /\ is_u64 (h_timestamp h).
Proof.
  unfold parse_header. destruct (size_of data <? HEADER_SIZE); [done|]. intros E.
  repeat (apply outcome_bind_Done in E as ([? ?] & ?E & E)). destruct (Z.eqb_spec z MAGIC) as [->|]; [|done]. injection E as <-.
  cbn [h_magic h_version h_type h_length h_request_id h_timestamp].
  split_and!; [done|by eapply decode_u16_yields|by eapply decode_u16_yields|by eapply decode_u32_yields|by eapply decode_u32_yields|by eapply decode_u64_yields].
Qed.


(** ** Properties *)

(** C19: a message of one of the ten kinds the decoder knows, with fields within their types, comes
    back from the wire as it was sent, except for the time stamps, which are not sent; the header
    carries the magic number, the version, the type, the payload length, the request id and the
    sending time, and bytes that follow the message are ignored. *)
Theorem codec_roundtrip `{Hasher} now_ms m rid rest :
  msg_ok m -> decodable m = true -> is_u32 rid ->
  decode (encode now_ms m rid ++ rest) =
  Done (wire m, mkHeader MAGIC VERSION (type_code (encode_payload m).1)
                         (u32 (size_of (encode_payload m).2)) rid (u64 now_ms)).
Proof.
  intros Hok Hd Hr. rewrite decode_header_payload by done. by rewrite decode_payload_encode.
Qed.

Lemma codec_roundtrip_witness :
  exists h, decode (HH := fnv_hasher)
    (encode 7 (DeleteResponseMessage NotFound true) 42 ++ [x00]) = Done (DeleteResponseMessage NotFound true, h).
Proof.
  eexists. apply (codec_roundtrip (H := fnv_hasher) 7 (DeleteResponseMessage NotFound true) 42 [x00]).
  - split; [split; vm_compute; congruence|reflexivity].
  - reflexivity.
  - split; vm_compute; congruence.
Defined.

(** The other messages cannot be received. Availability checks and chunk reads are encoded with
    a type [decode] has no case for; every remaining kind is encoded as an error message without a
    payload, which [decode] finds truncated. *)
Theorem codec_undecodable `{Hasher} now_ms m rid :
  decodable m = false -> is_u32 rid ->
  decode (encode now_ms m rid) =
  Throw (match m with
         | CheckMessage _ _ | CheckResponseMessage _ _ _ | GetChunkMessage _ _ _
         | GetChunkResponseMessage _ _ => "Unknown message type"
         | _ => "Truncated u32"
         end).
Proof.
  intros Hd Hr. pose proof (decode_header_payload now_ms m rid [] Hr) as E. rewrite !app_nil_r in E.
  rewrite E. unfold decode_payload. rewrite message_type_code. by destruct m.
Qed.

Lemma codec_undecodable_witness :
  decode (HH := fnv_hasher) (encode 7 (CheckMessage (mkCacheKey [] 0 Hash128_zero) None) 42) = Throw "Unknown message type".
Proof.
  apply (codec_undecodable (H := fnv_hasher) 7 (CheckMessage (mkCacheKey [] 0 Hash128_zero) None) 42).
  - reflexivity.
  - split; vm_compute; congruence.
Defined.

(** Decoding ends on every input, also on a hostile one: the counted loops stop with the data
    they are given, whatever count the message claims. *)
Theorem decode_terminates `{Hasher} data : decode data <> Spin.
Proof.
  unfold decode. pose proof (parse_header_terminates data) as Hs.
  destruct (parse_header data) as [h| | |]; cbn [mbind outcome_bind]; try done.
  pose proof (decode_payload_steady (h_type h) (drop (Z.to_nat HEADER_SIZE) data)) as Hp.
  by destruct (decode_payload _ _) as [[m d]| | |].
Qed.

(** The flags of a message are read without a bounds check. Whenever the view ends where a flag
    is due, decoding has undefined behaviour instead of throwing: a [Delete] response, a [Get]
    request and a [Put] request cut off there, and a [Get] response without its metadata flag. *)
Theorem decode_flag_out_of_bounds `{Hasher} now_ms t len rid code key data :
  is_u32 len -> is_u32 rid -> is_u32 code -> blob_ok key -> blob_ok data ->
  t = TDeleteResponse \/ t = TGetResponse ->
  decode (encode_header now_ms (type_code t) len rid ++ encode_u32 code) = Undef /\
  decode (encode_header now_ms (type_code TGet) len rid ++ encode_string key) = Undef /\
  decode (encode_header now_ms (type_code TPut) len rid ++ encode_string key ++ encode_bytes data) = Undef.
Proof.
  intros Hl Hr Hc Hk Hd Ht. unfold decode. rewrite !parse_encode_header by done.
  cbn [mbind outcome_bind h_type]. rewrite !drop_app_length' by done.
  unfold decode_payload. rewrite !message_type_code. split_and!.
  - destruct Ht as [-> | ->];
      rewrite <- (app_nil_r (encode_u32 code)), decode_encode_u32; done.
  - rewrite <- (app_nil_r (encode_string key)), decode_encode_string; done.
  - rewrite decode_encode_string by done. cbn [mbind outcome_bind].
    rewrite <- (app_nil_r (encode_bytes data)), decode_encode_bytes; done.
Qed.

Lemma decode_flag_out_of_bounds_witness :
  decode (HH := fnv_hasher) (encode_header 0 (type_code TDeleteResponse) 4 1 ++ encode_u32 3) = Undef.
Proof.
  apply (decode_flag_out_of_bounds (H := fnv_hasher) 0 TDeleteResponse 4 1 3 [] []).
  - split; vm_compute; congruence.
  - split; vm_compute; congruence.
  - split; vm_compute; congruence.
  - reflexivity.
  - reflexivity.
  - left. reflexivity.
Defined.

(** C20: whatever bytes come in, what [decode] accepts is typed: the header has the magic number and fields
    within their widths, every number, string and list of the message is within its C++ type, the cache
    key carries the hashes of its bytes, and the message can be sent on: encoded again it is received as
    the same message. *)
Theorem decode_well_typed `{Hasher} data m h :
  decode data = Done (m, h) ->
  received m /\
  (h_magic h = MAGIC /\ is_u16 (h_version h) /\ is_u16 (h_type h) /\ is_u32 (h_length h) /\ is_u32 (h_request_id h) /\ is_u64 (h_timestamp h)) /\
  forall now_ms rid rest, is_u32 rid -> exists h', decode (encode now_ms m rid ++ rest) = Done (m, h').
Proof.
  unfold decode at 1. intros (h1 & Eh & E)%outcome_bind_Done. apply outcome_bind_Done in E as ([m1 d1] & Em & [= <- <-]).
  apply parse_header_yields in Eh. apply decode_payload_yields in Em. pose proof Em as (Hok & Hd & Hw). split; [done|]. split; [done|].
  intros now_ms rid rest Hr. rewrite decode_header_payload by done. rewrite decode_payload_encode by done. cbn [mbind outcome_bind]. rewrite Hw. by eexists.
Qed.

Lemma decode_well_typed_witness :
  exists m h, decode (HH := fnv_hasher) (encode 7 (GossipPushMessage 5 [mkNodeInfo 1 (str "host") 80 0 0 0 0 3 1 9]) 42) = Done (m, h) /\
    received (H := fnv_hasher) m.
Proof.
  destruct (decode (HH := fnv_hasher) (encode 7 (GossipPushMessage 5 [mkNodeInfo 1 (str "host") 80 0 0 0 0 3 1 9]) 42)) as [[m h]| | |] eqn:E;
    [|vm_compute in E; discriminate E..].
  exists m, h. split; [reflexivity|].
  exact (proj1 (decode_well_typed (H := fnv_hasher) (encode 7 (GossipPushMessage 5 [mkNodeInfo 1 (str "host") 80 0 0 0 0 3 1 9]) 42) m h E)).
Defined.
