(* ===== verification/DiskCache.v ===== *)
(** * The disk tier: [include/elcache/disk_cache.hpp], [src/cache/disk_cache.cpp]

    [DiskStore] works on files and directories; the file system is part of the state, with the results
    of the coming system calls, so that short transfers and failures can be told. [DiskCache] keeps a
    file per chunk under its content hash and a file per descriptor, an index of both in memory, and
    the set [access_order_] that eviction follows. The system clock is the argument [now], the
    monotonic clock the section's [steady]. The coroutines run to completion one after the other. *)

From S2P Require Import Prelude CStd CDouble Types Chunk CacheApi CacheInterface ArcCache MemoryCache CacheTier Codec.
From Stdlib Require Import Strings.Byte.
Open Scope Z_scope.

(** ** Paths *)

(** A [std::filesystem::path] as its components; [operator/] appends. *)
Abbreviation Path := (list bytes).

Definition path_parent (p : Path) : Path := take (length p - 1) p.
Definition path_filename (p : Path) : bytes := default [] (last p).

(** Position of the last dot of a file name; a name that starts with it has no extension. *)
Fixpoint split_name (name : bytes) : option (bytes * bytes) :=
  match name with
  | [] => None
  | b :: rest =>
      match split_name rest with
      | Some (s, e) => Some (b :: s, e)
      | None => if bool_decide (b = x2e) then Some ([], name) else None
      end
  end.

Definition name_stem (name : bytes) : bytes :=
  match split_name name with Some (b :: s, _) => b :: s | _ => name end.

Definition name_extension (name : bytes) : bytes :=
  match split_name name with Some (_ :: _, e) => e | _ => [] end.

(** ** [DiskStore] *)

(** The file system, and the results of the coming system calls: [None] is success in full, [Some n] a
    failure of [open], [fstat], [fallocate] or [mkdir], and for [pread] and [pwrite] a transfer of at
    most [n] bytes (nothing or an error when [n] is not positive); where the code calls a function of
    [std::filesystem] without an error code, the failure is thrown. After the end of the list all calls
    succeed. *)
Record Disk := mkDisk {
  dk_files : gmap Path bytes;
  dk_dirs : gset Path;
  dk_sys : list (option Z);
  dk_initialized : bool
}.

Definition set_files (d : Disk) (f : gmap Path bytes) : Disk := mkDisk f (dk_dirs d) (dk_sys d) (dk_initialized d).
Definition set_sys (d : Disk) (s : list (option Z)) : Disk := mkDisk (dk_files d) (dk_dirs d) s (dk_initialized d).

(** The fields of the configuration the code reads. *)
Record DiskCacheConfig := mkDiskConfig {
  dcfg_path : Path;
  dcfg_max_size : Z;
  dcfg_use_fallocate : bool;
  dcfg_high_watermark : double;
  dcfg_low_watermark : double
}.

Definition next_sys (s : list (option Z)) : option Z * list (option Z) :=
  match s with [] => (None, []) | r :: rest => (r, rest) end.

(** How many of [n] bytes a call transfers. *)
Definition transfer (r : option Z) (n : Z) : Z := match r with None => n | Some k => Z.min k n end.

(** The [pread] loop: [total_read], the bytes so far, the coming calls. *)
Definition read_step (content : bytes) (offset length : Z) (s : Z * bytes * list (option Z))
  : (Z * bytes * list (option Z)) + (bytes * list (option Z)) :=
  let '(total_read, buffer, sys) := s in
  if total_read <? length then
    let pos := offset +w total_read in
    let '(r, sys') := next_sys sys in
    let n := Z.min (transfer r (length - total_read)) (size_of content - pos) in
    if n <=? 0 then inr (buffer, sys')
    else inl (total_read + n, buffer ++ slice pos n content, sys')
  else inr (buffer, sys).

(** [read_file]: an empty buffer when the file cannot be opened. *)
Definition read_file (d : Disk) (path : Path) (offset length : Z) : outcome (bytes * Disk) :=
  let '(r, sys) := next_sys (dk_sys d) in
  match r, dk_files d !! path with
  | None, Some content =>
      let '(length, sys) :=
        if length =? 0 then
          let '(r, sys) := next_sys sys in
          (if bool_decide (r = None) then size_of content -w offset else 0, sys)
        else (length, sys) in
      if 2 ^ 63 <=? length then Throw "cannot create std::vector larger than max_size()"
      else
        match loop (S (S (S (List.length sys)))) (read_step content offset length) (0, [], sys) with
        | Some (buffer, sys') => Done (buffer, set_sys d sys')
        | None => Spin
        end
  | _, _ => Done ([], set_sys d sys)
  end.

(** [pwrite] of [b] at [off] in a file with the given contents. *)
Definition pwrite_at (content : bytes) (off : Z) (b : bytes) : bytes :=
  take (Z.to_nat off) content ++ b ++ drop (Z.to_nat (off + size_of b)) content.

Definition write_step (data : bytes) (s : Z * bytes * list (option Z))
  : (Z * bytes * list (option Z)) + (bool * bytes * list (option Z)) :=
  let '(total_written, content, sys) := s in
  if total_written <? size_of data then
    let '(r, sys') := next_sys sys in
    let n := transfer r (size_of data - total_written) in
    if n <? 0 then inr (false, content, sys')
    else if n =? 0 then inr (true, content, sys')
    else inl (total_written + n, pwrite_at content total_written (slice total_written n data), sys')
  else inr (true, content, sys).

Section disk_cache.
Context `{HH : Hasher} (cfg : DiskCacheConfig) (steady : nat -> Z) (strerror : bytes).

(** [write_file]: create or truncate, pre-allocate, write. [fsync] changes nothing a reader sees. *)
Definition write_file (d : Disk) (path : Path) (data : bytes) : outcome (Status * Disk) :=
  let '(r, sys) := next_sys (dk_sys d) in
  if bool_decide (r = None) && bool_decide (path_parent path ∈ dk_dirs d) && bool_decide (path ∉ dk_dirs d) then
    let '(content, sys) :=
      if dcfg_use_fallocate cfg && (0 <? size_of data) then
        let '(r, sys) := next_sys sys in
        (if bool_decide (r = None) then replicate (length data) x00 else [], sys)
      else ([], sys) in
    match loop (S (S (S (List.length sys)))) (write_step data) (0, content, sys) with
    | Some (ok, content', sys') =>
        Done (if ok : bool then make_ok else status_error DiskError (str "Write failed: " ++ strerror),
              set_sys (set_files d (<[path := content']> (dk_files d))) sys')
    | None => Spin
    end
  else Done (status_error DiskError (str "Failed to open file for writing: " ++ strerror), set_sys d sys).

(** A call of [std::filesystem] that throws its failure. *)
Definition fs_call (d : Disk) : outcome Disk :=
  let '(r, sys) := next_sys (dk_sys d) in
  match r with None => Done (set_sys d sys) | Some _ => Throw "filesystem_error" end.

(** [std::filesystem::remove] is true when there was such a file. *)
Definition delete_file (d : Disk) (path : Path) : outcome (Status * Disk) :=
  d1 ← fs_call d;
  Done (if bool_decide (is_Some (dk_files d1 !! path)) then (make_ok, set_files d1 (delete path (dk_files d1)))
        else (status_error DiskError (str "Failed to delete file"), d1)).

Definition is_there (d : Disk) (path : Path) : bool :=
  bool_decide (is_Some (dk_files d !! path)) || bool_decide (path ∈ dk_dirs d).

Definition file_exists (d : Disk) (path : Path) : outcome (bool * Disk) :=
  d1 ← fs_call d; Done (is_there d1 path, d1).

(** 0 for a file that is not there. *)
Definition file_size (d : Disk) (path : Path) : Z := size_of (default [] (dk_files d !! path)).

(** The path and all its ancestors. *)
Definition with_parents (path : Path) : list Path := (fun n => take n path) <$> seq 1 (length path).

(** [create_directories] reports its failure in [ec]. *)
Definition create_directories (d : Disk) (path : Path) : Status * Disk :=
  let '(r, sys) := next_sys (dk_sys d) in
  if bool_decide (r = None) && forallb (fun p => bool_decide (dk_files d !! p = None)) (with_parents path) then
    (make_ok, mkDisk (dk_files d) (dk_dirs d ∪ list_to_set (with_parents path)) sys (dk_initialized d))
  else (status_error DiskError (str "Failed to create directory: " ++ strerror), set_sys d sys).

Definition ensure_directory (d : Disk) (path : Path) : outcome (Status * Disk) :=
  '(found, d1) ← file_exists d path;
  Done (if found : bool then (make_ok, d1) else create_directories d1 path).

(** [snprintf("%02x", i)]. *)
Definition hex2 (i : Z) : bytes := [digit_char (i / 16); digit_char (i mod 16)].

Fixpoint ensure_all (d : Disk) (dirs : list Path) : outcome (Status * Disk) :=
  match dirs with
  | [] => Done (make_ok, d)
  | p :: rest => '(status, d1) ← ensure_directory d p;
                 if is_ok status then ensure_all d1 rest else Done (status, d1)
  end.

Definition shard_dirs : list Path := (fun i => dcfg_path cfg ++ [str "chunks"; hex2 i]) <$> seqZ 0 256.

Definition store_init (d : Disk) : outcome (Status * Disk) :=
  '(status, d1) ← ensure_directory d (dcfg_path cfg);
  if is_ok status then
    '(status, d2) ← ensure_all d1 shard_dirs;
    if is_ok status then
      '(status, d3) ← ensure_directory d2 (dcfg_path cfg ++ [str "descriptors"]);
      if is_ok status then Done (make_ok, mkDisk (dk_files d3) (dk_dirs d3) (dk_sys d3) true)
      else Done (status, d3)
    else Done (status, d2)
  else Done (status, d1).

(** ** [DiskCache] *)

(** An entry of [access_order_], a [std::set] ordered by [last_access] alone. *)
Record AccessEntry := mkAccess { ae_id : ChunkId; ae_last_access : Z; ae_size : Z }.

(** [insert]: nothing changes when an entry with the same time is there. *)
Fixpoint access_insert (e : AccessEntry) (l : list AccessEntry) : list AccessEntry :=
  match l with
  | [] => [e]
  | e' :: rest =>
      if ae_last_access e <? ae_last_access e' then e :: l
      else if ae_last_access e' <? ae_last_access e then e' :: access_insert e rest
      else l
  end.

(** [dc_tick] counts the readings of the monotonic clock. *)
Record DiskCache := mkDiskCache {
  dc_store : Disk;
  dc_descriptors : gmap CacheKey ValueDescriptor;
  dc_chunk_paths : gmap ChunkId Path;
  dc_access : list AccessEntry;
  dc_current_size : Z;
  dc_hits : Z;
  dc_misses : Z;
  dc_bytes_read : Z;
  dc_bytes_written : Z;
  dc_evictions : Z;
  dc_tick : nat
}.

Definition dc_make (disk : Disk) : DiskCache := mkDiskCache disk ∅ ∅ [] 0 0 0 0 0 0 0.

Definition dc_with_store (c : DiskCache) (d : Disk) : DiskCache :=
  mkDiskCache d (dc_descriptors c) (dc_chunk_paths c) (dc_access c) (dc_current_size c)
    (dc_hits c) (dc_misses c) (dc_bytes_read c) (dc_bytes_written c) (dc_evictions c) (dc_tick c).

Definition dc_with_descriptors (c : DiskCache) (ds : gmap CacheKey ValueDescriptor) : DiskCache :=
  mkDiskCache (dc_store c) ds (dc_chunk_paths c) (dc_access c) (dc_current_size c)
    (dc_hits c) (dc_misses c) (dc_bytes_read c) (dc_bytes_written c) (dc_evictions c) (dc_tick c).

Definition dc_with_index (c : DiskCache) (paths : gmap ChunkId Path) (access : list AccessEntry) (size : Z) : DiskCache :=
  mkDiskCache (dc_store c) (dc_descriptors c) paths access size
    (dc_hits c) (dc_misses c) (dc_bytes_read c) (dc_bytes_written c) (dc_evictions c) (dc_tick c).

(** Hits, misses, bytes read and written, evictions advanced. *)
Definition dc_count (c : DiskCache) (h mi br bw ev : Z) : DiskCache :=
  mkDiskCache (dc_store c) (dc_descriptors c) (dc_chunk_paths c) (dc_access c) (dc_current_size c)
    (dc_hits c +w h) (dc_misses c +w mi) (dc_bytes_read c +w br) (dc_bytes_written c +w bw)
    (dc_evictions c +w ev) (dc_tick c).

(** [Clock::now()]. *)
Definition dc_now (c : DiskCache) : Z * DiskCache :=
  (steady (dc_tick c),
   mkDiskCache (dc_store c) (dc_descriptors c) (dc_chunk_paths c) (dc_access c) (dc_current_size c)
     (dc_hits c) (dc_misses c) (dc_bytes_read c) (dc_bytes_written c) (dc_evictions c) (S (dc_tick c))).

Definition chunk_path (id : ChunkId) : Path :=
  let hex := Hash128_to_hex id in
  dcfg_path cfg ++ [str "chunks"; take 2 hex; hex ++ str ".chunk"].

Definition descriptor_path (key : CacheKey) : Path :=
  dcfg_path cfg ++ [str "descriptors"; Hash128_to_hex (key_hash128 key) ++ str ".desc"].

(** *** Chunks *)

(** [get_chunk]: looks at the file only; the index is left alone. *)
Definition dc_get_chunk (c : DiskCache) (id : ChunkId) : outcome (SharedChunk * DiskCache) :=
  '(data, d) ← read_file (dc_store c) (chunk_path id) 0 0;
  Done (if bool_decide (data = []) then None else Some (Chunk_make data), dc_with_store c d).

Definition dc_put_chunk (c : DiskCache) (chunk : SharedChunk) : outcome (Status * DiskCache) :=
  match chunk with
  | None => Done (status_error InvalidArgument [], c)
  | Some ch =>
      let '(id, ch') := Chunk_id ch in
      let path := chunk_path id in
      '(status, d) ← write_file (dc_store c) path (chunk_data ch');
      let c1 := dc_with_store c d in
      if is_ok status then
        let '(t, c2) := dc_now c1 in
        Done (status, dc_with_index c2 (<[id := path]> (dc_chunk_paths c2))
                        (access_insert (mkAccess id t (Chunk_size ch')) (dc_access c2))
                        (dc_current_size c2 +w Chunk_size ch'))
      else Done (status, c1)
  end.

(** The first entry of the chunk leaves [access_order_]. *)
Fixpoint access_remove (id : ChunkId) (l : list AccessEntry) : option (AccessEntry * list AccessEntry) :=
  match l with
  | [] => None
  | e :: rest =>
      if decide (ae_id e = id) then Some (e, rest)
      else match access_remove id rest with Some (x, rest') => Some (x, e :: rest') | None => None end
  end.

(** The chunk leaves the index. *)
Definition dc_forget (c : DiskCache) (id : ChunkId) : DiskCache :=
  match dc_chunk_paths c !! id with
  | None => c
  | Some _ =>
      match access_remove id (dc_access c) with
      | Some (e, rest) =>
          dc_with_index c (delete id (dc_chunk_paths c)) rest (dc_current_size c -w ae_size e)
      | None => dc_with_index c (delete id (dc_chunk_paths c)) (dc_access c) (dc_current_size c)
      end
  end.

Definition dc_delete (c : DiskCache) (path : Path) : outcome (Status * DiskCache) :=
  '(status, d) ← delete_file (dc_store c) path; Done (status, dc_with_store c d).

Definition dc_remove_chunk (c : DiskCache) (id : ChunkId) : outcome (Status * DiskCache) :=
  dc_delete (dc_forget c id) (chunk_path id).

Definition dc_has_chunk (c : DiskCache) (id : ChunkId) : bool := bool_decide (is_Some (dc_chunk_paths c !! id)).

Fixpoint dc_get_chunks (c : DiskCache) (ids : list ChunkId) : outcome (list SharedChunk * DiskCache) :=
  match ids with
  | [] => Done ([], c)
  | id :: rest =>
      '(chunk, c1) ← dc_get_chunk c id;
      '(chunks, c2) ← dc_get_chunks c1 rest;
      Done (chunk :: chunks, c2)
  end.

(** *** Descriptors *)

Definition dc_get_descriptor (c : DiskCache) (key : CacheKey) : option ValueDescriptor := dc_descriptors c !! key.

(** The bytes of a descriptor file, on a little-endian machine. *)
Definition descriptor_bytes (desc : ValueDescriptor) : bytes :=
  encode_u32 (u32 (CacheKey_size (vd_key desc))) ++ key_data (vd_key desc) ++
  encode_u64 (vd_total_size desc) ++ encode_u64 (size_of (vd_chunks desc)) ++
  concat ((fun h => encode_u64 (low h) ++ encode_u64 (high h)) <$> vd_chunks desc).

Definition dc_put_descriptor (c : DiskCache) (desc : ValueDescriptor) : outcome (Status * DiskCache) :=
  '(status, d) ← write_file (dc_store c) (descriptor_path (vd_key desc)) (descriptor_bytes desc);
  let c1 := dc_with_store c d in
  Done (status, if is_ok status then dc_with_descriptors c1 (<[vd_key desc := desc]> (dc_descriptors c1)) else c1).

Definition dc_remove_descriptor (c : DiskCache) (key : CacheKey) : outcome (Status * DiskCache) :=
  dc_delete (dc_with_descriptors c (delete key (dc_descriptors c))) (descriptor_path key).

(** *** Eviction *)

(** The loop of [evict]: [evicted] and the cache; an exception of the deletion ends it. *)
Definition evict_loop_step (target bytes_needed : Z) (s : Z * DiskCache)
  : (Z * DiskCache) + outcome (Z * DiskCache) :=
  let '(evicted, c) := s in
  if (target <? dc_current_size c) || (evicted <? bytes_needed) then
    match dc_access c with
    | [] => inr (Done (evicted, c))
    | e :: rest =>
        let c1 := dc_with_index c (delete (ae_id e) (dc_chunk_paths c)) rest (dc_current_size c -w ae_size e) in
        let c2 := dc_count c1 0 0 0 0 1 in
        match dc_delete c2 (chunk_path (ae_id e)) with
        | Done (_, c3) => inl (evicted +w ae_size e, c3)
        | Throw w => inr (Throw w)
        | Undef => inr Undef
        | Spin => inr Spin
        end
    end
  else inr (Done (evicted, c)).

Definition evict_target : Z := size_of_double (dmul (double_of_Z (dcfg_max_size cfg)) (dcfg_low_watermark cfg)).

Definition dc_evict (c : DiskCache) (bytes_needed : Z) : outcome (Z * DiskCache) :=
  default Spin (loop (S (length (dc_access c))) (evict_loop_step evict_target bytes_needed) (0, c)).

(** *** [get] *)

Fixpoint dc_fetch_chunks (c : DiskCache) (desc : ValueDescriptor) (allow_partial : bool)
    (indices : list Z) (chunks : list SharedChunk) (all_found : bool)
  : outcome (list SharedChunk * bool * DiskCache) :=
  match indices with
  | [] => Done (chunks, all_found, c)
  | idx :: rest =>
      match vd_chunks desc !! Z.to_nat idx with
      | None => Done (chunks, false, c)
      | Some id =>
          '(chunk, c') ← dc_get_chunk c id;
          match chunk with
          | None => if allow_partial then dc_fetch_chunks c' desc allow_partial rest (chunks ++ [None]) false
                    else Done (chunks, false, c')
          | Some ch => dc_fetch_chunks c' desc allow_partial rest (chunks ++ [Some ch]) all_found
          end
      end
  end.

(** The assembling loop of [get]: a missing chunk moves neither [current] nor [remaining]. *)
Fixpoint dc_assemble (start_chunk i : Z) (chunks : list SharedChunk) (current remaining : Z) (data : bytes) : bytes :=
  match chunks with
  | [] => data
  | chunk :: rest =>
      if 0 <? remaining then
        match chunk with
        | None => dc_assemble start_chunk (i +w 1) rest current remaining data
        | Some ch =>
            let chunk_start := (start_chunk +w i) *w CHUNK_SIZE in
            let offset_in_chunk := if chunk_start <? current then current -w chunk_start else 0 in
            let to_copy := Z.min remaining (Chunk_size ch -w offset_in_chunk) in
            dc_assemble start_chunk (i +w 1) rest (current +w to_copy) (remaining -w to_copy)
                        (data ++ Chunk_read ch offset_in_chunk to_copy)
        end
      else data
  end.

Definition dc_finish_get (c : DiskCache) (desc : ValueDescriptor) (opts : ReadOptions) (range : Range)
    (chunks : list SharedChunk) (all_found : bool) : ReadResult * DiskCache :=
  if bool_decide (chunks = []) || (negb all_found && negb (ro_allow_partial opts)) then
    (ReadResult_default, dc_count c 0 1 0 0 0)
  else
    let data := dc_assemble (r_offset range / CHUNK_SIZE) 0 chunks (r_offset range) (r_length range) [] in
    let hit := all_found && (size_of data =? r_length range) in
    (mkReadResult (if hit then Hit else PartialHit) data (mkRange (r_offset range) (size_of data))
                  (Some (vd_metadata desc)),
     dc_count c (if hit then 1 else 0) 0 (size_of data) 0 0).

Definition dc_get (now : Z) (c : DiskCache) (key : CacheKey) (opts : ReadOptions)
  : outcome (ReadResult * DiskCache) :=
  match dc_get_descriptor c key with
  | None => Done (ReadResult_default, dc_count c 0 1 0 0 0)
  | Some desc =>
      if is_expired now (vd_metadata desc) then
        Done (mkReadResult Expired [] (mkRange 0 0) None, dc_count c 0 1 0 0 0)
      else
        let range := match ro_range opts with
                     | Some r => r
                     | None => mkRange 0 (vd_total_size desc)
                     end in
        if vd_total_size desc <=? r_offset range then
          Done (mkReadResult Hit [] (mkRange (r_offset range) 0) (Some (vd_metadata desc)), c)
        else
          let effective_length := Z.min (r_length range) (vd_total_size desc -w r_offset range) in
          let range := mkRange (r_offset range) effective_length in
          '(chunks, all_found, c') ←
            dc_fetch_chunks c desc (ro_allow_partial opts) (chunks_for_range desc range) [] true;
          Done (dc_finish_get c' desc opts range chunks all_found)
  end.

(** *** [put], [remove], [check], [metadata], [stats] *)

(** The loop of [put]: [offset], the identifiers so far, the cache; it ends early with the status of a
    failed write. *)
Definition put_loop_step (value : bytes) (s : Z * list ChunkId * DiskCache)
  : (Z * list ChunkId * DiskCache) + outcome (option Status * list ChunkId * DiskCache) :=
  let '(offset, ids, c) := s in
  if offset <? size_of value then
    let chunk_size := Z.min CHUNK_SIZE (size_of value -w offset) in
    let '(id, chunk) := Chunk_id (Chunk_make (slice offset chunk_size value)) in
    match dc_put_chunk c (Some chunk) with
    | Done (status, c') =>
        if is_ok status then inl (offset +w chunk_size, ids ++ [id], c')
        else inr (Done (Some status, ids ++ [id], c'))
    | Throw w => inr (Throw w)
    | Undef => inr Undef
    | Spin => inr Spin
    end
  else inr (Done (None, ids, c)).

Definition needs_eviction (c : DiskCache) (needed : Z) : bool :=
  dltb (dmul (double_of_Z (dcfg_max_size cfg)) (dcfg_high_watermark cfg))
       (double_of_Z (dc_current_size c +w needed)).

Definition dc_put (now : Z) (c : DiskCache) (key : CacheKey) (value : bytes) (opts : WriteOptions)
  : outcome (Status * DiskCache) :=
  if MAX_KEY_SIZE <? CacheKey_size key then Done (status_error KeyTooLarge [], c)
  else
    let needed := size_of value in
    c1 ← (if needs_eviction c needed then '(_, c1) ← dc_evict c needed; Done c1 else Done c);
    '(failed, ids, c2) ← default Spin (loop (Z.to_nat (size_of value / CHUNK_SIZE + 2)) (put_loop_step value) (0, [], c1));
    match failed with
    | Some status => Done (status, c2)
    | None =>
        let desc := mkDescriptor key (size_of value) ids (put_metadata now value (size_of ids) opts) in
        '(status, c3) ← dc_put_descriptor c2 desc;
        if is_ok status then Done (make_ok, dc_count c3 0 0 0 (size_of value) 0) else Done (status, c3)
    end.

(** The loop of [remove]; the statuses are dropped. *)
Fixpoint dc_remove_chunks (c : DiskCache) (ids : list ChunkId) : outcome DiskCache :=
  match ids with
  | [] => Done c
  | id :: rest => '(_, c1) ← dc_remove_chunk c id; dc_remove_chunks c1 rest
  end.

Definition dc_remove (c : DiskCache) (key : CacheKey) (opts : DeleteOptions) : outcome (Status * DiskCache) :=
  match dc_get_descriptor c key with
  | None => Done (status_error NotFound [], c)
  | Some desc =>
      c1 ← dc_remove_chunks c (vd_chunks desc);
      '(_, c2) ← dc_remove_descriptor c1 key;
      Done (make_ok, c2)
  end.

Definition dc_mark_step (c : DiskCache) (desc : ValueDescriptor) (partial : PartialValue) (idx : Z) : PartialValue :=
  if idx <? size_of (vd_chunks desc) then
    match vd_chunks desc !! Z.to_nat idx with
    | Some id => if dc_has_chunk c id then mark_chunk_available partial idx id else partial
    | None => partial
    end
  else partial.

Definition dc_check (c : DiskCache) (key : CacheKey) (range : option Range) : AvailabilityResult :=
  match dc_get_descriptor c key with
  | None => AvailabilityResult_default
  | Some desc =>
      let check_range := match range with Some r => r | None => mkRange 0 (vd_total_size desc) end in
      let partial := foldl (dc_mark_step c desc) (PartialValue_make desc) (chunks_for_range desc check_range) in
      mkAvailability true (Some (vd_metadata desc)) (available_ranges partial) (missing_ranges partial check_range)
  end.

Definition dc_metadata (c : DiskCache) (key : CacheKey) : option CacheMetadata := vd_metadata <$> dc_get_descriptor c key.

Definition dc_stats (c : DiskCache) : Stats :=
  mkStats (dc_hits c) (dc_misses c) 0 (dc_bytes_read c) (dc_bytes_written c) (dc_evictions c)
          (Z.of_nat (size (dc_descriptors c))) (dc_current_size c) (dcfg_max_size cfg).

(** *** Start and stop *)

(** [listing] gives the regular files below a directory in the order its iterators visit them. To open an
    iterator, to step to the next entry (of a subdirectory too) and to reach the end are calls that
    throw their failure. *)
Fixpoint scan_descriptors (d : Disk) (paths : list Path) : outcome Disk :=
  d1 ← fs_call d;
  match paths with
  | [] => Done d1
  | p :: rest =>
      if bool_decide (name_extension (path_filename p) = str ".desc")
      then '(_, d2) ← read_file d1 p 0 0; scan_descriptors d2 rest
      else scan_descriptors d1 rest
  end.

(** [std::filesystem::file_size] without an error code. *)
Definition fs_file_size (d : Disk) (path : Path) : outcome (Z * Disk) :=
  d1 ← fs_call d; Done (file_size d1 path, d1).

Fixpoint scan_chunks (c : DiskCache) (paths : list Path) : outcome DiskCache :=
  d1 ← fs_call (dc_store c);
  match paths with
  | [] => Done (dc_with_store c d1)
  | p :: rest =>
      if bool_decide (name_extension (path_filename p) = str ".chunk") then
        id ← Hash128_from_hex (name_stem (path_filename p));
        '(size, d2) ← fs_file_size d1 p;
        let '(t, c1) := dc_now (dc_with_store c d2) in
        scan_chunks (dc_with_index c1 (<[id := p]> (dc_chunk_paths c1)) (access_insert (mkAccess id t size) (dc_access c1))
                       (dc_current_size c1 +w size)) rest
      else scan_chunks (dc_with_store c d1) rest
  end.

Definition load_index (listing : Path -> list Path) (c : DiskCache) : outcome (Status * DiskCache) :=
  let desc_dir := dcfg_path cfg ++ [str "descriptors"] in
  '(found, d) ← file_exists (dc_store c) desc_dir;
  if negb found then Done (make_ok, dc_with_store c d)
  else
    d1 ← fs_call d;
    d2 ← scan_descriptors d1 (listing desc_dir);
    let chunks_dir := dcfg_path cfg ++ [str "chunks"] in
    '(found, d3) ← file_exists d2 chunks_dir;
    if found : bool then
      d4 ← fs_call d3;
      c1 ← scan_chunks (dc_with_store c d4) (listing chunks_dir);
      Done (make_ok, c1)
    else Done (make_ok, dc_with_store c d3).

Definition save_index (c : DiskCache) : Status * DiskCache := (make_ok, c).

Definition dc_start (listing : Path -> list Path) (c : DiskCache) : outcome (Status * DiskCache) :=
  '(status, d) ← store_init (dc_store c);
  let c1 := dc_with_store c d in
  if is_ok status then load_index listing c1 else Done (status, c1).

Definition dc_stop (c : DiskCache) : DiskCache := (save_index c).2.

(** ** Paths *)

Lemma hex16_inj v w : is_u64 v -> is_u64 w -> hex16 v = hex16 w -> v = w.
Proof.
  intros Hv Hw E. pose proof (stoull_hex16 v Hv) as Ev. rewrite E, (stoull_hex16 w Hw) in Ev. by injection Ev.
Qed.

Lemma to_hex_inj a b : Hash128_wf a -> Hash128_wf b -> Hash128_to_hex a = Hash128_to_hex b -> a = b.
Proof.
  intros [Hal Hah] [Hbl Hbh] E. unfold Hash128_to_hex in E.
  apply app_inj_1 in E as [E1 E2]; [|by rewrite !hex16_length].
  destruct a, b. f_equal; by apply hex16_inj.
Qed.

Lemma chunk_path_inj a b : Hash128_wf a -> Hash128_wf b -> chunk_path a = chunk_path b -> a = b.
Proof.
  intros Ha Hb E. apply (to_hex_inj a b Ha Hb). unfold chunk_path in E. apply app_inv_head in E.
  generalize dependent (Hash128_to_hex b). generalize (Hash128_to_hex a). intros x y E. injection E as _ E.
  by apply app_inv_tail in E.
Qed.

Lemma chunk_path_ne id d : Hash128_wf id -> id <> content_hash d -> chunk_path id <> chunk_path (content_hash d).
Proof. intros Hid Hne E. apply Hne, chunk_path_inj; [done|apply content_hash_wf|done]. Qed.

Lemma chunk_path_not_descriptor id key : chunk_path id <> descriptor_path key.
Proof. intros E%(f_equal length). unfold chunk_path, descriptor_path in E. rewrite !length_app in E. simpl in E. lia. Qed.

(** ** A disk without failures *)

(** The call returns with a result in [Q], or it ends with an exception of [std::filesystem]; the latter
    not when [quiet], no failure being due. *)
Definition concludes {A} (quiet : Prop) (m : outcome A) (Q : A -> Prop) : Prop :=
  match m with
  | Done a => Q a
  | Throw w => w = "filesystem_error"%string /\ ~ quiet
  | _ => False
  end.

Lemma concludes_ret {A} quiet (a : A) (Q : A -> Prop) : Q a -> concludes quiet (Done a) Q.
Proof. done. Qed.

Lemma concludes_bind {A B} quiet (m : outcome A) (f : A -> outcome B) Q R :
  concludes quiet m Q -> (forall a, Q a -> concludes quiet (f a) R) -> concludes quiet (m ≫= f) R.
Proof. destruct m; try done. intros HQ Hf. by apply Hf. Qed.

Lemma concludes_weaken {A} (quiet quiet' : Prop) (m : outcome A) Q R :
  (quiet -> quiet') -> concludes quiet' m Q -> (forall a, Q a -> R a) -> concludes quiet m R.
Proof. intros Hq. destruct m; simpl; [auto| |done..]. intros [-> Hn] _. split; [done|]. auto. Qed.

Lemma concludes_quiet {A} (quiet : Prop) (m : outcome A) Q : quiet -> concludes quiet m Q -> exists a, m = Done a /\ Q a.
Proof. intros Hq. destruct m; simpl; try done; [eauto|]. by intros [_ []]. Qed.

(** No failure is due, and the directories of chunks and descriptors are there. *)
Record dc_ready (d : Disk) : Prop := {
  ready_quiet : dk_sys d = [];
  ready_chunks : forall id, Hash128_wf id -> path_parent (chunk_path id) ∈ dk_dirs d /\ chunk_path id ∉ dk_dirs d;
  ready_descriptors : forall key, path_parent (descriptor_path key) ∈ dk_dirs d /\ descriptor_path key ∉ dk_dirs d
}.

Lemma set_files_ready d f : dc_ready d -> dc_ready (set_files d f).
Proof. by intros [? ? ?]. Qed.

Lemma set_sys_quiet d : dk_sys d = [] -> set_sys d [] = d.
Proof. by destruct d; simpl; intros ->. Qed.

Lemma fs_call_quiet d : dk_sys d = [] -> fs_call d = Done d.
Proof. intros Hq. unfold fs_call. rewrite Hq. simpl. by rewrite set_sys_quiet. Qed.

Lemma file_exists_quiet d p : dk_sys d = [] -> file_exists d p = Done (is_there d p, d).
Proof. intros Hq. unfold file_exists. by rewrite fs_call_quiet. Qed.

(** Steps through calls of [std::filesystem] when no failure is due. *)
Ltac quiet_calls :=
  repeat (rewrite ?fs_call_quiet, ?file_exists_quiet by done;
          cbn [mbind outcome_bind scan_descriptors scan_chunks negb dc_store dc_with_store]).

Lemma read_file_quiet d p content :
  dk_sys d = [] -> dk_files d !! p = Some content -> size_of content < 2 ^ 63 ->
  read_file d p 0 0 = Done (content, d).
Proof.
  intros Hq Hf Hs. pose proof (size_of_nonneg content). unfold read_file. rewrite Hq, Hf. simpl.
  rewrite u64_small by (split; lia). rewrite Z.sub_0_r. destruct (Z.leb_spec (2 ^ 63) (size_of content)); [lia|].
  destruct (Z.ltb_spec 0 (size_of content)) as [Hp|Hz].
  - change (u64 0) with 0. rewrite !Z.sub_0_r, Z.min_id.
    destruct (Z.leb_spec (size_of content) 0); [lia|]. rewrite slice_all by done. simpl.
    destruct (Z.ltb_spec (0 + size_of content) (size_of content)); [lia|]. by rewrite set_sys_quiet.
  - rewrite (size_of_zero content) by lia. by rewrite set_sys_quiet.
Qed.

Lemma read_file_missing d p : dk_sys d = [] -> dk_files d !! p = None -> read_file d p 0 0 = Done ([], d).
Proof. intros Hq Hf. unfold read_file. rewrite Hq, Hf. simpl. by rewrite set_sys_quiet. Qed.

Lemma pwrite_whole data n : (n <= length data)%nat -> pwrite_at (replicate n x00) 0 data = data.
Proof.
  intros Hn. unfold pwrite_at, size_of. rewrite drop_ge by (rewrite length_replicate; lia). by rewrite app_nil_r.
Qed.

Lemma write_file_quiet d p data :
  dk_sys d = [] -> path_parent p ∈ dk_dirs d -> p ∉ dk_dirs d ->
  write_file d p data = Done (make_ok, set_files d (<[p := data]> (dk_files d))).
Proof.
  intros Hq Hd Hp. pose proof (size_of_nonneg data). unfold write_file. rewrite Hq. cbn [next_sys].
  rewrite !bool_decide_true by done. cbn [andb].
  assert (exists n, (n <= length data)%nat /\
    (if dcfg_use_fallocate cfg && (0 <? size_of data) then (replicate (length data) x00, @nil (option Z)) else ([], []))
    = (replicate n x00, [])) as (n & Hn & E).
  { destruct (_ && _); [by exists (length data)|exists 0%nat; split; [lia|done]]. }
  rewrite E. clear E.
  cbn [loop length write_step]. destruct (Z.ltb_spec 0 (size_of data)) as [Hpos|Hz].
  - cbn [next_sys transfer]. rewrite Z.sub_0_r. destruct (Z.ltb_spec (size_of data) 0); [lia|].
    destruct (Z.eqb_spec (size_of data) 0); [lia|]. rewrite slice_all by done. rewrite pwrite_whole by done.
    cbn [loop write_step]. destruct (Z.ltb_spec (0 + size_of data) (size_of data)); [lia|].
    by rewrite set_sys_quiet.
  - assert (data = []) as -> by (apply size_of_zero; lia). destruct n; [|simpl in Hn; lia]. by rewrite set_sys_quiet.
Qed.

(** ** Invariant

    [P] holds of the chunk contents the cache was ever given; the content hash separates them. *)

Definition chunk_set (P : bytes -> Prop) : Prop :=
  no_collision P /\ forall d, P d -> 0 < size_of d <= CHUNK_SIZE.

Record dc_inv (P : bytes -> Prop) (vals : gmap CacheKey bytes) (c : DiskCache) : Prop := {
  dinv_ready : dc_ready (dc_store c);
  dinv_files : forall d content, P d -> dk_files (dc_store c) !! chunk_path (content_hash d) = Some content -> content = d;
  dinv_index : forall d, P d ->
    (is_Some (dc_chunk_paths c !! content_hash d) <-> is_Some (dk_files (dc_store c) !! chunk_path (content_hash d)));
  dinv_access : Forall (fun e => Hash128_wf (ae_id e)) (dc_access c);
  dinv_descs : forall key, match dc_descriptors c !! key with
    | Some desc => exists v, vals !! key = Some v /\ describes key desc v /\ Forall P (pieces v)
    | None => vals !! key = None
    end
}.

(** The chunk has its file. *)
Definition on_disk (c : DiskCache) (d : bytes) : bool :=
  bool_decide (is_Some (dk_files (dc_store c) !! chunk_path (content_hash d))).

Definition disk_chunk (c : DiskCache) (d : bytes) : SharedChunk :=
  if on_disk c d then Some (Chunk_make d) else None.

Lemma dc_with_store_id c : dc_with_store c (dc_store c) = c.
Proof. by destruct c. Qed.

Lemma dc_get_chunk_spec P vals c d :
  chunk_set P -> dc_inv P vals c -> P d ->
  dc_get_chunk c (content_hash d) = Done (disk_chunk c d, c).
Proof.
  intros [_ Hsz] Hinv Hd. unfold dc_get_chunk, disk_chunk, on_disk. pose proof (ready_quiet _ (dinv_ready _ _ _ Hinv)) as Hq.
  destruct (dk_files (dc_store c) !! chunk_path (content_hash d)) as [content|] eqn:E.
  - rewrite (dinv_files _ _ _ Hinv d content Hd E) in E. specialize (Hsz d Hd).
    assert (CHUNK_SIZE < 2 ^ 32) by done. rewrite (read_file_quiet _ _ d) by (done || lia). simpl.
    rewrite dc_with_store_id, bool_decide_false; [done|]. intros ->. by destruct Hsz.
  - rewrite read_file_missing by done. simpl. by rewrite dc_with_store_id.
Qed.

(** The chunks come back in order, the cache is unchanged. *)
Lemma dc_fetch_spec P vals c desc ap indices ds :
  chunk_set P -> dc_inv P vals c -> Forall P ds ->
  Forall2 (fun idx d => vd_chunks desc !! Z.to_nat idx = Some (content_hash d)) indices ds ->
  forall chunks af, exists got found,
    dc_fetch_chunks c desc ap indices chunks af = Done (chunks ++ got, found, c) /\
    (Forall (fun d => on_disk c d = true) ds -> found = af /\ got = disk_chunk c <$> ds) /\
    (found = true -> Forall (fun d => on_disk c d = true) ds).
Proof.
  intros Hset Hinv HP Hall. induction Hall as [|idx d indices ds Hid Hall IH]; intros chunks af; cbn [dc_fetch_chunks].
  - exists [], af. by rewrite app_nil_r.
  - apply Forall_cons in HP as [Hd HP]. specialize (IH HP). rewrite Hid, (dc_get_chunk_spec P vals) by done. simpl.
    destruct (on_disk c d) eqn:Er; unfold disk_chunk at 1; rewrite Er.
    + destruct (IH (chunks ++ [Some (Chunk_make d)]) af) as (got & found & -> & Hf & Hfound).
      exists (Some (Chunk_make d) :: got), found. rewrite <- app_assoc. split_and!; [done| |].
      * intros [_ Hr]%Forall_cons. destruct (Hf Hr) as [-> ->]. split; [done|]. simpl. unfold disk_chunk at 2. by rewrite Er.
      * intros Hf'. constructor; [done|auto].
    + destruct ap.
      * destruct (IH (chunks ++ [None]) false) as (got & found & -> & Hf & Hfound).
        exists (None :: got), found. rewrite <- app_assoc. split_and!; [done| |].
        -- intros [Hc _]%Forall_cons. congruence.
        -- intros ->. specialize (Hfound eq_refl). by destruct (Hf Hfound).
      * exists [], false. rewrite app_nil_r. split_and!; [done| |done]. intros [Hc _]%Forall_cons. congruence.
Qed.

(** With all chunks there, the loop is the one of the memory tier. *)
Lemma dc_assemble_full start ds : forall i cur rem acc,
  dc_assemble start i ((fun d => Some (Chunk_make d)) <$> ds) cur rem acc =
  assemble_from start i ((fun d => Some (stored d)) <$> ds) cur rem acc.
Proof.
  induction ds as [|d ds IH]; intros i cur rem acc; [done|]. cbn [fmap list_fmap dc_assemble assemble_from].
  destruct (0 <? rem); [|done]. apply IH.
Qed.

Definition span_pieces (v : bytes) (off len : Z) : list bytes :=
  piece v <$> seqZ (first_chunk off) (chunk_span off len).

Lemma disk_assemble P vals c v off len :
  dc_inv P vals c -> size_of v <= MAX_VALUE_SIZE -> 0 <= off -> 0 < len -> off + len <= size_of v ->
  Forall (fun d => on_disk c d = true) (span_pieces v off len) ->
  dc_assemble (off / CHUNK_SIZE) 0 (disk_chunk c <$> span_pieces v off len) off len [] = slice off len v.
Proof.
  intros Hinv Hmax Ho Hl Hend Hall. pose proof (chunk_span_bounds off len Ho Hl). pose proof MAX_VALUE_SIZE_small.
  assert (disk_chunk c <$> span_pieces v off len = (fun d => Some (Chunk_make d)) <$> span_pieces v off len) as ->.
  { apply list_fmap_ext. intros i d Hi. rewrite Forall_lookup in Hall. unfold disk_chunk. by rewrite (Hall i d Hi). }
  rewrite dc_assemble_full. fold (first_chunk off). rewrite (assemble_from_pieces v); try lia; [done| |].
  - unfold size_of, span_pieces. rewrite !length_fmap, length_seqZ. lia.
  - intros j ch Hj. apply list_lookup_fmap_Some in Hj as (d & -> & Hd).
    apply list_lookup_fmap_Some in Hd as (k & -> & Hk). apply lookup_seqZ in Hk as [-> Hj]. do 3 f_equal. lia.
Qed.

(** ** [get] *)

(** [c'] differs from [c] in its counters only. *)
Definition dc_same (c c' : DiskCache) : Prop :=
  dc_store c' = dc_store c /\ dc_descriptors c' = dc_descriptors c /\ dc_chunk_paths c' = dc_chunk_paths c /\
  dc_access c' = dc_access c /\ dc_current_size c' = dc_current_size c /\ dc_tick c' = dc_tick c.

Lemma dc_same_inv P vals c c' : dc_same c c' -> dc_inv P vals c -> dc_inv P vals c'.
Proof.
  intros (Es & Ed & Ep & Ea & _) [H1 H2 H3 H4 H5]. split; rewrite ?Es, ?Ep, ?Ea; [done..|]. intros key. rewrite Ed. apply H5.
Qed.

Lemma dc_finish_get_spec P vals c desc v opts off len got found :
  dc_inv P vals c -> size_of v <= MAX_VALUE_SIZE -> 0 <= off -> 0 < len -> off + len <= size_of v ->
  (Forall (fun d => on_disk c d = true) (span_pieces v off len) ->
     found = true /\ got = disk_chunk c <$> span_pieces v off len) ->
  (found = true -> Forall (fun d => on_disk c d = true) (span_pieces v off len)) ->
  let '(r, c') := dc_finish_get c desc opts (mkRange off len) got found in
  dc_same c c' /\ (rr_result r = Hit <-> Forall (fun d => on_disk c d = true) (span_pieces v off len)) /\
  (rr_result r = Hit -> rr_data r = slice off len v).
Proof.
  intros Hinv Hmax Ho Hl Hend Hall Hfound. pose proof (disk_assemble P vals c v off len Hinv Hmax Ho Hl Hend) as Has.
  assert (size_of (slice off len v) = len) as Hsz by (by apply size_of_slice; lia).
  unfold dc_finish_get, dc_same. cbn [r_offset r_length].
  destruct (decide (Forall (fun d => on_disk c d = true) (span_pieces v off len))) as [Hf|Hf].
  - destruct (Hall Hf) as [-> ->]. rewrite (Has Hf), bool_decide_eq_false_2.
    2: { pose proof (chunk_span_bounds off len Ho Hl). unfold span_pieces. intros E%(f_equal length).
         rewrite !length_fmap, length_seqZ in E. simpl in E. lia. }
    cbn [orb negb andb]. rewrite Hsz, Z.eqb_refl. done.
  - destruct found; [by specialize (Hfound eq_refl)|]. cbn [orb negb andb].
    destruct (_ || _); simpl; (split; [done|]); by split.
Qed.

Lemma dc_get_inside P vals c key desc v opts off n :
  chunk_set P -> dc_inv P vals c -> describes key desc v -> Forall P (pieces v) ->
  0 <= off -> 0 < n -> off + n <= size_of v ->
  exists r c', ('(chunks, all_found, c') ←
      dc_fetch_chunks c desc (ro_allow_partial opts) (chunks_for_range desc (mkRange off n)) [] true;
      Done (dc_finish_get c' desc opts (mkRange off n) chunks all_found)) = Done (r, c') /\ dc_same c c' /\
    (rr_result r = Hit -> rr_data r = slice off n v) /\
    (rr_result r = Hit <-> forall b, off <= b < off + n -> on_disk c (piece v (b / CHUNK_SIZE)) = true).
Proof.
  intros Hset Hinv Hdesc HP Ho Hn Hend. rewrite (chunks_for_value key desc v) by done.
  pose proof (chunk_span_bounds off n Ho Hn) as Hsb. pose proof (span_in_value v off n Ho Hn Hend) as Hsp.
  assert (forall j, first_chunk off <= j < first_chunk off + chunk_span off n -> P (piece v j)) as Hpiece.
  { intros j Hj. rewrite Forall_lookup in HP. apply (HP (Z.to_nat j)). rewrite pieces_lookup by lia.
    by destruct (Z.ltb_spec j (n_chunks v)); [|lia]. }
  destruct (dc_fetch_spec P vals c desc (ro_allow_partial opts) (seqZ (first_chunk off) (chunk_span off n))
    (span_pieces v off n) Hset Hinv) with (chunks := @nil SharedChunk) (af := true) as (got & found & -> & Hall & Hfd).
  { apply Forall_fmap, Forall_forall. intros j Hj%elem_of_seqZ. by apply Hpiece. }
  { apply Forall2_fmap_r, Forall_Forall2_diag, Forall_forall. intros j Hj%elem_of_seqZ.
    apply (describes_lookup key); [done|lia]. }
  cbn [mbind outcome_bind app]. pose proof (dc_finish_get_spec P vals c desc v opts off n got found Hinv
    (proj2 (proj2 (proj2 Hdesc))) Ho Hn Hend Hall Hfd) as Hfin.
  destruct (dc_finish_get c desc opts (mkRange off n) got found) as [r c2]. destruct Hfin as (Hs2 & Hiff & Hdata).
  exists r, c2. split_and!; [done..|]. rewrite Hiff. unfold span_pieces. rewrite Forall_fmap, Forall_forall.
  pose proof CHUNK_SIZE_pos. split; intros Hres.
  - intros b Hb. apply (Hres (b / CHUNK_SIZE)). by apply elem_of_seqZ, chunk_in_span.
  - intros j Hj%elem_of_seqZ.
    assert (Z.max off (j * CHUNK_SIZE) / CHUNK_SIZE = j) as E by (apply chunk_of_byte; nia).
    unfold compose. rewrite <- E. apply Hres. nia.
Qed.

Lemma dc_get_spec P vals now c key opts :
  chunk_set P -> dc_inv P vals c -> opts_ok opts ->
  exists r c', dc_get now c key opts = Done (r, c') /\ dc_same c c' /\
    (vals !! key = None -> r = ReadResult_default) /\
    (rr_result r = Hit -> exists v, vals !! key = Some v /\ rr_data r = wanted opts v) /\
    (forall v, vals !! key = Some v ->
       (forall md, dc_metadata c key = Some md -> is_expired now md = false) -> wanted opts v <> [] ->
       (forall b, in_wanted opts v b -> on_disk c (piece v (b / CHUNK_SIZE)) = true) ->
       rr_result r = Hit).
Proof.
  intros Hset Hinv Hopts. pose proof (dinv_descs _ _ _ Hinv key) as Hd. unfold dc_get, dc_metadata, dc_get_descriptor.
  assert (dc_same c (dc_count c 0 1 0 0 0)) as Hmiss by done.
  destruct (dc_descriptors c !! key) as [desc|] eqn:Ed.
  2: { eexists _, _. split; [done|]. split_and!; [done..|]. intros v Hv. congruence. }
  destruct Hd as (v & Hv & Hdesc & HP). simpl. rewrite Hv.
  destruct (is_expired now (vd_metadata desc)) eqn:Ex.
  { eexists _, _. split; [done|]. split_and!; [done..|]. intros v' _ Hex. by rewrite (Hex _ eq_refl) in Ex. }
  pose proof Hdesc as (_ & Ht & _ & Hmax). rewrite Ht. fold (asked opts v).
  destruct (asked_spec opts v Hopts Hmax) as (Hoff & Hlen & Hw & Hin). unfold in_range in Hin.
  set (off := r_offset (asked opts v)) in *. set (len := r_length (asked opts v)) in *.
  destruct (Z.leb_spec (size_of v) off) as [Hge|Hlt].
  { assert (slice off len v = []) as Hnil.
    { unfold slice. rewrite drop_ge by (unfold size_of in *; lia). apply take_nil. }
    eexists _, c. split; [done|]. split_and!; [done..| |done]. intros _. exists v. by rewrite Hw, Hnil. }
  pose proof MAX_VALUE_SIZE_small. pose proof CHUNK_SIZE_pos.
  rewrite (u64_small (size_of v - off)) by (split; lia).
  rewrite <- slice_clip in Hw by lia. set (n := Z.min len (size_of v - off)) in *.
  destruct (Z.eq_dec n 0) as [E0|En].
  { unfold chunks_for_range. cbn [r_length]. rewrite E0. simpl. eexists _, _. split; [done|].
    split_and!; [done..|]. intros v' [= <-] _. by rewrite Hw, E0, slice_nil_len. }
  destruct (dc_get_inside P vals c key desc v opts off n) as (r & c' & -> & Hs & Hdata & Hhit); try done; try lia.
  exists r, c'. split; [done|]. split_and!; [done..| |].
  - intros Hh. exists v. split; [done|]. rewrite Hw. by apply Hdata.
  - intros v' [= <-] _ _ Hres. apply Hhit. intros b Hb. apply Hres, Hin. lia.
Qed.

(** ** Storing chunks *)

(** The part of the index that eviction looks at: access order, size, clock readings. *)
Definition dc_index (c : DiskCache) : list AccessEntry * Z * nat := (dc_access c, dc_current_size c, dc_tick c).

Definition add_index (i : list AccessEntry * Z * nat) (d : bytes) : list AccessEntry * Z * nat :=
  let '(access, size, tick) := i in
  (access_insert (mkAccess (content_hash d) (steady tick) (size_of d)) access, size +w size_of d, S tick).

Lemma access_insert_wf e l :
  Hash128_wf (ae_id e) -> Forall (fun e => Hash128_wf (ae_id e)) l ->
  Forall (fun e => Hash128_wf (ae_id e)) (access_insert e l).
Proof.
  intros He. induction 1 as [|e' l He' Hl IH]; simpl; [by constructor|]. repeat case_match; auto using Forall_cons_2.
Qed.

Lemma on_disk_insert c p x d c' :
  dk_files (dc_store c') = <[p := x]> (dk_files (dc_store c)) ->
  on_disk c' d = bool_decide (p = chunk_path (content_hash d)) || on_disk c d.
Proof.
  intros E. unfold on_disk. rewrite E. destruct (decide (p = chunk_path (content_hash d))) as [->|Hne].
  - rewrite lookup_insert_eq, bool_decide_true by done. by rewrite bool_decide_true.
  - rewrite lookup_insert_ne by done. by rewrite (bool_decide_false (p = _)).
Qed.

(** [P] as in the invariant; [Q] are the chunks written so far, and writing one more makes its file
    right whatever it held before. *)
Lemma dc_put_chunk_spec P Q vals c d :
  chunk_set P -> (forall x, Q x -> P x) -> dc_inv Q vals c -> P d ->
  exists c', dc_put_chunk c (Some (stored d)) = Done (make_ok, c') /\ dc_inv (fun x => Q x \/ x = d) vals c' /\
    dc_descriptors c' = dc_descriptors c /\ dc_index c' = add_index (dc_index c) d /\
    (forall d', on_disk c d' = true \/ d' = d -> on_disk c' d' = true).
Proof.
  intros [Hnc Hsz] HQ Hinv Hd. pose proof (content_hash_wf d) as Hwf.
  destruct (ready_chunks _ (dinv_ready _ _ _ Hinv) _ Hwf) as [Hdir Hnd].
  assert (forall d', Q d' \/ d' = d -> content_hash d = content_hash d' -> d = d') as Hsame.
  { intros d' [Hd'| ->] E; [|done]. apply (Hnc d d'); auto. }
  unfold dc_put_chunk. simpl. rewrite write_file_quiet by (done || apply (ready_quiet _ (dinv_ready _ _ _ Hinv))). simpl.
  eexists. split; [done|]. split_and!; [|done|done|].
  - destruct Hinv as [Hrd Hfiles Hidx Hacc Hdescs]. split; simpl; [apply (set_files_ready _ _ Hrd)| | |by apply access_insert_wf|].
    + intros d' content Hd'. destruct (decide (content_hash d = content_hash d')) as [E|E].
      * rewrite E, lookup_insert_eq. intros [= <-]. by apply Hsame.
      * rewrite lookup_insert_ne by by apply chunk_path_ne. apply Hfiles. by destruct Hd' as [?| ->].
    + intros d' Hd'. destruct (decide (content_hash d = content_hash d')) as [E|E].
      * rewrite E, !lookup_insert_eq. by split.
      * rewrite !lookup_insert_ne by (done || by apply chunk_path_ne). apply Hidx. by destruct Hd' as [?| ->].
    + intros key. specialize (Hdescs key). destruct (dc_descriptors c !! key) as [desc|]; [|done].
      destruct Hdescs as (v & ? & ? & HPv). exists v. split_and!; [done..|]. eapply Forall_impl; [exact HPv|by left].
  - intros d' Hd'. rewrite (on_disk_insert c (chunk_path (content_hash d)) d) by done.
    destruct Hd' as [->| ->]; [by rewrite orb_true_r|by rewrite bool_decide_true].
Qed.

Lemma dc_inv_iff P Q vals c : (forall x, P x <-> Q x) -> dc_inv P vals c -> dc_inv Q vals c.
Proof.
  intros HPQ [Hrd Hfiles Hidx Hacc Hdescs]. split; [done|..|done|].
  - intros d content Hd. by apply Hfiles, HPQ.
  - intros d Hd. by apply Hidx, HPQ.
  - intros key. specialize (Hdescs key). destruct (dc_descriptors c !! key) as [desc|]; [|done].
    destruct Hdescs as (v & ? & ? & HPv). exists v. split_and!; [done..|]. eapply Forall_impl; [exact HPv|]. intros x. apply HPQ.
Qed.

Lemma put_loop_spec P vals v :
  chunk_set P -> Forall P (pieces v) -> size_of v <= MAX_VALUE_SIZE -> forall (n : nat) k Q c ids fuel,
  (forall x, Q x -> P x) -> 0 <= k -> k + Z.of_nat n = n_chunks v -> dc_inv Q vals c -> (n < fuel)%nat ->
  exists c', loop fuel (put_loop_step v) (Z.min (k * CHUNK_SIZE) (size_of v), ids, c) =
      Some (Done (None, ids ++ (content_hash <$> (piece v <$> seqZ k (Z.of_nat n))), c')) /\
    dc_inv (fun x => Q x \/ x ∈ piece v <$> seqZ k (Z.of_nat n)) vals c' /\ dc_descriptors c' = dc_descriptors c /\
    dc_index c' = foldl add_index (dc_index c) (piece v <$> seqZ k (Z.of_nat n)) /\
    (forall d, on_disk c d = true \/ d ∈ piece v <$> seqZ k (Z.of_nat n) -> on_disk c' d = true).
Proof.
  intros Hset HP Hmax. pose proof CHUNK_SIZE_pos. pose proof MAX_VALUE_SIZE_small. pose proof (n_chunks_bounds v) as Hn.
  induction n as [|n IH]; intros k Q c ids fuel HQ Hk Hkn Hinv Hf; (destruct fuel as [|fuel]; [lia|]); cbn [loop put_loop_step].
  - destruct (Z.ltb_spec (Z.min (k * CHUNK_SIZE) (size_of v)) (size_of v)); [lia|].
    assert (seqZ k (Z.of_nat 0) = []) as -> by done. rewrite fmap_nil. exists c. rewrite fmap_nil, app_nil_r.
    split_and!; [done| |done..|].
    + apply (dc_inv_iff Q); [|done]. intros x. rewrite elem_of_nil. tauto.
    + intros d [?|Hd]; [assumption|]. by apply not_elem_of_nil in Hd.
  - assert (k * CHUNK_SIZE < size_of v) by nia. rewrite Z.min_l by lia.
    destruct (Z.ltb_spec (k * CHUNK_SIZE) (size_of v)); [|lia]. word_small. rewrite slice_clip by lia.
    assert (slice (k * CHUNK_SIZE) CHUNK_SIZE v = piece v k) as -> by (unfold piece; reflexivity).
    assert (P (piece v k)) as Hp.
    { rewrite Forall_lookup in HP. apply (HP (Z.to_nat k)). rewrite pieces_lookup by lia.
      by destruct (Z.ltb_spec k (n_chunks v)); [|lia]. }
    cbn [Chunk_id chunk_id_ Chunk_make chunk_data]. fold (stored (piece v k)).
    destruct (dc_put_chunk_spec P Q vals c (piece v k) Hset HQ Hinv Hp) as (c1 & -> & Hinv1 & Hd1 & Hi1 & Ho1).
    change (is_ok make_ok) with true. cbv iota.
    replace (k * CHUNK_SIZE + Z.min CHUNK_SIZE (size_of v - k * CHUNK_SIZE)) with (Z.min ((k + 1) * CHUNK_SIZE) (size_of v)) by lia.
    destruct (IH (k + 1) (fun x => Q x \/ x = piece v k) c1 (ids ++ [content_hash (piece v k)]) fuel) as (c2 & -> & Hinv2 & Hd2 & Hi2 & Ho2);
      [|lia..|exact Hinv1|lia|]; [by intros x [?| ->]; auto|].
    exists c2. rewrite (seqZ_cons k) by lia. replace (Z.pred (Z.of_nat (S n))) with (Z.of_nat n) by lia.
    replace (Z.succ k) with (k + 1) by lia. rewrite !fmap_cons. cbn [foldl]. rewrite <- app_assoc.
    split_and!; [done| |congruence|by rewrite Hi2, Hi1|].
    { eapply dc_inv_iff; [|exact Hinv2]. intros x. rewrite elem_of_cons. tauto. }
    intros d Hd. apply Ho2. destruct Hd as [Hd|[->|Hd]%elem_of_cons]; [left; apply Ho1; by left|left; apply Ho1; by right|by right].
Qed.

(** ** Dropping chunks *)

(** The index and the files lose the chunk [id] together. *)
Lemma dc_drop_inv P vals c c' id :
  dc_inv P vals c -> Hash128_wf id ->
  dc_chunk_paths c' = delete id (dc_chunk_paths c) ->
  dc_store c' = set_files (dc_store c) (delete (chunk_path id) (dk_files (dc_store c))) ->
  Forall (fun e => Hash128_wf (ae_id e)) (dc_access c') -> dc_descriptors c' = dc_descriptors c ->
  dc_inv P vals c'.
Proof.
  intros [Hrd Hfiles Hidx Hacc Hdescs] Hid Ep Es Ha Ed.
  split; rewrite ?Ep, ?Es; simpl; [apply (set_files_ready _ _ Hrd)| | |done|intros key; rewrite Ed; apply Hdescs].
  - intros d content Hd (_ & Hl)%lookup_delete_Some. by apply Hfiles.
  - intros d Hd. destruct (decide (id = content_hash d)) as [->|E]; [rewrite !lookup_delete_eq; by split; intros [? ?]|].
    rewrite !lookup_delete_ne by (done || by apply chunk_path_ne). by apply Hidx.
Qed.

Definition without (d : Disk) (p : Path) : Disk := set_files d (delete p (dk_files d)).

Lemma dc_delete_quiet c p :
  dk_sys (dc_store c) = [] -> exists st, dc_delete c p = Done (st, dc_with_store c (without (dc_store c) p)).
Proof.
  intros Hq. unfold dc_delete, delete_file. rewrite fs_call_quiet by done. cbn [mbind outcome_bind]. unfold without.
  case_bool_decide as E; [by eexists|]. rewrite delete_id by by apply eq_None_not_Some.
  eexists. do 3 f_equal. by destruct (dc_store c).
Qed.

Lemma access_remove_sublist id l e rest : access_remove id l = Some (e, rest) -> rest `sublist_of` l.
Proof.
  revert e rest. induction l as [|x l IH]; intros e rest; simpl; [done|]. case_decide.
  - intros [= <- <-]. by apply sublist_cons.
  - destruct (access_remove id l) as [[y l']|]; [|done]. intros [= <- <-]. apply sublist_skip. by eapply IH.
Qed.

Lemma Forall_sublist {A} (Q : A -> Prop) (l k : list A) : l `sublist_of` k -> Forall Q k -> Forall Q l.
Proof. intros Hs Hk. induction Hs; [done|apply Forall_cons in Hk as [? ?]; auto..]. Qed.

Lemma dc_forget_store c id : dc_store (dc_forget c id) = dc_store c.
Proof. unfold dc_forget. by repeat case_match. Qed.

Lemma dc_remove_chunk_inv P vals c d :
  dc_inv P vals c -> P d -> exists st c', dc_remove_chunk c (content_hash d) = Done (st, c') /\ dc_inv P vals c'.
Proof.
  intros Hinv Hd. set (id := content_hash d).
  assert (Hash128_wf id) as Hid by apply content_hash_wf. pose proof (dinv_access _ _ _ Hinv) as Hacc.
  unfold dc_remove_chunk. fold id. destruct (dc_delete_quiet (dc_forget c id) (chunk_path id)) as [st ->].
  { rewrite dc_forget_store. apply (ready_quiet _ (dinv_ready _ _ _ Hinv)). }
  eexists _, _. split; [done|]. apply (dc_drop_inv P vals c _ id); try done.
  - unfold dc_forget. destruct (dc_chunk_paths c !! id) eqn:Ep; [by repeat case_match|]. by rewrite delete_id.
  - simpl. by rewrite dc_forget_store.
  - unfold dc_forget. repeat case_match; try done. by eapply Forall_sublist; [eapply access_remove_sublist|].
  - unfold dc_forget. by repeat case_match.
Qed.

Lemma dc_put_descriptor_spec P vals c desc v :
  dc_inv P vals c -> describes (vd_key desc) desc v -> Forall P (pieces v) ->
  exists c', dc_put_descriptor c desc = Done (make_ok, c') /\ dc_inv P (<[vd_key desc := v]> vals) c' /\
    dc_descriptors c' = <[vd_key desc := desc]> (dc_descriptors c) /\ dc_index c' = dc_index c /\
    (forall d, on_disk c' d = on_disk c d).
Proof.
  intros Hinv Hdesc HP. destruct (ready_descriptors _ (dinv_ready _ _ _ Hinv) (vd_key desc)) as [Hdir Hnd].
  unfold dc_put_descriptor. rewrite write_file_quiet by (done || apply (ready_quiet _ (dinv_ready _ _ _ Hinv))).
  cbn [mbind outcome_bind]. change (is_ok make_ok) with true. cbv iota.
  assert (forall d, <[descriptor_path (vd_key desc) := descriptor_bytes desc]> (dk_files (dc_store c))
    !! chunk_path (content_hash d) = dk_files (dc_store c) !! chunk_path (content_hash d)) as Hf.
  { intros d. apply lookup_insert_ne. intros E. by apply (chunk_path_not_descriptor (content_hash d) (vd_key desc)). }
  eexists. split; [done|]. split_and!; [|done|done|by intros d; unfold on_disk; simpl; rewrite Hf].
  destruct Hinv as [Hrd Hfiles Hidx Hacc Hdescs]. split; simpl; [apply (set_files_ready _ _ Hrd)| | |done|].
  - intros d content Hd. rewrite Hf. by apply Hfiles.
  - intros d Hd. rewrite Hf. by apply Hidx.
  - intros key. destruct (decide (vd_key desc = key)) as [<-|Hne]; [rewrite !lookup_insert_eq; eauto|].
    rewrite !lookup_insert_ne by done. apply Hdescs.
Qed.

(** ** Eviction *)

Definition access_total (l : list AccessEntry) : Z := foldr (fun e acc => ae_size e + acc) 0 l.

Lemma access_total_cons e l : access_total (e :: l) = ae_size e + access_total l.
Proof. done. Qed.

Lemma access_total_app l k : access_total (l ++ k) = access_total l + access_total k.
Proof. induction l as [|e l IH]; simpl; [done|]. rewrite IH. lia. Qed.

(** What one round of the loop does to the cache. *)
Definition evict_first (c : DiskCache) (e : AccessEntry) (rest : list AccessEntry) : DiskCache :=
  dc_with_store (dc_count (dc_with_index c (delete (ae_id e) (dc_chunk_paths c)) rest (dc_current_size c -w ae_size e)) 0 0 0 0 1)
    (without (dc_store c) (chunk_path (ae_id e))).

Lemma evict_round target needed ev c e rest :
  dk_sys (dc_store c) = [] -> dc_access c = e :: rest -> (target <? dc_current_size c) || (ev <? needed) = true ->
  evict_loop_step target needed (ev, c) = inl (ev +w ae_size e, evict_first c e rest).
Proof.
  intros Hq Ea Eb. unfold evict_loop_step. rewrite Eb, Ea. cbv zeta. set (c2 := dc_count _ _ _ _ _ _).
  by destruct (dc_delete_quiet c2 (chunk_path (ae_id e))) as [st ->].
Qed.

Lemma evict_first_inv P vals c e rest :
  dc_inv P vals c -> dc_access c = e :: rest -> dc_inv P vals (evict_first c e rest).
Proof.
  intros Hinv Ea. pose proof (dinv_access _ _ _ Hinv) as Hacc. rewrite Ea in Hacc. apply Forall_cons in Hacc as [He Hr].
  by apply (dc_drop_inv P vals c _ (ae_id e)).
Qed.

Lemma evict_inv P vals target needed fuel : forall c ev,
  dc_inv P vals c -> (length (dc_access c) < fuel)%nat ->
  exists n c', loop fuel (evict_loop_step target needed) (ev, c) = Some (Done (n, c')) /\ dc_inv P vals c' /\
    dc_descriptors c' = dc_descriptors c.
Proof.
  induction fuel as [|fuel IH]; intros c ev Hinv Hf; [lia|]. cbn [loop].
  destruct ((target <? dc_current_size c) || (ev <? needed)) eqn:Eb;
    [|unfold evict_loop_step; rewrite Eb; by eexists _, _].
  destruct (dc_access c) as [|e rest] eqn:Ea; [unfold evict_loop_step; rewrite Eb, Ea; by eexists _, _|].
  rewrite (evict_round _ _ _ _ e rest) by (done || apply (ready_quiet _ (dinv_ready _ _ _ Hinv))).
  destruct (IH (evict_first c e rest) (ev +w ae_size e)) as (n & c' & E & Hinv' & Hd).
  - by apply evict_first_inv.
  - simpl in *. lia.
  - exists n, c'. by rewrite Hd.
Qed.

(** The books balance: the size is the sum over the access order, whose times are past readings. *)
Definition accounted (i : list AccessEntry * Z * nat) : Prop :=
  let '(access, size, tick) := i in
  size = access_total access /\ size < 2 ^ 64 /\
  Forall (fun e => 0 <= ae_size e /\ exists j, (j < tick)%nat /\ ae_last_access e = steady j) access.

Lemma access_total_nonneg l : Forall (fun e => 0 <= ae_size e) l -> 0 <= access_total l.
Proof. induction 1; simpl; lia. Qed.

Lemma accounted_tail e rest size tick :
  accounted (e :: rest, size, tick) ->
  accounted (rest, size - ae_size e, tick) /\ 0 <= ae_size e /\ 0 <= size - ae_size e.
Proof.
  intros (-> & Hlt & Hall). apply Forall_cons in Hall as [[He ?] Hall].
  assert (0 <= access_total rest) by (apply access_total_nonneg; eapply Forall_impl; [exact Hall|by intros ? [? _]]).
  rewrite access_total_cons in *. split_and!; [|lia..]. split_and!; [lia..|done].
Qed.

(** The oldest chunks go, one after the other, until the size and the freed bytes are right. *)
Lemma evict_policy target needed fuel : forall c ev,
  dk_sys (dc_store c) = [] ->
  accounted (dc_index c) -> 0 <= ev -> ev + dc_current_size c < 2 ^ 64 -> (length (dc_access c) < fuel)%nat ->
  exists victims c', loop fuel (evict_loop_step target needed) (ev, c) = Some (Done (ev + access_total victims, c')) /\
    dc_access c = victims ++ dc_access c' /\ accounted (dc_index c') /\
    dc_current_size c' = dc_current_size c - access_total victims /\
    dk_files (dc_store c') = foldl (fun f e => delete (chunk_path (ae_id e)) f) (dk_files (dc_store c)) victims /\
    (dc_access c' = [] \/ (dc_current_size c' <= target /\ needed <= ev + access_total victims)) /\
    (forall pre e post, victims = pre ++ e :: post ->
       target < dc_current_size c - access_total pre \/ ev + access_total pre < needed).
Proof.
  induction fuel as [|fuel IH]; intros c ev Hq Hacc Hev Hov Hf; [lia|]. cbn [loop].
  destruct ((target <? dc_current_size c) || (ev <? needed)) eqn:Eb.
  2: { unfold evict_loop_step. rewrite Eb. apply orb_false_iff in Eb as [? ?]. bool_hyps. exists [], c. cbn [access_total foldr].
       rewrite Z.add_0_r, Z.sub_0_r. split_and!; [done..|right; lia|]. by intros [|? ?]. }
  destruct (dc_access c) as [|e rest] eqn:Ea.
  { unfold evict_loop_step. rewrite Eb, Ea. exists [], c. cbn [access_total foldr]. rewrite Z.add_0_r, Z.sub_0_r, Ea. split_and!; [done..|by left|]. by intros [|? ?]. }
  rewrite (evict_round _ _ _ _ e rest) by done. pose proof Hacc as Hacc'. unfold dc_index in Hacc'. rewrite Ea in Hacc'.
  destruct (accounted_tail _ _ _ _ Hacc') as (Htail & He & Hrest).
  assert (dc_current_size (evict_first c e rest) = dc_current_size c - ae_size e) as Hcur
    by (simpl; apply u64_small; split; lia).
  destruct (IH (evict_first c e rest) (ev + ae_size e)) as (vs & c' & E & Hsplit & Ha & Hc & Hfiles & Hstop & Hmin).
  - done.
  - unfold dc_index. rewrite Hcur. exact Htail.
  - lia.
  - lia.
  - simpl in *. lia.
  - exists (e :: vs), c'. rewrite Hcur in *. rewrite access_total_cons in *.
    rewrite (u64_small (ev + ae_size e)) by (split; lia). change (dc_access (evict_first c e rest)) with rest in Hsplit.
    split_and!; [|by rewrite Hsplit|done|lia| | |].
    + replace (ev + (ae_size e + access_total vs)) with (ev + ae_size e + access_total vs) by lia. exact E.
    + by rewrite Hfiles.
    + destruct Hstop as [?|?]; [by left|right; lia].
    + intros [|x pre] e' post [= <- Hv].
      * change (access_total []) with 0. apply orb_true_iff in Eb as [?|?]; bool_hyps; lia.
      * rewrite access_total_cons. destruct (Hmin pre e' post Hv); lia.
Qed.

(** ** [put] and [remove] *)

(** [put] after its eviction, from the cache [c1]. *)
Lemma dc_store_spec P Q vals now c1 key v opts :
  chunk_set P -> (forall x, Q x -> P x) -> dc_inv Q vals c1 -> Forall P (pieces v) -> size_of v <= MAX_VALUE_SIZE ->
  exists c', ('(failed, ids, c2) ←
        default Spin (loop (Z.to_nat (size_of v / CHUNK_SIZE + 2)) (put_loop_step v) (0, [], c1));
      match failed with
      | Some status => Done (status, c2)
      | None =>
          let desc := mkDescriptor key (size_of v) ids (put_metadata now v (size_of ids) opts) in
          '(status, c3) ← dc_put_descriptor c2 desc;
          if is_ok status then Done (make_ok, dc_count c3 0 0 0 (size_of v) 0) else Done (status, c3)
      end) = Done (make_ok, c') /\ dc_inv (fun x => Q x \/ x ∈ pieces v) (<[key := v]> vals) c' /\
    dc_metadata c' key = Some (put_metadata now v (n_chunks v) opts) /\
    Forall (fun d => on_disk c' d = true) (pieces v) /\ dc_index c' = foldl add_index (dc_index c1) (pieces v).
Proof.
  intros Hset HQ Hinv HP Hmax. pose proof (n_chunks_bounds v) as [Hn Hnb]. pose proof (size_of_nonneg v).
  pose proof CHUNK_SIZE_pos.
  destruct (put_loop_spec P vals v Hset HP Hmax (Z.to_nat (n_chunks v)) 0 Q c1 []
    (Z.to_nat (size_of v / CHUNK_SIZE + 2))) as (c2 & E & Hinv2 & Hd2 & Hi2 & Ho2); [exact HQ|lia..|done| |].
  { pose proof (Z.div_mod (size_of v) CHUNK_SIZE). pose proof (Z.mod_pos_bound (size_of v) CHUNK_SIZE).
    pose proof (Z.div_pos (size_of v) CHUNK_SIZE). assert (n_chunks v < size_of v / CHUNK_SIZE + 2) by nia. lia. }
  rewrite Z2Nat.id in * by lia. fold (pieces v) in *. rewrite Z.mul_0_l, Z.min_l, app_nil_l in E by lia. rewrite E.
  cbn [default from_option id mbind outcome_bind].
  set (desc := mkDescriptor key (size_of v) (content_hash <$> pieces v)
                 (put_metadata now v (size_of (content_hash <$> pieces v)) opts)).
  destruct (dc_put_descriptor_spec _ vals c2 desc v Hinv2) as (c3 & -> & Hinv3 & Hd3 & Hi3 & Ho3);
    [by split_and!|apply Forall_forall; by right|].
  cbn [mbind outcome_bind]. change (is_ok make_ok) with true. cbv iota. eexists. split; [done|].
  change (vd_key desc) with key in *. split_and!.
  - by apply (dc_same_inv _ _ c3).
  - unfold dc_metadata, dc_get_descriptor. simpl. rewrite Hd3, lookup_insert_eq. simpl. do 2 f_equal.
    unfold size_of. rewrite length_fmap, pieces_length. lia.
  - apply Forall_forall. intros d Hd. change (on_disk (dc_count c3 0 0 0 (size_of v) 0) d) with (on_disk c3 d).
    rewrite Ho3. apply Ho2. by right.
  - change (dc_index (dc_count c3 0 0 0 (size_of v) 0)) with (dc_index c3). by rewrite Hi3.
Qed.

Lemma dc_put_grows P Q vals now c key v opts :
  chunk_set P -> (forall x, Q x -> P x) -> dc_inv Q vals c -> Forall P (pieces v) ->
  CacheKey_size key <= MAX_KEY_SIZE -> size_of v <= MAX_VALUE_SIZE ->
  exists c', dc_put now c key v opts = Done (make_ok, c') /\ dc_inv (fun x => Q x \/ x ∈ pieces v) (<[key := v]> vals) c' /\
    dc_metadata c' key = Some (put_metadata now v (n_chunks v) opts) /\
    Forall (fun d => on_disk c' d = true) (pieces v) /\
    (needs_eviction c (size_of v) = false -> dc_index c' = foldl add_index (dc_index c) (pieces v)).
Proof.
  intros Hset HQ Hinv HP Hk Hmax. unfold dc_put. destruct (Z.ltb_spec MAX_KEY_SIZE (CacheKey_size key)); [lia|].
  assert (exists c1, (if needs_eviction c (size_of v) then '(_, c1) ← dc_evict c (size_of v); Done c1 else Done c) = Done c1 /\
    dc_inv Q vals c1 /\ (needs_eviction c (size_of v) = false -> c1 = c)) as (c1 & -> & Hinv1 & Hc1).
  { destruct (needs_eviction c (size_of v)); [|by exists c]. unfold dc_evict.
    destruct (evict_inv Q vals evict_target (size_of v) (S (length (dc_access c))) c 0 Hinv) as (n & c1 & -> & Hinv1 & _); [lia|].
    by exists c1. }
  cbn [mbind outcome_bind]. destruct (dc_store_spec P Q vals now c1 key v opts Hset HQ Hinv1 HP Hmax) as (c' & E & ? & ? & ? & Hi).
  exists c'. split_and!; [exact E|done..|]. intros Hne. by rewrite Hi, (Hc1 Hne).
Qed.

Lemma dc_put_spec P vals now c key v opts :
  chunk_set P -> dc_inv P vals c -> Forall P (pieces v) -> CacheKey_size key <= MAX_KEY_SIZE -> size_of v <= MAX_VALUE_SIZE ->
  exists c', dc_put now c key v opts = Done (make_ok, c') /\ dc_inv P (<[key := v]> vals) c' /\
    dc_metadata c' key = Some (put_metadata now v (n_chunks v) opts) /\
    Forall (fun d => on_disk c' d = true) (pieces v) /\
    (needs_eviction c (size_of v) = false -> dc_index c' = foldl add_index (dc_index c) (pieces v)).
Proof.
  intros Hset Hinv HP Hk Hmax.
  destruct (dc_put_grows P P vals now c key v opts Hset (fun _ H => H) Hinv HP Hk Hmax) as (c' & E & Hinv' & H).
  exists c'. split; [done|]. split; [|done]. eapply dc_inv_iff; [|exact Hinv']. intros x. rewrite Forall_forall in HP.
  split; [intros [?|?]; auto|by left].
Qed.

Lemma dc_remove_chunks_inv P vals ds : Forall P ds -> forall c, dc_inv P vals c ->
  exists c', dc_remove_chunks c (content_hash <$> ds) = Done c' /\ dc_inv P vals c'.
Proof.
  induction 1 as [|d ds Hd Hds IH]; intros c Hinv; rewrite ?fmap_nil, ?fmap_cons; cbn [dc_remove_chunks]; [by exists c|].
  destruct (dc_remove_chunk_inv P vals c d Hinv Hd) as (st & c1 & -> & Hinv1). cbn [mbind outcome_bind]. by apply IH.
Qed.

Lemma dc_remove_spec P vals c key opts :
  dc_inv P vals c ->
  exists st c', dc_remove c key opts = Done (st, c') /\ dc_inv P (delete key vals) c' /\
    is_ok st = bool_decide (is_Some (vals !! key)).
Proof.
  intros Hinv. pose proof (dinv_descs _ _ _ Hinv key) as Hd. unfold dc_remove, dc_get_descriptor.
  destruct (dc_descriptors c !! key) as [desc|] eqn:Ed.
  2: { rewrite Hd, delete_id by done. eexists _, _. split; [done|]. by rewrite bool_decide_false by by intros [? ?]. }
  destruct Hd as (v & Hv & (_ & _ & -> & _) & HP). rewrite Hv, bool_decide_true by done.
  destruct (dc_remove_chunks_inv P vals (pieces v) HP c Hinv) as (c1 & -> & [Hrd Hfiles Hidx Hacc Hdescs]).
  cbn [mbind outcome_bind]. unfold dc_remove_descriptor.
  destruct (dc_delete_quiet (dc_with_descriptors c1 (delete key (dc_descriptors c1))) (descriptor_path key)) as [st ->];
    [apply Hrd|]. cbn [mbind outcome_bind]. eexists _, _. split; [done|]. split; [|done].
  assert (forall d, delete (descriptor_path key) (dk_files (dc_store c1)) !! chunk_path (content_hash d)
    = dk_files (dc_store c1) !! chunk_path (content_hash d)) as Hf.
  { intros d. apply lookup_delete_ne. intros E. by apply (chunk_path_not_descriptor (content_hash d) key). }
  split; simpl; [apply (set_files_ready _ _ Hrd)| | |done|].
  - intros d content Hd. rewrite Hf. by apply Hfiles.
  - intros d Hd. rewrite Hf. by apply Hidx.
  - intros k. destruct (decide (key = k)) as [<-|Hne]; [by rewrite !lookup_delete_eq|].
    rewrite !lookup_delete_ne by done. apply Hdescs.
Qed.

(** ** Accounting *)

Lemma evict_target_nonneg : 0 <= evict_target.
Proof. unfold evict_target, size_of_double. destruct (dmul _ _) as [s|s| |s m e]; try lia. destruct s; [lia|]. by apply Z.mod_pos_bound. Qed.

Lemma access_insert_last e l :
  Forall (fun e' => ae_last_access e' < ae_last_access e) l -> access_insert e l = l ++ [e].
Proof.
  induction 1 as [|e' l He Hl IH]; simpl; [done|].
  destruct (Z.ltb_spec (ae_last_access e) (ae_last_access e')); [lia|].
  destruct (Z.ltb_spec (ae_last_access e') (ae_last_access e)); [by rewrite IH|lia].
Qed.

Lemma add_index_accounted ds : (forall i j, (i < j)%nat -> steady i < steady j) ->
  forall access size tick, accounted (access, size, tick) -> size + total_bytes ds < 2 ^ 64 ->
  accounted (foldl add_index (access, size, tick) ds) /\ (foldl add_index (access, size, tick) ds).1.2 = size + total_bytes ds.
Proof.
  intros Hclock. induction ds as [|d ds IH]; intros access size tick Hacc Hov; cbn [foldl].
  { split; [done|]. simpl. lia. }
  change (total_bytes (d :: ds)) with (size_of d + total_bytes ds) in *.
  pose proof (size_of_nonneg d). pose proof (size_of_nonneg (concat ds)) as Hnn. rewrite <- total_bytes_concat in Hnn.
  destruct Hacc as (Hsz & Hlt & Hall).
  assert (0 <= access_total access) by (apply access_total_nonneg; eapply Forall_impl; [exact Hall|by intros ? [? _]]).
  unfold add_index at 2 4. rewrite u64_small by (split; lia). rewrite access_insert_last.
  2: { eapply Forall_impl; [exact Hall|]. intros e [_ (j & Hj & ->)]. simpl. by apply Hclock. }
  destruct (IH (access ++ [mkAccess (content_hash d) (steady tick) (size_of d)]) (size + size_of d) (S tick)) as [Ha ->].
  - split_and!; [rewrite access_total_app; simpl; lia|lia|]. apply Forall_app. split.
    + eapply Forall_impl; [exact Hall|]. intros e [? (j & Hj & E)]. split; [done|]. exists j. split; [lia|done].
    + constructor; [|done]. split; [done|]. exists tick. split; [lia|done].
  - lia.
  - split; [exact Ha|lia].
Qed.

(** ** The contract of a tier *)

Lemma dc_make_inv P disk : dc_ready disk -> dk_files disk = ∅ -> dc_inv P ∅ (dc_make disk).
Proof.
  intros Hrd Hf. split; simpl; [done| | |done|].
  - intros d content _. by rewrite Hf, lookup_empty.
  - intros d _. rewrite Hf, !lookup_empty. by split; intros [? ?].
  - intros key. by rewrite !lookup_empty.
Qed.

Definition dc_accepts (key : CacheKey) (v : bytes) : bool := CacheKey_size key <=? MAX_KEY_SIZE.

Section tier.
Context (listing : Path -> list Path) (P : bytes -> Prop) (Hset : chunk_set P).

Lemma disk_tier_get vals now c key opts :
  dc_inv P vals c -> opts_ok opts ->
  exists r c', dc_get now c key opts = Done (r, c') /\ dc_inv P vals c' /\
    (rr_result r = Hit -> exists v, vals !! key = Some v /\ rr_data r = wanted opts v) /\
    (vals !! key = None -> r = ReadResult_default).
Proof.
  intros Hinv Hopts. destruct (dc_get_spec P vals now c key opts Hset Hinv Hopts) as (r & c' & E & Hs & Hn & Hh & _).
  exists r, c'. split_and!; [done|by eapply dc_same_inv|done..].
Qed.

Lemma disk_tier_put vals now c key v opts :
  dc_inv P vals c -> Forall P (pieces v) /\ size_of v <= MAX_VALUE_SIZE ->
  exists st c', dc_put now c key v opts = Done (st, c') /\ is_ok st = dc_accepts key v /\
    dc_inv P (if dc_accepts key v then <[key := v]> vals else vals) c'.
Proof.
  intros Hinv [HP Hmax]. unfold dc_accepts. destruct (Z.leb_spec (CacheKey_size key) MAX_KEY_SIZE) as [Hk|Hk].
  - destruct (dc_put_spec P vals now c key v opts Hset Hinv HP Hk Hmax) as (c' & -> & Hinv' & _). by exists make_ok, c'.
  - unfold dc_put. destruct (Z.ltb_spec MAX_KEY_SIZE (CacheKey_size key)); [|lia]. by eexists _, c.
Qed.

Lemma disk_tier_remove vals c key opts :
  dc_inv P vals c ->
  exists st c', dc_remove c key opts = Done (st, c') /\ dc_inv P (delete key vals) c' /\
    is_ok st = bool_decide (is_Some (vals !! key)).
Proof. apply dc_remove_spec. Qed.

Lemma disk_tier_check vals c key range :
  dc_inv P vals c -> av_exists (dc_check c key range) = bool_decide (is_Some (vals !! key)).
Proof.
  intros Hinv. pose proof (dinv_descs _ _ _ Hinv key) as Hd. unfold dc_check, dc_get_descriptor.
  destruct (dc_descriptors c !! key) as [desc|]; [|by rewrite Hd].
  destruct Hd as (v & -> & _). by rewrite bool_decide_eq_true_2.
Qed.

Lemma disk_tier_metadata vals c key :
  dc_inv P vals c ->
  match vals !! key with
  | Some v => exists md, dc_metadata c key = Some md /\ md_total_size md = size_of v /\ size_of v <= MAX_VALUE_SIZE
  | None => dc_metadata c key = None
  end.
Proof.
  intros Hinv. pose proof (dinv_descs _ _ _ Hinv key) as Hd. unfold dc_metadata, dc_get_descriptor.
  destruct (dc_descriptors c !! key) as [desc|]; [|by rewrite Hd].
  destruct Hd as (v & -> & [[_ Hmd] (_ & _ & Hmax)] & _). by eexists.
Qed.

Definition disk_tier : CacheTier := {|
  tier_state := DiskCache;
  tier_get := dc_get; tier_put := dc_put; tier_remove := dc_remove;
  tier_check := dc_check; tier_metadata := dc_metadata; tier_stats := dc_stats;
  tier_start := dc_start listing; tier_stop := dc_stop;
  tier_inv := dc_inv P; tier_value := fun v => Forall P (pieces v) /\ size_of v <= MAX_VALUE_SIZE;
  tier_accepts := dc_accepts;
  tier_get_ok := disk_tier_get; tier_put_ok := disk_tier_put; tier_remove_ok := disk_tier_remove;
  tier_check_ok := disk_tier_check; tier_metadata_ok := disk_tier_metadata
|}.
End tier.

(** ** Starting on what an earlier run left

    The files a run can leave are those of chunks and descriptors, the directories those [store_init]
    makes. *)

Definition cache_path (p : Path) : Prop :=
  (exists id, Hash128_wf id /\ p = chunk_path id) \/ (exists key, p = descriptor_path key).

Definition dir_path (q : Path) : Prop :=
  q `prefix_of` dcfg_path cfg ++ [str "descriptors"] \/ exists i, q `prefix_of` dcfg_path cfg ++ [str "chunks"; hex2 i].

Record layout (d : Disk) : Prop := {
  lay_files : forall p, is_Some (dk_files d !! p) -> cache_path p;
  lay_dirs : forall q, q ∈ dk_dirs d -> dir_path q;
  lay_parents : forall q r, q ∈ dk_dirs d -> r `prefix_of` q -> r <> [] -> r ∈ dk_dirs d
}.

Lemma dir_not_cache q : dir_path q -> cache_path q -> False.
Proof.
  intros Hd [(id & _ & ->)|(key & ->)]; destruct Hd as [Hl%prefix_length|(i & Hp)].
  - unfold chunk_path in Hl. rewrite !length_app in Hl. simpl in Hl. lia.
  - apply prefix_length in Hp. unfold chunk_path in Hp. rewrite !length_app in Hp. simpl in Hp. lia.
  - unfold descriptor_path in Hl. rewrite !length_app in Hl. simpl in Hl. lia.
  - destruct Hp as [k Hk]. unfold descriptor_path in Hk. rewrite <- app_assoc in Hk. apply app_inv_head in Hk. discriminate.
Qed.

Lemma dir_path_prefix p q : dir_path p -> q `prefix_of` p -> dir_path q.
Proof. intros [H|[i H]] Hq; [left|right; exists i]; by etrans. Qed.

Lemma with_parents_prefix p q : q ∈ with_parents p -> q `prefix_of` p.
Proof. unfold with_parents. intros (n & -> & _)%list_elem_of_fmap. exists (drop n p). by rewrite take_drop. Qed.

Lemma with_parents_elem p r : r `prefix_of` p -> r <> [] -> r ∈ with_parents p.
Proof.
  intros [k ->] Hne. unfold with_parents. apply list_elem_of_fmap. exists (length r). split; [by rewrite take_app_length|].
  apply elem_of_seq. rewrite length_app. destruct r; [done|simpl; lia].
Qed.

(** The calls of [std::filesystem] keep files, directories and the layout. *)
Lemma fs_call_concludes d :
  concludes (dk_sys d = []) (fs_call d)
    (fun d' => dk_files d' = dk_files d /\ dk_dirs d' = dk_dirs d /\ (dk_sys d = [] -> dk_sys d' = [])).
Proof. unfold fs_call. destruct (dk_sys d) as [|[k|] sys]; done. Qed.

Lemma file_exists_concludes d p :
  concludes (dk_sys d = []) (file_exists d p)
    (fun r => r.1 = is_there d p /\ dk_files r.2 = dk_files d /\ dk_dirs r.2 = dk_dirs d /\ (dk_sys d = [] -> dk_sys r.2 = [])).
Proof.
  unfold file_exists. eapply concludes_bind; [apply fs_call_concludes|]. intros d1 (Ef & Ed & Hq). apply concludes_ret.
  split_and!; [|done..]. unfold is_there. simpl. by rewrite Ef, Ed.
Qed.

Lemma layout_same d d' : dk_files d' = dk_files d -> dk_dirs d' = dk_dirs d -> layout d -> layout d'.
Proof. intros Ef Ed [Hf Hd Hp]. split; rewrite ?Ef, ?Ed; done. Qed.

Lemma create_directories_layout d p :
  layout d -> dir_path p ->
  exists st d', create_directories d p = (st, d') /\ dk_files d' = dk_files d /\ layout d' /\ dk_dirs d ⊆ dk_dirs d' /\
    (dk_sys d = [] -> st = make_ok /\ dk_sys d' = [] /\ (p <> [] -> p ∈ dk_dirs d')).
Proof.
  intros [Hf Hdirs Hpar] Hp. unfold create_directories.
  replace (forallb _ (with_parents p)) with true.
  2: { symmetry. apply forallb_forall. intros q Hq%list_elem_of_In%with_parents_prefix. rewrite bool_decide_true; [done|].
       apply eq_None_not_Some. intros Hs%Hf. by apply (dir_not_cache q); [apply (dir_path_prefix p)|]. }
  destruct (next_sys (dk_sys d)) as [r sys] eqn:Es. rewrite andb_true_r. case_bool_decide as Hr.
  - eexists _, _. split; [done|]. cbn [dk_files dk_dirs dk_sys]. split_and!; [done| |set_solver|].
    + split; simpl; [done|..].
      * intros q [Hq|Hq%elem_of_list_to_set%with_parents_prefix]%elem_of_union; [by apply Hdirs|by apply (dir_path_prefix p)].
      * intros q r' [Hq|Hq%elem_of_list_to_set%with_parents_prefix]%elem_of_union Hr' Hne.
        -- apply elem_of_union_l. by apply (Hpar q).
        -- apply elem_of_union_r, elem_of_list_to_set, with_parents_elem; [by etrans|done].
    + intros Hq. rewrite Hq in Es. injection Es as <- <-. split_and!; [done..|]. intros Hne.
      by apply elem_of_union_r, elem_of_list_to_set, with_parents_elem.
  - eexists _, _. split; [done|]. split_and!; [done|by split|done|]. intros Hq. rewrite Hq in Es. injection Es as <- <-. done.
Qed.

(** What making directories leaves, and that it succeeds when no call fails. *)
Definition made (d : Disk) (dirs : list Path) (r : Status * Disk) : Prop :=
  dk_files r.2 = dk_files d /\ layout r.2 /\ dk_dirs d ⊆ dk_dirs r.2 /\
  (dk_sys d = [] -> r.1 = make_ok /\ dk_sys r.2 = [] /\ Forall (fun p => p <> [] -> p ∈ dk_dirs r.2) dirs).

Lemma made_failed d dirs dirs' st d' : made d dirs (st, d') -> is_ok st = false -> made d dirs' (st, d').
Proof. intros (Hf & Hl & Hs & Hq) Hno. split_and!; [done..|]. intros H. destruct (Hq H) as (E & _). simpl in E. by subst. Qed.

Lemma made_trans d d1 dirs dirs' st r :
  made d dirs (st, d1) -> made d1 dirs' r -> made d (dirs ++ dirs') r.
Proof.
  intros (Hf & Hl & Hs & Hq) (Hf1 & Hl1 & Hs1 & Hq1). simpl in *. split_and!; [congruence|done|set_solver|].
  intros H. destruct (Hq H) as (_ & Hq' & Hin). destruct (Hq1 Hq') as (-> & -> & Hin1). split_and!; [done..|].
  apply Forall_app. split; [|done]. eapply Forall_impl; [exact Hin|]. auto.
Qed.

Lemma ensure_directory_layout d p :
  layout d -> dir_path p -> concludes (dk_sys d = []) (ensure_directory d p) (made d [p]).
Proof.
  intros Hl Hp. unfold ensure_directory. eapply concludes_bind; [apply file_exists_concludes|].
  intros [found d1] (Et & Ef & Ed & Hq). simpl in Et, Ef, Ed, Hq. pose proof (layout_same _ _ Ef Ed Hl) as Hl1. apply concludes_ret.
  destruct found.
  - split_and!; [done..|by rewrite <- Ed|]. intros H. split_and!; [done|by apply Hq|]. constructor; [|constructor]. intros _. simpl.
    unfold is_there in Et. symmetry in Et. rewrite <- Ed in Et. apply orb_true_iff in Et as [Et|Et]; apply bool_decide_eq_true in Et; [|done].
    destruct (dir_not_cache p Hp). by apply (lay_files _ Hl).
  - destruct (create_directories_layout d1 p Hl1 Hp) as (st & d2 & -> & Hf2 & Hl2 & Hs2 & Hq2).
    split_and!; simpl; [congruence|done|by rewrite <- Ed|]. intros H. destruct (Hq2 (Hq H)) as (-> & -> & Hin).
    split_and!; [done..|]. by constructor.
Qed.

Lemma ensure_all_layout dirs : Forall dir_path dirs -> forall d, layout d ->
  concludes (dk_sys d = []) (ensure_all d dirs) (made d dirs).
Proof.
  induction 1 as [|p dirs Hp Hall IH]; intros d Hl; cbn [ensure_all]; [by apply concludes_ret|].
  eapply concludes_bind; [by apply ensure_directory_layout|]. intros [st d1] Hm. destruct (is_ok st) eqn:Es.
  - pose proof Hm as (_ & Hl1 & _ & Hq). eapply concludes_weaken; [|apply (IH d1 Hl1)|].
    + intros H. by destruct (Hq H) as (_ & ? & _).
    + intros r Hr. by apply (made_trans d d1 [p] dirs st r).
  - apply concludes_ret. by eapply made_failed.
Qed.

Lemma shard_of_hash id : exists i, 0 <= i < 256 /\ take 2 (Hash128_to_hex id) = hex2 i.
Proof.
  assert (exists a b rest, digits 16 16 (high id) = a :: b :: rest /\ 0 <= a < 16 /\ 0 <= b < 16) as (a & b & rest & E & Ha & Hb).
  { pose proof (digits_length 16 16 (high id)) as Hl. pose proof (digits_range 16 16 (high id) ltac:(lia)) as Hr.
    destruct (digits 16 16 (high id)) as [|a [|b rest]]; [done..|]. exists a, b, rest.
    apply Forall_cons in Hr as [? Hr]. apply Forall_cons in Hr as [? _]. done. }
  exists (16 * a + b). split; [lia|]. unfold Hash128_to_hex, hex16. rewrite E. simpl. unfold hex2.
  replace ((16 * a + b) / 16) with a by (apply (Z.div_unique _ _ _ b); lia).
  replace ((16 * a + b) mod 16) with b by (apply (Z.mod_unique _ _ a); lia). done.
Qed.

(** The directories of a started cache are ready. *)
Lemma made_ready d dirs d' b :
  made d dirs (make_ok, d') -> dk_sys d = [] -> shard_dirs ⊆ dirs -> dcfg_path cfg ++ [str "descriptors"] ∈ dirs ->
  dc_ready (mkDisk (dk_files d') (dk_dirs d') (dk_sys d') b).
Proof.
  set (base := dcfg_path cfg). intros (Hf & Hl & Hs & Hq) H Hshards Hdesc. destruct (Hq H) as (_ & Hq' & Hin). simpl in *.
  assert (forall p, cache_path p -> p ∉ dk_dirs d') as Hnd by (intros p Hp Hin'%(lay_dirs _ Hl); by apply (dir_not_cache p)).
  rewrite Forall_forall in Hin. split; simpl; [done| |].
  - intros id Hid. split; [|apply Hnd; left; by exists id]. destruct (shard_of_hash id) as (i & Hi & Hex). unfold chunk_path.
    fold base. rewrite Hex. replace (path_parent _) with (base ++ [str "chunks"; hex2 i]).
    { apply Hin; [|by destruct base]. apply Hshards, list_elem_of_fmap. exists i. split; [done|by apply elem_of_seqZ]. }
    unfold path_parent. rewrite take_app_ge by (rewrite length_app; simpl; lia). rewrite length_app. simpl. f_equal.
    by replace (length base + 3 - 1 - length base)%nat with 2%nat by lia.
  - intros key. split; [|apply Hnd; right; by exists key]. unfold descriptor_path, path_parent. fold base.
    rewrite take_app_ge by (rewrite length_app; simpl; lia). rewrite length_app. simpl.
    replace (length base + 2 - 1 - length base)%nat with 1%nat by lia. apply Hin; [done|]. by destruct base.
Qed.

Lemma store_init_layout d :
  layout d ->
  concludes (dk_sys d = []) (store_init d)
    (fun r => dk_files r.2 = dk_files d /\ layout r.2 /\ (dk_sys d = [] -> r.1 = make_ok /\ dc_ready r.2)).
Proof.
  set (base := dcfg_path cfg). intros Hl. unfold store_init. fold base.
  assert (forall dirs st d', made d dirs (st, d') -> is_ok st = false ->
    dk_files d' = dk_files d /\ layout d' /\ (dk_sys d = [] -> st = make_ok /\ dc_ready d')) as Hbad.
  { intros dirs st d' (Hf & Hl' & _ & Hq) Hno. split_and!; [done..|]. intros H. destruct (Hq H) as (E & _). simpl in E. by subst. }
  eapply concludes_bind; [apply (ensure_directory_layout d base Hl); left; by exists [str "descriptors"]|].
  intros [s1 d1] Hm1. destruct (is_ok s1) eqn:E1; [|apply concludes_ret; by eapply Hbad].
  pose proof Hm1 as (_ & Hl1 & _ & Hq1).
  eapply concludes_bind; [eapply concludes_weaken; [|apply (ensure_all_layout shard_dirs); [|exact Hl1]|intros r Hr; exact (made_trans _ _ _ _ _ _ Hm1 Hr)]|].
  { intros H. by destruct (Hq1 H) as (_ & ? & _). }
  { apply Forall_fmap, Forall_forall. intros i _. right. by exists i. }
  intros [s2 d2] Hm2. destruct (is_ok s2) eqn:E2; [|apply concludes_ret; by eapply Hbad].
  pose proof Hm2 as (_ & Hl2 & _ & Hq2).
  eapply concludes_bind; [eapply concludes_weaken; [|apply (ensure_directory_layout d2 (base ++ [str "descriptors"]) Hl2); by left|intros r Hr; exact (made_trans _ _ _ _ _ _ Hm2 Hr)]|].
  { intros H. by destruct (Hq2 H) as (_ & ? & _). }
  intros [s3 d3] Hm3. destruct (is_ok s3) eqn:E3; apply concludes_ret; [|by eapply Hbad].
  pose proof Hm3 as (Hf3 & Hl3 & _ & Hq3). split_and!; [done|by apply (layout_same d3)|].
  intros H. split; [done|]. destruct (Hq3 H) as (E & _). simpl in E. subst s3. eapply made_ready; [exact Hm3|done| |].
  - intros q Hq. apply elem_of_app. left. apply elem_of_app. by right.
  - apply elem_of_app. right. by apply list_elem_of_singleton.
Qed.

Lemma layout_empty sys b : layout (mkDisk ∅ ∅ sys b).
Proof. split; simpl; [intros p [? Hp]; by rewrite lookup_empty in Hp|intros q; set_solver..]. Qed.

Lemma dc_start_empty listing :
  (forall dir, listing dir = []) ->
  exists c, dc_start listing (dc_make (mkDisk ∅ ∅ [] false)) = Done (make_ok, c) /\ (forall P, dc_inv P ∅ c) /\
    dc_index c = ([], 0, 0%nat).
Proof.
  intros Hl. destruct (concludes_quiet _ _ _ eq_refl (store_init_layout (mkDisk ∅ ∅ [] false) (layout_empty _ _)))
    as ([st d] & E & Hf & _ & Hrd). destruct (Hrd eq_refl) as [Est Hrd']. simpl in *. subst st.
  unfold dc_start. simpl dc_store. rewrite E. cbn [mbind outcome_bind]. change (is_ok make_ok) with true. cbv iota.
  unfold load_index. rewrite !Hl. pose proof (ready_quiet _ Hrd') as Hq. cbn [dc_store dc_with_store].
  exists (dc_make d). split; [|split; [intros P; by apply dc_make_inv|done]].
  quiet_calls.
  destruct (is_there d _); [|done].
  quiet_calls.
  destruct (is_there d _); [|done].
  by quiet_calls.
Qed.

(** ** A write that fails half-way *)

(** What the file holds after [k] bytes: the start of the data, and the zeros of [fallocate]. *)
Definition torn (k : Z) (v : bytes) : bytes := take (Z.to_nat k) v ++ replicate (length v - Z.to_nat k) x00.

Lemma torn_size k v : 0 <= k <= size_of v -> size_of (torn k v) = size_of v.
Proof. intros Hk. unfold torn, size_of in *. rewrite length_app, length_take, length_replicate. lia. Qed.

(** The coming calls: [open] and [fallocate] succeed, [pwrite] takes [k] bytes, then it fails. *)
Definition failing (d : Disk) (k : Z) : Disk := set_sys d [None; None; Some k; Some (-1)].

Lemma write_file_torn d p k v :
  dcfg_use_fallocate cfg = true -> path_parent p ∈ dk_dirs d -> p ∉ dk_dirs d -> 0 < k < size_of v ->
  exists st, write_file (failing d k) p v = Done (st, set_sys (set_files d (<[p := torn k v]> (dk_files d))) []) /\ is_ok st = false.
Proof.
  intros Hfa Hd Hp Hk. unfold write_file. cbn [failing set_sys dk_sys next_sys dk_dirs]. rewrite !bool_decide_true by done.
  rewrite Hfa. destruct (Z.ltb_spec 0 (size_of v)); [|lia]. cbn [andb].
  cbn [loop length write_step next_sys transfer]. destruct (Z.ltb_spec 0 (size_of v)); [|lia].
  rewrite Z.sub_0_r, Z.min_l by lia. destruct (Z.ltb_spec k 0); [lia|]. destruct (Z.eqb_spec k 0); [lia|].
  cbn [loop write_step next_sys transfer]. destruct (Z.ltb_spec (0 + k) (size_of v)); [|lia].
  destruct (Z.ltb_spec (Z.min (-1) (size_of v - (0 + k))) 0); [|lia].
  exists (status_error DiskError (str "Write failed: " ++ strerror)). split; [|done].
  unfold set_files, set_sys. cbn [dk_files dk_dirs dk_initialized failing]. do 4 f_equal.
  unfold pwrite_at, torn, slice. simpl. rewrite drop_0, Z.add_0_l. f_equal.
  unfold size_of in *. rewrite length_take, Nat.min_l by lia. rewrite Nat2Z.id. apply drop_replicate.
Qed.

Lemma span_small n : 0 < n <= CHUNK_SIZE -> seqZ (first_chunk 0) (chunk_span 0 n) = [0].
Proof.
  intros Hn. unfold first_chunk, chunk_span. rewrite Zdiv_0_l, Z.sub_0_r. rewrite Z.div_small by lia. done.
Qed.

(** A full read of a value of one chunk, from whatever its file holds. *)
Lemma dc_get_one_chunk now c key desc v content ropts :
  dk_sys (dc_store c) = [] -> dc_descriptors c !! key = Some desc -> describes key desc v ->
  0 < size_of v <= CHUNK_SIZE -> pieces v = [v] -> ro_range ropts = None ->
  is_expired now (vd_metadata desc) = false ->
  dk_files (dc_store c) !! chunk_path (content_hash v) = Some content -> size_of content = size_of v ->
  exists r c', dc_get now c key ropts = Done (r, c') /\ rr_result r = Hit /\ rr_data r = content.
Proof.
  intros Hq Hd Hdesc Hv Hpc Hro Hex Hf Hsz. pose proof Hdesc as (_ & Ht & Hch & _). assert (CHUNK_SIZE < 2 ^ 32) by done.
  unfold dc_get, dc_get_descriptor. rewrite Hd, Hex, Hro. cbn [r_offset r_length]. rewrite Ht.
  destruct (Z.leb_spec (size_of v) 0); [lia|]. rewrite Z.sub_0_r, u64_small, Z.min_id by (split; lia).
  rewrite (chunks_for_value key desc v) by (done || lia). rewrite span_small by done.
  cbn [dc_fetch_chunks]. rewrite Hch, Hpc. change ((content_hash <$> [v]) !! Z.to_nat 0) with (Some (content_hash v)). cbv iota.
  unfold dc_get_chunk. rewrite (read_file_quiet _ _ content) by (done || lia). cbn [mbind outcome_bind].
  rewrite bool_decide_false by (intros ->; rewrite size_of_nil in Hsz; lia). rewrite dc_with_store_id. cbn [app].
  cbn [mbind outcome_bind]. set (fg := dc_finish_get _ _ _ _ _ _). exists fg.1, fg.2. split; [by destruct fg|]. subst fg.
  unfold dc_finish_get. rewrite bool_decide_false by done.
  cbn [orb negb andb r_offset r_length dc_assemble]. destruct (Z.ltb_spec 0 (size_of v)); [|lia].
  change ((0 / CHUNK_SIZE +w 0) *w CHUNK_SIZE <? 0) with false. cbv iota.
  unfold Chunk_read, Chunk_size. cbn [chunk_data Chunk_make]. rewrite Hsz, Z.sub_0_r, u64_small, Z.min_id by (split; lia).
  destruct (Z.leb_spec (size_of v) 0); [lia|]. rewrite slice_all by lia. cbn [app]. rewrite Hsz, Z.eqb_refl. done.
Qed.

(** ** Smaller facts *)

(** A partial read with a missing chunk returns bytes past the end of the range: here the range ends
    [n] bytes into the second chunk, and all of that chunk comes back. *)
Lemma dc_assemble_overreads ch n :
  0 < n -> 0 < size_of ch <= CHUNK_SIZE ->
  dc_assemble 0 0 [None; Some (Chunk_make ch)] 0 (CHUNK_SIZE + n) [] = ch.
Proof.
  intros Hn Hch. assert (CHUNK_SIZE < 2 ^ 32) by done. cbn [dc_assemble]. destruct (Z.ltb_spec 0 (CHUNK_SIZE + n)); [|lia].
  change ((0 +w (0 +w 1)) *w CHUNK_SIZE <? 0) with false. cbv iota. unfold Chunk_read, Chunk_size.
  cbn [chunk_data Chunk_make app]. rewrite Z.sub_0_r, u64_small by (split; lia).
  destruct (Z.leb_spec (size_of ch) 0); [lia|]. rewrite !Z.min_r by lia. by apply slice_all.
Qed.

(** Two chunks written at the same reading of the clock: the second is never listed for eviction. *)
Lemma access_same_instant e e' l :
  Forall (fun x => ae_last_access x < ae_last_access e) l -> ae_last_access e' = ae_last_access e ->
  access_insert e (l ++ [e']) = l ++ [e'].
Proof.
  intros Hl He. induction Hl as [|x l Hx Hl IH]; simpl.
  - rewrite He, !Z.ltb_irrefl. done.
  - destruct (Z.ltb_spec (ae_last_access e) (ae_last_access x)); [lia|].
    destruct (Z.ltb_spec (ae_last_access x) (ae_last_access e)); [by rewrite IH|lia].
Qed.

Lemma scan_chunks_descriptors paths : forall c c', scan_chunks c paths = Done c' -> dc_descriptors c' = dc_descriptors c.
Proof.
  induction paths as [|p paths IH]; intros c c'; cbn [scan_chunks]; intros (d1 & _ & E)%outcome_bind_Done; [by injection E as <-|].
  case_bool_decide; [|apply (IH _ _ E)]. apply outcome_bind_Done in E as (id & _ & E).
  apply outcome_bind_Done in E as ([size d2] & _ & E). apply (IH _ _ E).
Qed.

(** A restart forgets every key, although the chunk files stay on the disk and are counted. *)
Lemma restart_forgets listing disk st c : dc_start listing (dc_make disk) = Done (st, c) -> dc_descriptors c = ∅.
Proof.
  unfold dc_start, load_index. intros ([status d] & _ & E)%outcome_bind_Done.
  destruct (is_ok status); [|by injection E as <- <-]. apply outcome_bind_Done in E as ([found d1] & _ & E).
  destruct (negb found); [by injection E as <- <-|]. apply outcome_bind_Done in E as (d2 & _ & E).
  apply outcome_bind_Done in E as (d3 & _ & E). apply outcome_bind_Done in E as ([there d4] & _ & E).
  destruct there; [|by injection E as <- <-]. apply outcome_bind_Done in E as (d5 & _ & E).
  apply outcome_bind_Done in E as (c1 & Es & E). injection E as <- <-. by apply scan_chunks_descriptors in Es.
Qed.

(** ** Properties *)

(** C18: reading back from disk. Whatever the disk tier holds and however full it is, when no system
    call fails and the content hash separates the chunks stored, a put of a key and a value within the
    size limits, with a time to live whose end is a representable time, succeeds, and the next get, of
    any range with at least one byte of the value and before that time, is a hit with exactly the
    bytes asked for: eviction makes room before the new chunks are written, never after. *)
Theorem disk_put_get P vals now now' c key v wopts ropts :
  chunk_set P -> dc_inv P vals c -> Forall P (pieces v) ->
  CacheKey_size key <= MAX_KEY_SIZE -> size_of v <= MAX_VALUE_SIZE ->
  opts_ok ropts -> wanted ropts v <> [] ->
  (forall ttl, wo_ttl wopts = Some ttl -> ttl_fits now ttl /\ now' < now + ttl * 1000000000) ->
  exists c1 r c2, dc_put now c key v wopts = Done (make_ok, c1) /\ dc_get now' c1 key ropts = Done (r, c2) /\
    rr_result r = Hit /\ rr_data r = wanted ropts v.
Proof.
  intros Hset Hinv HP Hk Hv Hopts Hw Httl.
  destruct (dc_put_spec P vals now c key v wopts Hset Hinv HP Hk Hv) as (c1 & Ep & Hinv1 & Hmd & Hres & _).
  destruct (dc_get_spec P _ now' c1 key ropts Hset Hinv1 Hopts) as (r & c2 & Eg & _ & _ & Hhit & Hcomp).
  assert (rr_result r = Hit) as Hh.
  { apply (Hcomp v); [by rewrite lookup_insert_eq| |done|].
    - intros md. rewrite Hmd. intros [= <-]. by apply put_fresh.
    - intros b [Hb _]. rewrite Forall_lookup in Hres. apply (Hres (Z.to_nat (b / CHUNK_SIZE))).
      pose proof CHUNK_SIZE_pos. rewrite pieces_lookup by (apply Z.div_pos; lia). pose proof (n_chunks_bounds v).
      pose proof (proj1 (chunk_of_byte b (b / CHUNK_SIZE)) eq_refl).
      destruct (Z.ltb_spec (b / CHUNK_SIZE) (n_chunks v)); [done|nia]. }
  exists c1, r, c2. destruct (Hhit Hh) as (v' & Hv' & Hdata). rewrite lookup_insert_eq in Hv'. injection Hv' as <-. done.
Qed.

(** Eviction ends and takes the oldest chunks: the victims are the shortest prefix of the access
    order after which the size is at most the low watermark and enough bytes were freed (or all of
    it), exactly their files are deleted, and the books balance before and after. *)
Theorem disk_evict_oldest c needed :
  dk_sys (dc_store c) = [] -> accounted (dc_index c) ->
  exists victims c', dc_evict c needed = Done (access_total victims, c') /\
    dc_access c = victims ++ dc_access c' /\ accounted (dc_index c') /\
    dc_current_size c' = dc_current_size c - access_total victims /\
    dk_files (dc_store c') = foldl (fun f e => delete (chunk_path (ae_id e)) f) (dk_files (dc_store c)) victims /\
    (dc_access c' = [] \/ (dc_current_size c' <= evict_target /\ needed <= access_total victims)) /\
    (forall pre e post, victims = pre ++ e :: post ->
       evict_target < dc_current_size c - access_total pre \/ access_total pre < needed).
Proof.
  intros Hq Hacc. pose proof Hacc as (_ & Hlt & _). unfold dc_evict.
  destruct (evict_policy evict_target needed (S (length (dc_access c))) c 0 Hq Hacc) as (vs & c' & -> & H); [lia..|].
  exists vs, c'. split; [done|exact H].
Qed.

(** C36: the disk tier keeps to its size when every reading of the monotonic clock is later than the one
    before and no system call fails. A put within the size limits then keeps the books balanced;
    without eviction the size grows by the size of the value, and when the high watermark would be
    passed it ends at most at the low watermark plus the value. [std::chrono::steady_clock] promises
    only that readings do not decrease; [access_same_instant] shows what two equal readings do. *)
Theorem disk_put_bounded P vals now c key v opts :
  (forall i j, (i < j)%nat -> steady i < steady j) ->
  chunk_set P -> dc_inv P vals c -> Forall P (pieces v) ->
  CacheKey_size key <= MAX_KEY_SIZE -> size_of v <= MAX_VALUE_SIZE ->
  accounted (dc_index c) -> dc_current_size c + size_of v < 2 ^ 64 ->
  exists c', dc_put now c key v opts = Done (make_ok, c') /\ accounted (dc_index c') /\
    if needs_eviction c (size_of v) then dc_current_size c' <= evict_target + size_of v
    else dc_current_size c' = dc_current_size c + size_of v.
Proof.
  intros Hclock Hset Hinv HP Hk Hmax Hacc Hov. pose proof evict_target_nonneg as Ht. unfold dc_put.
  destruct (Z.ltb_spec MAX_KEY_SIZE (CacheKey_size key)); [lia|].
  assert (exists c1, (if needs_eviction c (size_of v) then '(_, c1) ← dc_evict c (size_of v); Done c1 else Done c) = Done c1 /\
    dc_inv P vals c1 /\ accounted (dc_index c1) /\ dc_current_size c1 <= dc_current_size c /\
    if needs_eviction c (size_of v) then dc_current_size c1 <= evict_target else c1 = c)
    as (c1 & -> & Hinv1 & Hacc1 & Hle & Hif).
  { destruct (needs_eviction c (size_of v)); [|by exists c]. unfold dc_evict. pose proof Hacc as (_ & Hlt & _).
    destruct (evict_policy evict_target (size_of v) (S (length (dc_access c))) c 0 (ready_quiet _ (dinv_ready _ _ _ Hinv)) Hacc)
      as (vs & c1 & E & Hsp & Hacc1 & Hcur & _ & Hstop & _); [lia..|].
    destruct (evict_inv P vals evict_target (size_of v) (S (length (dc_access c))) c 0 Hinv) as (n & c1' & E' & Hinv1 & _); [lia|].
    rewrite E in E'. injection E' as <- <-. rewrite E. exists c1. pose proof Hacc1 as (Hs1 & _ & _). split_and!; [done..| |].
    - pose proof Hacc as (_ & _ & Hall). rewrite Hsp in Hall. apply Forall_app in Hall as [Hall _].
      assert (0 <= access_total vs) by (apply access_total_nonneg; eapply Forall_impl; [exact Hall|by intros ? [? _]]). lia.
    - destruct Hstop as [Hnil|[? _]]; [|done]. rewrite Hs1, Hnil. done. }
  cbn [mbind outcome_bind]. destruct (dc_store_spec P P vals now c1 key v opts Hset (fun _ H => H) Hinv1 HP Hmax)
    as (c' & E & _ & _ & _ & Hidx).
  exists c'. split; [exact E|]. rewrite Hidx.
  destruct (add_index_accounted (pieces v) Hclock (dc_access c1) (dc_current_size c1) (dc_tick c1) Hacc1) as [Ha Hsize];
    rewrite total_bytes_concat, concat_pieces in *; [lia|]. split; [exact Ha|].
  change (dc_current_size c') with (dc_index c').1.2. rewrite Hidx. unfold dc_index. rewrite Hsize.
  destruct (needs_eviction c (size_of v)); [lia|by subst].
Qed.

(** C39: a failed write destroys data that is already stored. Chunk files are truncated and written in
    place under their content hash; when putting a value again, for any key, fails half-way, the put
    reports an error, but reading the first key is a hit with zeros in place of the missing part. *)
Theorem disk_failed_write_corrupts P vals now now' c k1 k2 desc v k wopts ropts :
  dc_inv P vals c -> dcfg_use_fallocate cfg = true ->
  dc_descriptors c !! k1 = Some desc -> vals !! k1 = Some v -> pieces v = [v] -> 0 < k < size_of v ->
  size_of v <= CHUNK_SIZE -> CacheKey_size k2 <= MAX_KEY_SIZE -> needs_eviction c (size_of v) = false ->
  is_expired now' (vd_metadata desc) = false -> ro_range ropts = None ->
  exists st c1 r c2, dc_put now (dc_with_store c (failing (dc_store c) k)) k2 v wopts = Done (st, c1) /\ is_ok st = false /\
    dc_get now' c1 k1 ropts = Done (r, c2) /\ rr_result r = Hit /\ rr_data r = torn k v.
Proof.
  intros Hinv Hfa Hd Hv Hpc Hk Hcs Hk2 Hne Hex Hro. assert (CHUNK_SIZE < 2 ^ 32) by done.
  pose proof (content_hash_wf v) as Hwf. destruct (ready_chunks _ (dinv_ready _ _ _ Hinv) _ Hwf) as [Hdir Hnd].
  pose proof (dinv_descs _ _ _ Hinv k1) as Hdesc. rewrite Hd in Hdesc. destruct Hdesc as (v' & Hv' & Hdesc & _).
  assert (v' = v) as -> by congruence. unfold dc_put.
  destruct (Z.ltb_spec MAX_KEY_SIZE (CacheKey_size k2)); [lia|].
  change (needs_eviction (dc_with_store c (failing (dc_store c) k)) (size_of v)) with (needs_eviction c (size_of v)).
  rewrite Hne. cbn [mbind outcome_bind]. replace (Z.to_nat (size_of v / CHUNK_SIZE + 2)) with (S (Z.to_nat (size_of v / CHUNK_SIZE + 1)))
    by (pose proof (Z.div_pos (size_of v) CHUNK_SIZE ltac:(lia) CHUNK_SIZE_pos); lia).
  cbn [loop put_loop_step]. destruct (Z.ltb_spec 0 (size_of v)); [|lia].
  rewrite Z.sub_0_r, u64_small, Z.min_r, slice_all by (try split; lia).
  cbn [Chunk_id Chunk_make chunk_id_ chunk_data dc_put_chunk dc_store dc_with_store].
  destruct (write_file_torn (dc_store c) (chunk_path (content_hash v)) k v Hfa Hdir Hnd Hk) as (st & -> & Hst).
  cbn [mbind outcome_bind]. rewrite Hst. cbv iota. rewrite Hst. cbv iota.
  set (c1 := dc_with_store c (set_sys (set_files (dc_store c)
    (<[chunk_path (content_hash v) := torn k v]> (dk_files (dc_store c)))) [])).
  destruct (dc_get_one_chunk now' c1 k1 desc v (torn k v) ropts) as (r & c2 & Eg & Hh & Hdata);
    [done..|lia|done|done|done| |by apply torn_size; lia|].
  { simpl. by rewrite lookup_insert_eq. }
  exists st, c1, r, c2. split_and!; [reflexivity|done..].
Qed.

End disk_cache.

(** ** Witnesses *)

#[local] Existing Instance fnv_hasher.

Definition sample_cfg : DiskCacheConfig :=
  mkDiskConfig [str "cache"] 100 true (ddiv (double_of_Z 9) (double_of_Z 10)) (ddiv (double_of_Z 8) (double_of_Z 10)).

Definition sample_dc : DiskCache :=
  match dc_start sample_cfg Z.of_nat [] (fun _ => []) (dc_make (mkDisk ∅ ∅ [] false)) with Done (_, c) => c | _ => dc_make (mkDisk ∅ ∅ [] true) end.

Lemma sample_dc_inv P : dc_inv sample_cfg P ∅ sample_dc /\ dc_index sample_dc = ([], 0, 0%nat).
Proof.
  unfold sample_dc. destruct (dc_start_empty sample_cfg Z.of_nat [] (fun _ => []) (fun _ => eq_refl)) as (c & -> & Hinv & Hi). done.
Qed.

Lemma only_sample_set : chunk_set only_sample.
Proof. split; [apply only_sample_ok|]. intros d ->. by vm_compute. Qed.

Definition one_minute : WriteOptions := mkWriteOptions (Some 60) 0 false false false true.

Lemma disk_put_get_witness :
  exists c1 r c2, dc_put sample_cfg Z.of_nat [] 5 sample_dc (sample_key "a") sample_value one_minute = Done (make_ok, c1) /\
    dc_get sample_cfg 59000000000 c1 (sample_key "a") ReadOptions_default = Done (r, c2) /\ rr_result r = Hit /\ rr_data r = str "hello".
Proof.
  destruct (disk_put_get sample_cfg Z.of_nat [] only_sample ∅ 5 59000000000 sample_dc (sample_key "a") sample_value one_minute
    ReadOptions_default) as (c1 & r & c2 & H); [..|exists c1, r, c2; exact H].
  - apply only_sample_set.
  - apply sample_dc_inv.
  - apply only_sample_ok.
  - by vm_compute.
  - by vm_compute.
  - exact I.
  - discriminate.
  - intros ttl [= <-]. split; [by repeat split|by vm_compute].
Defined.

(** Two chunks of 40 and 50 bytes, the second one younger. *)
Definition sample_full : DiskCache :=
  mkDiskCache (mkDisk ∅ ∅ [] true) ∅ ∅ [mkAccess (mkHash128 1 0) 0 40; mkAccess (mkHash128 2 0) 1 50] 90 0 0 0 0 0 2.

Lemma sample_full_accounted : accounted Z.of_nat (dc_index sample_full).
Proof.
  split_and!; [done..|]. constructor; [split; [done|exists 0%nat; split; [cbn; lia|done]]|].
  constructor; [split; [done|exists 1%nat; split; [cbn; lia|done]]|constructor].
Qed.

Lemma disk_evict_oldest_witness :
  exists victims c', dc_evict sample_cfg sample_full 10 = Done (access_total victims, c') /\
    dc_access sample_full = victims ++ dc_access c'.
Proof.
  destruct (disk_evict_oldest sample_cfg Z.of_nat sample_full 10) as (vs & c' & E & Hs & _);
    [done|apply sample_full_accounted|]. exists vs, c'. split; [exact E|exact Hs].
Defined.

(** A cache of eight bytes, where a second value of five needs an eviction. *)
Definition tight_cfg : DiskCacheConfig :=
  mkDiskConfig [str "cache"] 8 true (ddiv (double_of_Z 9) (double_of_Z 10)) (ddiv (double_of_Z 8) (double_of_Z 10)).

Lemma tight_stored :
  exists c0 c1, dc_start tight_cfg Z.of_nat [] (fun _ => []) (dc_make (mkDisk ∅ ∅ [] false)) = Done (make_ok, c0) /\
    dc_put tight_cfg Z.of_nat [] 5 c0 (sample_key "a") sample_value WriteOptions_default = Done (make_ok, c1) /\
    dc_inv tight_cfg only_sample (<[sample_key "a" := sample_value]> ∅) c1 /\
    dc_index c1 = ([mkAccess (content_hash sample_value) 0 5], 5, 1%nat).
Proof.
  destruct (dc_start_empty tight_cfg Z.of_nat [] (fun _ => []) (fun _ => eq_refl)) as (c0 & E0 & Hinv0 & Hi0).
  destruct (dc_put_spec tight_cfg Z.of_nat [] only_sample ∅ 5 c0 (sample_key "a") sample_value WriteOptions_default)
    as (c1 & E1 & Hinv1 & _ & _ & Hidx); [apply only_sample_set|done|apply only_sample_ok|by vm_compute|by vm_compute|].
  exists c0, c1. split_and!; [done..|]. rewrite Hidx, sample_pieces, Hi0; [by vm_compute|].
  unfold needs_eviction. change (dc_current_size c0) with (dc_index c0).1.2. rewrite Hi0. by vm_compute.
Qed.

Lemma disk_put_bounded_witness :
  exists c0 c1 c2, dc_start tight_cfg Z.of_nat [] (fun _ => []) (dc_make (mkDisk ∅ ∅ [] false)) = Done (make_ok, c0) /\
    dc_put tight_cfg Z.of_nat [] 5 c0 (sample_key "a") sample_value WriteOptions_default = Done (make_ok, c1) /\
    needs_eviction tight_cfg c1 (size_of sample_value) = true /\
    dc_put tight_cfg Z.of_nat [] 6 c1 (sample_key "b") sample_value WriteOptions_default = Done (make_ok, c2) /\
    accounted Z.of_nat (dc_index c2) /\ dc_current_size c2 <= 6 + 5.
Proof.
  destruct tight_stored as (c0 & c1 & E0 & E1 & Hinv & Hi). pose proof (f_equal (fun i => i.1.2) Hi) as Hsz. cbn in Hsz.
  assert (needs_eviction tight_cfg c1 (size_of sample_value) = true) as Hne by (unfold needs_eviction; rewrite Hsz; by vm_compute).
  destruct (disk_put_bounded tight_cfg Z.of_nat [] only_sample (<[sample_key "a" := sample_value]> ∅) 6 c1 (sample_key "b") sample_value WriteOptions_default)
    as (c2 & E & Ha & Hb); [..|rewrite Hne in Hb; exists c0, c1, c2; split_and!; done].
  - intros i j Hij. lia.
  - apply only_sample_set.
  - apply Hinv.
  - apply only_sample_ok.
  - by vm_compute.
  - by vm_compute.
  - rewrite Hi. split_and!; [done..|]. constructor; [split; [done|exists 0%nat; split; [lia|done]]|constructor].
  - rewrite Hsz. by vm_compute.
Defined.

(** The sample value stored in an empty cache. *)
Lemma sample_stored c0 :
  dc_inv sample_cfg only_sample ∅ c0 -> dc_index c0 = ([], 0, 0%nat) ->
  exists c desc, dc_put sample_cfg Z.of_nat [] 5 c0 (sample_key "a") sample_value WriteOptions_default = Done (make_ok, c) /\
    dc_inv sample_cfg only_sample (<[sample_key "a" := sample_value]> ∅) c /\ dc_descriptors c !! sample_key "a" = Some desc /\
    is_expired 7 (vd_metadata desc) = false /\ needs_eviction sample_cfg c (size_of sample_value) = false.
Proof.
  intros Hinv0 Hi. destruct (dc_put_spec sample_cfg Z.of_nat [] only_sample ∅ 5 c0 (sample_key "a") sample_value WriteOptions_default)
    as (c & E & Hinv & Hmd & _ & Hidx); [apply only_sample_set|done|apply only_sample_ok|by vm_compute|by vm_compute|].
  assert (forall c i, dc_index c = i -> needs_eviction sample_cfg c (size_of sample_value)
    = dltb (dmul (double_of_Z 100) (ddiv (double_of_Z 9) (double_of_Z 10))) (double_of_Z (i.1.2 +w 5))) as Hne by by intros ? ? <-.
  rewrite (Hne _ _ Hi) in Hidx. specialize (Hidx eq_refl). rewrite sample_pieces, Hi in Hidx.
  apply fmap_Some in Hmd as (desc & Hd & Hmd). exists c, desc. split_and!; [done..|by rewrite <- Hmd|].
  rewrite (Hne _ _ Hidx). by vm_compute.
Qed.

Lemma disk_failed_write_corrupts_witness :
  exists c st c1 r c2,
    dc_put sample_cfg Z.of_nat [] 5 sample_dc (sample_key "a") sample_value WriteOptions_default = Done (make_ok, c) /\
    dc_put sample_cfg Z.of_nat [] 6 (dc_with_store c (failing (dc_store c) 2)) (sample_key "b") sample_value WriteOptions_default
      = Done (st, c1) /\ is_ok st = false /\
    dc_get sample_cfg 7 c1 (sample_key "a") ReadOptions_default = Done (r, c2) /\ rr_result r = Hit /\
    rr_data r = [x68; x65; x00; x00; x00].
Proof.
  destruct (sample_stored sample_dc (proj1 (sample_dc_inv only_sample)) (proj2 (sample_dc_inv only_sample)))
    as (c & desc & E & Hinv & Hd & Hex & Hne).
  destruct (disk_failed_write_corrupts sample_cfg Z.of_nat [] only_sample (<[sample_key "a" := sample_value]> ∅) 6 7 c
    (sample_key "a") (sample_key "b") desc sample_value 2 WriteOptions_default ReadOptions_default)
    as (st & c1 & r & c2 & H); [..|exists c, st, c1, r, c2; split; [exact E|exact H]].
  - exact Hinv.
  - reflexivity.
  - exact Hd.
  - apply lookup_insert_eq.
  - apply sample_pieces.
  - split; reflexivity.
  - apply Z.leb_le. reflexivity.
  - apply Z.leb_le. reflexivity.
  - exact Hne.
  - exact Hex.
  - reflexivity.
Defined.
