(* ===== verification/DiskRestart.v ===== *)
(** * Runs of the disk tier and restarts after a crash

    A run of [DiskCache] on the file system of [DiskCache.v], under any results of its system calls, ends,
    possibly with an exception of [std::filesystem], and
    leaves only files of chunks and descriptors, whose contents may be cut short or torn. [start] of
    the next process reads the directories again ([load_index] of [src/cache/disk_cache.cpp]). This
    file shows what the next process can rely on. *)

From S2P Require Import Prelude CStd CDouble Types Chunk CacheApi CacheInterface ArcCache MemoryCache CacheTier Codec DiskCache.
From Stdlib Require Import Strings.Byte.
Open Scope Z_scope.

Section disk_restart.
Context `{HH : Hasher} (cfg : DiskCacheConfig) (steady : nat -> Z) (strerror : bytes).

(** Steps through calls of [std::filesystem] when no failure is due. *)
Ltac quiet_calls :=
  repeat (rewrite ?fs_call_quiet, ?file_exists_quiet by done;
          cbn [mbind outcome_bind scan_descriptors scan_chunks negb dc_store dc_with_store]).

(** ** Runs *)

(** The calls of the cache interface on the disk tier, in the vocabulary of the memory tier. *)
Definition dc_step (c : DiskCache) (op : mc_op) : outcome (mc_res * DiskCache) :=
  match op with
  | MGet now key opts => '(r, c') ← dc_get cfg now c key opts; Done (MRead r, c')
  | MPut now key v opts => '(st, c') ← dc_put cfg steady strerror now c key v opts; Done (MStatus st, c')
  | MRemove key opts => '(st, c') ← dc_remove cfg c key opts; Done (MStatus st, c')
  | MCheck key range => Done (MAvailable (dc_check c key range), c)
  | MStop => Done (MUnit, dc_stop c)
  end.

Fixpoint dc_run (c : DiskCache) (ops : list mc_op) : outcome (list (mc_op * mc_res) * DiskCache) :=
  match ops with
  | [] => Done ([], c)
  | op :: ops' =>
      '(res, c1) ← dc_step c op;
      '(tr, c2) ← dc_run c1 ops';
      Done ((op, res) :: tr, c2)
  end.

(** The specification: as for the memory tier, but a put takes values of any size and [stop] keeps
    what is stored. *)
Definition dvals_step (vals : gmap CacheKey bytes) (op : mc_op) : gmap CacheKey bytes :=
  match op with
  | MPut _ key v _ => if dc_accepts key v then <[key := v]> vals else vals
  | MStop => vals
  | _ => vals_step vals op
  end.

Definition danswer_ok (vals : gmap CacheKey bytes) (op : mc_op) (res : mc_res) : Prop :=
  match op, res with
  | MPut _ key v _, MStatus st => is_ok st = dc_accepts key v
  | _, _ => answer_ok vals op res
  end.

Fixpoint danswers_ok (vals : gmap CacheKey bytes) (tr : list (mc_op * mc_res)) : Prop :=
  match tr with
  | [] => True
  | (op, res) :: tr' => danswer_ok vals op res /\ danswers_ok (dvals_step vals op) tr'
  end.

Definition dop_ok (op : mc_op) : Prop :=
  match op with MPut _ _ v _ => size_of v <= MAX_VALUE_SIZE | _ => op_ok op end.

(** One call, when the chunks [Q] were written in this run and the files of others may hold anything. *)
Lemma dc_step_ok P Q vals c op :
  chunk_set P -> (forall x, Q x -> P x) -> dc_inv cfg Q vals c -> dop_ok op -> Forall P (op_pieces op) ->
  exists res c' Q', dc_step c op = Done (res, c') /\ (forall x, Q' x -> P x) /\ dc_inv cfg Q' (dvals_step vals op) c' /\
    danswer_ok vals op res.
Proof.
  intros Hset HQ Hinv Hop HP. assert (chunk_set Q) as HsetQ.
  { destruct Hset as [Hnc Hsz]. split; [intros a b Ha Hb; apply Hnc; auto|auto]. }
  destruct op as [now key opts|now key v opts|key opts|key range|]; simpl in *.
  - destruct (dc_get_spec cfg Q vals now c key opts HsetQ Hinv Hop) as (r & c' & -> & Hs & Hn & Hh & _). simpl.
    eexists _, _, Q. split; [done|]. split_and!; [done|by eapply dc_same_inv|done..].
  - unfold dc_accepts. destruct (Z.leb_spec (CacheKey_size key) MAX_KEY_SIZE) as [Hk|Hk].
    + destruct (dc_put_grows cfg steady strerror P Q vals now c key v opts Hset HQ Hinv HP Hk Hop) as (c' & -> & Hinv' & _). simpl.
      eexists _, _, _. split; [done|]. split; [|split; [exact Hinv'|done]]. rewrite Forall_forall in HP. intros x [?|?]; auto.
    + unfold DiskCache.dc_put. destruct (Z.ltb_spec MAX_KEY_SIZE (CacheKey_size key)); [|lia]. simpl. by eexists _, _, Q.
  - destruct (dc_remove_spec cfg Q vals c key opts Hinv) as (st & c' & -> & Hinv' & Hst). by eexists _, _, Q.
  - eexists _, _, Q. split; [done|]. split_and!; [done..|]. pose proof (dinv_descs _ _ _ _ Hinv key) as Hd.
    unfold dc_check, dc_get_descriptor. destruct (dc_descriptors c !! key) as [desc|].
    + destruct Hd as (v & -> & _). by rewrite bool_decide_eq_true_2.
    + by rewrite Hd.
  - by eexists _, _, Q.
Qed.

Lemma dc_run_ok P ops : chunk_set P -> Forall dop_ok ops -> Forall P (concat (op_pieces <$> ops)) ->
  forall Q vals c, (forall x, Q x -> P x) -> dc_inv cfg Q vals c ->
  exists tr c', dc_run c ops = Done (tr, c') /\ tr.*1 = ops /\ danswers_ok vals tr.
Proof.
  intros Hset Hop HP. induction Hop as [|op ops Hop Hops IH]; intros Q vals c HQ Hinv; [by exists [], c|].
  cbn [fmap list_fmap concat] in HP. apply Forall_app in HP as [HP1 HP2].
  destruct (dc_step_ok P Q vals c op Hset HQ Hinv Hop HP1) as (res & c1 & Q' & E & HQ' & Hinv1 & Hok).
  destruct (IH HP2 Q' _ c1 HQ' Hinv1) as (tr & c2 & E2 & Htr & Hoks).
  cbn [dc_run]. rewrite E. cbn. rewrite E2. eexists _, _. split; [done|].
  split; [by rewrite fmap_cons, Htr|done].
Qed.

(** ** Under any results of the system calls *)

Record usable (d : Disk) : Prop := {
  us_layout : layout cfg d;
  us_sizes : forall p content, dk_files d !! p = Some content -> size_of content < 2 ^ 63
}.

Lemma usable_same d d' : dk_files d' = dk_files d -> dk_dirs d' = dk_dirs d -> usable d -> usable d'.
Proof. intros Ef Ed [[Hf Hd Hp] Hs]. split; [split|]; rewrite ?Ef, ?Ed; done. Qed.

Lemma read_loop_ends content sys : forall fuel total buf,
  0 <= total <= size_of content -> size_of content < 2 ^ 63 -> (length sys + 2 <= fuel)%nat ->
  is_Some (loop fuel (read_step content 0 (size_of content)) (total, buf, sys)).
Proof.
  induction sys as [|r sys IH]; intros fuel total buf Ht Hs Hf; (destruct fuel as [|fuel]; [simpl in Hf; lia|]);
    cbn [loop read_step next_sys]; (destruct (Z.ltb_spec total (size_of content)); [|done]);
    rewrite Z.add_0_l, u64_small by (split; lia).
  - cbn [transfer]. rewrite Z.min_id. destruct (Z.leb_spec (size_of content - total) 0); [lia|].
    destruct fuel as [|fuel]; [simpl in Hf; lia|]. cbn [loop read_step].
    destruct (Z.ltb_spec (total + (size_of content - total)) (size_of content)); [lia|done].
  - destruct (Z.leb_spec (Z.min (transfer r (size_of content - total)) (size_of content - total)) 0); [done|].
    apply IH; [lia|done|simpl in Hf; lia].
Qed.

Lemma read_file_returns d p : usable d -> exists b d', read_file d p 0 0 = Done (b, d') /\ usable d'.
Proof.
  intros Hu. unfold read_file. destruct (next_sys (dk_sys d)) as [r sys].
  assert (forall s, usable (set_sys d s)) as Hset by (intros s; by apply (usable_same d)).
  destruct r as [k|]; [by eexists _, _|]. destruct (dk_files d !! p) as [content|] eqn:Ef; [|by eexists _, _].
  pose proof (us_sizes _ Hu _ _ Ef) as Hs. pose proof (size_of_nonneg content). rewrite Z.eqb_refl.
  destruct (next_sys sys) as [[k|] sys1]; [rewrite bool_decide_false by done; by eexists _, _|]. rewrite bool_decide_true by done.
  rewrite Z.sub_0_r, u64_small by (split; lia). destruct (Z.leb_spec (2 ^ 63) (size_of content)); [lia|].
  destruct (read_loop_ends content sys1 (S (S (S (length sys1)))) 0 []) as [[buf sys'] ->]; [lia..|]. by eexists _, _.
Qed.

Lemma pwrite_at_size content off b n :
  0 <= off -> off + size_of b <= n -> size_of content <= n -> size_of (pwrite_at content off b) <= n.
Proof.
  intros Ho Hb Hc. unfold pwrite_at, size_of in *. rewrite !length_app, length_take, length_drop. lia.
Qed.

Lemma write_loop_ends data sys : forall fuel total content,
  0 <= total <= size_of data -> size_of content <= size_of data -> (length sys + 2 <= fuel)%nat ->
  exists ok content' sys', loop fuel (write_step data) (total, content, sys) = Some (ok, content', sys') /\
    size_of content' <= size_of data.
Proof.
  assert (forall total n content, 0 <= total -> 0 < n -> total + n <= size_of data -> size_of content <= size_of data ->
    size_of (pwrite_at content total (slice total n data)) <= size_of data) as Hpw.
  { intros total n content Ht Hn He Hc. apply pwrite_at_size; [done| |done]. rewrite size_of_slice; lia. }
  induction sys as [|r sys IH]; intros fuel total content Ht Hc Hf; (destruct fuel as [|fuel]; [simpl in Hf; lia|]);
    cbn [loop write_step next_sys]; (destruct (Z.ltb_spec total (size_of data)); [|by eexists _, _, _]).
  - cbn [transfer]. destruct (Z.ltb_spec (size_of data - total) 0); [lia|].
    destruct (Z.eqb_spec (size_of data - total) 0); [lia|]. destruct fuel as [|fuel]; [simpl in Hf; lia|].
    cbn [loop write_step]. destruct (Z.ltb_spec (total + (size_of data - total)) (size_of data)); [lia|].
    eexists _, _, _. split; [done|]. apply Hpw; lia.
  - assert (transfer r (size_of data - total) <= size_of data - total) as Hn by (destruct r; simpl; lia).
    revert Hn. generalize (transfer r (size_of data - total)). intros n Hn.
    destruct (Z.ltb_spec n 0); [by eexists _, _, _|]. destruct (Z.eqb_spec n 0); [by eexists _, _, _|].
    apply IH; [lia|apply Hpw; lia|simpl in Hf; lia].
Qed.

Lemma write_file_returns d p data :
  usable d -> cache_path cfg p -> size_of data < 2 ^ 63 ->
  exists st d', write_file cfg strerror d p data = Done (st, d') /\ usable d'.
Proof.
  intros Hu Hp Hs. unfold write_file. destruct (next_sys (dk_sys d)) as [r sys].
  destruct (_ && _ && _); [|eexists _, _; split; [done|by apply (usable_same d)]].
  assert (exists content sys', (if dcfg_use_fallocate cfg && (0 <? size_of data) then
      let '(r, sys) := next_sys sys in (if bool_decide (r = None) then replicate (length data) x00 else [], sys)
    else ([], sys)) = (content, sys') /\ size_of content <= size_of data) as (content & sys' & -> & Hc).
  { pose proof (size_of_nonneg data). destruct (_ && _); [|by eexists _, _]. destruct (next_sys sys) as [r' sys'].
    case_bool_decide; eexists _, _; (split; [done|]); [|done]. unfold size_of. by rewrite length_replicate. }
  destruct (write_loop_ends data sys' (S (S (S (length sys')))) 0 content) as (ok & content' & sys2 & -> & Hc');
    [pose proof (size_of_nonneg data); lia|done|lia|].
  eexists _, _. split; [done|]. destruct Hu as [[Hf Hd Hpar] Hsz]. split; [split; [|done..]|]; simpl.
  - intros q. destruct (decide (p = q)) as [->|Hne]; [done|]. rewrite lookup_insert_ne by done. apply Hf.
  - intros q x [[_ <-]|[_ Hq]]%lookup_insert_Some; [lia|]. by apply (Hsz q).
Qed.

(** Calls of [std::filesystem] may throw, and then the operation ends there. *)
Abbreviation ends m Q := (concludes False m Q).

Lemma fs_call_ends d : usable d -> ends (fs_call d) usable.
Proof.
  intros Hu. eapply concludes_weaken; [|apply fs_call_concludes|]; [done|]. intros d' (Ef & Ed & _). by apply (usable_same d).
Qed.

Lemma without_usable d p : usable d -> usable (without d p).
Proof.
  intros [[Hf Hd Hpar] Hs]. split; [split; [|done..]|]; simpl.
  - intros q [x [_ Hx]%lookup_delete_Some]. by apply Hf.
  - intros q x [_ Hx]%lookup_delete_Some. by apply (Hs q).
Qed.

Abbreviation healthy c := (usable (dc_store c)).

Lemma dc_delete_ends c p : healthy c -> ends (dc_delete c p) (fun r => healthy r.2 /\ dc_access r.2 = dc_access c).
Proof.
  intros Hu. unfold dc_delete, delete_file. apply concludes_bind with (Q := fun r => usable r.2); [|by intros [st d]].
  eapply concludes_bind; [by apply fs_call_ends|]. intros d1 Hd1. apply concludes_ret. case_bool_decide; [|done].
  by apply without_usable.
Qed.

Lemma dc_get_chunk_returns c id : healthy c -> exists ch c', dc_get_chunk cfg c id = Done (ch, c') /\ healthy c'.
Proof.
  intros Hu. unfold dc_get_chunk. destruct (read_file_returns _ (chunk_path cfg id) Hu) as (b & d' & -> & Hu').
  by eexists _, _.
Qed.

Lemma dc_fetch_returns desc ap indices : forall c chunks af, healthy c ->
  exists got found c', dc_fetch_chunks cfg c desc ap indices chunks af = Done (got, found, c') /\ healthy c'.
Proof.
  induction indices as [|idx indices IH]; intros c chunks af Hu; cbn [dc_fetch_chunks]; [by eexists _, _, _|].
  destruct (vd_chunks desc !! Z.to_nat idx) as [id|]; [|by eexists _, _, _].
  destruct (dc_get_chunk_returns c id Hu) as ([ch|] & c' & -> & Hu'); cbn [mbind outcome_bind]; [by apply IH|].
  destruct ap; [by apply IH|by eexists _, _, _].
Qed.

Lemma dc_get_returns now c key opts : healthy c -> exists r c', dc_get cfg now c key opts = Done (r, c') /\ healthy c'.
Proof.
  intros Hu. unfold dc_get. destruct (dc_get_descriptor c key) as [desc|]; [|by eexists _, _].
  destruct (is_expired now (vd_metadata desc)); [by eexists _, _|]. destruct (_ <=? _); [by eexists _, _|].
  set (indices := chunks_for_range desc _). clearbody indices.
  destruct (dc_fetch_returns desc (ro_allow_partial opts) indices c [] true Hu) as (got & found & c' & -> & Hu').
  cbn [mbind outcome_bind]. unfold dc_finish_get. destruct (_ || _); by eexists _, _.
Qed.

Lemma dc_put_chunk_returns c d :
  healthy c -> size_of d <= CHUNK_SIZE ->
  exists st c', dc_put_chunk cfg steady strerror c (Some (stored d)) = Done (st, c') /\ healthy c'.
Proof.
  intros Hu Hd. unfold dc_put_chunk. cbn [Chunk_id stored chunk_id_ chunk_data].
  assert (CHUNK_SIZE < 2 ^ 63) by done.
  destruct (write_file_returns (dc_store c) (chunk_path cfg (content_hash d)) d Hu) as (st & d' & -> & Hu').
  - left. exists (content_hash d). split; [apply content_hash_wf|done].
  - lia.
  - cbn [mbind outcome_bind]. destruct (is_ok st); by eexists _, _.
Qed.

Lemma evict_ends target needed fuel : forall c ev, healthy c -> (length (dc_access c) < fuel)%nat ->
  ends (default Spin (loop fuel (evict_loop_step cfg target needed) (ev, c))) (fun r => healthy r.2).
Proof.
  induction fuel as [|fuel IH]; intros c ev Hu Hf; [lia|]. cbn [loop evict_loop_step].
  destruct (_ || _); [|done]. destruct (dc_access c) as [|e rest] eqn:Ea; [done|]. cbv zeta. set (c2 := dc_count _ _ _ _ _ _).
  pose proof (dc_delete_ends c2 (chunk_path cfg (ae_id e)) Hu) as He.
  destruct (dc_delete c2 (chunk_path cfg (ae_id e))) as [[st c3]| | |]; [|done..]. destruct He as [Hu3 Ha3].
  apply IH; [done|]. simpl in *. rewrite Ha3. simpl. lia.
Qed.

Lemma put_loop_returns v : size_of v <= MAX_VALUE_SIZE -> forall (n : nat) k c ids fuel,
  0 <= k -> k + Z.of_nat n = n_chunks v -> healthy c -> (n < fuel)%nat -> size_of ids = k ->
  exists r ids' c', loop fuel (put_loop_step cfg steady strerror v) (Z.min (k * CHUNK_SIZE) (size_of v), ids, c) =
    Some (Done (r, ids', c')) /\ healthy c' /\ size_of ids' <= n_chunks v.
Proof.
  intros Hmax. pose proof CHUNK_SIZE_pos. pose proof MAX_VALUE_SIZE_small. pose proof (n_chunks_bounds v) as Hn.
  induction n as [|n IH]; intros k c ids fuel Hk Hkn Hu Hf Hids; (destruct fuel as [|fuel]; [lia|]); cbn [loop put_loop_step].
  - destruct (Z.ltb_spec (Z.min (k * CHUNK_SIZE) (size_of v)) (size_of v)); [lia|]. eexists _, _, _. split_and!; [done..|lia].
  - assert (k * CHUNK_SIZE < size_of v) by nia. rewrite Z.min_l by lia.
    destruct (Z.ltb_spec (k * CHUNK_SIZE) (size_of v)); [|lia]. word_small. rewrite slice_clip by lia.
    assert (slice (k * CHUNK_SIZE) CHUNK_SIZE v = piece v k) as -> by (unfold piece; reflexivity).
    cbn [Chunk_id chunk_id_ Chunk_make chunk_data]. fold (stored (piece v k)).
    assert (size_of (ids ++ [content_hash (piece v k)]) = k + 1) as Hids'
      by (unfold size_of in *; rewrite length_app; simpl; lia).
    destruct (dc_put_chunk_returns c (piece v k) Hu) as (st & c1 & -> & Hu1); [pose proof (size_of_piece v k); lia|].
    destruct (is_ok st); [|eexists _, _, _; split_and!; [done..|lia]].
    replace (k * CHUNK_SIZE + Z.min CHUNK_SIZE (size_of v - k * CHUNK_SIZE)) with (Z.min ((k + 1) * CHUNK_SIZE) (size_of v)) by lia.
    apply IH; [lia..|done|lia|done].
Qed.

Lemma descriptor_bytes_size desc :
  size_of (descriptor_bytes desc) = 20 + CacheKey_size (vd_key desc) + 16 * size_of (vd_chunks desc).
Proof.
  unfold descriptor_bytes, CacheKey_size, size_of. rewrite !length_app. cbn [encode_u32 encode_u64 fmap list_fmap length].
  assert (forall hs, length (concat ((fun h => encode_u64 (low h) ++ encode_u64 (high h)) <$> hs)) = 16 * length hs)%nat as ->.
  { induction hs as [|h hs IH]; [done|]. rewrite fmap_cons. cbn [concat]. rewrite !length_app, IH. simpl. lia. }
  lia.
Qed.

Lemma dc_put_ends now c key v opts :
  healthy c -> size_of v <= MAX_VALUE_SIZE ->
  ends (dc_put cfg steady strerror now c key v opts) (fun r => healthy r.2).
Proof.
  intros Hu Hmax. unfold dc_put. destruct (Z.ltb_spec MAX_KEY_SIZE (CacheKey_size key)) as [_|Hk]; [done|].
  apply concludes_bind with (Q := fun c1 => healthy c1).
  { destruct (needs_eviction _ _ _); [|done]. eapply concludes_bind; [apply evict_ends; [done|lia]|]. by intros [n c1]. }
  intros c1 Hu1.
  pose proof (n_chunks_bounds v) as [Hn Hnb]. pose proof (size_of_nonneg v). pose proof CHUNK_SIZE_pos.
  destruct (put_loop_returns v Hmax (Z.to_nat (n_chunks v)) 0 c1 [] (Z.to_nat (size_of v / CHUNK_SIZE + 2)))
    as (r & ids & c2 & E & Hu2 & Hids); [lia..|done| |done|].
  { pose proof (Z.div_mod (size_of v) CHUNK_SIZE). pose proof (Z.mod_pos_bound (size_of v) CHUNK_SIZE).
    assert (n_chunks v < size_of v / CHUNK_SIZE + 2) by nia. pose proof (Z.div_pos (size_of v) CHUNK_SIZE). lia. }
  rewrite Z.mul_0_l, Z.min_l in E by lia. rewrite E. cbn [default from_option id mbind outcome_bind].
  destruct r as [st|]; [done|]. unfold dc_put_descriptor. set (desc := mkDescriptor _ _ _ _).
  destruct (write_file_returns (dc_store c2) (descriptor_path cfg (vd_key desc)) (descriptor_bytes desc) Hu2) as (st & d & -> & Hu3).
  - right. by exists (vd_key desc).
  - rewrite descriptor_bytes_size. cbn [vd_key vd_chunks desc]. assert (MAX_KEY_SIZE < 2 ^ 32) by done.
    assert (20 + 2 ^ 32 + 16 * (MAX_VALUE_SIZE + CHUNK_SIZE) < 2 ^ 63) by done. nia.
  - cbn [mbind outcome_bind]. by destruct (is_ok st).
Qed.

Lemma dc_remove_chunks_ends ids : forall c, healthy c -> ends (dc_remove_chunks cfg c ids) (fun c' => healthy c').
Proof.
  induction ids as [|id ids IH]; intros c Hu; cbn [dc_remove_chunks]; [done|]. unfold dc_remove_chunk.
  eapply concludes_bind; [apply dc_delete_ends; by rewrite dc_forget_store|]. intros [st c1] [Hu1 _]. by apply IH.
Qed.

Lemma dc_remove_ends c key opts : healthy c -> ends (dc_remove cfg c key opts) (fun r => healthy r.2).
Proof.
  intros Hu. unfold dc_remove. destruct (dc_get_descriptor c key) as [desc|]; [|done].
  eapply concludes_bind; [by apply dc_remove_chunks_ends|]. intros c1 Hu1. unfold dc_remove_descriptor.
  eapply concludes_bind; [by apply dc_delete_ends|]. by intros [st c2] [Hu2 _].
Qed.

Lemma dc_run_ends ops : Forall dop_ok ops -> forall c, healthy c ->
  ends (dc_run c ops) (fun r => r.1.*1 = ops /\ healthy r.2).
Proof.
  induction 1 as [|op ops Hop Hops IH]; intros c Hu; cbn [dc_run]; [done|].
  apply concludes_bind with (Q := fun r => healthy r.2).
  { destruct op as [now key opts|now key v opts|key opts|key range|]; simpl in *.
    - by destruct (dc_get_returns now c key opts Hu) as (r & c' & -> & Hu').
    - eapply concludes_bind; [by apply dc_put_ends|]. by intros [st c'].
    - eapply concludes_bind; [by apply dc_remove_ends|]. by intros [st c'].
    - done.
    - done. }
  intros [res c1] Hu1. eapply concludes_bind; [by apply IH|]. intros [tr c2] [Htr Hu2].
  split; [cbn [fst snd]; rewrite fmap_cons; f_equal; exact Htr|exact Hu2].
Qed.

(** ** Starting again *)

(** The directory iterators see exactly the files below the directory. *)
Definition lists (listing : Path -> list Path) (d : Disk) : Prop :=
  forall dir, NoDup (listing dir) /\ forall p, p ∈ listing dir <-> is_Some (dk_files d !! p) /\ dir `prefix_of` p.

Lemma split_name_no_dot l : Forall (fun b => b <> x2e) l -> split_name l = None.
Proof. induction 1 as [|b l Hb Hl IH]; simpl; [done|]. by rewrite IH, bool_decide_false. Qed.

Lemma split_name_ext s e : Forall (fun b => b <> x2e) e -> split_name (s ++ x2e :: e) = Some (s, x2e :: e).
Proof. intros He. induction s as [|b s IH]; simpl; [by rewrite split_name_no_dot|by rewrite IH]. Qed.

(** The file name of a chunk gives its identifier back. *)
Lemma chunk_file_name id :
  name_extension (path_filename (chunk_path cfg id)) = str ".chunk" /\
  name_stem (path_filename (chunk_path cfg id)) = Hash128_to_hex id.
Proof.
  assert (path_filename (chunk_path cfg id) = Hash128_to_hex id ++ x2e :: str "chunk") as ->.
  { unfold path_filename, chunk_path. by rewrite last_app. }
  assert (exists b l, Hash128_to_hex id = b :: l) as (b & l & Eh).
  { pose proof (hex16_length (high id)) as Hl. unfold Hash128_to_hex. destruct (hex16 (high id)) as [|b l]; [done|]. by eexists _, _. }
  unfold name_extension, name_stem. rewrite split_name_ext by (by repeat constructor). by rewrite Eh.
Qed.

Lemma scan_descriptors_quiet d paths :
  usable d -> dk_sys d = [] -> Forall (fun p => is_Some (dk_files d !! p)) paths -> scan_descriptors d paths = Done d.
Proof.
  intros Hu Hq. induction 1 as [|p paths [content Hp] Hall IH]; quiet_calls; [done|]. case_bool_decide; [|done].
  rewrite (read_file_quiet d p content) by (done || by apply (us_sizes _ Hu p)). done.
Qed.

Definition files_total (d : Disk) (paths : list Path) : Z := foldr (fun p acc => file_size d p + acc) 0 paths.

Lemma scan_chunks_spec ids : Forall Hash128_wf ids -> forall c x, dk_sys (dc_store c) = [] ->
  Forall (fun e => Hash128_wf (ae_id e)) (dc_access c) -> dc_current_size c = u64 x ->
  exists c', scan_chunks steady c (chunk_path cfg <$> ids) = Done c' /\ dc_store c' = dc_store c /\
    dc_descriptors c' = dc_descriptors c /\ Forall (fun e => Hash128_wf (ae_id e)) (dc_access c') /\
    (forall id, is_Some (dc_chunk_paths c' !! id) <-> id ∈ ids \/ is_Some (dc_chunk_paths c !! id)) /\
    dc_current_size c' = u64 (x + files_total (dc_store c) (chunk_path cfg <$> ids)).
Proof.
  induction 1 as [|id ids Hid Hids IH]; intros c x Hq Hacc Hx; rewrite ?fmap_nil, ?fmap_cons; cbn [files_total foldr]; quiet_calls.
  { rewrite dc_with_store_id. exists c. split_and!; [done..| |by rewrite Z.add_0_r]. intros id. rewrite elem_of_nil. tauto. }
  destruct (chunk_file_name id) as [-> ->]. rewrite bool_decide_true, from_hex_to_hex by done. cbn [mbind outcome_bind]. unfold fs_file_size. quiet_calls.
  rewrite dc_with_store_id. cbn [dc_now]. set (c1 := dc_with_index _ _ _ _). destruct (IH c1 (x + file_size (dc_store c) (chunk_path cfg id)))
    as (c' & -> & Hst & Hd & Ha & Hp & Hsz).
  - done.
  - by apply access_insert_wf.
  - cbn. rewrite Hx. apply u64_add_l.
  - exists c'. split_and!; [done..| |by rewrite Hsz, Z.add_assoc]. intros id'. rewrite Hp, elem_of_cons. cbn.
    destruct (decide (id = id')) as [->|Hne]; [rewrite lookup_insert_eq|rewrite lookup_insert_ne by done]; naive_solver.
Qed.

Lemma is_there_dir d q : q ∈ dk_dirs d -> is_there d q = true.
Proof. intros Hq. unfold is_there. rewrite (bool_decide_true (q ∈ _)) by done. apply orb_true_r. Qed.

(** The files the iterators find below [chunks] are those of chunks. *)
Lemma listed_chunks d paths :
  layout cfg d -> Forall (fun p => is_Some (dk_files d !! p) /\ dcfg_path cfg ++ [str "chunks"] `prefix_of` p) paths ->
  exists ids, paths = chunk_path cfg <$> ids /\ Forall Hash128_wf ids.
Proof.
  intros Hl. induction 1 as [|p paths [Hp Hpre] Hall (ids & -> & Hids)]; [by exists []|].
  destruct (lay_files _ _ Hl p Hp) as [(id & Hid & ->)|(key & ->)]; [exists (id :: ids); split; [done|by constructor]|].
  destruct Hpre as [k Hk]. unfold descriptor_path in Hk. rewrite <- app_assoc in Hk. apply app_inv_head in Hk. discriminate.
Qed.

Lemma ready_dirs d :
  dc_ready cfg d -> layout cfg d ->
  dcfg_path cfg ++ [str "descriptors"] ∈ dk_dirs d /\ dcfg_path cfg ++ [str "chunks"] ∈ dk_dirs d.
Proof.
  intros Hrd Hl. split.
  - destruct (ready_descriptors _ _ Hrd (CacheKey_make [])) as [Hin _]. revert Hin. unfold descriptor_path, path_parent.
    rewrite take_app_ge, length_app by (rewrite length_app; simpl; lia). simpl.
    by replace (length (dcfg_path cfg) + 2 - 1 - length (dcfg_path cfg))%nat with 1%nat by lia.
  - destruct (ready_chunks _ _ Hrd (content_hash []) (content_hash_wf [])) as [Hin _].
    apply (lay_parents _ _ Hl _ _ Hin); [|by destruct (dcfg_path cfg)]. unfold chunk_path, path_parent.
    rewrite take_app_ge, length_app by (rewrite length_app; simpl; lia). simpl.
    replace (length (dcfg_path cfg) + 3 - 1 - length (dcfg_path cfg))%nat with 2%nat by lia.
    eexists [_]. by rewrite <- app_assoc.
Qed.

(** What [start] makes of the leftovers: every chunk file is in the index, and no key is known. *)
Lemma dc_start_recovers listing d :
  usable d -> dk_sys d = [] -> lists listing d ->
  exists c, dc_start cfg steady strerror listing (dc_make d) = Done (make_ok, c) /\ dc_inv cfg (fun _ => False) ∅ c /\
    dk_files (dc_store c) = dk_files d /\
    (forall id, Hash128_wf id -> dc_has_chunk c id = bool_decide (is_Some (dk_files d !! chunk_path cfg id))) /\
    dc_current_size c = u64 (files_total d (listing (dcfg_path cfg ++ [str "chunks"]))).
Proof.
  intros Hu Hq Hlist. set (chunks := dcfg_path cfg ++ [str "chunks"]).
  destruct (concludes_quiet _ _ _ Hq (store_init_layout cfg strerror d (us_layout _ Hu))) as ([st d1] & E & Hf & Hl1 & Hrd).
  destruct (Hrd Hq) as [Est Hrd1]. simpl in Est, Hf, Hl1, Hrd1. subst st. pose proof (ready_quiet _ _ Hrd1) as Hq1.
  assert (usable d1) as Hu1 by (split; [done|rewrite Hf; apply (us_sizes _ Hu)]).
  unfold dc_start. simpl dc_store. rewrite E. cbn [mbind outcome_bind]. change (is_ok make_ok) with true. cbv iota. unfold load_index.
  destruct (ready_dirs d1 Hrd1 Hl1) as [Hdd Hcd]. fold chunks in Hcd. quiet_calls. rewrite (is_there_dir d1 _ Hdd). quiet_calls.
  rewrite scan_descriptors_quiet; [|done|done|]; [quiet_calls|].
  2: { rewrite Hf. apply Forall_forall. intros p Hp. by apply Hlist in Hp as [? _]. }
  fold chunks. rewrite (is_there_dir d1 _ Hcd). quiet_calls.
  destruct (listed_chunks d (listing chunks) (us_layout _ Hu)) as (ids & El & Hids).
  { apply Forall_forall. intros p Hp. by apply Hlist in Hp. }
  rewrite El. set (c1 := dc_with_store (dc_with_store (dc_make d) d1) d1).
  destruct (scan_chunks_spec ids Hids c1 0) as (c & -> & Hst & Hd & Ha & Hp & Hsz); [done..|].
  cbn [mbind outcome_bind]. exists c. split; [done|]. rewrite Hst. split_and!; [|done| |].
  - split; [by rewrite Hst|done..|]. intros key. by rewrite Hd.
  - intros id Hid. unfold dc_has_chunk. apply bool_decide_ext. rewrite Hp. cbn. rewrite lookup_empty.
    transitivity (chunk_path cfg id ∈ listing chunks).
    + rewrite El, list_elem_of_fmap. split; [intros [Hin|[? ?]]; [eauto|done]|].
      intros (id' & E' & Hin). left. rewrite Forall_forall in Hids. by rewrite (chunk_path_inj cfg id id') by auto.
    + destruct (Hlist chunks) as [_ ->]. split; [by intros [? _]|]. intros Hs. split; [done|].
      exists [take 2 (Hash128_to_hex id); Hash128_to_hex id ++ str ".chunk"]. unfold chunk_path, chunks. by rewrite <- app_assoc.
  - rewrite Hsz, Z.add_0_l. f_equal. unfold files_total, file_size, c1. simpl dc_store. by rewrite Hf.
Qed.

(** *** When calls fail *)

Lemma scan_descriptors_ends paths : forall d, usable d -> ends (scan_descriptors d paths) usable.
Proof.
  induction paths as [|p paths IH]; intros d Hu; cbn [scan_descriptors]; (eapply concludes_bind; [by apply fs_call_ends|]);
    intros d1 Hu1; [done|]. case_bool_decide; [|by apply IH].
  destruct (read_file_returns d1 p Hu1) as (b & d2 & -> & Hu2). by apply IH.
Qed.

Lemma scan_chunks_ends ids : Forall Hash128_wf ids -> forall c, healthy c ->
  ends (scan_chunks steady c (chunk_path cfg <$> ids)) (fun c' => healthy c').
Proof.
  induction 1 as [|id ids Hid Hids IH]; intros c Hu; rewrite ?fmap_nil, ?fmap_cons; cbn [scan_chunks];
    (eapply concludes_bind; [by apply fs_call_ends|]); intros d1 Hu1; [done|].
  destruct (chunk_file_name id) as [-> ->]. rewrite bool_decide_true, from_hex_to_hex by done. cbn [mbind outcome_bind].
  apply concludes_bind with (Q := fun r => usable r.2).
  - unfold fs_file_size. eapply concludes_bind; [by apply fs_call_ends|]. done.
  - intros [size d2] Hu2. cbn [dc_now]. by apply IH.
Qed.

(** [start] on the leftovers, whatever the calls return. *)
Lemma dc_start_ends listing d :
  usable d -> lists listing d -> ends (dc_start cfg steady strerror listing (dc_make d)) (fun r => healthy r.2).
Proof.
  intros Hu Hlist. set (chunks := dcfg_path cfg ++ [str "chunks"]). unfold dc_start.
  eapply concludes_bind; [eapply concludes_weaken; [|apply (store_init_layout cfg strerror d (us_layout _ Hu))|]; [done|intros r Hr; exact Hr]|].
  intros [st d1] (Hf & Hl1 & _). simpl in Hf, Hl1. assert (usable d1) as Hu1 by (split; [done|rewrite Hf; apply (us_sizes _ Hu)]).
  destruct (is_ok st); [|done]. unfold load_index.
  assert (forall d p, usable d -> ends (file_exists d p) (fun r => usable r.2)) as Hex.
  { intros d0 p Hd0. eapply concludes_weaken; [|apply file_exists_concludes|]; [done|]. intros [b d'] (_ & Ef & Ed & _).
    by apply (usable_same d0). }
  eapply concludes_bind; [by apply Hex|]. intros [found d2] Hu2. destruct found; [|done]. cbn [negb].
  eapply concludes_bind; [by apply fs_call_ends|]. intros d3 Hu3.
  eapply concludes_bind; [by apply scan_descriptors_ends|]. intros d4 Hu4.
  eapply concludes_bind; [by apply Hex|]. intros [found d5] Hu5. destruct found; [|done].
  eapply concludes_bind; [by apply fs_call_ends|]. intros d6 Hu6. fold chunks.
  destruct (listed_chunks d (listing chunks) (us_layout _ Hu)) as (ids & -> & Hids).
  { apply Forall_forall. intros p Hp. by apply Hlist in Hp. }
  eapply concludes_bind; [by apply scan_chunks_ends|]. done.
Qed.

(** ** Properties *)

(** C10: crash and restart. [usable] says of a disk that its directories and files are those of the
    cache; the contents of the files are arbitrary. From such a disk, whatever the system calls
    return, a run ends: it returns and leaves such a disk, or a call of [std::filesystem] throws, which
    ends the operation. So is [start] of the next process on any such disk, torn files of a process that
    died included. When no call fails from then on, [start] succeeds and counts every chunk file it
    finds, and every call answers as on an empty cache: a hit carries exactly the bytes put since the
    restart, never those of a torn file, and a key not put since is a plain miss. The sizes of the
    values are within the limits, and the content hash separates their chunks. *)
Theorem disk_crash_restart listing c0 ops0 d ops :
  usable (dc_store c0) -> Forall dop_ok ops0 -> usable d -> lists listing d -> Forall dop_ok ops ->
  chunk_set (fun x => x ∈ concat (op_pieces <$> ops)) ->
  ends (dc_run c0 ops0) (fun r => r.1.*1 = ops0 /\ usable (dc_store r.2)) /\
  ends (dc_start cfg steady strerror listing (dc_make d)) (fun r => usable (dc_store r.2)) /\
  (dk_sys d = [] ->
    exists c tr c2, dc_start cfg steady strerror listing (dc_make d) = Done (make_ok, c) /\
      (forall id, Hash128_wf id -> dc_has_chunk c id = bool_decide (is_Some (dk_files d !! chunk_path cfg id))) /\
      dc_current_size c = u64 (files_total d (listing (dcfg_path cfg ++ [str "chunks"]))) /\
      dc_run c ops = Done (tr, c2) /\ tr.*1 = ops /\ danswers_ok ∅ tr).
Proof.
  intros Hu0 Hops0 Hu Hlist Hops Hset. split; [by apply dc_run_ends|]. split; [by apply dc_start_ends|]. intros Hq.
  destruct (dc_start_recovers listing d Hu Hq Hlist) as (c & Es & Hinv & _ & Hhas & Hsz).
  destruct (dc_run_ok _ ops Hset Hops) with (Q := fun _ : bytes => False) (vals := @empty (gmap CacheKey bytes) _) (c := c)
    as (tr & c2 & E & Htr & Hok); [by apply Forall_forall|done|done|].
  exists c, tr, c2. split_and!; done.
Qed.

End disk_restart.

(** ** Witness *)

#[local] Existing Instance fnv_hasher.

(** The files below a directory, in the order of the map. *)
Definition listing_of (d : Disk) (dir : Path) : list Path :=
  filter (fun p => dir `prefix_of` p) (elements (dom (dk_files d))).

Lemma listing_of_lists d : lists (listing_of d) d.
Proof.
  intros dir. split; [apply NoDup_filter, NoDup_elements|]. intros p. unfold listing_of.
  rewrite list_elem_of_filter, elem_of_elements, elem_of_dom. tauto.
Qed.

(** A first run whose put finds no directories; a second process finds the torn file of a chunk. *)
Definition sample_crashed : Disk :=
  mkDisk {[chunk_path sample_cfg (content_hash sample_value) := [x68; x65; x00; x00; x00]]} ∅ [] false.

Definition sample_put_get : list mc_op :=
  [MGet 4 (sample_key "a") ReadOptions_default; MPut 5 (sample_key "a") sample_value WriteOptions_default;
   MGet 6 (sample_key "a") ReadOptions_default].

Lemma disk_crash_restart_witness :
  exists c tr c2, dc_start sample_cfg Z.of_nat [] (listing_of sample_crashed) (dc_make sample_crashed) = Done (make_ok, c) /\
    dc_run sample_cfg Z.of_nat [] c sample_put_get = Done (tr, c2) /\ danswers_ok ∅ tr.
Proof.
  destruct (disk_crash_restart sample_cfg Z.of_nat [] (listing_of sample_crashed) (dc_make (mkDisk ∅ ∅ [None; Some 0] false))
    [MPut 1 (sample_key "a") sample_value WriteOptions_default] sample_crashed sample_put_get) as (_ & _ & H).
  - split; [apply layout_empty|]. intros p content Hp. simpl in Hp. by rewrite lookup_empty in Hp.
  - constructor; [by vm_compute|constructor].
  - split; [split|]; cbn [dk_files dk_dirs sample_crashed]; [|set_solver..|].
    + intros p [content [<- _]%lookup_singleton_Some]. left. exists (content_hash sample_value). split; [apply content_hash_wf|reflexivity].
    + intros p content [_ <-]%lookup_singleton_Some. by vm_compute.
  - apply listing_of_lists.
  - repeat constructor; by vm_compute.
  - cbn [sample_put_get fmap list_fmap concat op_pieces]. rewrite sample_pieces. split.
    + intros a b Ha Hb _. apply list_elem_of_singleton in Ha, Hb. congruence.
    + intros d ->%list_elem_of_singleton. by vm_compute.
  - destruct (H eq_refl) as (c & tr & c2 & Es & _ & _ & E & _ & Hok). exists c, tr, c2. split; [exact Es|]. split; [exact E|exact Hok].
Defined.
