(* ===== verification/DiskThreads.v ===== *)
(** * Several threads in the disk store: [DiskStore::write_file], [read_file] and [delete_file] of
      [src/cache/disk_cache.cpp], one system call at a time

    [DiskCache] locks its index, never its files: worker threads read, write and delete chunk files at the
    same time. Here files are inodes with names, as the calls see them: [open] with [O_TRUNC] empties the inode
    a name leads to or makes a new one, [unlink] takes the name away while open descriptors stay good, [pwrite]
    past the end leaves a hole of zeros. A thread performs one call per step, which succeeds or fails, and the
    steps of all threads interleave. Chunk files are named by the hash of their contents, so that every writer of a path writes the
    same bytes, [data_of path]. *)

From S2P Require Import Prelude CStd CText CDouble Types Chunk CacheApi CacheInterface ArcCache MemoryCache CacheTier Codec DiskCache.
From Stdlib Require Import Strings.Byte.
Open Scope nat_scope.

(** ** Files *)

(** [fs_inodes]: the path an inode was created under, and its contents. *)
Record FS := mkFS { fs_names : gmap Path nat; fs_inodes : list (Path * bytes) }.

Definition fs_content (fs : FS) (ino : nat) : bytes := match fs_inodes fs !! ino with Some (_, c) => c | None => [] end.

Definition fs_set (fs : FS) (ino : nat) (p : Path) (content : bytes) : FS := mkFS (fs_names fs) (<[ino := (p, content)]> (fs_inodes fs)).

(** [open(path, O_RDWR | O_CREAT | O_TRUNC)]. *)
Definition fs_create (fs : FS) (p : Path) : nat * FS :=
  match fs_names fs !! p with
  | Some ino => (ino, fs_set fs ino p [])
  | None => (length (fs_inodes fs), mkFS (<[p := length (fs_inodes fs)]> (fs_names fs)) (fs_inodes fs ++ [(p, [])]))
  end.

(** [pwrite] and [fallocate] on the contents of an inode. *)
Definition pwrite_hole (content : bytes) (off : nat) (b : bytes) : bytes :=
  take off content ++ replicate (off - length content) x00 ++ b ++ drop (off + length b) content.

Definition fallocated (content : bytes) (n : nat) : bytes := content ++ replicate (n - length content) x00.

(** ** Threads *)

(** [write_file]: before [open], before [fallocate], in the loop with [total_written]; it ends with all the data
    written, refused by [open], or short, when [pwrite] failed or, [reported_ok], returned 0. *)
Inductive WPos :=
| WOpen | WAllocate (ino : nat) | WWrite (ino total_written : nat) | WDone | WRefused | WShort (ino : nat) (reported_ok : bool).

(** [read_file]: before [open], before [fstat], in the loop with the size and the bytes so far; it ends because
    there is no file, a call failed, the file ends early, or all is read. *)
Inductive RPos :=
| ROpen | RStat (ino : nat) | RRead (ino len : nat) (buf : bytes)
| RMissing | RFailed (buf : bytes) | RShort (buf : bytes) | RDone (buf : bytes).

(** The buffer [read_file] returns: the caller cannot tell the ends apart. *)
Definition read_result (pos : RPos) : option bytes :=
  match pos with
  | RMissing => Some []
  | RFailed buf | RShort buf | RDone buf => Some buf
  | _ => None
  end.

(** [delete_file]: before [remove]; it ends, with an exception when the call failed. *)
Inductive DPos := DUnlink | DEnd | DThrown.

Inductive DThread :=
| Writing (p : Path) (data : bytes) (pos : WPos)
| Reading (p : Path) (pos : RPos)
| Deleting (p : Path) (pos : DPos).

(** The next call of a thread; the result of [fallocate] is not looked at. [pwrite] and [pread] may transfer any
    number of bytes. *)
Inductive call_step (use_fallocate : bool) : FS -> DThread -> FS -> DThread -> Prop :=
| call_create fs p data ino fs' : fs_create fs p = (ino, fs') ->
    call_step use_fallocate fs (Writing p data WOpen)
      fs' (Writing p data (if use_fallocate && (0 <? length data) then WAllocate ino else WWrite ino 0))
| call_create_fails fs p data :
    call_step use_fallocate fs (Writing p data WOpen) fs (Writing p data WRefused)
| call_fallocate fs p data ino :
    call_step use_fallocate fs (Writing p data (WAllocate ino))
      (fs_set fs ino p (fallocated (fs_content fs ino) (length data))) (Writing p data (WWrite ino 0))
| call_fallocate_fails fs p data ino :
    call_step use_fallocate fs (Writing p data (WAllocate ino)) fs (Writing p data (WWrite ino 0))
| call_pwrite fs p data ino total n : total < length data -> 0 < n <= length data - total ->
    call_step use_fallocate fs (Writing p data (WWrite ino total))
      (fs_set fs ino p (pwrite_hole (fs_content fs ino) total (take n (drop total data)))) (Writing p data (WWrite ino (total + n)))
| call_pwrite_fails fs p data ino total reported_ok : total < length data ->
    call_step use_fallocate fs (Writing p data (WWrite ino total)) fs (Writing p data (WShort ino reported_ok))
| call_close fs p data ino total : length data <= total ->
    call_step use_fallocate fs (Writing p data (WWrite ino total)) fs (Writing p data WDone)
| call_missing fs p : fs_names fs !! p = None -> call_step use_fallocate fs (Reading p ROpen) fs (Reading p RMissing)
| call_open fs p ino : fs_names fs !! p = Some ino ->
    call_step use_fallocate fs (Reading p ROpen) fs (Reading p (RStat ino))
| call_open_fails fs p : call_step use_fallocate fs (Reading p ROpen) fs (Reading p (RFailed []))
| call_fstat fs p ino :
    call_step use_fallocate fs (Reading p (RStat ino)) fs (Reading p (RRead ino (length (fs_content fs ino)) []))
| call_fstat_fails fs p ino :
    call_step use_fallocate fs (Reading p (RStat ino)) fs (Reading p (RFailed []))
| call_pread fs p ino len buf n : length buf < len -> 0 < n <= len - length buf -> length buf + n <= length (fs_content fs ino) ->
    call_step use_fallocate fs (Reading p (RRead ino len buf)) fs (Reading p (RRead ino len (buf ++ take n (drop (length buf) (fs_content fs ino)))))
| call_pread_fails fs p ino len buf : length buf < len ->
    call_step use_fallocate fs (Reading p (RRead ino len buf)) fs (Reading p (RFailed buf))
| call_eof fs p ino len buf : length buf < len -> length (fs_content fs ino) <= length buf ->
    call_step use_fallocate fs (Reading p (RRead ino len buf)) fs (Reading p (RShort buf))
| call_read_done fs p ino len buf : len <= length buf ->
    call_step use_fallocate fs (Reading p (RRead ino len buf)) fs (Reading p (RDone buf))
| call_unlink fs p : call_step use_fallocate fs (Deleting p DUnlink) (mkFS (delete p (fs_names fs)) (fs_inodes fs)) (Deleting p DEnd)
| call_unlink_fails fs p : call_step use_fallocate fs (Deleting p DUnlink) fs (Deleting p DThrown).

Record DiskSystem := mkDS { ds_fs : FS; ds_threads : list DThread }.

Section threads.
Context (use_fallocate : bool) (data_of : Path -> bytes).

(** A thread that starts an operation. *)
Definition starts (t : DThread) : Prop :=
  match t with Writing p data pos => data = data_of p /\ pos = WOpen | Reading _ pos => pos = ROpen | Deleting _ pos => pos = DUnlink end.

Inductive disk_step : DiskSystem -> DiskSystem -> Prop :=
| disk_spawn s t : starts t -> disk_step s (mkDS (ds_fs s) (ds_threads s ++ [t]))
| disk_call s i t fs' t' : ds_threads s !! i = Some t -> call_step use_fallocate (ds_fs s) t fs' t' ->
    disk_step s (mkDS fs' (<[i := t']> (ds_threads s))).

(** Files as the disk cache leaves them when it is at rest. *)
Definition complete (fs : FS) : Prop :=
  (forall p ino, fs_names fs !! p = Some ino -> fs_inodes fs !! ino = Some (p, data_of p)) /\
  Forall (fun x => x.2 = data_of x.1) (fs_inodes fs).

(** The file of one path. *)
Definition complete_at (p : Path) (fs : FS) : Prop := forall ino, fs_names fs !! p = Some ino -> fs_inodes fs !! ino = Some (p, data_of p).

(** A write to the path that is in progress, or ended short. *)
Definition unfinished (p : Path) (t : DThread) : Prop :=
  match t with Writing q _ (WAllocate _ | WWrite _ _ | WShort _ _) => q = p | _ => False end.

(** ** Contents while writes are going on *)

(** Bytes of [v], or zeros where they are not written yet. *)
Definition mixed (v c : bytes) : Prop := length c <= length v /\ forall j b, c !! j = Some b -> b = x00 \/ v !! j = Some b.

(** The first [m] bytes are right. *)
Definition right_to (v c : bytes) (m : nat) : Prop := forall j, j < m -> c !! j = v !! j.

Lemma pwrite_lookup c off b j :
  pwrite_hole c off b !! j =
  if decide (j < off) then (if decide (j < length c) then c !! j else Some x00)
  else if decide (j < off + length b) then b !! (j - off) else c !! j.
Proof.
  unfold pwrite_hole. case_decide as H1.
  - case_decide as H2.
    + rewrite lookup_app_l by (rewrite length_take; lia). by rewrite lookup_take_lt.
    + rewrite lookup_app_r, length_take, Nat.min_r by (rewrite ?length_take; lia).
      rewrite lookup_app_l by (rewrite length_replicate; lia). apply lookup_replicate_2. lia.
  - rewrite app_assoc, lookup_app_r by (rewrite length_app, length_take, length_replicate; lia).
    rewrite length_app, length_take, length_replicate. replace (Nat.min off (length c) + (off - length c)) with off by lia. case_decide as H2.
    + by rewrite lookup_app_l by lia.
    + rewrite lookup_app_r by lia. rewrite lookup_drop. f_equal. lia.
Qed.

Lemma pwrite_length c off b : length (pwrite_hole c off b) = length b + off + (length c - (off + length b)).
Proof. unfold pwrite_hole. rewrite !length_app, length_take, length_replicate, length_drop. lia. Qed.

Lemma piece_lookup (v : bytes) total n j : total <= j < total + n -> take n (drop total v) !! (j - total) = v !! j.
Proof. intros Hj. rewrite lookup_take_lt, lookup_drop by lia. f_equal. lia. Qed.

Lemma piece_length (v : bytes) total n : n <= length v - total -> length (take n (drop total v)) = n.
Proof. intros Hn. rewrite length_take, length_drop. lia. Qed.

Lemma right_length v c m : m <= length v -> right_to v c m -> m <= length c.
Proof.
  intros Hm Hr. destruct m as [|m]; [lia|]. specialize (Hr m ltac:(lia)). destruct (v !! m) eqn:E.
  - apply lookup_lt_Some in Hr. lia.
  - apply lookup_ge_None in E. lia.
Qed.

(** Whoever writes, what is right stays right, and what is written becomes right. *)
Lemma pwrite_right v c total n m : n <= length v - total -> m <= length v -> right_to v c m ->
  let c' := pwrite_hole c total (take n (drop total v)) in
  right_to v c' m /\ (total <= m -> right_to v c' (Nat.max m (total + n))).
Proof.
  intros Hn Hm Hr c'. pose proof (right_length v c m Hm Hr) as Hl.
  assert (forall j, j < m \/ total <= j < total + n -> c' !! j = v !! j) as Hj.
  { intros j Hj. unfold c'. rewrite pwrite_lookup, piece_length by done. case_decide; [rewrite decide_True by lia; apply Hr; lia|].
    case_decide; [apply piece_lookup; lia|]. apply Hr. lia. }
  split; [intros j ?; apply Hj; lia|]. intros Ht j ?. apply Hj. lia.
Qed.

Lemma pwrite_mixed v c total n : n <= length v - total -> total < length v -> mixed v c -> mixed v (pwrite_hole c total (take n (drop total v))).
Proof.
  intros Hn Ht [Hl Hm]. split; [rewrite pwrite_length, piece_length by done; lia|]. intros j b. rewrite pwrite_lookup, piece_length by done.
  case_decide; [case_decide; [apply Hm|by intros [= <-]; left]|]. case_decide; [|apply Hm]. rewrite piece_lookup by lia. by right.
Qed.

Lemma fallocated_mixed v c : mixed v c -> mixed v (fallocated c (length v)).
Proof.
  intros [Hl Hm]. unfold fallocated. split; [rewrite length_app, length_replicate; lia|]. intros j b [Hj|[Hj Hb]]%lookup_app_Some; [by apply Hm|].
  apply lookup_replicate in Hb as [-> _]. by left.
Qed.

Lemma fallocated_right v c m : m <= length v -> right_to v c m -> right_to v (fallocated c (length v)) m.
Proof.
  intros Hm Hr j Hj. pose proof (right_length v c m Hm Hr). unfold fallocated. rewrite lookup_app_l by lia. by apply Hr.
Qed.

Lemma right_complete v c : length c <= length v -> right_to v c (length v) -> c = v.
Proof.
  intros Hl Hr. apply list_eq. intros j. destruct (decide (j < length v)); [by apply Hr|]. rewrite !lookup_ge_None_2 by lia. done.
Qed.

(** ** The invariant *)

Definition owned (fs : FS) (ino : nat) (p : Path) : Prop := exists c, fs_inodes fs !! ino = Some (p, c).

Definition thread_ok (fs : FS) (t : DThread) : Prop :=
  match t with
  | Writing p data pos => data = data_of p /\
      match pos with WAllocate ino | WShort ino _ => owned fs ino p | WWrite ino total => owned fs ino p /\ total <= length data | _ => True end
  | Reading p pos =>
      match pos with
      | ROpen | RMissing => True
      | RStat ino => owned fs ino p
      | RRead ino _ buf => owned fs ino p /\ mixed (data_of p) buf
      | RFailed buf | RShort buf | RDone buf => mixed (data_of p) buf
      end
  | Deleting _ _ => True
  end.

(** A writer is at byte [m] of an inode, all before it is right: it will complete the file, or it ended short. *)
Definition writes_at (pos : WPos) (ino m : nat) : Prop :=
  match pos with
  | WAllocate i | WShort i _ => i = ino /\ m = 0
  | WWrite i n => i = ino /\ n = m
  | _ => False
  end.

Definition covered (threads : list DThread) (p : Path) (ino : nat) (c : bytes) : Prop :=
  exists t pos m, threads !! t = Some (Writing p (data_of p) pos) /\ writes_at pos ino m /\ m <= length (data_of p) /\ right_to (data_of p) c m.

Definition inode_ok (threads : list DThread) (ino : nat) (p : Path) (c : bytes) : Prop :=
  mixed (data_of p) c /\ (c = data_of p \/ covered threads p ino c).

Record ds_inv (fs : FS) (threads : list DThread) : Prop := {
  di_threads : Forall (thread_ok fs) threads;
  di_names : forall p ino, fs_names fs !! p = Some ino -> owned fs ino p;
  di_inodes : forall ino p c, fs_inodes fs !! ino = Some (p, c) -> inode_ok threads ino p c
}.

Lemma thread_ok_mono fs fs' t : (forall ino p, owned fs ino p -> owned fs' ino p) -> thread_ok fs t -> thread_ok fs' t.
Proof.
  intros Ho. destruct t as [p data []|p []|]; cbn; intros H; try done; try (by apply Ho);
    destruct H as [H1 H2]; try (by split; [done|apply Ho]); try (by split; [apply Ho|done]). destruct H2. split_and!; [done|by apply Ho|done].
Qed.

Lemma owned_set fs ino0 p0 c ino p : owned fs ino0 p0 -> owned fs ino p -> owned (fs_set fs ino0 p0 c) ino p.
Proof.
  intros [c0 H0] [c1 H1]. unfold owned. cbn. destruct (decide (ino0 = ino)) as [->|Hne].
  - exists c. rewrite list_lookup_insert_eq by (by eapply lookup_lt_Some). congruence.
  - exists c1. by rewrite list_lookup_insert_ne.
Qed.

(** One thread moves on; the covers by other threads stay. *)
Lemma covered_other threads i t t' p ino c : threads !! i = Some t -> covered threads p ino c ->
  covered (<[i := t']> threads) p ino c \/
  exists pos m, t = Writing p (data_of p) pos /\ writes_at pos ino m /\ m <= length (data_of p) /\ right_to (data_of p) c m.
Proof.
  intros Hi (t0 & pos & m & Ht & Hat & Hm & Hr). destruct (decide (t0 = i)) as [->|Hne].
  - right. exists pos, m. split_and!; [congruence|done..].
  - left. exists t0, pos, m. by rewrite list_lookup_insert_ne.
Qed.

(** The thread covers the inode from now on. *)
Lemma covered_here (threads : list DThread) i t p ino c pos m : threads !! i = Some t -> writes_at pos ino m -> m <= length (data_of p) ->
  right_to (data_of p) c m -> covered (<[i := Writing p (data_of p) pos]> threads) p ino c.
Proof.
  intros Hi Hat Hm Hr. exists i, pos, m. rewrite list_lookup_insert_eq by (by eapply lookup_lt_Some). done.
Qed.

(** A move that covers no other inode than before and leaves the files alone. *)
Lemma same_files fs threads i t t' : ds_inv fs threads -> threads !! i = Some t -> thread_ok fs t' ->
  (forall p c ino pos m, t = Writing p (data_of p) pos -> writes_at pos ino m -> fs_inodes fs !! ino = Some (p, c) -> right_to (data_of p) c m ->
     m <= length (data_of p) -> c = data_of p \/ covered (<[i := t']> threads) p ino c) ->
  ds_inv fs (<[i := t']> threads).
Proof.
  intros [Ht Hn Hc] Hi Hok Hcov. split; [by apply Forall_insert|done|]. intros ino p c E. destruct (Hc _ _ _ E) as [Hm Hd]. split; [done|].
  destruct Hd as [->|Hd]; [by left|]. destruct (covered_other _ _ _ t' _ _ _ Hi Hd) as [?|(pos & m & Et & Hat & Hm' & Hr)]; [by right|].
  by eapply Hcov.
Qed.

(** A move that writes to one inode. *)
Lemma one_inode fs threads i t t' ino p c0 c' : ds_inv fs threads -> threads !! i = Some t -> fs_inodes fs !! ino = Some (p, c0) ->
  thread_ok (fs_set fs ino p c') t' -> inode_ok (<[i := t']> threads) ino p c' ->
  (forall q pos m ino', t = Writing q (data_of q) pos -> writes_at pos ino' m -> ino' = ino) ->
  ds_inv (fs_set fs ino p c') (<[i := t']> threads).
Proof.
  intros [Ht Hn Hc] Hi Hino Hok Hnew Honly. assert (owned fs ino p) as Hown by (by exists c0).
  assert (forall j q, owned fs j q -> owned (fs_set fs ino p c') j q) as Hmono by (intros j q; by apply owned_set).
  split.
  - apply Forall_insert; [|done]. eapply Forall_impl; [exact Ht|]. intros x. by apply thread_ok_mono.
  - intros q j Hq. by apply Hmono, Hn.
  - intros j q c. cbn. destruct (decide (ino = j)) as [->|Hne].
    + rewrite list_lookup_insert_eq by (by eapply lookup_lt_Some). by intros [= <- <-].
    + rewrite list_lookup_insert_ne by done. intros E. destruct (Hc _ _ _ E) as [Hm Hd]. split; [done|]. destruct Hd as [->|Hd]; [by left|right].
      destruct (covered_other _ _ _ t' _ _ _ Hi Hd) as [?|(pos & m & Et & Hat & _ & _)]; [done|]. by destruct (Hne (eq_sym (Honly _ _ _ _ Et Hat))).
Qed.

Lemma mixed_nil v : mixed v [].
Proof. split; [cbn; lia|]. intros j b. by rewrite lookup_nil. Qed.

Lemma mixed_self v : mixed v v.
Proof. split; [done|]. intros j b H. by right. Qed.

(** ** The calls keep it *)

Lemma content_owned fs ino p : owned fs ino p -> fs_inodes fs !! ino = Some (p, fs_content fs ino).
Proof. intros [c E]. unfold fs_content. by rewrite E. Qed.

Lemma create_inv fs threads i p ino fs' : ds_inv fs threads -> threads !! i = Some (Writing p (data_of p) WOpen) -> fs_create fs p = (ino, fs') ->
  ds_inv fs' (<[i := Writing p (data_of p) (if use_fallocate && (0 <? length (data_of p)) then WAllocate ino else WWrite ino 0)]> threads).
Proof.
  intros Hinv Hi. set (pos := fun ino => if use_fallocate && (0 <? length (data_of p)) then WAllocate ino else WWrite ino 0).
  change (if use_fallocate && (0 <? length (data_of p)) then WAllocate ino else WWrite ino 0) with (pos ino).
  assert (forall j, writes_at (pos j) j 0) as Hat by (intros j; unfold pos; by destruct (_ && _)).
  assert (forall fs0 j, owned fs0 j p -> thread_ok fs0 (Writing p (data_of p) (pos j))) as Hok.
  { intros fs0 j Ho. split; [done|]. unfold pos. destruct (_ && _); [done|]. split; [done|lia]. }
  assert (forall j, inode_ok (<[i := Writing p (data_of p) (pos j)]> threads) j p []) as Hcov.
  { intros j. split; [apply mixed_nil|]. right. eapply covered_here; [done|apply Hat|lia|]. intros ? ?. lia. }
  unfold fs_create. destruct (fs_names fs !! p) as [ino0|] eqn:Ep; intros [= <- <-].
  - pose proof (content_owned _ _ _ (di_names _ _ Hinv _ _ Ep)) as Eo. eapply one_inode; [done|done|exact Eo| |apply Hcov|].
    + apply Hok. eapply owned_set; by apply (di_names _ _ Hinv).
    + by intros q pos0 m ino' [= <- _ <-] [].
  - destruct Hinv as [Ht Hn Hc]. set (fs1 := mkFS _ _).
    assert (forall j q, owned fs j q -> owned fs1 j q) as Hmono by (intros j q [c E]; exists c; by apply lookup_app_l_Some).
    assert (owned fs1 (length (fs_inodes fs)) p) as Hown by (exists []; cbn; by rewrite list_lookup_middle).
    split.
    + apply Forall_insert; [|by apply Hok]. eapply Forall_impl; [exact Ht|]. intros x. by apply thread_ok_mono.
    + intros q j. cbn. rewrite lookup_insert. case_decide as D; [subst; by intros [= <-]|]. intros Hq. by apply Hmono, Hn.
    + intros j q c. cbn. intros [E|[Hj E]]%lookup_app_Some.
      * destruct (Hc _ _ _ E) as [Hm Hd]. split; [done|]. destruct Hd as [->|Hd]; [by left|right].
        destruct (covered_other _ _ _ (Writing p (data_of p) (pos (length (fs_inodes fs)))) _ _ _ Hi Hd) as [?|(pos0 & m & [= <- _ <-] & [] & _)]; done.
      * apply list_lookup_singleton_Some in E as [Ej [= <- <-]]. replace j with (length (fs_inodes fs)) by lia. apply Hcov.
Qed.

Lemma fallocate_inv fs threads i p ino : ds_inv fs threads -> threads !! i = Some (Writing p (data_of p) (WAllocate ino)) -> owned fs ino p ->
  ds_inv (fs_set fs ino p (fallocated (fs_content fs ino) (length (data_of p)))) (<[i := Writing p (data_of p) (WWrite ino 0)]> threads).
Proof.
  intros Hinv Hi Ho. pose proof (content_owned _ _ _ Ho) as Eo. destruct (di_inodes _ _ Hinv _ _ _ Eo) as [Hm Hd].
  eapply one_inode; [done|done|exact Eo| | |].
  - split; [done|]. split; [by apply owned_set|lia].
  - split; [by apply fallocated_mixed|]. right. eapply covered_here; [done|by split|lia|]. intros ? ?. lia.
  - by intros q pos m ino' [= <- _ <-] [-> _].
Qed.

Lemma pwrite_inv fs threads i p ino total n : ds_inv fs threads -> threads !! i = Some (Writing p (data_of p) (WWrite ino total)) -> owned fs ino p ->
  total < length (data_of p) -> 0 < n <= length (data_of p) - total ->
  ds_inv (fs_set fs ino p (pwrite_hole (fs_content fs ino) total (take n (drop total (data_of p)))))
    (<[i := Writing p (data_of p) (WWrite ino (total + n))]> threads).
Proof.
  intros Hinv Hi Ho Ht Hn. pose proof (content_owned _ _ _ Ho) as Eo. destruct (di_inodes _ _ Hinv _ _ _ Eo) as [Hm Hd].
  set (v := data_of p) in *. set (c := fs_content fs ino) in *. set (c' := pwrite_hole c total (take n (drop total v))).
  assert (mixed v c') as Hm' by (apply pwrite_mixed; [lia|done|done]). eapply one_inode; [done|done|exact Eo| | |].
  - split; [done|]. split; [by apply owned_set|fold v; lia].
  - split; [done|]. destruct Hd as [Hd|Hd].
    + left. apply right_complete; [apply Hm'|]. apply (pwrite_right v c total n (length v)); [lia|done|]. rewrite Hd. by intros j ?.
    + destruct (covered_other _ _ _ (Writing p v (WWrite ino (total + n))) _ _ _ Hi Hd) as [(t & pos & m & Et & Hat & Hml & Hr)|(pos & m & [= <-] & Hat & Hml & Hr)].
      * right. exists t, pos, m. split_and!; [done..|]. apply (pwrite_right v c total n m); [lia|done|done].
      * destruct Hat as [_ <-]. right. eapply covered_here; [done|by split|fold v; lia|]. fold v.
        destruct (pwrite_right v c total n total) as [_ H]; [lia|done|done|]. specialize (H ltac:(lia)). by replace (Nat.max total (total + n)) with (total + n) in H by lia.
  - by intros q pos m ino' [= <- _ <-] [-> _].
Qed.

Lemma call_inv fs threads i t fs' t' : ds_inv fs threads -> threads !! i = Some t -> call_step use_fallocate fs t fs' t' ->
  ds_inv fs' (<[i := t']> threads).
Proof.
  intros Hinv Hi Hs. pose proof (di_threads _ _ Hinv) as Hts. rewrite Forall_lookup in Hts. specialize (Hts _ _ Hi) as Hok.
  destruct Hs as [fs p data ino fs' Hc|fs p data|fs p data ino|fs p data ino|fs p data ino total n Ht Hn|fs p data ino total ok Ht|fs p data ino total Ht
    |fs p Hp|fs p ino Hp|fs p|fs p ino|fs p ino|fs p ino len buf n Hb Hn Hl|fs p ino len buf Hb|fs p ino len buf Hb Hl|fs p ino len buf Hb|fs p|fs p];
    cbn [thread_ok] in Hok.
  - destruct Hok as [-> _]. by eapply create_inv.
  - destruct Hok as [-> _]. eapply same_files; [done|done|done|]. by intros p' c ino' pos m [= <- _ <-] [].
  - destruct Hok as [-> Ho]. by apply fallocate_inv.
  - destruct Hok as [-> Ho]. eapply same_files; [done|done|by split_and!; [..|lia]|]. intros p' c ino' pos m [= <- _ <-] [<- ->] E Hr Hm.
    right. eapply covered_here; [done|by split|lia|done].
  - destruct Hok as [-> [Ho _]]. by apply pwrite_inv.
  - destruct Hok as [-> [Ho _]]. eapply same_files; [done|done|done|]. intros p' c ino' pos m [= <- _ <-] [<- <-] E Hr Hm.
    right. eapply covered_here; [done|by split|lia|]. intros ? ?. lia.
  - destruct Hok as [-> [Ho Hle]]. eapply same_files; [done|done|done|]. intros p' c ino' pos m [= <- _ <-] [<- <-] E Hr Hm.
    left. destruct (di_inodes _ _ Hinv _ _ _ E) as [[Hl _] _]. apply right_complete; [done|]. by replace (length (data_of p)) with total by lia.
  - by eapply same_files.
  - eapply same_files; [done|done|by apply (di_names _ _ Hinv)|done].
  - eapply same_files; [done|done|apply mixed_nil|done].
  - eapply same_files; [done|done|split; [done|apply mixed_nil]|done].
  - eapply same_files; [done|done|apply mixed_nil|done].
  - destruct Hok as [Ho Hm]. destruct (di_inodes _ _ Hinv _ _ _ (content_owned _ _ _ Ho)) as [[Hlc Hmc] _].
    eapply same_files; [done|done| |done]. split; [done|]. destruct Hm as [Hlb Hmb]. split.
    + rewrite length_app, piece_length by lia. lia.
    + intros j b [Hj|[Hj Hb']]%lookup_app_Some; [by apply Hmb|]. apply lookup_take_Some in Hb' as [Hb' _]. rewrite lookup_drop in Hb'.
      replace (length buf + (j - length buf)) with j in Hb' by lia. by apply Hmc.
  - eapply same_files; [done|done|apply Hok|done].
  - eapply same_files; [done|done|apply Hok|done].
  - eapply same_files; [done|done|apply Hok|done].
  - destruct (same_files fs threads i _ (Deleting p DEnd) Hinv Hi) as [Ht Hn Hc]; [done|done|]. split; [done| |done].
    intros q ino. cbn. intros [_ Hq]%lookup_delete_Some. by apply (di_names _ _ Hinv).
  - by eapply same_files.
Qed.

Lemma disk_step_inv s s' : disk_step s s' -> ds_inv (ds_fs s) (ds_threads s) -> ds_inv (ds_fs s') (ds_threads s').
Proof.
  destruct 1 as [s t Hst|s i t fs' t' Hi Hs]; [|intros; by eapply call_inv]. intros [Ht Hn Hc]. split; cbn; [|done|].
  - apply Forall_app. split; [done|]. constructor; [|done]. destruct t as [p data pos|p pos|p d]; cbn in *; [|by subst|done]. by destruct Hst as [-> ->].
  - intros ino p c E. destruct (Hc _ _ _ E) as [Hm Hd]. split; [done|]. destruct Hd as [?|(k & pos & m & Ek & Hat)]; [by left|right].
    exists k, pos, m. split; [by apply lookup_app_l_Some|done].
Qed.

Lemma disk_steps_inv s s' : rtc disk_step s s' -> ds_inv (ds_fs s) (ds_threads s) -> ds_inv (ds_fs s') (ds_threads s').
Proof. induction 1 as [|s1 s2 s3 Hs _ IH]; [done|]. intros H. by eapply IH, disk_step_inv. Qed.

Lemma complete_inv fs : complete fs -> ds_inv fs [].
Proof.
  intros [Hn Hf]. split; [done| |].
  - intros p ino Hp. exists (data_of p). by apply Hn.
  - intros ino p c E. rewrite Forall_lookup in Hf. specialize (Hf _ _ E). cbn in Hf. subst. split; [apply mixed_self|by left].
Qed.

(** ** Reads while nobody writes *)

Definition same_file (p : Path) (fs fs' : FS) : Prop :=
  forall ino c, fs_inodes fs' !! ino = Some (p, c) <-> fs_inodes fs !! ino = Some (p, c).

(** Steps that leave the contents of the file alone: reading and deleting it, and anything done to others. *)
Definition calm_step (p : Path) (s s' : DiskSystem) : Prop := disk_step s s' /\ same_file p (ds_fs s) (ds_fs s').

(** A reader of the path that has seen complete files only. *)
Definition clean_read (p : Path) (fs : FS) (t : DThread) : Prop :=
  match t with
  | Reading q pos => q = p ->
      match pos with
      | ROpen => True
      | RStat ino => fs_inodes fs !! ino = Some (p, data_of p)
      | RRead ino len buf => fs_inodes fs !! ino = Some (p, data_of p) /\ len = length (data_of p) /\ buf = take (length buf) (data_of p)
      | RMissing => fs_names fs !! p = None
      | RFailed buf => buf `prefix_of` data_of p
      | RShort _ => False
      | RDone buf => buf = data_of p
      end
  | _ => True
  end.

Lemma calm_names p fs t fs' t' ino : call_step use_fallocate fs t fs' t' -> same_file p fs fs' ->
  fs_names fs' !! p = Some ino -> fs_names fs !! p = Some ino.
Proof.
  intros Hs Hsame. destruct Hs as [fs q data i0 fs' Hc| | | | | | | | | | | | | | | |fs q|]; try done.
  - unfold fs_create in Hc. destruct (fs_names fs !! q) as [i1|] eqn:E; injection Hc as <- <-; [done|]. cbn.
    intros [[-> <-]|[_ ?]]%lookup_insert_Some; [|done]. exfalso. destruct (Hsame (length (fs_inodes fs)) []) as [H _].
    cbn in H. rewrite list_lookup_middle in H by done. apply lookup_lt_Some in H; [lia|done].
  - cbn. by intros [_ ?]%lookup_delete_Some.
Qed.

Lemma clean_same p fs fs' t : same_file p fs fs' -> (forall ino, fs_names fs' !! p = Some ino -> fs_names fs !! p = Some ino) ->
  clean_read p fs t -> clean_read p fs' t.
Proof.
  intros Hsame Hn. destruct t as [|q pos|]; [done| |done]. intros H Hq. specialize (H Hq). destruct pos; try done; [by apply Hsame|..].
  - destruct H as [H ?]. split; [by apply Hsame|done].
  - apply eq_None_not_Some. intros [ino E%Hn]. congruence.
Qed.

Lemma clean_call p fs t fs' t' : complete_at p fs -> clean_read p fs t -> call_step use_fallocate fs t fs' t' -> clean_read p fs t'.
Proof.
  intros Hn Hc Hs. destruct Hs as [| | | | | | |fs q Hp|fs q ino Hp|fs q|fs q ino|fs q ino|fs q ino len buf n Hb Hn' Hl|fs q ino len buf Hb|fs q ino len buf Hb Hl|fs q ino len buf Hb|fs q|fs q];
    try done; intros ->; cbn [clean_read] in Hc; try specialize (Hc eq_refl); try done.
  - by apply Hn.
  - apply prefix_nil.
  - unfold fs_content. rewrite Hc. split_and!; [done|done|by rewrite take_0].
  - apply prefix_nil.
  - destruct Hc as (E & -> & Eb). unfold fs_content in *. rewrite E in *. split_and!; [done|done|].
    rewrite length_app, piece_length by lia. rewrite Eb at 1. apply take_take_drop.
  - destruct Hc as (_ & _ & Eb). exists (drop (length buf) (data_of p)). rewrite Eb at 1. by rewrite take_drop.
  - destruct Hc as (E & -> & Eb). unfold fs_content in Hl. rewrite E in Hl. lia.
  - destruct Hc as (E & -> & Eb). rewrite Eb. apply take_ge. lia.
Qed.

Lemma calm_reads p s s' : rtc (calm_step p) s s' -> complete_at p (ds_fs s) -> Forall (clean_read p (ds_fs s)) (ds_threads s) ->
  Forall (clean_read p (ds_fs s')) (ds_threads s').
Proof.
  induction 1 as [|s1 s2 s3 [Hs Hsame] _ IH]; [done|]. intros Hc Hf. destruct Hs as [s t Hst|s i t fs' t' Ht Hcall]; cbn in *.
  - apply IH; [done|]. apply Forall_app. split; [done|]. constructor; [|done]. by destruct t; cbn in *; subst.
  - pose proof (fun ino => calm_names p _ _ _ _ ino Hcall Hsame) as Hn. apply IH.
    + intros ino E. by apply Hsame, Hc, Hn.
    + apply Forall_insert.
      * eapply Forall_impl; [exact Hf|]. intros x. by apply clean_same.
      * apply (clean_same p (ds_fs s)); [done|done|]. rewrite Forall_lookup in Hf. by eapply clean_call; [done|by eapply Hf|done].
Qed.

End threads.

(** ** Chunk files *)

(** The contents that belong to a path, among the chunks [ds] the cache is given. *)
Definition chunk_data_of `{HH : Hasher} (cfg : DiskCacheConfig) (ds : list bytes) (p : Path) : bytes :=
  match list_find (fun d => chunk_path cfg (content_hash d) = p) ds with Some (_, d) => d | None => [] end.

(** As long as the content hash separates the chunks, every writer of a chunk file writes the same bytes: [put_chunk]
    starts a write that [starts] allows. *)
Lemma chunk_write_starts `{HH : Hasher} cfg ds d : no_collision (fun x => x ∈ ds) -> d ∈ ds ->
  starts (chunk_data_of cfg ds) (Writing (chunk_path cfg (content_hash d)) d WOpen).
Proof.
  intros Hnc Hd. split; [|done]. unfold chunk_data_of. destruct (list_find _ ds) as [[i x]|] eqn:E.
  - apply list_find_Some in E as (Hi & Hp & _). apply chunk_path_inj in Hp; [|apply content_hash_wf..]. symmetry.
    apply Hnc; [by eapply list_elem_of_lookup_2|done..].
  - rewrite list_find_None, Forall_forall in E. by destruct (E d Hd).
Qed.

(** ** Properties *)

(** C11: the chunk files under many threads. Threads write, read and delete chunk files in any interleaving of
    their system calls, several of them the same file, and any call may fail or transfer fewer bytes. Whatever
    a reader gets, at every position it is the byte of the chunk or a zero. When no write to a path is in
    progress and none ended short, its file is complete, whichever writer came last; a read of it that begins then,
    while nobody writes it but others may read and delete it, gives all of the chunk when it reaches the end, a
    prefix when one of its calls failed, and nothing only when there is no such file. *)
Theorem disk_threads_safe use_fallocate data_of fs s :
  complete data_of fs -> rtc (disk_step use_fallocate data_of) (mkDS fs []) s ->
  (forall t p pos buf, ds_threads s !! t = Some (Reading p pos) -> read_result pos = Some buf -> mixed (data_of p) buf) /\
  (forall p, Forall (fun t => ~ unfinished p t) (ds_threads s) ->
   complete_at data_of p (ds_fs s) /\
   forall s' t pos, rtc (calm_step use_fallocate data_of p) (mkDS (ds_fs s) []) s' ->
     ds_threads s' !! t = Some (Reading p pos) ->
     match pos with
     | RDone buf => buf = data_of p
     | RFailed buf => buf `prefix_of` data_of p
     | RShort _ => False
     | RMissing => fs_names (ds_fs s') !! p = None
     | _ => True
     end).
Proof.
  intros Hc Hr. pose proof (disk_steps_inv use_fallocate data_of _ _ Hr (complete_inv data_of fs Hc)) as [Ht Hn Hi]. split.
  - intros t p pos buf E Eb. rewrite Forall_lookup in Ht. specialize (Ht _ _ E). destruct pos; cbn in *; try done; injection Eb as <-; [apply mixed_nil|done..].
  - intros p Hq. assert (complete_at data_of p (ds_fs s)) as Hcs.
    { intros ino Hp. destruct (Hn _ _ Hp) as [c E]. rewrite E. destruct (Hi _ _ _ E) as [_ [->|(t & pos & m & Et & Hat & _)]]; [done|].
      rewrite Forall_lookup in Hq. destruct (Hq _ _ Et). by destruct pos. }
    split; [done|]. intros s' t pos Hcalm E. pose proof (calm_reads _ _ p _ _ Hcalm Hcs (Forall_nil_2 _)) as Hf.
    rewrite Forall_lookup in Hf. specialize (Hf _ _ E eq_refl). by destruct pos.
Qed.

(** Putting a value that is already stored makes reads of it fail silently for a while: the file is truncated
    and pre-allocated in place, and a get at that moment is a hit with zeros instead of the value. *)
Theorem disk_torn_read `{HH : Hasher} cfg now c key desc v ropts data_of fs ino :
  dk_sys (dc_store c) = [] -> dc_descriptors c !! key = Some desc -> describes key desc v ->
  (0 < size_of v <= CHUNK_SIZE)%Z -> pieces v = [v] -> ro_range ropts = None -> is_expired now (vd_metadata desc) = false ->
  let p := chunk_path cfg (content_hash v) in
  data_of p = v -> fs_names fs !! p = Some ino -> fs_inodes fs !! ino = Some (p, v) ->
  exists s r c', rtc (disk_step true data_of) (mkDS fs []) s /\ ds_threads s = [Writing p v (WWrite ino 0)] /\
    fs_content (ds_fs s) ino = torn 0 v /\
    dc_get cfg now (dc_with_store c (set_files (dc_store c) (<[p := fs_content (ds_fs s) ino]> (dk_files (dc_store c))))) key ropts = Done (r, c') /\
    rr_result r = Hit /\ rr_data r = torn 0 v.
Proof.
  intros Hq Hd Hdesc Hv Hpc Hro Hex p Hp Hn Hi. pose proof (lookup_lt_Some _ _ _ Hi) as Hlt.
  set (fs1 := fs_set fs ino p []). set (fs2 := fs_set fs1 ino p (fallocated (fs_content fs1 ino) (length v))).
  assert (fs_content fs1 ino = []) as E1 by (unfold fs_content; cbn; by rewrite list_lookup_insert_eq).
  assert (fs_content fs2 ino = torn 0 v) as E2.
  { unfold fs_content at 1. cbn. rewrite list_lookup_insert_eq by (by rewrite length_insert).
    rewrite E1. unfold fallocated, torn. change (Z.to_nat 0) with 0. cbn [length app]. by rewrite take_0. }
  destruct (dc_get_one_chunk cfg now (dc_with_store c (set_files (dc_store c) (<[p := torn 0 v]> (dk_files (dc_store c))))) key desc v (torn 0 v) ropts)
    as (r & c' & E & Hh & Hdata); try done; [by cbn; rewrite lookup_insert_eq|apply torn_size; lia|].
  exists (mkDS fs2 [Writing p v (WWrite ino 0)]), r, c'. cbn [ds_fs ds_threads]. rewrite E2. split_and!; try done.
  eapply rtc_l; [by apply (disk_spawn _ _ _ (Writing p v WOpen))|]. eapply rtc_l.
  { eapply (disk_call _ _ _ 0); [done|]. apply (call_create true fs p v ino fs1). unfold fs_create. by rewrite Hn. }
  assert ((0 <? length v) = true) as -> by (apply Nat.ltb_lt; unfold size_of in Hv; lia). cbn [andb]. eapply rtc_l.
  { eapply (disk_call _ _ _ 0); [done|]. apply call_fallocate. }
  apply rtc_refl.
Qed.

(** ** Witnesses *)

Definition sample_path : Path := [str "chunks"; str "ab"].
Definition other_path : Path := [str "chunks"; str "cd"].
Definition sample_data (p : Path) : bytes :=
  if decide (p = sample_path) then str "hello" else if decide (p = other_path) then str "bye" else [].
Definition empty_fs : FS := mkFS ∅ [].

(** Two writers of the same file, the second of which truncates it when the first has written two bytes; the
    write of a third, to another file, fails after two bytes. *)
Definition three_writers : DiskSystem :=
  mkDS (mkFS {[other_path := 1; sample_path := 0]} [(sample_path, str "hello"); (other_path, str "by")])
    [Writing sample_path (str "hello") WDone; Writing sample_path (str "hello") WDone; Writing other_path (str "bye") (WShort 1 false)].

Lemma three_writers_reachable : rtc (disk_step false sample_data) (mkDS empty_fs []) three_writers.
Proof.
  assert (sample_data sample_path = str "hello") as Ed by (by vm_compute).
  assert (sample_data other_path = str "bye") as Eo by (by vm_compute).
  eapply rtc_l; [by apply (disk_spawn _ _ _ (Writing sample_path (str "hello") WOpen))|].
  eapply rtc_l; [by apply (disk_spawn _ _ _ (Writing sample_path (str "hello") WOpen))|].
  eapply rtc_l; [by apply (disk_spawn _ _ _ (Writing other_path (str "bye") WOpen))|].
  eapply rtc_l; [by eapply (disk_call _ _ _ 0); [reflexivity|by apply call_create]|].
  eapply rtc_l; [by eapply (disk_call _ _ _ 0); [reflexivity|apply (call_pwrite _ _ _ _ 0 0 2); cbn; lia]|].
  eapply rtc_l; [by eapply (disk_call _ _ _ 1); [reflexivity|by apply call_create]|].
  eapply rtc_l; [by eapply (disk_call _ _ _ 2); [reflexivity|by apply call_create]|].
  eapply rtc_l; [by eapply (disk_call _ _ _ 0); [reflexivity|apply (call_pwrite _ _ _ _ 0 2 3); cbn; lia]|].
  eapply rtc_l; [by eapply (disk_call _ _ _ 2); [reflexivity|apply (call_pwrite _ _ _ _ 1 0 2); cbn; lia]|].
  eapply rtc_l; [by eapply (disk_call _ _ _ 1); [reflexivity|apply (call_pwrite _ _ _ _ 0 0 5); cbn; lia]|].
  eapply rtc_l; [by eapply (disk_call _ _ _ 2); [reflexivity|apply (call_pwrite_fails _ _ _ _ 1 2 false); cbn; lia]|].
  eapply rtc_l; [by eapply (disk_call _ _ _ 0); [reflexivity|apply (call_close _ _ _ _ 0 5); cbn; lia]|].
  eapply rtc_l; [by eapply (disk_call _ _ _ 1); [reflexivity|apply (call_close _ _ _ _ 0 5); cbn; lia]|].
  apply rtc_refl.
Qed.

(** A reader of the complete file, whose [pread] brings three bytes and then two. *)
Lemma reader_calm b : b = str "hello" ->
  rtc (calm_step false sample_data sample_path) (mkDS (ds_fs three_writers) []) (mkDS (ds_fs three_writers) [Reading sample_path (RDone b)]).
Proof.
  intros ->. eapply rtc_l; [split; [by apply (disk_spawn _ _ _ (Reading sample_path ROpen))|done]|].
  eapply rtc_l; [split; [eapply (disk_call _ _ _ 0); [reflexivity|by apply (call_open _ _ _ 0)]|done]|].
  eapply rtc_l; [split; [eapply (disk_call _ _ _ 0); [reflexivity|by apply call_fstat]|done]|].
  eapply rtc_l; [split; [eapply (disk_call _ _ _ 0); [reflexivity|apply (call_pread _ _ _ _ _ _ 3); cbn; lia]|done]|].
  eapply rtc_l; [split; [eapply (disk_call _ _ _ 0); [reflexivity|apply (call_pread _ _ _ _ _ _ 2); cbn; lia]|done]|].
  eapply rtc_l; [split; [eapply (disk_call _ _ _ 0); [reflexivity|apply call_read_done; cbn; lia]|done]|].
  apply rtc_refl.
Qed.

Lemma disk_threads_safe_witness :
  complete_at sample_data sample_path (ds_fs three_writers) /\
  exists s' buf, rtc (calm_step false sample_data sample_path) (mkDS (ds_fs three_writers) []) s' /\
    ds_threads s' = [Reading sample_path (RDone buf)] /\ buf = sample_data sample_path.
Proof.
  destruct (disk_threads_safe false sample_data empty_fs three_writers) as [_ H].
  - split; [|by constructor]. intros p ino. cbn. by rewrite lookup_empty.
  - exact three_writers_reachable.
  - destruct (H sample_path) as [Hc Hr].
    + constructor; [intros []|]. constructor; [intros []|]. constructor; [|constructor]. intros E. discriminate E.
    + split; [exact Hc|]. eexists _, (str "hello"). pose proof (reader_calm _ eq_refl) as Hrun. split; [exact Hrun|].
      split; [reflexivity|]. exact (Hr _ 0 _ Hrun eq_refl).
Defined.

#[local] Existing Instance fnv_hasher.

Lemma disk_torn_read_witness :
  exists c fs s r c', dc_put sample_cfg Z.of_nat [] 5%Z sample_dc (sample_key "a") sample_value WriteOptions_default = Done (make_ok, c) /\
    rtc (disk_step true (fun _ => sample_value)) (mkDS fs []) s /\
    dc_get sample_cfg 7%Z (dc_with_store c (set_files (dc_store c)
      (<[chunk_path sample_cfg (content_hash sample_value) := fs_content (ds_fs s) 0]> (dk_files (dc_store c))))) (sample_key "a") ReadOptions_default
      = Done (r, c') /\ rr_result r = Hit /\ rr_data r = replicate 5 x00.
Proof.
  destruct (sample_stored sample_dc (proj1 (sample_dc_inv only_sample)) (proj2 (sample_dc_inv only_sample)))
    as (c & desc & E & Hinv & Hd & Hex & Hne).
  set (p := chunk_path sample_cfg (content_hash sample_value)).
  destruct (disk_torn_read sample_cfg 7%Z c (sample_key "a") desc sample_value ReadOptions_default (fun _ => sample_value)
    (mkFS {[p := 0]} [(p, sample_value)]) 0) as (s & r & c' & Hr & _ & _ & H).
  - apply (dinv_ready _ _ _ _ Hinv).
  - exact Hd.
  - pose proof (dinv_descs _ _ _ _ Hinv (sample_key "a")) as Hs. rewrite Hd in Hs. destruct Hs as (v & Hv & Hdesc & _).
    rewrite lookup_insert_eq in Hv. injection Hv as <-. exact Hdesc.
  - split; [reflexivity|apply Z.leb_le; reflexivity].
  - apply sample_pieces.
  - reflexivity.
  - exact Hex.
  - reflexivity.
  - apply lookup_singleton_eq.
  - reflexivity.
  - exists c, (mkFS {[p := 0]} [(p, sample_value)]), s, r, c'. split; [exact E|]. split; [exact Hr|exact H].
Defined.
