(* ===== verification/Coordinator.v ===== *)
(** * The cache coordinator: [include/elcache/cache_coordinator.hpp], [src/cache/cache_coordinator.cpp]

    [CacheCoordinator] asks the memory tier, then the disk tier, then the other nodes of the cluster,
    and writes to all of them. The tiers are reached through [CacheTier], the cluster through
    [ClusterLink], the part of [class Cluster] the coordinator calls. Options that are present or not
    stand for the smart pointers. The coroutines run to completion one after the other;
    [CoordinatorThreads.v] interleaves them. *)

From S2P Require Import Prelude CDouble Types Chunk CacheApi CacheInterface ArcCache MemoryCache CacheTier DiskCache.
Open Scope Z_scope.

(** What the coordinator calls on a [Cluster]; a node is known by its identifier. *)
Class ClusterLink := {
  link_state : Type;
  link_local_id : link_state -> NodeId;
  link_nodes_for_key : link_state -> CacheKey -> outcome (list NodeId);
  link_remote_get : link_state -> NodeId -> CacheKey -> ReadOptions -> outcome (ReadResult * link_state);
  link_remote_put : link_state -> NodeId -> CacheKey -> bytes -> WriteOptions -> outcome (Status * link_state);
  link_remote_delete : link_state -> NodeId -> CacheKey -> outcome (Status * link_state);
  link_remote_check : link_state -> NodeId -> CacheKey -> option Range -> outcome (AvailabilityResult * link_state)
}.

(** The fields of [Config] the coordinator reads. *)
Record CoordinatorConfig := mkCoordConfig {
  cc_memory_max_size : Z;
  cc_disk_max_size : Z;
  cc_prefer_local : bool;
  cc_seed_nodes : list bytes
}.

Section coordinator.
Context (MT DT : CacheTier) (CL : ClusterLink) (cfg : CoordinatorConfig).

Record Coordinator := mkCoordinator {
  co_memory : option (@tier_state MT);
  co_disk : option (@tier_state DT);
  co_cluster : option (@link_state CL)
}.

Definition co_make (memory : @tier_state MT) (disk : @tier_state DT) : Coordinator :=
  mkCoordinator (if 0 <? cc_memory_max_size cfg then Some memory else None)
                (if 0 <? cc_disk_max_size cfg then Some disk else None) None.

Definition set_cluster (co : Coordinator) (cl : option (@link_state CL)) : Coordinator :=
  mkCoordinator (co_memory co) (co_disk co) cl.

Definition set_memory (co : Coordinator) (m : option (@tier_state MT)) : Coordinator :=
  mkCoordinator m (co_disk co) (co_cluster co).

Definition set_disk (co : Coordinator) (d : option (@tier_state DT)) : Coordinator :=
  mkCoordinator (co_memory co) d (co_cluster co).

Definition co_start (co : Coordinator) : outcome (Status * Coordinator) :=
  '(status, co1) ←
    match co_memory co with
    | None => Done (make_ok, co)
    | Some m => '(st, m') ← tier_start m; Done (st, set_memory co (Some m'))
    end;
  if negb (is_ok status) then Done (status, co1)
  else
    '(status, co2) ←
      match co_disk co1 with
      | None => Done (make_ok, co1)
      | Some d => '(st, d') ← tier_start d; Done (st, set_disk co1 (Some d'))
      end;
    if negb (is_ok status) then Done (status, co2) else Done (make_ok, co2).

Definition co_stop (co : Coordinator) : Coordinator :=
  mkCoordinator (tier_stop <$> co_memory co) (tier_stop <$> co_disk co) (co_cluster co).

(** ** [get] *)

(** The loop of [fetch_from_cluster]: the nodes left, the last result. *)
Fixpoint fetch_nodes (now : Z) (co : Coordinator) (nodes : list NodeId) (key : CacheKey) (opts : ReadOptions)
    (result : ReadResult) : outcome (ReadResult * Coordinator) :=
  match nodes, co_cluster co with
  | node :: rest, Some cl =>
      if bool_decide (node = link_local_id cl) then fetch_nodes now co rest key opts result
      else
        '(result, cl') ← link_remote_get cl node key opts;
        let co1 := set_cluster co (Some cl') in
        if rr_is_hit result then
          match co_memory co1 with
          | Some m =>
              if bool_decide (rr_data result = []) then Done (result, co1)
              else
                '(_, m') ← tier_put now m key (rr_data result) (mkWriteOptions None 0 false false true true);
                Done (result, set_memory co1 (Some m'))
          | None => Done (result, co1)
          end
        else if rr_is_partial result && ro_allow_partial opts then Done (result, co1)
        else fetch_nodes now co1 rest key opts result
  | _, _ => Done (result, co)
  end.

Definition fetch_from_cluster (now : Z) (co : Coordinator) (key : CacheKey) (opts : ReadOptions)
  : outcome (ReadResult * Coordinator) :=
  match co_cluster co with
  | None => Done (ReadResult_default, co)
  | Some cl => nodes ← link_nodes_for_key cl key; fetch_nodes now co nodes key opts ReadResult_default
  end.

(** A result that ends the search. *)
Definition settles (opts : ReadOptions) (r : ReadResult) : bool :=
  rr_is_hit r || (rr_is_partial r && ro_allow_partial opts).

Definition get_memory (now : Z) (co : Coordinator) (key : CacheKey) (opts : ReadOptions)
  : outcome (option ReadResult * Coordinator) :=
  match co_memory co with
  | Some m =>
      if cc_prefer_local cfg then
        '(r, m') ← tier_get now m key opts;
        Done (if settles opts r then Some r else None, set_memory co (Some m'))
      else Done (None, co)
  | None => Done (None, co)
  end.

Definition get_disk (now : Z) (co : Coordinator) (key : CacheKey) (opts : ReadOptions)
  : outcome (option ReadResult * Coordinator) :=
  match co_disk co with
  | Some d =>
      '(r, d') ← tier_get now d key opts;
      Done (if settles opts r then Some r else None, set_disk co (Some d'))
  | None => Done (None, co)
  end.

(** The promotion to memory after a disk hit is not written in the code: it only reads metadata. *)
Definition co_get (now : Z) (co : Coordinator) (key : CacheKey) (opts : ReadOptions)
  : outcome (ReadResult * Coordinator) :=
  '(r, co1) ← get_memory now co key opts;
  match r with
  | Some r => Done (r, co1)
  | None =>
      '(r, co2) ← get_disk now co1 key opts;
      match r with
      | Some r => Done (r, co2)
      | None =>
          if bool_decide (is_Some (co_cluster co2)) && negb (bool_decide (cc_seed_nodes cfg = [])) then
            '(r, co3) ← fetch_from_cluster now co2 key opts;
            if settles opts r then Done (r, co3) else Done (ReadResult_default, co3)
          else Done (ReadResult_default, co2)
      end
  end.

(** ** [put] and [remove] *)

(** Replication: failures are ignored. *)
Fixpoint replicate_to (cl : @link_state CL) (nodes : list NodeId) (key : CacheKey) (value : bytes) (opts : WriteOptions)
  : outcome (@link_state CL) :=
  match nodes with
  | [] => Done cl
  | node :: rest =>
      if bool_decide (node = link_local_id cl) then replicate_to cl rest key value opts
      else '(_, cl') ← link_remote_put cl node key value opts; replicate_to cl' rest key value opts
  end.

(** One tier of [put]: the status, whether something was written, the tier. *)
Definition put_tier {T : CacheTier} (now : Z) (tier : option (@tier_state T)) (skip : bool) (key : CacheKey) (value : bytes)
    (opts : WriteOptions) : outcome (Status * bool * option (@tier_state T)) :=
  match tier with
  | Some c => if skip then Done (make_ok, false, tier)
              else '(st, c') ← tier_put now c key value opts; Done (st, true, Some c')
  | None => Done (make_ok, false, None)
  end.

Definition co_put (now : Z) (co : Coordinator) (key : CacheKey) (value : bytes) (opts : WriteOptions)
  : outcome (Status * Coordinator) :=
  '(status, wrote_m, m) ← put_tier now (co_memory co) (wo_no_memory opts) key value opts;
  let co1 := set_memory co m in
  if negb (is_ok status) then Done (status, co1)
  else
    '(status, wrote_d, d) ← put_tier now (co_disk co1) (wo_no_disk opts) key value opts;
    let co2 := set_disk co1 d in
    if negb (is_ok status) then Done (status, co2)
    else
      co3 ← (match co_cluster co2 with
             | Some cl =>
                 if wo_no_cluster opts then Done co2
                 else nodes ← link_nodes_for_key cl key; cl' ← replicate_to cl nodes key value opts; Done (set_cluster co2 (Some cl'))
             | None => Done co2
             end);
      if wrote_m || wrote_d then Done (make_ok, co3)
      else Done (status_error InternalError (str "No storage available"), co3).

Fixpoint delete_from (cl : @link_state CL) (nodes : list NodeId) (key : CacheKey) : outcome (@link_state CL) :=
  match nodes with
  | [] => Done cl
  | node :: rest =>
      if bool_decide (node = link_local_id cl) then delete_from cl rest key
      else '(_, cl') ← link_remote_delete cl node key; delete_from cl' rest key
  end.

Definition remove_tier {T : CacheTier} (tier : option (@tier_state T)) (wanted : bool) (key : CacheKey) (opts : DeleteOptions)
  : outcome (option (@tier_state T)) :=
  match tier with
  | Some c => if wanted then '(_, c') ← tier_remove c key opts; Done (Some c') else Done tier
  | None => Done None
  end.

Definition co_remove (co : Coordinator) (key : CacheKey) (opts : DeleteOptions) : outcome (Status * Coordinator) :=
  m ← remove_tier (co_memory co) (do_from_memory opts) key opts;
  d ← remove_tier (co_disk co) (do_from_disk opts) key opts;
  let co1 := mkCoordinator m d (co_cluster co) in
  match co_cluster co1 with
  | Some cl =>
      if do_from_cluster opts then
        nodes ← link_nodes_for_key cl key; cl' ← delete_from cl nodes key; Done (make_ok, set_cluster co1 (Some cl'))
      else Done (make_ok, co1)
  | None => Done (make_ok, co1)
  end.

(** ** [check], [metadata], [stats] *)

Fixpoint check_nodes (cl : @link_state CL) (nodes : list NodeId) (key : CacheKey) (range : option Range)
    (result : AvailabilityResult) : outcome (AvailabilityResult * @link_state CL) :=
  match nodes with
  | [] => Done (result, cl)
  | node :: rest =>
      if bool_decide (node = link_local_id cl) then check_nodes cl rest key range result
      else
        '(remote, cl') ← link_remote_check cl node key range;
        if av_exists remote then Done (remote, cl') else check_nodes cl' rest key range result
  end.

(** What memory and disk say together: ranges of the disk are appended, the missing ones kept. *)
Definition merge_disk (result : AvailabilityResult) (disk : AvailabilityResult) : AvailabilityResult :=
  if av_exists disk then
    if negb (av_exists result) then disk
    else mkAvailability (av_exists result) (av_metadata result)
           (av_available_ranges result ++ av_available_ranges disk) (av_missing_ranges result)
  else result.

Definition co_check (co : Coordinator) (key : CacheKey) (range : option Range) : outcome (AvailabilityResult * Coordinator) :=
  let r1 := match co_memory co with Some m => tier_check m key range | None => AvailabilityResult_default end in
  if bool_decide (is_Some (co_memory co)) && av_exists r1 && bool_decide (av_missing_ranges r1 = []) then Done (r1, co)
  else
    let r2 := match co_disk co with Some d => merge_disk r1 (tier_check d key range) | None => r1 end in
    match co_cluster co with
    | Some cl =>
        if negb (av_exists r2) then
          nodes ← link_nodes_for_key cl key; '(r3, cl') ← check_nodes cl nodes key range r2; Done (r3, set_cluster co (Some cl'))
        else Done (r2, co)
    | None => Done (r2, co)
    end.

Definition co_metadata (co : Coordinator) (key : CacheKey) : option CacheMetadata :=
  match m ← co_memory co; tier_metadata m key with
  | Some md => Some md
  | None => d ← co_disk co; tier_metadata d key
  end.

(** Partial hits of the disk tier are not added. *)
Definition add_stats (a b : Stats) (with_partial : bool) : Stats :=
  mkStats (s_hits a +w s_hits b) (s_misses a +w s_misses b)
    (if with_partial then s_partial_hits a +w s_partial_hits b else s_partial_hits a)
    (s_bytes_read a +w s_bytes_read b) (s_bytes_written a +w s_bytes_written b) (s_evictions a +w s_evictions b)
    (s_entry_count a +w s_entry_count b) (s_size_bytes a +w s_size_bytes b) (s_capacity_bytes a +w s_capacity_bytes b).

Definition co_stats (co : Coordinator) : Stats :=
  let s0 := mkStats 0 0 0 0 0 0 0 0 0 in
  let s1 := match co_memory co with Some m => add_stats s0 (tier_stats m) true | None => s0 end in
  match co_disk co with Some d => add_stats s1 (tier_stats d) false | None => s1 end.

(** ** Streams *)

Record WriteStream := mkWriteStream {
  ws_key : CacheKey;
  ws_total_size : Z;
  ws_opts : WriteOptions;
  ws_written : Z;
  ws_buffer : bytes;
  ws_chunks : list bytes
}.

Definition create_write_stream (key : CacheKey) (total_size : Z) (opts : WriteOptions) : WriteStream :=
  mkWriteStream key total_size opts 0 [] [].

(** The loop of [write]: the buffer and the chunks. *)
Definition flush_step (s : bytes * list bytes) : (bytes * list bytes) + (bytes * list bytes) :=
  let '(buffer, chunks) := s in
  if CHUNK_SIZE <=? size_of buffer then
    inl (drop (Z.to_nat CHUNK_SIZE) buffer, chunks ++ [take (Z.to_nat CHUNK_SIZE) buffer])
  else inr (buffer, chunks).

Definition ws_write (ws : WriteStream) (chunk : bytes) : outcome (Status * WriteStream) :=
  let buffer := ws_buffer ws ++ chunk in
  match loop (Z.to_nat (size_of buffer / CHUNK_SIZE + 1)) flush_step (buffer, ws_chunks ws) with
  | Some (buffer', chunks') =>
      Done (make_ok, mkWriteStream (ws_key ws) (ws_total_size ws) (ws_opts ws) (ws_written ws +w size_of chunk) buffer' chunks')
  | None => Spin
  end.

(** [finish]: the moved-from buffer is left empty. *)
Definition ws_finish (now : Z) (co : Coordinator) (ws : WriteStream) : outcome (Status * Coordinator * WriteStream) :=
  let chunks := if bool_decide (ws_buffer ws = []) then ws_chunks ws else ws_chunks ws ++ [ws_buffer ws] in
  '(st, co') ← co_put now co (ws_key ws) (concat chunks) (ws_opts ws);
  Done (st, co', mkWriteStream (ws_key ws) (ws_total_size ws) (ws_opts ws) (ws_written ws) [] chunks).

Definition ws_abort (ws : WriteStream) : WriteStream :=
  mkWriteStream (ws_key ws) (ws_total_size ws) (ws_opts ws) (ws_written ws) [] [].

Record ReadStream := mkReadStream { rs_data : bytes; rs_total_size : Z; rs_position : Z }.

Definition rs_read (rs : ReadStream) (max_bytes : Z) : bytes * ReadStream :=
  let available := size_of (rs_data rs) -w rs_position rs in
  let to_read := Z.min max_bytes available in
  (slice (rs_position rs) to_read (rs_data rs), mkReadStream (rs_data rs) (rs_total_size rs) (rs_position rs +w to_read)).

Definition rs_eof (rs : ReadStream) : bool := size_of (rs_data rs) <=? rs_position rs.
Definition rs_bytes_read (rs : ReadStream) : Z := rs_position rs.

Definition create_read_stream (now : Z) (co : Coordinator) (key : CacheKey) (opts : ReadOptions)
  : outcome (option ReadStream * Coordinator) :=
  '(result, co') ← co_get now co key opts;
  if rr_is_miss result then Done (None, co')
  else
    let total := match rr_metadata result with Some md => md_total_size md | None => size_of (rr_data result) end in
    Done (Some (mkReadStream (rr_data result) total 0), co').

(** ** The local tiers together *)

(** Both tiers stand for the same map; no cluster is attached. *)
Record co_inv (vals : gmap CacheKey bytes) (co : Coordinator) : Prop := {
  coinv_memory : forall m, co_memory co = Some m -> tier_inv vals m;
  coinv_disk : forall d, co_disk co = Some d -> tier_inv vals d;
  coinv_alone : co_cluster co = None
}.

Lemma co_inv_two vals m d : tier_inv vals m -> tier_inv vals d -> co_inv vals (mkCoordinator (Some m) (Some d) None).
Proof. intros Hm Hd. split; simpl; [by intros ? [= <-]|by intros ? [= <-]|done]. Qed.

Definition co_value (v : bytes) : Prop := @tier_value MT v /\ @tier_value DT v.

(** Memory decides when it is there. *)
Definition co_accepts (co : Coordinator) (key : CacheKey) (v : bytes) : bool :=
  match co_memory co, co_disk co with
  | Some _, _ => @tier_accepts MT key v
  | None, Some _ => @tier_accepts DT key v
  | None, None => false
  end.

(** [co'] has the tiers [co] has. *)
Definition same_tiers (co co' : Coordinator) : Prop :=
  (is_Some (co_memory co') <-> is_Some (co_memory co)) /\ (is_Some (co_disk co') <-> is_Some (co_disk co)).

Lemma co_accepts_same co co' key v : same_tiers co co' -> co_accepts co' key v = co_accepts co key v.
Proof.
  intros [[Hm1 Hm2] [Hd1 Hd2]]. unfold co_accepts.
  destruct (co_memory co), (co_memory co'); [done|by destruct Hm2|by destruct Hm1|].
  destruct (co_disk co), (co_disk co'); [done|by destruct Hd2|by destruct Hd1|done].
Qed.

Lemma get_memory_spec vals now co key opts :
  co_inv vals co -> opts_ok opts ->
  exists r co', get_memory now co key opts = Done (r, co') /\ co_inv vals co' /\ same_tiers co co' /\
    (forall x, r = Some x -> is_Some (vals !! key) /\ (rr_result x = Hit -> exists v, vals !! key = Some v /\ rr_data x = wanted opts v)).
Proof.
  intros Hinv Hopts. unfold get_memory. destruct (co_memory co) as [m|] eqn:Em; [|by exists None, co].
  destruct (cc_prefer_local cfg); [|by exists None, co].
  destruct (tier_get_ok vals now m key opts (coinv_memory _ _ Hinv m Em) Hopts) as (r & m' & -> & Hm' & Hhit & Hmiss).
  cbn [mbind outcome_bind]. eexists _, _. split; [done|]. split_and!.
  - destruct Hinv as [? ? ?]. split; simpl; [by intros ? [= <-]|done..].
  - split; simpl; [|done]. by rewrite Em.
  - intros x Hx. destruct (settles opts r) eqn:Es; [injection Hx as <-|done]. split; [|done].
    destruct (vals !! key); [done|]. by rewrite (Hmiss eq_refl) in Es.
Qed.

Lemma get_disk_spec vals now co key opts :
  co_inv vals co -> opts_ok opts ->
  exists r co', get_disk now co key opts = Done (r, co') /\ co_inv vals co' /\ same_tiers co co' /\
    (forall x, r = Some x -> is_Some (vals !! key) /\ (rr_result x = Hit -> exists v, vals !! key = Some v /\ rr_data x = wanted opts v)).
Proof.
  intros Hinv Hopts. unfold get_disk. destruct (co_disk co) as [d|] eqn:Ed; [|by exists None, co].
  destruct (tier_get_ok vals now d key opts (coinv_disk _ _ Hinv d Ed) Hopts) as (r & d' & -> & Hd' & Hhit & Hmiss).
  cbn [mbind outcome_bind]. eexists _, _. split; [done|]. split_and!.
  - destruct Hinv as [? ? ?]. split; simpl; [done|by intros ? [= <-]|done].
  - split; simpl; [done|]. by rewrite Ed.
  - intros x Hx. destruct (settles opts r) eqn:Es; [injection Hx as <-|done]. split; [|done].
    destruct (vals !! key); [done|]. by rewrite (Hmiss eq_refl) in Es.
Qed.

Lemma co_get_spec vals now co key opts :
  co_inv vals co -> opts_ok opts ->
  exists r co', co_get now co key opts = Done (r, co') /\ co_inv vals co' /\ same_tiers co co' /\
    (rr_result r = Hit -> exists v, vals !! key = Some v /\ rr_data r = wanted opts v) /\
    (vals !! key = None -> r = ReadResult_default).
Proof.
  intros Hinv Hopts. unfold co_get.
  destruct (get_memory_spec vals now co key opts Hinv Hopts) as (r1 & co1 & -> & Hinv1 & Hs1 & Hr1).
  cbn [mbind outcome_bind]. destruct r1 as [r1|].
  { destruct (Hr1 r1 eq_refl) as [Hsome Hhit]. exists r1, co1. split_and!; [done..|]. intros Hn. rewrite Hn in Hsome. by destruct Hsome. }
  destruct (get_disk_spec vals now co1 key opts Hinv1 Hopts) as (r2 & co2 & -> & Hinv2 & Hs2 & Hr2).
  cbn [mbind outcome_bind]. assert (same_tiers co co2) by (unfold same_tiers in *; naive_solver). destruct r2 as [r2|].
  { destruct (Hr2 r2 eq_refl) as [Hsome Hhit]. exists r2, co2. split_and!; [done..|]. intros Hn. rewrite Hn in Hsome. by destruct Hsome. }
  rewrite (coinv_alone _ _ Hinv2), bool_decide_false by by intros [? ?]. cbn [andb]. by exists ReadResult_default, co2.
Qed.

(** Metadata is that of the value the key was last given. *)
Lemma co_metadata_spec vals co key :
  co_inv vals co -> is_Some (co_memory co) \/ is_Some (co_disk co) ->
  match vals !! key with
  | Some v => exists md, co_metadata co key = Some md /\ md_total_size md = size_of v /\ size_of v <= MAX_VALUE_SIZE
  | None => co_metadata co key = None
  end.
Proof.
  intros [Hm Hd _] Hsome. unfold co_metadata.
  assert (forall m, co_memory co = Some m -> _) as Mm by (intros m E; exact (tier_metadata_ok vals m key (Hm m E))).
  assert (forall d, co_disk co = Some d -> _) as Md by (intros d E; exact (tier_metadata_ok vals d key (Hd d E))).
  destruct (co_memory co) as [m|], (co_disk co) as [d|]; cbn [mbind option_bind];
    try (specialize (Mm m eq_refl); cbn beta in Mm); try (specialize (Md d eq_refl); cbn beta in Md).
  4: by destruct Hsome as [[? ?]|[? ?]].
  all: destruct (vals !! key); repeat match goal with H : exists _, _ |- _ => destruct H as (? & -> & ?) | H : _ = None |- _ => rewrite H end; eauto.
Qed.

Section placed.
Hypothesis Hacc : forall key v, @tier_accepts MT key v = true -> @tier_accepts DT key v = true.

Lemma co_put_spec vals now co key v opts :
  co_inv vals co -> co_value v -> wo_no_memory opts = false -> wo_no_disk opts = false ->
  exists st co', co_put now co key v opts = Done (st, co') /\ is_ok st = co_accepts co key v /\
    co_inv (if co_accepts co key v then <[key := v]> vals else vals) co' /\ same_tiers co co'.
Proof.
  intros [Hm Hd Hc] [Hvm Hvd] Hnm Hnd. unfold co_put, put_tier, co_accepts. rewrite Hnm, Hnd.
  destruct co as [[m|] [d|] cl]; simpl in *; subst cl.
  - destruct (tier_put_ok vals now m key v opts (Hm m eq_refl) Hvm) as (st1 & m' & -> & Hst1 & Hm'). simpl.
    destruct (@tier_accepts MT key v) eqn:Ea; rewrite Hst1; simpl.
    + destruct (tier_put_ok vals now d key v opts (Hd d eq_refl) Hvd) as (st2 & d' & -> & Hst2 & Hd'). simpl.
      rewrite (Hacc _ _ Ea) in *. rewrite Hst2. simpl. eexists _, _. split; [done|]. split_and!; [done| |done].
      split; simpl; [by intros ? [= <-]|by intros ? [= <-]|done].
    + eexists _, _. split; [done|]. split_and!; [done| |done]. split; simpl; [by intros ? [= <-]|done|done].
  - destruct (tier_put_ok vals now m key v opts (Hm m eq_refl) Hvm) as (st1 & m' & -> & Hst1 & Hm'). simpl.
    destruct (@tier_accepts MT key v); rewrite Hst1; simpl; (eexists _, _; split; [done|]; split_and!; [done| |done];
      split; simpl; [by intros ? [= <-]|done|done]).
  - destruct (tier_put_ok vals now d key v opts (Hd d eq_refl) Hvd) as (st2 & d' & -> & Hst2 & Hd'). simpl.
    destruct (@tier_accepts DT key v); rewrite Hst2; simpl; (eexists _, _; split; [done|]; split_and!; [done| |done];
      split; simpl; [done|by intros ? [= <-]|done]).
  - eexists _, _. split; [done|]. split_and!; done.
Qed.

Lemma co_remove_spec vals co key opts :
  co_inv vals co -> do_from_memory opts = true -> do_from_disk opts = true ->
  exists co', co_remove co key opts = Done (make_ok, co') /\ co_inv (delete key vals) co' /\ same_tiers co co'.
Proof.
  intros [Hm Hd Hc] Hfm Hfd. unfold co_remove, remove_tier. rewrite Hfm, Hfd.
  destruct co as [[m|] [d|] cl]; simpl in *; subst cl.
  - destruct (tier_remove_ok vals m key opts (Hm m eq_refl)) as (st1 & m' & -> & Hm' & _). simpl.
    destruct (tier_remove_ok vals d key opts (Hd d eq_refl)) as (st2 & d' & -> & Hd' & _). simpl.
    eexists. split; [done|]. split; [|done]. split; simpl; [by intros ? [= <-]|by intros ? [= <-]|done].
  - destruct (tier_remove_ok vals m key opts (Hm m eq_refl)) as (st1 & m' & -> & Hm' & _). simpl.
    eexists. split; [done|]. split; [|done]. split; simpl; [by intros ? [= <-]|done|done].
  - destruct (tier_remove_ok vals d key opts (Hd d eq_refl)) as (st2 & d' & -> & Hd' & _). simpl.
    eexists. split; [done|]. split; [|done]. split; simpl; [done|by intros ? [= <-]|done].
  - eexists. split; [done|]. split; done.
Qed.

(** ** Sequences of calls *)

Inductive co_op :=
| CGet (now : Z) (key : CacheKey) (opts : ReadOptions)
| CPut (now : Z) (key : CacheKey) (value : bytes) (opts : WriteOptions)
| CRemove (key : CacheKey) (opts : DeleteOptions).

Definition co_step (co : Coordinator) (op : co_op) : outcome (mc_res * Coordinator) :=
  match op with
  | CGet now key opts => '(r, co') ← co_get now co key opts; Done (MRead r, co')
  | CPut now key v opts => '(st, co') ← co_put now co key v opts; Done (MStatus st, co')
  | CRemove key opts => '(st, co') ← co_remove co key opts; Done (MStatus st, co')
  end.

Fixpoint co_run (co : Coordinator) (ops : list co_op) : outcome (list (co_op * mc_res) * Coordinator) :=
  match ops with
  | [] => Done ([], co)
  | op :: ops' => '(res, co1) ← co_step co op; '(tr, co2) ← co_run co1 ops'; Done ((op, res) :: tr, co2)
  end.

(** Calls that reach both tiers, with values the tiers' contracts speak of. *)
Definition co_op_ok (op : co_op) : Prop :=
  match op with
  | CGet _ _ opts => opts_ok opts
  | CPut _ _ v opts => co_value v /\ wo_no_memory opts = false /\ wo_no_disk opts = false
  | CRemove _ opts => do_from_memory opts = true /\ do_from_disk opts = true
  end.

Definition co_vals_step (accepts : CacheKey -> bytes -> bool) (vals : gmap CacheKey bytes) (op : co_op) : gmap CacheKey bytes :=
  match op with
  | CGet _ _ _ => vals
  | CPut _ key v _ => if accepts key v then <[key := v]> vals else vals
  | CRemove key _ => delete key vals
  end.

(** A hit carries the value last put; a key that is not there misses. *)
Fixpoint co_answers_ok (accepts : CacheKey -> bytes -> bool) (vals : gmap CacheKey bytes) (tr : list (co_op * mc_res)) : Prop :=
  match tr with
  | [] => True
  | (op, res) :: tr' =>
      match op, res with
      | CGet _ key opts, MRead r =>
          (rr_result r = Hit -> exists v, vals !! key = Some v /\ rr_data r = wanted opts v) /\
          (vals !! key = None -> r = ReadResult_default)
      | CPut _ key v _, MStatus st => is_ok st = accepts key v
      | CRemove _ _, MStatus st => is_ok st = true
      | _, _ => False
      end /\ co_answers_ok accepts (co_vals_step accepts vals op) tr'
  end.

Lemma co_run_ok ops : Forall co_op_ok ops -> forall accepts vals co,
  (forall key v, co_accepts co key v = accepts key v) -> co_inv vals co ->
  exists tr co', co_run co ops = Done (tr, co') /\ tr.*1 = ops /\ co_answers_ok accepts vals tr.
Proof.
  induction 1 as [|op ops Hop Hops IH]; intros accepts vals co Hac Hinv; [by exists [], co|]. cbn [co_run].
  assert (exists res co1, co_step co op = Done (res, co1) /\ co_inv (co_vals_step accepts vals op) co1 /\ same_tiers co co1 /\
    forall tr, co_answers_ok accepts (co_vals_step accepts vals op) tr -> co_answers_ok accepts vals ((op, res) :: tr))
    as (res & co1 & -> & Hinv1 & Hs & Hans).
  { destruct op as [now key opts|now key v opts|key opts]; simpl in *.
    - destruct (co_get_spec vals now co key opts Hinv Hop) as (r & co1 & -> & Hinv1 & Hs & Hh & Hn).
      by exists (MRead r), co1.
    - destruct Hop as (Hv & Hnm & Hnd). destruct (co_put_spec vals now co key v opts Hinv Hv Hnm Hnd) as (st & co1 & -> & Hst & Hinv1 & Hs).
      rewrite Hac in *. by exists (MStatus st), co1.
    - destruct Hop as [Hfm Hfd]. destruct (co_remove_spec vals co key opts Hinv Hfm Hfd) as (co1 & -> & Hinv1 & Hs).
      by exists (MStatus make_ok), co1. }
  cbn [mbind outcome_bind]. destruct (IH accepts (co_vals_step accepts vals op) co1) as (tr & co2 & -> & Htr & Hok); [|done|].
  { intros key v. by rewrite (co_accepts_same co co1). }
  cbn [mbind outcome_bind]. exists ((op, res) :: tr), co2. split_and!; [done|by rewrite fmap_cons, Htr|by apply Hans].
Qed.
End placed.

(** ** Streams *)

Lemma flush_spec (fuel : nat) : forall buffer chunks, size_of buffer / CHUNK_SIZE < Z.of_nat fuel ->
  exists buffer' full, loop fuel flush_step (buffer, chunks) = Some (buffer', chunks ++ full) /\
    concat full ++ buffer' = buffer /\ size_of buffer' < CHUNK_SIZE /\ Forall (fun c => size_of c = CHUNK_SIZE) full.
Proof.
  pose proof CHUNK_SIZE_pos. induction fuel as [|fuel IH]; intros buffer chunks Hf.
  { pose proof (Z.div_pos (size_of buffer) CHUNK_SIZE (size_of_nonneg buffer)). lia. }
  cbn [loop flush_step]. destruct (Z.leb_spec CHUNK_SIZE (size_of buffer)) as [Hle|Hlt].
  - assert (Z.of_nat (Z.to_nat CHUNK_SIZE) = CHUNK_SIZE) as Hn by (apply Z2Nat.id; lia).
    revert Hn. generalize (Z.to_nat CHUNK_SIZE). intros n Hn.
    assert (size_of (drop n buffer) = size_of buffer - CHUNK_SIZE) as Hd by (unfold size_of in *; rewrite length_drop; lia).
    destruct (IH (drop n buffer) (chunks ++ [take n buffer])) as (b & full & -> & Hc & Hb & Hfull).
    { rewrite Hd. replace (size_of buffer - CHUNK_SIZE) with (size_of buffer + (-1) * CHUNK_SIZE) by lia.
      rewrite Z.div_add by lia. lia. }
    exists b, (take n buffer :: full). rewrite <- app_assoc. split_and!; [done| |done|].
    + cbn [concat]. by rewrite <- app_assoc, Hc, take_drop.
    + constructor; [|done]. unfold size_of in *. rewrite length_take. lia.
  - exists buffer, []. by rewrite app_nil_r.
Qed.

Fixpoint ws_writes (ws : WriteStream) (pieces : list bytes) : outcome WriteStream :=
  match pieces with
  | [] => Done ws
  | p :: rest => '(_, ws') ← ws_write ws p; ws_writes ws' rest
  end.

Lemma ws_writes_spec pieces : forall ws, size_of (ws_buffer ws) < CHUNK_SIZE -> Forall (fun c => size_of c = CHUNK_SIZE) (ws_chunks ws) ->
  exists ws', ws_writes ws pieces = Done ws' /\ ws_key ws' = ws_key ws /\ ws_opts ws' = ws_opts ws /\
    concat (ws_chunks ws') ++ ws_buffer ws' = concat (ws_chunks ws) ++ ws_buffer ws ++ concat pieces /\
    size_of (ws_buffer ws') < CHUNK_SIZE /\ Forall (fun c => size_of c = CHUNK_SIZE) (ws_chunks ws').
Proof.
  induction pieces as [|p pieces IH]; intros ws Hb Hc; cbn [ws_writes concat].
  { exists ws. by rewrite app_nil_r. }
  unfold ws_write. set (buffer := ws_buffer ws ++ p).
  destruct (flush_spec (Z.to_nat (size_of buffer / CHUNK_SIZE + 1)) buffer (ws_chunks ws)) as (b & full & -> & Hcat & Hb' & Hfull).
  { pose proof (Z.div_pos (size_of buffer) CHUNK_SIZE (size_of_nonneg buffer) CHUNK_SIZE_pos). lia. }
  cbn [mbind outcome_bind]. match goal with |- context [ws_writes ?w pieces] => destruct (IH w) as (ws' & -> & Hk & Ho & Heq & ? & ?) end;
    [done|by apply Forall_app|].
  exists ws'. split_and!; [done..| |done|done]. rewrite Heq. simpl. rewrite concat_app, <- app_assoc.
  rewrite (app_assoc (concat full)), Hcat. unfold buffer. by rewrite !app_assoc.
Qed.

Fixpoint rs_reads (rs : ReadStream) (ns : list Z) : list bytes * ReadStream :=
  match ns with
  | [] => ([], rs)
  | n :: ns' => let '(b, rs1) := rs_read rs n in let '(bs, rs2) := rs_reads rs1 ns' in (b :: bs, rs2)
  end.

Lemma rs_reads_spec data total ns : size_of data < 2 ^ 64 -> Forall (fun n => 0 <= n) ns -> forall pos,
  0 <= pos <= size_of data ->
  let '(bs, rs) := rs_reads (mkReadStream data total pos) ns in
  concat bs = slice pos (foldr Z.add 0 ns) data /\
  rs = mkReadStream data total (Z.min (pos + foldr Z.add 0 ns) (size_of data)).
Proof.
  intros Hd Hns. induction Hns as [|n ns Hn Hns IH]; intros pos Hpos; cbn [rs_reads foldr].
  - rewrite slice_nil_len, Z.add_0_r, Z.min_l by lia. done.
  - assert (0 <= foldr Z.add 0 ns) by (clear -Hns; induction Hns; simpl; lia).
    unfold rs_read. cbn [rs_data rs_position rs_total_size]. word_small.
    specialize (IH (pos + Z.min n (size_of data - pos))).
    destruct (rs_reads _ ns) as [bs rs]. destruct IH as [Hc ->]; [lia|]. cbn [concat]. split.
    + rewrite Hc, slice_clip by lia. destruct (Z.le_gt_cases n (size_of data - pos)) as [Hle|Hgt].
      * rewrite Z.min_l, slice_app_adj by lia. done.
      * rewrite Z.min_r by lia. replace (pos + (size_of data - pos)) with (size_of data) by lia.
        unfold slice at 2. rewrite drop_ge, take_nil, app_nil_r by (unfold size_of; lia).
        rewrite <- (slice_clip pos n), <- (slice_clip pos (n + _)) by lia. f_equal. lia.
    + f_equal. lia.
Qed.

(** ** Properties *)

(** C3: the local tiers act as one map. Over any sequence of gets, puts and removes that address both
    tiers, every call returns, a put succeeds exactly when its sizes are accepted, a hit carries
    exactly the requested bytes of the value last put for the key, whichever tier answers, and a key
    never put or removed is a miss. *)
Theorem coord_refines_value_map ops accepts vals co :
  (forall key v, @tier_accepts MT key v = true -> @tier_accepts DT key v = true) ->
  Forall co_op_ok ops -> (forall key v, co_accepts co key v = accepts key v) -> co_inv vals co ->
  exists tr co', co_run co ops = Done (tr, co') /\ tr.*1 = ops /\ co_answers_ok accepts vals tr.
Proof. intros Hacc Hops. by apply co_run_ok. Qed.

(** A put that skips memory leaves the copy in memory: as long as memory has a hit for the key,
    a get after the put returns the old value and not the one just written. *)
Theorem coord_put_no_memory_stale now now' co m m' key v wopts ropts r st co1 :
  co_memory co = Some m -> cc_prefer_local cfg = true -> wo_no_memory wopts = true ->
  tier_get now' m key ropts = Done (r, m') -> rr_result r = Hit ->
  co_put now co key v wopts = Done (st, co1) ->
  exists co2, co_get now' co1 key ropts = Done (r, co2).
Proof.
  intros Hm Hpl Hnm Hg Hh Hput.
  assert (co_memory co1 = Some m) as Hm1.
  { unfold co_put, put_tier in Hput. rewrite Hm, Hnm in Hput. cbn [mbind outcome_bind] in Hput.
    change (negb (is_ok make_ok)) with false in Hput. cbv iota in Hput.
    apply outcome_bind_Done in Hput as ([[st2 w] d] & _ & Hput). destruct (negb (is_ok st2)); [by injection Hput as _ <-|].
    apply outcome_bind_Done in Hput as (co3 & E3 & Hput). assert (co_memory co3 = Some m) as H3.
    { simpl in E3. destruct (co_cluster co) as [cl|]; [|by injection E3 as <-]. destruct (wo_no_cluster wopts); [by injection E3 as <-|].
      apply outcome_bind_Done in E3 as (nodes & _ & E3). apply outcome_bind_Done in E3 as (cl' & _ & E3). by injection E3 as <-. }
    destruct (false || w); by injection Hput as _ <-. }
  unfold co_get, get_memory. rewrite Hm1, Hpl, Hg. cbn [mbind outcome_bind]. unfold settles, rr_is_hit.
  rewrite Hh, bool_decide_true by done. by eexists.
Qed.

(** Writing through a stream is one put: whatever pieces the value comes in, every write returns,
    full chunks are cut off as they fill, and [finish] puts exactly the concatenation. *)
Theorem write_stream_is_put now co key total opts pieces :
  exists ws ws', ws_writes (create_write_stream key total opts) pieces = Done ws /\
    ws_finish now co ws = ('(st, co') ← co_put now co key (concat pieces) opts; Done (st, co', ws')) /\
    size_of (ws_buffer ws) < CHUNK_SIZE /\ Forall (fun c => size_of c = CHUNK_SIZE) (ws_chunks ws).
Proof.
  destruct (ws_writes_spec pieces (create_write_stream key total opts)) as (ws & E & Hk & Ho & Hc & Hb & Hf);
    [exact CHUNK_SIZE_pos|constructor|]. exists ws. unfold ws_finish. rewrite Hk, Ho. eexists.
  split_and!; [done| |done..].
  assert (concat (if bool_decide (ws_buffer ws = []) then ws_chunks ws else ws_chunks ws ++ [ws_buffer ws]) = concat pieces) as ->.
  { simpl in Hc. case_bool_decide as Hn; [by rewrite <- Hc, Hn, app_nil_r|]. rewrite concat_app. simpl. by rewrite app_nil_r. }
  reflexivity.
Qed.

(** Reads of any lengths from a stream return consecutive pieces of the data, in order and without
    loss, and the end is reported exactly when all of it was read. *)
Lemma read_stream_pieces data total ns :
  size_of data < 2 ^ 64 -> Forall (fun n => 0 <= n) ns ->
  let '(bs, rs) := rs_reads (mkReadStream data total 0) ns in
  concat bs = slice 0 (foldr Z.add 0 ns) data /\
  (rs_eof rs = true <-> size_of data <= foldr Z.add 0 ns) /\ (rs_eof rs = true -> concat bs = data).
Proof.
  intros Hd Hns. pose proof (rs_reads_spec data total ns Hd Hns 0) as H. pose proof (size_of_nonneg data).
  destruct (rs_reads _ ns) as [bs rs]. destruct H as [Hc ->]; [lia|]. unfold rs_eof. cbn [rs_data rs_position].
  rewrite Z.leb_le. split_and!; [done|lia|]. intros Hle. rewrite Hc. apply slice_all. lia.
Qed.

End coordinator.

(** ** A range read through the cluster *)

Section poison.
Context `{HH : Hasher} `{BC : !BoundedCache ChunkId SharedChunk chunk_size_fn}.
Context (P : bytes -> Prop) (Hnc : no_collision P) (DT : CacheTier) (CL : ClusterLink) (cfg : CoordinatorConfig).

(** What another node returns for a part of a value is kept in memory as if it were the whole
    value: after a range read that was served by the cluster, reading the whole key is a hit that
    carries only the part. *)
Theorem coord_range_read_poisons vals now now' (m : MemoryCache) cl cl' node key v ropts full res :
  mc_inv P vals m -> vals !! key = None -> cc_prefer_local cfg = true -> cc_seed_nodes cfg <> [] ->
  link_nodes_for_key cl key = Done [node] -> node <> link_local_id cl ->
  link_remote_get cl node key ropts = Done (res, cl') -> rr_result res = Hit -> rr_data res = wanted ropts v ->
  wanted ropts v <> [] -> wanted ropts v <> v -> Forall P (pieces (wanted ropts v)) ->
  put_accepted key (wanted ropts v) = true ->
  bc_bytes (mc_chunk_cache m) + size_of (wanted ropts v) < 2 ^ 64 ->
  bc_bytes (mc_chunk_cache m) + size_of (wanted ropts v) <= bc_capacity (mc_chunk_cache m) ->
  opts_ok ropts -> ro_range full = None ->
  exists co1 r co2, co_get (memory_tier P Hnc) DT CL cfg now (mkCoordinator (memory_tier P Hnc) DT CL (Some m) None (Some cl)) key ropts
      = Done (res, co1) /\
    co_get (memory_tier P Hnc) DT CL cfg now' co1 key full = Done (r, co2) /\ rr_result r = Hit /\ rr_data r <> v.
Proof.
  intros Hinv Hnone Hpl Hseeds Hnodes Hne Hget Hh Hd Hw Hwv HP Ha Hov Hroom Hopts Hfull.
  destruct (mc_get_spec P vals now m key ropts Hnc Hinv Hopts) as (r0 & m0 & E0 & Hs0 & Hmiss & _).
  rewrite (Hmiss Hnone) in E0. pose proof (mc_same_inv P vals m m0 Hinv Hs0) as Hinv0.
  destruct Hs0 as (_ & _ & Hb0 & Hc0 & _).
  destruct (mc_put_spec P vals now m0 key (wanted ropts v) (mkWriteOptions None 0 false false true true) Hnc Hinv0 HP Ha)
    as (m1 & E1 & Hinv1 & Hmd & Hres). rewrite Hb0, Hc0 in Hres. specialize (Hres Hov Hroom).
  destruct (mc_get_stored P _ now' m1 key (wanted ropts v) _ full Hnc Hinv1 (lookup_insert_eq _ _ _) Hmd) as (r & m2 & E2 & Hh2 & Hd2);
    [done|done|by unfold opts_ok; rewrite Hfull|by unfold wanted at 1; rewrite Hfull|].
  eexists _, r, _. split_and!; [| |exact Hh2|].
  - unfold co_get, get_memory, get_disk. cbn [co_memory co_disk tier_get memory_tier]. rewrite Hpl, E0. cbn [mbind outcome_bind].
    change (settles ropts ReadResult_default) with false. cbn [set_memory co_cluster co_disk]. cbn [mbind outcome_bind].
    rewrite bool_decide_true by done. rewrite (bool_decide_false (cc_seed_nodes cfg = [])) by done. cbn [negb andb].
    unfold fetch_from_cluster. unfold set_memory, set_cluster. cbn [co_memory co_disk co_cluster]. rewrite Hnodes. cbn [mbind outcome_bind fetch_nodes co_cluster].
    rewrite bool_decide_false, Hget by done. cbn [mbind outcome_bind set_cluster co_memory]. unfold rr_is_hit at 1. rewrite Hh.
    rewrite bool_decide_true by done. rewrite Hd, bool_decide_false by done. cbn [tier_put memory_tier]. rewrite E1.
    cbn [mbind outcome_bind]. unfold settles, rr_is_hit. rewrite Hh, bool_decide_true by done. reflexivity.
  - unfold co_get, get_memory. cbn [set_memory co_memory tier_get memory_tier]. rewrite Hpl, E2. cbn [mbind outcome_bind].
    unfold settles, rr_is_hit. rewrite Hh2, bool_decide_true by done. reflexivity.
  - rewrite Hd2. unfold wanted at 1. by rewrite Hfull.
Qed.
End poison.

(** ** Witnesses: the real tiers, and a cluster of one other node *)

#[local] Existing Instance fnv_hasher.
#[local] Instance chunk_arc_tier : BoundedCache ChunkId SharedChunk chunk_size_fn :=
  arc_bounded_cache chunk_size_fn chunk_size_fn_u64.

(** The chunks of the two sample values. *)
Definition two_samples (d : bytes) : Prop := d = str "hello" \/ d = str "world".

Lemma two_samples_set : chunk_set two_samples.
Proof.
  split.
  - intros a b [->| ->] [->| ->] E; [reflexivity| | |reflexivity]; vm_compute in E; discriminate.
  - intros d [->| ->]; by vm_compute.
Qed.

Lemma hello_pieces : Forall two_samples (pieces (str "hello")).
Proof. rewrite pieces_small by by vm_compute. constructor; [by left|constructor]. Qed.

Lemma world_pieces : Forall two_samples (pieces (str "world")).
Proof. rewrite pieces_small by by vm_compute. constructor; [by right|constructor]. Qed.

#[local] Opaque sample_dc.

Definition mem : CacheTier := memory_tier two_samples (proj1 two_samples_set).
Definition dsk : CacheTier := disk_tier sample_cfg Z.of_nat [] (fun _ => []) two_samples two_samples_set.

(** One other node, which answers every read with the same result. *)
Definition one_node (res : ReadResult) : ClusterLink := {|
  link_state := unit;
  link_local_id := fun _ => 1;
  link_nodes_for_key := fun _ _ => Done [2];
  link_remote_get := fun s _ _ _ => Done (res, s);
  link_remote_put := fun s _ _ _ _ => Done (make_ok, s);
  link_remote_delete := fun s _ _ => Done (make_ok, s);
  link_remote_check := fun s _ _ _ => Done (AvailabilityResult_default, s)
|}.

Definition link : ClusterLink := one_node ReadResult_default.
Definition co_cfg : CoordinatorConfig := mkCoordConfig 100 100 true [str "seed"].
Definition co_sample : Coordinator mem dsk link := mkCoordinator mem dsk link (Some (mc_make 100)) (Some sample_dc) None.

Lemma co_sample_inv : co_inv mem dsk link ∅ co_sample.
Proof. exact (co_inv_two mem dsk link ∅ (mc_make 100) sample_dc (mc_make_inv _ _) (proj1 (sample_dc_inv _))). Qed.

Lemma mem_dsk_accepts key v : @tier_accepts mem key v = true -> @tier_accepts dsk key v = true.
Proof. simpl. unfold put_accepted, dc_accepts. by intros [? _]%andb_true_iff. Qed.

Lemma coord_refines_value_map_witness :
  exists tr co', co_run mem dsk link co_cfg co_sample
      [CPut 0 (sample_key "a") (str "hello") WriteOptions_default; CPut 1 (sample_key "a") (str "world") WriteOptions_default;
       CGet 2 (sample_key "a") ReadOptions_default; CRemove (sample_key "a") DeleteOptions_default;
       CGet 3 (sample_key "a") ReadOptions_default] = Done (tr, co') /\ co_answers_ok put_accepted ∅ tr.
Proof.
  destruct (coord_refines_value_map mem dsk link co_cfg
      [CPut 0 (sample_key "a") (str "hello") WriteOptions_default; CPut 1 (sample_key "a") (str "world") WriteOptions_default;
       CGet 2 (sample_key "a") ReadOptions_default; CRemove (sample_key "a") DeleteOptions_default;
       CGet 3 (sample_key "a") ReadOptions_default] put_accepted ∅ co_sample mem_dsk_accepts) as (tr & co' & E & _ & Hok);
    [..|exists tr, co'; split; [exact E|exact Hok]].
  - assert (size_of (str "hello") <= MAX_VALUE_SIZE) by (apply Z.leb_le; reflexivity).
    assert (size_of (str "world") <= MAX_VALUE_SIZE) by (apply Z.leb_le; reflexivity).
    pose proof hello_pieces. pose proof world_pieces. repeat constructor; assumption.
  - reflexivity.
  - exact co_sample_inv.
Defined.

Definition disk_only : WriteOptions := mkWriteOptions None 0 true false false true.

Lemma put_disk_only m d0 d :
  dc_put sample_cfg Z.of_nat [] 1 d0 (sample_key "a") (str "world") disk_only = Done (make_ok, d) ->
  co_put mem dsk link 1 (mkCoordinator mem dsk link (Some m) (Some d0) None) (sample_key "a") (str "world") disk_only
  = Done (make_ok, mkCoordinator mem dsk link (Some m) (Some d) None).
Proof.
  intros Ed. unfold co_put, put_tier. cbn [co_memory co_disk co_cluster wo_no_memory wo_no_disk disk_only mbind outcome_bind].
  change (negb (is_ok make_ok)) with false. cbv iota. cbn [set_memory co_disk tier_put dsk disk_tier]. fold disk_only.
  rewrite Ed. reflexivity.
Qed.

Lemma coord_put_no_memory_stale_witness :
  exists m m' r st co1 co2,
    mc_put 0 (mc_make 100) (sample_key "a") (str "hello") WriteOptions_default = Done (make_ok, m) /\
    mc_get 2 m (sample_key "a") ReadOptions_default = Done (r, m') /\ rr_data r = str "hello" /\
    co_put mem dsk link 1 (mkCoordinator mem dsk link (Some m) (Some sample_dc) None) (sample_key "a") (str "world")
      disk_only = Done (st, co1) /\ is_ok st = true /\
    co_get mem dsk link co_cfg 2 co1 (sample_key "a") ReadOptions_default = Done (r, co2).
Proof.
  destruct (mc_put_spec two_samples ∅ 0 (mc_make 100) (sample_key "a") (str "hello") WriteOptions_default
    (proj1 two_samples_set) (mc_make_inv _ _) hello_pieces eq_refl) as (m & Em & Hm & Hmd & Hres).
  destruct (mc_get_stored two_samples _ 2 m (sample_key "a") (str "hello") _ ReadOptions_default (proj1 two_samples_set) Hm
    (lookup_insert_eq _ _ _) Hmd eq_refl) as (r & m' & Eg & Hh & Hd); [apply Hres; [reflexivity|discriminate]|exact I|discriminate|].
  destruct (dc_put_spec sample_cfg Z.of_nat [] two_samples ∅ 1 sample_dc (sample_key "a") (str "world")
    disk_only two_samples_set (proj1 (sample_dc_inv _)) world_pieces) as (d & Ed & _);
    [apply Z.leb_le; reflexivity..|].
  pose proof (put_disk_only m sample_dc d Ed) as Ep.
  destruct (coord_put_no_memory_stale mem dsk link co_cfg 1 2 (mkCoordinator mem dsk link (Some m) (Some sample_dc) None) m m'
    (sample_key "a") (str "world") disk_only ReadOptions_default r make_ok
    (mkCoordinator mem dsk link (Some m) (Some d) None) eq_refl eq_refl eq_refl Eg Hh Ep) as (co2 & E2).
  exists m, m', r, make_ok, (mkCoordinator mem dsk link (Some m) (Some d) None), co2.
  split; [exact Em|]. split; [exact Eg|]. split; [exact Hd|]. split; [exact Ep|]. split; [reflexivity|exact E2].
Defined.

(** The value on the other node is longer than what was asked for. *)
Lemma coord_range_read_poisons_witness :
  let half := mkReadResult Hit (str "hello") (mkRange 0 5) None in
  let ropts := mkReadOptions true true true (Some (mkRange 0 5)) 0 in
  exists co1 r co2, co_get mem dsk (one_node half) co_cfg 0
      (mkCoordinator mem dsk (one_node half) (Some (mc_make 100)) None (Some tt)) (sample_key "a") ropts = Done (half, co1) /\
    co_get mem dsk (one_node half) co_cfg 1 co1 (sample_key "a") ReadOptions_default = Done (r, co2) /\
    rr_result r = Hit /\ rr_data r <> str "helloworld".
Proof.
  intros half ropts.
  apply (coord_range_read_poisons two_samples (proj1 two_samples_set) dsk (one_node half) co_cfg ∅ 0 1 (mc_make 100) tt tt 2
    (sample_key "a") (str "helloworld") ropts ReadOptions_default half).
  - apply mc_make_inv.
  - apply lookup_empty.
  - reflexivity.
  - discriminate.
  - reflexivity.
  - discriminate.
  - reflexivity.
  - reflexivity.
  - reflexivity.
  - discriminate.
  - discriminate.
  - exact hello_pieces.
  - reflexivity.
  - reflexivity.
  - discriminate.
  - vm_compute. split; split; [discriminate|reflexivity|discriminate|reflexivity].
  - reflexivity.
Defined.
