(* ===== verification/CoordinatorThreads.v ===== *)
(** * The coordinator under concurrent requests: [src/cache/cache_coordinator.cpp]

    [get], [put] and [remove] of the coordinator are coroutines that call the memory tier and then the
    disk tier; other requests run in between. Here every operation is cut at the end of its call of the
    memory tier, and sessions, each a client that makes one call after the other, are interleaved at these
    points. A call of a tier is one step, with the contract [CacheTier]; what happens inside the memory tier
    is the subject of [MemoryThreads.v]. *)

From S2P Require Import Prelude CDouble Types Chunk CacheApi CacheInterface ArcCache MemoryCache CacheTier DiskCache Coordinator.
Open Scope Z_scope.

Definition op_key (op : co_op) : CacheKey :=
  match op with CGet _ key _ | CPut _ key _ _ | CRemove key _ => key end.

Section coordinator_threads.
Context (MT DT : CacheTier) (CL : ClusterLink) (cfg : CoordinatorConfig).

Abbreviation Coord := (Coordinator MT DT CL).

(** ** Operations in two steps *)

(** An operation after its call of the memory tier; [wrote] is [wrote_to_storage] of [put]. *)
Inductive Pending :=
| PGet (now : Z) (key : CacheKey) (opts : ReadOptions)
| PPut (now : Z) (key : CacheKey) (value : bytes) (opts : WriteOptions) (wrote : bool)
| PRemove (key : CacheKey) (opts : DeleteOptions).

Definition pending_op (p : Pending) : co_op :=
  match p with
  | PGet now key opts => CGet now key opts
  | PPut now key v opts _ => CPut now key v opts
  | PRemove key opts => CRemove key opts
  end.

(** Up to and including the call of the memory tier: an answer, or what is left to do. *)
Definition co_first (co : Coord) (op : co_op) : outcome ((mc_res + Pending) * Coord) :=
  match op with
  | CGet now key opts =>
      '(r, co1) ← get_memory MT DT CL cfg now co key opts;
      Done (match r with Some r => inl (MRead r) | None => inr (PGet now key opts) end, co1)
  | CPut now key v opts =>
      '(status, wrote, m) ← put_tier now (co_memory _ _ _ co) (wo_no_memory opts) key v opts;
      Done (if negb (is_ok status) then inl (MStatus status) else inr (PPut now key v opts wrote), set_memory _ _ _ co m)
  | CRemove key opts =>
      m ← remove_tier (co_memory _ _ _ co) (do_from_memory opts) key opts;
      Done (inr (PRemove key opts), set_memory _ _ _ co m)
  end.

(** The rest of the operation. *)
Definition co_second (co : Coord) (p : Pending) : outcome (mc_res * Coord) :=
  match p with
  | PGet now key opts =>
      '(r, co2) ← get_disk MT DT CL now co key opts;
      match r with
      | Some r => Done (MRead r, co2)
      | None =>
          if bool_decide (is_Some (co_cluster _ _ _ co2)) && negb (bool_decide (cc_seed_nodes cfg = [])) then
            '(r, co3) ← fetch_from_cluster MT DT CL now co2 key opts;
            Done (MRead (if settles opts r then r else ReadResult_default), co3)
          else Done (MRead ReadResult_default, co2)
      end
  | PPut now key v opts wrote_m =>
      '(status, wrote_d, d) ← put_tier now (co_disk _ _ _ co) (wo_no_disk opts) key v opts;
      let co2 := set_disk _ _ _ co d in
      if negb (is_ok status) then Done (MStatus status, co2)
      else
        co3 ← (match co_cluster _ _ _ co2 with
               | Some cl =>
                   if wo_no_cluster opts then Done co2
                   else nodes ← link_nodes_for_key cl key; cl' ← replicate_to CL cl nodes key v opts;
                        Done (set_cluster _ _ _ co2 (Some cl'))
               | None => Done co2
               end);
        Done (MStatus (if wrote_m || wrote_d then make_ok else status_error InternalError (str "No storage available")), co3)
  | PRemove key opts =>
      d ← remove_tier (co_disk _ _ _ co) (do_from_disk opts) key opts;
      let co1 := set_disk _ _ _ co d in
      match co_cluster _ _ _ co1 with
      | Some cl =>
          if do_from_cluster opts then
            nodes ← link_nodes_for_key cl key; cl' ← delete_from CL cl nodes key;
            Done (MStatus make_ok, set_cluster _ _ _ co1 (Some cl'))
          else Done (MStatus make_ok, co1)
      | None => Done (MStatus make_ok, co1)
      end
  end.

(** The two steps one after the other. *)
Definition co_both (co : Coord) (op : co_op) : outcome (mc_res * Coord) :=
  '(r, co1) ← co_first co op;
  match r with inl res => Done (res, co1) | inr p => co_second co1 p end.

(** ** Sessions *)

(** A client: the calls it still makes, the one under way, the answers so far. *)
Record Session := mkSession {
  ss_todo : list co_op;
  ss_pending : option Pending;
  ss_trace : list (co_op * mc_res)
}.

Record Sessions := mkSessions { sn_co : Coord; sn_sessions : list Session }.

Definition session_of (ops : list co_op) : Session := mkSession ops None [].

Definition session_step (co : Coord) (s : Session) : outcome (Coord * Session) :=
  match ss_pending s, ss_todo s with
  | Some p, _ =>
      '(res, co1) ← co_second co p;
      Done (co1, mkSession (ss_todo s) None (ss_trace s ++ [(pending_op p, res)]))
  | None, op :: rest =>
      '(r, co1) ← co_first co op;
      Done (co1, match r with
                 | inl res => mkSession rest None (ss_trace s ++ [(op, res)])
                 | inr p => mkSession rest (Some p) (ss_trace s)
                 end)
  | None, [] => Done (co, s)
  end.

Definition sessions_step (s : Sessions) (i : nat) : outcome Sessions :=
  match sn_sessions s !! i with
  | None => Done s
  | Some x => '(co1, x1) ← session_step (sn_co s) x; Done (mkSessions co1 (<[i := x1]> (sn_sessions s)))
  end.

Fixpoint run_sessions (sched : list nat) (s : Sessions) : outcome Sessions :=
  match sched with
  | [] => Done s
  | i :: rest => s1 ← sessions_step s i; run_sessions rest s1
  end.

(** ** One after the other *)

Lemma bind_assoc {A B C} (x : outcome A) (f : A -> outcome B) (g : B -> outcome C) : ((x ≫= f) ≫= g) = (x ≫= (fun a => f a ≫= g)).
Proof. by destruct x. Qed.

Lemma bind_ext {A B} (x : outcome A) (f g : A -> outcome B) : (forall a, f a = g a) -> (x ≫= f) = (x ≫= g).
Proof. intros H. destruct x; cbn; try done. Qed.

Lemma co_both_step co op : co_both co op = co_step MT DT CL cfg co op.
Proof.
  unfold co_both, co_step. destruct op as [now key opts|now key v opts|key opts]; cbn [co_first].
  - unfold co_get. rewrite !bind_assoc. apply bind_ext. intros [[r|] co1]; cbn [mbind outcome_bind]; [done|]. cbn [co_second].
    rewrite !bind_assoc. apply bind_ext. intros [[r|] co2]; cbn [mbind outcome_bind]; [done|]. destruct (_ && _); [|done].
    rewrite !bind_assoc. apply bind_ext. intros [r co3]. cbn [mbind outcome_bind]. by destruct (settles opts r).
  - unfold co_put. rewrite !bind_assoc. apply bind_ext. intros [[st wm] m]. cbn [mbind outcome_bind].
    destruct (negb (is_ok st)); [done|]. cbn [co_second]. rewrite !bind_assoc. apply bind_ext. intros [[st2 wd] d].
    cbn [mbind outcome_bind]. destruct (negb (is_ok st2)); [done|]. rewrite !bind_assoc. apply bind_ext. intros co3.
    by destruct (wm || wd).
  - unfold co_remove. rewrite !bind_assoc. apply bind_ext. intros m. cbn [mbind outcome_bind co_second].
    rewrite !bind_assoc. apply bind_ext. intros d. destruct co as [m0 d0 [cl|]]; cbn; [|done].
    destruct (do_from_cluster opts); [|done]. rewrite !bind_assoc. apply bind_ext. intros nodes.
    rewrite !bind_assoc. apply bind_ext. intros cl'. done.
Qed.

(** ** Sessions with keys of their own *)

Section isolation.
Context (accepts : CacheKey -> bytes -> bool) (vals0 : gmap CacheKey bytes) (owner : CacheKey -> nat).
Hypothesis Hacc : forall key v, @tier_accepts MT key v = true -> @tier_accepts DT key v = true.

(** The values after the calls of a trace. *)
Definition final_vals (vals : gmap CacheKey bytes) (tr : list (co_op * mc_res)) : gmap CacheKey bytes :=
  foldl (co_vals_step accepts) vals tr.*1.

Lemma final_vals_snoc vals tr op res : final_vals vals (tr ++ [(op, res)]) = co_vals_step accepts (final_vals vals tr) op.
Proof. unfold final_vals. rewrite fmap_app, foldl_app. done. Qed.

Lemma answers_snoc tr op res : forall vals,
  co_answers_ok accepts vals tr -> co_answers_ok accepts (final_vals vals tr) [(op, res)] ->
  co_answers_ok accepts vals (tr ++ [(op, res)]).
Proof.
  induction tr as [|[op' res'] tr IH]; intros vals Htr Hl; [exact Hl|]. cbn [app co_answers_ok] in *. destruct Htr as [Ha Htr].
  split; [exact Ha|]. by apply IH.
Qed.

(** What memory holds for a key of the session: ahead of the disk while a put or a remove is under way. *)
Definition own_expect (vals : gmap CacheKey bytes) (x : Session) (k : CacheKey) : option bytes :=
  match ss_pending x with
  | Some (PPut _ k' v _ _) => if decide (k' = k) then Some v else vals !! k
  | Some (PRemove k' _) => if decide (k' = k) then None else vals !! k
  | _ => vals !! k
  end.

Definition expect (vals : gmap CacheKey bytes) (ss : list Session) (k : CacheKey) : option bytes :=
  match ss !! owner k with Some x => own_expect vals x k | None => vals !! k end.

Lemma expect_update (vals vals' vm vm' : gmap CacheKey bytes) (ss : list Session) i x x1 :
  (forall k, vm !! k = expect vals ss k) -> ss !! i = Some x ->
  (forall k, owner k <> i -> vals' !! k = vals !! k /\ vm' !! k = vm !! k) ->
  (forall k, owner k = i -> vm !! k = own_expect vals x k -> vm' !! k = own_expect vals' x1 k) ->
  forall k, vm' !! k = expect vals' (<[i := x1]> ss) k.
Proof.
  intros Hvm Hx Hother Hown k. specialize (Hvm k). unfold expect in *. destruct (decide (owner k = i)) as [E|E].
  - rewrite E, Hx in Hvm. rewrite E, list_lookup_insert_eq by by eapply lookup_lt_Some. by apply Hown.
  - rewrite list_lookup_insert_ne by done. destruct (Hother k E) as [Ev ->]. rewrite Hvm.
    destruct (ss !! owner k) as [y|]; [|done]. unfold own_expect. repeat case_match; done.
Qed.

(** Session [i] with the calls [ops]: its answers are those of the value map, and [vals] is what its calls
    leave of its keys. *)
Record session_ok (co : Coord) (vals : gmap CacheKey bytes) (ops : list co_op) (i : nat) (x : Session) : Prop := {
  so_ops : (ss_trace x).*1 ++ option_list (pending_op <$> ss_pending x) ++ ss_todo x = ops;
  so_answers : co_answers_ok accepts vals0 (ss_trace x);
  so_vals : forall k, owner k = i -> final_vals vals0 (ss_trace x) !! k = vals !! k;
  so_put : forall now k v opts w, ss_pending x = Some (PPut now k v opts w) ->
    w = bool_decide (is_Some (co_memory _ _ _ co)) /\ (w = true -> @tier_accepts MT k v = true)
}.

Record isolated (opss : list (list co_op)) (vals : gmap CacheKey bytes) (s : Sessions) : Prop := {
  iso_memory : forall m, co_memory _ _ _ (sn_co s) = Some m ->
    exists vm, tier_inv vm m /\ forall k, vm !! k = expect vals (sn_sessions s) k;
  iso_disk : forall d, co_disk _ _ _ (sn_co s) = Some d -> tier_inv vals d;
  iso_alone : co_cluster _ _ _ (sn_co s) = None;
  iso_accepts : forall key v, co_accepts MT DT CL (sn_co s) key v = accepts key v;
  iso_count : length (sn_sessions s) = length opss;
  iso_sessions : forall i x ops, sn_sessions s !! i = Some x -> opss !! i = Some ops -> session_ok (sn_co s) vals ops i x
}.

(** The calls of a session are on its own keys and address both tiers. *)
Definition own_ops (i : nat) (ops : list co_op) : Prop := Forall (fun op => co_op_ok MT DT op /\ owner (op_key op) = i) ops.

Lemma isolated_update opss vals vals' s i x x1 co1 :
  isolated opss vals s -> sn_sessions s !! i = Some x ->
  (forall k, owner k <> i -> vals' !! k = vals !! k) ->
  (forall m, co_memory _ _ _ co1 = Some m ->
    exists vm, tier_inv vm m /\ forall k, vm !! k = expect vals' (<[i := x1]> (sn_sessions s)) k) ->
  (forall d, co_disk _ _ _ co1 = Some d -> tier_inv vals' d) ->
  co_cluster _ _ _ co1 = None -> same_tiers MT DT CL (sn_co s) co1 ->
  (forall ops, opss !! i = Some ops -> session_ok co1 vals' ops i x1) ->
  isolated opss vals' (mkSessions co1 (<[i := x1]> (sn_sessions s))).
Proof.
  intros Hiso Hx Hv Hm Hd Hc Hsame Hok. split; cbn [sn_co sn_sessions]; [done|done|done| | |].
  - intros key v. rewrite (co_accepts_same MT DT CL (sn_co s) co1) by done. apply (iso_accepts _ _ _ Hiso).
  - rewrite length_insert. apply (iso_count _ _ _ Hiso).
  - intros j y ops Hj Hops. destruct (decide (i = j)) as [<-|Hne].
    + rewrite list_lookup_insert_eq in Hj by by eapply lookup_lt_Some. injection Hj as <-. by apply Hok.
    + rewrite list_lookup_insert_ne in Hj by done. destruct (iso_sessions _ _ _ Hiso j y ops Hj Hops) as [H1 H2 H3 H4].
      split; [done|done| |].
      * intros k Hk. rewrite H3 by done. symmetry. apply Hv. congruence.
      * intros now k v opts w Hp. destruct (H4 now k v opts w Hp) as [-> Hw]. split; [|done].
        destruct Hsame as [Hs _]. apply bool_decide_ext. by rewrite Hs.
Qed.

Lemma vals_step_lookup op (vals vals2 : gmap CacheKey bytes) k :
  vals !! k = vals2 !! k -> co_vals_step accepts vals op !! k = co_vals_step accepts vals2 op !! k.
Proof.
  intros E. destruct op as [now key opts|now key v opts|key opts]; cbn [co_vals_step]; [done| |].
  - destruct (accepts key v); [|done]. destruct (decide (key = k)) as [->|?]; [by rewrite !lookup_insert_eq|by rewrite !lookup_insert_ne].
  - destruct (decide (key = k)) as [->|?]; [by rewrite !lookup_delete_eq|by rewrite !lookup_delete_ne].
Qed.

Lemma vals_step_other op (vals : gmap CacheKey bytes) k : k <> op_key op -> co_vals_step accepts vals op !! k = vals !! k.
Proof.
  intros E. destruct op as [now key opts|now key v opts|key opts]; cbn [co_vals_step op_key] in *; [done| |by rewrite lookup_delete_ne].
  destruct (accepts key v); [by rewrite lookup_insert_ne|done].
Qed.

Lemma answer_local op res (vals vals2 : gmap CacheKey bytes) :
  vals !! op_key op = vals2 !! op_key op -> co_answers_ok accepts vals [(op, res)] -> co_answers_ok accepts vals2 [(op, res)].
Proof. intros E. destruct op as [now key opts|now key v opts|key opts]; cbn in *; [|done..]. by rewrite E. Qed.

(** A call of the session is answered. *)
Lemma session_answered co co1 vals ops i x op res todo :
  session_ok co vals ops i x -> (ss_trace x).*1 ++ op :: todo = ops -> owner (op_key op) = i ->
  co_answers_ok accepts vals [(op, res)] ->
  session_ok co1 (co_vals_step accepts vals op) ops i (mkSession todo None (ss_trace x ++ [(op, res)])).
Proof.
  intros [_ Hans Hvals _] Hops Hown Ha. split; cbn [ss_trace ss_pending ss_todo].
  - rewrite fmap_app, <- app_assoc. exact Hops.
  - apply answers_snoc; [done|]. apply (answer_local _ _ vals); [|done]. by rewrite Hvals.
  - intros k Hk. rewrite final_vals_snoc. by apply vals_step_lookup, Hvals.
  - done.
Qed.

(** A call of the session waits for the disk. *)
Lemma session_waits co co1 vals ops i x p todo :
  session_ok co vals ops i x -> (ss_trace x).*1 ++ pending_op p :: todo = ops ->
  (forall now k v opts w, p = PPut now k v opts w ->
    w = bool_decide (is_Some (co_memory _ _ _ co1)) /\ (w = true -> @tier_accepts MT k v = true)) ->
  session_ok co1 vals ops i (mkSession todo (Some p) (ss_trace x)).
Proof. intros [_ Hans Hvals _] Hops Hp. split; cbn; [done..|]. intros now k v opts w [= ->]. by apply (Hp now k v opts w). Qed.

Lemma same_with_memory (co : Coord) m m' : co_memory _ _ _ co = Some m -> same_tiers MT DT CL co (set_memory _ _ _ co (Some m')).
Proof. intros E. split; cbn; [by rewrite E|done]. Qed.

Lemma same_with_disk (co : Coord) d d' : co_disk _ _ _ co = Some d -> same_tiers MT DT CL co (set_disk _ _ _ co (Some d')).
Proof. intros E. split; cbn; [done|by rewrite E]. Qed.

(** Memory as session [i] finds it when none of its calls is under way. *)
Lemma memory_settled opss vals s i x k m :
  isolated opss vals s -> sn_sessions s !! i = Some x -> ss_pending x = None -> owner k = i ->
  co_memory _ _ _ (sn_co s) = Some m ->
  exists vm, tier_inv vm m /\ (forall k, vm !! k = expect vals (sn_sessions s) k) /\ vm !! k = vals !! k.
Proof.
  intros Hiso Hx Hp Hk Em. destruct (iso_memory _ _ _ Hiso m Em) as (vm & Hm & Hvm). exists vm. split_and!; [done..|].
  rewrite Hvm. unfold expect. rewrite Hk, Hx. unfold own_expect. by rewrite Hp.
Qed.

(** Only memory has changed, and only for keys of the session. *)
Lemma isolated_memory opss vals s i x x1 m m' (vm vm' : gmap CacheKey bytes) :
  isolated opss vals s -> sn_sessions s !! i = Some x -> co_memory _ _ _ (sn_co s) = Some m ->
  (forall k, vm !! k = expect vals (sn_sessions s) k) -> tier_inv vm' m' ->
  (forall k, owner k <> i -> vm' !! k = vm !! k) ->
  (forall k, owner k = i -> vm !! k = own_expect vals x k -> vm' !! k = own_expect vals x1 k) ->
  (forall ops, opss !! i = Some ops -> session_ok (set_memory _ _ _ (sn_co s) (Some m')) vals ops i x1) ->
  isolated opss vals (mkSessions (set_memory _ _ _ (sn_co s) (Some m')) (<[i := x1]> (sn_sessions s))).
Proof.
  intros Hiso Hx Em Hvm Hm' Hother Hown Hok. apply (isolated_update opss vals vals s i x x1);
    [exact Hiso|exact Hx|done| |exact (iso_disk _ _ _ Hiso)|exact (iso_alone _ _ _ Hiso)|by apply (same_with_memory _ m)|exact Hok].
  intros m2 [= <-]. exists vm'. split; [done|]. apply (expect_update vals vals vm vm' _ i x x1); auto.
Qed.

(** Nothing has changed but what the session waits for. *)
Lemma isolated_waits opss vals s i x x1 :
  isolated opss vals s -> sn_sessions s !! i = Some x ->
  (co_memory _ _ _ (sn_co s) = None \/ forall k, own_expect vals x1 k = own_expect vals x k) ->
  (forall ops, opss !! i = Some ops -> session_ok (sn_co s) vals ops i x1) ->
  isolated opss vals (mkSessions (sn_co s) (<[i := x1]> (sn_sessions s))).
Proof.
  intros Hiso Hx Hm Hok. apply (isolated_update opss vals vals s i x x1);
    [exact Hiso|exact Hx|done| |exact (iso_disk _ _ _ Hiso)|exact (iso_alone _ _ _ Hiso)|done|exact Hok].
  - intros m Em. destruct Hm as [Hm|Hm]; [congruence|]. destruct (iso_memory _ _ _ Hiso m Em) as (vm & Hi & Hvm).
    exists vm. split; [done|]. apply (expect_update vals vals vm vm _ i x x1); auto. intros k _ ->. by rewrite Hm.
Qed.

Lemma set_memory_none (co : Coord) : co_memory _ _ _ co = None -> set_memory _ _ _ co None = co.
Proof. destruct co; cbn. by intros ->. Qed.

Lemma first_get_ok opss vals s i x now key opts todo :
  isolated opss vals s -> sn_sessions s !! i = Some x -> ss_pending x = None ->
  (forall ops, opss !! i = Some ops -> (ss_trace x).*1 ++ CGet now key opts :: todo = ops) ->
  opts_ok opts -> owner key = i ->
  exists r co1, co_first (sn_co s) (CGet now key opts) = Done (r, co1) /\
    isolated opss vals (mkSessions co1 (<[i := match r with
      | inl res => mkSession todo None (ss_trace x ++ [(CGet now key opts, res)])
      | inr p => mkSession todo (Some p) (ss_trace x) end]> (sn_sessions s))).
Proof.
  intros Hiso Hx Hp Hops Hopts Hk. cbn [co_first]. unfold get_memory.
  assert (forall co1 ops, opss !! i = Some ops -> session_ok co1 vals ops i (mkSession todo (Some (PGet now key opts)) (ss_trace x))) as Hw.
  { intros co1 ops Ho. eapply session_waits; [by apply (iso_sessions _ _ _ Hiso i x ops)|by apply Hops|done]. }
  assert (forall k tr, own_expect vals (mkSession todo None tr) k = own_expect vals x k /\
    own_expect vals (mkSession todo (Some (PGet now key opts)) tr) k = own_expect vals x k) as He by (intros k tr; unfold own_expect; by rewrite Hp).
  destruct (co_memory _ _ _ (sn_co s)) as [m|] eqn:Em.
  2: { eexists _, _. split; [done|]. cbn. apply (isolated_waits _ _ _ i x); auto. }
  destruct (cc_prefer_local cfg).
  2: { eexists _, _. split; [done|]. cbn. apply (isolated_waits _ _ _ i x); auto. right. intros k. apply He. }
  destruct (memory_settled opss vals s i x key m Hiso Hx Hp Hk Em) as (vm & Hm & Hvm & Ek).
  destruct (tier_get_ok vm now m key opts Hm Hopts) as (r & m' & -> & Hm' & Hhit & Hmiss). cbn [mbind outcome_bind].
  eexists _, _. split; [done|]. destruct (settles opts r) eqn:Es; cbn [from_option].
  - apply (isolated_memory opss vals s i x _ m m' vm vm); auto; [intros k _ ->; symmetry; apply He|].
    intros ops Ho. apply (session_answered (sn_co s)) with (op := CGet now key opts); auto; [by apply (iso_sessions _ _ _ Hiso i x)|].
    cbn. rewrite <- Ek. split; [|done]. split; [done|]. done.
  - apply (isolated_memory opss vals s i x _ m m' vm vm); auto. intros k _ ->. symmetry. apply He.
Qed.

Lemma first_put_ok opss vals s i x now key v opts todo :
  isolated opss vals s -> sn_sessions s !! i = Some x -> ss_pending x = None ->
  (forall ops, opss !! i = Some ops -> (ss_trace x).*1 ++ CPut now key v opts :: todo = ops) ->
  co_op_ok MT DT (CPut now key v opts) -> owner key = i ->
  exists r co1, co_first (sn_co s) (CPut now key v opts) = Done (r, co1) /\
    isolated opss vals (mkSessions co1 (<[i := match r with
      | inl res => mkSession todo None (ss_trace x ++ [(CPut now key v opts, res)])
      | inr p => mkSession todo (Some p) (ss_trace x) end]> (sn_sessions s))).
Proof.
  intros Hiso Hx Hp Hops ([Hvm Hvd] & Hnm & Hnd) Hk. cbn [co_first]. unfold put_tier. rewrite Hnm.
  destruct (co_memory _ _ _ (sn_co s)) as [m|] eqn:Em.
  2: { eexists _, _. split; [done|]. cbn. rewrite set_memory_none by done. apply (isolated_waits _ _ _ i x); auto.
       intros ops Ho. eapply session_waits; [by apply (iso_sessions _ _ _ Hiso i x ops)|by apply Hops|].
       intros ? ? ? ? ? [= <- <- <- <- <-]. rewrite Em. by rewrite bool_decide_false by by intros [? ?]. }
  destruct (memory_settled opss vals s i x key m Hiso Hx Hp Hk Em) as (vm & Hm & Hvm' & Ek).
  destruct (tier_put_ok vm now m key v opts Hm Hvm) as (st & m' & -> & Hst & Hm'). cbn [mbind outcome_bind].
  eexists _, _. split; [done|]. rewrite Hst. destruct (@tier_accepts MT key v) eqn:Ea; cbn [negb].
  - apply (isolated_memory opss vals s i x _ m m' vm (<[key := v]> vm)); auto.
    + intros k Hne. apply lookup_insert_ne. congruence.
    + intros k _ Ev. unfold own_expect in *. cbn [ss_pending]. rewrite Hp in Ev.
      case_decide as E; [by rewrite E, lookup_insert_eq|by rewrite lookup_insert_ne].
    + intros ops Ho. eapply session_waits; [by apply (iso_sessions _ _ _ Hiso i x ops)|by apply Hops|].
      intros ? ? ? ? ? [= <- <- <- <- <-]. by split.
  - apply (isolated_memory opss vals s i x _ m m' vm vm); auto; [intros k _ ->; unfold own_expect; by rewrite Hp|].
    assert (accepts key v = false) as Hacc'.
    { rewrite <- (iso_accepts _ _ _ Hiso key v). unfold co_accepts. by rewrite Em. }
    intros ops Ho. assert (vals = co_vals_step accepts vals (CPut now key v opts)) as Ev by (cbn; by rewrite Hacc').
    rewrite Ev at 1. apply (session_answered (sn_co s)); auto; [by apply (iso_sessions _ _ _ Hiso i x)|]. cbn. by rewrite Hst, Hacc'.
Qed.

Lemma first_remove_ok opss vals s i x key opts todo :
  isolated opss vals s -> sn_sessions s !! i = Some x -> ss_pending x = None ->
  (forall ops, opss !! i = Some ops -> (ss_trace x).*1 ++ CRemove key opts :: todo = ops) ->
  co_op_ok MT DT (CRemove key opts) -> owner key = i ->
  exists p co1, co_first (sn_co s) (CRemove key opts) = Done (inr p, co1) /\
    isolated opss vals (mkSessions co1 (<[i := mkSession todo (Some p) (ss_trace x)]> (sn_sessions s))).
Proof.
  intros Hiso Hx Hp Hops [Hfm Hfd] Hk. cbn [co_first]. unfold remove_tier. rewrite Hfm.
  assert (forall co1 ops, opss !! i = Some ops -> session_ok co1 vals ops i (mkSession todo (Some (PRemove key opts)) (ss_trace x))) as Hw.
  { intros co1 ops Ho. eapply session_waits; [by apply (iso_sessions _ _ _ Hiso i x ops)|by apply Hops|done]. }
  destruct (co_memory _ _ _ (sn_co s)) as [m|] eqn:Em.
  2: { eexists _, _. split; [done|]. cbn. rewrite set_memory_none by done. apply (isolated_waits _ _ _ i x); auto. }
  destruct (memory_settled opss vals s i x key m Hiso Hx Hp Hk Em) as (vm & Hm & Hvm & Ek).
  destruct (tier_remove_ok vm m key opts Hm) as (st & m' & -> & Hm' & _). cbn [mbind outcome_bind].
  eexists _, _. split; [done|]. apply (isolated_memory opss vals s i x _ m m' vm (delete key vm)); auto.
  - intros k Hne. apply lookup_delete_ne. congruence.
  - intros k _ Ev. unfold own_expect in *. cbn [ss_pending]. rewrite Hp in Ev.
    case_decide as E; [by rewrite E, lookup_delete_eq|by rewrite lookup_delete_ne].
Qed.

(** The call under way ends at the disk. *)
Lemma isolated_commits opss vals s i x p res co1 :
  isolated opss vals s -> sn_sessions s !! i = Some x -> ss_pending x = Some p -> owner (op_key (pending_op p)) = i ->
  co_memory _ _ _ co1 = co_memory _ _ _ (sn_co s) -> co_cluster _ _ _ co1 = None -> same_tiers MT DT CL (sn_co s) co1 ->
  (forall d, co_disk _ _ _ co1 = Some d -> tier_inv (co_vals_step accepts vals (pending_op p)) d) ->
  (is_Some (co_memory _ _ _ co1) -> forall k, own_expect vals x k = co_vals_step accepts vals (pending_op p) !! k) ->
  co_answers_ok accepts vals [(pending_op p, res)] ->
  isolated opss (co_vals_step accepts vals (pending_op p))
    (mkSessions co1 (<[i := mkSession (ss_todo x) None (ss_trace x ++ [(pending_op p, res)])]> (sn_sessions s))).
Proof.
  intros Hiso Hx Hp Hk Em Hc Hsame Hd Hexp Ha. set (vals' := co_vals_step accepts vals (pending_op p)).
  assert (forall k, owner k <> i -> vals' !! k = vals !! k) as Hother by (intros k Hne; apply vals_step_other; congruence).
  apply (isolated_update opss vals vals' s i x); [exact Hiso|exact Hx|exact Hother| |exact Hd|exact Hc|exact Hsame|].
  - intros m Em1. rewrite Em1 in Em. destruct (iso_memory _ _ _ Hiso m (eq_sym Em)) as (vm & Hm & Hvm). exists vm. split; [done|].
    eapply expect_update; [exact Hvm|exact Hx|by intros k Hne; rewrite Hother|]. intros k _ ->. apply Hexp. by rewrite Em1.
  - intros ops Ho. pose proof (iso_sessions _ _ _ Hiso i x ops Hx Ho) as Hso.
    apply (session_answered (sn_co s)); [exact Hso| |exact Hk|exact Ha]. pose proof (so_ops _ _ _ _ _ Hso) as E. by rewrite Hp in E.
Qed.

Lemma set_disk_none (co : Coord) : co_disk _ _ _ co = None -> set_disk _ _ _ co None = co.
Proof. destruct co; cbn. by intros ->. Qed.

Lemma second_get_ok opss vals s i x now key opts :
  isolated opss vals s -> sn_sessions s !! i = Some x -> ss_pending x = Some (PGet now key opts) ->
  opts_ok opts -> owner key = i ->
  exists res co1, co_second (sn_co s) (PGet now key opts) = Done (res, co1) /\
    isolated opss vals (mkSessions co1 (<[i := mkSession (ss_todo x) None (ss_trace x ++ [(CGet now key opts, res)])]> (sn_sessions s))).
Proof.
  intros Hiso Hx Hp Hopts Hk. cbn [co_second]. unfold get_disk. pose proof (iso_alone _ _ _ Hiso) as Hc.
  assert (forall k, own_expect vals x k = vals !! k) as Hexp by (intros k; unfold own_expect; by rewrite Hp).
  assert (forall k : CacheKey, vals !! k = None -> ReadResult_default = ReadResult_default) as Hdef by done.
  destruct (co_disk _ _ _ (sn_co s)) as [d|] eqn:Ed.
  - destruct (tier_get_ok vals now d key opts (iso_disk _ _ _ Hiso d Ed) Hopts) as (r & d' & -> & Hd' & Hhit & Hmiss).
    cbn [mbind outcome_bind]. destruct (settles opts r) eqn:Es.
    + eexists _, _. split; [done|]. apply (isolated_commits opss vals s i x (PGet now key opts)); try done;
      first [by apply (same_with_disk _ d)|by intros ? [= <-]].
    + cbn. rewrite Hc, bool_decide_false by by intros [? ?]. cbn [andb]. eexists _, _. split; [done|].
      apply (isolated_commits opss vals s i x (PGet now key opts)); try done;
      first [by apply (same_with_disk _ d)|by intros ? [= <-]].
  - cbn [mbind outcome_bind]. rewrite Hc, bool_decide_false by by intros [? ?]. cbn [andb]. eexists _, _. split; [done|].
    apply (isolated_commits opss vals s i x (PGet now key opts)); try done. intros d Ed'. congruence.
Qed.

Lemma second_put_ok opss vals s i x now key v opts w :
  isolated opss vals s -> sn_sessions s !! i = Some x -> ss_pending x = Some (PPut now key v opts w) ->
  co_op_ok MT DT (CPut now key v opts) -> owner key = i -> is_Some (opss !! i) ->
  exists res co1, co_second (sn_co s) (PPut now key v opts w) = Done (res, co1) /\
    isolated opss (co_vals_step accepts vals (CPut now key v opts))
      (mkSessions co1 (<[i := mkSession (ss_todo x) None (ss_trace x ++ [(CPut now key v opts, res)])]> (sn_sessions s))).
Proof.
  intros Hiso Hx Hp ([_ Hvd] & _ & Hnd) Hk [ops Ho]. cbn [co_second]. unfold put_tier. rewrite Hnd. pose proof (iso_alone _ _ _ Hiso) as Hc.
  destruct (so_put _ _ _ _ _ (iso_sessions _ _ _ Hiso i x ops Hx Ho) _ _ _ _ _ Hp) as [Hw Hwa].
  pose proof (iso_accepts _ _ _ Hiso key v) as Hac. unfold co_accepts in Hac.
  assert (is_Some (co_memory _ _ _ (sn_co s)) -> accepts key v = true /\ w = true /\ @tier_accepts DT key v = true) as Hmem.
  { intros [m Em]. rewrite Em in *. rewrite bool_decide_true in Hw by done. specialize (Hwa Hw). split_and!; [congruence|done|by apply Hacc]. }
  assert (is_Some (co_memory _ _ _ (sn_co s)) -> forall k, own_expect vals x k = co_vals_step accepts vals (CPut now key v opts) !! k) as Hexp.
  { intros Hs k. destruct (Hmem Hs) as (Ha & _). cbn. rewrite Ha. unfold own_expect. rewrite Hp.
    case_decide as E; [by rewrite E, lookup_insert_eq|by rewrite lookup_insert_ne]. }
  destruct (co_disk _ _ _ (sn_co s)) as [d|] eqn:Ed.
  - destruct (tier_put_ok vals now d key v opts (iso_disk _ _ _ Hiso d Ed) Hvd) as (st & d' & -> & Hst & Hd'). cbn [mbind outcome_bind].
    assert (accepts key v = @tier_accepts DT key v) as Hacd.
    { destruct (co_memory _ _ _ (sn_co s)); [|done]. destruct (Hmem ltac:(eauto)) as (-> & _ & ->). done. }
    rewrite Hst. destruct (@tier_accepts DT key v) eqn:Ea; cbn [negb set_disk co_cluster]; [rewrite Hc; cbn [mbind outcome_bind]; rewrite orb_true_r|];
      (eexists _, _; split; [done|]);
      (apply (isolated_commits opss vals s i x (PPut now key v opts w)); try done; try by apply (same_with_disk _ d));
      cbn; rewrite Hacd; try done; by intros ? [= <-].
  - cbn [mbind outcome_bind]. change (negb (is_ok make_ok)) with false. cbv iota. rewrite set_disk_none, Hc by done. cbn [mbind outcome_bind].
    rewrite orb_false_r. eexists _, _. split; [done|]. apply (isolated_commits opss vals s i x (PPut now key v opts w)); try done.
    + intros d Ed'. congruence.
    + destruct (co_memory _ _ _ (sn_co s)) as [m|]; [destruct (Hmem ltac:(eauto)) as (Ha & -> & _); cbn; by rewrite Ha|].
      rewrite bool_decide_false in Hw by by intros [? ?]. cbn. by rewrite Hw, <- Hac.
Qed.

Lemma second_remove_ok opss vals s i x key opts :
  isolated opss vals s -> sn_sessions s !! i = Some x -> ss_pending x = Some (PRemove key opts) ->
  co_op_ok MT DT (CRemove key opts) -> owner key = i ->
  exists res co1, co_second (sn_co s) (PRemove key opts) = Done (res, co1) /\
    isolated opss (delete key vals)
      (mkSessions co1 (<[i := mkSession (ss_todo x) None (ss_trace x ++ [(CRemove key opts, res)])]> (sn_sessions s))).
Proof.
  intros Hiso Hx Hp [_ Hfd] Hk. cbn [co_second]. unfold remove_tier. rewrite Hfd. pose proof (iso_alone _ _ _ Hiso) as Hc.
  assert (forall k, own_expect vals x k = delete key vals !! k) as Hexp.
  { intros k. unfold own_expect. rewrite Hp. case_decide as E; [by rewrite E, lookup_delete_eq|by rewrite lookup_delete_ne]. }
  destruct (co_disk _ _ _ (sn_co s)) as [d|] eqn:Ed.
  - destruct (tier_remove_ok vals d key opts (iso_disk _ _ _ Hiso d Ed)) as (st & d' & -> & Hd' & _). cbn. rewrite Hc.
    eexists _, _. split; [done|]. apply (isolated_commits opss vals s i x (PRemove key opts)); try done;
      first [by apply (same_with_disk _ d)|by intros ? [= <-]].
  - cbn. rewrite Hc. eexists _, _. split; [done|]. rewrite set_disk_none by done.
    apply (isolated_commits opss vals s i x (PRemove key opts)); try done. intros d Ed'. congruence.
Qed.

Lemma session_step_ok opss vals s i x ops :
  isolated opss vals s -> sn_sessions s !! i = Some x -> opss !! i = Some ops -> own_ops i ops ->
  exists vals' co1 x1, session_step (sn_co s) x = Done (co1, x1) /\
    isolated opss vals' (mkSessions co1 (<[i := x1]> (sn_sessions s))).
Proof.
  intros Hiso Hx Ho Hown. pose proof (so_ops _ _ _ _ _ (iso_sessions _ _ _ Hiso i x ops Hx Ho)) as Hops.
  unfold session_step. destruct (ss_pending x) as [p|] eqn:Ep.
  - assert (co_op_ok MT DT (pending_op p) /\ owner (op_key (pending_op p)) = i) as [Hok Hk].
    { unfold own_ops in Hown. rewrite <- Hops in Hown. cbn in Hown. by apply Forall_app in Hown as [_ [? _]%Forall_cons]. }
    exists (co_vals_step accepts vals (pending_op p)). destruct p as [now key opts|now key v opts w|key opts]; cbn [pending_op op_key] in *.
    + destruct (second_get_ok opss vals s i x now key opts Hiso Hx Ep Hok Hk) as (res & co1 & -> & Hiso1). by eexists _, _.
    + destruct (second_put_ok opss vals s i x now key v opts w Hiso Hx Ep Hok Hk ltac:(eauto)) as (res & co1 & -> & Hiso1). by eexists _, _.
    + destruct (second_remove_ok opss vals s i x key opts Hiso Hx Ep Hok Hk) as (res & co1 & -> & Hiso1). by eexists _, _.
  - exists vals. destruct (ss_todo x) as [|op todo] eqn:Et.
    { exists (sn_co s), x. split; [done|]. rewrite list_insert_id by done. by destruct s. }
    assert (co_op_ok MT DT op /\ owner (op_key op) = i) as [Hok Hk].
    { unfold own_ops in Hown. rewrite <- Hops in Hown. cbn in Hown. by apply Forall_app in Hown as [_ [? _]%Forall_cons]. }
    assert (forall ops', opss !! i = Some ops' -> (ss_trace x).*1 ++ op :: todo = ops') as Hops'.
    { intros ops' Ho'. rewrite Ho in Ho'. by injection Ho' as <-. }
    destruct op as [now key opts|now key v opts|key opts]; cbn [op_key] in *.
    + destruct (first_get_ok opss vals s i x now key opts todo Hiso Hx Ep Hops' Hok Hk) as (r & co1 & -> & Hiso1). by eexists _, _.
    + destruct (first_put_ok opss vals s i x now key v opts todo Hiso Hx Ep Hops' Hok Hk) as (r & co1 & -> & Hiso1). by eexists _, _.
    + destruct (first_remove_ok opss vals s i x key opts todo Hiso Hx Ep Hops' Hok Hk) as (r & co1 & -> & Hiso1). by eexists _, _.
Qed.

(** The steps a session has before it. *)
Definition steps_left (x : Session) : nat := length (option_list (ss_pending x)) + 2 * length (ss_todo x).

Lemma session_step_left co x co1 x1 : session_step co x = Done (co1, x1) -> (steps_left x1 <= steps_left x - 1)%nat.
Proof.
  unfold session_step, steps_left. destruct (ss_pending x) as [p|] eqn:Ep.
  - intros E. apply outcome_bind_Done in E as ([res co2] & _ & [= <- <-]). cbn. lia.
  - destruct (ss_todo x) as [|op todo] eqn:Et; [intros [= <- <-]; rewrite Ep, Et; cbn; lia|].
    intros E. apply outcome_bind_Done in E as ([r co2] & _ & [= <- <-]). destruct r; cbn; lia.
Qed.

Definition turns_of (i : nat) (sched : list nat) : nat := length (filter (eq i) sched).

Lemma run_sessions_ok opss : (forall i ops, opss !! i = Some ops -> own_ops i ops) -> forall sched vals s, isolated opss vals s ->
  exists vals' s', run_sessions sched s = Done s' /\ isolated opss vals' s' /\
    forall i x x', sn_sessions s !! i = Some x -> sn_sessions s' !! i = Some x' -> (steps_left x' <= steps_left x - turns_of i sched)%nat.
Proof.
  intros Hown sched. induction sched as [|j sched IH]; intros vals s Hiso; cbn [run_sessions].
  { exists vals, s. split_and!; [done..|]. intros i x x' Hx Hx'. rewrite Hx in Hx'. injection Hx' as <-. cbn. lia. }
  unfold sessions_step. destruct (sn_sessions s !! j) as [y|] eqn:Ey.
  - destruct (opss !! j) as [ops|] eqn:Ho.
    2: { apply lookup_ge_None in Ho. apply lookup_lt_Some in Ey. rewrite (iso_count _ _ _ Hiso) in Ey. lia. }
    destruct (session_step_ok opss vals s j y ops Hiso Ey Ho (Hown j ops Ho)) as (vals1 & co1 & y1 & E & Hiso1). rewrite E. cbn [mbind outcome_bind].
    destruct (IH vals1 _ Hiso1) as (vals' & s' & -> & Hiso' & Hleft). exists vals', s'. split_and!; [done..|].
    intros i x x' Hx Hx'. unfold turns_of. rewrite filter_cons. destruct (decide (i = j)) as [->|Hne].
    + rewrite Ey in Hx. injection Hx as <-. apply session_step_left in E. cbn [length].
      specialize (Hleft j y1 x'). cbn in Hleft. rewrite list_lookup_insert_eq in Hleft by by eapply lookup_lt_Some.
      specialize (Hleft eq_refl Hx'). unfold turns_of in Hleft. lia.
    + apply (Hleft i x x'); [|done]. cbn. by rewrite list_lookup_insert_ne.
  - cbn [mbind outcome_bind]. destruct (IH vals s Hiso) as (vals' & s' & -> & Hiso' & Hleft). exists vals', s'. split_and!; [done..|].
    intros i x x' Hx Hx'. unfold turns_of. rewrite filter_cons. case_decide as E; [congruence|]. by apply Hleft.
Qed.

Lemma isolated_start opss co :
  co_inv MT DT CL vals0 co -> (forall key v, co_accepts MT DT CL co key v = accepts key v) ->
  isolated opss vals0 (mkSessions co (session_of <$> opss)).
Proof.
  intros [Hm Hd Hc] Hac. split; cbn [sn_co sn_sessions].
  - intros m Em. exists vals0. split; [auto|]. intros k. unfold expect. rewrite list_lookup_fmap. by destruct (opss !! owner k).
  - done.
  - done.
  - done.
  - apply length_fmap.
  - intros i x ops Hx Ho. rewrite list_lookup_fmap, Ho in Hx. injection Hx as <-. by split.
Qed.

End isolation.

(** ** Properties *)

(** The two steps of an operation, one right after the other, are the operation. *)
Theorem ct_alone co op : co_both co op = co_step MT DT CL cfg co op.
Proof. apply co_both_step. Qed.

(** C9: clients do not disturb each other. Any number of sessions, each with keys of its own, interleaved in
    any way between the calls of the two tiers: every step succeeds, each session is answered as if it were
    alone with one map of values (a hit carries what it last put, a removed key is a miss), its calls are
    made in order, and after two turns per call it has all its answers. *)
Theorem ct_isolated opss owner accepts vals co sched :
  (forall key v, @tier_accepts MT key v = true -> @tier_accepts DT key v = true) ->
  (forall key v, co_accepts MT DT CL co key v = accepts key v) -> co_inv MT DT CL vals co ->
  (forall i ops, opss !! i = Some ops -> own_ops owner i ops) ->
  exists s, run_sessions sched (mkSessions co (session_of <$> opss)) = Done s /\
    forall i ops, opss !! i = Some ops -> exists x, sn_sessions s !! i = Some x /\
      co_answers_ok accepts vals (ss_trace x) /\ (ss_trace x).*1 `prefix_of` ops /\
      ((2 * length ops <= turns_of i sched)%nat -> (ss_trace x).*1 = ops).
Proof.
  intros Hacc Hac Hinv Hown. pose proof (isolated_start accepts vals owner opss co Hinv Hac) as Hiso.
  destruct (run_sessions_ok accepts vals owner Hacc opss Hown sched vals _ Hiso) as (vals' & s & E & Hiso' & Hleft).
  exists s. split; [done|]. intros i ops Ho. destruct (sn_sessions s !! i) as [x|] eqn:Ex.
  2: { apply lookup_ge_None in Ex. apply lookup_lt_Some in Ho. rewrite (iso_count _ _ _ _ _ _ Hiso') in Ex. lia. }
  destruct (iso_sessions _ _ _ _ _ _ Hiso' i x ops Ex Ho) as [Hops Hans _ _]. exists x. split_and!; [done|done| |].
  - rewrite <- Hops. by eexists.
  - intros Hn. specialize (Hleft i (session_of ops) x). cbn [sn_sessions] in Hleft. rewrite list_lookup_fmap, Ho in Hleft.
    specialize (Hleft eq_refl Ex). unfold steps_left in Hleft. cbn in Hleft.
    destruct (ss_pending x); [cbn in Hleft; lia|]. destruct (ss_todo x); [|cbn in *; lia]. cbn in Hops. by rewrite app_nil_r in Hops.
Qed.

(** Two puts of one key can leave the tiers with different values. When the second overtakes the first
    between the tiers, both report success, and from then on memory answers with the second value and the
    disk with the first: what a read returns depends on what memory has evicted. *)
Theorem ct_puts_diverge vals co m d now1 now2 key v1 v2 opts1 opts2 :
  co_inv MT DT CL vals co -> co_memory _ _ _ co = Some m -> co_disk _ _ _ co = Some d ->
  co_op_ok MT DT (CPut now1 key v1 opts1) -> co_op_ok MT DT (CPut now2 key v2 opts2) ->
  (forall v, v ∈ [v1; v2] -> @tier_accepts MT key v = true /\ @tier_accepts DT key v = true) ->
  exists co1 m1 d1 st1 st2, run_sessions [0; 1; 1; 0]%nat (mkSessions co (session_of <$> [[CPut now1 key v1 opts1]; [CPut now2 key v2 opts2]])) =
      Done (mkSessions co1 [mkSession [] None [(CPut now1 key v1 opts1, MStatus st1)]; mkSession [] None [(CPut now2 key v2 opts2, MStatus st2)]]) /\
    is_ok st1 = true /\ is_ok st2 = true /\ co1 = mkCoordinator MT DT CL (Some m1) (Some d1) None /\
    tier_inv (<[key := v2]> vals) m1 /\ tier_inv (<[key := v1]> vals) d1.
Proof.
  intros [Hm Hd Hc] Em Ed ([Hv1m Hv1d] & Hn1 & Hn1') ([Hv2m Hv2d] & Hn2 & Hn2') Hacc. destruct co as [m0 d0 cl]. cbn in Em, Ed, Hc. subst.
  destruct (Hacc v1) as [A1 B1]; [set_solver|]. destruct (Hacc v2) as [A2 B2]; [set_solver|].
  destruct (tier_put_ok vals now1 m key v1 opts1 (Hm m eq_refl) Hv1m) as (s1 & m1 & E1 & S1 & I1). rewrite A1 in *.
  destruct (tier_put_ok _ now2 m1 key v2 opts2 I1 Hv2m) as (s2 & m2 & E2 & S2 & I2). rewrite A2, insert_insert_eq in *.
  destruct (tier_put_ok vals now2 d key v2 opts2 (Hd d eq_refl) Hv2d) as (s3 & d1 & E3 & S3 & J1). rewrite B2 in *.
  destruct (tier_put_ok _ now1 d1 key v1 opts1 J1 Hv1d) as (s4 & d2 & E4 & S4 & J2). rewrite B1, insert_insert_eq in *.
  exists (mkCoordinator MT DT CL (Some m2) (Some d2) None), m2, d2, make_ok, make_ok. split_and!; try done.
  cbn. rewrite Hn1, E1. cbn. rewrite S1. cbn. rewrite Hn2, E2. cbn. rewrite S2. cbn. rewrite Hn2', E3. cbn. rewrite S3. cbn.
  rewrite Hn1', E4. cbn. by rewrite S4.
Qed.

End coordinator_threads.

(** ** Witnesses *)

#[local] Existing Instance fnv_hasher.

(** Two clients, one key each. *)
Definition sample_sessions : list (list co_op) :=
  [[CPut 1 (sample_key "a") sample_value WriteOptions_default; CGet 2 (sample_key "a") ReadOptions_default];
   [CPut 1 (sample_key "b") sample_value WriteOptions_default; CRemove (sample_key "b") DeleteOptions_default]].

Definition sample_owner (k : CacheKey) : nat := if decide (k = sample_key "a") then 0 else 1.

Lemma ct_isolated_witness :
  exists s, run_sessions mem dsk link co_cfg [0; 1; 0; 1; 1; 0; 0; 1]%nat (mkSessions mem dsk link co_sample (session_of <$> sample_sessions)) = Done s /\
    forall i ops, sample_sessions !! i = Some ops -> exists x, sn_sessions _ _ _ s !! i = Some x /\
      co_answers_ok put_accepted ∅ (ss_trace x) /\ (ss_trace x).*1 = ops.
Proof.
  destruct (ct_isolated mem dsk link co_cfg sample_sessions sample_owner put_accepted ∅ co_sample [0; 1; 0; 1; 1; 0; 0; 1]%nat)
    as (s & E & H).
  - exact mem_dsk_accepts.
  - reflexivity.
  - exact co_sample_inv.
  - intros i ops Hi. destruct i as [|[|i]]; [injection Hi as <-|injection Hi as <-|discriminate];
      (constructor; [split; [|by vm_compute]|constructor; [split; [|by vm_compute]|constructor]]); try done;
      (split; [split; [exact hello_pieces|split; [exact hello_pieces|by vm_compute]]|done]).
  - exists s. split; [exact E|]. intros i ops Hi. destruct (H i ops Hi) as (x & Hx & Ha & _ & Hd). exists x. split_and!; [done..|].
    apply Hd. destruct i as [|[|i]]; [injection Hi as <-|injection Hi as <-|discriminate]; by vm_compute.
Defined.

Lemma ct_puts_diverge_witness :
  exists co1 m1 d1 st1 st2, run_sessions mem dsk link co_cfg [0; 1; 1; 0]%nat (mkSessions mem dsk link co_sample (session_of <$>
      [[CPut 1 (sample_key "a") (str "hello") WriteOptions_default]; [CPut 2 (sample_key "a") (str "world") WriteOptions_default]])) =
      Done (mkSessions mem dsk link co1 [mkSession [] None [(CPut 1 (sample_key "a") (str "hello") WriteOptions_default, MStatus st1)];
        mkSession [] None [(CPut 2 (sample_key "a") (str "world") WriteOptions_default, MStatus st2)]]) /\
    is_ok st1 = true /\ is_ok st2 = true /\ co1 = mkCoordinator mem dsk link (Some m1) (Some d1) None /\
    @tier_inv mem {[sample_key "a" := str "world"]} m1 /\ @tier_inv dsk {[sample_key "a" := str "hello"]} d1.
Proof.
  apply (ct_puts_diverge mem dsk link co_cfg ∅ co_sample (mc_make 100) sample_dc 1 2 (sample_key "a") (str "hello") (str "world")).
  - exact co_sample_inv.
  - reflexivity.
  - reflexivity.
  - split; [split; [exact hello_pieces|split; [exact hello_pieces|by vm_compute]]|done].
  - split; [split; [exact world_pieces|split; [exact world_pieces|by vm_compute]]|done].
  - intros v Hv. repeat (apply elem_of_cons in Hv as [->|Hv]; [split; by vm_compute|]). by apply not_elem_of_nil in Hv.
Defined.
