(* ===== verification/HashRing.v ===== *)
(** * Consistent hashing: [HashRing] of [include/elcache/cluster.hpp] and [src/network/cluster.cpp]

    The ring is a [std::map] from points to nodes, here a list of pairs with increasing points; every
    node has [virtual_nodes_] points. [get_nodes] walks the ring from the hash of a key. The walk is a
    loop with fuel: [Spin] is a walk that does not end, which the theorems exclude when every node
    keeps a point on the ring, and exhibit when one does not. *)

From S2P Require Import Prelude CStd CDouble Types.
From Stdlib Require Import Sorted.
Open Scope Z_scope.

Record HashRing := mkRing {
  virtual_nodes_ : Z;
  ring_ : list (Z * NodeId);
  nodes_ : gset Z
}.

Definition HashRing_make (virtual_nodes : Z) : HashRing := mkRing virtual_nodes [] ∅.

(** [combined ^= combined >> 33]. *)
Definition xorshift33 (x : Z) : Z := Z.lxor x (Z.shiftr x 33).

Definition mix (combined : Z) : Z :=
  let combined := xorshift33 combined in
  let combined := combined *w 0xff51afd7ed558ccd in
  let combined := xorshift33 combined in
  let combined := combined *w 0xc4ceb9fe1a85ec53 in
  xorshift33 combined.

Definition hash_point (id : NodeId) (replica : Z) : Z :=
  let combined := Z.lxor id (replica *w golden) in
  mix combined.

(** [ring_[point] = id] of a [std::map]: replace or insert in order. *)
Fixpoint ring_put (point : Z) (id : NodeId) (r : list (Z * NodeId)) : list (Z * NodeId) :=
  match r with
  | [] => [(point, id)]
  | (p, n) :: r' =>
      if point <? p then (point, id) :: r
      else if point =? p then (point, id) :: r'
      else (p, n) :: ring_put point id r'
  end.

(** [ring_.erase(point)]. *)
Definition ring_del (point : Z) (r : list (Z * NodeId)) : list (Z * NodeId) :=
  filter (fun e => e.1 <> point) r.

(** The loop [for (i = 0; i < virtual_nodes_; ++i)]. *)
Definition replicas (h : HashRing) : list Z := seqZ 0 (virtual_nodes_ h).

Definition add_node (h : HashRing) (id : NodeId) : HashRing :=
  if bool_decide (id ∈ nodes_ h) then h
  else mkRing (virtual_nodes_ h)
              (foldl (fun r i => ring_put (hash_point id i) id r) (ring_ h) (replicas h))
              ({[id]} ∪ nodes_ h).

Definition remove_node (h : HashRing) (id : NodeId) : HashRing :=
  if bool_decide (id ∈ nodes_ h) then
    mkRing (virtual_nodes_ h)
           (foldl (fun r i => ring_del (hash_point id i) r) (ring_ h) (replicas h))
           (nodes_ h ∖ {[id]})
  else h.

(** [ring_.lower_bound(hash)]: the index of the first point not below [hash]. *)
Fixpoint lower_bound (hash : Z) (r : list (Z * NodeId)) : nat :=
  match r with
  | [] => 0
  | (p, _) :: r' => if p <? hash then S (lower_bound hash r') else 0
  end.

(** The walk: the iterator as an index (the length of the ring is [end()]), [result] and [seen]. *)
Definition walk_step (h : HashRing) (count : Z) (s : nat * list NodeId * gset Z)
  : (nat * list NodeId * gset Z) + outcome (list NodeId) :=
  let '(it, result, seen) := s in
  if size_of result <? count then
    let it := if bool_decide (it = length (ring_ h)) then 0%nat else it in
    match ring_ h !! it with
    | None => inr Undef
    | Some (_, n) =>
        let '(result, seen) := if bool_decide (n ∈ seen) then (result, seen)
                               else (result ++ [n], {[n]} ∪ seen) in
        if Z.of_nat (size (nodes_ h)) <=? Z.of_nat (size seen) then inr (Done result)
        else inl (S it, result, seen)
    end
  else inr (Done result).

(** The number of nodes [get_nodes] looks for. *)
Definition walk_count (h : HashRing) (count : Z) : Z :=
  let count := Z.min count (Z.of_nat (size (nodes_ h))) in
  if count =? 0 then 1 else count.

(** One turn of the ring is enough for a walk that ends; the fuel is one turn and a step. *)
Definition walk (h : HashRing) (hash count : Z) : outcome (list NodeId) :=
  default Spin (loop (S (length (ring_ h))) (walk_step h (walk_count h count))
                     (lower_bound hash (ring_ h), [], ∅)).

Definition get_nodes_at (h : HashRing) (hash count : Z) : outcome (list NodeId) :=
  if bool_decide (ring_ h = []) then Done [] else walk h hash count.

Definition get_nodes_key (h : HashRing) (key : CacheKey) (count : Z) : outcome (list NodeId) :=
  get_nodes_at h (key_hash key) count.

Definition get_nodes_chunk (h : HashRing) (chunk : ChunkId) (count : Z) : outcome (list NodeId) :=
  get_nodes_at h (low chunk) count.

Definition is_responsible (h : HashRing) (node : NodeId) (key : CacheKey) : outcome bool :=
  nodes ← get_nodes_key h key 1;
  Done (match nodes with n :: _ => n =? node | [] => false end).

Definition node_count (h : HashRing) : Z := Z.of_nat (size (nodes_ h)).

(** ** The points of a node *)

(** [x ^= x >> 33] undoes itself on 64-bit words, as twice 33 is more than 64. *)
Lemma xorshift33_involutive x : is_u64 x -> xorshift33 (xorshift33 x) = x.
Proof.
  intros [Hx0 Hx]. unfold xorshift33. rewrite Z.shiftr_lxor, Z.shiftr_shiftr by lia.
  assert (Z.shiftr x (33 + 33) = 0) as ->.
  { rewrite Z.shiftr_div_pow2 by lia. apply Z.div_small. lia. }
  rewrite Z.lxor_0_r, Z.lxor_assoc, Z.lxor_nilpotent. apply Z.lxor_0_r.
Qed.

Lemma xorshift33_u64 x : is_u64 x -> is_u64 (xorshift33 x).
Proof.
  intros Hx. apply is_u64_lxor; [done|]. destruct Hx as [? ?]. rewrite Z.shiftr_div_pow2 by lia.
  split; [apply Z.div_pos; lia|]. apply Z.le_lt_trans with x; [|lia]. apply Z.div_le_upper_bound; lia.
Qed.

(** Multiplication by a constant with an inverse modulo 2^64. *)
Lemma mul_inverse a inv x : u64 (a * inv) = 1 -> is_u64 x -> (x *w a) *w inv = x.
Proof.
  intros Hi Hx. unfold u64 in *. rewrite Zmult_mod_idemp_l, <- Z.mul_assoc, <- Zmult_mod_idemp_r, Hi, Z.mul_1_r.
  by apply Z.mod_small.
Qed.

(** The inverse of [mix]. *)
Definition unmix (y : Z) : Z :=
  let y := xorshift33 y in
  let y := y *w 0x9cb4b2f8129337db in
  let y := xorshift33 y in
  let y := y *w 0x4f74430c22a54005 in
  xorshift33 y.

Lemma unmix_mix x : is_u64 x -> unmix (mix x) = x.
Proof.
  intros Hx. unfold unmix, mix. pose proof (xorshift33_u64 x Hx).
  rewrite (xorshift33_involutive (_ *w _)) by apply u64_range.
  rewrite (mul_inverse 0xc4ceb9fe1a85ec53) by (done || apply xorshift33_u64, u64_range).
  rewrite xorshift33_involutive by apply u64_range.
  rewrite (mul_inverse 0xff51afd7ed558ccd) by done. by apply xorshift33_involutive.
Qed.

Lemma hash_point_inj id r id' r' :
  is_u64 id -> is_u64 id' -> hash_point id r = hash_point id' r' ->
  Z.lxor id (r *w golden) = Z.lxor id' (r' *w golden).
Proof.
  intros Hi Hi' E. unfold hash_point in E. apply (f_equal unmix) in E.
  by rewrite !unmix_mix in E by (apply is_u64_lxor; [done|apply u64_range]).
Qed.

Lemma lxor_swap a b x y : Z.lxor a x = Z.lxor b y <-> Z.lxor a b = Z.lxor x y.
Proof.
  rewrite <- (Z.lxor_eq_0_iff (Z.lxor a x)), <- (Z.lxor_eq_0_iff (Z.lxor a b)).
  replace (Z.lxor (Z.lxor a x) (Z.lxor b y)) with (Z.lxor (Z.lxor a b) (Z.lxor x y)); [done|].
  apply Z.bits_inj'. intros n _. rewrite !Z.lxor_spec.
  by destruct (Z.testbit a n), (Z.testbit b n), (Z.testbit x n), (Z.testbit y n).
Qed.

Lemma golden_mul_inj r r' : is_u64 r -> is_u64 r' -> r *w golden = r' *w golden -> r = r'.
Proof.
  intros Hr Hr' E. apply (f_equal (fun z => z *w 0xf1de83e19937733d)) in E.
  by rewrite !mul_inverse in E.
Qed.

(** ** The walk *)

(** The distinct elements of a list in the order of their first occurrence. *)
Definition push_unique (acc : list Z) (n : Z) : list Z := if bool_decide (n ∈ acc) then acc else acc ++ [n].
Definition uniq (l : list Z) : list Z := foldl push_unique [] l.

Lemma uniq_snoc l n : uniq (l ++ [n]) = push_unique (uniq l) n.
Proof. apply foldl_snoc. Qed.

Lemma elem_of_uniq l n : n ∈ uniq l <-> n ∈ l.
Proof.
  induction l as [|m l IH] using rev_ind; [done|]. rewrite uniq_snoc, elem_of_app, list_elem_of_singleton.
  unfold push_unique. case_bool_decide as Hm.
  - rewrite IH. split; [tauto|]. intros [?| ->]; [done|]. by apply IH.
  - rewrite elem_of_app, list_elem_of_singleton, IH. done.
Qed.

Lemma NoDup_uniq l : NoDup (uniq l).
Proof.
  induction l as [|m l IH] using rev_ind; [constructor|]. rewrite uniq_snoc. unfold push_unique.
  case_bool_decide as Hm; [done|]. apply NoDup_app. split; [done|]. split; [|by apply NoDup_singleton].
  intros x Hx E. apply list_elem_of_singleton in E. congruence.
Qed.

(** Reading on only appends. *)
Lemma uniq_prefix l k : uniq l `prefix_of` uniq (l ++ k).
Proof.
  induction k as [|m k IH] using rev_ind; [by rewrite app_nil_r|].
  rewrite app_assoc, uniq_snoc. unfold push_unique. case_bool_decide; [done|].
  etransitivity; [exact IH|]. by apply prefix_app_r.
Qed.

Lemma list_to_set_size (l : list Z) : NoDup l -> size (list_to_set l : gset Z) = length l.
Proof.
  induction 1 as [|x l Hx Hnd IH]; simpl; [done|].
  rewrite size_union, size_singleton, IH by (apply disjoint_singleton_l; by rewrite elem_of_list_to_set). done.
Qed.

(** The nodes met from the hash on, around the ring. *)
Definition around (r : list (Z * NodeId)) (hash : Z) : list NodeId :=
  (drop (lower_bound hash r) r ++ take (lower_bound hash r) r).*2.

Lemma lower_bound_le hash r : (lower_bound hash r <= length r)%nat.
Proof. induction r as [|[p n] r IH]; simpl; [done|]. destruct (p <? hash); lia. Qed.

Lemma around_length r hash : length (around r hash) = length r.
Proof.
  unfold around. rewrite length_fmap, length_app, length_drop, length_take.
  pose proof (lower_bound_le hash r). lia.
Qed.

(** The iterator after [j] steps. *)
Definition iter_at (r : list (Z * NodeId)) (hash : Z) (j : nat) : nat :=
  let i := (lower_bound hash r + j)%nat in if (i <=? length r)%nat then i else (i - length r)%nat.

Lemma around_lookup r hash j n :
  around r hash !! j = Some n ->
  exists p, r !! (if bool_decide (iter_at r hash j = length r) then 0%nat else iter_at r hash j) = Some (p, n) /\
    iter_at r hash (S j) = S (if bool_decide (iter_at r hash j = length r) then 0%nat else iter_at r hash j).
Proof.
  intros Hj. pose proof (lookup_lt_Some _ _ _ Hj) as Hlt. rewrite around_length in Hlt.
  unfold around in Hj. apply list_lookup_fmap_Some in Hj as ([p m] & -> & Hj). exists p. simpl.
  pose proof (lower_bound_le hash r) as Hle. unfold iter_at. set (i := lower_bound hash r) in *.
  apply lookup_app_Some in Hj as [Hj|[Hge Hj]].
  - rewrite lookup_drop in Hj. pose proof (lookup_lt_Some _ _ _ Hj).
    destruct (Nat.leb_spec (i + j) (length r)); [|lia]. rewrite bool_decide_eq_false_2 by lia.
    split; [done|]. destruct (Nat.leb_spec (i + S j) (length r)); lia.
  - rewrite length_drop in *. apply lookup_take_Some in Hj as [Hj Hji].
    destruct (Nat.leb_spec (i + j) (length r)).
    + rewrite bool_decide_eq_true_2 by lia. replace (j - (length r - i))%nat with 0%nat in Hj by lia.
      split; [done|]. destruct (Nat.leb_spec (i + S j) (length r)); lia.
    + rewrite bool_decide_eq_false_2 by lia. split; [rewrite <- Hj; f_equal; lia|].
      destruct (Nat.leb_spec (i + S j) (length r)); lia.
Qed.

(** The state of the walk after [j] steps. *)
Definition walk_state (h : HashRing) (hash : Z) (j : nat) : nat * list NodeId * gset Z :=
  let result := uniq (take j (around (ring_ h) hash)) in
  (iter_at (ring_ h) hash j, result, list_to_set result).

(** Every node of the ring is a member, and every member has a point. *)
Definition covered_ring (h : HashRing) : Prop := forall n, n ∈ nodes_ h <-> n ∈ (ring_ h).*2.

Lemma elem_of_around r hash n : n ∈ around r hash <-> n ∈ r.*2.
Proof.
  assert (r.*2 = (take (lower_bound hash r) r).*2 ++ (drop (lower_bound hash r) r).*2) as ->
    by (by rewrite <- fmap_app, take_drop).
  unfold around. rewrite fmap_app, !elem_of_app. tauto.
Qed.

Lemma walk_step_around h hash count j n :
  around (ring_ h) hash !! j = Some n ->
  walk_step h count (walk_state h hash j) =
  if size_of (uniq (take j (around (ring_ h) hash))) <? count then
    if Z.of_nat (size (nodes_ h)) <=? size_of (uniq (take (S j) (around (ring_ h) hash)))
    then inr (Done (uniq (take (S j) (around (ring_ h) hash))))
    else inl (walk_state h hash (S j))
  else inr (Done (uniq (take j (around (ring_ h) hash)))).
Proof.
  intros Hj. destruct (around_lookup _ _ _ _ Hj) as (p & Hp & Hit). unfold walk_step, walk_state at 1.
  destruct (_ <? count); [|done]. rewrite Hp.
  pose proof (take_S_r _ _ _ Hj) as Ht. pose proof (uniq_snoc (take j (around (ring_ h) hash)) n) as Hu.
  rewrite <- Ht in Hu. unfold push_unique in Hu.
  rewrite (bool_decide_ext (n ∈ (list_to_set _ : gset Z)) (n ∈ uniq (take j (around (ring_ h) hash))))
    by (by rewrite elem_of_list_to_set).
  assert (forall l, Z.of_nat (size (list_to_set (uniq l) : gset Z)) = size_of (uniq l)) as Hsz.
  { intros l. unfold size_of. by rewrite list_to_set_size by apply NoDup_uniq. }
  case_bool_decide as Hin; rewrite Hu.
  - rewrite Hsz. destruct (_ <=? _); [done|].
    unfold walk_state. by rewrite Hit, Hu.
  - assert ({[n]} ∪ list_to_set (uniq (take j (around (ring_ h) hash))) =
            (list_to_set (uniq (take (S j) (around (ring_ h) hash))) : gset Z)) as Es.
    { rewrite Hu, list_to_set_app_L. simpl. set_solver. }
    rewrite Es, Hsz, Hu. destruct (_ <=? _); [done|]. unfold walk_state. by rewrite Hit, Hu.
Qed.

Lemma prefix_take {A} (l k : list A) n :
  l `prefix_of` k -> (length l = n \/ (length l <= n /\ length k <= length l))%nat -> take n k = l.
Proof.
  intros [m ->] Hn. rewrite length_app in Hn. destruct Hn as [<-|[Hle Hm]].
  - by rewrite take_app_length.
  - destruct m; [|simpl in Hm; lia]. rewrite app_nil_r. apply take_ge. lia.
Qed.

Lemma uniq_take_S l j n : l !! j = Some n -> size_of (uniq (take (S j) l)) <= size_of (uniq (take j l)) + 1.
Proof.
  intros Hj. rewrite (take_S_r _ _ _ Hj), uniq_snoc. unfold push_unique.
  case_bool_decide; rewrite ?size_of_app; [lia|]. rewrite size_of_cons, size_of_nil. lia.
Qed.

(** The members that own a point. *)
Definition point_owners (h : HashRing) : gset Z := list_to_set (ring_ h).*2.

Lemma point_owners_length h hash : length (uniq (around (ring_ h) hash)) = size (point_owners h).
Proof.
  rewrite <- list_to_set_size by apply NoDup_uniq. f_equal. apply set_eq. intros n.
  unfold point_owners. by rewrite !elem_of_list_to_set, elem_of_uniq, elem_of_around.
Qed.

(** From any point of the first turn on, the walk ends with the first [count] distinct nodes, when
    that many own points. *)
Lemma walk_from h hash count :
  point_owners h ⊆ nodes_ h -> 1 <= count <= Z.of_nat (size (point_owners h)) ->
  forall d j fuel, (j + d = length (ring_ h))%nat -> (d < fuel)%nat ->
  size_of (uniq (take j (around (ring_ h) hash))) <= count ->
  loop fuel (walk_step h count) (walk_state h hash j)
  = Some (Done (take (Z.to_nat count) (uniq (around (ring_ h) hash)))).
Proof.
  intros Hc%subseteq_size Hcount. pose proof (point_owners_length h hash) as Hlen. pose proof (around_length (ring_ h) hash) as Hal.
  set (A := around (ring_ h) hash) in *.
  assert (forall j, uniq (take j A) `prefix_of` uniq A) as Hpre.
  { intros j. rewrite <- (take_drop j A) at 2. apply uniq_prefix. }
  assert (forall j fuel, (0 < fuel)%nat -> size_of (uniq (take j A)) = count ->
    loop fuel (walk_step h count) (walk_state h hash j) = Some (Done (take (Z.to_nat count) (uniq A)))) as Hstop.
  { intros j [|fuel] Hf Hs; [lia|]. cbn [loop]. unfold walk_step, walk_state. fold A. rewrite Hs, Z.ltb_irrefl.
    do 2 f_equal. symmetry. apply prefix_take; [apply Hpre|]. left. unfold size_of in Hs. lia. }
  induction d as [|d IH]; intros j fuel Hj Hf Hle.
  - apply Hstop; [lia|]. rewrite take_ge in * by lia. unfold size_of in *. lia.
  - destruct (Z.eq_dec (size_of (uniq (take j A))) count) as [E|Hne]; [by apply Hstop; [lia|]|].
    destruct (lookup_lt_is_Some_2 A j) as [n Hn]; [lia|]. pose proof (uniq_take_S A j n Hn) as Hsn.
    destruct fuel as [|fuel]; [lia|]. cbn [loop]. rewrite (walk_step_around h hash count j n Hn). fold A.
    destruct (Z.ltb_spec (size_of (uniq (take j A))) count); [|lia].
    destruct (Z.leb_spec (Z.of_nat (size (nodes_ h))) (size_of (uniq (take (S j) A)))).
    + do 2 f_equal. symmetry. apply prefix_take; [apply Hpre|]. right. unfold size_of in *. lia.
    + apply IH; lia.
Qed.

Lemma covered_nodes_nonempty h : covered_ring h -> ring_ h <> [] -> 1 <= Z.of_nat (size (nodes_ h)).
Proof.
  intros Hc Hne. destruct (ring_ h) as [|[p n] r] eqn:E; [done|].
  assert (n ∈ nodes_ h) as Hn by (apply Hc; rewrite E; by left).
  destruct (decide (size (nodes_ h) = 0%nat)) as [E0|]; [|lia].
  apply size_empty_inv in E0. set_solver.
Qed.

Lemma covered_owners h : covered_ring h -> point_owners h = nodes_ h.
Proof. intros Hc. apply set_eq. intros n. unfold point_owners. by rewrite elem_of_list_to_set, (Hc n). Qed.

Lemma walk_state_0 h hash : walk_state h hash 0 = (lower_bound hash (ring_ h), [], ∅).
Proof.
  unfold walk_state, iter_at. rewrite take_0, Nat.add_0_r. pose proof (lower_bound_le hash (ring_ h)).
  by destruct (Nat.leb_spec (lower_bound hash (ring_ h)) (length (ring_ h))); [|lia].
Qed.

Lemma walk_ends h hash count : 0 <= count -> ring_ h <> [] -> point_owners h ⊆ nodes_ h ->
  1 <= walk_count h count <= Z.of_nat (size (point_owners h)) ->
  get_nodes_at h hash count = Done (take (Z.to_nat (walk_count h count)) (uniq (around (ring_ h) hash))).
Proof.
  intros Hcount Hne Hsub Hw. unfold get_nodes_at, walk. rewrite bool_decide_eq_false_2 by done.
  rewrite <- walk_state_0, (walk_from h hash _ Hsub) with (d := length (ring_ h)); [done|done|lia..|].
  rewrite take_0. change (size_of (uniq [])) with 0. lia.
Qed.

Lemma get_nodes_at_spec h hash count :
  covered_ring h -> 0 <= count ->
  get_nodes_at h hash count = Done (take (Z.to_nat (walk_count h count)) (uniq (around (ring_ h) hash))).
Proof.
  intros Hc Hcount. destruct (decide (ring_ h = [])) as [He|He].
  - unfold get_nodes_at, around. rewrite He. by destruct (Z.to_nat _).
  - pose proof (covered_nodes_nonempty h Hc He). pose proof (covered_owners h Hc) as E. apply walk_ends; [done|done|by rewrite E|].
    rewrite E. unfold walk_count. destruct (Z.eqb_spec (Z.min count (Z.of_nat (size (nodes_ h)))) 0); lia.
Qed.

(** ** The invariant of the ring *)

Definition ring_sorted (r : list (Z * NodeId)) : Prop := StronglySorted (fun a b => a.1 < b.1) r.

Record ring_wf (h : HashRing) : Prop := {
  ring_order : ring_sorted (ring_ h);
  ring_points : forall p n, (p, n) ∈ ring_ h ->
    n ∈ nodes_ h /\ exists i, 0 <= i < virtual_nodes_ h /\ p = hash_point n i
}.

Lemma ring_put_elem point id r p n :
  ring_sorted r -> (p, n) ∈ ring_put point id r <-> (p, n) = (point, id) \/ ((p, n) ∈ r /\ p <> point).
Proof.
  induction r as [|[q m] r IH]; intros Hs; cbn [ring_put].
  - rewrite list_elem_of_singleton, elem_of_nil. naive_solver.
  - apply StronglySorted_inv in Hs as [Hs Hq]. rewrite Forall_forall in Hq.
    assert (forall p' n', (p', n') ∈ r -> q < p') as Hq' by (intros p' n' Hin; exact (Hq _ Hin)).
    destruct (Z.ltb_spec point q); [|destruct (Z.eqb_spec point q) as [->|]].
    + rewrite !elem_of_cons. split; [|naive_solver].
      intros [?|[[= -> ->]|Hin]]; [auto|right; split; [auto|lia]|].
      right. specialize (Hq' _ _ Hin). split; [auto|lia].
    + rewrite !elem_of_cons. split; [|naive_solver].
      intros [?|Hin]; [auto|]. right. specialize (Hq' _ _ Hin). split; [auto|lia].
    + rewrite !elem_of_cons, IH by done. split; [|naive_solver].
      intros [[= -> ->]|[?|[? ?]]]; [right; split; [auto|lia]|auto..].
Qed.

Lemma ring_put_sorted point id r : ring_sorted r -> ring_sorted (ring_put point id r).
Proof.
  induction r as [|[q m] r IH]; intros Hs; cbn [ring_put]; [repeat constructor|].
  pose proof Hs as Hs0. apply StronglySorted_inv in Hs as [Hs Hq].
  destruct (Z.ltb_spec point q); [|destruct (Z.eqb_spec point q) as [->|]].
  - constructor; [done|]. constructor; [done|]. eapply Forall_impl; [exact Hq|]. intros [? ?]. simpl. lia.
  - by constructor.
  - constructor; [by apply IH|]. apply Forall_forall. intros [p' n'] Hin. apply ring_put_elem in Hin; [|done].
    simpl. destruct Hin as [[= -> ->]|[Hin _]]; [lia|]. rewrite Forall_forall in Hq. exact (Hq _ Hin).
Qed.

Lemma ring_del_sorted point r : ring_sorted r -> ring_sorted (ring_del point r).
Proof.
  unfold ring_del. induction 1 as [|e r Hs IH Hq]; [constructor|]. rewrite filter_cons.
  case_decide; [|done]. constructor; [done|]. apply Forall_forall. intros x [_ Hx]%list_elem_of_filter.
  rewrite Forall_forall in Hq. by apply Hq.
Qed.

Lemma fold_put_spec id is_ : forall r, ring_sorted r ->
  let r' := foldl (fun r i => ring_put (hash_point id i) id r) r is_ in
  ring_sorted r' /\
  (forall p n, (p, n) ∈ r' <-> (n = id /\ exists i, i ∈ is_ /\ p = hash_point id i) \/
                               ((p, n) ∈ r /\ forall i, i ∈ is_ -> p <> hash_point id i)).
Proof.
  induction is_ as [|i is_ IH]; intros r Hs; cbn [foldl].
  - split; [done|]. intros p n. setoid_rewrite elem_of_nil. naive_solver.
  - destruct (IH (ring_put (hash_point id i) id r)) as [Hs' Hin]; [by apply ring_put_sorted|].
    split; [done|]. intros p n. rewrite Hin, ring_put_elem by done. setoid_rewrite elem_of_cons.
    destruct (decide (p ∈ hash_point id <$> is_)) as [(j & -> & Hj)%list_elem_of_fmap|Hno].
    + naive_solver.
    + split.
      * intros [?|[[[= -> ->]|[? ?]] ?]]; [naive_solver| |naive_solver]. left. eauto.
      * intros [[-> (j & [->|Hj] & ->)]|[? ?]]; [|naive_solver..].
        right. split; [by left|]. intros j Hj E. apply Hno, list_elem_of_fmap. eauto.
Qed.

Lemma fold_del_spec id is_ : forall r, ring_sorted r ->
  let r' := foldl (fun r i => ring_del (hash_point id i) r) r is_ in
  ring_sorted r' /\
  (forall p n, (p, n) ∈ r' <-> (p, n) ∈ r /\ forall i, i ∈ is_ -> p <> hash_point id i).
Proof.
  induction is_ as [|i is_ IH]; intros r Hs; cbn [foldl].
  - split; [done|]. intros p n. setoid_rewrite elem_of_nil. naive_solver.
  - destruct (IH (ring_del (hash_point id i) r)) as [Hs' Hin]; [by apply ring_del_sorted|].
    split; [done|]. intros p n. rewrite Hin. unfold ring_del. rewrite list_elem_of_filter.
    setoid_rewrite elem_of_cons. simpl. naive_solver.
Qed.

Lemma HashRing_make_wf vn : ring_wf (HashRing_make vn).
Proof. split; simpl; [constructor|]. intros p n Hin. by apply elem_of_nil in Hin. Qed.

Lemma add_node_wf h id : ring_wf h -> ring_wf (add_node h id).
Proof.
  intros [Ho Hp]. unfold add_node. case_bool_decide as Hin; [done|].
  destruct (fold_put_spec id (replicas h) (ring_ h) Ho) as [Hs Hel]. split; simpl; [done|].
  intros p n [[-> (i & Hi & ->)]|[Hold _]]%Hel.
  - apply elem_of_seqZ in Hi. split; [set_solver|]. exists i. split; [lia|done].
  - destruct (Hp _ _ Hold). split; [set_solver|done].
Qed.

Lemma remove_node_wf h id : ring_wf h -> ring_wf (remove_node h id).
Proof.
  intros [Ho Hp]. unfold remove_node. case_bool_decide as Hin; [|done].
  destruct (fold_del_spec id (replicas h) (ring_ h) Ho) as [Hs Hel]. split; simpl; [done|].
  intros p n [Hold Hnot]%Hel. destruct (Hp _ _ Hold) as [Hn (i & Hi & ->)]. split; [|eauto].
  apply elem_of_difference. split; [done|]. intros ->%elem_of_singleton.
  apply (Hnot i); [apply elem_of_seqZ; lia|done].
Qed.

(** No point is shared by two of the nodes. *)
Definition no_shared_points (vn : Z) (ns : gset Z) : Prop :=
  forall a b i j, a ∈ ns -> b ∈ ns -> 0 <= i < vn -> 0 <= j < vn -> hash_point a i = hash_point b j -> a = b.

(** Every member keeps all its points. *)
Definition ring_full (h : HashRing) : Prop :=
  forall n i, n ∈ nodes_ h -> 0 <= i < virtual_nodes_ h -> (hash_point n i, n) ∈ ring_ h.

Lemma add_node_full h id :
  ring_wf h -> ring_full h -> no_shared_points (virtual_nodes_ h) ({[id]} ∪ nodes_ h) -> ring_full (add_node h id).
Proof.
  intros [Ho _] Hf Hns. unfold add_node. case_bool_decide as Hin; [done|].
  destruct (fold_put_spec id (replicas h) (ring_ h) Ho) as [_ Hel]. intros n i Hn Hi. simpl in *.
  apply Hel. apply elem_of_union in Hn as [->%elem_of_singleton|Hn].
  - left. split; [done|]. exists i. split; [apply elem_of_seqZ; lia|done].
  - right. split; [by apply Hf|]. intros j Hj%elem_of_seqZ E.
    assert (n = id) as -> by (apply (Hns n id i j); [set_solver..|done|lia|done]). done.
Qed.

Lemma remove_node_full h id :
  ring_wf h -> ring_full h -> no_shared_points (virtual_nodes_ h) (nodes_ h) -> ring_full (remove_node h id).
Proof.
  intros [Ho _] Hf Hns. unfold remove_node. case_bool_decide as Hin; [|done].
  destruct (fold_del_spec id (replicas h) (ring_ h) Ho) as [_ Hel]. intros n i Hn Hi. simpl in *.
  apply elem_of_difference in Hn as [Hn Hne]. apply Hel. split; [by apply Hf|].
  intros j Hj%elem_of_seqZ E. apply Hne, elem_of_singleton. apply (Hns n id i j); done || lia.
Qed.

Lemma full_covered h : ring_wf h -> ring_full h -> 0 < virtual_nodes_ h -> covered_ring h.
Proof.
  intros [_ Hp] Hf Hv n. split.
  - intros Hn. apply list_elem_of_fmap. exists (hash_point n 0, n). split; [done|]. apply Hf; [done|lia].
  - intros ([p m] & -> & Hin)%list_elem_of_fmap. by destruct (Hp _ _ Hin).
Qed.

(** ** Membership changes *)

Inductive ring_op := RAdd (id : NodeId) | RRemove (id : NodeId).

Definition ring_step (h : HashRing) (op : ring_op) : HashRing :=
  match op with RAdd id => add_node h id | RRemove id => remove_node h id end.

Definition op_id (op : ring_op) : Z := match op with RAdd id | RRemove id => id end.

(** The members after a sequence of changes. *)
Definition members_step (ns : gset Z) (op : ring_op) : gset Z :=
  match op with RAdd id => {[id]} ∪ ns | RRemove id => ns ∖ {[id]} end.

Lemma ring_step_members h op : nodes_ (ring_step h op) = members_step (nodes_ h) op.
Proof.
  destruct op as [id|id]; simpl; unfold add_node, remove_node; case_bool_decide; simpl; set_solver.
Qed.

Lemma ring_step_vn h op : virtual_nodes_ (ring_step h op) = virtual_nodes_ h.
Proof. destruct op as [id|id]; simpl; unfold add_node, remove_node; by case_bool_decide. Qed.

Lemma ring_run_ok vn U ops : no_shared_points vn U -> Forall (fun op => op_id op ∈ U) ops ->
  forall h, ring_wf h -> ring_full h -> nodes_ h ⊆ U -> virtual_nodes_ h = vn ->
  let h' := foldl ring_step h ops in
  ring_wf h' /\ ring_full h' /\ nodes_ h' = foldl members_step (nodes_ h) ops /\ virtual_nodes_ h' = vn.
Proof.
  intros Hns Hops. induction Hops as [|op ops Hop Hops IH]; intros h Hwf Hf Hsub Hv; cbn [foldl]; [done|].
  rewrite <- ring_step_members.
  assert (forall V, V ⊆ U -> no_shared_points (virtual_nodes_ h) V) as HnsV.
  { intros V HV a b i j Ha Hb. rewrite Hv. apply Hns; set_solver. }
  apply IH.
  - destruct op; [by apply add_node_wf|by apply remove_node_wf].
  - destruct op; simpl in *; [apply add_node_full|apply remove_node_full]; try done; apply HnsV; set_solver.
  - rewrite ring_step_members. destruct op; simpl in *; set_solver.
  - by rewrite ring_step_vn.
Qed.

(** ** The owner of a hash *)

Definition owner (r : list (Z * NodeId)) (hash : Z) : option NodeId :=
  match drop (lower_bound hash r) r with
  | (_, n) :: _ => Some n
  | [] => snd <$> head r
  end.

Lemma around_owner r hash : head (around r hash) = owner r hash.
Proof.
  unfold around, owner. destruct (drop (lower_bound hash r) r) as [|[p n] l] eqn:E; [|done].
  assert (lower_bound hash r = length r) as ->.
  { pose proof (lower_bound_le hash r). apply (f_equal length) in E. rewrite length_drop in E. simpl in E. lia. }
  rewrite take_ge by lia. simpl. by destruct r.
Qed.

Lemma uniq_head l : head (uniq l) = head l.
Proof.
  destruct l as [|x l]; [done|]. destruct (uniq_prefix [x] l) as [k E].
  change ([x] ++ l) with (x :: l) in E. rewrite E. done.
Qed.

Lemma get_nodes_one h hash : covered_ring h -> get_nodes_at h hash 1 = Done (option_list (owner (ring_ h) hash)).
Proof.
  intros Hc. rewrite get_nodes_at_spec by (done || lia). f_equal.
  destruct (decide (ring_ h = [])) as [E|Hne].
  { unfold around, owner. rewrite E. by destruct (Z.to_nat _). }
  pose proof (covered_nodes_nonempty h Hc Hne). unfold walk_count.
  rewrite Z.min_l by lia. change (1 =? 0) with false. cbn match. change (Z.to_nat 1) with 1%nat.
  rewrite <- around_owner, <- uniq_head. by destruct (uniq _).
Qed.

(** First point not below the hash, after an insertion: the new one or the old one. *)
Lemma put_succ point id hash r :
  let r' := ring_put point id r in
  drop (lower_bound hash r') r' = [] /\ drop (lower_bound hash r) r = [] \/
  (exists p l, drop (lower_bound hash r') r' = (p, id) :: l) \/
  (exists e l l', drop (lower_bound hash r') r' = e :: l /\ drop (lower_bound hash r) r = e :: l').
Proof.
  induction r as [|[p n] r IH]; cbn [ring_put lower_bound drop].
  - destruct (point <? hash); simpl; [auto|right; left; eauto].
  - destruct (Z.ltb_spec point p); [|destruct (Z.eqb_spec point p) as [->|]]; cbn [lower_bound drop].
    + destruct (Z.ltb_spec point hash); cbn [drop]; [|right; left; eauto].
      destruct (Z.ltb_spec p hash); cbn [drop].
      * destruct (drop (lower_bound hash r) r); [by left|right; right; eauto].
      * right. right. eauto.
    + destruct (Z.ltb_spec p hash); cbn [drop]; [|right; left; eauto].
      destruct (drop (lower_bound hash r) r); [by left|right; right; eauto].
    + destruct (Z.ltb_spec p hash); cbn [drop]; [exact IH|right; right; eauto].
Qed.

Lemma put_head point id r : snd <$> head (ring_put point id r) = Some id \/ head (ring_put point id r) = head r.
Proof.
  destruct r as [|[p n] r]; cbn [ring_put]; [by left|].
  destruct (point <? p); [by left|]. destruct (point =? p); [by left|by right].
Qed.

Lemma owner_put point id hash r :
  owner (ring_put point id r) hash = Some id \/ owner (ring_put point id r) hash = owner r hash.
Proof.
  unfold owner. destruct (put_succ point id hash r) as [[-> ->]|[(p & l & ->)|([p n] & l & l' & -> & ->)]]; [|auto..].
  destruct (put_head point id r) as [->| ->]; auto.
Qed.

Lemma owner_fold_put id is_ hash : forall r,
  let r' := foldl (fun r i => ring_put (hash_point id i) id r) r is_ in
  owner r' hash = Some id \/ owner r' hash = owner r hash.
Proof.
  induction is_ as [|i is_ IH]; intros r; cbn [foldl]; [by right|].
  destruct (IH (ring_put (hash_point id i) id r)) as [?|E]; [by left|]. cbn beta in E. rewrite E.
  apply owner_put.
Qed.

(** Taking away points of one node does not touch hashes another node owns. *)
Lemma owner_filter (P : Z * NodeId -> Prop) `{!forall e, Decision (P e)} hash r n :
  (forall e, e ∈ r -> e.2 = n -> P e) -> owner r hash = Some n -> owner (filter P r) hash = Some n.
Proof.
  intros HP Ho. enough ((exists e l, drop (lower_bound hash r) r = e :: l /\ e.2 = n /\
      exists l', drop (lower_bound hash (filter P r)) (filter P r) = e :: l') \/
    (drop (lower_bound hash r) r = [] /\ drop (lower_bound hash (filter P r)) (filter P r) = [])) as Hs.
  { unfold owner in *. destruct Hs as [([p m] & l & E & Hm & l' & E')|[E E']].
    - rewrite E'. simpl in *. by subst.
    - rewrite E in Ho. rewrite E'. destruct r as [|[p m] r]; [done|]. simpl in Ho. injection Ho as ->.
      rewrite filter_cons_True; [done|]. apply HP; [by left|done]. }
  unfold owner in Ho. destruct (drop (lower_bound hash r) r) as [|[p m] l] eqn:E.
  - right. split; [done|]. clear Ho HP. induction r as [|[p m] r IH]; [done|]. cbn [lower_bound] in E.
    destruct (p <? hash) eqn:Hp; [|done]. cbn [drop] in E. rewrite filter_cons. case_decide; [|by apply IH].
    cbn [lower_bound]. rewrite Hp. by apply IH.
  - left. injection Ho as ->. exists (p, n), l. split_and!; [done..|].
    induction r as [|[q k] r IH]; [done|]. cbn [lower_bound] in E. destruct (q <? hash) eqn:Hq; cbn [drop] in E.
    + assert (exists l', drop (lower_bound hash (filter P r)) (filter P r) = (p, n) :: l') as [l' E'].
      { apply IH; [|done]. intros e He. apply HP. by right. }
      rewrite filter_cons. case_decide; [|eauto]. cbn [lower_bound]. rewrite Hq. eauto.
    + injection E as -> ->. rewrite filter_cons_True by (apply HP; [by left|done]).
      cbn [lower_bound]. rewrite Hq. eauto.
Qed.

Lemma owner_fold_del id is_ hash n : forall r,
  (forall p i, (p, n) ∈ r -> i ∈ is_ -> p <> hash_point id i) -> owner r hash = Some n ->
  owner (foldl (fun r i => ring_del (hash_point id i) r) r is_) hash = Some n.
Proof.
  induction is_ as [|i is_ IH]; intros r Hp Ho; cbn [foldl]; [done|]. apply IH.
  - intros p j Hin Hj. apply list_elem_of_filter in Hin as [_ Hin]. apply Hp; [done|by right].
  - unfold ring_del. apply owner_filter; [|done]. intros [p m] Hin Hm. simpl in *. subst m.
    apply Hp; [done|by left].
Qed.

(** ** A walk that does not end *)

(** Looking for more nodes than own points, the walk turns for ever. *)
Lemma walk_diverges h hash count :
  ring_ h <> [] -> Z.of_nat (size (point_owners h)) < walk_count h count ->
  forall fuel, loop fuel (walk_step h (walk_count h count)) (lower_bound hash (ring_ h), [], ∅) = None.
Proof.
  intros Hne Hc fuel. assert (forall l : list Z, NoDup l -> (forall n, n ∈ l -> n ∈ point_owners h) -> size_of l <= Z.of_nat (size (point_owners h))) as Hle.
  { intros l Hnd Hl. unfold size_of. assert (length l = size (list_to_set l : gset Z)) as -> by (by rewrite list_to_set_size). apply inj_le, subseteq_size. set_solver. }
  assert (walk_count h count <= Z.of_nat (size (nodes_ h))) as Hwn.
  { assert (1 <= Z.of_nat (size (point_owners h))).
    { destruct (ring_ h) as [|[p n] r] eqn:E; [done|]. apply (Hle [n]); [apply NoDup_singleton|].
      intros x ->%list_elem_of_singleton. unfold point_owners. rewrite E. set_solver. }
    unfold walk_count in *. case_match_goal; bool_hyps; lia. }
  apply loop_diverges with (I := fun s : nat * list Z * gset Z => (s.1.1 <= length (ring_ h))%nat /\
    NoDup s.1.2 /\ (forall n, n ∈ s.1.2 -> n ∈ point_owners h) /\ s.2 = list_to_set s.1.2).
  2: { simpl. split_and!; [apply lower_bound_le|constructor|set_solver|done]. }
  intros [[it result] seen] (Hit & Hnd & Hres & Hseen). simpl in *. subst seen. unfold walk_step.
  pose proof (Hle _ Hnd Hres). destruct (Z.ltb_spec (size_of result) (walk_count h count)); [|lia].
  assert (exists it', (if bool_decide (it = length (ring_ h)) then 0%nat else it) = it' /\ (it' < length (ring_ h))%nat)
    as (it' & -> & Hlt).
  { case_bool_decide; eexists; (split; [done|]); [|lia]. destruct (ring_ h); [done|simpl; lia]. }
  destruct (lookup_lt_is_Some_2 (ring_ h) it' Hlt) as [[p n] Hn]. rewrite Hn.
  assert (n ∈ point_owners h) as Hno by (apply elem_of_list_to_set, list_elem_of_fmap; exists (p, n); split; [done|by eapply list_elem_of_lookup_2]).
  set (result' := if bool_decide (n ∈ (list_to_set result : gset Z)) then result else result ++ [n]).
  assert ((if bool_decide (n ∈ (list_to_set result : gset Z)) then (result, list_to_set result)
           else (result ++ [n], {[n]} ∪ list_to_set result)) = (result', list_to_set result' : gset Z)) as ->.
  { unfold result'. case_bool_decide; [done|]. f_equal. rewrite list_to_set_app_L. set_solver. }
  assert (NoDup result' /\ forall x, x ∈ result' -> x ∈ point_owners h) as [Hnd' Hres'].
  { unfold result'. case_bool_decide; [done|]. split; [|set_solver]. apply NoDup_app. split_and!; [done|set_solver|apply NoDup_singleton]. }
  rewrite list_to_set_size by done. pose proof (Hle _ Hnd' Hres') as Hl'. unfold size_of in Hl'.
  destruct (Z.leb_spec (Z.of_nat (size (nodes_ h))) (Z.of_nat (length result'))); [lia|].
  eexists. split; [reflexivity|]. simpl. split_and!; [lia|done..].
Qed.

Lemma walk_spins h hash count : ring_ h <> [] -> Z.of_nat (size (point_owners h)) < walk_count h count -> get_nodes_at h hash count = Spin.
Proof. intros Hne Hc. unfold get_nodes_at, walk. by rewrite (walk_diverges h hash count Hne Hc), bool_decide_eq_false_2. Qed.

Lemma ring_steps_wf vn ops : ring_wf (foldl ring_step (HashRing_make vn) ops).
Proof.
  generalize (HashRing_make_wf vn). generalize (HashRing_make vn). induction ops as [|op ops IH]; intros h Hh; [done|].
  cbn [foldl]. apply IH. destruct op; [by apply add_node_wf|by apply remove_node_wf].
Qed.

(** ** Properties *)

(** Two virtual nodes fall on the same point of the ring exactly when their identifiers differ by
    the exclusive or of the multiples of the golden ratio they are combined with; the points of one
    node are distinct. The mixing steps lose nothing. *)
Theorem hash_point_collisions id id' r r' :
  is_u64 id -> is_u64 id' -> is_u64 r -> is_u64 r' ->
  (hash_point id r = hash_point id' r' <-> Z.lxor id id' = Z.lxor (r *w golden) (r' *w golden)) /\
  (hash_point id r = hash_point id r' -> r = r').
Proof.
  intros Hi Hi' Hr Hr'. split.
  - rewrite <- lxor_swap. split; [by apply hash_point_inj|]. intros E. unfold hash_point. by rewrite E.
  - intros E%hash_point_inj; [|done..]. apply golden_mul_inj; [done..|].
    apply (f_equal (Z.lxor id)) in E. by rewrite <- !Z.lxor_assoc, Z.lxor_nilpotent, !Z.lxor_0_l in E.
Qed.

(** After any sequence of joins and departures among nodes that share no point, the ring holds
    exactly the points of the members, in increasing order. *)
Theorem ring_holds_members vn U ops :
  no_shared_points vn U -> Forall (fun op => op_id op ∈ U) ops ->
  let h := foldl ring_step (HashRing_make vn) ops in
  ring_sorted (ring_ h) /\ nodes_ h = foldl members_step ∅ ops /\
  (forall p n, (p, n) ∈ ring_ h <-> n ∈ foldl members_step ∅ ops /\ exists i, 0 <= i < vn /\ p = hash_point n i).
Proof.
  intros Hns Hops. destruct (ring_run_ok vn U ops Hns Hops (HashRing_make vn)) as ([Ho Hp] & Hf & Hn & Hv).
  - apply HashRing_make_wf.
  - intros n i Hn. simpl in Hn. set_solver.
  - simpl. set_solver.
  - done.
  - simpl in Hn. split_and!; [done..|]. intros p n. rewrite <- Hn. split.
    + intros Hin%Hp. by rewrite Hv in Hin.
    + intros [Hin (i & Hi & ->)]. apply Hf; [done|by rewrite Hv].
Qed.

(** C24: [get_nodes] on the ring of any history of joins and departures, for any hash and any count, in all cases.
    An empty ring gives nothing. Otherwise let [k] be the count, at most the number of members and at least
    one. When [k] members own a point of the ring, [get_nodes] ends after at most one turn and returns [k] distinct
    members, the first one being the owner of the first point at or after the hash. When fewer do, which only happens
    when points of members coincide, it never returns. *)
Theorem get_nodes_correct vn ops hash count :
  0 <= count ->
  let h := foldl ring_step (HashRing_make vn) ops in
  let k := Z.max 1 (Z.min count (node_count h)) in
  (ring_ h = [] -> get_nodes_at h hash count = Done []) /\
  (ring_ h <> [] -> k <= Z.of_nat (size (point_owners h)) ->
   exists ns, get_nodes_at h hash count = Done ns /\ NoDup ns /\ (forall n, n ∈ ns -> n ∈ nodes_ h) /\
     size_of ns = k /\ head ns = owner (ring_ h) hash) /\
  (ring_ h <> [] -> Z.of_nat (size (point_owners h)) < k ->
   get_nodes_at h hash count = Spin /\
   forall fuel, loop fuel (walk_step h (walk_count h count)) (lower_bound hash (ring_ h), [], ∅) = None).
Proof.
  intros Hcount h k. pose proof (ring_steps_wf vn ops) as Hwf. fold h in Hwf.
  assert (point_owners h ⊆ nodes_ h) as Hsub.
  { intros n. unfold point_owners. rewrite elem_of_list_to_set. intros ([p m] & -> & Hin)%list_elem_of_fmap. by apply (ring_points _ Hwf) in Hin as [? _]. }
  assert (walk_count h count = k) as Ew by (unfold k, walk_count, node_count; case_match_goal; bool_hyps; lia).
  split_and!; intros Hne.
  - unfold get_nodes_at. by rewrite bool_decide_eq_true_2.
  - intros Hk. eexists. split; [apply walk_ends; [done..|lia]|]. rewrite Ew. pose proof (point_owners_length h hash) as Hl. split_and!.
    + eapply sublist_NoDup; [apply NoDup_uniq|apply sublist_take].
    + intros n Hin. apply Hsub, elem_of_list_to_set, (elem_of_around _ hash), elem_of_uniq.
      by apply elem_of_take in Hin as (i & Hi%list_elem_of_lookup_2 & _).
    + unfold size_of. rewrite length_take, Hl. lia.
    + rewrite <- around_owner, <- (uniq_head (around _ _)). destruct (Z.to_nat k) eqn:E; [lia|]. by destruct (uniq _).
  - intros Hk. split; [apply walk_spins|apply walk_diverges]; by rewrite ?Ew.
Qed.

(** C25: consistent hashing, for nodes of which no two points collide. When a node joins, a key keeps its primary node or
    moves to the new node; when a node leaves, every key whose primary is another node keeps it. *)
Theorem ring_consistent h id hash n :
  ring_wf h -> ring_full h -> 0 < virtual_nodes_ h ->
  no_shared_points (virtual_nodes_ h) ({[id]} ∪ nodes_ h) ->
  get_nodes_at h hash 1 = Done [n] ->
  (exists m, get_nodes_at (add_node h id) hash 1 = Done [m] /\ (m = n \/ m = id)) /\
  (n <> id -> get_nodes_at (remove_node h id) hash 1 = Done [n]).
Proof.
  intros Hwf Hf Hv Hns Hn. pose proof (full_covered h Hwf Hf Hv) as Hc.
  rewrite get_nodes_one in Hn by done. injection Hn as Hn.
  assert (owner (ring_ h) hash = Some n) as Ho by (destruct (owner (ring_ h) hash); simpl in Hn; congruence).
  split.
  - assert (covered_ring (add_node h id)) as Hc'.
    { apply full_covered; [by apply add_node_wf|by apply add_node_full|].
      unfold add_node. by case_bool_decide. }
    rewrite get_nodes_one by done. unfold add_node. case_bool_decide; [rewrite Ho; eauto|]. simpl.
    destruct (owner_fold_put id (replicas h) hash (ring_ h)) as [E|E]; cbn beta in E; rewrite E, ?Ho; eauto.
  - intros Hne. assert (no_shared_points (virtual_nodes_ h) (nodes_ h)) as Hns'.
    { intros a b i j Ha Hb. apply Hns; set_solver. }
    assert (covered_ring (remove_node h id)) as Hc'.
    { apply full_covered; [by apply remove_node_wf|by apply remove_node_full|].
      unfold remove_node. by case_bool_decide. }
    rewrite get_nodes_one by done. unfold remove_node. case_bool_decide as Hid; [|by rewrite Ho]. simpl.
    rewrite (owner_fold_del id (replicas h) hash n); [done| |done].
    intros p i Hin Hi%elem_of_seqZ ->. destruct (ring_points _ Hwf _ _ Hin) as (Hn' & j & Hj & E).
    apply Hne. symmetry. apply (Hns id n i j); [set_solver..|lia|done|done].
Qed.

(** A joining node can take over every point of another. With two virtual nodes, the nodes [a]
    and [a xor golden] have the same points; the later one owns them all, the earlier one stays a
    member, and asking for two nodes walks the ring for ever, whatever the key. *)
Theorem get_nodes_never_returns a hash count fuel :
  is_u64 a -> 2 <= count ->
  let h := add_node (add_node (HashRing_make 2) a) (Z.lxor a golden) in
  loop fuel (walk_step h (walk_count h count)) (lower_bound hash (ring_ h), [], ∅) = None /\
  get_nodes_at h hash count = Spin.
Proof.
  intros Ha Hc h. set (b := Z.lxor a golden).
  assert (a <> b) as Hab.
  { intros E. apply (f_equal (Z.lxor a)) in E. unfold b in E.
    rewrite <- Z.lxor_assoc, Z.lxor_nilpotent, Z.lxor_0_l in E. done. }
  set (h1 := add_node (HashRing_make 2) a).
  assert (nodes_ h1 = {[a]}) as N1 by (unfold h1, add_node; case_bool_decide; simpl; set_solver).
  assert (ring_wf h1) as W1 by (apply add_node_wf, HashRing_make_wf).
  assert (h = mkRing 2 (foldl (fun r i => ring_put (hash_point b i) b r) (ring_ h1) [0; 1]) ({[b]} ∪ {[a]})) as Eh.
  { unfold h. fold h1. unfold add_node at 1. rewrite N1, bool_decide_eq_false_2 by set_solver. done. }
  destruct (fold_put_spec b [0; 1] (ring_ h1) (ring_order _ W1)) as [_ Hel].
  assert (hash_point b 0 = hash_point a 1 /\ hash_point b 1 = hash_point a 0) as [E0 E1].
  { unfold hash_point, b. change (0 *w golden) with 0. change (1 *w golden) with golden.
    by rewrite !Z.lxor_0_r, Z.lxor_assoc, Z.lxor_nilpotent, Z.lxor_0_r. }
  assert (ring_ h <> []) as Hne.
  { rewrite Eh. simpl ring_. intros Hnil. cbn [foldl] in Hel, Hnil. rewrite Hnil in Hel.
    apply (elem_of_nil (hash_point b 0, b)), Hel. left. split; [done|]. exists 0. split; [by left|done]. }
  assert (point_owners h ⊆ {[b]}) as Hown.
  { intros x. unfold point_owners. rewrite elem_of_list_to_set, Eh. simpl ring_. intros ([p n] & -> & Hin)%list_elem_of_fmap.
    apply Hel in Hin as [[-> _]|[Hin Hno]]; [set_solver|]. destruct (ring_points _ W1 _ _ Hin) as (Hn & i & Hi & ->).
    rewrite N1 in Hn. apply elem_of_singleton in Hn as ->. exfalso.
    assert (i = 0 \/ i = 1) as [->| ->] by (unfold h1, add_node in Hi; case_bool_decide; simpl in Hi; lia).
    - apply (Hno 1); [by right; left|by rewrite E1].
    - apply (Hno 0); [by left|by rewrite E0]. }
  assert (Z.of_nat (size (point_owners h)) < walk_count h count) as Hlt.
  { apply subseteq_size in Hown. rewrite size_singleton in Hown. assert (size (nodes_ h) = 2%nat) as E2.
    { rewrite Eh. simpl nodes_. by rewrite size_union, !size_singleton by set_solver. }
    unfold walk_count. rewrite E2. case_match_goal; bool_hyps; lia. }
  split; [by apply walk_diverges|by apply walk_spins].
Qed.

(** ** Witnesses *)

Definition sample_ring : HashRing := add_node (add_node (HashRing_make 3) 17) 99.

Lemma sample_no_shared : no_shared_points 3 ({[5]} ∪ {[99; 17]}).
Proof.
  intros a b i j Ha Hb Hi Hj E.
  assert (a = 5 \/ a = 99 \/ a = 17) as Ha' by set_solver.
  assert (b = 5 \/ b = 99 \/ b = 17) as Hb' by set_solver.
  assert (i = 0 \/ i = 1 \/ i = 2) as Hi' by lia. assert (j = 0 \/ j = 1 \/ j = 2) as Hj' by lia.
  destruct Ha' as [->|[->| ->]], Hb' as [->|[->| ->]]; try reflexivity;
    destruct Hi' as [->|[->| ->]], Hj' as [->|[->| ->]]; vm_compute in E; discriminate E.
Qed.

Lemma sample_nodes : nodes_ sample_ring = {[99; 17]}.
Proof. vm_compute. reflexivity. Qed.

Lemma sample_ring_ok : ring_wf sample_ring /\ ring_full sample_ring.
Proof.
  destruct (ring_run_ok 3 ({[5]} ∪ {[99; 17]}) [RAdd 17; RAdd 99] sample_no_shared) with (h := HashRing_make 3)
    as (Hw & Hf & _).
  - repeat constructor; set_solver.
  - apply HashRing_make_wf.
  - intros n i Hn. simpl in Hn. set_solver.
  - simpl. set_solver.
  - done.
  - done.
Qed.

Lemma hash_point_collisions_witness :
  hash_point 17 0 = hash_point (Z.lxor 17 golden) 1.
Proof.
  apply (proj1 (hash_point_collisions 17 (Z.lxor 17 golden) 0 1
    ltac:(split; vm_compute; congruence) ltac:(split; vm_compute; congruence)
    ltac:(split; vm_compute; congruence) ltac:(split; vm_compute; congruence))).
  reflexivity.
Defined.

Lemma ring_holds_members_witness :
  let h := foldl ring_step (HashRing_make 3) [RAdd 17; RAdd 99; RRemove 17] in
  ring_sorted (ring_ h) /\ nodes_ h = foldl members_step ∅ [RAdd 17; RAdd 99; RRemove 17].
Proof.
  destruct (ring_holds_members 3 ({[5]} ∪ {[99; 17]}) [RAdd 17; RAdd 99; RRemove 17] sample_no_shared)
    as (Hs & Hn & _).
  - repeat constructor; set_solver.
  - split; [exact Hs|exact Hn].
Defined.

Lemma get_nodes_correct_witness :
  (exists ns, get_nodes_at sample_ring 12345 2 = Done ns /\ NoDup ns /\ size_of ns = 2) /\
  get_nodes_at (foldl ring_step (HashRing_make 2) [RAdd 17; RAdd (Z.lxor 17 golden)]) 12345 2 = Spin.
Proof.
  destruct (get_nodes_correct 3 [RAdd 17; RAdd 99] 12345 2) as (_ & (ns & E & Hnd & _ & Hs & _) & _); [lia|vm_compute; discriminate|vm_compute; discriminate|].
  split; [exists ns; split; [exact E|]; split; [exact Hnd|]; rewrite Hs; vm_compute; reflexivity|].
  destruct (get_nodes_correct 2 [RAdd 17; RAdd (Z.lxor 17 golden)] 12345 2) as (_ & _ & Hd); [lia|].
  apply Hd; vm_compute; [discriminate|reflexivity].
Defined.

Lemma ring_consistent_witness :
  exists n m, get_nodes_at sample_ring 12345 1 = Done [n] /\
  get_nodes_at (add_node sample_ring 5) 12345 1 = Done [m] /\ (m = n \/ m = 5).
Proof.
  destruct (ring_consistent sample_ring 5 12345 99 (proj1 sample_ring_ok) (proj2 sample_ring_ok)) as [(m & E & Hm) _].
  - reflexivity.
  - rewrite sample_nodes. exact sample_no_shared.
  - vm_compute. reflexivity.
  - exists 99, m. split; [vm_compute; reflexivity|]. split; [exact E|exact Hm].
Defined.

Lemma get_nodes_never_returns_witness :
  get_nodes_at (add_node (add_node (HashRing_make 2) 17) (Z.lxor 17 golden)) 12345 2 = Spin.
Proof.
  apply (get_nodes_never_returns 17 12345 2 0%nat).
  - split; vm_compute; congruence.
  - lia.
Defined.
