(* ===== verification/SparseCache.v ===== *)
(** * Position-based writes: [include/elcache/sparse_cache.hpp], [src/cache/sparse_cache.cpp]

    A [SparseEntry] is a buffer filled by writes at arbitrary positions; [finalize] hands it over once
    every byte was written. The locks of [SparseCache] make each operation atomic. The abstract state
    of an entry is its size and the list of writes it accepted; the theorems show that the cache
    answers as that state prescribes, that disjoint writes commute, and where the bounds check fails. *)

From S2P Require Import Prelude CStd CDouble.
From Stdlib Require Import Strings.Byte.
Open Scope Z_scope.

(** ** [SparseEntry] *)

Record SparseEntry := mkSparse {
  se_total_size : Z;
  se_data : bytes;
  se_written : list bool;
  se_finalized : bool
}.

Definition SparseEntry_make (size : Z) : SparseEntry :=
  mkSparse size (replicate (Z.to_nat size) x00) (replicate (Z.to_nat size) false) false.

(** Overwrite the elements from [off] on. *)
Definition overwrite {A} (off : Z) (new l : list A) : list A :=
  take (Z.to_nat off) l ++ new ++ drop (Z.to_nat off + length new) l.

(** The check is in 64-bit arithmetic; [memcpy] past the end of [data] is undefined. *)
Definition entry_write_range (e : SparseEntry) (offset : Z) (buf : bytes) : outcome (bool * SparseEntry) :=
  let len := size_of buf in
  if se_total_size e <? offset +w len then Done (false, e)
  else if size_of (se_data e) <? offset + len then Undef
  else Done (true, mkSparse (se_total_size e) (overwrite offset buf (se_data e))
                            (overwrite offset (replicate (length buf) true) (se_written e)) (se_finalized e)).

Definition entry_is_complete (e : SparseEntry) : bool := forallb id (se_written e).

Definition completion_percent (e : SparseEntry) : double :=
  if se_total_size e =? 0 then double_of_Z 100
  else dmul (ddiv (double_of_Z (size_of (filter (fun w => w = true) (se_written e)))) (double_of_Z (se_total_size e)))
            (double_of_Z 100).

(** ** [SparseCache] *)

Abbreviation SparseCache := (gmap bytes SparseEntry).

Definition sparse_create (c : SparseCache) (key : bytes) (total_size : Z) : bool * SparseCache :=
  match c !! key with
  | Some _ => (false, c)
  | None => (true, <[key := SparseEntry_make total_size]> c)
  end.

Definition sparse_write_range (c : SparseCache) (key : bytes) (offset : Z) (data : bytes)
  : outcome (bool * SparseCache) :=
  match c !! key with
  | None => Done (false, c)
  | Some e => '(ok, e') ← entry_write_range e offset data; Done (ok, <[key := e']> c)
  end.

(** 0 and the data, 1: not found, 2: incomplete. *)
Definition sparse_finalize (c : SparseCache) (key : bytes) : Z * bytes * SparseCache :=
  match c !! key with
  | None => (1, [], c)
  | Some e => if entry_is_complete e then (0, se_data e, delete key c) else (2, [], c)
  end.

Definition sparse_exists (c : SparseCache) (key : bytes) : bool := bool_decide (is_Some (c !! key)).

Definition get_total_size (c : SparseCache) (key : bytes) : Z :=
  match c !! key with None => 0 | Some e => se_total_size e end.

Definition get_completion (c : SparseCache) (key : bytes) : double :=
  match c !! key with None => dzero | Some e => completion_percent e end.

Definition sparse_remove (c : SparseCache) (key : bytes) : bool * SparseCache :=
  (bool_decide (is_Some (c !! key)), delete key c).

Definition sparse_count (c : SparseCache) : Z := Z.of_nat (size c).

(** ** Overwriting *)

Lemma overwrite_length {A} off (new l : list A) :
  0 <= off -> off + size_of new <= size_of l -> length (overwrite off new l) = length l.
Proof.
  unfold overwrite, size_of. intros. rewrite !length_app, length_take, length_drop. lia.
Qed.

Lemma overwrite_lookup {A} off (new l : list A) i :
  0 <= off -> off + size_of new <= size_of l -> 0 <= i ->
  overwrite off new l !! Z.to_nat i =
  if (off <=? i) && (i <? off + size_of new) then new !! Z.to_nat (i - off) else l !! Z.to_nat i.
Proof.
  unfold overwrite, size_of. intros Ho Hl Hi. rewrite lookup_app, lookup_app, length_take, lookup_drop.
  destruct (Z.leb_spec off i); simpl.
  - rewrite lookup_take_ge by lia.
    destruct (Z.ltb_spec i (off + Z.of_nat (length new))).
    + replace (Z.to_nat i - Z.to_nat off `min` length l)%nat with (Z.to_nat (i - off)) by lia.
      destruct (lookup_lt_is_Some_2 new (Z.to_nat (i - off))) as [x Hx]; [lia|]. by rewrite Hx.
    + rewrite lookup_ge_None_2 by lia. f_equal. lia.
  - rewrite lookup_take_lt by lia.
    destruct (lookup_lt_is_Some_2 l (Z.to_nat i)) as [x Hx]; [lia|]. by rewrite Hx.
Qed.

(** ** The abstract entry: its size and the writes it accepted, in order *)

Definition write_over (i : Z) (acc : option byte) (w : Z * bytes) : option byte :=
  if (w.1 <=? i) && (i <? w.1 + size_of w.2) then w.2 !! Z.to_nat (i - w.1) else acc.

(** The byte the last write to position [i] put there. *)
Definition written_by (ws : list (Z * bytes)) (i : Z) : option byte := foldl (write_over i) None ws.

Definition all_written (n : Z) (ws : list (Z * bytes)) : bool :=
  forallb (fun i => bool_decide (is_Some (written_by ws i))) (seqZ 0 n).

Definition contents (n : Z) (ws : list (Z * bytes)) : bytes :=
  (fun i => default x00 (written_by ws i)) <$> seqZ 0 n.

Record represents (e : SparseEntry) (n : Z) (ws : list (Z * bytes)) : Prop := {
  rep_size : se_total_size e = n /\ 0 <= n;
  rep_data : length (se_data e) = Z.to_nat n;
  rep_written : length (se_written e) = Z.to_nat n;
  rep_bytes : forall i, 0 <= i < n ->
    se_data e !! Z.to_nat i = Some (default x00 (written_by ws i)) /\
    se_written e !! Z.to_nat i = Some (bool_decide (is_Some (written_by ws i)))
}.

Lemma represents_make n : 0 <= n -> represents (SparseEntry_make n) n [].
Proof.
  intros Hn. split; simpl; rewrite ?length_replicate; try done.
  intros i Hi. rewrite !lookup_replicate_2 by lia. done.
Qed.

Lemma written_by_snoc ws w i : written_by (ws ++ [w]) i = write_over i (written_by ws i) w.
Proof. apply foldl_snoc. Qed.

Definition write_fits (n offset : Z) (buf : bytes) : bool := offset + size_of buf <=? n.

Lemma represents_write e n ws offset buf :
  represents e n ws -> 0 <= offset -> offset + size_of buf < 2 ^ 64 ->
  exists e', entry_write_range e offset buf = Done (write_fits n offset buf, e') /\
    represents e' n (if write_fits n offset buf then ws ++ [(offset, buf)] else ws).
Proof.
  intros Hrep Ho Hov. pose proof (size_of_nonneg buf). pose proof Hrep as [[Hn Hn0] Hd Hw Hb].
  unfold entry_write_range, write_fits. rewrite Hn, u64_small by (split; lia).
  destruct (Z.leb_spec (offset + size_of buf) n) as [Hfit|Hfit].
  2: { destruct (Z.ltb_spec n (offset + size_of buf)); [|lia]. by exists e. }
  destruct (Z.ltb_spec n (offset + size_of buf)); [lia|].
  assert (size_of (se_data e) = n /\ size_of (se_written e) = n) as [Hsd Hsw] by (unfold size_of; lia).
  rewrite Hsd. destruct (Z.ltb_spec n (offset + size_of buf)); [lia|].
  assert (size_of (replicate (length buf) true) = size_of buf) as Hr by (unfold size_of; by rewrite length_replicate).
  eexists. split; [done|]. split; simpl; [done|by rewrite overwrite_length by lia..|].
  intros i Hi. rewrite !overwrite_lookup, Hr by lia. rewrite written_by_snoc. unfold write_over. cbn [fst snd].
  destruct ((offset <=? i) && (i <? offset + size_of buf)) eqn:E; [|by apply Hb].
  bool_hyps. destruct (lookup_lt_is_Some_2 buf (Z.to_nat (i - offset))) as [x Hx]; [unfold size_of in *; lia|].
  rewrite Hx, lookup_replicate_2 by (unfold size_of in *; lia). done.
Qed.

Lemma represents_complete e n ws :
  represents e n ws -> entry_is_complete e = all_written n ws /\ se_data e = contents n ws.
Proof.
  intros [[Hn Hn0] Hd Hw Hb]. split.
  - unfold entry_is_complete, all_written. apply eq_bool_prop_intro. rewrite !forallb_True, !Forall_forall.
    split.
    + intros Hall i Hi%elem_of_seqZ. destruct (Hb i) as [_ E]; [lia|]. apply list_elem_of_lookup_2 in E.
      specialize (Hall _ E). unfold id in Hall. done.
    + intros Hall w Hin. apply list_elem_of_lookup in Hin as [k Hk]. pose proof (lookup_lt_Some _ _ _ Hk).
      destruct (Hb (Z.of_nat k)) as [_ E]; [lia|]. rewrite Nat2Z.id, Hk in E. injection E as ->.
      apply Hall. apply elem_of_seqZ. lia.
  - apply list_eq. intros k. destruct (decide (k < Z.to_nat n)%nat) as [Hk|Hk].
    + destruct (Hb (Z.of_nat k)) as [E _]; [lia|]. rewrite Nat2Z.id in E. rewrite E. unfold contents.
      rewrite list_lookup_fmap, lookup_seqZ_lt by lia. simpl. done.
    + rewrite !lookup_ge_None_2; [done| |lia]. unfold contents. rewrite length_fmap, length_seqZ. lia.
Qed.

(** ** Sequences of calls *)

Inductive sparse_op :=
| SCreate (key : bytes) (total_size : Z)
| SWrite (key : bytes) (offset : Z) (data : bytes)
| SFinalize (key : bytes)
| SRemove (key : bytes).

Inductive sparse_res := SBool (b : bool) | SFinal (code : Z) (data : bytes).

Definition sparse_step (c : SparseCache) (op : sparse_op) : outcome (sparse_res * SparseCache) :=
  match op with
  | SCreate key n => let '(b, c') := sparse_create c key n in Done (SBool b, c')
  | SWrite key off data => '(b, c') ← sparse_write_range c key off data; Done (SBool b, c')
  | SFinalize key => let '(code, data, c') := sparse_finalize c key in Done (SFinal code data, c')
  | SRemove key => let '(b, c') := sparse_remove c key in Done (SBool b, c')
  end.

(** The specification: per key the size and the accepted writes. *)
Abbreviation sparse_spec := (gmap bytes (Z * list (Z * bytes))).

Definition spec_step (m : sparse_spec) (op : sparse_op) : sparse_res * sparse_spec :=
  match op with
  | SCreate key n =>
      match m !! key with Some _ => (SBool false, m) | None => (SBool true, <[key := (n, [])]> m) end
  | SWrite key off data =>
      match m !! key with
      | None => (SBool false, m)
      | Some (n, ws) =>
          if write_fits n off data then (SBool true, <[key := (n, ws ++ [(off, data)])]> m) else (SBool false, m)
      end
  | SFinalize key =>
      match m !! key with
      | None => (SFinal 1 [], m)
      | Some (n, ws) => if all_written n ws then (SFinal 0 (contents n ws), delete key m) else (SFinal 2 [], m)
      end
  | SRemove key => (SBool (bool_decide (is_Some (m !! key))), delete key m)
  end.

Fixpoint sparse_run (c : SparseCache) (ops : list sparse_op) : outcome (list sparse_res * SparseCache) :=
  match ops with
  | [] => Done ([], c)
  | op :: ops' => '(r, c1) ← sparse_step c op; '(rs, c2) ← sparse_run c1 ops'; Done (r :: rs, c2)
  end.

Fixpoint spec_run (m : sparse_spec) (ops : list sparse_op) : list sparse_res :=
  match ops with [] => [] | op :: ops' => (spec_step m op).1 :: spec_run (spec_step m op).2 ops' end.

(** Positions and sizes that do not wrap. *)
Definition sparse_op_ok (op : sparse_op) : Prop :=
  match op with
  | SCreate _ n => 0 <= n
  | SWrite _ off data => 0 <= off /\ off + size_of data < 2 ^ 64
  | _ => True
  end.

Definition sparse_rel (c : SparseCache) (m : sparse_spec) : Prop := forall key,
  match c !! key, m !! key with
  | None, None => True
  | Some e, Some (n, ws) => represents e n ws
  | _, _ => False
  end.

Lemma sparse_rel_insert c m key e n ws :
  sparse_rel c m -> represents e n ws -> sparse_rel (<[key := e]> c) (<[key := (n, ws)]> m).
Proof.
  intros Hr He k. destruct (decide (key = k)) as [<-|Hne]; [by rewrite !lookup_insert_eq|].
  rewrite !lookup_insert_ne by done. apply Hr.
Qed.

Lemma sparse_rel_delete c m key : sparse_rel c m -> sparse_rel (delete key c) (delete key m).
Proof.
  intros Hr k. destruct (decide (key = k)) as [<-|Hne]; [by rewrite !lookup_delete_eq|].
  rewrite !lookup_delete_ne by done. apply Hr.
Qed.

Lemma sparse_step_refines c m op :
  sparse_rel c m -> sparse_op_ok op ->
  exists c', sparse_step c op = Done ((spec_step m op).1, c') /\ sparse_rel c' (spec_step m op).2.
Proof.
  intros Hr Hok. destruct op as [key n|key off data|key|key]; simpl in *; pose proof (Hr key) as Hk.
  - unfold sparse_create. destruct (c !! key) as [e|], (m !! key) as [[n' ws]|]; try done; [by exists c|].
    eexists. split; [done|]. apply sparse_rel_insert; [done|by apply represents_make].
  - unfold sparse_write_range. destruct (c !! key) as [e|], (m !! key) as [[n ws]|] eqn:Em; try done; [|by exists c].
    destruct Hok as [Ho Hov]. destruct (represents_write e n ws off data Hk Ho Hov) as (e' & -> & Hrep). simpl.
    eexists. destruct (write_fits n off data).
    + split; [done|]. by apply sparse_rel_insert.
    + split; [done|]. rewrite <- (insert_id m key (n, ws)) by done. by apply sparse_rel_insert.
  - unfold sparse_finalize. destruct (c !! key) as [e|], (m !! key) as [[n ws]|]; try done; [|by exists c].
    destruct (represents_complete e n ws Hk) as [-> ->]. destruct (all_written n ws); [|by exists c].
    eexists. split; [done|]. by apply sparse_rel_delete.
  - eexists. split; [|by apply sparse_rel_delete]. do 2 f_equal.
    destruct (c !! key), (m !! key) as [[? ?]|]; done.
Qed.

(** ** Positions that wrap *)

(** What the arguments of the calls can be: 64-bit sizes and positions. *)
Definition sparse_op_typed (op : sparse_op) : Prop :=
  match op with
  | SCreate _ n => is_u64 n
  | SWrite _ off data => is_u64 off /\ size_of data < 2 ^ 64
  | _ => True
  end.

(** The sum of the bounds check wraps, and its remainder passes the check. *)
Definition slips_through (n offset : Z) (buf : bytes) : bool :=
  (2 ^ 64 <=? offset + size_of buf) && (offset + size_of buf - 2 ^ 64 <=? n).

Definition overruns (m : sparse_spec) (op : sparse_op) : bool :=
  match op with
  | SWrite key off data => match m !! key with Some (n, _) => slips_through n off data | None => false end
  | _ => false
  end.

Fixpoint run_overruns (m : sparse_spec) (ops : list sparse_op) : bool :=
  match ops with [] => false | op :: ops' => overruns m op || run_overruns (spec_step m op).2 ops' end.

Definition sizes_typed (m : sparse_spec) : Prop := map_Forall (fun _ p => p.1 < 2 ^ 64) m.

Lemma sizes_typed_step m op : sizes_typed m -> sparse_op_typed op -> sizes_typed (spec_step m op).2.
Proof.
  intros Hm Hop. destruct op as [key n|key off data|key|key]; simpl in *; destruct (m !! key) as [[n' ws]|] eqn:E; simpl; try done.
  - by apply map_Forall_insert_2; [apply Hop|].
  - case_match; [|done]. apply map_Forall_insert_2; [by apply (Hm _ _ E)|done].
  - case_match; [by apply map_Forall_delete|done].
  - by apply map_Forall_delete.
  - by apply map_Forall_delete.
Qed.

(** A position that wraps is refused or writes outside the buffer. *)
Lemma represents_wrap e n ws offset buf :
  represents e n ws -> n < 2 ^ 64 -> is_u64 offset -> size_of buf < 2 ^ 64 -> 2 ^ 64 <= offset + size_of buf ->
  entry_write_range e offset buf = if slips_through n offset buf then Undef else Done (false, e).
Proof.
  intros [[Hn Hn0] Hd _ _] Hn64 [Ho Ho'] Hb Hw. unfold entry_write_range, slips_through. rewrite Hn.
  assert (u64 (offset + size_of buf) = offset + size_of buf - 2 ^ 64) as ->.
  { unfold u64. symmetry. apply (Z.mod_unique_pos _ _ 1); lia. }
  assert (size_of (se_data e) = n) as -> by (unfold size_of; lia).
  destruct (Z.leb_spec (2 ^ 64) (offset + size_of buf)); [|lia]. destruct (Z.leb_spec (offset + size_of buf - 2 ^ 64) n), (Z.ltb_spec n (offset + size_of buf - 2 ^ 64));
    try lia; [|done]. by destruct (Z.ltb_spec n (offset + size_of buf)); [|lia].
Qed.

Lemma sparse_step_total c m op :
  sparse_rel c m -> sizes_typed m -> sparse_op_typed op ->
  if overruns m op then sparse_step c op = Undef
  else exists c', sparse_step c op = Done ((spec_step m op).1, c') /\ sparse_rel c' (spec_step m op).2.
Proof.
  intros Hr Hm Hop. destruct op as [key n|key off data|key|key]; [by apply sparse_step_refines; [|apply Hop]| |by apply sparse_step_refines..].
  destruct Hop as [Ho Hb]. destruct (Z.lt_ge_cases (off + size_of data) (2 ^ 64)) as [Hw|Hw].
  - assert (overruns m (SWrite key off data) = false) as ->; [|by apply sparse_step_refines; [|split; [apply Ho|]]].
    unfold overruns, slips_through. destruct (m !! key) as [[? ?]|]; [|done]. by destruct (Z.leb_spec (2 ^ 64) (off + size_of data)); [lia|].
  - pose proof (Hr key) as Hk. unfold overruns. simpl. unfold sparse_write_range.
    destruct (c !! key) as [e|] eqn:Ec, (m !! key) as [[n ws]|] eqn:Em; try done; [|by exists c].
    specialize (Hm _ _ Em). cbn in Hm. rewrite (represents_wrap e n ws off data Hk Hm Ho Hb Hw). destruct (slips_through n off data); [done|].
    unfold write_fits. destruct (Z.leb_spec (off + size_of data) n); [lia|]. simpl. rewrite insert_id by done. by exists c.
Qed.

Lemma sparse_run_total ops : Forall sparse_op_typed ops -> forall c m, sparse_rel c m -> sizes_typed m ->
  if run_overruns m ops then sparse_run c ops = Undef else exists c', sparse_run c ops = Done (spec_run m ops, c').
Proof.
  induction 1 as [|op ops Hop Hops IH]; intros c m Hr Hm; simpl; [by exists c|].
  pose proof (sparse_step_total c m op Hr Hm Hop) as Hs. destruct (overruns m op); simpl; [by rewrite Hs|].
  destruct Hs as (c1 & -> & Hr1). simpl. pose proof (IH c1 _ Hr1 (sizes_typed_step m op Hm Hop)) as Hrest.
  destruct (run_overruns _ ops); [by rewrite Hrest|]. destruct Hrest as (c2 & ->). simpl. by exists c2.
Qed.

(** ** Properties *)

(** C15: every sequence of creations, writes, finalizations and removals with 64-bit sizes and positions, on any keys.
    Unless a write to an existing entry slips through the bounds check because its end wraps around 2^64, the cache answers
    as its specification: a write is accepted exactly when the entry exists and the range lies inside it; [finalize] succeeds
    exactly when every byte was written, and then returns for each position the byte of the last write that covered it. With
    such a write the run has undefined behaviour: it copies outside the buffer. *)
Theorem sparse_cache_refines ops :
  Forall sparse_op_typed ops ->
  if run_overruns ∅ ops then sparse_run ∅ ops = Undef else exists c, sparse_run ∅ ops = Done (spec_run ∅ ops, c).
Proof. intros Hok. by apply sparse_run_total. Qed.

Lemma sparse_cache_refines_witness :
  (exists c, sparse_run ∅ [SCreate (str "k") 3; SWrite (str "k") 1 (str "bc"); SFinalize (str "k");
                           SWrite (str "k") 2 (str "zz"); SWrite (str "k") 0 (str "a"); SWrite (str "k") (2 ^ 64 - 1) (str "vwxyz"); SFinalize (str "k")]
   = Done ([SBool true; SBool true; SFinal 2 []; SBool false; SBool true; SBool false; SFinal 0 (str "abc")], c)) /\
  sparse_run ∅ [SCreate (str "k") 3; SWrite (str "k") (2 ^ 64 - 1) (str "xy")] = Undef.
Proof.
  split.
  - apply (sparse_cache_refines [SCreate (str "k") 3; SWrite (str "k") 1 (str "bc"); SFinalize (str "k");
      SWrite (str "k") 2 (str "zz"); SWrite (str "k") 0 (str "a"); SWrite (str "k") (2 ^ 64 - 1) (str "vwxyz"); SFinalize (str "k")]).
    repeat constructor; simpl; try lia; vm_compute; congruence.
  - apply (sparse_cache_refines [SCreate (str "k") 3; SWrite (str "k") (2 ^ 64 - 1) (str "xy")]).
    repeat constructor; simpl; try lia; vm_compute; congruence.
Defined.

(** Writes to disjoint ranges commute: parallel uploads of the parts of a value may arrive in any
    order. *)
Theorem disjoint_writes_commute e n ws o1 b1 o2 b2 :
  represents e n ws -> 0 <= o1 -> 0 <= o2 -> n < 2 ^ 64 ->
  o1 + size_of b1 <= n -> o2 + size_of b2 <= n ->
  o1 + size_of b1 <= o2 \/ o2 + size_of b2 <= o1 ->
  ('(r1, e1) ← entry_write_range e o1 b1; '(r2, e2) ← entry_write_range e1 o2 b2; Done (r1, r2, e2)) =
  ('(r2, e1) ← entry_write_range e o2 b2; '(r1, e2) ← entry_write_range e1 o1 b1; Done (r1, r2, e2)).
Proof.
  intros Hrep H1 H2 Hn F1 F2 Hdis. destruct Hrep as [[Et Hn0] Hd Hw _].
  pose proof (size_of_nonneg b1). pose proof (size_of_nonneg b2).
  assert (size_of (se_data e) = n /\ size_of (se_written e) = n) as [Sd Sw] by (unfold size_of; lia).
  assert (forall e' o b, se_total_size e' = n -> size_of (se_data e') = n -> 0 <= o -> o + size_of b <= n ->
    entry_write_range e' o b = Done (true, mkSparse n (overwrite o b (se_data e'))
      (overwrite o (replicate (length b) true) (se_written e')) (se_finalized e'))) as Hwr.
  { intros e' o b Ht Hs Ho Hf. pose proof (size_of_nonneg b). unfold entry_write_range.
    rewrite Ht, Hs, u64_small by (split; lia). destruct (Z.ltb_spec n (o + size_of b)); [lia|done]. }
  assert (forall A o (b l : list A), size_of l = n -> 0 <= o -> o + size_of b <= n -> size_of (overwrite o b l) = n) as Hlen.
  { intros A o b l Hl Ho Hf. unfold size_of in *. rewrite overwrite_length; unfold size_of; lia. }
  assert (forall A (c1 c2 l : list A), size_of c1 = size_of b1 -> size_of c2 = size_of b2 -> size_of l = n ->
    overwrite o2 c2 (overwrite o1 c1 l) = overwrite o1 c1 (overwrite o2 c2 l)) as Hcomm.
  { intros A c1 c2 l Hc1 Hc2 Hl. apply list_eq. intros k. rewrite <- (Nat2Z.id k).
    rewrite !overwrite_lookup by (rewrite ?Hlen by lia; lia). rewrite Hc1, Hc2.
    destruct ((o2 <=? Z.of_nat k) && (Z.of_nat k <? o2 + size_of b2)) eqn:E2,
             ((o1 <=? Z.of_nat k) && (Z.of_nat k <? o1 + size_of b1)) eqn:E1; try done.
    bool_hyps. lia. }
  assert (forall b : bytes, size_of (replicate (length b) true) = size_of b) as Hrl
    by (intros b; unfold size_of; by rewrite length_replicate).
  rewrite !Hwr by done. cbn [mbind outcome_bind]. rewrite !Hwr by (simpl; auto). cbn [mbind outcome_bind se_data se_written].
  rewrite (Hcomm _ b1 b2), (Hcomm _ (replicate (length b1) true) (replicate (length b2) true)) by auto. done.
Qed.

Lemma disjoint_writes_commute_witness :
  ('(r1, e1) ← entry_write_range (SparseEntry_make 4) 0 (str "ab");
   '(r2, e2) ← entry_write_range e1 2 (str "cd"); Done (r1, r2, e2)) =
  ('(r2, e1) ← entry_write_range (SparseEntry_make 4) 2 (str "cd");
   '(r1, e2) ← entry_write_range e1 0 (str "ab"); Done (r1, r2, e2)).
Proof.
  apply (disjoint_writes_commute (SparseEntry_make 4) 4 []).
  - apply represents_make. lia.
  - lia.
  - lia.
  - reflexivity.
  - vm_compute. congruence.
  - vm_compute. congruence.
  - left. vm_compute. congruence.
Defined.

(** The bounds check of [write_range] adds in 64 bits. An offset just below 2^64 passes it as soon
    as the wrapped end lies inside the entry, and the copy runs outside the buffer. *)
Theorem write_range_overflow n k buf :
  0 <= n < 2 ^ 64 - k -> 0 < k <= size_of buf -> size_of buf - k <= n -> n < 2 ^ 63 -> k < 2 ^ 63 ->
  entry_write_range (SparseEntry_make n) (2 ^ 64 - k) buf = Undef.
Proof.
  intros Hn Hk Hb Hn2 Hk2. unfold entry_write_range. simpl se_total_size. simpl se_data.
  replace (2 ^ 64 - k + size_of buf) with (size_of buf - k + 1 * 2 ^ 64) at 1 by lia.
  unfold u64. rewrite Z_mod_plus_full, Z.mod_small by lia.
  destruct (Z.ltb_spec n (size_of buf - k)); [lia|].
  unfold size_of at 1. rewrite length_replicate, Z2Nat.id by lia.
  destruct (Z.ltb_spec n (2 ^ 64 - k + size_of buf)); [done|lia].
Qed.

Lemma write_range_overflow_witness :
  entry_write_range (SparseEntry_make 16) (2 ^ 64 - 1) (str "xy") = Undef.
Proof.
  apply (write_range_overflow 16 1 (str "xy")).
  - split; [lia|reflexivity].
  - vm_compute. split; [reflexivity|congruence].
  - vm_compute. congruence.
  - reflexivity.
  - reflexivity.
Defined.
