(* ===== verification/UnixServer.v ===== *)
(** * The Unix-domain socket server: [include/elcache/unix_server.hpp], [src/network/unix_server.cpp]

    Framing, request parsing and the six request handlers, in the two versions the code has: blocking
    threads ([..._thread]) and coroutines over [uds_stream] ([..._async] here). Both work on two
    process-wide objects, the [SyncCache] and the sparse cache. A connection is the list of pieces the
    kernel delivers, the bytes sent so far, and how much each coming write accepts. A read outside the
    payload is [Undef]. The clock [now] is the argument of the definitions: [time(nullptr)] as a function of
    the bytes the connection has sent so far, so that it may differ from one answer to the next. *)

From S2P Require Import Prelude CStd CDouble Types Codec SparseCache.
From Stdlib Require Import Strings.Byte.
Open Scope Z_scope.

(** ** Server state *)

Abbreviation SyncCache := (gmap bytes bytes).

Definition sync_put (c : SyncCache) (key value : bytes) : SyncCache := <[key := value]> c.
Definition sync_get (c : SyncCache) (key : bytes) : option bytes := c !! key.
Definition sync_remove (c : SyncCache) (key : bytes) : bool * SyncCache :=
  (bool_decide (is_Some (c !! key)), delete key c).
Definition sync_exists (c : SyncCache) (key : bytes) : bool := bool_decide (is_Some (c !! key)).

Record Server := mkServer { g_sync : SyncCache; g_sparse : SparseCache }.

Record Conn := mkConn {
  c_in : list bytes;
  c_out : bytes;
  c_sched : list Z
}.

(** ** Message types of the socket protocol *)

Inductive UdsType :=
| UGet | UGetResponse | UPut | UPutResponse | UDelete | UDeleteResponse | UCheck | UCheckResponse
| UCreateSparse | UCreateSparseResponse | UWriteRange | UWriteRangeResponse | UFinalize
| UFinalizeResponse.

Definition uds_code (t : UdsType) : Z :=
  match t with
  | UGet => 0x0100 | UGetResponse => 0x0101 | UPut => 0x0102 | UPutResponse => 0x0103
  | UDelete => 0x0104 | UDeleteResponse => 0x0105 | UCheck => 0x0106 | UCheckResponse => 0x0107
  | UCreateSparse => 0x0108 | UCreateSparseResponse => 0x0109 | UWriteRange => 0x010A
  | UWriteRangeResponse => 0x010B | UFinalize => 0x010C | UFinalizeResponse => 0x010D
  end.

Definition uds_types : list UdsType :=
  [UGet; UGetResponse; UPut; UPutResponse; UDelete; UDeleteResponse; UCheck; UCheckResponse;
   UCreateSparse; UCreateSparseResponse; UWriteRange; UWriteRangeResponse; UFinalize; UFinalizeResponse].

Definition uds_type (z : Z) : option UdsType := snd <$> list_find (fun t => uds_code t = z) uds_types.

(** ** Reading and writing the socket *)

(** [recv]: at most [remaining] bytes of the next piece; nothing means end of file or an error. *)
Definition recv (remaining : Z) (input : list bytes) : bytes * list bytes :=
  match input with
  | [] => ([], [])
  | f :: rest =>
      let left := drop (Z.to_nat remaining) f in
      (take (Z.to_nat remaining) f, if bool_decide (left = []) then rest else left :: rest)
  end.

(** [read_all]: loop variables [remaining], the buffer so far, and the connection. *)
Definition read_all_step (s : Z * bytes * list bytes) : (Z * bytes * list bytes) + (option bytes * list bytes) :=
  let '(remaining, buf, input) := s in
  if 0 <? remaining then
    let '(got, input') := recv remaining input in
    if size_of got <=? 0 then inr (None, input')
    else inl (remaining - size_of got, buf ++ got, input')
  else inr (Some buf, input).

(** Every round but the last uses up a piece. *)
Definition read_all (len : Z) (c : Conn) : outcome (option bytes * Conn) :=
  match loop (S (S (length (c_in c)))) read_all_step (len, [], c_in c) with
  | Some (r, input') => Done (r, mkConn input' (c_out c) (c_sched c))
  | None => Spin
  end.

(** [send]: how many bytes of the rest are accepted; not positive is an error. *)
Definition send_some (rest : bytes) (sched : list Z) : Z * list Z :=
  match sched with
  | [] => (size_of rest, [])
  | n :: sched' => (Z.min n (size_of rest), sched')
  end.

(** [write_all]: the bytes still to send, the bytes sent, and the schedule. *)
Definition write_all_step (s : bytes * bytes * list Z) : (bytes * bytes * list Z) + (bool * bytes * list Z) :=
  let '(rest, out, sched) := s in
  if 0 <? size_of rest then
    let '(n, sched') := send_some rest sched in
    if n <=? 0 then inr (false, out, sched')
    else inl (drop (Z.to_nat n) rest, out ++ take (Z.to_nat n) rest, sched')
  else inr (true, out, sched).

Definition write_all (buf : bytes) (c : Conn) : outcome (bool * Conn) :=
  match loop (S (S (length (c_sched c)))) write_all_step (buf, c_out c, c_sched c) with
  | Some (ok, out, sched) => Done (ok, mkConn (c_in c) out sched)
  | None => Spin
  end.

Abbreviation Clock := (bytes -> Z).

(** ** Integers in buffers *)

Definition load (buf : bytes) (pos : Z) : outcome Z :=
  match buf !! Z.to_nat pos with Some b => Done (Z_of_byte b) | None => Undef end.

Definition uds_encode_u16 (v : Z) : bytes := [byte_of_Z (Z.land v 0xFF); byte_of_Z (Z.land (Z.shiftr v 8) 0xFF)].

Definition uds_encode_u32 (v : Z) : bytes :=
  [byte_of_Z (Z.land v 0xFF); byte_of_Z (Z.land (Z.shiftr v 8) 0xFF);
   byte_of_Z (Z.land (Z.shiftr v 16) 0xFF); byte_of_Z (Z.land (Z.shiftr v 24) 0xFF)].

Definition uds_encode_u64 (v : Z) : bytes :=
  (fun i => byte_of_Z (Z.land (Z.shiftr v (i * 8)) 0xFF)) <$> [0; 1; 2; 3; 4; 5; 6; 7].

(** [buf[1]] is widened to [int] before it is shifted; the result is converted to [uint16_t]. *)
Definition uds_decode_u16 (buf : bytes) (pos : Z) : outcome Z :=
  b0 ← load buf pos; b1 ← load buf (pos + 1);
  Done (u16 (Z.lor b0 (Z.shiftl b1 8))).

Definition uds_decode_u32 (buf : bytes) (pos : Z) : outcome Z :=
  b0 ← load buf pos; b1 ← load buf (pos + 1); b2 ← load buf (pos + 2); b3 ← load buf (pos + 3);
  Done (Z.lor (Z.lor (Z.lor b0 (u32 (Z.shiftl b1 8))) (u32 (Z.shiftl b2 16))) (u32 (Z.shiftl b3 24))).

Fixpoint decode_u64_from (buf : bytes) (pos : Z) (ixs : list Z) (v : Z) : outcome Z :=
  match ixs with
  | [] => Done v
  | i :: ixs' => b ← load buf (pos + i); decode_u64_from buf pos ixs' (Z.lor v (u64 (Z.shiftl b (i * 8))))
  end.

Definition uds_decode_u64 (buf : bytes) (pos : Z) : outcome Z := decode_u64_from buf pos [0; 1; 2; 3; 4; 5; 6; 7] 0.

(** ** Headers and payloads *)

Definition uds_header (now : Z) (type payload_len request_id : Z) : bytes :=
  encode_u32 MAGIC ++ encode_u16 VERSION ++ encode_u16 type ++ encode_u32 payload_len ++
  encode_u32 request_id ++ encode_u64 (u64 (u64 now * 1000)).

(** [decode_u32(buf + pos)] and the like: undefined past the end of the buffer. These are the server's own
    functions above by [uds_decode_u32_eq] and the lemmas next to it. *)
Definition peek {A} (dec : decoder A) (buf : bytes) (pos : Z) : outcome A :=
  match dec (drop (Z.to_nat pos) buf) with Done (v, _) => Done v | _ => Undef end.

(** [std::string(payload + pos, n)] and [vector(payload + pos, payload + pos + n)]. *)
Definition peek_bytes (buf : bytes) (pos n : Z) : outcome bytes :=
  if size_of buf <? pos + n then Undef else Done (slice pos n buf).

Definition send_response_sync (now : Clock) (c : Conn) (type : UdsType) (request_id : Z) (payload : bytes)
  : outcome (bool * Conn) :=
  write_all (uds_header (now (c_out c)) (uds_code type) (u32 (size_of payload)) request_id ++ payload) c.

(** ** Handlers (threads) *)

(** The bytes a [Get] returns. *)
Definition get_result_data (found : option bytes) (has_range : bool) (offset length : Z) : bytes :=
  match found with
  | None => []
  | Some value =>
      if has_range then
        if offset <? size_of value then
          let available := size_of value - offset in
          let to_copy := if (0 <? length) && (length <? available) then length else available in
          slice offset to_copy value
        else []
      else value
  end.

Definition get_response (found : option bytes) (result_data : bytes) : bytes :=
  encode_u32 (match found with Some _ => 0 | None => 1 end) ++ [x00] ++
  encode_u32 (u32 (size_of result_data)) ++ result_data.

Definition handle_get_thread (now : Clock) (s : Server) (c : Conn) (payload : bytes) (request_id : Z)
  : outcome (Server * Conn) :=
  let len := size_of payload in
  if len <? 4 then Done (s, c)
  else
    key_len ← peek decode_u32 payload 0;
    if len <? u32 (4 + key_len + 2) then Done (s, c)
    else
      key ← peek_bytes payload 4 key_len;
      let pos := u32 (4 + key_len) in
      let pos := pos + 1 in
      flag ← peek decode_flag payload pos;
      let pos := pos + 1 in
      '(offset, length) ←
        (if flag && (pos + 16 <=? len) then
           o ← peek decode_u64 payload pos;
           l ← peek decode_u64 payload (pos + 8);
           Done (o, l)
         else Done (0, 0));
      let found := sync_get (g_sync s) key in
      let result_data := get_result_data found flag offset length in
      '(_, c') ← send_response_sync now c UGetResponse request_id (get_response found result_data);
      Done (s, c').

Definition handle_put_thread (now : Clock) (s : Server) (c : Conn) (payload : bytes) (request_id : Z)
  : outcome (Server * Conn) :=
  let len := size_of payload in
  if len <? 8 then Done (s, c)
  else
    key_len ← peek decode_u32 payload 0;
    if len <? u32 (4 + key_len + 4) then Done (s, c)
    else
      key ← peek_bytes payload 4 key_len;
      let pos := u32 (4 + key_len) in
      value_len ← peek decode_u32 payload pos;
      let pos := pos + 4 in
      if len <? pos + value_len then Done (s, c)
      else
        value ← peek_bytes payload pos value_len;
        let s' := mkServer (sync_put (g_sync s) key value) (g_sparse s) in
        '(_, c') ← send_response_sync now c UPutResponse request_id (encode_u32 0);
        Done (s', c').

Definition handle_delete_thread (now : Clock) (s : Server) (c : Conn) (payload : bytes) (request_id : Z)
  : outcome (Server * Conn) :=
  let len := size_of payload in
  if len <? 4 then Done (s, c)
  else
    key_len ← peek decode_u32 payload 0;
    if len <? u32 (4 + key_len) then Done (s, c)
    else
      key ← peek_bytes payload 4 key_len;
      let s' := mkServer (sync_remove (g_sync s) key).2 (g_sparse s) in
      '(_, c') ← send_response_sync now c UDeleteResponse request_id (encode_u32 0);
      Done (s', c').

Definition handle_create_sparse_thread (now : Clock) (s : Server) (c : Conn) (payload : bytes) (request_id : Z)
  : outcome (Server * Conn) :=
  let len := size_of payload in
  if len <? 4 then Done (s, c)
  else
    key_len ← peek decode_u32 payload 0;
    if len <? u32 (4 + key_len + 8) then Done (s, c)
    else
      key ← peek_bytes payload 4 key_len;
      let pos := u32 (4 + key_len) in
      total_size ← peek decode_u64 payload pos;
      let '(created, sp) := sparse_create (g_sparse s) key total_size in
      '(_, c') ← send_response_sync now c UCreateSparseResponse request_id
                   (encode_u32 (if created : bool then 0 else 1));
      Done (mkServer (g_sync s) sp, c').

Definition handle_write_range_thread (now : Clock) (s : Server) (c : Conn) (payload : bytes) (request_id : Z)
  : outcome (Server * Conn) :=
  let len := size_of payload in
  if len <? 4 then Done (s, c)
  else
    key_len ← peek decode_u32 payload 0;
    if len <? u32 (4 + key_len + 8 + 4) then Done (s, c)
    else
      key ← peek_bytes payload 4 key_len;
      let pos := u32 (4 + key_len) in
      offset ← peek decode_u64 payload pos;
      let pos := pos + 8 in
      data_len ← peek decode_u32 payload pos;
      let pos := pos + 4 in
      if len <? pos + data_len then Done (s, c)
      else
        data ← peek_bytes payload pos data_len;
        '(success, sp) ← sparse_write_range (g_sparse s) key offset data;
        let code := if success : bool then 0 else if negb (sparse_exists sp key) then 1 else 2 in
        '(_, c') ← send_response_sync now c UWriteRangeResponse request_id (encode_u32 code);
        Done (mkServer (g_sync s) sp, c').

Definition handle_finalize_thread (now : Clock) (s : Server) (c : Conn) (payload : bytes) (request_id : Z)
  : outcome (Server * Conn) :=
  let len := size_of payload in
  if len <? 4 then Done (s, c)
  else
    key_len ← peek decode_u32 payload 0;
    if len <? u32 (4 + key_len) then Done (s, c)
    else
      key ← peek_bytes payload 4 key_len;
      let '(result, data, sp) := sparse_finalize (g_sparse s) key in
      let sy := if result =? 0 then sync_put (g_sync s) key data else g_sync s in
      '(_, c') ← send_response_sync now c UFinalizeResponse request_id (encode_u32 result);
      Done (mkServer sy sp, c').

(** ** Requests (threads) *)

(** The switch on the message type; other types are ignored without an answer. *)
Definition dispatch_thread (now : Clock) (s : Server) (c : Conn) (msg_type : Z) (payload : bytes) (request_id : Z)
  : outcome (Server * Conn) :=
  match uds_type msg_type with
  | Some UGet => handle_get_thread now s c payload request_id
  | Some UPut => handle_put_thread now s c payload request_id
  | Some UDelete => handle_delete_thread now s c payload request_id
  | Some UCreateSparse => handle_create_sparse_thread now s c payload request_id
  | Some UWriteRange => handle_write_range_thread now s c payload request_id
  | Some UFinalize => handle_finalize_thread now s c payload request_id
  | _ => Done (s, c)
  end.

Definition process_request_thread (now : Clock) (s : Server) (c : Conn) : outcome (bool * Server * Conn) :=
  '(header, c1) ← read_all HEADER_SIZE c;
  match header with
  | None => Done (false, s, c1)
  | Some header =>
      magic ← peek decode_u32 header 0;
      if negb (magic =? MAGIC) then Done (false, s, c1)
      else
        msg_type ← peek decode_u16 header 6;
        payload_len ← peek decode_u32 header 8;
        request_id ← peek decode_u32 header 12;
        '(payload, c2) ← (if 0 <? payload_len then read_all payload_len c1 else Done (Some [], c1));
        match payload with
        | None => Done (false, s, c2)
        | Some payload =>
            '(s', c3) ← dispatch_thread now s c2 msg_type payload request_id;
            Done (true, s', c3)
        end
  end.

Definition client_step (now : Clock) (s : Server * Conn) : (Server * Conn) + outcome (Server * Conn) :=
  match process_request_thread now s.1 s.2 with
  | Done (true, s', c') => inl (s', c')
  | Done (false, s', c') => inr (Done (s', c'))
  | Throw w => inr (Throw w)
  | Undef => inr Undef
  | Spin => inr Spin
  end.

(** While [running_]: every request takes at least a header from the input. *)
Definition handle_client_thread (now : Clock) (s : Server) (c : Conn) : outcome (Server * Conn) :=
  default Spin (loop (S (length (concat (c_in c)))) (client_step now) (s, c)).

(** ** The coroutine version

    The same protocol over [uds_stream]: its own read and write loops, which count up instead of down,
    and its own copy of every handler. Debug output is left out. *)

Definition read_stream_step (len : Z) (s : Z * bytes * list bytes)
  : (Z * bytes * list bytes) + (option bytes * list bytes) :=
  let '(total_read, buf, input) := s in
  if total_read <? len then
    let '(got, input') := recv (len - total_read) input in
    if size_of got <=? 0 then inr (None, input')
    else inl (total_read + size_of got, buf ++ got, input')
  else inr (Some buf, input).

Definition read_stream (len : Z) (c : Conn) : outcome (option bytes * Conn) :=
  match loop (S (S (length (c_in c)))) (read_stream_step len) (0, [], c_in c) with
  | Some (r, input') => Done (r, mkConn input' (c_out c) (c_sched c))
  | None => Spin
  end.

Definition write_stream_step (msg : bytes) (s : Z * bytes * list Z) : (Z * bytes * list Z) + (bool * bytes * list Z) :=
  let '(total_written, out, sched) := s in
  if total_written <? size_of msg then
    let rest := drop (Z.to_nat total_written) msg in
    let '(n, sched') := send_some rest sched in
    if n <=? 0 then inr (false, out, sched')
    else inl (total_written + n, out ++ take (Z.to_nat n) rest, sched')
  else inr (true, out, sched).

Definition write_stream (msg : bytes) (c : Conn) : outcome (bool * Conn) :=
  match loop (S (S (length (c_sched c)))) (write_stream_step msg) (0, c_out c, c_sched c) with
  | Some (ok, out, sched) => Done (ok, mkConn (c_in c) out sched)
  | None => Spin
  end.

Definition send_response (now : Clock) (c : Conn) (type : UdsType) (request_id : Z) (payload : bytes)
  : outcome (bool * Conn) :=
  write_stream (uds_header (now (c_out c)) (uds_code type) (u32 (size_of payload)) request_id ++ payload) c.

Definition handle_get_async (now : Clock) (s : Server) (c : Conn) (payload : bytes) (request_id : Z)
  : outcome (Server * Conn) :=
  let len := size_of payload in
  if len <? 4 then Done (s, c)
  else
    key_len ← peek decode_u32 payload 0;
    if len <? u32 (4 + key_len + 2) then Done (s, c)
    else
      key ← peek_bytes payload 4 key_len;
      let pos := u32 (4 + key_len) in
      let pos := pos + 1 in
      flag ← peek decode_flag payload pos;
      let pos := pos + 1 in
      '(offset, length) ←
        (if flag && (pos + 16 <=? len) then
           o ← peek decode_u64 payload pos;
           l ← peek decode_u64 payload (pos + 8);
           Done (o, l)
         else Done (0, 0));
      let found := sync_get (g_sync s) key in
      let result_data := get_result_data found flag offset length in
      '(_, c') ← send_response now c UGetResponse request_id (get_response found result_data);
      Done (s, c').

Definition handle_put_async (now : Clock) (s : Server) (c : Conn) (payload : bytes) (request_id : Z)
  : outcome (Server * Conn) :=
  let len := size_of payload in
  if len <? 8 then Done (s, c)
  else
    key_len ← peek decode_u32 payload 0;
    if len <? u32 (4 + key_len + 4) then Done (s, c)
    else
      key ← peek_bytes payload 4 key_len;
      let pos := u32 (4 + key_len) in
      value_len ← peek decode_u32 payload pos;
      let pos := pos + 4 in
      if len <? pos + value_len then Done (s, c)
      else
        value ← peek_bytes payload pos value_len;
        let s' := mkServer (sync_put (g_sync s) key value) (g_sparse s) in
        '(_, c') ← send_response now c UPutResponse request_id (encode_u32 0);
        Done (s', c').

Definition handle_delete_async (now : Clock) (s : Server) (c : Conn) (payload : bytes) (request_id : Z)
  : outcome (Server * Conn) :=
  let len := size_of payload in
  if len <? 4 then Done (s, c)
  else
    key_len ← peek decode_u32 payload 0;
    if len <? u32 (4 + key_len) then Done (s, c)
    else
      key ← peek_bytes payload 4 key_len;
      let s' := mkServer (sync_remove (g_sync s) key).2 (g_sparse s) in
      '(_, c') ← send_response now c UDeleteResponse request_id (encode_u32 0);
      Done (s', c').

Definition handle_create_sparse_async (now : Clock) (s : Server) (c : Conn) (payload : bytes) (request_id : Z)
  : outcome (Server * Conn) :=
  let len := size_of payload in
  if len <? 4 then Done (s, c)
  else
    key_len ← peek decode_u32 payload 0;
    if len <? u32 (4 + key_len + 8) then Done (s, c)
    else
      key ← peek_bytes payload 4 key_len;
      let pos := u32 (4 + key_len) in
      total_size ← peek decode_u64 payload pos;
      let '(created, sp) := sparse_create (g_sparse s) key total_size in
      '(_, c') ← send_response now c UCreateSparseResponse request_id
                   (encode_u32 (if created : bool then 0 else 1));
      Done (mkServer (g_sync s) sp, c').

Definition handle_write_range_async (now : Clock) (s : Server) (c : Conn) (payload : bytes) (request_id : Z)
  : outcome (Server * Conn) :=
  let len := size_of payload in
  if len <? 4 then Done (s, c)
  else
    key_len ← peek decode_u32 payload 0;
    if len <? u32 (4 + key_len + 8 + 4) then Done (s, c)
    else
      key ← peek_bytes payload 4 key_len;
      let pos := u32 (4 + key_len) in
      offset ← peek decode_u64 payload pos;
      let pos := pos + 8 in
      data_len ← peek decode_u32 payload pos;
      let pos := pos + 4 in
      if len <? pos + data_len then Done (s, c)
      else
        data ← peek_bytes payload pos data_len;
        '(success, sp) ← sparse_write_range (g_sparse s) key offset data;
        let code := if success : bool then 0 else if negb (sparse_exists sp key) then 1 else 2 in
        '(_, c') ← send_response now c UWriteRangeResponse request_id (encode_u32 code);
        Done (mkServer (g_sync s) sp, c').

Definition handle_finalize_async (now : Clock) (s : Server) (c : Conn) (payload : bytes) (request_id : Z)
  : outcome (Server * Conn) :=
  let len := size_of payload in
  if len <? 4 then Done (s, c)
  else
    key_len ← peek decode_u32 payload 0;
    if len <? u32 (4 + key_len) then Done (s, c)
    else
      key ← peek_bytes payload 4 key_len;
      let '(result, data, sp) := sparse_finalize (g_sparse s) key in
      let sy := if result =? 0 then sync_put (g_sync s) key data else g_sync s in
      '(_, c') ← send_response now c UFinalizeResponse request_id (encode_u32 result);
      Done (mkServer sy sp, c').

Definition dispatch_async (now : Clock) (s : Server) (c : Conn) (msg_type : Z) (payload : bytes) (request_id : Z)
  : outcome (Server * Conn) :=
  match uds_type msg_type with
  | Some UGet => handle_get_async now s c payload request_id
  | Some UPut => handle_put_async now s c payload request_id
  | Some UDelete => handle_delete_async now s c payload request_id
  | Some UCreateSparse => handle_create_sparse_async now s c payload request_id
  | Some UWriteRange => handle_write_range_async now s c payload request_id
  | Some UFinalize => handle_finalize_async now s c payload request_id
  | _ => Done (s, c)
  end.

Definition process_request_async (now : Clock) (s : Server) (c : Conn) : outcome (bool * Server * Conn) :=
  '(header, c1) ← read_stream HEADER_SIZE c;
  match header with
  | None => Done (false, s, c1)
  | Some header =>
      magic ← peek decode_u32 header 0;
      if negb (magic =? MAGIC) then Done (false, s, c1)
      else
        msg_type ← peek decode_u16 header 6;
        payload_len ← peek decode_u32 header 8;
        request_id ← peek decode_u32 header 12;
        '(payload, c2) ← (if 0 <? payload_len then read_stream payload_len c1 else Done (Some [], c1));
        match payload with
        | None => Done (false, s, c2)
        | Some payload =>
            '(s', c3) ← dispatch_async now s c2 msg_type payload request_id;
            Done (true, s', c3)
        end
  end.

Definition client_async_step (now : Clock) (s : Server * Conn) : (Server * Conn) + outcome (Server * Conn) :=
  match process_request_async now s.1 s.2 with
  | Done (true, s', c') => inl (s', c')
  | Done (false, s', c') => inr (Done (s', c'))
  | Throw w => inr (Throw w)
  | Undef => inr Undef
  | Spin => inr Spin
  end.

Definition handle_client_async (now : Clock) (s : Server) (c : Conn) : outcome (Server * Conn) :=
  default Spin (loop (S (length (concat (c_in c)))) (client_async_step now) (s, c)).

(** ** The socket loops *)

(** The kernel delivers non-empty pieces. *)
Definition pieces_ok (input : list bytes) : Prop := Forall (fun f => f <> []) input.

Lemma recv_spec rem input :
  0 < rem -> pieces_ok input ->
  let '(got, input') := recv rem input in
  pieces_ok input' /\ got ++ concat input' = concat input /\ size_of got <= rem /\
  (size_of got <= 0 -> concat input = []) /\
  (0 < size_of got -> (length input' < length input)%nat \/ size_of got = rem).
Proof.
  intros Hr Hok. destruct input as [|f rest]; simpl.
  { rewrite !size_of_nil. split_and!; done || lia. }
  apply Forall_cons in Hok as [Hf Hok]. unfold size_of. rewrite length_take.
  split_and!.
  - case_bool_decide; [done|]. by constructor.
  - case_bool_decide as E; simpl; [|by rewrite app_assoc, take_drop].
    rewrite <- (take_drop (Z.to_nat rem) f) at 2. by rewrite E, app_nil_r.
  - lia.
  - intros Hz. destruct f; [done|]. simpl in Hz. lia.
  - intros Hp. case_bool_decide as E; [left; simpl; lia|right].
    assert (Z.to_nat rem < length f)%nat; [|lia].
    destruct (decide (Z.to_nat rem < length f)%nat); [done|]. by rewrite drop_ge in E by lia.
Qed.

Lemma read_all_loop (fuel : nat) : forall rem buf input,
  pieces_ok input -> 0 <= rem -> (S (length input) < fuel)%nat \/ ((0 < fuel)%nat /\ rem = 0) ->
  exists input', loop fuel read_all_step (rem, buf, input) =
      Some (if rem <=? size_of (concat input) then Some (buf ++ take (Z.to_nat rem) (concat input)) else None, input') /\
    pieces_ok input' /\ (rem <= size_of (concat input) -> concat input' = drop (Z.to_nat rem) (concat input)).
Proof.
  induction fuel as [|fuel IH]; intros rem buf input Hok Hr Hf; [lia|]. cbn [loop read_all_step].
  pose proof (size_of_nonneg (concat input)).
  destruct (Z.ltb_spec 0 rem) as [Hp|Hp].
  2: { assert (rem = 0) as -> by lia. destruct (Z.leb_spec 0 (size_of (concat input))); [|lia].
       exists input. by rewrite take_0, app_nil_r, drop_0. }
  pose proof (recv_spec rem input Hp Hok) as Hrecv. destruct (recv rem input) as [got input'].
  destruct Hrecv as (Hok' & Hcat & Hle & Hz & Hprog). destruct (Z.leb_spec (size_of got) 0) as [Hg|Hg].
  - rewrite (Hz Hg), size_of_nil. destruct (Z.leb_spec rem 0); [lia|]. exists input'. split_and!; [done..|lia].
  - destruct (IH (rem - size_of got) (buf ++ got) input') as (in2 & -> & Hok2 & Hrest); [done|lia| |].
    { destruct (Hprog Hg) as [?|?]; [left; lia|right; lia]. }
    exists in2. rewrite <- Hcat, size_of_app. rewrite <- Hcat, size_of_app in *.
    destruct (Z.leb_spec (rem - size_of got) (size_of (concat input'))) as [Hl|Hl],
             (Z.leb_spec rem (size_of got + size_of (concat input'))); try lia.
    + assert (Z.to_nat rem = length got + Z.to_nat (rem - size_of got))%nat as E by (unfold size_of in *; lia).
      rewrite E, take_app_add, drop_app_add, app_assoc. split_and!; [done..|]. intros _. by apply Hrest.
    + split_and!; [done..|lia].
Qed.

Lemma read_all_spec len c :
  pieces_ok (c_in c) -> 0 <= len ->
  exists input', read_all len c =
      Done (if len <=? size_of (concat (c_in c)) then Some (take (Z.to_nat len) (concat (c_in c))) else None,
            mkConn input' (c_out c) (c_sched c)) /\
    pieces_ok input' /\
    (len <= size_of (concat (c_in c)) -> concat input' = drop (Z.to_nat len) (concat (c_in c))).
Proof.
  intros Hok Hl. unfold read_all.
  destruct (read_all_loop (S (S (length (c_in c)))) len [] (c_in c) Hok Hl) as (input' & -> & Hok' & Hc); [by left; lia|].
  by exists input'.
Qed.

(** The peer takes something with every write. *)
Definition sched_ok (sched : list Z) : Prop := Forall (fun n => 0 < n) sched.

Lemma write_all_loop (fuel : nat) : forall rest out sched,
  sched_ok sched -> (S (length sched) < fuel)%nat \/ ((0 < fuel)%nat /\ rest = []) ->
  exists sched', loop fuel write_all_step (rest, out, sched) = Some (true, out ++ rest, sched') /\ sched_ok sched'.
Proof.
  induction fuel as [|fuel IH]; intros rest out sched Hok Hf; [lia|]. cbn [loop write_all_step].
  destruct (Z.ltb_spec 0 (size_of rest)) as [Hp|Hp].
  2: { pose proof (size_of_nonneg rest). assert (rest = []) as -> by (apply size_of_zero; lia).
       exists sched. by rewrite app_nil_r. }
  destruct Hf as [Hf|[_ ->]]; [|done]. destruct sched as [|n sched]; cbn [send_some].
  - destruct (Z.leb_spec (size_of rest) 0); [lia|].
    destruct (IH (drop (Z.to_nat (size_of rest)) rest) (out ++ take (Z.to_nat (size_of rest)) rest) [])
      as (sched' & -> & ?); [done|right; split; [simpl in Hf; lia|]|].
    { unfold size_of. rewrite Nat2Z.id. apply drop_all. }
    exists sched'. by rewrite <- app_assoc, take_drop.
  - apply Forall_cons in Hok as [Hn Hok]. destruct (Z.leb_spec (Z.min n (size_of rest)) 0); [lia|].
    destruct (IH (drop (Z.to_nat (Z.min n (size_of rest))) rest)
                 (out ++ take (Z.to_nat (Z.min n (size_of rest))) rest) sched) as (sched' & -> & ?);
      [done|left; simpl in Hf; lia|].
    exists sched'. by rewrite <- app_assoc, take_drop.
Qed.

Lemma write_all_spec buf c :
  sched_ok (c_sched c) ->
  exists sched', write_all buf c = Done (true, mkConn (c_in c) (c_out c ++ buf) sched') /\ sched_ok sched'.
Proof.
  intros Hok. unfold write_all.
  destruct (write_all_loop (S (S (length (c_sched c)))) buf (c_out c) (c_sched c) Hok) as (sched' & -> & ?);
    [left; lia|eauto].
Qed.

(** ** Coroutines and threads agree *)

Lemma read_stream_eq len c : read_stream len c = read_all len c.
Proof.
  unfold read_stream, read_all.
  rewrite (loop_lockstep (fun s1 s2 : Z * bytes * list bytes => s2 = (len - s1.1.1, s1.1.2, s1.2))
    (read_stream_step len) read_all_step) with (s2 := (len, [], c_in c)); [done| |].
  - intros [[t b] i] s2 ->. cbn [fst snd read_stream_step read_all_step].
    destruct (Z.ltb_spec t len), (Z.ltb_spec 0 (len - t)); try lia; [|done].
    destruct (recv (len - t) i) as [got i']. destruct (size_of got <=? 0); [done|]. simpl. do 2 f_equal. lia.
  - simpl. do 2 f_equal. lia.
Qed.

Lemma write_stream_eq msg c : write_stream msg c = write_all msg c.
Proof.
  unfold write_stream, write_all.
  rewrite (loop_lockstep (fun (s1 : Z * bytes * list Z) (s2 : bytes * bytes * list Z) =>
      0 <= s1.1.1 <= size_of msg /\ s2 = (drop (Z.to_nat s1.1.1) msg, s1.1.2, s1.2))
    (write_stream_step msg) write_all_step) with (s2 := (msg, c_out c, c_sched c)); [done| |].
  - intros [[t' o] sc] s2 [Ht ->]. cbn [fst snd] in *. cbn [write_stream_step write_all_step].
    assert (size_of (drop (Z.to_nat t') msg) = size_of msg - t') as Hd
      by (unfold size_of in *; rewrite length_drop; lia).
    destruct (Z.ltb_spec t' (size_of msg)), (Z.ltb_spec 0 (size_of (drop (Z.to_nat t') msg))); try lia; [|done].
    assert ((send_some (drop (Z.to_nat t') msg) sc).1 <= size_of msg - t') as Hn
      by (destruct sc; simpl; lia).
    destruct (send_some (drop (Z.to_nat t') msg) sc) as [n sc']. simpl in Hn.
    destruct (Z.leb_spec n 0); [done|]. simpl. split; [lia|]. rewrite drop_drop. do 3 f_equal. lia.
  - simpl. pose proof (size_of_nonneg msg). split; [lia|done].
Qed.

Lemma send_response_eq now c t rid payload : send_response now c t rid payload = send_response_sync now c t rid payload.
Proof. apply write_stream_eq. Qed.

Lemma dispatch_async_eq now s c t payload rid : dispatch_async now s c t payload rid = dispatch_thread now s c t payload rid.
Proof.
  unfold dispatch_async, dispatch_thread. destruct (uds_type t) as [[]|]; try done;
    unfold handle_get_async, handle_put_async, handle_delete_async, handle_create_sparse_async,
      handle_write_range_async, handle_finalize_async,
      handle_get_thread, handle_put_thread, handle_delete_thread, handle_create_sparse_thread,
      handle_write_range_thread, handle_finalize_thread.
  all: repeat first [done | rewrite send_response_eq
    | match goal with |- context [if ?b then _ else _] => destruct b end
    | match goal with |- mbind _ ?m = mbind _ ?m => destruct m as [?| | |]; cbn [mbind outcome_bind] end
    | match goal with |- context [let '(_, _) := ?p in _] => destruct p end].
Qed.

Lemma process_request_eq now s c : process_request_async now s c = process_request_thread now s c.
Proof.
  unfold process_request_async, process_request_thread. rewrite read_stream_eq.
  destruct (read_all HEADER_SIZE c) as [[[header|] c1]| | |]; cbn [mbind outcome_bind]; try done.
  destruct (peek decode_u32 header 0) as [magic| | |]; cbn [mbind outcome_bind]; try done.
  destruct (negb (magic =? MAGIC)); [done|].
  destruct (peek decode_u16 header 6) as [t| | |]; cbn [mbind outcome_bind]; try done.
  destruct (peek decode_u32 header 8) as [len| | |]; cbn [mbind outcome_bind]; try done.
  destruct (peek decode_u32 header 12) as [rid| | |]; cbn [mbind outcome_bind]; try done.
  rewrite read_stream_eq. destruct (if 0 <? len then read_all len c1 else Done (Some [], c1)) as [[[p|] c2]| | |];
    cbn [mbind outcome_bind]; try done.
  by rewrite dispatch_async_eq.
Qed.

(** ** Requests as clients send them *)

Inductive UdsReq :=
| QGet (key : bytes) (metadata_only : bool) (range : option Range)
| QPut (key value options : bytes)
| QDelete (key : bytes)
| QCreateSparse (key : bytes) (total_size : Z) (options : bytes)
| QWriteRange (key : bytes) (offset : Z) (data : bytes)
| QFinalize (key : bytes).

Definition req_type (q : UdsReq) : UdsType :=
  match q with
  | QGet _ _ _ => UGet | QPut _ _ _ => UPut | QDelete _ => UDelete
  | QCreateSparse _ _ _ => UCreateSparse | QWriteRange _ _ _ => UWriteRange | QFinalize _ => UFinalize
  end.

Definition req_payload (q : UdsReq) : bytes :=
  match q with
  | QGet key metadata_only range => encode_string key ++ encode_bool metadata_only ++ encode_opt_range range
  | QPut key value options => encode_string key ++ encode_string value ++ options
  | QDelete key => encode_string key
  | QCreateSparse key total_size options => encode_string key ++ encode_u64 total_size ++ options
  | QWriteRange key offset data => encode_string key ++ encode_u64 offset ++ encode_string data
  | QFinalize key => encode_string key
  end.

Definition req_ok (q : UdsReq) : Prop :=
  size_of (req_payload q) < 2 ^ 32 /\
  match q with
  | QGet _ _ range => opt_ok range_u64 range
  | QCreateSparse _ total_size _ => is_u64 total_size
  | QWriteRange _ offset data => 0 <= offset /\ offset + size_of data < 2 ^ 64
  | _ => True
  end.

(** ** What the server promises

    The abstract state: the values by key, and per sparse key its size and accepted writes. *)
Record UdsSpec := mkSpec { sp_values : gmap bytes bytes; sp_sparse : sparse_spec }.

(** The part of a value a range asks for; length 0 means to the end. *)
Definition range_of (range : option Range) (value : bytes) : bytes :=
  match range with
  | None => value
  | Some r =>
      let rest := drop (Z.to_nat (r_offset r)) value in
      if r_length r =? 0 then rest else take (Z.to_nat (r_length r)) rest
  end.

(** The type and payload of the answer, and the new state. *)
Definition req_spec (m : UdsSpec) (q : UdsReq) : UdsType * bytes * UdsSpec :=
  let code n := encode_u32 n in
  match q with
  | QGet key _ range =>
      (UGetResponse,
       match sp_values m !! key with
       | None => code 1 ++ [x00] ++ encode_bytes []
       | Some value => code 0 ++ [x00] ++ encode_bytes (range_of range value)
       end, m)
  | QPut key value _ => (UPutResponse, code 0, mkSpec (<[key := value]> (sp_values m)) (sp_sparse m))
  | QDelete key => (UDeleteResponse, code 0, mkSpec (delete key (sp_values m)) (sp_sparse m))
  | QCreateSparse key n _ =>
      (UCreateSparseResponse, code (match sp_sparse m !! key with None => 0 | Some _ => 1 end),
       mkSpec (sp_values m) (spec_step (sp_sparse m) (SCreate key n)).2)
  | QWriteRange key offset data =>
      (UWriteRangeResponse,
       code (match sp_sparse m !! key with
             | None => 1
             | Some (n, _) => if write_fits n offset data then 0 else 2
             end),
       mkSpec (sp_values m) (spec_step (sp_sparse m) (SWrite key offset data)).2)
  | QFinalize key =>
      match sp_sparse m !! key with
      | None => (UFinalizeResponse, code 1, m)
      | Some (n, ws) =>
          if all_written n ws
          then (UFinalizeResponse, code 0,
                mkSpec (<[key := contents n ws]> (sp_values m)) (delete key (sp_sparse m)))
          else (UFinalizeResponse, code 2, m)
      end
  end.

Definition server_rel (s : Server) (m : UdsSpec) : Prop :=
  g_sync s = sp_values m /\ sparse_rel (g_sparse s) (sp_sparse m).

Lemma server_rel_empty : server_rel (mkServer ∅ ∅) (mkSpec ∅ ∅).
Proof. split; [done|]. intros key. simpl. by rewrite !lookup_empty. Qed.

(** ** Parsing well-formed payloads *)

Lemma encode_u32_size v : size_of (encode_u32 v) = 4.
Proof. done. Qed.

Lemma encode_u64_size v : size_of (encode_u64 v) = 8.
Proof. done. Qed.

(** The server's helpers write and read what the codec does. *)
Lemma uds_encode_eq v : uds_encode_u16 v = encode_u16 v /\ uds_encode_u32 v = encode_u32 v /\ uds_encode_u64 v = encode_u64 v.
Proof. unfold uds_encode_u16, uds_encode_u32, encode_u16, encode_u32, byte_at. by rewrite Z.shiftr_0_r. Qed.

Lemma load_drop buf pos i : 0 <= pos -> 0 <= i -> load buf (pos + i) = load (drop (Z.to_nat pos) buf) i.
Proof. intros. unfold load. rewrite lookup_drop. by replace (Z.to_nat (pos + i)) with (Z.to_nat pos + Z.to_nat i)%nat by lia. Qed.

Lemma uds_decode_u32_eq buf pos : 0 <= pos -> uds_decode_u32 buf pos = peek decode_u32 buf pos.
Proof.
  intros Hp. unfold uds_decode_u32, peek. rewrite <- (Z.add_0_r pos) at 1. rewrite !load_drop by lia.
  by destruct (drop (Z.to_nat pos) buf) as [|b0 [|b1 [|b2 [|b3 rest]]]].
Qed.

(** The conversion to [uint16_t] loses nothing. *)
Lemma uds_decode_u16_narrow buf pos : 0 <= pos ->
  uds_decode_u16 buf pos = (b0 ← load buf pos; b1 ← load buf (pos + 1); Done (Z.lor b0 (Z.shiftl b1 8))).
Proof.
  intros Hp. unfold uds_decode_u16, load. destruct (buf !! Z.to_nat pos) as [x|]; [|done]. cbn [mbind outcome_bind].
  destruct (buf !! Z.to_nat (pos + 1)) as [y|]; [|done]. cbn [mbind outcome_bind]. f_equal.
  pose proof (Z_of_byte_range x). pose proof (Z_of_byte_range y). rewrite lor_shiftl_add by lia. apply u16_small. split; lia.
Qed.

Lemma uds_decode_u16_eq buf pos : 0 <= pos -> uds_decode_u16 buf pos = peek decode_u16 buf pos.
Proof.
  intros Hp. rewrite uds_decode_u16_narrow by done. unfold peek. rewrite <- (Z.add_0_r pos) at 1. rewrite !load_drop by lia.
  destruct (drop (Z.to_nat pos) buf) as [|b0 [|b1 rest]]; try done. cbn -[Z.lor Z.shiftl Z_of_byte u16].
  rewrite u16_small; [done|]. pose proof (Z_of_byte_range b1). rewrite Z.shiftl_mul_pow2 by lia. split; lia.
Qed.

Lemma uds_decode_u64_eq buf pos : 0 <= pos -> uds_decode_u64 buf pos = peek decode_u64 buf pos.
Proof.
  intros Hp. unfold uds_decode_u64, peek, decode_u64. cbn [decode_u64_from]. rewrite !load_drop by lia.
  destruct (drop (Z.to_nat pos) buf) as [|b0 [|b1 [|b2 [|b3 [|b4 [|b5 [|b6 [|b7 rest]]]]]]]]; try reflexivity.
  rewrite !size_of_cons. pose proof (size_of_nonneg rest). rewrite (proj2 (Z.ltb_ge _ 8)) by lia. reflexivity.
Qed.

Lemma encode_string_size k : size_of (encode_string k) = 4 + size_of k.
Proof. unfold encode_string. by rewrite size_of_app, encode_u32_size. Qed.

Lemma peek_0 {A} (dec : decoder A) buf v d : dec buf = Done (v, d) -> peek dec buf 0 = Done v.
Proof. intros E. unfold peek. by rewrite drop_0, E. Qed.

Lemma peek_app {A} (dec : decoder A) pre rest pos :
  size_of pre <= pos -> peek dec (pre ++ rest) pos = peek dec rest (pos - size_of pre).
Proof.
  intros Hp. unfold peek, size_of in *. rewrite drop_app_ge by lia.
  by replace (Z.to_nat (pos - Z.of_nat (length pre))) with (Z.to_nat pos - length pre)%nat by lia.
Qed.

Lemma peek_bytes_skip pre rest pos n :
  size_of pre <= pos -> peek_bytes (pre ++ rest) pos n = peek_bytes rest (pos - size_of pre) n.
Proof.
  intros Hp. unfold peek_bytes. rewrite size_of_app, slice_app_r by done.
  destruct (Z.ltb_spec (size_of pre + size_of rest) (pos + n)),
    (Z.ltb_spec (size_of rest) (pos - size_of pre + n)); done || lia.
Qed.

Lemma peek_bytes_0 b rest n : n = size_of b -> peek_bytes (b ++ rest) 0 n = Done b.
Proof.
  intros ->. pose proof (size_of_nonneg b). pose proof (size_of_nonneg rest). unfold peek_bytes. rewrite size_of_app.
  destruct (Z.ltb_spec (size_of b + size_of rest) (0 + size_of b)); [lia|].
  rewrite slice_app_l by lia. by rewrite slice_all.
Qed.

Lemma peek_key_len k rest : size_of k < 2 ^ 32 -> peek decode_u32 (encode_string k ++ rest) 0 = Done (size_of k).
Proof.
  intros Hk. pose proof (size_of_nonneg k). unfold encode_string. rewrite <- app_assoc, u32_small by (split; lia).
  eapply peek_0. apply decode_encode_u32. split; lia.
Qed.

Lemma peek_key k rest : peek_bytes (encode_string k ++ rest) 4 (size_of k) = Done k.
Proof.
  unfold encode_string. rewrite <- app_assoc, peek_bytes_skip by done. rewrite encode_u32_size. by apply peek_bytes_0.
Qed.

(** ** The handlers do what is promised *)

Definition reply (now : Clock) (c : Conn) (rid : Z) (t : UdsType) (p : bytes) (s : Server) : outcome (Server * Conn) :=
  '(_, c') ← send_response_sync now c t rid p; Done (s, c').

(** [h] answers with [r]'s type and payload and moves to a state that represents [r]'s. *)
Definition answers (now : Clock) (c : Conn) (rid : Z) (h : outcome (Server * Conn)) (r : UdsType * bytes * UdsSpec) : Prop :=
  exists s', h = reply now c rid r.1.1 r.1.2 s' /\ server_rel s' r.2.

(** Sizes of the parts of a payload, and that none is negative. *)
Ltac payload_sizes :=
  rewrite ?size_of_app, ?encode_string_size, ?encode_u64_size in *;
  repeat match goal with
  | |- context [size_of ?l] => lazymatch goal with _ : 0 <= size_of l |- _ => fail | _ => pose proof (size_of_nonneg l) end
  | _ : context [size_of ?l] |- _ => lazymatch goal with _ : 0 <= size_of l |- _ => fail | _ => pose proof (size_of_nonneg l) end
  end.

(** A length check of the code that a well-formed payload passes. *)
Ltac guard_passes :=
  match goal with |- context [if ?a <? ?b then _ else _] => destruct (Z.ltb_spec a b); [lia|] end.

Ltac key_parsed :=
  payload_sizes; guard_passes; rewrite peek_key_len by lia; cbn [mbind outcome_bind];
  rewrite ?u32_small by (split; lia); guard_passes; rewrite peek_key; cbn [mbind outcome_bind].

(** Move a read past the key. *)
Ltac past_key dec :=
  rewrite (peek_app dec (encode_string _)) by (rewrite encode_string_size; lia); rewrite encode_string_size.

Lemma peek_range b r :
  range_u64 r ->
  peek decode_u64 (encode_bool b ++ encode_opt_range (Some r)) 2 = Done (r_offset r) /\
  peek decode_u64 (encode_bool b ++ encode_opt_range (Some r)) 10 = Done (r_length r).
Proof.
  intros [Ho Hl].
  assert (encode_bool b ++ encode_opt_range (Some r) =
          (encode_bool b ++ encode_bool true) ++ encode_u64 (r_offset r) ++ encode_u64 (r_length r) ++ []) as -> by done.
  split; rewrite peek_app by done; [|rewrite peek_app by done]; eapply peek_0; by apply decode_encode_u64.
Qed.

Lemma uds_type_code t : uds_type (uds_code t) = Some t.
Proof. by destruct t. Qed.

Section Handlers.
Context (now : Clock) (s : Server) (m : UdsSpec) (c : Conn) (rid : Z).
Hypothesis Hrel : server_rel s m.

Lemma handle_put_spec key value options :
  size_of (encode_string key ++ encode_string value ++ options) < 2 ^ 32 ->
  answers now c rid (handle_put_thread now s c (encode_string key ++ encode_string value ++ options) rid)
    (req_spec m (QPut key value options)).
Proof.
  intros Hok. unfold handle_put_thread. key_parsed.
  past_key decode_u32. rewrite Z.sub_diag.
  rewrite peek_key_len by lia. cbn [mbind outcome_bind]. guard_passes.
  rewrite peek_bytes_skip by (rewrite encode_string_size; lia). rewrite encode_string_size.
  replace (4 + size_of key + 4 - (4 + size_of key)) with 4 by lia. rewrite peek_key. cbn [mbind outcome_bind].
  destruct Hrel as [Hv Hs]. eexists. split; [reflexivity|]. split; [|done]. simpl. unfold sync_put. by rewrite Hv.
Qed.

Lemma handle_delete_spec key :
  size_of (encode_string key) < 2 ^ 32 ->
  answers now c rid (handle_delete_thread now s c (encode_string key) rid) (req_spec m (QDelete key)).
Proof.
  intros Hok. unfold handle_delete_thread. rewrite <- (app_nil_r (encode_string key)). key_parsed.
  destruct Hrel as [Hv Hs]. eexists. split; [reflexivity|]. split; [|done]. simpl. by rewrite Hv.
Qed.

Lemma handle_create_sparse_spec key n options :
  size_of (encode_string key ++ encode_u64 n ++ options) < 2 ^ 32 -> is_u64 n ->
  answers now c rid (handle_create_sparse_thread now s c (encode_string key ++ encode_u64 n ++ options) rid)
    (req_spec m (QCreateSparse key n options)).
Proof.
  intros Hok Hn. unfold handle_create_sparse_thread. key_parsed. past_key decode_u64. rewrite Z.sub_diag.
  erewrite peek_0 by by apply decode_encode_u64. cbn [mbind outcome_bind].
  destruct Hrel as [Hv Hs]. destruct (sparse_step_refines _ _ (SCreate key n) Hs) as (sp & Hstep & Hsp); [apply Hn|].
  simpl in Hstep. destruct (sparse_create (g_sparse s) key n) as [created sp'] eqn:E. injection Hstep as Hcode ->.
  exists (mkServer (g_sync s) sp). split; [|by split]. cbn [req_spec fst snd]. destruct (sp_sparse m !! key).
  all: simpl in Hcode; by injection Hcode as ->.
Qed.

Lemma handle_write_range_spec key offset data :
  size_of (encode_string key ++ encode_u64 offset ++ encode_string data) < 2 ^ 32 ->
  0 <= offset -> offset + size_of data < 2 ^ 64 ->
  answers now c rid
    (handle_write_range_thread now s c (encode_string key ++ encode_u64 offset ++ encode_string data) rid)
    (req_spec m (QWriteRange key offset data)).
Proof.
  intros Hok Ho Hov. unfold handle_write_range_thread. key_parsed. past_key decode_u64. rewrite Z.sub_diag.
  erewrite peek_0 by (apply decode_encode_u64; split; lia). cbn [mbind outcome_bind].
  rewrite <- (app_nil_r (encode_string data)). past_key decode_u32. rewrite peek_app by (rewrite encode_u64_size; lia).
  rewrite encode_u64_size. replace (4 + size_of key + 8 - (4 + size_of key) - 8) with 0 by lia.
  rewrite peek_key_len by lia. cbn [mbind outcome_bind]. guard_passes.
  rewrite peek_bytes_skip by (rewrite encode_string_size; lia). rewrite encode_string_size.
  rewrite peek_bytes_skip by (rewrite encode_u64_size; lia). rewrite encode_u64_size.
  replace (4 + size_of key + 8 + 4 - (4 + size_of key) - 8) with 4 by lia. rewrite peek_key. cbn [mbind outcome_bind].
  destruct Hrel as [Hv Hs]. destruct (sparse_step_refines _ _ (SWrite key offset data) Hs) as (sp & Hstep & Hsp); [by split|].
  simpl in Hstep. destruct (sparse_write_range (g_sparse s) key offset data) as [[ok sp']| | |]; try done.
  cbn [mbind outcome_bind] in Hstep |- *. injection Hstep as Hcode ->.
  exists (mkServer (g_sync s) sp). split; [|by split]. cbn [req_spec fst snd]. unfold sparse_exists.
  specialize (Hsp key). simpl in Hsp. destruct (sp_sparse m !! key) as [[n ws]|] eqn:E.
  - destruct (write_fits n offset data); simpl in Hcode, Hsp; injection Hcode as ->; [done|].
    rewrite E in Hsp. by destruct (sp !! key).
  - simpl in Hcode, Hsp. injection Hcode as ->. rewrite E in Hsp. by destruct (sp !! key).
Qed.

Lemma handle_finalize_spec key :
  size_of (encode_string key) < 2 ^ 32 ->
  answers now c rid (handle_finalize_thread now s c (encode_string key) rid) (req_spec m (QFinalize key)).
Proof.
  intros Hok. unfold handle_finalize_thread. rewrite <- (app_nil_r (encode_string key)). key_parsed.
  destruct Hrel as [Hv Hs]. destruct (sparse_step_refines _ _ (SFinalize key) Hs) as (sp & Hstep & Hsp); [done|].
  simpl in Hstep. destruct (sparse_finalize (g_sparse s) key) as [[code data] sp']. injection Hstep as Hcode ->.
  exists (mkServer (if code =? 0 then sync_put (g_sync s) key data else g_sync s) sp). cbn [req_spec].
  simpl in Hcode, Hsp. destruct (sp_sparse m !! key) as [[n ws]|]; [destruct (all_written n ws)|];
    simpl in Hcode, Hsp |- *; injection Hcode as -> ->; (split; [reflexivity|]);
    by split; simpl; unfold sync_put; rewrite ?Hv.
Qed.

Lemma get_result_data_spec value range :
  opt_ok range_u64 range ->
  get_result_data (Some value) (bool_decide (is_Some range)) (from_option r_offset 0 range) (from_option r_length 0 range)
    = range_of range value.
Proof.
  destruct range as [[o l]|]; [|done]. intros [[Ho _] [Hl _]]. simpl in *. unfold slice, size_of.
  destruct (Z.ltb_spec o (Z.of_nat (length value))).
  2: { rewrite drop_ge by lia. by rewrite take_nil; destruct (l =? 0). }
  destruct (Z.eqb_spec l 0) as [->|Hl0]; [rewrite take_ge; [done|rewrite length_drop; simpl; lia]|].
  destruct (Z.ltb_spec 0 l); [|lia]. destruct (Z.ltb_spec l (Z.of_nat (length value) - o)); simpl; [done|].
  by rewrite !take_ge by (rewrite length_drop; lia).
Qed.

Lemma handle_get_spec key metadata_only range :
  size_of (req_payload (QGet key metadata_only range)) < 2 ^ 32 -> opt_ok range_u64 range ->
  answers now c rid (handle_get_thread now s c (req_payload (QGet key metadata_only range)) rid)
    (req_spec m (QGet key metadata_only range)).
Proof.
  intros Hok Hrange. destruct Hrel as [Hv Hs]. unfold handle_get_thread, req_payload in *.
  set (tail := encode_bool metadata_only ++ encode_opt_range range) in *.
  assert (size_of tail = match range with Some _ => 18 | None => 2 end) as Htail by by destruct range as [[? ?]|].
  payload_sizes. guard_passes. rewrite peek_key_len by lia. cbn [mbind outcome_bind].
  rewrite !u32_small by (split; destruct range; lia).
  destruct (Z.ltb_spec (4 + size_of key + size_of tail) (4 + size_of key + 2)); [destruct range; lia|].
  rewrite peek_key. cbn [mbind outcome_bind]. past_key decode_flag.
  replace (4 + size_of key + 1 - (4 + size_of key)) with 1 by lia.
  assert (peek decode_flag tail 1 = Done (bool_decide (is_Some range))) as -> by by destruct range as [[? ?]|].
  cbn [mbind outcome_bind].
  match goal with |- context [mbind _ ?h] => assert (h = Done (from_option r_offset 0 range, from_option r_length 0 range)) as -> end.
  { destruct range as [r|]; [|done]. destruct (peek_range metadata_only r Hrange) as [Ho Hl].
    rewrite bool_decide_true by done. cbn [andb].
    destruct (Z.leb_spec (4 + size_of key + 1 + 1 + 16) (4 + size_of key + size_of tail)); [|lia].
    rewrite !(peek_app decode_u64 (encode_string key)) by (rewrite encode_string_size; lia).
    rewrite encode_string_size. replace (4 + size_of key + 1 + 1 - (4 + size_of key)) with 2 by lia.
    replace (4 + size_of key + 1 + 1 + 8 - (4 + size_of key)) with 10 by lia. subst tail. by rewrite Ho, Hl. }
  cbn [mbind outcome_bind]. exists s. split; [|by split]. unfold req_spec, sync_get. rewrite Hv. cbn [fst snd].
  destruct (sp_values m !! key) as [value|]; [by rewrite get_result_data_spec|done].
Qed.

Lemma dispatch_spec q :
  req_ok q ->
  answers now c rid (dispatch_thread now s c (uds_code (req_type q)) (req_payload q) rid) (req_spec m q).
Proof.
  unfold req_ok. destruct q; intros [Hok Hq]; cbn [req_type]; unfold dispatch_thread;
    rewrite uds_type_code; cbv beta iota; cbn [req_payload].
  - by apply handle_get_spec.
  - by apply handle_put_spec.
  - by apply handle_delete_spec.
  - by apply handle_create_sparse_spec.
  - destruct Hq. by apply handle_write_range_spec.
  - by apply handle_finalize_spec.
Qed.
End Handlers.

(** ** Sessions *)

(** A request as the client frames it; [ms] is the client's own timestamp. *)
Definition frame (ms : Z) (rid : Z) (q : UdsReq) : bytes :=
  encode_u32 MAGIC ++ encode_u16 VERSION ++ encode_u16 (uds_code (req_type q)) ++
  encode_u32 (size_of (req_payload q)) ++ encode_u32 rid ++ encode_u64 ms ++ req_payload q.

Lemma frame_header ms rid q :
  is_u32 rid -> size_of (req_payload q) < 2 ^ 32 ->
  exists header, frame ms rid q = header ++ req_payload q /\ size_of header = HEADER_SIZE /\
    peek decode_u32 header 0 = Done MAGIC /\ peek decode_u16 header 6 = Done (uds_code (req_type q)) /\
    peek decode_u32 header 8 = Done (size_of (req_payload q)) /\ peek decode_u32 header 12 = Done rid.
Proof.
  intros Hrid Hlen. pose proof (size_of_nonneg (req_payload q)).
  exists (encode_u32 MAGIC ++ encode_u16 VERSION ++ encode_u16 (uds_code (req_type q)) ++
    encode_u32 (size_of (req_payload q)) ++ encode_u32 rid ++ encode_u64 ms).
  split_and!; [by unfold frame; rewrite <- !app_assoc|done|done|..].
  - do 2 rewrite peek_app by done. eapply peek_0. apply decode_encode_u16. by destruct q.
  - do 3 rewrite peek_app by done. eapply peek_0. apply decode_encode_u32. split; lia.
  - do 4 rewrite peek_app by done. eapply peek_0. by apply decode_encode_u32.
Qed.

Lemma read_all_prefix a rest c :
  pieces_ok (c_in c) -> concat (c_in c) = a ++ rest ->
  exists input', read_all (size_of a) c = Done (Some a, mkConn input' (c_out c) (c_sched c)) /\
    pieces_ok input' /\ concat input' = rest.
Proof.
  intros Hin Hcat. pose proof (size_of_nonneg rest).
  destruct (read_all_spec (size_of a) c Hin (size_of_nonneg a)) as (input' & -> & Hok & Hrest).
  rewrite Hcat in *. rewrite size_of_app in *. destruct (Z.leb_spec (size_of a) (size_of a + size_of rest)); [|lia].
  exists input'. unfold size_of in *. rewrite Nat2Z.id in *. rewrite take_app_length. split_and!; [done..|].
  rewrite Hrest by lia. apply drop_app_length.
Qed.

(** What the client reads back for one request. *)
Definition answer_bytes (now : Clock) (out : bytes) (rid : Z) (r : UdsType * bytes * UdsSpec) : bytes :=
  uds_header (now out) (uds_code r.1.1) (u32 (size_of r.1.2)) rid ++ r.1.2.

Lemma process_request_spec now s m c ms rid q rest :
  server_rel s m -> pieces_ok (c_in c) -> sched_ok (c_sched c) -> req_ok q -> is_u32 rid ->
  concat (c_in c) = frame ms rid q ++ rest ->
  exists s' c', process_request_thread now s c = Done (true, s', c') /\
    server_rel s' (req_spec m q).2 /\ pieces_ok (c_in c') /\ sched_ok (c_sched c') /\ concat (c_in c') = rest /\
    c_out c' = c_out c ++ answer_bytes now (c_out c) rid (req_spec m q).
Proof.
  intros Hrel Hin Hsched Hq Hrid Hcat. destruct (frame_header ms rid q Hrid) as (hd & Hf & Hhd & E1 & E2 & E3 & E4);
    [apply Hq|]. rewrite Hf, <- app_assoc in Hcat.
  destruct (read_all_prefix hd _ c Hin Hcat) as (in1 & R1 & Hin1 & Hc1). rewrite Hhd in R1.
  unfold process_request_thread. rewrite R1. cbn [mbind outcome_bind]. rewrite E1, E2, E3, E4. cbn [mbind outcome_bind].
  rewrite Z.eqb_refl. cbn [negb]. set (c1 := mkConn in1 (c_out c) (c_sched c)).
  assert (exists in2, (if 0 <? size_of (req_payload q) then read_all (size_of (req_payload q)) c1 else Done (Some [], c1)) =
    Done (Some (req_payload q), mkConn in2 (c_out c) (c_sched c)) /\ pieces_ok in2 /\ concat in2 = rest)
    as (in2 & -> & Hin2 & Hc2).
  { destruct (Z.ltb_spec 0 (size_of (req_payload q))); [by apply (read_all_prefix _ rest c1)|].
    pose proof (size_of_nonneg (req_payload q)). assert (req_payload q = []) as Hnil by (apply size_of_zero; lia).
    rewrite Hnil in *. by exists in1. }
  cbn [mbind outcome_bind]. set (c2 := mkConn in2 (c_out c) (c_sched c)).
  destruct (dispatch_spec now s m c2 rid Hrel q Hq) as (s' & -> & Hrel'). unfold reply, send_response_sync.
  match goal with |- context [write_all ?b c2] => destruct (write_all_spec b c2 Hsched) as (sched' & -> & Hs') end.
  cbn [mbind outcome_bind]. eexists _, _. split_and!; [reflexivity|done..].
Qed.

(** ** Every payload *)

Lemma peek_u32_total buf pos :
  0 <= pos -> pos + 4 <= size_of buf -> exists v, peek decode_u32 buf pos = Done v /\ is_u32 v.
Proof.
  intros Hp Hl. unfold peek.
  assert (4 <= length (drop (Z.to_nat pos) buf))%nat as Hd by (unfold size_of in Hl; rewrite length_drop; lia).
  destruct (drop (Z.to_nat pos) buf) as [|b0 [|b1 [|b2 [|b3 rest]]]]; simpl in Hd; try lia.
  eexists. split; [reflexivity|].
  pose proof (Z_of_byte_range b0). pose proof (Z_of_byte_range b1). pose proof (Z_of_byte_range b2).
  pose proof (Z_of_byte_range b3). rewrite !u32_small by (rewrite Z.shiftl_mul_pow2 by lia; split; lia).
  rewrite (lor_shiftl_add _ _ 8), (lor_shiftl_add _ _ 16), (lor_shiftl_add _ _ 24) by lia. split; lia.
Qed.

Lemma peek_u64_total buf pos :
  0 <= pos -> pos + 8 <= size_of buf -> exists v, peek decode_u64 buf pos = Done v /\ 0 <= v.
Proof.
  intros Hp Hl. unfold peek, decode_u64. 
  destruct (Z.ltb_spec (size_of (drop (Z.to_nat pos) buf)) 8) as [?|_]; [unfold size_of in *; rewrite length_drop in *; lia|].
  eexists. split; [reflexivity|]. set (bs := take 8 _).
  assert (size_of bs <= 8) by (subst bs; unfold size_of; rewrite length_take; lia).
  rewrite or_bytes_value by lia. pose proof (le_value_range bs). lia.
Qed.

Lemma peek_flag_total buf pos : 0 <= pos < size_of buf -> exists v, peek decode_flag buf pos = Done v.
Proof.
  intros Hp. unfold peek, size_of in *. destruct (drop (Z.to_nat pos) buf) as [|b rest] eqn:E; [|by eexists].
  apply (f_equal length) in E. rewrite length_drop in E. simpl in E. lia.
Qed.

Lemma peek_bytes_total buf pos n : pos + n <= size_of buf -> peek_bytes buf pos n = Done (slice pos n buf).
Proof. intros Hl. unfold peek_bytes. by destruct (Z.ltb_spec (size_of buf) (pos + n)); [lia|]. Qed.

(** The buffers of the sparse entries have the size the entries claim. *)
Definition server_ok (s : Server) : Prop := exists m, server_rel s m.

Lemma server_sparse s op :
  server_ok s -> sparse_op_ok op ->
  exists r sp, sparse_step (g_sparse s) op = Done (r, sp) /\ forall sy, server_ok (mkServer sy sp).
Proof.
  intros [m [Hv Hs]] Hop. destruct (sparse_step_refines _ _ op Hs Hop) as (sp & E & Hsp).
  eexists _, sp. split; [exact E|]. intros sy. by exists (mkSpec sy (spec_step (sp_sparse m) op).2).
Qed.

Lemma server_sync s sy : server_ok s -> server_ok (mkServer sy (g_sparse s)).
Proof. intros [m [_ Hs]]. by exists (mkSpec sy (sp_sparse m)). Qed.

(** [write_all] returns whatever the peer accepts, and reads nothing. *)
Lemma write_all_total buf c : exists ok c', write_all buf c = Done (ok, c') /\ c_in c' = c_in c.
Proof.
  unfold write_all.
  assert (forall fuel rest out sched, (S (length sched) < fuel)%nat \/ ((0 < fuel)%nat /\ rest = []) ->
    exists r, loop fuel write_all_step (rest, out, sched) = Some r) as Hloop.
  { induction fuel as [|fuel IH]; intros rest out sched Hf; [lia|]. cbn [loop write_all_step].
    destruct (Z.ltb_spec 0 (size_of rest)); [|by eexists]. destruct Hf as [Hf|[_ ->]]; [|done].
    destruct sched as [|n sched]; cbn [send_some].
    - destruct (Z.leb_spec (size_of rest) 0); [by eexists|]. apply IH. right. simpl in Hf. split; [lia|].
      unfold size_of. rewrite Nat2Z.id. apply drop_all.
    - destruct (Z.leb_spec (Z.min n (size_of rest)) 0); [by eexists|]. apply IH. left. simpl in Hf. lia. }
  destruct (Hloop (S (S (length (c_sched c)))) buf (c_out c) (c_sched c)) as [[[ok out] sched] ->]; [left; lia|].
  by eexists _, _.
Qed.

(** A key length and a write position whose sums do not wrap. *)
Definition payload_sane (msg_type : Z) (payload : bytes) : Prop :=
  forall k, peek decode_u32 payload 0 = Done k ->
    k < 2 ^ 32 - 16 /\
    (msg_type = uds_code UWriteRange -> forall o, peek decode_u64 payload (4 + k) = Done o ->
       o + size_of payload < 2 ^ 64).

Definition returns (c : Conn) (h : outcome (Server * Conn)) : Prop :=
  exists s' c', h = Done (s', c') /\ server_ok s' /\ c_in c' = c_in c.

Lemma returns_stop s c : server_ok s -> returns c (Done (s, c)).
Proof. intros Hs. by exists s, c. Qed.

Lemma returns_respond now s c t rid p :
  server_ok s -> returns c ('(_, c') ← send_response_sync now c t rid p; Done (s, c')).
Proof.
  intros Hs. unfold send_response_sync. edestruct (write_all_total) as (ok & c' & -> & Hin). by exists s, c'.
Qed.

Create HintDb server.
#[local] Hint Resolve returns_stop returns_respond server_sync : server.

(** The common start of the handlers: the two length checks and the key. *)
Ltac key_or_stop Hsane :=
  match goal with |- context [if ?a <? ?b then _ else _] => destruct (Z.ltb_spec a b); [by auto with server|] end;
  match goal with |- context [peek decode_u32 ?p 0] =>
    let k := fresh "k" in let Ek := fresh "Ek" in let Hk := fresh "Hk" in let Hk' := fresh "Hk'" in
    let Ho := fresh "Ho" in
    destruct (peek_u32_total p 0) as (k & Ek & Hk); [lia|lia|]; rewrite Ek; cbn [mbind outcome_bind];
    destruct (Hsane k Ek) as [Hk' Ho]; destruct Hk as [? _]; rewrite ?u32_small by (split; lia)
  end;
  match goal with |- context [if ?a <? ?b then _ else _] => destruct (Z.ltb_spec a b); [by auto with server|] end;
  rewrite peek_bytes_total by lia; cbn [mbind outcome_bind].

Section Total.
Context (now : Clock) (s : Server) (c : Conn) (rid : Z).
Hypothesis Hs : server_ok s.

Lemma handle_get_total payload : payload_sane (uds_code UGet) payload -> returns c (handle_get_thread now s c payload rid).
Proof.
  intros Hsane. unfold handle_get_thread. key_or_stop Hsane.
  destruct (peek_flag_total payload (4 + k + 1)) as [flag ->]; [lia|]. cbn [mbind outcome_bind].
  destruct (flag && _) eqn:E; cbn [mbind outcome_bind]; [|by auto with server]. bool_hyps.
  destruct (peek_u64_total payload (4 + k + 1 + 1)) as (o & -> & _); [lia..|].
  destruct (peek_u64_total payload (4 + k + 1 + 1 + 8)) as (l & -> & _); [lia..|].
  cbn [mbind outcome_bind]. auto with server.
Qed.

Lemma handle_put_total payload : payload_sane (uds_code UPut) payload -> returns c (handle_put_thread now s c payload rid).
Proof.
  intros Hsane. unfold handle_put_thread. key_or_stop Hsane.
  destruct (peek_u32_total payload (4 + k)) as (n & -> & _); [lia..|]. cbn [mbind outcome_bind].
  destruct (Z.ltb_spec (size_of payload) (4 + k + 4 + n)); [by auto with server|].
  rewrite peek_bytes_total by lia. cbn [mbind outcome_bind]. auto with server.
Qed.

Lemma handle_delete_total payload :
  payload_sane (uds_code UDelete) payload -> returns c (handle_delete_thread now s c payload rid).
Proof. intros Hsane. unfold handle_delete_thread. key_or_stop Hsane. auto with server. Qed.

Lemma handle_create_sparse_total payload :
  payload_sane (uds_code UCreateSparse) payload -> returns c (handle_create_sparse_thread now s c payload rid).
Proof.
  intros Hsane. unfold handle_create_sparse_thread. key_or_stop Hsane.
  destruct (peek_u64_total payload (4 + k)) as (n & -> & Hn); [lia..|]. cbn [mbind outcome_bind].
  destruct (server_sparse s (SCreate (slice 4 k payload) n) Hs Hn) as (r & sp & E & Hok). simpl in E.
  destruct (sparse_create _ _ _) as [created sp']. injection E as _ ->. auto with server.
Qed.

Lemma handle_write_range_total payload :
  payload_sane (uds_code UWriteRange) payload -> returns c (handle_write_range_thread now s c payload rid).
Proof.
  intros Hsane. unfold handle_write_range_thread. key_or_stop Hsane.
  destruct (peek_u64_total payload (4 + k)) as (o & Eo & Hpos); [lia..|]. specialize (Ho eq_refl o Eo).
  rewrite Eo. cbn [mbind outcome_bind].
  destruct (peek_u32_total payload (4 + k + 8)) as (n & -> & Hn); [lia..|]. cbn [mbind outcome_bind].
  destruct (Z.ltb_spec (size_of payload) (4 + k + 8 + 4 + n)); [by auto with server|].
  rewrite peek_bytes_total by lia. cbn [mbind outcome_bind]. set (data := slice _ n payload).
  assert (size_of data <= size_of payload) as Hd
    by (subst data; unfold slice, size_of; rewrite length_take, length_drop; lia).
  destruct (server_sparse s (SWrite (slice 4 k payload) o data) Hs) as (r & sp & E & Hok); [split; lia|]. simpl in E.
  destruct (sparse_write_range _ _ _ _) as [[ok sp']| | |]; try done. cbn [mbind outcome_bind] in E |- *.
  injection E as _ ->. auto with server.
Qed.

Lemma handle_finalize_total payload :
  payload_sane (uds_code UFinalize) payload -> returns c (handle_finalize_thread now s c payload rid).
Proof.
  intros Hsane. unfold handle_finalize_thread. key_or_stop Hsane.
  destruct (server_sparse s (SFinalize (slice 4 k payload)) Hs I) as (r & sp & E & Hok). simpl in E.
  destruct (sparse_finalize _ _) as [[code data] sp']. injection E as _ ->. auto with server.
Qed.
End Total.

(** ** Any input at all *)

(** [h] returns or is undefined, and reads nothing more. *)
Definition quiet (c : Conn) (h : outcome (Server * Conn)) : Prop :=
  match h with Done (_, c') => c_in c' = c_in c | Undef => True | _ => False end.

Definition defined_or_undef {A} (h : outcome A) : Prop := match h with Done _ | Undef => True | _ => False end.

Lemma quiet_bind {A} c (m : outcome A) f : defined_or_undef m -> (forall x, quiet c (f x)) -> quiet c (m ≫= f).
Proof. destruct m; simpl; auto. Qed.

Lemma defined_bind {A B} (m : outcome A) (f : A -> outcome B) :
  defined_or_undef m -> (forall x, defined_or_undef (f x)) -> defined_or_undef (m ≫= f).
Proof. destruct m; simpl; auto. Qed.

Lemma peek_defined {A} (dec : decoder A) buf pos : defined_or_undef (peek dec buf pos).
Proof. unfold peek. by destruct (dec _) as [[? ?]| | |]. Qed.

Lemma peek_bytes_defined buf pos n : defined_or_undef (peek_bytes buf pos n).
Proof. unfold peek_bytes. by case_match. Qed.

Lemma sparse_write_range_defined sp key o data : defined_or_undef (sparse_write_range sp key o data).
Proof.
  unfold sparse_write_range, entry_write_range. destruct (sp !! key); [|done]. by repeat case_match.
Qed.

Lemma quiet_respond now c s t rid p : quiet c ('(_, c') ← send_response_sync now c t rid p; Done (s, c')).
Proof. unfold send_response_sync. by edestruct (write_all_total) as (ok & c' & -> & Hin). Qed.

#[local] Hint Resolve peek_defined peek_bytes_defined sparse_write_range_defined quiet_respond quiet_bind defined_bind : server.

Lemma dispatch_quiet now s c t payload rid : quiet c (dispatch_thread now s c t payload rid).
Proof.
  unfold dispatch_thread. destruct (uds_type t) as [[]|]; try done;
    unfold handle_get_thread, handle_put_thread, handle_delete_thread, handle_create_sparse_thread,
      handle_write_range_thread, handle_finalize_thread.
  all: repeat first [done | apply quiet_respond | apply quiet_bind; [by auto with server|intros ?]
    | apply quiet_bind | apply defined_bind; [by auto with server|intros ?]
    | match goal with |- context [if ?b then _ else _] => destruct b end
    | match goal with |- context [let '(_, _) := ?p in _] => destruct p end | intros ?].
Qed.

(** A request that keeps the connection open has used up a header. *)
Lemma process_request_progress now s c :
  pieces_ok (c_in c) ->
  match process_request_thread now s c with
  | Done (true, _, c') => pieces_ok (c_in c') /\ size_of (concat (c_in c')) < size_of (concat (c_in c))
  | Done (false, _, _) | Undef => True
  | _ => False
  end.
Proof.
  intros Hin. unfold process_request_thread.
  destruct (read_all_spec HEADER_SIZE c Hin) as (in1 & -> & Hin1 & Hc1); [done|]. cbn [mbind outcome_bind].
  destruct (Z.leb_spec HEADER_SIZE (size_of (concat (c_in c)))) as [Hl|_]; [|done]. specialize (Hc1 Hl).
  assert (size_of (concat in1) < size_of (concat (c_in c))) as Hlt
    by (rewrite Hc1; unfold size_of, HEADER_SIZE in *; rewrite length_drop; lia).
  set (header := take _ _). set (c1 := mkConn in1 _ _).
  pose proof (peek_defined decode_u32 header 0) as D. destruct (peek decode_u32 header 0) as [magic| | |]; try done.
  cbn [mbind outcome_bind]. destruct (negb (magic =? MAGIC)); [done|]. clear D.
  pose proof (peek_defined decode_u16 header 6) as D. destruct (peek decode_u16 header 6) as [t| | |]; try done. clear D.
  pose proof (peek_defined decode_u32 header 8) as D. destruct (peek decode_u32 header 8) as [len| | |]; try done. clear D.
  pose proof (peek_defined decode_u32 header 12) as D. destruct (peek decode_u32 header 12) as [rid| | |]; try done. clear D.
  cbn [mbind outcome_bind].
  assert (exists p in2, (if 0 <? len then read_all len c1 else Done (Some [], c1)) = Done (p, mkConn in2 (c_out c) (c_sched c)) /\
    pieces_ok in2 /\ (is_Some p -> size_of (concat in2) <= size_of (concat in1))) as (p & in2 & -> & Hin2 & Hle).
  { destruct (Z.ltb_spec 0 len); [|by exists (Some []), in1].
    destruct (read_all_spec len c1 Hin1) as (in2 & -> & Hin2 & Hc2); [lia|]. eexists _, in2. split_and!; [done..|].
    simpl. destruct (Z.leb_spec len (size_of (concat in1))) as [Hl2|]; [|by intros [? ?]]. intros _.
    rewrite (Hc2 Hl2). simpl. unfold size_of. rewrite length_drop. lia. }
  cbn [mbind outcome_bind]. destruct p as [payload|]; [|done]. specialize (Hle (mk_is_Some _ _ eq_refl)).
  pose proof (dispatch_quiet now s (mkConn in2 (c_out c) (c_sched c)) t payload rid) as Hq.
  destruct (dispatch_thread now s _ t payload rid) as [[s' c']| | |]; try done. cbn [mbind outcome_bind quiet c_in] in *.
  rewrite Hq. split; [done|lia].
Qed.

(** ** Sessions *)

(** What the client reads over a whole connection, and the state at its end; a request comes with its
    timestamp and its id. *)
Fixpoint session_spec (now : Clock) (out : bytes) (m : UdsSpec) (reqs : list (Z * Z * UdsReq)) : bytes * UdsSpec :=
  match reqs with
  | [] => (out, m)
  | (_, rid, q) :: reqs' =>
      session_spec now (out ++ answer_bytes now out rid (req_spec m q)) (req_spec m q).2 reqs'
  end.

Definition sent (reqs : list (Z * Z * UdsReq)) : bytes := concat ((fun '(ms, rid, q) => frame ms rid q) <$> reqs).

Lemma sent_cons ms rid q reqs : sent ((ms, rid, q) :: reqs) = frame ms rid q ++ sent reqs.
Proof. done. Qed.

Lemma session_loop now reqs : Forall (fun x => req_ok x.2 /\ is_u32 x.1.2) reqs -> forall fuel s m c tail,
  server_rel s m -> pieces_ok (c_in c) -> sched_ok (c_sched c) -> size_of tail < HEADER_SIZE ->
  concat (c_in c) = sent reqs ++ tail -> (length reqs < fuel)%nat ->
  exists s' c', loop fuel (client_step now) (s, c) = Some (Done (s', c')) /\
    c_out c' = (session_spec now (c_out c) m reqs).1 /\ server_rel s' (session_spec now (c_out c) m reqs).2.
Proof.
  induction 1 as [|[[ms rid] q] reqs [Hq Hrid] _ IH]; intros fuel s m c tail Hrel Hin Hsched Htail Hcat Hfuel;
    (destruct fuel as [|fuel]; [simpl in Hfuel; lia|]); cbn [loop session_spec] in *; unfold client_step at 1; cbn [fst snd].
  - unfold process_request_thread. destruct (read_all_spec HEADER_SIZE c Hin) as (in1 & -> & _ & _); [done|].
    rewrite Hcat. simpl app. destruct (Z.leb_spec HEADER_SIZE (size_of tail)); [lia|]. cbn [mbind outcome_bind].
    by eexists _, _.
  - rewrite sent_cons, <- app_assoc in Hcat.
    destruct (process_request_spec now s m c ms rid q _ Hrel Hin Hsched Hq Hrid Hcat)
      as (s1 & c1 & -> & Hrel1 & Hin1 & Hsched1 & Hcat1 & Hout). simpl in Hfuel.
    destruct (IH fuel s1 (req_spec m q).2 c1 tail) as (s2 & c2 & E & Ho & Hr2); [done..|lia|].
    exists s2, c2. rewrite <- Hout. done.
Qed.

Lemma sent_length reqs : (length reqs <= length (sent reqs))%nat.
Proof.
  induction reqs as [|[[ms rid] q] reqs IH]; [done|]. rewrite sent_cons, length_app. assert (1 <= length (frame ms rid q))%nat by (unfold frame, encode_u32; simpl; lia). simpl length. lia.
Qed.

(** ** Properties *)

(** C4: a connection refines the abstract server: for any list of well-formed requests, however the
    bytes are cut into pieces on the way, and even when the peer hangs up inside a header, the client
    reads back exactly the promised answers, in order, and the cache and the sparse entries end in the
    promised state. *)
Theorem session_refines now reqs tail input sched s m :
  server_rel s m -> Forall (fun x => req_ok x.2 /\ is_u32 x.1.2) reqs ->
  pieces_ok input -> sched_ok sched -> size_of tail < HEADER_SIZE -> concat input = sent reqs ++ tail ->
  exists s' c', handle_client_thread now s (mkConn input [] sched) = Done (s', c') /\
    c_out c' = (session_spec now [] m reqs).1 /\ server_rel s' (session_spec now [] m reqs).2.
Proof.
  intros Hrel Hreqs Hin Hsched Htail Hcat. unfold handle_client_thread. cbn [c_in].
  destruct (session_loop now reqs Hreqs (S (length (concat input))) s m (mkConn input [] sched) tail)
    as (s' & c' & -> & Hout & Hr); [done..| |].
  - rewrite Hcat, length_app. pose proof (sent_length reqs). lia.
  - by exists s', c'.
Qed.

Lemma session_refines_witness :
  let reqs := [(0, 7, QPut (str "k") (str "abcdef") []);
               (0, 8, QGet (str "k") false (Some (mkRange 2 3)));
               (0, 9, QCreateSparse (str "v") 2 []); (0, 10, QFinalize (str "v"))] in
  exists s' c', handle_client_thread (fun out => size_of out) (mkServer ∅ ∅)
      (mkConn [take 7 (sent reqs); drop 7 (sent reqs)] [] [5; 100]) = Done (s', c') /\
    c_out c' = (session_spec (fun out => size_of out) [] (mkSpec ∅ ∅) reqs).1 /\
    server_rel s' (session_spec (fun out => size_of out) [] (mkSpec ∅ ∅) reqs).2.
Proof.
  intros reqs. apply (session_refines (fun out => size_of out) reqs [] [take 7 (sent reqs); drop 7 (sent reqs)] [5; 100]).
  - apply server_rel_empty.
  - repeat constructor; vm_compute; congruence.
  - repeat constructor; by vm_compute.
  - repeat constructor.
  - done.
  - vm_compute. reflexivity.
Defined.

(** C33: the coroutine server and the thread server behave the same on every input: their read and write
    loops and their two copies of every handler agree. *)
Theorem async_equals_thread now s c : handle_client_async now s c = handle_client_thread now s c.
Proof.
  unfold handle_client_async, handle_client_thread. f_equal. apply (loop_lockstep eq); [|done].
  intros sc ? <-. unfold client_async_step, client_step. rewrite process_request_eq.
  by destruct (process_request_thread now sc.1 sc.2) as [[[[] ?] ?]| | |].
Qed.

(** C35: whatever bytes a client sends, in whatever pieces, and however its end accepts the answers, the
    connection is served to its end in finitely many rounds. *)
Theorem handle_client_terminates now s c : pieces_ok (c_in c) -> handle_client_thread now s c <> Spin.
Proof.
  intros Hin. unfold handle_client_thread.
  destruct (loop_rule (fun sc => pieces_ok (c_in sc.2)) (fun r => r <> Spin) (fun sc => size_of (concat (c_in sc.2)))
    (client_step now)) with (fuel := S (length (concat (c_in c)))) (s := (s, c)) as (r & -> & Hr); simpl; try done.
  - intros [s1 c1] Hin1. unfold client_step. simpl in *. pose proof (process_request_progress now s1 c1 Hin1) as Hp.
    destruct (process_request_thread now s1 c1) as [[[[] s2] c2]| | |]; try done. simpl in *.
    pose proof (size_of_nonneg (concat (c_in c2))). split; [by apply Hp|lia].
  - unfold size_of. lia.
  - apply size_of_nonneg.
Qed.

Lemma handle_client_terminates_witness :
  handle_client_thread (fun _ => 0) (mkServer ∅ ∅) (mkConn [str "GET / HTTP/1.1"; str " and more bytes"] [] [-1]) <> Spin.
Proof.
  apply (handle_client_terminates (fun _ => 0) (mkServer ∅ ∅) (mkConn [str "GET / HTTP/1.1"; str " and more bytes"] [] [-1])).
  by repeat constructor.
Defined.

(** C32: every request whose key length and write position do not wrap is handled without a read or write
    outside a buffer, whatever else its payload holds: the handler returns, the sparse buffers keep the
    size their entries claim, and nothing is read past the request. *)
Theorem dispatch_safe now s c rid msg_type payload :
  server_ok s -> payload_sane msg_type payload ->
  exists s' c', dispatch_thread now s c msg_type payload rid = Done (s', c') /\ server_ok s' /\ c_in c' = c_in c.
Proof.
  intros Hs Hsane. change (returns c (dispatch_thread now s c msg_type payload rid)).
  unfold dispatch_thread. destruct (uds_type msg_type) as [t|] eqn:E; [|by auto with server].
  assert (msg_type = uds_code t) as ->.
  { unfold uds_type in E. apply fmap_Some in E as ([i t'] & Hf & ->). by apply list_find_Some in Hf as (_ & ? & _). }
  destruct t; auto using handle_get_total, handle_put_total, handle_delete_total, handle_create_sparse_total,
    handle_write_range_total, handle_finalize_total with server.
Qed.

Lemma dispatch_safe_witness :
  exists s' c', dispatch_thread (fun _ => 0) (mkServer ∅ ∅) (mkConn [] [] []) 0x010A
      (encode_u32 1 ++ [x6b] ++ encode_u64 7 ++ encode_u32 100) 5 = Done (s', c') /\ server_ok s' /\ c_in c' = [].
Proof.
  apply (dispatch_safe (fun _ => 0) (mkServer ∅ ∅) (mkConn [] [] []) 5 0x010A
    (encode_u32 1 ++ [x6b] ++ encode_u64 7 ++ encode_u32 100)).
  - exists (mkSpec ∅ ∅). apply server_rel_empty.
  - intros k Hk. vm_compute in Hk. injection Hk as <-. split; [done|]. intros _ o Ho. vm_compute in Ho.
    injection Ho as <-. vm_compute. done.
Defined.

(** The sum [4 + key_len + ...] is computed in 32 bits: for each of the six requests a declared key
    length from 2^32 - 4 on wraps past the length check, and the handler reads the key beyond the end
    of the payload. *)
Theorem key_length_wraps now s c t k tail rid :
  t ∈ [UGet; UPut; UDelete; UCreateSparse; UWriteRange; UFinalize] ->
  2 ^ 32 - 4 <= k < 2 ^ 32 -> 16 <= size_of tail < 2 ^ 32 - 4 ->
  dispatch_thread now s c (uds_code t) (encode_u32 k ++ tail) rid = Undef.
Proof.
  intros Ht Hk Hl. assert (size_of (encode_u32 k ++ tail) = 4 + size_of tail) as Hsz by by rewrite size_of_app.
  assert (peek decode_u32 (encode_u32 k ++ tail) 0 = Done k) as Hpk
    by (eapply peek_0; apply decode_encode_u32; split; lia).
  assert (peek_bytes (encode_u32 k ++ tail) 4 k = Undef) as Hpb
    by (unfold peek_bytes; rewrite Hsz; destruct (Z.ltb_spec (4 + size_of tail) (4 + k)); [done|lia]).
  assert (forall x, 0 <= x <= 12 -> u32 (4 + k + x) = 4 + k + x - 2 ^ 32) as Hw
    by (intros x Hx; unfold u32; symmetry; apply (Z.mod_unique _ _ 1); lia).
  unfold dispatch_thread. rewrite uds_type_code.
  repeat (apply elem_of_cons in Ht as [->|Ht]); [..|by apply elem_of_nil in Ht];
    unfold handle_get_thread, handle_put_thread, handle_delete_thread, handle_create_sparse_thread,
      handle_write_range_thread, handle_finalize_thread;
    rewrite Hsz; guard_passes; rewrite Hpk; cbn [mbind outcome_bind].
  5: replace (4 + k + 8 + 4) with (4 + k + 12) by lia.
  3,6: replace (4 + k) with (4 + k + 0) by lia.
  all: rewrite Hw by lia; guard_passes; by rewrite Hpb.
Qed.

Lemma key_length_wraps_witness :
  dispatch_thread (fun _ => 0) (mkServer ∅ ∅) (mkConn [] [] []) (uds_code UPut)
    (encode_u32 (2 ^ 32 - 1) ++ replicate 16 x00) 0 = Undef.
Proof.
  apply (key_length_wraps (fun _ => 0) (mkServer ∅ ∅) (mkConn [] [] []) UPut (2 ^ 32 - 1) (replicate 16 x00) 0);
    [set_solver|lia|vm_compute; split; congruence].
Defined.
