(* ===== verification/UnixListener.v ===== *)
(** * The life of the socket server: [src/network/unix_server.cpp], start to stop

    [UnixServer.v] models what happens on one connection. Here is the rest of [UnixSocketServer]: [start]
    with its two ways to listen (Elio's listener, or a socket and a thread), the two accept loops, the
    loops of the connection handlers and [stop]. The accept loop, the handlers and the caller of [stop] run
    concurrently; they share [running_] and [listener_], and every test of these is a step of its own. The
    results of system calls and of Elio's listener are the input of the steps. *)

From S2P Require Import Prelude CStd Types SparseCache UnixServer.
Open Scope Z_scope.

(** ** State *)

(** A connection handler: at the test of [running_], in [process_request], or done. *)
Inductive HandlerPc := HTest | HServe | HClosed.

Inductive Served := ByThread | ByCoroutine.

Record Handler := mkHandler {
  h_fd : Z;
  h_by : Served;
  h_pc : HandlerPc;
  h_conn : Conn;
  h_count : nat  (* requests begun *)
}.

(** The accept coroutine: at the test, past it, waiting in [accept], or done. *)
Inductive AcceptPc := ATest | ACall | AWait | AEnd.

(** The accept thread: at the test, in [poll] and [accept], or done. *)
Inductive ThreadPc := TTest | TPoll | TEnd.

Record UnixSocketServer := mkUnixServer {
  us_socket_path : bytes;
  us_running : bool;
  us_listener : option Z;
  us_accept : option AcceptPc;
  us_thread : option (Z * ThreadPc);
  us_handlers : list Handler;
  us_server : Server;
  us_fds : gset Z;  (* the open descriptors of this server *)
  us_files : gset bytes  (* the socket files it has made *)
}.

Definition us_make (socket_path : bytes) (server : Server) : UnixSocketServer :=
  mkUnixServer socket_path false None None None [] server ∅ ∅.

Definition set_running (s : UnixSocketServer) (b : bool) : UnixSocketServer :=
  mkUnixServer (us_socket_path s) b (us_listener s) (us_accept s) (us_thread s) (us_handlers s) (us_server s) (us_fds s) (us_files s).

Definition set_listener (s : UnixSocketServer) (l : option Z) : UnixSocketServer :=
  mkUnixServer (us_socket_path s) (us_running s) l (us_accept s) (us_thread s) (us_handlers s) (us_server s) (us_fds s) (us_files s).

Definition set_accept (s : UnixSocketServer) (pc : AcceptPc) : UnixSocketServer :=
  mkUnixServer (us_socket_path s) (us_running s) (us_listener s) (Some pc) (us_thread s) (us_handlers s) (us_server s) (us_fds s) (us_files s).

Definition set_thread (s : UnixSocketServer) (fd : Z) (pc : ThreadPc) : UnixSocketServer :=
  mkUnixServer (us_socket_path s) (us_running s) (us_listener s) (us_accept s) (Some (fd, pc)) (us_handlers s) (us_server s) (us_fds s) (us_files s).

Definition set_handlers (s : UnixSocketServer) (hs : list Handler) : UnixSocketServer :=
  mkUnixServer (us_socket_path s) (us_running s) (us_listener s) (us_accept s) (us_thread s) hs (us_server s) (us_fds s) (us_files s).

Definition set_server (s : UnixSocketServer) (sv : Server) : UnixSocketServer :=
  mkUnixServer (us_socket_path s) (us_running s) (us_listener s) (us_accept s) (us_thread s) (us_handlers s) sv (us_fds s) (us_files s).

Definition set_fds (s : UnixSocketServer) (fds : gset Z) : UnixSocketServer :=
  mkUnixServer (us_socket_path s) (us_running s) (us_listener s) (us_accept s) (us_thread s) (us_handlers s) (us_server s) fds (us_files s).

Definition set_files (s : UnixSocketServer) (files : gset bytes) : UnixSocketServer :=
  mkUnixServer (us_socket_path s) (us_running s) (us_listener s) (us_accept s) (us_thread s) (us_handlers s) (us_server s) (us_fds s) files.

(** A descriptor the kernel hands out, and [close]; closing one that is not open is undefined. *)
Definition open_fd (s : UnixSocketServer) (fd : Z) : UnixSocketServer := set_fds s ({[fd]} ∪ us_fds s).

Definition close_fd (s : UnixSocketServer) (fd : Z) : outcome UnixSocketServer :=
  if bool_decide (fd ∈ us_fds s) then Done (set_fds s (us_fds s ∖ {[fd]})) else Undef.

(** ** [start] *)

(** [std::string::c_str]: up to the first zero byte. *)
Definition c_str (p : bytes) : bytes := match list_find (fun b => b = Byte.x00) p with Some (n, _) => take n p | None => p end.

(** [strncpy] into the 108 bytes of [sun_path], the last one kept zero. *)
Definition sun_path (p : bytes) : bytes := take 107 (c_str p).

(** [path::parent_path() is not empty]: there is a separator. *)
Definition has_parent (p : bytes) : bool := bool_decide (Byte.x2f ∈ p).

(** What the system calls of [start] answer. *)
Record StartEnv := mkStartEnv {
  env_mkdir : option bytes;      (* [create_directories]: the message of an error *)
  env_listener : option Z;       (* Elio's [bind]: a listening descriptor *)
  env_socket : bytes + Z;        (* [socket]: the text of errno, or a descriptor *)
  env_bind : option bytes;       (* [bind], [listen]: the text of errno when they fail *)
  env_listen : option bytes
}.

(** The daemon starts the server once: there is one accept loop, of one of the two kinds. *)
Definition us_start (env : StartEnv) (s0 : UnixSocketServer) : outcome (Status * UnixSocketServer) :=
  let s := set_running s0 true in
  match (if has_parent (us_socket_path s) then env_mkdir env else None) with
  | Some message => Done (status_error DiskError (str "Failed to create socket directory: " ++ message), s)
  | None =>
  match env_listener env with
  | Some fd =>
      let s1 := set_files (open_fd s fd) ({[us_socket_path s]} ∪ us_files s) in
      Done (make_ok, set_accept (set_listener s1 (Some fd)) ATest)
  | None =>
      let s1 := set_files s (us_files s ∖ {[c_str (us_socket_path s)]}) in
      match env_socket env with
      | inl message => Done (status_error NetworkError (str "Failed to create Unix socket: " ++ message), s1)
      | inr listen_fd =>
          let s2 := open_fd s1 listen_fd in
          match env_bind env with
          | Some message =>
              s3 ← close_fd s2 listen_fd;
              Done (status_error NetworkError (str "Failed to bind Unix socket: " ++ message), s3)
          | None =>
              let s3 := set_files s2 ({[sun_path (us_socket_path s)]} ∪ us_files s2) in
              match env_listen env with
              | Some message =>
                  s4 ← close_fd s3 listen_fd;
                  Done (status_error NetworkError (str "Failed to listen on Unix socket: " ++ message), s4)
              | None => Done (make_ok, set_thread s3 listen_fd TTest)
              end
          end
      end
  end
  end.

(** ** The loops *)

(** A new connection gets its handler. *)
Definition spawn_handler (s : UnixSocketServer) (by_ : Served) (fd : Z) (conn : Conn) : UnixSocketServer :=
  set_handlers (open_fd s fd) (us_handlers s ++ [mkHandler fd by_ HTest conn 0]).

(** [accept_loop_async]: one step; [r] is what a pending [accept] comes back with. *)
Definition accept_step (s : UnixSocketServer) (r : option (Z * Conn)) : outcome UnixSocketServer :=
  match us_accept s with
  | Some ATest =>
      Done (set_accept s (if us_running s && bool_decide (is_Some (us_listener s)) then ACall else AEnd))
  | Some ACall => match us_listener s with Some _ => Done (set_accept s AWait) | None => Undef end
  | Some AWait =>
      match r with
      | None => Done (set_accept s ATest)
      | Some (fd, conn) => Done (set_accept (spawn_handler s ByCoroutine fd conn) ATest)
      end
  | Some AEnd | None => Done s
  end.

(** The accept thread: one step; [r] is what [poll] and [accept] come back with. *)
Definition thread_step (s : UnixSocketServer) (r : option (Z * Conn)) : outcome UnixSocketServer :=
  match us_thread s with
  | Some (listen_fd, TTest) =>
      if us_running s then Done (set_thread s listen_fd TPoll)
      else
        s1 ← close_fd s listen_fd;
        Done (set_thread (set_files s1 (us_files s1 ∖ {[c_str (us_socket_path s)]})) listen_fd TEnd)
  | Some (listen_fd, TPoll) =>
      match r with
      | None => Done (set_thread s listen_fd TTest)
      | Some (fd, conn) => Done (set_thread (spawn_handler s ByThread fd conn) listen_fd TTest)
      end
  | Some (_, TEnd) | None => Done s
  end.

Definition process_request (by_ : Served) : Clock -> Server -> Conn -> outcome (bool * Server * Conn) :=
  match by_ with ByThread => process_request_thread | ByCoroutine => process_request_async end.

Definition with_pc (h : Handler) (pc : HandlerPc) : Handler := mkHandler (h_fd h) (h_by h) pc (h_conn h) (h_count h).

(** [handle_client_thread] and [handle_client]: one step of handler [i]. *)
Definition handler_step (s : UnixSocketServer) (i : nat) (now : Clock) : outcome UnixSocketServer :=
  match us_handlers s !! i with
  | None => Done s
  | Some h =>
      match h_pc h with
      | HTest =>
          if us_running s then
            Done (set_handlers s (<[i := mkHandler (h_fd h) (h_by h) HServe (h_conn h) (S (h_count h))]> (us_handlers s)))
          else
            s1 ← close_fd s (h_fd h);
            Done (set_handlers s1 (<[i := with_pc h HClosed]> (us_handlers s1)))
      | HServe =>
          '(ok, sv, c) ← process_request (h_by h) now (us_server s) (h_conn h);
          let s1 := set_server s sv in
          let h1 := mkHandler (h_fd h) (h_by h) HTest c (h_count h) in
          if ok : bool then Done (set_handlers s1 (<[i := h1]> (us_handlers s1)))
          else
            s2 ← close_fd s1 (h_fd h);
            Done (set_handlers s2 (<[i := with_pc h1 HClosed]> (us_handlers s2)))
      | HClosed => Done s
      end
  end.

(** ** [stop] *)

Definition us_stop (s0 : UnixSocketServer) : outcome UnixSocketServer :=
  let s := set_running s0 false in
  match us_listener s with
  | Some fd => s1 ← close_fd s fd; Done (set_listener s1 None)
  | None => Done s
  end.

(** ** The server as a system of concurrent loops *)

Inductive ServerEvent :=
| EvAccept (r : option (Z * Conn))
| EvThread (r : option (Z * Conn))
| EvHandler (i : nat) (now : Clock)
| EvStop.

Definition us_step (s : UnixSocketServer) (e : ServerEvent) : outcome UnixSocketServer :=
  match e with
  | EvAccept r => accept_step s r
  | EvThread r => thread_step s r
  | EvHandler i now => handler_step s i now
  | EvStop => us_stop s
  end.

Fixpoint us_run (s : UnixSocketServer) (es : list ServerEvent) : outcome UnixSocketServer :=
  match es with
  | [] => Done s
  | e :: es' => s1 ← us_step s e; us_run s1 es'
  end.

(** The kernel hands out descriptors that are not in use. *)
Definition event_ok (s : UnixSocketServer) (e : ServerEvent) : Prop :=
  match e with EvAccept (Some (fd, _)) | EvThread (Some (fd, _)) => fd ∉ us_fds s | _ => True end.

Definition env_ok (s : UnixSocketServer) (env : StartEnv) : Prop :=
  (forall fd, env_listener env = Some fd -> fd ∉ us_fds s) /\ (forall fd, env_socket env = inr fd -> fd ∉ us_fds s).

(** A state reached from [s] by steps that went well. *)
Inductive reaches : UnixSocketServer -> UnixSocketServer -> Prop :=
| reaches_refl s : reaches s s
| reaches_step s s1 s2 e : reaches s s1 -> event_ok s1 e -> us_step s1 e = Done s2 -> reaches s s2.

(** ** Descriptors *)

(** The descriptors the loops hold. *)
Definition handler_fd (h : Handler) : list Z := match h_pc h with HClosed => [] | _ => [h_fd h] end.

Definition thread_fd (t : option (Z * ThreadPc)) : list Z :=
  match t with Some (_, TEnd) | None => [] | Some (fd, _) => [fd] end.

Definition listener_fd (l : option Z) : list Z := match l with Some fd => [fd] | None => [] end.

Definition owners (s : UnixSocketServer) : list Z :=
  listener_fd (us_listener s) ++ thread_fd (us_thread s) ++ concat (handler_fd <$> us_handlers s).

(** Every open descriptor is held by exactly one loop, and every descriptor a loop holds is open. *)
Record us_inv (s : UnixSocketServer) : Prop := {
  us_owned : forall fd, fd ∈ us_fds s <-> fd ∈ owners s;
  us_once : NoDup (owners s)
}.

Lemma us_make_inv p sv : us_inv (us_make p sv).
Proof. split; [|constructor]. intros fd. set_solver. Qed.

(** The same descriptors with the same owners, in another order. *)
Lemma us_inv_perm s s' : us_fds s' = us_fds s -> owners s' ≡ₚ owners s -> us_inv s -> us_inv s'.
Proof. intros Ef Eo [H1 H2]. split; [intros fd; by rewrite Ef, Eo|by rewrite Eo]. Qed.

Lemma us_inv_open s s' fd : us_fds s' = {[fd]} ∪ us_fds s -> owners s' ≡ₚ fd :: owners s ->
  fd ∉ us_fds s -> us_inv s -> us_inv s'.
Proof.
  intros Ef Eo Hn [H1 H2]. split.
  - intros fd'. rewrite Ef, Eo, elem_of_union, elem_of_singleton, elem_of_cons, H1. done.
  - rewrite Eo. constructor; [by rewrite <- H1|done].
Qed.

Lemma us_inv_close s s' fd : us_fds s' = us_fds s ∖ {[fd]} -> owners s ≡ₚ fd :: owners s' ->
  us_inv s -> us_inv s'.
Proof.
  intros Ef Eo [H1 H2]. rewrite Eo in H2. apply NoDup_cons in H2 as [Hn H2]. split; [|done].
  intros fd'. rewrite Ef, elem_of_difference, elem_of_singleton, H1, Eo, elem_of_cons.
  split; [tauto|]. intros Hin. split; [by right|]. by intros ->.
Qed.

Lemma close_owned s fd : us_inv s -> fd ∈ owners s ->
  close_fd s fd = Done (set_fds s (us_fds s ∖ {[fd]})).
Proof. intros Hs Hin. unfold close_fd. rewrite bool_decide_eq_true_2; [done|]. by apply (us_owned _ Hs). Qed.

Lemma handlers_split (hs : list Handler) i h h' : hs !! i = Some h ->
  exists rest, concat (handler_fd <$> hs) ≡ₚ handler_fd h ++ rest /\
    concat (handler_fd <$> <[i := h']> hs) ≡ₚ handler_fd h' ++ rest.
Proof.
  intros Hi. pose proof (lookup_lt_Some _ _ _ Hi) as Hlt.
  exists (concat (handler_fd <$> take i hs) ++ concat (handler_fd <$> drop (S i) hs)).
  rewrite <- (take_drop_middle _ _ _ Hi) at 1. rewrite insert_take_drop by done.
  rewrite !fmap_app, !concat_app, !fmap_cons. cbn [concat].
  split; rewrite !app_assoc; apply Permutation_app_tail, Permutation_app_comm.
Qed.

(** Replacing a handler by one that holds the same descriptor, or by a closed one. *)
Lemma owners_handler s i h h' : us_handlers s !! i = Some h -> handler_fd h' = handler_fd h ->
  owners (set_handlers s (<[i := h']> (us_handlers s))) ≡ₚ owners s.
Proof.
  intros Hi Hf. destruct (handlers_split (us_handlers s) i h h' Hi) as (rest & E1 & E2).
  unfold owners. cbn [set_handlers us_listener us_thread us_handlers]. by rewrite E1, E2, Hf.
Qed.

Lemma owners_closed s i h h' fd : us_handlers s !! i = Some h -> handler_fd h = [fd] -> handler_fd h' = [] ->
  owners s ≡ₚ fd :: owners (set_handlers s (<[i := h']> (us_handlers s))).
Proof.
  intros Hi Hf Hf'. destruct (handlers_split (us_handlers s) i h h' Hi) as (rest & E1 & E2).
  unfold owners. cbn [set_handlers us_listener us_thread us_handlers]. rewrite E1, E2, Hf, Hf'.
  cbn [app]. by rewrite <- !Permutation_middle.
Qed.

Lemma handler_owned s i h fd : us_handlers s !! i = Some h -> handler_fd h = [fd] -> fd ∈ owners s.
Proof.
  intros Hi Hf. rewrite (owners_closed s i h (with_pc h HClosed) fd Hi Hf eq_refl). by left.
Qed.

Lemma owners_spawn s by_ fd c : owners (spawn_handler s by_ fd c) ≡ₚ fd :: owners s.
Proof.
  unfold owners, spawn_handler. cbn [set_handlers open_fd set_fds us_listener us_thread us_handlers].
  rewrite fmap_app, concat_app. cbn [fmap list_fmap concat handler_fd h_pc h_fd app]. rewrite !app_assoc.
  symmetry. apply Permutation_cons_append.
Qed.

Lemma spawn_inv s by_ fd c : fd ∉ us_fds s -> us_inv s -> us_inv (spawn_handler s by_ fd c).
Proof. intros Hn. apply us_inv_open with (fd := fd); [done|apply owners_spawn|done]. Qed.

(** The accept coroutine has passed the test of [listener_], which [stop] has then reset. *)
Definition dangling (s : UnixSocketServer) : Prop := us_accept s = Some ACall /\ us_listener s = None.

(** A step keeps the invariant; only the request itself, or a call through the reset [listener_], can be undefined. *)
Definition step_good (s : UnixSocketServer) (e : ServerEvent) (r : outcome UnixSocketServer) : Prop :=
  match r with
  | Done s' => us_inv s'
  | Undef => (exists x, e = EvAccept x) /\ dangling s \/
             exists i now h, e = EvHandler i now /\ us_handlers s !! i = Some h /\
               process_request (h_by h) now (us_server s) (h_conn h) = Undef
  | _ => exists i now h, e = EvHandler i now /\ us_handlers s !! i = Some h /\
           (process_request (h_by h) now (us_server s) (h_conn h) = Spin \/
            exists w, process_request (h_by h) now (us_server s) (h_conn h) = Throw w)
  end.

Lemma accept_step_good s r : us_inv s -> event_ok s (EvAccept r) -> step_good s (EvAccept r) (accept_step s r).
Proof.
  intros Hs He. unfold accept_step. destruct (us_accept s) as [[]|] eqn:Ea; try exact Hs.
  - by apply (us_inv_perm s).
  - destruct (us_listener s) eqn:El; [by apply (us_inv_perm s)|]. left. split; [eauto|done].
  - destruct r as [[fd c]|]; [|by apply (us_inv_perm s)].
    apply (us_inv_perm (spawn_handler s ByCoroutine fd c)); [done..|by apply spawn_inv].
Qed.

Lemma thread_step_good s r : us_inv s -> event_ok s (EvThread r) -> step_good s (EvThread r) (thread_step s r).
Proof.
  intros Hs He. unfold thread_step. destruct (us_thread s) as [[fd []]|] eqn:Et; try exact Hs.
  - destruct (us_running s); [apply (us_inv_perm s); [done| |done]; unfold owners; cbn; by rewrite Et|].
    assert (owners s ≡ₚ fd :: owners (set_thread s fd TEnd)) as Eo.
    { unfold owners. cbn. rewrite Et. cbn. by rewrite <- Permutation_middle. }
    rewrite close_owned by (done || (rewrite Eo; by left)). cbn [mbind outcome_bind].
    by apply (us_inv_close s _ fd).
  - assert (forall s1, us_thread s1 = us_thread s -> owners (set_thread s1 fd TTest) = owners s1) as Eo.
    { intros s1 E1. unfold owners. cbn. by rewrite E1, Et. }
    destruct r as [[fd' c]|].
    + apply (us_inv_perm (spawn_handler s ByThread fd' c)); [done|by rewrite Eo|by apply spawn_inv].
    + apply (us_inv_perm s); [done|by rewrite Eo|done].
Qed.

Lemma handler_step_good s i now : us_inv s -> step_good s (EvHandler i now) (handler_step s i now).
Proof.
  intros Hs. unfold handler_step. destruct (us_handlers s !! i) as [h|] eqn:Eh; [|exact Hs].
  destruct (h_pc h) eqn:Ep; [| |exact Hs].
  - assert (handler_fd h = [h_fd h]) as Ef by (unfold handler_fd; by rewrite Ep).
    destruct (us_running s).
    + apply (us_inv_perm s); [done| |done]. apply (owners_handler s i h); [done|]. by rewrite Ef.
    + rewrite close_owned by (done || by eapply handler_owned). cbn [mbind outcome_bind].
      apply (us_inv_close s _ (h_fd h)); [done| |done]. by apply (owners_closed s i h).
  - assert (handler_fd h = [h_fd h]) as Ef by (unfold handler_fd; by rewrite Ep).
    destruct (process_request (h_by h) now (us_server s) (h_conn h)) as [[[ok sv] c]|w| |] eqn:Er;
      cbn [mbind outcome_bind step_good].
    + destruct ok.
      * apply (us_inv_perm s); [done| |done]. apply (owners_handler s i h); [done|]. by rewrite Ef.
      * rewrite (close_owned (set_server s sv)); [|by apply (us_inv_perm s)|by eapply (handler_owned s)].
        cbn [mbind outcome_bind]. apply (us_inv_close s _ (h_fd h)); [done| |done]. by apply (owners_closed s i h).
    + exists i, now, h. eauto.
    + right. exists i, now, h. done.
    + exists i, now, h. eauto.
Qed.

Lemma stop_good s : us_inv s -> step_good s EvStop (us_stop s).
Proof.
  intros Hs. unfold us_stop. cbn [set_running us_listener]. destruct (us_listener s) as [fd|] eqn:El.
  - assert (owners s = fd :: owners (set_listener s None)) as Eo by (unfold owners; cbn; by rewrite El).
    rewrite (close_owned (set_running s false)); [|by apply (us_inv_perm s)|].
    + cbn [mbind outcome_bind]. apply (us_inv_close s _ fd); [done|by rewrite Eo|done].
    + change (owners (set_running s false)) with (owners s). rewrite Eo. by left.
  - by apply (us_inv_perm s).
Qed.

Lemma us_step_good s e : us_inv s -> event_ok s e -> step_good s e (us_step s e).
Proof.
  intros Hs He. destruct e; cbn [us_step].
  - by apply accept_step_good.
  - by apply thread_step_good.
  - by apply handler_step_good.
  - by apply stop_good.
Qed.

(** ** [start] *)

(** The server listens, in one of the two ways. *)
Definition listening (s : UnixSocketServer) : Prop :=
  exists fd, us_fds s = {[fd]} /\
    ((us_listener s = Some fd /\ us_accept s = Some ATest /\ us_thread s = None) \/
     (us_listener s = None /\ us_accept s = None /\ us_thread s = Some (fd, TTest))).

Definition start_succeeds (path : bytes) (env : StartEnv) : bool :=
  match (if has_parent path then env_mkdir env else None), env_listener env, env_socket env, env_bind env, env_listen env with
  | Some _, _, _, _, _ => false
  | None, Some _, _, _, _ => true
  | None, None, inr _, None, None => true
  | _, _, _, _, _ => false
  end.

Lemma singleton_drop (fd : Z) : {[fd]} ∪ ∅ ∖ {[fd]} = ({[fd]} : gset Z).
Proof. set_solver. Qed.

Lemma us_start_cases path sv env :
  exists st s, us_start env (us_make path sv) = Done (st, s) /\ us_running s = true /\ us_server s = sv /\
    us_handlers s = [] /\ is_ok st = start_succeeds path env /\
    (is_ok st = true -> listening s) /\
    (is_ok st = false -> us_fds s = ∅ /\ us_listener s = None /\ us_accept s = None /\ us_thread s = None).
Proof.
  unfold us_start, start_succeeds. cbn [us_make set_running us_socket_path].
  destruct (if has_parent path then env_mkdir env else None) as [m|]; [by eexists _, _|].
  destruct (env_listener env) as [fd|].
  { eexists _, _. split; [reflexivity|]. split_and!; try done. intros _. exists fd.
    split; [cbn; set_solver|by left]. }
  destruct (env_socket env) as [m|fd]; [by eexists _, _|].
  assert (forall s, us_fds s = ∅ -> close_fd (open_fd s fd) fd = Done (set_fds (open_fd s fd) ∅)) as Hc.
  { intros s E. unfold close_fd. cbn [open_fd set_fds us_fds]. rewrite E.
    rewrite bool_decide_eq_true_2 by set_solver. f_equal. unfold set_fds. f_equal. set_solver. }
  destruct (env_bind env) as [m|]; [rewrite Hc by done; by eexists _, _|].
  destruct (env_listen env) as [m|].
  - set (s3 := set_files _ _). assert (close_fd s3 fd = Done (set_fds s3 ∅)) as ->.
    { unfold close_fd. subst s3. cbn [open_fd set_fds set_files us_fds us_make]. rewrite bool_decide_eq_true_2 by set_solver.
      f_equal. unfold set_fds. f_equal. set_solver. }
    by eexists _, _.
  - eexists _, _. split; [reflexivity|]. split_and!; try done. intros _. exists fd.
    split; [cbn; set_solver|by right].
Qed.

Lemma listening_inv s : listening s -> us_handlers s = [] -> us_inv s.
Proof.
  intros (fd & Ef & H) Eh. assert (owners s = [fd]) as Eo.
  { unfold owners. rewrite Eh. by destruct H as [(-> & _ & ->)|(-> & _ & ->)]. }
  split; [intros fd'; rewrite Ef, Eo; set_solver|]. rewrite Eo. apply NoDup_singleton.
Qed.

Lemma us_start_inv path sv env st s : us_start env (us_make path sv) = Done (st, s) -> us_inv s.
Proof.
  intros E. destruct (us_start_cases path sv env) as (st' & s' & E' & _ & _ & Eh & _ & Hok & Herr).
  rewrite E in E'. injection E' as <- <-. destruct (is_ok st) eqn:Es; [apply listening_inv; auto|].
  destruct (Herr eq_refl) as (Ef & El & _ & Et). split.
  - intros fd. unfold owners. rewrite Ef, El, Et, Eh. set_solver.
  - unfold owners. rewrite El, Et, Eh. constructor.
Qed.

Lemma reaches_inv s s' : us_inv s -> reaches s s' -> us_inv s'.
Proof.
  intros Hs. induction 1 as [|s s1 s2 e _ IH He Es]; [done|]. pose proof (us_step_good s1 e (IH Hs) He) as Hg.
  by rewrite Es in Hg.
Qed.

(** ** [stop] *)

(** What is left to do once [running_] is off, and how many connections can still come in. *)
Definition handler_work (h : Handler) : nat := match h_pc h with HTest => 1 | HServe => 2 | HClosed => 0 end.
Definition accept_work (s : UnixSocketServer) : nat :=
  match us_accept s with Some ATest => 1 | Some ACall => 4 | Some AWait => 3 | _ => 0 end.
Definition thread_work (s : UnixSocketServer) : nat :=
  match us_thread s with Some (_, TTest) => 1 | Some (_, TPoll) => 3 | _ => 0 end.
Definition work (s : UnixSocketServer) : nat :=
  accept_work s + thread_work s + sum_list_with handler_work (us_handlers s).

Definition arrivals (s : UnixSocketServer) : nat :=
  (match us_accept s with Some ACall | Some AWait => 1 | _ => 0 end +
   match us_thread s with Some (_, TPoll) => 1 | _ => 0 end)%nat.

Definition stopped (s : UnixSocketServer) : Prop := us_running s = false /\ us_listener s = None.

(** The handlers of [s'] against those of [s]: no request is begun. *)
Definition no_new_requests (s s' : UnixSocketServer) : Prop :=
  forall i h', us_handlers s' !! i = Some h' ->
    match us_handlers s !! i with Some h => h_fd h' = h_fd h /\ h_count h' = h_count h | None => h_count h' = 0%nat end.

Lemma no_new_same s s' : us_handlers s' = us_handlers s -> no_new_requests s s'.
Proof. intros E i h. rewrite E. intros ->. done. Qed.

Lemma sum_work_insert h' (hs : list Handler) : forall i h, hs !! i = Some h ->
  (sum_list_with handler_work (<[i := h']> hs) + handler_work h = sum_list_with handler_work hs + handler_work h')%nat.
Proof.
  induction hs as [|x hs IH]; intros [|i] h Hi; simpl in *; try done.
  - injection Hi as ->. lia.
  - specialize (IH i h Hi). lia.
Qed.

(** One step of a stopped server. *)
Record drained (s s' : UnixSocketServer) : Prop := {
  dr_stopped : stopped s';
  dr_work : s' = s \/ (work s' < work s)%nat;
  dr_arrivals : (length (us_handlers s') + arrivals s' <= length (us_handlers s) + arrivals s)%nat;
  dr_length : (length (us_handlers s) <= length (us_handlers s'))%nat;
  dr_requests : no_new_requests s s'
}.

Lemma no_new_spawn s by_ fd c : no_new_requests s (spawn_handler s by_ fd c).
Proof.
  intros i h'. cbn [spawn_handler set_handlers us_handlers]. intros Hi.
  apply lookup_app_Some in Hi as [->|[Hge Hi]]; [done|]. rewrite lookup_ge_None_2 by done.
  apply list_lookup_singleton_Some in Hi as [_ <-]. done.
Qed.

Lemma no_new_insert s s1 i h h' : us_handlers s1 = us_handlers s -> us_handlers s !! i = Some h ->
  h_fd h' = h_fd h -> h_count h' = h_count h ->
  no_new_requests s (set_handlers s1 (<[i := h']> (us_handlers s1))).
Proof.
  intros E Hi Hf Hc j hj. cbn [set_handlers us_handlers]. rewrite E. intros Hj.
  apply list_lookup_insert_Some in Hj as [(<- & <- & _)|[_ ->]]; [by rewrite Hi|done].
Qed.

Lemma accept_drains s r s' : stopped s -> accept_step s r = Done s' -> drained s s'.
Proof.
  intros [Hr Hl]. unfold accept_step. destruct (us_accept s) as [[]|] eqn:Ea.
  - rewrite Hr. cbn [andb]. intros [= <-]. split; [done| |unfold arrivals; cbn; rewrite Ea; lia|done|by apply no_new_same].
    right. unfold work, accept_work, thread_work. cbn. rewrite Ea. lia.
  - by rewrite Hl.
  - destruct r as [[fd c]|]; intros [= <-].
    + split; [done| | | |apply no_new_spawn].
      * right. unfold work, accept_work, thread_work. cbn. rewrite Ea, sum_list_with_app. cbn. lia.
      * unfold arrivals. cbn. rewrite Ea, length_app. cbn. lia.
      * cbn. rewrite length_app. lia.
    + split; [done| | |done|by apply no_new_same].
      * right. unfold work, accept_work, thread_work. cbn. rewrite Ea. lia.
      * unfold arrivals. cbn. rewrite Ea. lia.
  - intros [= <-]. split; [done|by left|done|done|by apply no_new_same].
  - intros [= <-]. split; [done|by left|done|done|by apply no_new_same].
Qed.

Lemma thread_drains s r s' : us_inv s -> stopped s -> thread_step s r = Done s' -> drained s s'.
Proof.
  intros Hs [Hr Hl]. unfold thread_step. destruct (us_thread s) as [[fd []]|] eqn:Et.
  - rewrite Hr. rewrite close_owned; [|done|unfold owners; rewrite Et; set_solver].
    cbn [mbind outcome_bind]. intros [= <-]. split; [done| |unfold arrivals; cbn; rewrite Et; lia|done|by apply no_new_same].
    right. unfold work, accept_work, thread_work. cbn. rewrite Et. lia.
  - destruct r as [[fd' c]|]; intros [= <-].
    + split; [done| | | |apply no_new_spawn].
      * right. unfold work, accept_work, thread_work. cbn. rewrite Et, sum_list_with_app. cbn. lia.
      * unfold arrivals. cbn. rewrite Et, length_app. cbn. lia.
      * cbn. rewrite length_app. lia.
    + split; [done| | |done|by apply no_new_same].
      * right. unfold work, accept_work, thread_work. cbn. rewrite Et. lia.
      * unfold arrivals. cbn. rewrite Et. lia.
  - intros [= <-]. split; [done|by left|done|done|by apply no_new_same].
  - intros [= <-]. split; [done|by left|done|done|by apply no_new_same].
Qed.

(** A handler replaced by one with less to do. *)
Lemma replaced_drains s s1 i h h' : stopped s1 -> us_accept s1 = us_accept s -> us_thread s1 = us_thread s ->
  us_handlers s1 = us_handlers s -> us_handlers s !! i = Some h -> h_fd h' = h_fd h -> h_count h' = h_count h ->
  (handler_work h' < handler_work h)%nat -> drained s (set_handlers s1 (<[i := h']> (us_handlers s1))).
Proof.
  intros Hst Ea Et Eh Hi Hf Hc Hw. split; [done| | | |by apply (no_new_insert s s1 i h)].
  - right. unfold work, accept_work, thread_work. cbn. rewrite Ea, Et, Eh.
    pose proof (sum_work_insert h' (us_handlers s) i h Hi). lia.
  - unfold arrivals. cbn. rewrite Ea, Et, Eh, length_insert. lia.
  - cbn. rewrite Eh, length_insert. lia.
Qed.

Lemma handler_drains s i now s' : us_inv s -> stopped s -> handler_step s i now = Done s' -> drained s s'.
Proof.
  intros Hs [Hr Hl]. unfold handler_step.
  destruct (us_handlers s !! i) as [h|] eqn:Eh; [|intros [= <-]; split; [done|by left|done|done|by apply no_new_same]].
  destruct (h_pc h) eqn:Ep; [| |intros [= <-]; split; [done|by left|done|done|by apply no_new_same]].
  all: assert (handler_fd h = [h_fd h]) as Ef by (unfold handler_fd; by rewrite Ep).
  - rewrite Hr, close_owned by (done || by eapply handler_owned). cbn [mbind outcome_bind]. intros [= <-].
    apply (replaced_drains s (set_fds s _) i h); try done. unfold handler_work. rewrite Ep. cbn. lia.
  - destruct (process_request (h_by h) now (us_server s) (h_conn h)) as [[[ok sv] c]| | |]; try done.
    cbn [mbind outcome_bind]. destruct ok.
    + intros [= <-]. apply (replaced_drains s (set_server s sv) i h); try done. unfold handler_work. rewrite Ep. cbn. lia.
    + rewrite (close_owned (set_server s sv)); [|by apply (us_inv_perm s)|by eapply (handler_owned s)].
      cbn [mbind outcome_bind]. intros [= <-]. apply (replaced_drains s (set_fds (set_server s sv) _) i h); try done.
      unfold handler_work. rewrite Ep. cbn. lia.
Qed.

Lemma stop_again s s' : stopped s -> us_stop s = Done s' -> s' = s.
Proof. intros [Hr Hl]. unfold us_stop. cbn [set_running us_listener]. rewrite Hl. destruct s. cbn in *. subst. by intros [= <-]. Qed.

Lemma step_drains s e s' : us_inv s -> stopped s -> us_step s e = Done s' -> drained s s'.
Proof.
  intros Hs Hst. destruct e; cbn [us_step].
  - by apply accept_drains.
  - by apply thread_drains.
  - by apply handler_drains.
  - intros ->%stop_again; [|done]. split; [done|by left|done|done|by apply no_new_same].
Qed.

Lemma no_new_trans s1 s2 s3 : (length (us_handlers s1) <= length (us_handlers s2))%nat ->
  no_new_requests s1 s2 -> no_new_requests s2 s3 -> no_new_requests s1 s3.
Proof.
  intros Hle H12 H23 i h3 H3. specialize (H23 i h3 H3). specialize (H12 i).
  destruct (us_handlers s2 !! i) as [h2|] eqn:E2.
  - specialize (H12 h2 eq_refl). destruct H23 as [? ?]. destruct (us_handlers s1 !! i); [|congruence].
    destruct H12. split; congruence.
  - apply lookup_ge_None in E2. rewrite lookup_ge_None_2 by lia. done.
Qed.

(** The steps that did something, counted. *)
Inductive reaches_in : nat -> UnixSocketServer -> UnixSocketServer -> Prop :=
| reaches_in_refl s : reaches_in 0 s s
| reaches_in_step n s s1 s2 e : reaches_in n s s1 -> event_ok s1 e -> us_step s1 e = Done s2 -> s2 <> s1 ->
    reaches_in (S n) s s2.

Lemma reaches_in_drains n s s' : us_inv s -> stopped s -> reaches_in n s s' ->
  us_inv s' /\ stopped s' /\ (n + work s' <= work s)%nat /\
  (length (us_handlers s') + arrivals s' <= length (us_handlers s) + arrivals s)%nat /\
  (length (us_handlers s) <= length (us_handlers s'))%nat /\ no_new_requests s s'.
Proof.
  intros Hs Hst. induction 1 as [|n s s1 s2 e _ IH He Es Hne].
  - split_and!; [done|done|lia|lia|lia|by apply no_new_same].
  - destruct (IH Hs Hst) as (Hi & Hst1 & Hw & Ha & Hl & Hn).
    destruct (step_drains s1 e s2 Hi Hst1 Es) as [Hst2 [->|Hw2] Ha2 Hl2 Hn2]; [done|].
    pose proof (us_step_good s1 e Hi He) as Hg. rewrite Es in Hg.
    split_and!; [done|done|lia|lia|lia|by eapply no_new_trans].
Qed.

(** Nothing is left to do. *)
Lemma no_work s : work s = 0%nat -> stopped s ->
  (us_accept s = None \/ us_accept s = Some AEnd) /\ owners s = [].
Proof.
  unfold work, accept_work, thread_work. intros Hw [_ Hl].
  assert (sum_list_with handler_work (us_handlers s) = 0%nat) as Hh by lia.
  split; [destruct (us_accept s) as [[]|]; try lia; auto|]. unfold owners. rewrite Hl.
  replace (thread_fd (us_thread s)) with (@nil Z) by (destruct (us_thread s) as [[fd []]|]; cbn in *; done || lia).
  cbn [listener_fd app]. induction (us_handlers s) as [|h hs IH]; [done|]. cbn in Hh |- *.
  rewrite IH by lia. unfold handler_fd, handler_work in *. destruct (h_pc h); cbn in *; done || lia.
Qed.

(** ** Properties *)

(** C38: [start] of a new server, whatever the system calls answer: it reports success exactly when one of
    the two ways to listen worked, and then one accept loop runs and one descriptor is open; after an
    error no descriptor is left open and no loop runs, but [running_] stays on. *)
Theorem us_start_spec path sv env :
  exists st s, us_start env (us_make path sv) = Done (st, s) /\ us_running s = true /\
    is_ok st = start_succeeds path env /\
    (is_ok st = true -> listening s) /\
    (is_ok st = false -> us_fds s = ∅ /\ us_listener s = None /\ us_accept s = None /\ us_thread s = None).
Proof.
  destruct (us_start_cases path sv env) as (st & s & E & Hr & _ & _ & Hok & Hl & He). by exists st, s.
Qed.

(** C17: descriptors are neither leaked nor closed twice. In every state the server can reach after [start],
    with any interleaving of the accept loop, the connection handlers and [stop], each open descriptor
    is held by exactly one loop and each descriptor a loop holds is open; the next step keeps this, and
    closes nothing that is not open. It can only be undefined by a malformed request, or by a call
    through [listener_] after [stop] has reset it. *)
Theorem us_descriptors path sv env st s0 s e :
  us_start env (us_make path sv) = Done (st, s0) -> reaches s0 s -> event_ok s e ->
  us_inv s /\ step_good s e (us_step s e).
Proof.
  intros Es Hr He. pose proof (reaches_inv s0 s (us_start_inv _ _ _ _ _ Es) Hr) as Hs.
  split; [done|by apply us_step_good].
Qed.

(** C28: [stop] drains the server: after it the loops take only a bounded number of steps, at most two
    connections still come in (one per accept loop that had passed its test), no handler begins another
    request than the one it was waiting for, and when nothing is left to do no descriptor is open. *)
Theorem us_stop_drains s s1 n s' :
  us_inv s -> us_stop s = Done s1 -> reaches_in n s1 s' ->
  stopped s' /\ (n + work s' <= work s1)%nat /\
  (length (us_handlers s') <= length (us_handlers s) + 2)%nat /\ no_new_requests s s' /\
  (work s' = 0%nat -> us_fds s' = ∅).
Proof.
  intros Hs Est Hr. pose proof (stop_good s Hs) as Hg. rewrite Est in Hg. cbn [step_good] in Hg.
  assert (us_handlers s1 = us_handlers s /\ stopped s1) as [Eh Hst].
  { unfold us_stop in Est. cbn [set_running us_listener] in Est. destruct (us_listener s) eqn:El.
    - apply outcome_bind_Done in Est as (s2 & E2 & [= <-]). unfold close_fd in E2.
      destruct (bool_decide _); [|done]. by injection E2 as <-.
    - by injection Est as <-. }
  destruct (reaches_in_drains n s1 s' Hg Hst Hr) as (Hi & Hst' & Hw & Ha & _ & Hn). rewrite Eh in Ha.
  split_and!; [done|done| | |].
  - enough (arrivals s1 <= 2)%nat by lia. unfold arrivals. repeat case_match; lia.
  - intros i h' Hh. specialize (Hn i h' Hh). by rewrite Eh in Hn.
  - intros Hw0. destruct (no_work s' Hw0 Hst') as [_ Ho]. apply set_eq. intros fd.
    rewrite (us_owned _ Hi), Ho. set_solver.
Qed.

(** [listener_] is tested and used without a lock: when [stop] runs between the two, the accept loop
    calls [accept] through a null pointer. *)
Theorem us_stop_race s fd r r' :
  us_inv s -> us_running s = true -> us_listener s = Some fd -> us_accept s = Some ATest ->
  us_run s [EvAccept r; EvStop; EvAccept r'] = Undef.
Proof.
  intros Hs Hr Hl Ha. cbn [us_run us_step].
  assert (accept_step s r = Done (set_accept s ACall)) as ->.
  { unfold accept_step. rewrite Ha, Hr, Hl. done. }
  cbn [mbind outcome_bind]. unfold us_stop. cbn [set_running set_accept us_listener]. rewrite Hl.
  rewrite close_owned; [done|by apply (us_inv_perm s)|]. unfold owners. cbn. rewrite Hl. by left.
Qed.

(** ** Witnesses *)

Definition sample_env : StartEnv := mkStartEnv None (Some 5) (inl []) None None.

Definition sample_server : UnixSocketServer :=
  match us_start sample_env (us_make (str "/run/s") (mkServer ∅ ∅)) with Done (_, s) => s | _ => us_make [] (mkServer ∅ ∅) end.

Definition idle_conn : Conn := mkConn [] [] [].

Lemma sample_server_inv : us_inv sample_server.
Proof. by apply (us_start_inv (str "/run/s") (mkServer ∅ ∅) sample_env make_ok). Qed.

(** Runs as chains of steps. *)
Fixpoint run_ok (s : UnixSocketServer) (es : list ServerEvent) : Prop :=
  match es with
  | [] => True
  | e :: es' => event_ok s e /\ match us_step s e with Done s1 => s1 <> s /\ run_ok s1 es' | _ => False end
  end.

Lemma run_reaches es : forall s0 s s', reaches s0 s -> run_ok s es -> us_run s es = Done s' -> reaches s0 s'.
Proof.
  induction es as [|e es IH]; intros s0 s s' Hr; [by intros _ [= <-]|]. cbn [run_ok us_run].
  destruct (us_step s e) as [s1| | |] eqn:E; try (by intros [_ []]). intros (He & _ & Hok). cbn [mbind outcome_bind].
  apply IH; [by eapply reaches_step|done].
Qed.

Lemma run_reaches_in es : forall n s0 s s', reaches_in n s0 s -> run_ok s es -> us_run s es = Done s' ->
  reaches_in (length es + n) s0 s'.
Proof.
  induction es as [|e es IH]; intros n s0 s s' Hr; [by intros _ [= <-]|]. cbn [run_ok us_run].
  destruct (us_step s e) as [s1| | |] eqn:E; try (by intros [_ []]). intros (He & Hne & Hok). cbn [mbind outcome_bind].
  intros Es. cbn [length]. rewrite Nat.add_succ_comm. apply (IH (S n) s0 s1); [by eapply reaches_in_step|done..].
Qed.

Definition first_events : list ServerEvent :=
  [EvAccept None; EvAccept None; EvAccept (Some (6, idle_conn)); EvHandler 0 (fun _ => 0)].

(** A server with a client in the middle of its first request. *)
Definition sample_busy : UnixSocketServer :=
  match us_run sample_server first_events with Done s => s | _ => sample_server end.

Lemma sample_busy_reached : reaches sample_server sample_busy.
Proof.
  apply (run_reaches first_events _ sample_server); [apply reaches_refl| |reflexivity].
  repeat (split; [first [exact I|by vm_compute]|split; [discriminate|]]). exact I.
Qed.

Lemma us_descriptors_witness : us_inv sample_busy /\ exists s, us_step sample_busy EvStop = Done s /\ us_inv s.
Proof.
  destruct (us_descriptors (str "/run/s") (mkServer ∅ ∅) sample_env make_ok sample_server sample_busy EvStop) as [Hi Hg].
  - reflexivity.
  - exact sample_busy_reached.
  - exact I.
  - split; [exact Hi|]. eexists. split; [reflexivity|exact Hg].
Defined.

(** The same server stopped, and what its loops still do. *)
Definition sample_stopped : UnixSocketServer := match us_stop sample_busy with Done s => s | _ => sample_busy end.
Definition last_events : list ServerEvent := [EvAccept None; EvHandler 0 (fun _ => 0)].
Definition sample_drained : UnixSocketServer :=
  match us_run sample_stopped last_events with Done s => s | _ => sample_stopped end.

Lemma us_stop_drains_witness : us_fds sample_drained = ∅ /\ no_new_requests sample_busy sample_drained.
Proof.
  destruct (us_stop_drains sample_busy sample_stopped 2 sample_drained) as (_ & _ & _ & Hn & Hf).
  - exact (reaches_inv _ _ sample_server_inv sample_busy_reached).
  - reflexivity.
  - apply (run_reaches_in last_events 0 sample_stopped sample_stopped); [apply reaches_in_refl| |reflexivity].
    repeat (split; [exact I|split; [discriminate|]]). exact I.
  - split; [apply Hf; reflexivity|exact Hn].
Defined.

Lemma us_stop_race_witness : us_run sample_server [EvAccept None; EvStop; EvAccept None] = Undef.
Proof. apply (us_stop_race sample_server 5); [apply sample_server_inv|reflexivity..]. Defined.
