(* ===== verification/SdkClient.v ===== *)
(** * The C client library: [include/elcache/elcache_sdk.h], [src/sdk/elcache_client.c]

    The client keeps a send and a receive buffer, builds every request in the send buffer, sends it,
    reads the answer into the receive buffer and decodes it there. A buffer is the list of its bytes; a
    store or load outside it is [Undef], as is a [memcpy] between overlapping ranges. A socket is the
    list of events of the coming [recv] calls (data, a signal, an error; nothing more is end of file),
    the bytes sent, and the results of the coming [send] calls. A pointer argument is an option, [None]
    being NULL; the client pointer itself is not NULL. [now] is [time(NULL)] as a function of the bytes
    sent so far, [us] the readings of the monotonic clock. *)

From S2P Require Import Prelude CStd Types Codec SparseCache UnixServer.
From Stdlib Require Import Strings.Byte.
Open Scope Z_scope.

(** ** Constants and data of the header *)

Definition ELCACHE_PROTO_MAGIC : Z := 0x454C4341.
Definition ELCACHE_PROTO_VERSION : Z := 1.
Definition ELCACHE_HEADER_SIZE : Z := 24.
Definition DEFAULT_RECV_BUFFER : Z := 256 * 1024.
Definition DEFAULT_SEND_BUFFER : Z := 256 * 1024.
Definition DEFAULT_TIMEOUT_MS : Z := 30000.

Inductive elcache_error :=
| ELCACHE_OK | ELCACHE_ERR_INVALID_ARG | ELCACHE_ERR_NOT_FOUND | ELCACHE_ERR_PARTIAL | ELCACHE_ERR_TIMEOUT
| ELCACHE_ERR_CONNECTION | ELCACHE_ERR_PROTOCOL | ELCACHE_ERR_BUFFER_TOO_SMALL | ELCACHE_ERR_KEY_TOO_LARGE
| ELCACHE_ERR_VALUE_TOO_LARGE | ELCACHE_ERR_OUT_OF_MEMORY | ELCACHE_ERR_INTERNAL.

#[export] Instance elcache_error_eq_dec : EqDecision elcache_error.
Proof. solve_decision. Defined.

Definition error_code (e : elcache_error) : Z :=
  match e with
  | ELCACHE_OK => 0 | ELCACHE_ERR_INVALID_ARG => -1 | ELCACHE_ERR_NOT_FOUND => -2 | ELCACHE_ERR_PARTIAL => -3
  | ELCACHE_ERR_TIMEOUT => -4 | ELCACHE_ERR_CONNECTION => -5 | ELCACHE_ERR_PROTOCOL => -6
  | ELCACHE_ERR_BUFFER_TOO_SMALL => -7 | ELCACHE_ERR_KEY_TOO_LARGE => -8 | ELCACHE_ERR_VALUE_TOO_LARGE => -9
  | ELCACHE_ERR_OUT_OF_MEMORY => -10 | ELCACHE_ERR_INTERNAL => -11
  end.

(** [elcache_error_string] takes any value of the enumeration's type. *)
Definition elcache_error_string (error : Z) : string :=
  if error =? 0 then "Success"
  else if error =? -1 then "Invalid argument"
  else if error =? -2 then "Not found"
  else if error =? -3 then "Partial data"
  else if error =? -4 then "Timeout"
  else if error =? -5 then "Connection error"
  else if error =? -6 then "Protocol error"
  else if error =? -7 then "Buffer too small"
  else if error =? -8 then "Key too large"
  else if error =? -9 then "Value too large"
  else if error =? -10 then "Out of memory"
  else if error =? -11 then "Internal error"
  else "Unknown error".

Inductive elcache_transport := ELCACHE_TRANSPORT_UNIX | ELCACHE_TRANSPORT_SHM.

Record elcache_put_options := mkPutOptions {
  po_ttl_seconds : Z;
  po_flags : Z;
  po_no_memory : Z;
  po_no_disk : Z;
  po_no_cluster : Z
}.

Definition ELCACHE_PUT_OPTIONS_INIT : elcache_put_options := mkPutOptions 0 0 0 0 0.

Record elcache_get_options := mkGetOptions {
  go_offset : Z;
  go_length : Z;
  go_allow_partial : Z;
  go_timeout_ms : Z
}.

Definition ELCACHE_GET_OPTIONS_INIT : elcache_get_options := mkGetOptions 0 0 1 0.

Record elcache_metadata := mkSdkMetadata {
  sm_total_size : Z;
  sm_chunk_count : Z;
  sm_created_at : Z;
  sm_expires_at : Z;
  sm_flags : Z
}.

Record elcache_stats := mkSdkStats {
  ss_hits : Z;
  ss_misses : Z;
  ss_partial_hits : Z;
  ss_bytes_read : Z;
  ss_bytes_written : Z;
  ss_latency_us_avg : Z;
  ss_latency_us_p99 : Z
}.

(** ** The client *)

Inductive RecvEv := RData (b : bytes) | RIntr | RFail.
Inductive SendEv := STake (n : Z) | SIntr | SFail.

Record Sock := mkSock {
  k_in : list RecvEv;
  k_out : bytes;
  k_sched : list SendEv
}.

(** The counters of [struct elcache_client]. *)
Record Counters := mkCounters {
  ct_hits : Z;
  ct_misses : Z;
  ct_partial_hits : Z;
  ct_bytes_read : Z;
  ct_bytes_written : Z;
  ct_total_latency_us : Z;
  ct_request_count : Z;
  ct_max_latency_us : Z
}.

(** [fd >= 0] is [Some] socket, [shm_ptr] the bytes of the mapping; the sizes of the two buffers are
    those of the lists. [cl_ticks] counts the readings of the monotonic clock. *)
Record Client := mkClient {
  cl_transport : elcache_transport;
  cl_sock : option Sock;
  cl_shm : option bytes;
  cl_recv : bytes;
  cl_send : bytes;
  cl_timeout_ms : Z;
  cl_next_request_id : Z;
  cl_last_error : bytes;
  cl_counters : Counters;
  cl_ticks : nat
}.

Definition with_sock (c : Client) (s : option Sock) : Client :=
  mkClient (cl_transport c) s (cl_shm c) (cl_recv c) (cl_send c) (cl_timeout_ms c) (cl_next_request_id c)
           (cl_last_error c) (cl_counters c) (cl_ticks c).

Definition with_recv (c : Client) (b : bytes) : Client :=
  mkClient (cl_transport c) (cl_sock c) (cl_shm c) b (cl_send c) (cl_timeout_ms c) (cl_next_request_id c)
           (cl_last_error c) (cl_counters c) (cl_ticks c).

Definition with_send (c : Client) (b : bytes) : Client :=
  mkClient (cl_transport c) (cl_sock c) (cl_shm c) (cl_recv c) b (cl_timeout_ms c) (cl_next_request_id c)
           (cl_last_error c) (cl_counters c) (cl_ticks c).

Definition with_counters (c : Client) (k : Counters) : Client :=
  mkClient (cl_transport c) (cl_sock c) (cl_shm c) (cl_recv c) (cl_send c) (cl_timeout_ms c) (cl_next_request_id c)
           (cl_last_error c) k (cl_ticks c).

(** [client->next_request_id++], a [uint32_t]. *)
Definition take_request_id (c : Client) : Z * Client :=
  (cl_next_request_id c,
   mkClient (cl_transport c) (cl_sock c) (cl_shm c) (cl_recv c) (cl_send c) (cl_timeout_ms c)
            (u32 (cl_next_request_id c + 1)) (cl_last_error c) (cl_counters c) (cl_ticks c)).

(** [strncpy] into the 256 bytes of [last_error]. *)
Definition set_error (c : Client) (msg : string) : Client :=
  mkClient (cl_transport c) (cl_sock c) (cl_shm c) (cl_recv c) (cl_send c) (cl_timeout_ms c) (cl_next_request_id c)
           (take 255 (str msg)) (cl_counters c) (cl_ticks c).

(** ** Loads and stores in a buffer *)

Definition store (buf : bytes) (pos : Z) (data : bytes) : outcome bytes :=
  if size_of buf <? pos + size_of data then Undef else Done (overwrite pos data buf).

Definition sdk_encode_u16 (v : Z) : bytes := [byte_of_Z (Z.land v 0xFF); byte_of_Z (Z.land (Z.shiftr v 8) 0xFF)].

Definition sdk_encode_u32 (v : Z) : bytes :=
  [byte_of_Z (Z.land v 0xFF); byte_of_Z (Z.land (Z.shiftr v 8) 0xFF);
   byte_of_Z (Z.land (Z.shiftr v 16) 0xFF); byte_of_Z (Z.land (Z.shiftr v 24) 0xFF)].

Definition sdk_encode_u64 (v : Z) : bytes :=
  (fun i => byte_of_Z (Z.land (Z.shiftr v (i * 8)) 0xFF)) <$> [0; 1; 2; 3; 4; 5; 6; 7].

Definition sdk_decode_u16 (buf : bytes) (pos : Z) : outcome Z :=
  b0 ← load buf pos; b1 ← load buf (pos + 1);
  Done (Z.lor b0 (Z.shiftl b1 8)).

Definition sdk_decode_u32 (buf : bytes) (pos : Z) : outcome Z :=
  b0 ← load buf pos; b1 ← load buf (pos + 1); b2 ← load buf (pos + 2); b3 ← load buf (pos + 3);
  Done (Z.lor (Z.lor (Z.lor b0 (u32 (Z.shiftl b1 8))) (u32 (Z.shiftl b2 16))) (u32 (Z.shiftl b3 24))).

Definition sdk_decode_u64 (buf : bytes) (pos : Z) : outcome Z := decode_u64_from buf pos [0; 1; 2; 3; 4; 5; 6; 7] 0.

(** ** The socket *)

Inductive IoResult := IoBytes (b : bytes) | IoIntr | IoFail.

(** [recv]: at most [remaining] bytes of the next piece; an empty result is end of file. *)
Definition sock_recv (remaining : Z) (evs : list RecvEv) : IoResult * list RecvEv :=
  match evs with
  | [] => (IoBytes [], [])
  | RIntr :: rest => (IoIntr, rest)
  | RFail :: rest => (IoFail, rest)
  | RData f :: rest =>
      let left := drop (Z.to_nat remaining) f in
      (IoBytes (take (Z.to_nat remaining) f), if bool_decide (left = []) then rest else RData left :: rest)
  end.

Inductive RecvDone := RecvOk | RecvClosed | RecvError.

(** Loop variables of [recv_all]: the position in the buffer, [remaining], the buffer, the socket. *)
Definition recv_step (s : Z * Z * bytes * list RecvEv)
  : (Z * Z * bytes * list RecvEv) + outcome (RecvDone * bytes * list RecvEv) :=
  let '(ptr, remaining, buf, evs) := s in
  if 0 <? remaining then
    match sock_recv remaining evs with
    | (IoIntr, evs') => inl (ptr, remaining, buf, evs')
    | (IoFail, evs') => inr (Done (RecvError, buf, evs'))
    | (IoBytes got, evs') =>
        if size_of got =? 0 then inr (Done (RecvClosed, buf, evs'))
        else match store buf ptr got with
             | Done buf' => inl (ptr + size_of got, remaining - size_of got, buf', evs')
             | _ => inr Undef
             end
    end
  else inr (Done (RecvOk, buf, evs)).

(** Every round but the last uses up an event. Without a socket ([fd] is -1) [recv] fails. *)
Definition recv_all (c : Client) (pos len : Z) : outcome (elcache_error * Client) :=
  match cl_sock c with
  | None => Done (if 0 <? len then (ELCACHE_ERR_CONNECTION, set_error c "Receive failed") else (ELCACHE_OK, c))
  | Some k =>
      '(r, buf, evs) ← default Spin (loop (S (S (length (k_in k)))) recv_step (pos, len, cl_recv c, k_in k));
      let c' := with_recv (with_sock c (Some (mkSock evs (k_out k) (k_sched k)))) buf in
      Done (match r with
            | RecvOk => (ELCACHE_OK, c')
            | RecvClosed => (ELCACHE_ERR_CONNECTION, set_error c' "Connection closed")
            | RecvError => (ELCACHE_ERR_CONNECTION, set_error c' "Receive failed")
            end)
  end.

(** Loop variables of [send_all]: the rest of the data, the bytes sent, the schedule. *)
Definition send_step (s : bytes * bytes * list SendEv)
  : (bytes * bytes * list SendEv) + (bool * bytes * list SendEv) :=
  let '(rest, out, sched) := s in
  if 0 <? size_of rest then
    match sched with
    | [] => inl ([], out ++ rest, [])
    | SIntr :: sched' => inl (rest, out, sched')
    | SFail :: sched' => inr (false, out, sched')
    | STake n :: sched' =>
        let n := Z.to_nat (Z.min n (size_of rest)) in
        inl (drop n rest, out ++ take n rest, sched')
    end
  else inr (true, out, sched).

Definition send_all (c : Client) (data : bytes) : outcome (elcache_error * Client) :=
  match cl_sock c with
  | None => Done (if 0 <? size_of data then (ELCACHE_ERR_CONNECTION, set_error c "Send failed") else (ELCACHE_OK, c))
  | Some k =>
      match loop (S (S (length (k_sched k)))) send_step (data, k_out k, k_sched k) with
      | None => Spin
      | Some (ok, out, sched) =>
          let c' := with_sock c (Some (mkSock (k_in k) out sched)) in
          Done (if ok : bool then (ELCACHE_OK, c') else (ELCACHE_ERR_CONNECTION, set_error c' "Send failed"))
      end
  end.

(** ** Life cycle *)

(** [calloc] and the two [malloc] succeed or not; the new buffers hold arbitrary bytes. *)
Definition elcache_client_create (alloc : option unit) (recv_buffer send_buffer : option bytes) : option Client :=
  match alloc, recv_buffer, send_buffer with
  | Some _, Some r, Some s =>
      Some (mkClient ELCACHE_TRANSPORT_UNIX None None r s DEFAULT_TIMEOUT_MS 1 [] (mkCounters 0 0 0 0 0 0 0 0) 0)
  | _, _, _ => None
  end.

Definition elcache_client_disconnect (c : Client) : Client :=
  mkClient (cl_transport c) None None (cl_recv c) (cl_send c) (cl_timeout_ms c) (cl_next_request_id c)
           (cl_last_error c) (cl_counters c) (cl_ticks c).

Definition with_transport (c : Client) (t : elcache_transport) : Client :=
  mkClient t (cl_sock c) (cl_shm c) (cl_recv c) (cl_send c) (cl_timeout_ms c) (cl_next_request_id c)
           (cl_last_error c) (cl_counters c) (cl_ticks c).

(** [socket] and [connect]: [made] tells whether the first succeeds, [peer] is the connected socket. *)
Definition elcache_client_connect_unix (c : Client) (socket_path : option bytes) (made : bool) (peer : option Sock)
  : elcache_error * Client :=
  match socket_path with
  | None => (ELCACHE_ERR_INVALID_ARG, c)
  | Some _ =>
      let c1 := elcache_client_disconnect c in
      if negb made then (ELCACHE_ERR_CONNECTION, set_error c1 "Failed to create socket")
      else match peer with
           | None => (ELCACHE_ERR_CONNECTION, set_error c1 "Failed to connect")
           | Some k => (ELCACHE_OK, with_transport (with_sock c1 (Some k)) ELCACHE_TRANSPORT_UNIX)
           end
  end.

Definition with_shm (c : Client) (m : option bytes) : Client :=
  mkClient (cl_transport c) (cl_sock c) m (cl_recv c) (cl_send c) (cl_timeout_ms c) (cl_next_request_id c)
           (cl_last_error c) (cl_counters c) (cl_ticks c).

(** [shm_open] and [fstat] succeed or not; [mapped] is what [mmap] gives, whole pages of bytes. *)
Definition elcache_client_connect_shm (c : Client) (shm_path : option bytes) (opened stat_ok : bool) (mapped : option bytes)
  : outcome (elcache_error * Client) :=
  match shm_path with
  | None => Done (ELCACHE_ERR_INVALID_ARG, c)
  | Some _ =>
      let c1 := elcache_client_disconnect c in
      if negb opened then Done (ELCACHE_ERR_CONNECTION, set_error c1 "Failed to open shared memory")
      else if negb stat_ok then Done (ELCACHE_ERR_CONNECTION, set_error c1 "Failed to stat shared memory")
      else match mapped with
           | None => Done (ELCACHE_ERR_CONNECTION, set_error c1 "Failed to map shared memory")
           | Some m =>
               magic ← sdk_decode_u32 m 0;
               if negb (magic =? ELCACHE_PROTO_MAGIC) then
                 Done (ELCACHE_ERR_PROTOCOL, set_error c1 "Invalid shared memory format")
               else Done (ELCACHE_OK, with_transport (with_shm c1 (Some m)) ELCACHE_TRANSPORT_SHM)
           end
  end.

Definition elcache_client_is_connected (c : Client) : bool :=
  bool_decide (is_Some (cl_sock c)) || bool_decide (is_Some (cl_shm c)).

(** ** Configuration and statistics *)

Definition elcache_client_set_timeout (c : Client) (timeout_ms : Z) : Client :=
  mkClient (cl_transport c) (cl_sock c) (cl_shm c) (cl_recv c) (cl_send c) timeout_ms (cl_next_request_id c)
           (cl_last_error c) (cl_counters c) (cl_ticks c).

(** [realloc]: the old bytes as far as they fit, then [fresh] bytes; [None] when it fails. *)
Definition resize (buf : bytes) (size : Z) (fresh : option (nat -> byte)) : option bytes :=
  f ← fresh;
  Some (take (Z.to_nat size) buf ++ (f <$> seq 0 (Z.to_nat size - length buf))).

Definition elcache_client_set_recv_buffer (c : Client) (size : Z) (fresh : option (nat -> byte)) : Client :=
  if 0 <? size then match resize (cl_recv c) size fresh with Some b => with_recv c b | None => c end else c.

Definition elcache_client_set_send_buffer (c : Client) (size : Z) (fresh : option (nat -> byte)) : Client :=
  if 0 <? size then match resize (cl_send c) size fresh with Some b => with_send c b | None => c end else c.

Definition elcache_client_stats (c : Client) (stats : option elcache_stats) : elcache_error * option elcache_stats :=
  match stats with
  | None => (ELCACHE_ERR_INVALID_ARG, None)
  | Some _ =>
      let k := cl_counters c in
      (ELCACHE_OK, Some (mkSdkStats (ct_hits k) (ct_misses k) (ct_partial_hits k) (ct_bytes_read k) (ct_bytes_written k)
        (if 0 <? ct_request_count k then ct_total_latency_us k / ct_request_count k else 0)
        (ct_max_latency_us k)))
  end.

Definition elcache_client_reset_stats (c : Client) : Client := with_counters c (mkCounters 0 0 0 0 0 0 0 0).

Definition elcache_client_last_error (c : Client) : bytes := cl_last_error c.

(** ** Operations *)

Section Operations.
Context (now : Clock) (us : nat -> Z * Z).

(** [clock_gettime]: seconds and nanoseconds, as microseconds. *)
Definition get_time_us (c : Client) : Z * Client :=
  let '(tv_sec, tv_nsec) := us (cl_ticks c) in
  (u64 (u64 (u64 tv_sec * 1000000) + Z.quot tv_nsec 1000),
   mkClient (cl_transport c) (cl_sock c) (cl_shm c) (cl_recv c) (cl_send c) (cl_timeout_ms c) (cl_next_request_id c)
            (cl_last_error c) (cl_counters c) (S (cl_ticks c))).

Definition sent_so_far (c : Client) : bytes := match cl_sock c with Some k => k_out k | None => [] end.

Definition sdk_header (c : Client) (type payload_len request_id : Z) : bytes :=
  sdk_encode_u32 ELCACHE_PROTO_MAGIC ++ sdk_encode_u16 ELCACHE_PROTO_VERSION ++ sdk_encode_u16 type ++
  sdk_encode_u32 payload_len ++ sdk_encode_u32 request_id ++ sdk_encode_u64 (u64 (u64 (now (sent_so_far c)) * 1000)).

(** The next bytes of the payload: the send buffer and [payload_len]. *)
Definition append (w : bytes * Z) (data : bytes) : outcome (bytes * Z) :=
  buf ← store w.1 (ELCACHE_HEADER_SIZE + w.2) data; Done (buf, w.2 + size_of data).

Definition append_key (c : Client) (key : bytes) : outcome (bytes * Z) :=
  w ← append (cl_send c, 0) (sdk_encode_u32 (u32 (size_of key)));
  append w key.

(** The header in front of the payload, then the whole message on its way. *)
Definition send_request (c : Client) (type : Z) (w : bytes * Z) : outcome (elcache_error * Client) :=
  let '(request_id, c1) := take_request_id c in
  buf ← store w.1 0 (sdk_header c1 type (u32 w.2) request_id);
  data ← peek_bytes buf 0 (ELCACHE_HEADER_SIZE + w.2);
  send_all (with_send c1 buf) data.

Definition count_request (c : Client) (start_time bytes_read bytes_written : Z) : Client :=
  let '(end_time, c) := get_time_us c in
  let latency := end_time -w start_time in
  let k := cl_counters c in
  with_counters c (mkCounters (ct_hits k) (ct_misses k) (ct_partial_hits k) (ct_bytes_read k +w bytes_read)
    (ct_bytes_written k +w bytes_written) (ct_total_latency_us k +w latency) (ct_request_count k +w 1)
    (Z.max (ct_max_latency_us k) latency)).

Definition count_result (c : Client) (hits misses partial_hits : Z) : Client :=
  let k := cl_counters c in
  with_counters c (mkCounters (ct_hits k +w hits) (ct_misses k +w misses) (ct_partial_hits k +w partial_hits)
    (ct_bytes_read k) (ct_bytes_written k) (ct_total_latency_us k) (ct_request_count k) (ct_max_latency_us k)).

(** The destination of a get: NULL, a buffer of the caller, or the client's receive buffer itself. *)
Inductive Dst := DNull | DBuf (b : bytes) | DRecv (buffer_size : Z).

Definition dst_size (d : Dst) : Z :=
  match d with DNull => 0 | DBuf b => size_of b | DRecv n => n end.

(** [memcpy(buffer, resp, data_len)] with [resp] at [pos] of the receive buffer. *)
Definition copy_out (c : Client) (pos data_len : Z) (dst : Dst) : outcome (Dst * Client) :=
  data ← peek_bytes (cl_recv c) pos data_len;
  match dst with
  | DNull => Undef
  | DBuf b => b' ← store b 0 data; Done (DBuf b', c)
  | DRecv n =>
      if pos <? data_len then Undef
      else buf ← store (cl_recv c) 0 data; Done (DRecv n, with_recv c buf)
  end.

Definition get_has_range (options : option elcache_get_options) : option (Z * Z) :=
  match options with
  | Some o => if (0 <? go_offset o) || (0 <? go_length o) then Some (go_offset o, go_length o) else None
  | None => None
  end.

Definition get_build (c : Client) (key : bytes) (options : option elcache_get_options) : outcome (bytes * Z) :=
  w ← append_key c key;
  w ← append w [x00];
  match get_has_range options with
  | Some (offset, length) =>
      w ← append w [x01]; w ← append w (sdk_encode_u64 offset); append w (sdk_encode_u64 length)
  | None => append w [x00]
  end.

(** From the parsed response on. *)
Definition get_finish (c : Client) (start_time : Z) (dst : Dst) (old_len : Z)
  : outcome (elcache_error * Dst * option Z * Client) :=
  result ← sdk_decode_u32 (cl_recv c) ELCACHE_HEADER_SIZE;
  has_meta ← load (cl_recv c) (ELCACHE_HEADER_SIZE + 4);
  let resp := ELCACHE_HEADER_SIZE + 5 + (if has_meta =? 0 then 0 else 8 + 8 + 4) in
  data_len ← sdk_decode_u32 (cl_recv c) resp;
  if result =? 1 then
    Done (ELCACHE_ERR_NOT_FOUND, dst, Some old_len, set_error (count_result c 0 1 0) "Key not found")
  else if dst_size dst <? data_len then
    Done (ELCACHE_ERR_BUFFER_TOO_SMALL, dst, Some data_len, set_error c "Buffer too small")
  else
    '(dst, c) ← copy_out c (resp + 4) data_len dst;
    let c := count_request c start_time data_len 0 in
    if result =? 0 then Done (ELCACHE_OK, dst, Some data_len, count_result c 1 0 0)
    else if result =? 2 then Done (ELCACHE_ERR_PARTIAL, dst, Some data_len, count_result c 0 0 1)
    else Done (ELCACHE_OK, dst, Some data_len, c).

(** [value_len] is the caller's variable, [None] a NULL pointer. *)
Definition elcache_client_get (c : Client) (key : option bytes) (dst : Dst) (value_len : option Z)
    (options : option elcache_get_options) : outcome (elcache_error * Dst * option Z * Client) :=
  match key, dst, value_len with
  | None, _, _ | _, DNull, _ | _, _, None => Done (ELCACHE_ERR_INVALID_ARG, dst, value_len, c)
  | Some key, _, Some old_len =>
      if 8192 <? size_of key then
        Done (ELCACHE_ERR_KEY_TOO_LARGE, dst, value_len, set_error c "Key too large")
      else if negb (elcache_client_is_connected c) then
        Done (ELCACHE_ERR_CONNECTION, dst, value_len, set_error c "Not connected")
      else
        let '(start_time, c) := get_time_us c in
        w ← get_build c key options;
        '(err, c) ← send_request c 0x0100 w;
        if bool_decide (err <> ELCACHE_OK) then Done (err, dst, value_len, c)
        else
          '(err, c) ← recv_all c 0 ELCACHE_HEADER_SIZE;
          if bool_decide (err <> ELCACHE_OK) then Done (err, dst, value_len, c)
          else
            magic ← sdk_decode_u32 (cl_recv c) 0;
            if negb (magic =? ELCACHE_PROTO_MAGIC) then
              Done (ELCACHE_ERR_PROTOCOL, dst, value_len, set_error c "Invalid response magic")
            else
              msg_type ← sdk_decode_u16 (cl_recv c) 6;
              response_len ← sdk_decode_u32 (cl_recv c) 8;
              if negb (msg_type =? 0x0101) then
                Done (ELCACHE_ERR_PROTOCOL, dst, value_len, set_error c "Unexpected response type")
              else if (size_of (cl_recv c) -w ELCACHE_HEADER_SIZE) <? response_len then
                Done (ELCACHE_ERR_BUFFER_TOO_SMALL, dst, value_len, set_error c "Response too large")
              else
                '(err, c) ← recv_all c ELCACHE_HEADER_SIZE response_len;
                if bool_decide (err <> ELCACHE_OK) then Done (err, dst, value_len, c)
                else get_finish c start_time dst old_len
  end.

(** The value and its length as the caller finds them; [uninit] is the value of the local [len] before
    it is set, [malloc] whether a size can be allocated, [fresh] the bytes it then holds. *)
Definition elcache_client_get_alloc (malloc : Z -> bool) (fresh : Z -> bytes) (uninit : Z) (c : Client)
    (key : option bytes) (value : option (option bytes)) (value_len : option Z) (options : option elcache_get_options)
  : outcome (elcache_error * option (option bytes) * option Z * Client) :=
  match key, value, value_len with
  | None, _, _ | _, None, _ | _, _, None => Done (ELCACHE_ERR_INVALID_ARG, value, value_len, c)
  | Some _, Some _, Some _ =>
      '(err, _, len, c) ← elcache_client_get c key (DRecv (size_of (cl_recv c))) (Some uninit) options;
      let len := default uninit len in
      if bool_decide (err = ELCACHE_OK \/ err = ELCACHE_ERR_PARTIAL) then
        if negb (malloc len) then Done (ELCACHE_ERR_OUT_OF_MEMORY, Some None, value_len, c)
        else data ← peek_bytes (cl_recv c) 0 len; Done (err, Some (Some data), Some len, c)
      else if bool_decide (err = ELCACHE_ERR_BUFFER_TOO_SMALL) then
        if negb (malloc len) then Done (ELCACHE_ERR_OUT_OF_MEMORY, value, value_len, c)
        else
          '(err, dst, len, c) ← elcache_client_get c key (DBuf (fresh len)) (Some len) options;
          if bool_decide (err = ELCACHE_OK \/ err = ELCACHE_ERR_PARTIAL)
          then Done (err, Some (match dst with DBuf b => Some b | _ => None end), len, c)
          else Done (err, value, value_len, c)
      else Done (err, value, value_len, c)
  end.

(** Header and payload of an answer, as every operation but [get] reads them: neither the magic number
    nor the type is looked at, nor whether the payload fits the buffer. *)
Definition recv_response (c : Client) : outcome (elcache_error * Client) :=
  '(err, c) ← recv_all c 0 ELCACHE_HEADER_SIZE;
  if bool_decide (err <> ELCACHE_OK) then Done (err, c)
  else
    response_len ← sdk_decode_u32 (cl_recv c) 8;
    recv_all c ELCACHE_HEADER_SIZE response_len.

Definition put_options_build (w : bytes * Z) (options : option elcache_put_options) : outcome (bytes * Z) :=
  w ← (match options with
       | Some o => if 0 <? po_ttl_seconds o
                   then w ← append w [x01]; append w (sdk_encode_u64 (u64 (po_ttl_seconds o)))
                   else append w [x00]
       | None => append w [x00]
       end);
  append w (sdk_encode_u32 (match options with Some o => po_flags o | None => 0 end)).

Definition put_build (c : Client) (key value : bytes) (options : option elcache_put_options) : outcome (bytes * Z) :=
  w ← append_key c key;
  w ← append w (sdk_encode_u32 (u32 (size_of value)));
  w ← append w value;
  put_options_build w options.

Definition elcache_client_put (c : Client) (key value : option bytes) (options : option elcache_put_options)
  : outcome (elcache_error * Client) :=
  match key, value with
  | None, _ | _, None => Done (ELCACHE_ERR_INVALID_ARG, c)
  | Some key, Some value =>
      if 8192 <? size_of key then Done (ELCACHE_ERR_KEY_TOO_LARGE, set_error c "Key too large")
      else if negb (elcache_client_is_connected c) then Done (ELCACHE_ERR_CONNECTION, set_error c "Not connected")
      else
        let '(start_time, c) := get_time_us c in
        let needed := u64 (ELCACHE_HEADER_SIZE + 4 + size_of key + 4 + size_of value + 1 + 8 + 4) in
        if size_of (cl_send c) <? needed then
          Done (ELCACHE_ERR_VALUE_TOO_LARGE, set_error c "Value too large for buffer")
        else
          w ← put_build c key value options;
          '(err, c) ← send_request c 0x0102 w;
          if bool_decide (err <> ELCACHE_OK) then Done (err, c)
          else
            '(err, c) ← recv_response c;
            if bool_decide (err <> ELCACHE_OK) then Done (err, c)
            else
              code ← sdk_decode_u32 (cl_recv c) ELCACHE_HEADER_SIZE;
              let c := count_request c start_time 0 (size_of value) in
              if negb (code =? 0) then Done (ELCACHE_ERR_INTERNAL, set_error c "Put failed")
              else Done (ELCACHE_OK, c)
  end.

Definition elcache_client_delete (c : Client) (key : option bytes) : outcome (elcache_error * Client) :=
  match key with
  | None => Done (ELCACHE_ERR_INVALID_ARG, c)
  | Some key =>
      if negb (elcache_client_is_connected c) then Done (ELCACHE_ERR_CONNECTION, set_error c "Not connected")
      else
        w ← append_key c key;
        '(err, c) ← send_request c 0x0104 w;
        if bool_decide (err <> ELCACHE_OK) then Done (err, c)
        else recv_response c
  end.

(** ** Position-based writes *)

Definition create_sparse_build (c : Client) (key : bytes) (total_size : Z) (options : option elcache_put_options)
  : outcome (bytes * Z) :=
  w ← append_key c key;
  w ← append w (sdk_encode_u64 total_size);
  put_options_build w options.

Definition elcache_client_create_sparse (c : Client) (key : option bytes) (total_size : Z)
    (options : option elcache_put_options) : outcome (elcache_error * Client) :=
  match key with
  | None => Done (ELCACHE_ERR_INVALID_ARG, c)
  | Some key =>
      if 8192 <? size_of key then Done (ELCACHE_ERR_KEY_TOO_LARGE, set_error c "Key too large")
      else if negb (elcache_client_is_connected c) then Done (ELCACHE_ERR_CONNECTION, set_error c "Not connected")
      else
        w ← create_sparse_build c key total_size options;
        '(err, c) ← send_request c 0x0108 w;
        if bool_decide (err <> ELCACHE_OK) then Done (err, c)
        else
          '(err, c) ← recv_response c;
          if bool_decide (err <> ELCACHE_OK) then Done (err, c)
          else
            code ← sdk_decode_u32 (cl_recv c) ELCACHE_HEADER_SIZE;
            if negb (code =? 0) then Done (ELCACHE_ERR_INTERNAL, set_error c "Create sparse failed")
            else Done (ELCACHE_OK, c)
  end.

Definition count_written_bytes (c : Client) (n : Z) : Client :=
  let k := cl_counters c in
  with_counters c (mkCounters (ct_hits k) (ct_misses k) (ct_partial_hits k) (ct_bytes_read k)
    (ct_bytes_written k +w n) (ct_total_latency_us k) (ct_request_count k) (ct_max_latency_us k)).

Definition write_range_build (c : Client) (key : bytes) (offset : Z) (data : bytes) : outcome (bytes * Z) :=
  w ← append_key c key;
  w ← append w (sdk_encode_u64 offset);
  w ← append w (sdk_encode_u32 (u32 (size_of data)));
  append w data.

Definition elcache_client_write_range (c : Client) (key : option bytes) (offset : Z) (data : option bytes)
  : outcome (elcache_error * Client) :=
  match key, data with
  | None, _ | _, None => Done (ELCACHE_ERR_INVALID_ARG, c)
  | Some key, Some data =>
      if 8192 <? size_of key then Done (ELCACHE_ERR_KEY_TOO_LARGE, set_error c "Key too large")
      else if negb (elcache_client_is_connected c) then Done (ELCACHE_ERR_CONNECTION, set_error c "Not connected")
      else
        let needed := u64 (ELCACHE_HEADER_SIZE + 4 + size_of key + 8 + 4 + size_of data) in
        if size_of (cl_send c) <? needed then
          Done (ELCACHE_ERR_VALUE_TOO_LARGE, set_error c "Data too large for buffer")
        else
          w ← write_range_build c key offset data;
          '(err, c) ← send_request c 0x010A w;
          if bool_decide (err <> ELCACHE_OK) then Done (err, c)
          else
            '(err, c) ← recv_response c;
            if bool_decide (err <> ELCACHE_OK) then Done (err, c)
            else
              code ← sdk_decode_u32 (cl_recv c) ELCACHE_HEADER_SIZE;
              if code =? 1 then Done (ELCACHE_ERR_NOT_FOUND, set_error c "Key not found or not sparse")
              else if code =? 2 then Done (ELCACHE_ERR_INVALID_ARG, set_error c "Invalid range")
              else if negb (code =? 0) then Done (ELCACHE_ERR_INTERNAL, set_error c "Write range failed")
              else Done (ELCACHE_OK, count_written_bytes c (size_of data))
  end.

Definition elcache_client_finalize (c : Client) (key : option bytes) : outcome (elcache_error * Client) :=
  match key with
  | None => Done (ELCACHE_ERR_INVALID_ARG, c)
  | Some key =>
      if negb (elcache_client_is_connected c) then Done (ELCACHE_ERR_CONNECTION, set_error c "Not connected")
      else
        w ← append_key c key;
        '(err, c) ← send_request c 0x010C w;
        if bool_decide (err <> ELCACHE_OK) then Done (err, c)
        else
          '(err, c) ← recv_response c;
          if bool_decide (err <> ELCACHE_OK) then Done (err, c)
          else
            code ← sdk_decode_u32 (cl_recv c) ELCACHE_HEADER_SIZE;
            if code =? 1 then Done (ELCACHE_ERR_NOT_FOUND, set_error c "Key not found")
            else if code =? 2 then Done (ELCACHE_ERR_PARTIAL, set_error c "Not all ranges written")
            else if negb (code =? 0) then Done (ELCACHE_ERR_INTERNAL, set_error c "Finalize failed")
            else Done (ELCACHE_OK, c)
  end.

(** A range read is a get with its options; the length asked for is the size of the buffer. *)
Definition elcache_client_read_range (c : Client) (key : option bytes) (offset : Z) (dst : Dst) (bytes_read : option Z)
  : outcome (elcache_error * Dst * option Z * Client) :=
  elcache_client_get c key dst bytes_read (Some (mkGetOptions offset (dst_size dst) 1 0)).

End Operations.

(** ** Operations without an implementation *)

Definition elcache_client_metadata (key : option bytes) (metadata : option elcache_metadata) : elcache_error :=
  match key, metadata with
  | Some _, Some _ => ELCACHE_ERR_INTERNAL
  | _, _ => ELCACHE_ERR_INVALID_ARG
  end.

Definition elcache_client_exists (key : option bytes) (exists_ : option Z) (meta : elcache_metadata)
  : elcache_error * option Z :=
  match key, exists_ with
  | Some _, Some _ =>
      let err := elcache_client_metadata key (Some meta) in
      (if bool_decide (err = ELCACHE_ERR_NOT_FOUND) then ELCACHE_OK else err,
       Some (if bool_decide (err = ELCACHE_OK) then 1 else 0))
  | _, _ => (ELCACHE_ERR_INVALID_ARG, exists_)
  end.

Definition elcache_client_write_stream_start : elcache_error := ELCACHE_ERR_INTERNAL.
Definition elcache_write_stream_write : elcache_error := ELCACHE_ERR_INTERNAL.
Definition elcache_write_stream_finish : elcache_error := ELCACHE_ERR_INTERNAL.
Definition elcache_client_read_stream_start : elcache_error := ELCACHE_ERR_INTERNAL.
Definition elcache_read_stream_read : elcache_error := ELCACHE_ERR_INTERNAL.
Definition elcache_client_check_availability : elcache_error := ELCACHE_ERR_INTERNAL.

Record elcache_read_stream := mkReadStream { st_total_size : Z; st_position : Z }.

Definition elcache_read_stream_total_size (s : option elcache_read_stream) : Z :=
  match s with Some s => st_total_size s | None => 0 end.
Definition elcache_read_stream_bytes_read (s : option elcache_read_stream) : Z :=
  match s with Some s => st_position s | None => 0 end.
Definition elcache_read_stream_eof (s : option elcache_read_stream) : bool :=
  match s with Some s => st_total_size s <=? st_position s | None => true end.

(** ** The two implementations of the wire format agree *)

Lemma sdk_encode_u16_eq v : sdk_encode_u16 v = encode_u16 v.
Proof. unfold sdk_encode_u16, encode_u16, byte_at. by rewrite Z.shiftr_0_r. Qed.

Lemma sdk_encode_u32_eq v : sdk_encode_u32 v = encode_u32 v.
Proof. unfold sdk_encode_u32, encode_u32, byte_at. by rewrite Z.shiftr_0_r. Qed.

Lemma sdk_encode_u64_eq v : sdk_encode_u64 v = encode_u64 v.
Proof. done. Qed.

(** The client's helpers are the server's. *)
Lemma sdk_decode_u32_eq buf pos : 0 <= pos -> sdk_decode_u32 buf pos = peek decode_u32 buf pos.
Proof. apply uds_decode_u32_eq. Qed.

Lemma sdk_decode_u16_eq buf pos : 0 <= pos -> sdk_decode_u16 buf pos = peek decode_u16 buf pos.
Proof. intros Hp. rewrite <- uds_decode_u16_eq by done. symmetry. by apply uds_decode_u16_narrow. Qed.

(** ** Buffers *)

Lemma overwrite_size {A} off (new l : list A) :
  0 <= off -> off + size_of new <= size_of l -> size_of (overwrite off new l) = size_of l.
Proof. intros. unfold size_of at 1. by rewrite overwrite_length. Qed.

Lemma overwrite_nil {A} off (l : list A) : overwrite off [] l = l.
Proof. unfold overwrite. simpl. rewrite Nat.add_0_r. apply take_drop. Qed.

(** Two stores side by side are one. *)
Lemma overwrite_app {A} off (a b l : list A) :
  0 <= off -> off + size_of a + size_of b <= size_of l ->
  overwrite (off + size_of a) b (overwrite off a l) = overwrite off (a ++ b) l.
Proof.
  intros Ho Hs. unfold overwrite, size_of in *. replace (Z.to_nat (off + Z.of_nat (length a))) with (Z.to_nat off + length a)%nat by lia.
  assert (length (take (Z.to_nat off) l) = Z.to_nat off) as Ht by (rewrite length_take; lia).
  rewrite (app_assoc (take _ l) a), take_app_length' by (rewrite length_app, Ht; lia).
  rewrite drop_app_ge by (rewrite length_app, Ht; lia). rewrite drop_drop, <- !app_assoc. do 3 f_equal.
  rewrite !length_app, Ht. f_equal. lia.
Qed.

(** What has been stored is found at its place. *)
Lemma overwrite_front {A} off (a b l : list A) :
  size_of a = off -> off + size_of b <= size_of l -> take (Z.to_nat (off + size_of b)) (overwrite 0 a (overwrite off b l)) = a ++ b.
Proof.
  intros <- Hs. pose proof (size_of_nonneg a). pose proof (size_of_nonneg b).
  assert (overwrite 0 a (overwrite (size_of a) b l) = overwrite 0 (a ++ b) l) as ->.
  { unfold overwrite, size_of in *. rewrite Nat2Z.id. simpl. rewrite drop_app_length', length_app, <- app_assoc by (rewrite length_take; lia).
    done. }
  unfold overwrite. simpl. apply take_app_length'. unfold size_of. rewrite length_app. lia.
Qed.

Lemma store_fits buf pos data : pos + size_of data <= size_of buf -> store buf pos data = Done (overwrite pos data buf).
Proof. intros Hs. unfold store. destruct (Z.ltb_spec (size_of buf) (pos + size_of data)); [lia|done]. Qed.

Lemma append_spec buf p data :
  ELCACHE_HEADER_SIZE + size_of p + size_of data <= size_of buf ->
  append (overwrite ELCACHE_HEADER_SIZE p buf, size_of p) data =
  Done (overwrite ELCACHE_HEADER_SIZE (p ++ data) buf, size_of (p ++ data)).
Proof.
  intros Hs. pose proof (size_of_nonneg p). pose proof (size_of_nonneg data). unfold append, ELCACHE_HEADER_SIZE in *. cbn [fst snd].
  rewrite store_fits by (rewrite overwrite_size by lia; lia). cbn [mbind outcome_bind]. rewrite overwrite_app, size_of_app by lia. done.
Qed.

Lemma append_first buf data :
  ELCACHE_HEADER_SIZE + size_of data <= size_of buf ->
  append (buf, 0) data = Done (overwrite ELCACHE_HEADER_SIZE data buf, size_of data).
Proof. intros Hs. apply (append_spec buf []) in Hs. by rewrite overwrite_nil in Hs. Qed.

Lemma append_key_spec c key :
  ELCACHE_HEADER_SIZE + 4 + size_of key <= size_of (cl_send c) ->
  append_key c key = Done (overwrite ELCACHE_HEADER_SIZE (encode_string key) (cl_send c), size_of (encode_string key)).
Proof.
  intros Hs. pose proof (size_of_nonneg key). unfold append_key. rewrite sdk_encode_u32_eq.
  rewrite append_first by (rewrite encode_u32_size; lia). cbn [mbind outcome_bind].
  apply append_spec. rewrite encode_u32_size. lia.
Qed.

(** ** The socket *)

Definition recvs_ok (evs : list RecvEv) : Prop := Forall (fun e => match e with RData b => b <> [] | RIntr => True | RFail => False end) evs.

(** The bytes that arrive. *)
Definition stream (evs : list RecvEv) : bytes := concat ((fun e => match e with RData b => b | _ => [] end) <$> evs).

Definition sends_ok (sched : list SendEv) : Prop := Forall (fun e => e <> SFail) sched.

Lemma send_loop (fuel : nat) : forall rest out sched,
  sends_ok sched -> (S (length sched) < fuel)%nat \/ ((0 < fuel)%nat /\ rest = []) ->
  exists sched', loop fuel send_step (rest, out, sched) = Some (true, out ++ rest, sched') /\ sends_ok sched'.
Proof.
  induction fuel as [|fuel IH]; intros rest out sched Hok Hf; [lia|]. cbn [loop send_step].
  destruct (Z.ltb_spec 0 (size_of rest)) as [Hp|Hp].
  2: { pose proof (size_of_nonneg rest). assert (rest = []) as -> by (apply size_of_zero; lia). exists sched. by rewrite app_nil_r. }
  destruct Hf as [Hf|[_ ->]]; [|done]. destruct sched as [|[n| |] sched]; cbn [length] in Hf.
  - destruct (IH [] (out ++ rest) []) as (sched' & -> & ?); [done|right; split; [lia|done]|].
    exists sched'. by rewrite app_nil_r.
  - apply Forall_cons in Hok as [_ Hok].
    edestruct (IH (drop (Z.to_nat (Z.min n (size_of rest))) rest)) as (sched' & -> & ?); [done|left; lia|].
    exists sched'. by rewrite <- app_assoc, take_drop.
  - apply Forall_cons in Hok as [_ Hok]. apply IH; [done|left; lia].
  - by apply Forall_cons in Hok as [? _].
Qed.

Lemma recv_loop (fuel : nat) : forall ptr rem buf evs,
  recvs_ok evs -> 0 <= rem -> 0 <= ptr -> ptr + rem <= size_of buf -> rem <= size_of (stream evs) ->
  (S (length evs) < fuel)%nat \/ ((0 < fuel)%nat /\ rem = 0) ->
  exists evs', loop fuel recv_step (ptr, rem, buf, evs) =
      Some (Done (RecvOk, overwrite ptr (take (Z.to_nat rem) (stream evs)) buf, evs')) /\
    recvs_ok evs' /\ stream evs' = drop (Z.to_nat rem) (stream evs).
Proof.
  induction fuel as [|fuel IH]; intros ptr rem buf evs Hok Hr Hp Hb Hs Hf; [lia|]. cbn [loop recv_step].
  destruct (Z.ltb_spec 0 rem) as [Hpos|Hpos].
  2: { assert (rem = 0) as -> by lia. exists evs. by rewrite take_0, drop_0, overwrite_nil. }
  destruct Hf as [Hf|[_ ->]]; [|done]. destruct evs as [|[f| |] evs]; cbn [sock_recv].
  - assert (size_of (stream []) = 0) by done. lia.
  - apply Forall_cons in Hok as [Hne Hok]. destruct f as [|b f]; [done|].
    set (got := take (Z.to_nat rem) (b :: f)). set (left := drop (Z.to_nat rem) (b :: f)).
    set (evs' := if bool_decide (left = []) then evs else RData left :: evs).
    assert (stream (RData (b :: f) :: evs) = got ++ stream evs') as Hcat.
    { unfold evs', stream. case_bool_decide as E; cbn [fmap list_fmap concat].
      - rewrite <- (take_drop (Z.to_nat rem) (b :: f)) at 1. fold got left. by rewrite E, app_nil_r.
      - unfold got, left. by rewrite app_assoc, take_drop. }
    assert (0 < size_of got <= rem) as Hg by (unfold got, size_of; rewrite length_take; cbn [length]; lia).
    destruct (Z.eqb_spec (size_of got) 0); [lia|]. rewrite store_fits by lia. rewrite Hcat in Hs |- *. rewrite size_of_app in Hs.
    destruct (IH (ptr + size_of got) (rem - size_of got) (overwrite ptr got buf) evs') as (e2 & -> & Hok2 & Hst).
    + unfold evs'. case_bool_decide; [done|by constructor].
    + lia.
    + lia.
    + rewrite overwrite_size; lia.
    + lia.
    + cbn [length] in Hf. unfold evs'. case_bool_decide as E; [left; lia|right]. split; [lia|].
      assert (Z.to_nat rem < length (b :: f))%nat; [|unfold got, size_of; rewrite length_take; lia].
      destruct (decide (Z.to_nat rem < length (b :: f))%nat); [done|]. unfold left in E. by rewrite drop_ge in E by lia.
    + exists e2. split_and!; [|done|].
      * rewrite overwrite_app; [|lia|unfold size_of in *; rewrite length_take; lia]. do 3 f_equal. f_equal.
        rewrite take_app_ge by (unfold size_of in *; lia). do 3 f_equal. unfold size_of. lia.
      * rewrite Hst, drop_app_ge by (unfold size_of in *; lia). f_equal. unfold size_of. lia.
  - apply Forall_cons in Hok as [_ Hok]. change (stream (RIntr :: evs)) with (stream evs) in *. apply IH; auto; left; cbn [length] in Hf; lia.
  - by apply Forall_cons in Hok as [? _].
Qed.

(** ** A client between two operations

    Connected, [out] sent so far and [st] still to arrive, with buffers of [R] and [S] bytes. *)

Record client_at (R S : Z) (out st : bytes) (rid : Z) (c : Client) : Prop := {
  ca_sock : exists k, cl_sock c = Some k /\ k_out k = out /\ stream (k_in k) = st /\ recvs_ok (k_in k) /\ sends_ok (k_sched k);
  ca_recv : size_of (cl_recv c) = R;
  ca_send : size_of (cl_send c) = S;
  ca_rid : cl_next_request_id c = rid
}.

(** Operations on the counters, the clock and the error text do not matter to it. *)
Definition same_io (c c' : Client) : Prop :=
  cl_sock c' = cl_sock c /\ cl_recv c' = cl_recv c /\ cl_send c' = cl_send c /\ cl_next_request_id c' = cl_next_request_id c.

Lemma client_at_same R S out st rid c c' : client_at R S out st rid c -> same_io c c' -> client_at R S out st rid c'.
Proof. intros [? ? ? ?] (E1 & E2 & E3 & E4). constructor; by rewrite ?E1, ?E2, ?E3, ?E4. Qed.

Lemma same_io_time us c : same_io c (get_time_us us c).2.
Proof. unfold get_time_us. by destruct (us (cl_ticks c)). Qed.

Lemma same_io_count us c t r w : same_io c (count_request us c t r w).
Proof. unfold count_request. pose proof (same_io_time us c) as H. by destruct (get_time_us us c). Qed.

Lemma client_connected R S out st rid c : client_at R S out st rid c -> elcache_client_is_connected c = true.
Proof. intros [(k & E & _) _ _ _]. unfold elcache_client_is_connected. rewrite E. by rewrite bool_decide_true by eauto. Qed.

Lemma send_all_spec R S out st rid c data :
  client_at R S out st rid c -> exists c', send_all c data = Done (ELCACHE_OK, c') /\ client_at R S (out ++ data) st rid c' /\
    cl_recv c' = cl_recv c /\ cl_send c' = cl_send c.
Proof.
  intros [(k & E & <- & <- & Hr & Hs) ? ? ?]. unfold send_all. rewrite E.
  destruct (send_loop (Datatypes.S (Datatypes.S (length (k_sched k)))) data (k_out k) (k_sched k) Hs) as (sched' & -> & Hs'); [left; lia|].
  eexists. split_and!; [done| |done..]. constructor; [|done..]. by eexists.
Qed.

Lemma recv_all_spec R S out st rid c pos len :
  client_at R S out st rid c -> 0 <= pos -> 0 <= len -> pos + len <= R -> len <= size_of st ->
  exists c', recv_all c pos len = Done (ELCACHE_OK, c') /\ client_at R S out (drop (Z.to_nat len) st) rid c' /\
    cl_recv c' = overwrite pos (take (Z.to_nat len) st) (cl_recv c).
Proof.
  intros [(k & E & <- & <- & Hr & Hs) HR ? ?] Hp Hl Hfit Hst. unfold recv_all. rewrite E.
  destruct (recv_loop (Datatypes.S (Datatypes.S (length (k_in k)))) pos len (cl_recv c) (k_in k) Hr) as (evs & -> & Hr' & Hst');
    [lia..|left; lia|].
  cbn [default mbind outcome_bind]. eexists. split_and!; [done| |done]. constructor; [by eexists| |done..].
  cbn [with_recv cl_recv]. rewrite overwrite_size; [done|lia|]. unfold size_of in *. rewrite length_take. lia.
Qed.

(** A request goes out as [frame] describes it. *)
Lemma send_request_spec now R S out st rid c q :
  client_at R S out st rid c -> ELCACHE_HEADER_SIZE + size_of (req_payload q) <= S -> S < 2 ^ 32 ->
  exists c', send_request now c (uds_code (req_type q))
      (overwrite ELCACHE_HEADER_SIZE (req_payload q) (cl_send c), size_of (req_payload q)) = Done (ELCACHE_OK, c') /\
    client_at R S (out ++ frame (u64 (u64 (now out) * 1000)) rid q) st (u32 (rid + 1)) c'.
Proof.
  intros Hc Hfit HS. pose proof Hc as [(k & E & Ho & _) HR HSend Hrid]. pose proof (size_of_nonneg (req_payload q)).
  unfold send_request, take_request_id. cbn [fst snd].
  set (hdr := sdk_header now _ _ _ _). set (p := req_payload q) in *. assert (size_of hdr = ELCACHE_HEADER_SIZE) as Hh by done.
  unfold ELCACHE_HEADER_SIZE in *.
  rewrite store_fits by (rewrite overwrite_size; lia). cbn [mbind outcome_bind]. unfold peek_bytes.
  rewrite !overwrite_size by (rewrite ?overwrite_size; lia). destruct (Z.ltb_spec (size_of (cl_send c)) (0 + (24 + size_of p))); [lia|].
  cbn [mbind outcome_bind]. unfold slice. rewrite drop_0, overwrite_front by (done || lia).
  assert (hdr ++ p = frame (u64 (u64 (now out) * 1000)) rid q) as Hframe.
  { unfold hdr, sdk_header, frame, sent_so_far. cbn [cl_sock]. rewrite E, Ho, Hrid, !sdk_encode_u32_eq, !sdk_encode_u16_eq, sdk_encode_u64_eq.
    fold p. rewrite u32_small by (split; lia). by rewrite <- !app_assoc. }
  rewrite Hframe. edestruct (send_all_spec R S out st (u32 (rid + 1))) as (c' & -> & Hc' & _); [|by exists c'].
  destruct Hc as [? ? ? ?]. constructor; cbn [with_send cl_sock cl_recv cl_send cl_next_request_id]; [done|done| |by rewrite Hrid].
  rewrite !overwrite_size by (rewrite ?overwrite_size; lia). done.
Qed.

(** ** Answers *)

Lemma header_fields tm t len rid rest :
  is_u16 t -> is_u32 len ->
  peek decode_u32 (uds_header tm t len rid ++ rest) 0 = Done MAGIC /\
  peek decode_u16 (uds_header tm t len rid ++ rest) 6 = Done t /\
  peek decode_u32 (uds_header tm t len rid ++ rest) 8 = Done len.
Proof.
  intros Ht Hl. unfold uds_header. rewrite <- !app_assoc. split_and!.
  - eapply peek_0. by apply decode_encode_u32.
  - rewrite !peek_app by done. eapply peek_0. by apply decode_encode_u16.
  - rewrite !peek_app by done. eapply peek_0. by apply decode_encode_u32.
Qed.

Lemma overwrite_start {A} (a l : list A) : overwrite 0 a l = a ++ drop (length a) l.
Proof. done. Qed.

Lemma overwrite_past {A} off (a b l : list A) : size_of a = off -> overwrite off b (a ++ l) = a ++ b ++ drop (length b) l.
Proof.
  intros <-. unfold overwrite, size_of. rewrite Nat2Z.id, take_app_length, drop_app_add. done.
Qed.

(** The first half: the header is in the buffer. *)
Lemma recv_header_spec R S out st rid c hdr :
  client_at R S out (hdr ++ st) rid c -> size_of hdr = ELCACHE_HEADER_SIZE -> ELCACHE_HEADER_SIZE <= R ->
  exists c' rest, recv_all c 0 ELCACHE_HEADER_SIZE = Done (ELCACHE_OK, c') /\ client_at R S out st rid c' /\ cl_recv c' = hdr ++ rest.
Proof.
  intros Hc Hh HR. pose proof (size_of_nonneg st).
  destruct (recv_all_spec R S out _ rid c 0 ELCACHE_HEADER_SIZE Hc) as (c' & -> & Hc' & Hb);
    [done|done|done|rewrite size_of_app; lia|].
  assert (Z.to_nat ELCACHE_HEADER_SIZE = length hdr) as Hn by (unfold size_of in Hh; lia).
  rewrite Hn, ?take_app_length, ?drop_app_length in *. exists c', (drop (length hdr) (cl_recv c)). by rewrite Hb, overwrite_start.
Qed.

(** The second half: the payload follows it. *)
Lemma recv_payload_spec R S out st rid c hdr rest p :
  client_at R S out (p ++ st) rid c -> cl_recv c = hdr ++ rest -> size_of hdr = ELCACHE_HEADER_SIZE ->
  ELCACHE_HEADER_SIZE + size_of p <= R ->
  exists c' rest, recv_all c ELCACHE_HEADER_SIZE (size_of p) = Done (ELCACHE_OK, c') /\ client_at R S out st rid c' /\
    cl_recv c' = hdr ++ p ++ rest.
Proof.
  intros Hc Hb Hh HR. pose proof (size_of_nonneg st). pose proof (size_of_nonneg p).
  destruct (recv_all_spec R S out _ rid c ELCACHE_HEADER_SIZE (size_of p) Hc) as (c' & -> & Hc' & Hb');
    [done|done|done|rewrite size_of_app; lia|].
  assert (Z.to_nat (size_of p) = length p) as Hn by (unfold size_of; lia).
  rewrite Hn, ?take_app_length, ?drop_app_length in *. eexists c', _. rewrite Hb', Hb, overwrite_past by done. done.
Qed.

Lemma recv_response_spec R S out st rid c tm t arid p :
  client_at R S out ((uds_header tm t (u32 (size_of p)) arid ++ p) ++ st) rid c -> is_u16 t -> R < 2 ^ 32 ->
  ELCACHE_HEADER_SIZE + size_of p <= R ->
  exists c' rest, recv_response c = Done (ELCACHE_OK, c') /\ client_at R S out st rid c' /\
    peek_bytes (cl_recv c') ELCACHE_HEADER_SIZE (size_of p) = Done p /\
    (forall A (dec : decoder A), peek dec (cl_recv c') ELCACHE_HEADER_SIZE = peek dec (p ++ rest) 0).
Proof.
  intros Hc Ht HR Hfit. pose proof (size_of_nonneg p). unfold recv_response. rewrite <- app_assoc in Hc.
  assert (is_u32 (size_of p)) as Hu by (split; unfold ELCACHE_HEADER_SIZE in Hfit; lia). rewrite (u32_small _ Hu) in Hc.
  edestruct (recv_header_spec R S out (p ++ st) rid c _ Hc) as (c1 & r1 & -> & Hc1 & Hb1); [done|lia|]. cbn [mbind outcome_bind].
  rewrite bool_decide_false by auto. rewrite sdk_decode_u32_eq, Hb1 by lia.
  destruct (header_fields tm t (size_of p) arid r1 Ht Hu) as (_ & _ & ->). cbn [mbind outcome_bind].
  destruct (recv_payload_spec R S out st rid c1 _ r1 p Hc1 Hb1 eq_refl Hfit) as (c2 & r2 & -> & Hc2 & Hb2).
  exists c2, r2. split_and!; [done|done| |].
  - rewrite Hb2, peek_bytes_skip by done. by apply peek_bytes_0.
  - intros A dec. rewrite Hb2, peek_app by done. done.
Qed.

(** ** The requests of the operations *)

Inductive SdkOp :=
| OGet (key buffer : bytes) (options : option elcache_get_options)
| OPut (key value : bytes) (options : option elcache_put_options)
| ODelete (key : bytes)
| OCreateSparse (key : bytes) (total_size : Z) (options : option elcache_put_options)
| OWriteRange (key : bytes) (offset : Z) (data : bytes)
| OFinalize (key : bytes).

(** The error code and, for a get, the caller's buffer and [value_len] afterwards. *)
Abbreviation SdkResult := (elcache_error * option (Dst * option Z))%type.

Definition run_op (now : Clock) (us : nat -> Z * Z) (c : Client) (op : SdkOp) : outcome (SdkResult * Client) :=
  match op with
  | OGet key buffer options =>
      '(err, dst, len, c') ← elcache_client_get now us c (Some key) (DBuf buffer) (Some 0) options;
      Done ((err, Some (dst, len)), c')
  | OPut key value options => '(err, c') ← elcache_client_put now us c (Some key) (Some value) options; Done ((err, None), c')
  | ODelete key => '(err, c') ← elcache_client_delete now c (Some key); Done ((err, None), c')
  | OCreateSparse key n options => '(err, c') ← elcache_client_create_sparse now c (Some key) n options; Done ((err, None), c')
  | OWriteRange key offset data => '(err, c') ← elcache_client_write_range now c (Some key) offset (Some data); Done ((err, None), c')
  | OFinalize key => '(err, c') ← elcache_client_finalize now c (Some key); Done ((err, None), c')
  end.

Fixpoint run_ops (now : Clock) (us : nat -> Z * Z) (c : Client) (ops : list SdkOp) : outcome (list SdkResult * Client) :=
  match ops with
  | [] => Done ([], c)
  | op :: ops' => '(r, c1) ← run_op now us c op; '(rs, c2) ← run_ops now us c1 ops'; Done (r :: rs, c2)
  end.

Definition get_range (options : option elcache_get_options) : option Range :=
  (fun '(o, l) => mkRange o l) <$> get_has_range options.

(** The bytes after key and value: a time to live when one is set, and the flags. *)
Definition put_options_bytes (options : option elcache_put_options) : bytes :=
  match options with
  | Some o => (if 0 <? po_ttl_seconds o then [x01] ++ encode_u64 (u64 (po_ttl_seconds o)) else [x00]) ++ encode_u32 (po_flags o)
  | None => [x00] ++ encode_u32 0
  end.

Definition op_request (op : SdkOp) : UdsReq :=
  match op with
  | OGet key _ options => QGet key false (get_range options)
  | OPut key value options => QPut key value (put_options_bytes options)
  | ODelete key => QDelete key
  | OCreateSparse key n options => QCreateSparse key n (put_options_bytes options)
  | OWriteRange key offset data => QWriteRange key offset data
  | OFinalize key => QFinalize key
  end.

(** What the operation returns when the server is in state [m]. *)
Definition op_result (m : UdsSpec) (op : SdkOp) : SdkResult :=
  match op with
  | OGet key buffer options =>
      match sp_values m !! key with
      | None => (ELCACHE_ERR_NOT_FOUND, Some (DBuf buffer, Some 0))
      | Some v =>
          let d := range_of (get_range options) v in
          if size_of buffer <? size_of d
          then (ELCACHE_ERR_BUFFER_TOO_SMALL, Some (DBuf buffer, Some (size_of d)))
          else (ELCACHE_OK, Some (DBuf (overwrite 0 d buffer), Some (size_of d)))
      end
  | OPut _ _ _ | ODelete _ => (ELCACHE_OK, None)
  | OCreateSparse key _ _ => (match sp_sparse m !! key with None => ELCACHE_OK | Some _ => ELCACHE_ERR_INTERNAL end, None)
  | OWriteRange key offset data =>
      (match sp_sparse m !! key with
       | None => ELCACHE_ERR_NOT_FOUND
       | Some (n, _) => if write_fits n offset data then ELCACHE_OK else ELCACHE_ERR_INVALID_ARG
       end, None)
  | OFinalize key =>
      (match sp_sparse m !! key with
       | None => ELCACHE_ERR_NOT_FOUND
       | Some (n, ws) => if all_written n ws then ELCACHE_OK else ELCACHE_ERR_PARTIAL
       end, None)
  end.

(** Bytes of the send buffer an operation needs. *)
Definition op_need (op : SdkOp) : Z :=
  ELCACHE_HEADER_SIZE + 4 +
  match op with
  | OGet key _ _ => size_of key + 18
  | OPut key value _ => size_of key + 4 + size_of value + 13
  | ODelete key | OFinalize key => size_of key
  | OCreateSparse key _ _ => size_of key + 8 + 13
  | OWriteRange key _ data => size_of key + 12 + size_of data
  end.

Definition op_key (op : SdkOp) : bytes :=
  match op with
  | OGet key _ _ | OPut key _ _ | ODelete key | OCreateSparse key _ _ | OWriteRange key _ _ | OFinalize key => key
  end.

(** A call that fits the buffers, on values of at most [L] bytes. *)
Definition op_ok (S L : Z) (op : SdkOp) : Prop :=
  op_need op <= S /\ size_of (op_key op) <= 8192 /\
  match op with
  | OGet _ _ options => opt_ok range_u64 (get_range options)
  | OPut _ value _ => size_of value <= L
  | OCreateSparse _ n _ => 0 <= n <= L
  | OWriteRange _ offset data => 0 <= offset /\ offset + size_of data < 2 ^ 64
  | _ => True
  end.

Lemma put_options_size options : 5 <= size_of (put_options_bytes options) <= 13.
Proof. destruct options as [o|]; [|by vm_compute]. unfold put_options_bytes. by destruct (0 <? po_ttl_seconds o). Qed.

Lemma put_options_build_spec buf p options :
  ELCACHE_HEADER_SIZE + size_of p + 13 <= size_of buf ->
  put_options_build (overwrite ELCACHE_HEADER_SIZE p buf, size_of p) options =
  Done (overwrite ELCACHE_HEADER_SIZE (p ++ put_options_bytes options) buf, size_of (p ++ put_options_bytes options)).
Proof.
  intros Hs. unfold put_options_build, put_options_bytes. rewrite sdk_encode_u32_eq. destruct options as [o|].
  - destruct (0 <? po_ttl_seconds o); rewrite ?sdk_encode_u64_eq.
    + rewrite append_spec by (change (size_of [x01]) with 1; lia). cbn [mbind outcome_bind].
      rewrite append_spec by (rewrite size_of_app, encode_u64_size; change (size_of [x01]) with 1; lia). cbn [mbind outcome_bind].
      rewrite append_spec by (rewrite !size_of_app, encode_u64_size, encode_u32_size; change (size_of [x01]) with 1; lia).
      by rewrite <- !app_assoc.
    + rewrite append_spec by (change (size_of [x00]) with 1; lia). cbn [mbind outcome_bind].
      rewrite append_spec by (rewrite size_of_app, encode_u32_size; change (size_of [x00]) with 1; lia). by rewrite <- !app_assoc.
  - rewrite append_spec by (change (size_of [x00]) with 1; lia). cbn [mbind outcome_bind].
    rewrite append_spec by (rewrite size_of_app, encode_u32_size; change (size_of [x00]) with 1; lia). by rewrite <- !app_assoc.
Qed.

Ltac room := unfold ELCACHE_HEADER_SIZE in *; rewrite ?size_of_app, ?encode_string_size, ?encode_u64_size, ?encode_u32_size; lia.

Definition built (c : Client) (q : UdsReq) : outcome (bytes * Z) :=
  Done (overwrite ELCACHE_HEADER_SIZE (req_payload q) (cl_send c), size_of (req_payload q)).

Lemma put_build_spec c key value options :
  op_need (OPut key value options) <= size_of (cl_send c) ->
  put_build c key value options = built c (QPut key value (put_options_bytes options)).
Proof.
  unfold op_need. intros Hn. pose proof (put_options_size options). payload_sizes. unfold put_build.
  rewrite append_key_spec by room. cbn [mbind outcome_bind]. rewrite sdk_encode_u32_eq, append_spec by room. cbn [mbind outcome_bind].
  rewrite append_spec by room. cbn [mbind outcome_bind]. rewrite put_options_build_spec by room.
  rewrite <- !app_assoc, (app_assoc _ value). done.
Qed.

Lemma create_sparse_build_spec c key n options :
  op_need (OCreateSparse key n options) <= size_of (cl_send c) ->
  create_sparse_build c key n options = built c (QCreateSparse key n (put_options_bytes options)).
Proof.
  unfold op_need. intros Hn. pose proof (put_options_size options). payload_sizes. unfold create_sparse_build.
  rewrite append_key_spec by room. cbn [mbind outcome_bind]. rewrite sdk_encode_u64_eq, append_spec by room. cbn [mbind outcome_bind].
  rewrite put_options_build_spec by room. by rewrite <- app_assoc.
Qed.

Lemma write_range_build_spec c key offset data :
  op_need (OWriteRange key offset data) <= size_of (cl_send c) ->
  write_range_build c key offset data = built c (QWriteRange key offset data).
Proof.
  unfold op_need. intros Hn. payload_sizes. unfold write_range_build.
  rewrite append_key_spec by room. cbn [mbind outcome_bind]. rewrite sdk_encode_u64_eq, append_spec by room. cbn [mbind outcome_bind].
  rewrite sdk_encode_u32_eq, append_spec by room. cbn [mbind outcome_bind]. rewrite append_spec by room. by rewrite <- !app_assoc.
Qed.

Lemma get_build_spec c key options :
  op_need (OGet key [] options) <= size_of (cl_send c) ->
  get_build c key options = built c (QGet key false (get_range options)).
Proof.
  unfold op_need. intros Hs. pose proof (size_of_nonneg key). assert (forall b, size_of [b : byte] = 1) as H1 by done. unfold get_build, get_range.
  rewrite append_key_spec by room. cbn [mbind outcome_bind]. rewrite append_spec by (rewrite H1; room). cbn [mbind outcome_bind].
  destruct (get_has_range options) as [[o l]|]; cbn [fmap option_fmap option_map req_payload encode_opt_range].
  - rewrite !sdk_encode_u64_eq. rewrite append_spec by (rewrite ?size_of_app, !H1; room). cbn [mbind outcome_bind].
    rewrite append_spec by (rewrite ?size_of_app, !H1; room). cbn [mbind outcome_bind].
    rewrite append_spec by (rewrite ?size_of_app, !H1; room). unfold encode_range, encode_bool. by rewrite <- !app_assoc.
  - rewrite append_spec by (rewrite ?size_of_app, !H1; room). unfold encode_bool. by rewrite <- !app_assoc.
Qed.

Lemma uds_code_u16 t : is_u16 (uds_code t).
Proof. by destruct t. Qed.

(** A request whose answer is a code. *)
Lemma exchange_code now srv_now R S out srv_out st rid c q t code m :
  client_at R S out (answer_bytes srv_now srv_out rid (t, encode_u32 code, m) ++ st) rid c ->
  is_u32 code -> ELCACHE_HEADER_SIZE + 4 <= R < 2 ^ 32 ->
  ELCACHE_HEADER_SIZE + size_of (req_payload q) <= S -> S < 2 ^ 32 ->
  exists c1 c2, send_request now c (uds_code (req_type q))
      (overwrite ELCACHE_HEADER_SIZE (req_payload q) (cl_send c), size_of (req_payload q)) = Done (ELCACHE_OK, c1) /\
    recv_response c1 = Done (ELCACHE_OK, c2) /\ sdk_decode_u32 (cl_recv c2) ELCACHE_HEADER_SIZE = Done code /\
    client_at R S (out ++ frame (u64 (u64 (now out) * 1000)) rid q) st (u32 (rid + 1)) c2.
Proof.
  intros Hc Hcode HR Hfit HS. unfold answer_bytes in Hc. cbn [fst snd] in Hc.
  destruct (send_request_spec now R S out _ rid c q Hc Hfit HS) as (c1 & E1 & Hc1).
  destruct (recv_response_spec R S _ st _ c1 _ _ rid (encode_u32 code) Hc1 (uds_code_u16 t)) as (c2 & rest & E2 & Hc2 & _ & Hp);
    [lia|rewrite encode_u32_size; lia|].
  exists c1, c2. split_and!; [done|done| |done]. rewrite sdk_decode_u32_eq, Hp by done. eapply peek_0. by apply decode_encode_u32.
Qed.

(** Values and sparse entries of at most [L] bytes. *)
Definition spec_small (L : Z) (m : UdsSpec) : Prop :=
  map_Forall (fun _ v => size_of v <= L) (sp_values m) /\ map_Forall (fun _ e => 0 <= e.1 <= L) (sp_sparse m).

Lemma contents_size n ws : 0 <= n -> size_of (contents n ws) = n.
Proof. intros. unfold size_of, contents. rewrite length_fmap, length_seqZ. lia. Qed.

Lemma spec_small_step S L m op : spec_small L m -> op_ok S L op -> spec_small L (req_spec m (op_request op)).2.
Proof.
  intros [Hv Hs] (_ & _ & Hop). destruct op as [key b o|key v o|key|key n o|key off d|key]; cbn [op_request req_spec snd].
  - done.
  - split; [|done]. by apply map_Forall_insert_2.
  - split; [|done]. by apply map_Forall_delete.
  - split; [done|]. simpl. destruct (sp_sparse m !! key); [done|]. by apply map_Forall_insert_2.
  - split; [done|]. simpl. destruct (sp_sparse m !! key) as [[n ws]|] eqn:E; [|done].
    destruct (write_fits n off d); [|done]. apply map_Forall_insert_2; [|done]. by apply (Hs _ _ E).
  - destruct (sp_sparse m !! key) as [[n ws]|] eqn:E; [|done]. pose proof (Hs _ _ E) as Hn. simpl in Hn.
    destruct (all_written n ws); [|done]. split; simpl; [|by apply map_Forall_delete].
    apply map_Forall_insert_2; [|done]. rewrite contents_size; lia.
Qed.

Lemma range_of_size range v : size_of (range_of range v) <= size_of v.
Proof. unfold range_of, size_of. destruct range as [r|]; [|done]. destruct (r_length r =? 0); rewrite ?length_take, length_drop; lia. Qed.

(** ** Each operation against an answer of the server *)

Ltac buffer_fits :=
  rewrite u64_small by (unfold ELCACHE_HEADER_SIZE; split; lia);
  match goal with |- context [if ?a <? ?b then _ else _] => destruct (Z.ltb_spec a b); [unfold ELCACHE_HEADER_SIZE in *; lia|] end.

Ltac key_fits := match goal with |- context [if 8192 <? ?k then _ else _] => destruct (Z.ltb_spec 8192 k); [lia|] end.

Lemma op_payload_size op : ELCACHE_HEADER_SIZE + size_of (req_payload (op_request op)) <= op_need op.
Proof.
  unfold op_need, ELCACHE_HEADER_SIZE. destruct op as [key b o|key v o|key|key n o|key off d|key]; cbn [op_request req_payload];
    rewrite ?size_of_app, ?encode_string_size, ?encode_u64_size in *; payload_sizes; try lia.
  - assert (size_of (encode_opt_range (get_range o)) <= 17) by (by destruct (get_range o)). change (size_of (encode_bool false)) with 1. lia.
  - pose proof (put_options_size o). lia.
  - pose proof (put_options_size o). lia.
Qed.

Section Against.
Context (now srv_now : Clock) (us : nat -> Z * Z) (R S L : Z).
Context (HR : 33 + L <= R) (HR32 : R < 2 ^ 32) (HS32 : S < 2 ^ 32) (HL : 0 <= L).

(** The client before and after [op], the server answering from state [m]. *)
Definition op_correct (m : UdsSpec) (op : SdkOp) : Prop := forall out srv_out st rid c,
  client_at R S out (answer_bytes srv_now srv_out rid (req_spec m (op_request op)) ++ st) rid c ->
  exists c', run_op now us c op = Done (op_result m op, c') /\
    client_at R S (out ++ frame (u64 (u64 (now out) * 1000)) rid (op_request op)) st (u32 (rid + 1)) c'.

(** Evaluates the exchange of an operation that is answered with a code. *)
Ltac exchanged q :=
  match goal with H : client_at _ _ ?out (answer_bytes _ ?so ?rid (?t, encode_u32 ?code, ?m') ++ ?st) ?rid ?c |- _ =>
    let c1 := fresh "c" in let c2 := fresh "c" in let E1 := fresh in let E2 := fresh in let E3 := fresh in let H2 := fresh "Hc" in
    destruct (exchange_code now srv_now R S out so st rid c q t code m' H) as (c1 & c2 & E1 & E2 & E3 & H2);
    [|unfold ELCACHE_HEADER_SIZE; lia|cbn [req_payload]; payload_sizes; unfold ELCACHE_HEADER_SIZE in *; lia|done|cbn [req_type uds_code req_payload] in E1 |- *; rewrite E1];
    [|cbn [mbind outcome_bind]; rewrite bool_decide_false by auto; rewrite ?E2; cbn [mbind outcome_bind];
      rewrite ?bool_decide_false by auto; rewrite ?E3; cbn [mbind outcome_bind]]
  end.

(** The checks in front of every operation pass. *)
Ltac op_start :=
  intros (Hneed & Hk & Hop) out srv_out st rid c Hc; cbn [op_key] in Hk; pose proof Hneed as Hn; unfold op_need, ELCACHE_HEADER_SIZE in Hn;
  pose proof (client_connected _ _ _ _ _ _ Hc) as Hcon; pose proof (ca_send _ _ _ _ _ _ Hc) as HS; payload_sizes;
  cbn [run_op op_request req_spec fst snd op_result] in *.

Lemma delete_correct m key : op_ok S L (ODelete key) -> op_correct m (ODelete key).
Proof.
  op_start. unfold elcache_client_delete. rewrite Hcon. cbn [negb].
  rewrite append_key_spec by room. cbn [mbind outcome_bind]. exchanged (QDelete key); [done|]. eauto.
Qed.

Lemma finalize_correct m key : op_ok S L (OFinalize key) -> op_correct m (OFinalize key).
Proof.
  op_start. unfold elcache_client_finalize. rewrite Hcon. cbn [negb].
  rewrite append_key_spec by room. cbn [mbind outcome_bind].
  destruct (sp_sparse m !! key) as [[n ws]|]; [destruct (all_written n ws)|]; cbn [fst snd] in *;
    (exchanged (QFinalize key); [done|]); eexists; (split; [done|]); done || by eapply client_at_same.
Qed.

Lemma create_sparse_correct m key n options :
  op_ok S L (OCreateSparse key n options) -> op_correct m (OCreateSparse key n options).
Proof.
  op_start. unfold elcache_client_create_sparse. key_fits. rewrite Hcon. cbn [negb]. pose proof (put_options_size options).
  rewrite create_sparse_build_spec by lia. cbn [built mbind outcome_bind].
  destruct (sp_sparse m !! key) as [[n' ws]|]; cbn [fst snd] in *;
    (exchanged (QCreateSparse key n (put_options_bytes options)); [done|]); eexists; (split; [done|]); done || by eapply client_at_same.
Qed.

Lemma write_range_correct m key offset data :
  op_ok S L (OWriteRange key offset data) -> op_correct m (OWriteRange key offset data).
Proof.
  op_start. unfold elcache_client_write_range. key_fits. rewrite Hcon. cbn [negb].
  buffer_fits.
  rewrite write_range_build_spec by lia. cbn [built mbind outcome_bind].
  destruct (sp_sparse m !! key) as [[n ws]|]; [destruct (write_fits n offset data)|]; cbn [fst snd] in *;
    (exchanged (QWriteRange key offset data); [done|]); eexists; (split; [done|]); done || by eapply client_at_same.
Qed.

Lemma put_correct m key value options : op_ok S L (OPut key value options) -> op_correct m (OPut key value options).
Proof.
  op_start. unfold elcache_client_put. key_fits. rewrite Hcon. cbn [negb]. pose proof (put_options_size options).
  pose proof (same_io_time us c) as Ht. destruct (get_time_us us c) as [start c0]. cbn [snd] in Ht.
  pose proof (client_at_same _ _ _ _ _ _ _ Hc Ht) as Hc0. pose proof (ca_send _ _ _ _ _ _ Hc0) as HS0. clear Hc.
  buffer_fits.
  rewrite put_build_spec by lia. cbn [built mbind outcome_bind].
  exchanged (QPut key value (put_options_bytes options)); [done|]. eexists. split; [done|].
  eapply client_at_same; [done|apply same_io_count].
Qed.

(** The fields of the answer of a get in the receive buffer. *)
Lemma get_fields buf hdr res d rest :
  buf = hdr ++ (encode_u32 res ++ [x00] ++ encode_u32 (size_of d) ++ d) ++ rest ->
  size_of hdr = ELCACHE_HEADER_SIZE -> is_u32 res -> is_u32 (size_of d) ->
  sdk_decode_u32 buf ELCACHE_HEADER_SIZE = Done res /\ load buf (ELCACHE_HEADER_SIZE + 4) = Done 0 /\
  sdk_decode_u32 buf (ELCACHE_HEADER_SIZE + 5) = Done (size_of d) /\
  peek_bytes buf (ELCACHE_HEADER_SIZE + 5 + 4) (size_of d) = Done d.
Proof.
  intros -> Hh Hres Hd. rewrite <- !app_assoc. rewrite !sdk_decode_u32_eq by done. split_and!.
  - rewrite (peek_app _ hdr) by lia. rewrite Hh. change (ELCACHE_HEADER_SIZE - ELCACHE_HEADER_SIZE) with 0.
    eapply peek_0. by apply decode_encode_u32.
  - unfold load. rewrite app_assoc. change ([x00] ++ ?l) with (x00 :: l). rewrite list_lookup_middle; [done|].
    rewrite length_app. unfold size_of in Hh. change (length (encode_u32 res)) with 4%nat. lia.
  - rewrite !peek_app by (rewrite ?Hh; done). rewrite Hh. eapply peek_0. by apply decode_encode_u32.
  - rewrite !peek_bytes_skip by (rewrite ?Hh; done). rewrite Hh. by apply peek_bytes_0.
Qed.

(** Parsing the answer of a get. *)
Lemma get_finish_spec c hdr res d rest start dst old :
  cl_recv c = hdr ++ (encode_u32 res ++ [x00] ++ encode_u32 (size_of d) ++ d) ++ rest ->
  size_of hdr = ELCACHE_HEADER_SIZE -> is_u32 res -> is_u32 (size_of d) ->
  get_finish us c start (DBuf dst) old =
  if res =? 1 then Done (ELCACHE_ERR_NOT_FOUND, DBuf dst, Some old, set_error (count_result c 0 1 0) "Key not found")
  else if size_of dst <? size_of d
  then Done (ELCACHE_ERR_BUFFER_TOO_SMALL, DBuf dst, Some (size_of d), set_error c "Buffer too small")
  else let c' := count_request us c start (size_of d) 0 in
    if res =? 0 then Done (ELCACHE_OK, DBuf (overwrite 0 d dst), Some (size_of d), count_result c' 1 0 0)
    else if res =? 2 then Done (ELCACHE_ERR_PARTIAL, DBuf (overwrite 0 d dst), Some (size_of d), count_result c' 0 0 1)
    else Done (ELCACHE_OK, DBuf (overwrite 0 d dst), Some (size_of d), c').
Proof.
  intros Hb Hh Hres Hd. destruct (get_fields _ _ _ _ _ Hb Hh Hres Hd) as (F1 & F2 & F3 & F4). unfold get_finish, copy_out.
  rewrite F1, F2. cbn [mbind outcome_bind]. rewrite Z.eqb_refl, Z.add_0_r, F3. cbn [mbind outcome_bind dst_size].
  destruct (res =? 1); [done|]. destruct (Z.ltb_spec (size_of dst) (size_of d)); [done|]. rewrite F4. cbn [mbind outcome_bind].
  by rewrite store_fits by lia.
Qed.

(** What a get of [key] returns: the code and the data. *)
Definition get_code (m : UdsSpec) (key : bytes) : Z := match sp_values m !! key with Some _ => 0 | None => 1 end.
Definition get_data (m : UdsSpec) (key : bytes) (range : option Range) : bytes :=
  match sp_values m !! key with Some v => range_of range v | None => [] end.

Definition get_payload (m : UdsSpec) (key : bytes) (range : option Range) : bytes :=
  encode_u32 (get_code m key) ++ [x00] ++ encode_u32 (size_of (get_data m key range)) ++ get_data m key range.

Lemma get_data_small m key range : spec_small L m -> 0 <= size_of (get_data m key range) <= L.
Proof.
  intros [Hv _]. pose proof (size_of_nonneg (get_data m key range)). unfold get_data in *. destruct (sp_values m !! key) as [v|] eqn:E; [|done].
  pose proof (Hv _ _ E). pose proof (range_of_size range v). simpl in *. lia.
Qed.

Lemma get_payload_size m key range : size_of (get_payload m key range) = 9 + size_of (get_data m key range).
Proof. unfold get_payload. rewrite !size_of_app, !encode_u32_size. change (size_of [x00]) with 1. lia. Qed.

Lemma get_answer m key mo range srv_out rid :
  spec_small L m -> answer_bytes srv_now srv_out rid (req_spec m (QGet key mo range)) =
  uds_header (srv_now srv_out) (uds_code UGetResponse) (size_of (get_payload m key range)) rid ++ get_payload m key range.
Proof.
  intros Hm. pose proof (get_data_small m key range Hm). pose proof (get_payload_size m key range) as Hp. unfold answer_bytes.
  assert ((req_spec m (QGet key mo range)).1.2 = get_payload m key range) as ->.
  { cbn [req_spec fst snd]. unfold get_payload, get_code, get_data in *. unfold encode_bytes.
    destruct (sp_values m !! key); rewrite u32_small by (split; lia); done. }
  rewrite u32_small by (split; lia). done.
Qed.

(** A get up to the header of its answer, whose payload is [p]. *)
Lemma get_header key options dst old out st rid c tm arid p :
  dst <> DNull -> op_ok S L (OGet key [] options) -> size_of p < 2 ^ 32 ->
  client_at R S out (uds_header tm (uds_code UGetResponse) (size_of p) arid ++ p ++ st) rid c ->
  exists c2 r2 start, elcache_client_get now us c (Some key) dst (Some old) options =
      (if R - ELCACHE_HEADER_SIZE <? size_of p
       then Done (ELCACHE_ERR_BUFFER_TOO_SMALL, dst, Some old, set_error c2 "Response too large")
       else '(err, c3) ← recv_all c2 ELCACHE_HEADER_SIZE (size_of p);
            if bool_decide (err <> ELCACHE_OK) then Done (err, dst, Some old, c3) else get_finish us c3 start dst old) /\
    client_at R S (out ++ frame (u64 (u64 (now out) * 1000)) rid (QGet key false (get_range options))) (p ++ st) (u32 (rid + 1)) c2 /\
    cl_recv c2 = uds_header tm (uds_code UGetResponse) (size_of p) arid ++ r2.
Proof.
  intros Hdst (Hneed & Hk & _) Hpu Hc. pose proof Hneed as Hn. unfold op_need, ELCACHE_HEADER_SIZE in Hn. cbn [op_key] in Hk. pose proof (size_of_nonneg p).
  pose proof (client_connected _ _ _ _ _ _ Hc) as Hcon. unfold elcache_client_get.
  pose proof (same_io_time us c) as Ht. destruct (get_time_us us c) as [start c0]. cbn [snd] in Ht.
  pose proof (client_at_same _ _ _ _ _ _ _ Hc Ht) as Hc0. clear Hc Ht.
  destruct (send_request_spec now R S out _ rid c0 (QGet key false (get_range options)) Hc0) as (c1 & E1 & Hc1); [|done|].
  { cbn [req_payload]. rewrite !size_of_app, encode_string_size. change (size_of (encode_bool false)) with 1.
    assert (size_of (encode_opt_range (get_range options)) <= 17) by (by destruct (get_range options)). room. }
  edestruct (recv_header_spec R S _ (p ++ st) _ c1 _ Hc1) as (c2 & r2 & E2 & Hc2 & Hb2); [done|unfold ELCACHE_HEADER_SIZE; lia|].
  exists c2, r2, start. split_and!; [|done..].
  destruct (header_fields tm (uds_code UGetResponse) (size_of p) arid r2) as (F1 & F2 & F3); [done|split; lia|].
  rewrite <- Hb2 in F1, F2, F3. rewrite <- sdk_decode_u32_eq in F1, F3 by lia. rewrite <- sdk_decode_u16_eq in F2 by lia.
  cbn [req_type uds_code] in E1, F2.
  assert (size_of (cl_recv c2) -w ELCACHE_HEADER_SIZE = R - ELCACHE_HEADER_SIZE) as F4
    by (rewrite (ca_recv _ _ _ _ _ _ Hc2); apply u64_small; unfold ELCACHE_HEADER_SIZE; split; lia).
  pose proof (get_build_spec c0 key options ltac:(rewrite (ca_send _ _ _ _ _ _ Hc0); lia)) as F0.
  destruct dst; [done|..]; key_fits; rewrite Hcon, F0; cbn [built negb mbind outcome_bind]; rewrite E1; cbn [mbind outcome_bind];
    rewrite bool_decide_false by auto; rewrite E2; cbn [mbind outcome_bind]; rewrite bool_decide_false by auto;
    rewrite F1, F2, F3; cbn [mbind outcome_bind]; rewrite F4; done.
Qed.

(** A get up to the payload of its answer. *)
Lemma get_exchange m key options dst old out srv_out st rid c :
  dst <> DNull -> spec_small L m -> op_ok S L (OGet key [] options) ->
  client_at R S out (answer_bytes srv_now srv_out rid (req_spec m (QGet key false (get_range options))) ++ st) rid c ->
  exists c3 r3 start, elcache_client_get now us c (Some key) dst (Some old) options = get_finish us c3 start dst old /\
    client_at R S (out ++ frame (u64 (u64 (now out) * 1000)) rid (QGet key false (get_range options))) st (u32 (rid + 1)) c3 /\
    cl_recv c3 = uds_header (srv_now srv_out) (uds_code UGetResponse) (size_of (get_payload m key (get_range options))) rid ++
                 get_payload m key (get_range options) ++ r3.
Proof.
  intros Hdst Hm Hop Hc. rewrite get_answer, <- app_assoc in Hc by done.
  pose proof (get_data_small m key (get_range options) Hm). pose proof (get_payload_size m key (get_range options)) as Hp.
  set (p := get_payload m key (get_range options)) in *.
  destruct (get_header key options dst old out st rid c _ rid p Hdst Hop ltac:(lia) Hc) as (c2 & r2 & start & -> & Hc2 & Hb2).
  destruct (Z.ltb_spec (R - ELCACHE_HEADER_SIZE) (size_of p)); [unfold ELCACHE_HEADER_SIZE in *; lia|].
  destruct (recv_payload_spec R S _ st _ c2 _ r2 p Hc2 Hb2) as (c3 & r3 & -> & Hc3 & Hb3); [done|unfold ELCACHE_HEADER_SIZE; lia|].
  cbn [mbind outcome_bind]. rewrite bool_decide_false by auto. by exists c3, r3, start.
Qed.

Lemma get_correct m key buffer options :
  spec_small L m -> op_ok S L (OGet key buffer options) -> op_correct m (OGet key buffer options).
Proof.
  intros Hm Hop out srv_out st rid c Hc. cbn [run_op op_request op_result].
  destruct (get_exchange m key options (DBuf buffer) 0 out srv_out st rid c ltac:(done) Hm Hop Hc) as (c3 & r3 & start & -> & Hc3 & Hb3).
  pose proof (get_data_small m key (get_range options) Hm).
  rewrite (get_finish_spec c3 _ (get_code m key) _ r3 start buffer 0 Hb3) by (done || (unfold get_code; by case_match) || (split; lia)).
  unfold get_code, get_data. destruct (sp_values m !! key) as [v|]; cbn [Z.eqb mbind outcome_bind]; [|eexists; split; [done|by eapply client_at_same]].
  destruct (Z.ltb_spec (size_of buffer) (size_of (range_of (get_range options) v))); (eexists; split; [done|]).
  - by eapply client_at_same.
  - eapply client_at_same; [eapply client_at_same; [done|apply same_io_count]|done].
Qed.

Lemma op_correct_all m op : spec_small L m -> op_ok S L op -> op_correct m op.
Proof.
  intros Hm Hop. destruct op; auto using get_correct, put_correct, delete_correct, create_sparse_correct, write_range_correct, finalize_correct.
Qed.

(** ** Sessions *)

(** The requests of a list of calls, with their timestamps and ids. *)
Fixpoint op_requests (out : bytes) (rid : Z) (ops : list SdkOp) : list (Z * Z * UdsReq) :=
  match ops with
  | [] => []
  | op :: ops' =>
      let ms := u64 (u64 (now out) * 1000) in
      (ms, rid, op_request op) :: op_requests (out ++ frame ms rid (op_request op)) (u32 (rid + 1)) ops'
  end.

(** The state of the server afterwards, and what the calls return. *)
Definition after (m : UdsSpec) (op : SdkOp) : UdsSpec := (req_spec m (op_request op)).2.

Fixpoint op_results (m : UdsSpec) (ops : list SdkOp) : list SdkResult :=
  match ops with [] => [] | op :: ops' => op_result m op :: op_results (after m op) ops' end.

Lemma session_extends reqs : forall out m, exists tail, (session_spec srv_now out m reqs).1 = out ++ tail.
Proof.
  induction reqs as [|[[ms rid] q] reqs IH]; intros out m; cbn [session_spec]; [exists []; by rewrite app_nil_r|].
  destruct (IH (out ++ answer_bytes srv_now out rid (req_spec m q)) (req_spec m q).2) as [tail ->].
  eexists. by rewrite <- app_assoc.
Qed.

Lemma session_state ops : forall out out' rid m, (session_spec srv_now out' m (op_requests out rid ops)).2 = foldl after m ops.
Proof. induction ops as [|op ops IH]; intros out out' rid m; [done|]. apply IH. Qed.

Lemma run_ops_spec ops : Forall (op_ok S L) ops -> forall out srv_out st rid m c,
  spec_small L m -> client_at R S out st rid c -> (session_spec srv_now srv_out m (op_requests out rid ops)).1 = srv_out ++ st ->
  exists c' rid', run_ops now us c ops = Done (op_results m ops, c') /\ client_at R S (out ++ sent (op_requests out rid ops)) [] rid' c'.
Proof.
  induction 1 as [|op ops Hop _ IH]; intros out srv_out st rid m c Hm Hc Hs; cbn [run_ops op_requests op_results session_spec] in *.
  - exists c, rid. split; [done|]. rewrite <- (app_nil_r srv_out) in Hs at 1. apply app_inv_head in Hs as <-.
    unfold sent. simpl. by rewrite app_nil_r.
  - destruct (session_extends (op_requests (out ++ frame (u64 (u64 (now out) * 1000)) rid (op_request op)) (u32 (rid + 1)) ops)
      (srv_out ++ answer_bytes srv_now srv_out rid (req_spec m (op_request op))) (after m op)) as [tail Ht].
    unfold after in Ht. rewrite Ht in Hs. rewrite <- app_assoc in Hs. apply app_inv_head in Hs as <-.
    destruct (op_correct_all m op Hm Hop out srv_out tail rid c Hc) as (c1 & -> & Hc1). cbn [mbind outcome_bind].
    destruct (IH _ _ _ _ (after m op) c1 (spec_small_step _ _ _ _ Hm Hop) Hc1 Ht) as (c2 & rid2 & -> & Hc2). cbn [mbind outcome_bind].
    exists c2, rid2. split; [done|]. rewrite sent_cons, app_assoc. done.
Qed.

Lemma op_request_ok op : op_ok S L op -> req_ok (op_request op).
Proof.
  intros (Hn & _ & Hop). pose proof (op_payload_size op). unfold ELCACHE_HEADER_SIZE in *. split; [lia|]. destruct op; try done. split; lia.
Qed.

Lemma op_requests_ok ops : Forall (op_ok S L) ops -> forall out rid, is_u32 rid ->
  Forall (fun x => req_ok x.2 /\ is_u32 x.1.2) (op_requests out rid ops).
Proof.
  induction 1 as [|op ops Hop _ IH]; intros out rid Hrid; [constructor|]. cbn [op_requests]. constructor.
  - split; [by apply op_request_ok|done].
  - apply IH. apply Z.mod_pos_bound. lia.
Qed.

End Against.

(** ** Properties *)

(** C5: client library and server together, for calls that fit. For any list of calls of the six requests (get, put, delete,
    create sparse, write range, finalize) with keys of at most 8192 bytes, requests no longer than the send buffer,
    values and sparse entries no longer than [L] where an answer with [L] bytes fits the receive buffer, and
    positions that do not wrap; any cut of the request bytes into pieces on the way to the server, and any cut of the
    answers, interrupted system calls included, on the way back: every call returns what the abstract server promises (the
    stored bytes, "not found", the state of the sparse entry), the bytes sent are exactly the framed requests, nothing is
    left unread, and the server ends in the promised state. (Answers that do not fit leave the stream out of step:
    [sdk_large_answer_desync]; the allocating get is undefined for long values: [sdk_get_alloc_overlap].) *)
Theorem sdk_end_to_end now srv_now us R S L s m ops rid input sched :
  33 + L <= R -> R < 2 ^ 32 -> S < 2 ^ 32 -> 0 <= L -> is_u32 rid ->
  server_rel s m -> spec_small L m -> Forall (op_ok S L) ops ->
  pieces_ok input -> sched_ok sched -> concat input = sent (op_requests now [] rid ops) ->
  exists s' conn, handle_client_thread srv_now s (mkConn input [] sched) = Done (s', conn) /\
    server_rel s' (foldl after m ops) /\
    forall c, client_at R S [] (c_out conn) rid c ->
      exists c' rid', run_ops now us c ops = Done (op_results m ops, c') /\ client_at R S (concat input) [] rid' c'.
Proof.
  intros HR HR32 HS32 HL Hrid Hrel Hm Hops Hin Hsched Hcat. unfold handle_client_thread. cbn [c_in].
  assert (Forall (fun x => req_ok x.2 /\ is_u32 x.1.2) (op_requests now [] rid ops)) as Hreqs by (by eapply op_requests_ok).
  destruct (session_loop srv_now _ Hreqs (Datatypes.S (length (concat input)))
    s m (mkConn input [] sched) []) as (s' & conn & -> & Hout & Hr); [done..|by rewrite app_nil_r| |].
  { rewrite Hcat. pose proof (sent_length (op_requests now [] rid ops)). lia. }
  cbn [c_out] in Hout, Hr. rewrite session_state in Hr. exists s', conn. split_and!; [done..|]. intros c Hc. rewrite Hcat.
  by apply (run_ops_spec now srv_now us R S L HR HR32 HS32 HL ops Hops [] [] (c_out conn) rid m c).
Qed.

Definition sample_client (answers : bytes) : Client :=
  mkClient ELCACHE_TRANSPORT_UNIX (Some (mkSock (if bool_decide (answers = []) then [] else [RIntr; RData answers]) [] [STake 5; SIntr]))
    None (replicate 200 x00) (replicate 200 x00) DEFAULT_TIMEOUT_MS 1 [] (mkCounters 0 0 0 0 0 0 0 0) 0.

Lemma sample_client_at answers : client_at 200 200 [] answers 1 (sample_client answers).
Proof.
  constructor; [|done..]. unfold sample_client. cbn [cl_sock]. eexists. split_and!; [done..| | |].
  - case_bool_decide; [done|]. unfold stream. simpl. by rewrite app_nil_r.
  - case_bool_decide; repeat constructor; done.
  - by repeat constructor.
Qed.

Definition sample_ops : list SdkOp :=
  [OPut (str "k") (str "hello") (Some (mkPutOptions 60 7 0 0 0));
   OGet (str "k") (str "......") (Some (mkGetOptions 1 3 1 0)); OGet (str "k") (str ".") None;
   ODelete (str "k"); OGet (str "k") (str ".") None;
   OCreateSparse (str "v") 2 None; OWriteRange (str "v") 1 (str "y"); OFinalize (str "v")].

Lemma sdk_end_to_end_witness :
  let input := [sent (op_requests (fun _ => 0) [] 1 sample_ops)] in
  exists s' conn, handle_client_thread (fun out => size_of out) (mkServer ∅ ∅) (mkConn input [] [5; 100]) = Done (s', conn) /\
    exists c' rid', run_ops (fun _ => 0) (fun n => (Z.of_nat n, 0)) (sample_client (c_out conn)) sample_ops =
      Done ([(ELCACHE_OK, None); (ELCACHE_OK, Some (DBuf (str "ell..."), Some 3));
             (ELCACHE_ERR_BUFFER_TOO_SMALL, Some (DBuf (str "."), Some 5)); (ELCACHE_OK, None);
             (ELCACHE_ERR_NOT_FOUND, Some (DBuf (str "."), Some 0)); (ELCACHE_OK, None); (ELCACHE_OK, None);
             (ELCACHE_ERR_PARTIAL, None)], c') /\
      client_at 200 200 (concat input) [] rid' c'.
Proof.
  intros input.
  destruct (sdk_end_to_end (fun _ => 0) (fun out => size_of out) (fun n => (Z.of_nat n, 0)) 200 200 100 (mkServer ∅ ∅) (mkSpec ∅ ∅)
    sample_ops 1 input [5; 100]) as (s' & conn & E & _ & H);
    [lia|lia|lia|lia|split; lia|apply server_rel_empty|split; apply map_Forall_empty|..].
  - repeat constructor; vm_compute; congruence.
  - repeat constructor. vm_compute. discriminate.
  - repeat constructor.
  - unfold input. cbn [concat]. apply app_nil_r.
  - exists s', conn. split; [exact E|]. destruct (H (sample_client (c_out conn)) (sample_client_at _)) as (c' & rid' & E' & Hc).
    exists c', rid'. split; [|exact Hc]. rewrite E'. reflexivity.
Defined.

(** When the answer to a get does not fit the receive buffer, the call reports "buffer too small" but
    leaves [value_len] as it was and the payload unread: the next answer is looked for in the middle of
    this one. *)
Theorem sdk_large_answer_desync now us R S L key options dst old out st rid c tm arid p :
  33 + L <= R -> R < 2 ^ 32 -> S < 2 ^ 32 -> 0 <= L -> dst <> DNull -> op_ok S L (OGet key [] options) ->
  R - ELCACHE_HEADER_SIZE < size_of p < 2 ^ 32 ->
  client_at R S out (uds_header tm (uds_code UGetResponse) (size_of p) arid ++ p ++ st) rid c ->
  exists c', elcache_client_get now us c (Some key) dst (Some old) options = Done (ELCACHE_ERR_BUFFER_TOO_SMALL, dst, Some old, c') /\
    client_at R S (out ++ frame (u64 (u64 (now out) * 1000)) rid (QGet key false (get_range options))) (p ++ st) (u32 (rid + 1)) c'.
Proof.
  intros HR HR32 HS32 HL Hdst Hop Hp Hc.
  destruct (get_header now us R S L HR HR32 HS32 HL key options dst old out st rid c tm arid p Hdst Hop ltac:(lia) Hc)
    as (c2 & r2 & start & -> & Hc2 & _).
  destruct (Z.ltb_spec (R - ELCACHE_HEADER_SIZE) (size_of p)); [|lia]. eexists. split; [done|]. by eapply client_at_same.
Qed.

Lemma sdk_large_answer_desync_witness :
  let p := replicate 250 x41 in let answer := uds_header 0 (uds_code UGetResponse) (size_of p) 1 ++ p ++ [] in
  exists c', elcache_client_get (fun _ => 0) (fun _ => (0, 0)) (sample_client answer) (Some (str "k")) (DBuf (replicate 300 x00)) (Some 0) None =
      Done (ELCACHE_ERR_BUFFER_TOO_SMALL, DBuf (replicate 300 x00), Some 0, c') /\
    client_at 200 200 (frame (u64 (u64 0 * 1000)) 1 (QGet (str "k") false None)) (p ++ []) 2 c'.
Proof.
  intros p answer. apply (sdk_large_answer_desync (fun _ => 0) (fun _ => (0, 0)) 200 200 100 (str "k") None (DBuf (replicate 300 x00)) 0 [] []
    1 (sample_client answer) 0 1 p); [lia|lia|lia|lia|discriminate| | |].
  - repeat constructor; vm_compute; congruence.
  - vm_compute. split; congruence.
  - apply sample_client_at.
Defined.

(** [elcache_client_get_alloc] passes the receive buffer as destination of a get whose data lies in the
    same buffer: for every value of more than 33 bytes that is found, [memcpy] is called on overlapping
    ranges, which is undefined. *)
Theorem sdk_get_alloc_overlap now srv_now us R S L m key v options malloc fresh uninit value value_len out srv_out st rid c :
  33 + L <= R -> R < 2 ^ 32 -> S < 2 ^ 32 -> 0 <= L -> spec_small L m -> op_ok S L (OGet key [] options) ->
  sp_values m !! key = Some v -> 33 < size_of (range_of (get_range options) v) ->
  client_at R S out (answer_bytes srv_now srv_out rid (req_spec m (QGet key false (get_range options))) ++ st) rid c ->
  elcache_client_get_alloc now us malloc fresh uninit c (Some key) (Some value) (Some value_len) options = Undef.
Proof.
  intros HR HR32 HS32 HL Hm Hop Hv Hd Hc. unfold elcache_client_get_alloc. rewrite (ca_recv _ _ _ _ _ _ Hc).
  destruct (get_exchange now srv_now us R S L HR HR32 HS32 HL m key options (DRecv R) uninit out srv_out st rid c ltac:(done) Hm Hop Hc)
    as (c3 & r3 & start & -> & Hc3 & Hb3).
  pose proof (get_data_small L HL m key (get_range options) Hm) as Hl. unfold get_payload, get_code, get_data in *. rewrite Hv in *.
  set (d := range_of (get_range options) v) in *.
  destruct (get_fields _ _ 0 d r3 Hb3) as (F1 & F2 & F3 & F4); [done|done|split; lia|]. unfold get_finish, copy_out.
  rewrite F1, F2. cbn [mbind outcome_bind]. rewrite Z.eqb_refl, Z.add_0_r, F3. cbn [mbind outcome_bind dst_size Z.eqb].
  destruct (Z.ltb_spec R (size_of d)); [lia|]. rewrite F4. cbn [mbind outcome_bind].
  destruct (Z.ltb_spec (ELCACHE_HEADER_SIZE + 5 + 4) (size_of d)); [done|unfold ELCACHE_HEADER_SIZE in *; lia].
Qed.

Lemma sdk_get_alloc_overlap_witness :
  elcache_client_get_alloc (fun _ => 0) (fun _ => (0, 0)) (fun _ => true) (fun _ => []) 0
    (sample_client (answer_bytes (fun _ => 0) [] 1 (req_spec (mkSpec {[str "k" := replicate 40 x41]} ∅) (QGet (str "k") false None)) ++ []))
    (Some (str "k")) (Some None) (Some 0) None = Undef.
Proof.
  apply (sdk_get_alloc_overlap (fun _ => 0) (fun _ => 0) (fun _ => (0, 0)) 200 200 100 (mkSpec {[str "k" := replicate 40 x41]} ∅)
    (str "k") (replicate 40 x41) None (fun _ => true) (fun _ => []) 0 None 0 [] [] [] 1); [lia|lia|lia|lia|..].
  - split; [|apply map_Forall_empty]. apply map_Forall_singleton. vm_compute. discriminate.
  - repeat constructor; vm_compute; congruence.
  - apply lookup_singleton_eq.
  - reflexivity.
  - apply sample_client_at.
Defined.

Lemma send_request_offline now c type p :
  cl_sock c = None -> ELCACHE_HEADER_SIZE + size_of p <= size_of (cl_send c) ->
  exists c', send_request now c type (overwrite ELCACHE_HEADER_SIZE p (cl_send c), size_of p) = Done (ELCACHE_ERR_CONNECTION, c') /\
    cl_sock c' = None.
Proof.
  intros E Hfit. pose proof (size_of_nonneg p). unfold send_request, take_request_id. cbn [fst snd].
  set (hdr := sdk_header now _ _ _ _). assert (size_of hdr = ELCACHE_HEADER_SIZE) as Hh by done. unfold ELCACHE_HEADER_SIZE in *.
  rewrite store_fits by (rewrite overwrite_size; lia). cbn [mbind outcome_bind]. unfold peek_bytes.
  rewrite !overwrite_size by (rewrite ?overwrite_size; lia). destruct (Z.ltb_spec (size_of (cl_send c)) (0 + (24 + size_of p))); [lia|].
  cbn [mbind outcome_bind]. unfold slice. rewrite drop_0, overwrite_front by (done || lia). unfold send_all. cbn [with_send cl_sock].
  rewrite E. destruct (Z.ltb_spec 0 (size_of (hdr ++ p))) as [|Hz]; [|rewrite size_of_app in Hz; lia]. eexists. split; [done|]. reflexivity.
Qed.

Ltac offline Hoff c0 q :=
  let c' := fresh in let E := fresh in let Hc' := fresh in
  destruct (Hoff c0 q) as (c' & E & Hc'); [done..|]; cbn [req_type uds_code req_payload] in E; cbn [built mbind outcome_bind req_payload];
  rewrite E; cbn [mbind outcome_bind]; rewrite bool_decide_true by done; by eexists _, c'.

(** Without a socket every call that fits the buffers fails where it sends. *)
Lemma op_offline now us S L c op :
  elcache_client_is_connected c = true -> cl_sock c = None -> size_of (cl_send c) = S -> S < 2 ^ 32 -> op_ok S L op ->
  exists r c', run_op now us c op = Done (r, c') /\ r.1 = ELCACHE_ERR_CONNECTION /\ cl_sock c' = None.
Proof.
  intros Hcon Hsock HS HS32 (Hneed & Hk & _). pose proof Hneed as Hn. unfold op_need, ELCACHE_HEADER_SIZE in Hn.
  destruct (same_io_time us c) as (Ht1 & _ & Ht3 & _). rewrite Hsock in Ht1. rewrite <- HS in Hneed. pose proof Hneed as Hneed0. rewrite <- Ht3 in Hneed0.
  pose proof Hneed0 as Hn0. unfold op_need, ELCACHE_HEADER_SIZE in Hn0.
  assert (forall c0 q, cl_sock c0 = None -> cl_send c0 = cl_send c -> req_payload (op_request op) = req_payload q ->
    exists c', send_request now c0 (uds_code (req_type q)) (overwrite ELCACHE_HEADER_SIZE (req_payload q) (cl_send c0), size_of (req_payload q)) =
      Done (ELCACHE_ERR_CONNECTION, c') /\ cl_sock c' = None) as Hoff.
  { intros c0 q E0 E1 E2. apply send_request_offline; [done|]. rewrite E1, <- E2. pose proof (op_payload_size op). lia. }
  destruct op as [key b o|key v o|key|key n o|key off d|key]; cbn [op_key] in Hk; payload_sizes; cbn [run_op].
  - unfold elcache_client_get. key_fits. rewrite Hcon. cbn [negb]. destruct (get_time_us us c) as [start c0]. cbn [snd] in *.
    rewrite get_build_spec by done. offline Hoff c0 (QGet key false (get_range o)).
  - unfold elcache_client_put. key_fits. rewrite Hcon. cbn [negb]. destruct (get_time_us us c) as [start c0]. cbn [snd] in *.
    buffer_fits. rewrite put_build_spec by done. offline Hoff c0 (QPut key v (put_options_bytes o)).
  - unfold elcache_client_delete. rewrite Hcon. cbn [negb]. rewrite append_key_spec by room. offline Hoff c (QDelete key).
  - unfold elcache_client_create_sparse. key_fits. rewrite Hcon. cbn [negb]. rewrite create_sparse_build_spec by done.
    offline Hoff c (QCreateSparse key n (put_options_bytes o)).
  - unfold elcache_client_write_range. key_fits. rewrite Hcon. cbn [negb]. buffer_fits. rewrite write_range_build_spec by done.
    offline Hoff c (QWriteRange key off d).
  - unfold elcache_client_finalize. rewrite Hcon. cbn [negb]. rewrite append_key_spec by room. offline Hoff c (QFinalize key).
Qed.

(** A client connected through shared memory has no socket, and every operation sends on the socket:
    after a successful [elcache_client_connect_shm] each call that fits the buffers fails with a
    connection error and nothing is sent, although the client counts as connected. *)
Theorem sdk_shm_unusable now us R S L c path opened stat_ok mapped c1 op :
  elcache_client_connect_shm c (Some path) opened stat_ok mapped = Done (ELCACHE_OK, c1) ->
  size_of (cl_recv c) = R -> size_of (cl_send c) = S -> S < 2 ^ 32 -> op_ok S L op ->
  elcache_client_is_connected c1 = true /\
  exists r c', run_op now us c1 op = Done (r, c') /\ r.1 = ELCACHE_ERR_CONNECTION /\ cl_sock c' = None.
Proof.
  intros Hconn _ HS HS32 Hop. unfold elcache_client_connect_shm in Hconn. destruct opened, stat_ok, mapped as [b|]; try done. cbn [negb] in Hconn.
  destruct (sdk_decode_u32 b 0) as [magic| | |]; try done. cbn [mbind outcome_bind] in Hconn. destruct (negb (magic =? _)); [done|].
  injection Hconn as <-. split; [done|]. by eapply op_offline.
Qed.

Lemma sdk_shm_unusable_witness :
  let c := sample_client [] in
  let c1 := with_transport (with_shm (elcache_client_disconnect c) (Some (sdk_encode_u32 ELCACHE_PROTO_MAGIC ++ replicate 28 x00))) ELCACHE_TRANSPORT_SHM in
  elcache_client_is_connected c1 = true /\
  exists r c', run_op (fun _ => 0) (fun _ => (0, 0)) c1 (OPut (str "k") (str "v") None) = Done (r, c') /\
    r.1 = ELCACHE_ERR_CONNECTION /\ cl_sock c' = None.
Proof.
  intros c c1. apply (sdk_shm_unusable (fun _ => 0) (fun _ => (0, 0)) 200 200 100 c (str "/elcache") true true
    (Some (sdk_encode_u32 ELCACHE_PROTO_MAGIC ++ replicate 28 x00)) c1 (OPut (str "k") (str "v") None)).
  - reflexivity.
  - reflexivity.
  - reflexivity.
  - lia.
  - repeat constructor; vm_compute; congruence.
Defined.
