(* ===== verification/SdkResources.v ===== *)
(** * What the C SDK owns: [src/sdk/elcache_client.c]

    [SdkClient.v] models the values the client computes; this file models what it acquires and gives
    back: heap blocks, descriptors and mappings. The functions are those of the source that call
    [malloc], [realloc], [free], [socket], [shm_open], [close], [mmap] and [munmap], with the results of
    these calls as arguments; giving back what is not held is undefined. *)

From S2P Require Import Prelude SdkClient.
Open Scope Z_scope.

(** ** Pools of resources *)

(** Blocks, descriptors or mappings of the process: the live ones, and a name not used before. *)
Record Pool := mkPool { pool_live : gset nat; pool_next : nat }.

Definition acquire (p : Pool) : nat * Pool := (pool_next p, mkPool ({[pool_next p]} ∪ pool_live p) (S (pool_next p))).

Definition release (x : nat) (p : Pool) : outcome Pool :=
  if bool_decide (x ∈ pool_live p) then Done (mkPool (pool_live p ∖ {[x]}) (pool_next p)) else Undef.

(** A call that may fail. *)
Definition try_acquire (ok : bool) (p : Pool) : option nat * Pool :=
  if ok then let '(x, p') := acquire p in (Some x, p') else (None, p).

(** [free(NULL)] does nothing. *)
Definition release_opt (x : option nat) (p : Pool) : outcome Pool :=
  match x with Some x => release x p | None => Done p end.

Record Res := mkRes { rs_heap : Pool; rs_fds : Pool; rs_maps : Pool }.

Definition with_heap (r : Res) (p : Pool) : Res := mkRes p (rs_fds r) (rs_maps r).
Definition with_fds (r : Res) (p : Pool) : Res := mkRes (rs_heap r) p (rs_maps r).
Definition with_maps (r : Res) (p : Pool) : Res := mkRes (rs_heap r) (rs_fds r) p.

(** ** The client *)

(** The pointers and the descriptor of [struct elcache_client], and the block of the structure itself. *)
Record Handle := mkHandle {
  hd_self : nat;
  hd_fd : option nat;
  hd_shm : option nat;
  hd_recv : nat;
  hd_send : nat
}.

Definition hd_with_fd (h : Handle) (fd : option nat) : Handle := mkHandle (hd_self h) fd (hd_shm h) (hd_recv h) (hd_send h).
Definition hd_with_shm (h : Handle) (m : option nat) : Handle := mkHandle (hd_self h) (hd_fd h) m (hd_recv h) (hd_send h).

Definition client_create (client_ok recv_ok send_ok : bool) (r : Res) : outcome (option Handle * Res) :=
  let '(client, heap) := try_acquire client_ok (rs_heap r) in
  match client with
  | None => Done (None, with_heap r heap)
  | Some client =>
      let '(recv_buffer, heap) := try_acquire recv_ok heap in
      let '(send_buffer, heap) := try_acquire send_ok heap in
      match recv_buffer, send_buffer with
      | Some recv_buffer, Some send_buffer =>
          Done (Some (mkHandle client None None recv_buffer send_buffer), with_heap r heap)
      | _, _ =>
          heap ← release_opt recv_buffer heap;
          heap ← release_opt send_buffer heap;
          heap ← release client heap;
          Done (None, with_heap r heap)
      end
  end.

Definition client_disconnect (h : Handle) (r : Res) : outcome (Handle * Res) :=
  fds ← release_opt (hd_fd h) (rs_fds r);
  maps ← release_opt (hd_shm h) (rs_maps r);
  Done (hd_with_shm (hd_with_fd h None) None, mkRes (rs_heap r) fds maps).

Definition client_destroy (h : option Handle) (r : Res) : outcome Res :=
  match h with
  | None => Done r
  | Some h =>
      '(h, r) ← client_disconnect h r;
      heap ← release (hd_recv h) (rs_heap r);
      heap ← release (hd_send h) heap;
      heap ← release (hd_self h) heap;
      Done (with_heap r heap)
  end.

(** [path] tells whether the argument is not null, [made] and [connected] whether [socket] and
    [connect] succeed. *)
Definition client_connect_unix (path made connected : bool) (h : Handle) (r : Res) : outcome (elcache_error * Handle * Res) :=
  if negb path then Done (ELCACHE_ERR_INVALID_ARG, h, r)
  else
    '(h, r) ← client_disconnect h r;
    let '(fd, fds) := try_acquire made (rs_fds r) in
    match fd with
    | None => Done (ELCACHE_ERR_CONNECTION, h, with_fds r fds)
    | Some fd =>
        if negb connected then
          fds ← release fd fds;
          Done (ELCACHE_ERR_CONNECTION, h, with_fds r fds)
        else Done (ELCACHE_OK, hd_with_fd h (Some fd), with_fds r fds)
    end.

(** Whether [shm_open], [fstat] and [mmap] succeed, and whether the header has the magic number. *)
Definition client_connect_shm (path opened stat_ok mapped magic_ok : bool) (h : Handle) (r : Res)
  : outcome (elcache_error * Handle * Res) :=
  if negb path then Done (ELCACHE_ERR_INVALID_ARG, h, r)
  else
    '(h, r) ← client_disconnect h r;
    let '(fd, fds) := try_acquire opened (rs_fds r) in
    match fd with
    | None => Done (ELCACHE_ERR_CONNECTION, h, with_fds r fds)
    | Some fd =>
        if negb stat_ok then
          fds ← release fd fds;
          Done (ELCACHE_ERR_CONNECTION, h, with_fds r fds)
        else
          let '(shm_ptr, maps) := try_acquire mapped (rs_maps r) in
          fds ← release fd fds;
          let r := mkRes (rs_heap r) fds maps in
          match shm_ptr with
          | None => Done (ELCACHE_ERR_CONNECTION, h, r)
          | Some m =>
              if negb magic_ok then
                maps ← release m (rs_maps r);
                Done (ELCACHE_ERR_PROTOCOL, h, with_maps r maps)
              else Done (ELCACHE_OK, hd_with_shm h (Some m), r)
          end
    end.

(** [realloc]: a new block for the old one, or nothing changes. *)
Definition reallocate (ok : bool) (old : nat) (p : Pool) : outcome (option nat * Pool) :=
  if ok then let '(x, p) := acquire p in p ← release old p; Done (Some x, p) else Done (None, p).

Definition client_set_recv_buffer (size : Z) (ok : bool) (h : Handle) (r : Res) : outcome (Handle * Res) :=
  if 0 <? size then
    '(new_buf, heap) ← reallocate ok (hd_recv h) (rs_heap r);
    Done (match new_buf with Some b => mkHandle (hd_self h) (hd_fd h) (hd_shm h) b (hd_send h) | None => h end, with_heap r heap)
  else Done (h, r).

Definition client_set_send_buffer (size : Z) (ok : bool) (h : Handle) (r : Res) : outcome (Handle * Res) :=
  if 0 <? size then
    '(new_buf, heap) ← reallocate ok (hd_send h) (rs_heap r);
    Done (match new_buf with Some b => mkHandle (hd_self h) (hd_fd h) (hd_shm h) (hd_recv h) b | None => h end, with_heap r heap)
  else Done (h, r).

Definition found (err : elcache_error) : bool := bool_decide (err = ELCACHE_OK \/ err = ELCACHE_ERR_PARTIAL).

(** The block [elcache_client_get_alloc] hands out; [err1] and [err2] are what the two calls of
    [elcache_client_get] return, [ok] whether the [malloc] between them succeeds. *)
Definition get_alloc_block (args : bool) (err1 : elcache_error) (ok : bool) (err2 : elcache_error) (r : Res)
  : outcome (elcache_error * option nat * Res) :=
  if negb args then Done (ELCACHE_ERR_INVALID_ARG, None, r)
  else if found err1 then
    let '(value, heap) := try_acquire ok (rs_heap r) in
    Done (match value with Some _ => err1 | None => ELCACHE_ERR_OUT_OF_MEMORY end, value, with_heap r heap)
  else if bool_decide (err1 = ELCACHE_ERR_BUFFER_TOO_SMALL) then
    let '(buf, heap) := try_acquire ok (rs_heap r) in
    match buf with
    | None => Done (ELCACHE_ERR_OUT_OF_MEMORY, None, with_heap r heap)
    | Some buf =>
        if found err2 then Done (err2, Some buf, with_heap r heap)
        else heap ← release buf heap; Done (err2, None, with_heap r heap)
    end
  else Done (err1, None, r).

Definition elcache_free (ptr : option nat) (r : Res) : outcome Res :=
  heap ← release_opt ptr (rs_heap r); Done (with_heap r heap).

(** The structures of the streaming interface; no function of the library makes one. *)
Record write_stream_ptr := mkWriteStream { wst_self : nat; wst_key : option nat }.
Record read_stream_ptr := mkReadStreamPtr { rst_self : nat; rst_buffer : option nat }.

Definition elcache_write_stream_abort (s : option write_stream_ptr) (r : Res) : outcome Res :=
  match s with
  | None => Done r
  | Some s => heap ← release_opt (wst_key s) (rs_heap r); heap ← release (wst_self s) heap; Done (with_heap r heap)
  end.

Definition elcache_read_stream_close (s : option read_stream_ptr) (r : Res) : outcome Res :=
  match s with
  | None => Done r
  | Some s => heap ← release_opt (rst_buffer s) (rs_heap r); heap ← release (rst_self s) heap; Done (with_heap r heap)
  end.

(** The two arrays of [elcache_availability_t] with their counts. *)
Record availability := mkAvail { avl_available : option nat; avl_available_count : Z; avl_missing : option nat; avl_missing_count : Z }.

Definition elcache_availability_free (a : option availability) (r : Res) : outcome (option availability * Res) :=
  match a with
  | None => Done (None, r)
  | Some a =>
      heap ← release_opt (avl_available a) (rs_heap r);
      heap ← release_opt (avl_missing a) heap;
      Done (Some (mkAvail None 0 None 0), with_heap r heap)
  end.

(** ** The life of a client *)

(** What a program does with a client between [create] and [destroy]; it may give back the values it
    was handed, each once. *)
Inductive SdkEvent :=
| VConnectUnix (path made connected : bool)
| VConnectShm (path opened stat_ok mapped magic_ok : bool)
| VDisconnect
| VSetRecvBuffer (size : Z) (ok : bool)
| VSetSendBuffer (size : Z) (ok : bool)
| VGetAlloc (args : bool) (err1 : elcache_error) (ok : bool) (err2 : elcache_error)
| VFree (i : nat).

(** The client, the values in the hands of the program, the process. *)
Record Life := mkLife { lf_client : Handle; lf_values : list nat; lf_res : Res }.

Definition life_step (s : Life) (e : SdkEvent) : outcome Life :=
  let '(mkLife h vals r) := s in
  match e with
  | VConnectUnix path made connected =>
      '(_, h', r') ← client_connect_unix path made connected h r; Done (mkLife h' vals r')
  | VConnectShm path opened stat_ok mapped magic_ok =>
      '(_, h', r') ← client_connect_shm path opened stat_ok mapped magic_ok h r; Done (mkLife h' vals r')
  | VDisconnect => '(h', r') ← client_disconnect h r; Done (mkLife h' vals r')
  | VSetRecvBuffer size ok => '(h', r') ← client_set_recv_buffer size ok h r; Done (mkLife h' vals r')
  | VSetSendBuffer size ok => '(h', r') ← client_set_send_buffer size ok h r; Done (mkLife h' vals r')
  | VGetAlloc args err1 ok err2 =>
      '(_, v, r') ← get_alloc_block args err1 ok err2 r; Done (mkLife h (option_list v ++ vals) r')
  | VFree i =>
      match vals !! i with
      | None => Done s
      | Some v => r' ← elcache_free (Some v) r; Done (mkLife h (delete i vals) r')
      end
  end.

Fixpoint life_run (s : Life) (es : list SdkEvent) : outcome Life :=
  match es with
  | [] => Done s
  | e :: es' => s' ← life_step s e; life_run s' es'
  end.

(** ** Ownership *)

(** The live resources are those of the rest of the process, [base], and those owned, each once. *)
Record holds (base : gset nat) (own : list nat) (p : Pool) : Prop := {
  ho_live : pool_live p = base ∪ list_to_set own;
  ho_once : NoDup own;
  ho_apart : base ## list_to_set own;
  ho_fresh : forall x, x ∈ pool_live p -> (x < pool_next p)%nat
}.

Lemma holds_acquire base own p : holds base own p -> exists x p', acquire p = (x, p') /\ holds base (x :: own) p'.
Proof.
  intros [Hl Hn Ha Hf]. eexists _, _. split; [done|].
  assert (pool_next p ∉ pool_live p) as Hx by (intros Hx%Hf; lia). rewrite Hl in Hx. split; cbn [pool_live pool_next list_to_set].
  - set_solver.
  - constructor; [|done]. intros Hin. apply Hx. set_solver.
  - set_solver.
  - intros x [->%elem_of_singleton|Hin%Hf]%elem_of_union; lia.
Qed.

Lemma holds_try base own p ok :
  holds base own p -> exists x p', try_acquire ok p = (x, p') /\ holds base (option_list x ++ own) p' /\ (ok = true <-> is_Some x).
Proof.
  intros Hp. unfold try_acquire. destruct ok.
  - destruct (holds_acquire base own p Hp) as (x & p' & -> & Hp'). by exists (Some x), p'.
  - exists None, p. split_and!; [done..|]. split; [done|by intros [? ?]].
Qed.

Lemma holds_perm base own own' p : own ≡ₚ own' -> holds base own p -> holds base own' p.
Proof.
  intros Hp [Hl Hn Ha Hf]. assert (list_to_set own = (list_to_set own' : gset nat)) as E by (apply set_eq; intros x; by rewrite !elem_of_list_to_set, Hp).
  split; [by rewrite <- E|by rewrite <- Hp|by rewrite <- E|done].
Qed.

#[global] Instance holds_proper base : Proper (Permutation ==> eq ==> iff) (holds base).
Proof. intros own own' Hp p p' <-. split; by apply holds_perm. Qed.

Lemma holds_release base x own p : holds base (x :: own) p -> exists p', release x p = Done p' /\ holds base own p'.
Proof.
  intros [Hl Hn Ha Hf]. unfold release. rewrite bool_decide_true by set_solver. eexists. split; [done|].
  apply NoDup_cons in Hn as [Hx Hn]. split; cbn [pool_live pool_next]; [|done|set_solver|set_solver].
  rewrite Hl. cbn [list_to_set]. apply set_eq. intros y. rewrite elem_of_difference, !elem_of_union, elem_of_singleton.
  rewrite elem_of_list_to_set. split; [tauto|]. intros Hy. split; [tauto|]. intros ->. destruct Hy as [Hb|?]; [|done].
  apply (Ha x Hb). cbn. set_solver.
Qed.

Lemma holds_release_opt base x own p :
  holds base (option_list x ++ own) p -> exists p', release_opt x p = Done p' /\ holds base own p'.
Proof. destruct x as [x|]; cbn; [apply holds_release|]. intros Hp. by exists p. Qed.

Definition own_blocks (h : Handle) (vals : list nat) : list nat := hd_self h :: hd_recv h :: hd_send h :: vals.

Record life_ok (bh bf bm : gset nat) (s : Life) : Prop := {
  lo_heap : holds bh (own_blocks (lf_client s) (lf_values s)) (rs_heap (lf_res s));
  lo_fds : holds bf (option_list (hd_fd (lf_client s))) (rs_fds (lf_res s));
  lo_maps : holds bm (option_list (hd_shm (lf_client s))) (rs_maps (lf_res s))
}.

Lemma disconnect_ok bh bf bm h vals r :
  life_ok bh bf bm (mkLife h vals r) ->
  exists h' r', client_disconnect h r = Done (h', r') /\ life_ok bh bf bm (mkLife h' vals r') /\
    hd_fd h' = None /\ hd_shm h' = None.
Proof.
  intros [Hh Hf Hm]. unfold client_disconnect. cbn in *.
  destruct (holds_release_opt bf (hd_fd h) [] (rs_fds r)) as (fds & -> & Hf'); [by rewrite app_nil_r|]. cbn [mbind outcome_bind].
  destruct (holds_release_opt bm (hd_shm h) [] (rs_maps r)) as (maps & -> & Hm'); [by rewrite app_nil_r|].
  eexists _, _. split; [done|]. by split.
Qed.

Lemma connect_unix_ok bh bf bm path made connected h vals r :
  life_ok bh bf bm (mkLife h vals r) ->
  exists e h' r', client_connect_unix path made connected h r = Done (e, h', r') /\ life_ok bh bf bm (mkLife h' vals r').
Proof.
  intros Hok. unfold client_connect_unix. destruct path; cbn [negb]; [|by eexists _, _, _].
  destruct (disconnect_ok _ _ _ _ _ _ Hok) as (h1 & r1 & -> & [Hh Hf Hm] & Ef & Em). cbn [mbind outcome_bind]. cbn in Hh, Hf, Hm.
  rewrite Ef in Hf. destruct (holds_try _ _ _ made Hf) as ([fd|] & fds & -> & Hf' & _).
  - destruct connected; cbn [negb].
    + eexists _, _, _. split; [done|]. by split.
    + cbn in Hf'. destruct (holds_release _ _ _ _ Hf') as (fds' & -> & Hf2). eexists _, _, _. split; [done|]. split; cbn; try done. by rewrite Ef.
  - eexists _, _, _. split; [done|]. split; cbn; try done. by rewrite Ef.
Qed.

Lemma connect_shm_ok bh bf bm path opened stat_ok mapped magic_ok h vals r :
  life_ok bh bf bm (mkLife h vals r) ->
  exists e h' r', client_connect_shm path opened stat_ok mapped magic_ok h r = Done (e, h', r') /\
    life_ok bh bf bm (mkLife h' vals r').
Proof.
  intros Hok. unfold client_connect_shm. destruct path; cbn [negb]; [|by eexists _, _, _].
  destruct (disconnect_ok _ _ _ _ _ _ Hok) as (h1 & r1 & -> & [Hh Hf Hm] & Ef & Em). cbn [mbind outcome_bind]. cbn in Hh, Hf, Hm.
  rewrite Ef in Hf. destruct (holds_try _ _ _ opened Hf) as ([fd|] & fds & -> & Hf' & _); cbn in Hf'.
  2: { eexists _, _, _. split; [done|]. split; cbn; try done. by rewrite Ef. }
  destruct (holds_release _ _ _ _ Hf') as (fds' & Efd & Hf2). destruct stat_ok; cbn [negb].
  2: { rewrite Efd. eexists _, _, _. split; [done|]. split; cbn; try done. by rewrite Ef. }
  pose proof Hm as Hm0. rewrite Em in Hm. destruct (holds_try _ _ _ mapped Hm) as ([m|] & maps & -> & Hm' & _);
    rewrite Efd; cbn [mbind outcome_bind]; cbn in Hm'.
  - destruct magic_ok; cbn [negb].
    + eexists _, _, _. split; [done|]. split; cbn; try done. by rewrite Ef.
    + destruct (holds_release _ _ _ _ Hm') as (maps' & Emp & Hm2). cbn [rs_maps]. rewrite Emp. eexists _, _, _. split; [done|].
      split; cbn; [done|by rewrite Ef|by rewrite Em].
  - eexists _, _, _. split; [done|]. split; cbn; [done|by rewrite Ef|by rewrite Em].
Qed.

Lemma reallocate_ok base ok old own p :
  holds base (old :: own) p -> exists x p', reallocate ok old p = Done (x, p') /\ holds base (default old x :: own) p'.
Proof.
  intros Hp. unfold reallocate. destruct ok; [|by exists None, p]. destruct (holds_acquire _ _ _ Hp) as (x & p1 & -> & Hp1).
  destruct (holds_release base old (x :: own) p1) as (p2 & -> & Hp2); [by eapply holds_perm; [apply Permutation_swap|]|].
  by exists (Some x), p2.
Qed.

Lemma get_alloc_ok base args err1 ok err2 own r :
  holds base own (rs_heap r) ->
  exists e v r', get_alloc_block args err1 ok err2 r = Done (e, v, r') /\ holds base (option_list v ++ own) (rs_heap r') /\
    rs_fds r' = rs_fds r /\ rs_maps r' = rs_maps r.
Proof.
  intros Hh. unfold get_alloc_block. destruct args; cbn [negb]; [|by eexists _, None, _].
  destruct (holds_try base own (rs_heap r) ok Hh) as (x & heap & -> & Hh' & _). destruct (found err1); [by eexists _, _, _|].
  case_bool_decide; [|by eexists _, None, _]. destruct x as [buf|]; [|by eexists _, None, _].
  destruct (found err2); [by eexists _, (Some buf), _|]. cbn in Hh'. destruct (holds_release _ _ _ _ Hh') as (heap' & -> & Hh2).
  by eexists _, None, _.
Qed.

Lemma own_blocks_recv h vals : own_blocks h vals ≡ₚ hd_recv h :: hd_self h :: hd_send h :: vals.
Proof. apply Permutation_swap. Qed.

Lemma own_blocks_send h vals : own_blocks h vals ≡ₚ hd_send h :: hd_self h :: hd_recv h :: vals.
Proof. unfold own_blocks. solve_Permutation. Qed.

Lemma own_blocks_values h l vals : own_blocks h (l ++ vals) ≡ₚ l ++ own_blocks h vals.
Proof. unfold own_blocks. solve_Permutation. Qed.

Lemma life_step_ok bh bf bm s e : life_ok bh bf bm s -> exists s', life_step s e = Done s' /\ life_ok bh bf bm s'.
Proof.
  destruct s as [h vals r]. intros Hok. pose proof Hok as [Hh Hf Hm]. cbn in Hh, Hf, Hm.
  destruct e as [path made connected|path opened stat_ok mapped magic_ok| |size ok|size ok|args err1 ok err2|i]; cbn [life_step].
  - destruct (connect_unix_ok _ _ _ path made connected _ _ _ Hok) as (e & h' & r' & -> & Hok'). by eexists.
  - destruct (connect_shm_ok _ _ _ path opened stat_ok mapped magic_ok _ _ _ Hok) as (e & h' & r' & -> & Hok'). by eexists.
  - destruct (disconnect_ok _ _ _ _ _ _ Hok) as (h' & r' & -> & Hok' & _). by eexists.
  - unfold client_set_recv_buffer. destruct (0 <? size); [|by eexists]. rewrite own_blocks_recv in Hh.
    destruct (reallocate_ok _ ok _ _ _ Hh) as (x & p & -> & Hp). eexists. split; [done|].
    destruct x as [x|]; split; cbn; try done; by rewrite own_blocks_recv.
  - unfold client_set_send_buffer. destruct (0 <? size); [|by eexists]. rewrite own_blocks_send in Hh.
    destruct (reallocate_ok _ ok _ _ _ Hh) as (x & p & -> & Hp). eexists. split; [done|].
    destruct x as [x|]; split; cbn; try done; by rewrite own_blocks_send.
  - destruct (get_alloc_ok _ args err1 ok err2 _ _ Hh) as (e & v & r' & -> & Hh' & Ef & Em). eexists. split; [done|].
    split; cbn; rewrite ?Ef, ?Em; try done. by rewrite own_blocks_values.
  - destruct (vals !! i) as [v|] eqn:Ev; [|by eexists]. unfold elcache_free. cbn [release_opt].
    assert (own_blocks h vals ≡ₚ v :: own_blocks h (delete i vals)) as Hp.
    { etrans; [|apply (own_blocks_values h [v])]. unfold own_blocks. do 3 f_equiv. by apply delete_Permutation. }
    rewrite Hp in Hh. destruct (holds_release _ _ _ _ Hh) as (p & -> & Hh'). eexists. split; [done|]. by split.
Qed.

Lemma life_run_ok bh bf bm es : forall s, life_ok bh bf bm s -> exists s', life_run s es = Done s' /\ life_ok bh bf bm s'.
Proof.
  induction es as [|e es IH]; intros s Hok; [by exists s|]. cbn [life_run].
  destruct (life_step_ok _ _ _ s e Hok) as (s1 & -> & Hok1). by apply IH.
Qed.

(** The names the process hands out are new ones. *)
Definition res_ok (r : Res) : Prop :=
  forall p, p ∈ [rs_heap r; rs_fds r; rs_maps r] -> forall x, x ∈ pool_live p -> (x < pool_next p)%nat.

Lemma holds_all p : (forall x, x ∈ pool_live p -> (x < pool_next p)%nat) -> holds (pool_live p) [] p.
Proof. intros Hp. split; [set_solver|constructor|set_solver|done]. Qed.

Lemma create_ok client_ok recv_ok send_ok r :
  res_ok r ->
  exists h r', client_create client_ok recv_ok send_ok r = Done (h, r') /\ rs_fds r' = rs_fds r /\ rs_maps r' = rs_maps r /\
    (is_Some h <-> client_ok && recv_ok && send_ok = true) /\
    match h with
    | None => pool_live (rs_heap r') = pool_live (rs_heap r)
    | Some h => life_ok (pool_live (rs_heap r)) (pool_live (rs_fds r)) (pool_live (rs_maps r)) (mkLife h [] r')
    end.
Proof.
  intros Hr. unfold client_create. assert (holds (pool_live (rs_heap r)) [] (rs_heap r)) as H0 by (apply holds_all, Hr; set_solver).
  destruct (holds_try _ _ _ client_ok H0) as ([cl|] & h1 & -> & H1 & S1); cbn in H1.
  2: { eexists None, _. do 3 (split; [done|]). split; [|cbn; rewrite (ho_live _ _ _ H1); set_solver].
       destruct client_ok; [by destruct S1 as [[? ?] _]|]. split; [by intros [? ?]|done]. }
  destruct (holds_try _ _ _ recv_ok H1) as (x & h2 & -> & H2 & S2).
  destruct (holds_try _ _ _ send_ok H2) as (y & h3 & -> & H3 & S3).
  destruct client_ok; [|by destruct S1 as [_ S1]; specialize (S1 (ex_intro _ _ eq_refl))].
  assert (is_Some x /\ is_Some y <-> recv_ok && send_ok = true) as Hiff by (rewrite andb_true_iff, S2, S3; tauto).
  assert (forall x y, holds (pool_live (rs_heap r)) (option_list y ++ option_list x ++ [cl]) h3 ->
    exists h', ('(heap) ← release_opt x h3; heap ← release_opt y heap; heap ← release cl heap;
      Done (@None Handle, with_heap r heap)) = Done (None, with_heap r h') /\ pool_live h' = pool_live (rs_heap r)) as Hundo.
  { clear. intros x y H3. assert (holds (pool_live (rs_heap r)) (option_list x ++ option_list y ++ [cl]) h3) as H3'
      by (eapply holds_perm; [|exact H3]; solve_Permutation).
    destruct (holds_release_opt _ _ _ _ H3') as (p1 & -> & Q1). cbn [mbind outcome_bind].
    destruct (holds_release_opt _ _ _ _ Q1) as (p2 & -> & Q2). cbn [mbind outcome_bind].
    destruct (holds_release _ _ _ _ Q2) as (p3 & -> & Q3). exists p3. split; [done|]. rewrite (ho_live _ _ _ Q3). set_solver. }
  destruct x as [x|], y as [y|].
  - eexists (Some _), _. do 3 (split; [done|]). split; [cbn [andb]; rewrite <- Hiff; done|]. split; cbn; [|apply holds_all, Hr; set_solver..].
    eapply holds_perm; [|exact H3]. unfold own_blocks. cbn. solve_Permutation.
  - destruct (Hundo (Some x) None H3) as (h' & -> & Hl). eexists None, _. do 3 (split; [done|]).
    split; [|done]. cbn [andb]. rewrite <- Hiff. split; [by intros [? ?]|by intros [_ [? ?]]].
  - destruct (Hundo None (Some y) H3) as (h' & -> & Hl). eexists None, _. do 3 (split; [done|]).
    split; [|done]. cbn [andb]. rewrite <- Hiff. split; [by intros [? ?]|by intros [[? ?] _]].
  - destruct (Hundo None None H3) as (h' & -> & Hl). eexists None, _. do 3 (split; [done|]).
    split; [|done]. cbn [andb]. rewrite <- Hiff. split; [by intros [? ?]|by intros [[? ?] _]].
Qed.

Lemma destroy_ok bh bf bm h vals r :
  life_ok bh bf bm (mkLife h vals r) ->
  exists r', client_destroy (Some h) r = Done r' /\ holds bh vals (rs_heap r') /\
    pool_live (rs_fds r') = bf /\ pool_live (rs_maps r') = bm.
Proof.
  intros Hok. unfold client_destroy. destruct (disconnect_ok _ _ _ _ _ _ Hok) as (h1 & r1 & -> & [Hh Hf Hm] & Ef & Em).
  cbn [mbind outcome_bind]. cbn in Hh, Hf, Hm. rewrite own_blocks_recv in Hh.
  destruct (holds_release _ _ _ _ Hh) as (p1 & -> & H1). cbn [mbind outcome_bind].
  eapply holds_perm in H1; [|apply Permutation_swap]. destruct (holds_release _ _ _ _ H1) as (p2 & -> & H2). cbn [mbind outcome_bind].
  destruct (holds_release _ _ _ _ H2) as (p3 & -> & H3). eexists. split; [done|]. cbn. split; [done|].
  rewrite (ho_live _ _ _ Hf), (ho_live _ _ _ Hm), Ef, Em. cbn. split; set_solver.
Qed.

(** ** The two views of a connection *)

(** A client of [SdkClient.v] and its resources: a socket is there when a descriptor is held, a
    shared memory when a mapping is. *)
Definition tracks (h : Handle) (c : Client) : Prop :=
  bool_decide (is_Some (hd_fd h)) = bool_decide (is_Some (cl_sock c)) /\
  bool_decide (is_Some (hd_shm h)) = bool_decide (is_Some (cl_shm c)).

Lemma connect_unix_tracks bh bf bm h vals r c path made peer :
  life_ok bh bf bm (mkLife h vals r) -> exists h' r',
    client_connect_unix true made (bool_decide (is_Some peer)) h r = Done ((elcache_client_connect_unix c (Some path) made peer).1, h', r') /\
    tracks h' (elcache_client_connect_unix c (Some path) made peer).2.
Proof.
  intros Hok. unfold client_connect_unix. cbn [negb]. destruct (disconnect_ok _ _ _ _ _ _ Hok) as (h1 & r1 & -> & [_ Hf _] & Ef & Em).
  cbn [mbind outcome_bind]. cbn in Hf. rewrite Ef in Hf. destruct (holds_try _ _ _ made Hf) as (fd & fds & -> & Hf' & Hfd).
  unfold elcache_client_connect_unix, tracks. destruct made; cbn [negb].
  - destruct (proj1 Hfd eq_refl) as [x ->]. destruct peer as [k|].
    + eexists _, _. split; [done|]. cbn. by rewrite Em.
    + cbn in Hf'. rewrite bool_decide_false by by intros [? ?]. destruct (holds_release _ _ _ _ Hf') as (p & -> & _).
      eexists _, _. split; [done|]. cbn. by rewrite Ef, Em.
  - destruct fd as [x|]; [discriminate (proj2 Hfd (ex_intro _ _ eq_refl))|]. eexists _, _. split; [done|]. cbn. by rewrite Ef, Em.
Qed.

(** Here [magic_ok] is what the header of the mapping says; a mapping has at least the four bytes read. *)
Lemma connect_shm_tracks bh bf bm h vals r c path opened stat_ok mapped e c' :
  life_ok bh bf bm (mkLife h vals r) ->
  elcache_client_connect_shm c (Some path) opened stat_ok mapped = Done (e, c') ->
  exists magic_ok h' r', client_connect_shm true opened stat_ok (bool_decide (is_Some mapped)) magic_ok h r = Done (e, h', r') /\
    tracks h' c'.
Proof.
  intros Hok E. unfold client_connect_shm. cbn [negb].
  destruct (disconnect_ok _ _ _ _ _ _ Hok) as (h1 & r1 & -> & [_ Hf Hm] & Ef & Em). cbn [mbind outcome_bind]. cbn in Hf, Hm.
  rewrite Ef in Hf. rewrite Em in Hm. destruct (holds_try _ _ _ opened Hf) as (fd & fds & -> & Hf' & Hfd).
  unfold elcache_client_connect_shm in E. unfold tracks. destruct opened; cbn [negb] in E.
  2: { destruct fd as [x|]; [discriminate (proj2 Hfd (ex_intro _ _ eq_refl))|]. injection E as <- <-. exists false. eexists _, _.
       split; [done|]. cbn. by rewrite Ef, Em. }
  destruct (proj1 Hfd eq_refl) as [x ->]. cbn in Hf'. destruct (holds_release _ _ _ _ Hf') as (fds' & -> & _). destruct stat_ok; cbn [negb] in *.
  2: { injection E as <- <-. exists false. eexists _, _. split; [done|]. cbn. by rewrite Ef, Em. }
  destruct (holds_try _ _ _ (bool_decide (is_Some mapped)) Hm) as (m & maps & -> & Hm' & Hmp). rewrite bool_decide_eq_true in Hmp.
  cbn [mbind outcome_bind]. destruct mapped as [bytes_|].
  - destruct (proj1 Hmp (ex_intro _ _ eq_refl)) as [y ->]. apply outcome_bind_Done in E as (magic & _ & E).
    exists (magic =? ELCACHE_PROTO_MAGIC). cbn in Hm'. destruct (magic =? ELCACHE_PROTO_MAGIC); cbn [negb] in *; injection E as <- <-.
    + eexists _, _. split; [done|]. cbn. by rewrite Ef.
    + cbn [rs_maps]. destruct (holds_release _ _ _ _ Hm') as (p & -> & _). eexists _, _. split; [done|]. cbn. by rewrite Ef, Em.
  - destruct m as [y|]; [destruct (proj2 Hmp (ex_intro _ _ eq_refl)); discriminate|]. injection E as <- <-. exists false. eexists _, _.
    split; [done|]. cbn. by rewrite Ef, Em.
Qed.

(** ** Properties *)

(** C29: the SDK neither leaks nor gives back twice. From [create] to [destroy], with any connects,
    buffer changes, reads into allocated memory and values given back in between, and whatever
    [malloc], [realloc] and the system calls answer: nothing that is not held is ever freed, closed or
    unmapped, a failed [create] leaves the process as it was, and after [destroy] the process holds
    what it held before and the values the program has not given back, each in a block of its own. *)
Theorem sdk_no_leaks client_ok recv_ok send_ok r es :
  res_ok r ->
  exists h r1, client_create client_ok recv_ok send_ok r = Done (h, r1) /\
    (is_Some h <-> client_ok && recv_ok && send_ok = true) /\
    match h with
    | None => pool_live (rs_heap r1) = pool_live (rs_heap r) /\ rs_fds r1 = rs_fds r /\ rs_maps r1 = rs_maps r
    | Some h => exists s r2, life_run (mkLife h [] r1) es = Done s /\ client_destroy (Some (lf_client s)) (lf_res s) = Done r2 /\
        holds (pool_live (rs_heap r)) (lf_values s) (rs_heap r2) /\
        pool_live (rs_fds r2) = pool_live (rs_fds r) /\ pool_live (rs_maps r2) = pool_live (rs_maps r)
    end.
Proof.
  intros Hr. destruct (create_ok client_ok recv_ok send_ok r Hr) as (h & r1 & E & Ef & Em & Hiff & Hh).
  exists h, r1. split; [done|]. split; [done|]. destruct h as [h|]; [|done].
  destruct (life_run_ok _ _ _ es _ Hh) as ([h' vals r'] & Es & Hok). destruct (destroy_ok _ _ _ _ _ _ Hok) as (r2 & Ed & Hv & Hf & Hm).
  by exists (mkLife h' vals r'), r2.
Qed.

(** Freeing an availability report resets it: doing it twice does no more than doing it once. *)
Theorem availability_free_twice a r a1 r1 :
  elcache_availability_free a r = Done (a1, r1) -> elcache_availability_free a1 r1 = Done (a1, r1).
Proof.
  destruct a as [a|]; cbn; [|by intros [= <- <-]]. intros E. apply outcome_bind_Done in E as (p1 & _ & E).
  apply outcome_bind_Done in E as (p2 & _ & E). injection E as <- <-. done.
Qed.

(** ** Witnesses *)

Definition sample_res : Res := mkRes (mkPool {[3%nat]} 5) (mkPool {[0%nat; 1%nat; 2%nat]} 3) (mkPool ∅ 0).

Definition sample_life : list SdkEvent :=
  [VConnectUnix true true true; VSetRecvBuffer 100 true; VGetAlloc true ELCACHE_OK true ELCACHE_OK; VConnectShm true true true true false;
   VGetAlloc true ELCACHE_ERR_BUFFER_TOO_SMALL true ELCACHE_ERR_NOT_FOUND; VGetAlloc true ELCACHE_OK true ELCACHE_OK; VFree 1].

Lemma sdk_no_leaks_witness :
  exists h r1 s r2, client_create true true true sample_res = Done (Some h, r1) /\ life_run (mkLife h [] r1) sample_life = Done s /\
    client_destroy (Some (lf_client s)) (lf_res s) = Done r2 /\ pool_live (rs_fds r2) = pool_live (rs_fds sample_res).
Proof.
  destruct (sdk_no_leaks true true true sample_res sample_life) as (h & r1 & E & Hiff & H).
  - unfold res_ok, sample_res. cbn [rs_heap rs_fds rs_maps]. intros p Hp x Hx.
    repeat (apply elem_of_cons in Hp as [->|Hp]; [cbn [pool_live pool_next] in *; set_unfold in Hx; lia|]). set_solver.
  - destruct (proj2 Hiff eq_refl) as [h0 ->]. destruct H as (s & r2 & Es & Ed & _ & Hf & _). exists h0, r1, s, r2.
    split; [exact E|]. split; [exact Es|]. split; [exact Ed|exact Hf].
Defined.

Lemma availability_free_twice_witness :
  elcache_availability_free (Some (mkAvail None 0 None 0)) (with_heap sample_res (mkPool ∅ 5)) =
    Done (Some (mkAvail None 0 None 0), with_heap sample_res (mkPool ∅ 5)).
Proof.
  apply (availability_free_twice (Some (mkAvail (Some 3%nat) 1 None 0)) sample_res). by vm_compute.
Defined.
