(* ===== verification/Cluster.v ===== *)
(** * Cluster membership: [Connection], [ClusterNode], [Cluster] and [GossipProtocol]
      of [include/elcache/cluster.hpp] and [src/network/cluster.cpp]

    Connections are shared between the table of nodes and the coroutines that serve them: they live in
    a store and are named by their index. A connection is a [Conn] (the pieces that arrive, the bytes
    sent, the results of the coming writes) and its [connected_] flag. The results of the coming
    [tcp_connect] calls are part of the state, the clock is an argument. Coroutines are interleaved
    between two messages: [cluster_step] is the transition relation, one step being one message handled
    by one of the spawned handlers, one gossip round, one failure check, one accepted connection or one
    remote operation. [unordered_map] iteration order is that of [map_to_list]. *)

From S2P Require Import Prelude CStd CText CDouble Types Chunk CacheApi CacheTier Codec Coordinator HashRing SparseCache UnixServer.
From stdpp Require Import sorting.
Open Scope Z_scope.

(** ** [Connection] *)

Record Connection := mkConnection { cn_io : Conn; cn_connected : bool }.

(** The loops are those of the coroutine server, [write_stream] and [read_stream]: they count up and stop at
    the first failure. *)
Definition Connection_send (now_ms : Z) (c : Connection) (msg : Message) : outcome (Status * Connection) :=
  '(ok, io) ← write_stream (encode now_ms msg 0) (cn_io c);
  Done (if ok : bool then (make_ok, mkConnection io (cn_connected c))
        else (status_error NetworkError (str "Failed to send message"), mkConnection io false)).

(** [parse_header] is called outside the [try] block: a wrong magic number leaves by its exception. *)
Definition Connection_receive `{HH : Hasher} (c : Connection) : outcome (option Message * Connection) :=
  '(header, io1) ← read_stream HEADER_SIZE (cn_io c);
  match header with
  | None => Done (None, mkConnection io1 false)
  | Some header =>
      msg_header ← parse_header header;
      if negb (h_magic msg_header =? 0x454C4341) then Done (None, mkConnection io1 (cn_connected c))
      else
        '(body, io2) ← read_stream (h_length msg_header) io1;
        match body with
        | None => Done (None, mkConnection io2 false)
        | Some body =>
            match decode (header ++ body) with
            | Done (msg, _) => Done (Some msg, mkConnection io2 (cn_connected c))
            | Throw _ => Done (None, mkConnection io2 (cn_connected c))
            | Undef => Undef
            | Spin => Spin
            end
        end
  end.

Definition Connection_close (c : Connection) : Connection :=
  if cn_connected c then mkConnection (cn_io c) false else c.

(** ** [ClusterNode] *)

Record ClusterNode := mkNode { nd_info : NodeInfo; nd_connection : option nat }.

Definition ClusterNode_make (info : NodeInfo) : ClusterNode := mkNode info None.

Definition node_update (n : ClusterNode) (info : NodeInfo) : ClusterNode :=
  if ni_generation (nd_info n) <? ni_generation info then mkNode info (nd_connection n) else n.

Definition set_connection (n : ClusterNode) (conn : option nat) : ClusterNode := mkNode (nd_info n) conn.

Definition is_active (n : ClusterNode) : bool := ni_state (nd_info n) =? 2.

Definition available_memory (n : ClusterNode) : Z := ni_memory_capacity (nd_info n) -w ni_memory_used (nd_info n).
Definition available_disk (n : ClusterNode) : Z := ni_disk_capacity (nd_info n) -w ni_disk_used (nd_info n).

(** ** [Cluster] *)

(** The fields of [Config] the cluster reads, and what memory held where the constructor of [Cluster] leaves two
    members of its [NodeInfo] uninitialised. *)
Record ClusterConfig := mkClusterConfig {
  kc_bind_address : bytes;
  kc_cluster_port : Z;
  kc_memory_max_size : Z;
  kc_disk_max_size : Z;
  kc_cluster_name : bytes;
  kc_seed_nodes : list bytes;
  kc_failure_detection_timeout : Z;
  kc_gossip_fanout : Z;
  kc_replication_factor : Z;
  kc_virtual_nodes : Z;
  kc_stray_memory_used : Z;
  kc_stray_disk_used : Z
}.

(** [local_node_] is the entry of [k_local] in the table. [k_tasks]: the spawned [handle_connection]
    coroutines, by connection, and whether the first message is still to come. [k_events]: the calls of
    the registered callbacks. *)
Record Cluster := mkCluster {
  k_local : NodeId;
  k_nodes : gmap NodeId ClusterNode;
  k_ring : HashRing;
  k_conns : list Connection;
  k_net : list (option Conn);
  k_tasks : list (nat * bool);
  k_callbacks : list Z;
  k_events : list (Z * NodeId * bool);
  k_running : bool;
  k_last_heard : gmap NodeId Z
}.

Definition with_nodes (c : Cluster) (nodes : gmap NodeId ClusterNode) : Cluster :=
  mkCluster (k_local c) nodes (k_ring c) (k_conns c) (k_net c) (k_tasks c) (k_callbacks c) (k_events c) (k_running c) (k_last_heard c).

Definition with_conns (c : Cluster) (conns : list Connection) : Cluster :=
  mkCluster (k_local c) (k_nodes c) (k_ring c) conns (k_net c) (k_tasks c) (k_callbacks c) (k_events c) (k_running c) (k_last_heard c).

Definition with_net (c : Cluster) (net : list (option Conn)) : Cluster :=
  mkCluster (k_local c) (k_nodes c) (k_ring c) (k_conns c) net (k_tasks c) (k_callbacks c) (k_events c) (k_running c) (k_last_heard c).

Definition with_tasks (c : Cluster) (tasks : list (nat * bool)) : Cluster :=
  mkCluster (k_local c) (k_nodes c) (k_ring c) (k_conns c) (k_net c) tasks (k_callbacks c) (k_events c) (k_running c) (k_last_heard c).

Definition with_running (c : Cluster) (running : bool) : Cluster :=
  mkCluster (k_local c) (k_nodes c) (k_ring c) (k_conns c) (k_net c) (k_tasks c) (k_callbacks c) (k_events c) running (k_last_heard c).

Definition with_last_heard (c : Cluster) (heard : gmap NodeId Z) : Cluster :=
  mkCluster (k_local c) (k_nodes c) (k_ring c) (k_conns c) (k_net c) (k_tasks c) (k_callbacks c) (k_events c) (k_running c) heard.

Section cluster.
Context `{HH : Hasher} (cfg : ClusterConfig).

(** [id] is what [NodeId::generate] returned; [memory_used] and [disk_used] are never set. *)
Definition local_info (id : NodeId) : NodeInfo :=
  mkNodeInfo id (kc_bind_address cfg) (kc_cluster_port cfg) (kc_memory_max_size cfg) (kc_stray_memory_used cfg)
    (kc_disk_max_size cfg) (kc_stray_disk_used cfg) 1 2 0.

Definition Cluster_make (id : NodeId) : Cluster :=
  mkCluster id {[id := ClusterNode_make (local_info id)]} (add_node (HashRing_make (kc_virtual_nodes cfg)) id)
    [] [] [] [] [] false ∅.

Definition get_node (c : Cluster) (id : NodeId) : option ClusterNode := k_nodes c !! id.

Definition all_nodes (c : Cluster) : list ClusterNode := (map_to_list (k_nodes c)).*2.

Definition active_nodes (c : Cluster) : list ClusterNode := List.filter is_active (all_nodes c).

(** [routed]: the nodes of the table among the identifiers the ring gives. *)
Definition routed (c : Cluster) (ids : list NodeId) : list NodeId := List.filter (fun id => bool_decide (is_Some (get_node c id))) ids.

Definition route_count (count : Z) : Z := if count =? 0 then kc_replication_factor cfg else count.

Definition nodes_for_key (c : Cluster) (key : CacheKey) (count : Z) : outcome (list NodeId) :=
  ids ← get_nodes_key (k_ring c) key (route_count count); Done (routed c ids).

Definition nodes_for_chunk (c : Cluster) (chunk : ChunkId) (count : Z) : outcome (list NodeId) :=
  ids ← get_nodes_chunk (k_ring c) chunk (route_count count); Done (routed c ids).

Definition on_node_change (c : Cluster) (callback : Z) : Cluster :=
  mkCluster (k_local c) (k_nodes c) (k_ring c) (k_conns c) (k_net c) (k_tasks c) (k_callbacks c ++ [callback]) (k_events c)
    (k_running c) (k_last_heard c).

Definition notify_node_change (c : Cluster) (node : NodeId) (joined : bool) : Cluster :=
  mkCluster (k_local c) (k_nodes c) (k_ring c) (k_conns c) (k_net c) (k_tasks c) (k_callbacks c)
    (k_events c ++ ((fun cb => (cb, node, joined)) <$> k_callbacks c)) (k_running c) (k_last_heard c).

Definition handle_node_update (c : Cluster) (info : NodeInfo) : Cluster :=
  match k_nodes c !! ni_id info with
  | Some node => with_nodes c (<[ni_id info := node_update node info]> (k_nodes c))
  | None =>
      notify_node_change
        (mkCluster (k_local c) (<[ni_id info := ClusterNode_make info]> (k_nodes c)) (add_node (k_ring c) (ni_id info))
           (k_conns c) (k_net c) (k_tasks c) (k_callbacks c) (k_events c) (k_running c) (k_last_heard c))
        (ni_id info) true
  end.

(** [node->set_connection(conn)] on the object in the table. *)
Definition node_set_connection (c : Cluster) (id : NodeId) (conn : nat) : Cluster :=
  with_nodes c (alter (fun n => set_connection n (Some conn)) id (k_nodes c)).

(** A new [Connection] object. *)
Definition new_connection (c : Cluster) (io : Conn) : nat * Cluster :=
  (length (k_conns c), with_conns c (k_conns c ++ [mkConnection io true])).

(** [connect_to_node]: the next result of [tcp_connect]; no more results means failure. *)
Definition connect_to_node (c : Cluster) : option nat * Cluster :=
  match k_net c with
  | [] => (None, c)
  | None :: rest => (None, with_net c rest)
  | Some io :: rest => let '(k, c') := new_connection (with_net c rest) io in (Some k, c')
  end.

Definition connected_at (c : Cluster) (k : nat) : bool :=
  match k_conns c !! k with Some conn => cn_connected conn | None => false end.

Definition send_on (now_ms : Z) (c : Cluster) (k : nat) (msg : Message) : outcome (Status * Cluster) :=
  match k_conns c !! k with
  | None => Undef
  | Some conn => '(st, conn') ← Connection_send now_ms conn msg; Done (st, with_conns c (<[k := conn']> (k_conns c)))
  end.

Definition receive_on (c : Cluster) (k : nat) : outcome (option Message * Cluster) :=
  match k_conns c !! k with
  | None => Undef
  | Some conn => '(msg, conn') ← Connection_receive conn; Done (msg, with_conns c (<[k := conn']> (k_conns c)))
  end.

Definition close_on (c : Cluster) (k : nat) : Cluster := with_conns c (alter Connection_close k (k_conns c)).

(** ** Remote operations *)

(** The connection of a node, a new one when it has none or a dead one. *)
Definition ensure_connection (c : Cluster) (node : NodeId) : option nat * Cluster :=
  let current := get_node c node ≫= nd_connection in
  match current with
  | Some k => if connected_at c k then (Some k, c)
              else match connect_to_node c with
                   | (Some k', c') => (Some k', node_set_connection c' node k')
                   | (None, c') => (None, c')
                   end
  | None => match connect_to_node c with
            | (Some k', c') => (Some k', node_set_connection c' node k')
            | (None, c') => (None, c')
            end
  end.

(** How far a request got. *)
Inductive Exchange := NoConnection | SendFailed (status : Status) | Answered (response : option Message).

(** Connect, send, wait for the response: the same in all the remote operations. *)
Definition exchange (now_ms : Z) (c : Cluster) (node : NodeId) (msg : Message) : outcome (Exchange * Cluster) :=
  match ensure_connection c node with
  | (None, c') => Done (NoConnection, c')
  | (Some k, c') =>
      '(status, c2) ← send_on now_ms c' k msg;
      if negb (is_ok status) then Done (SendFailed status, c2)
      else '(response, c3) ← receive_on c2 k; Done (Answered response, c3)
  end.

Definition remote_get (now_ms : Z) (c : Cluster) (node : NodeId) (key : CacheKey) (opts : ReadOptions)
  : outcome (ReadResult * Cluster) :=
  '(r, c') ← exchange now_ms c node (GetMessage key false (ro_range opts));
  Done (match r with
        | Answered (Some (GetResponseMessage result metadata data actual_range)) => mkReadResult result data actual_range metadata
        | _ => ReadResult_default
        end, c').

Definition remote_put (now_ms : Z) (c : Cluster) (node : NodeId) (key : CacheKey) (value : bytes) (opts : WriteOptions)
  : outcome (Status * Cluster) :=
  '(r, c') ← exchange now_ms c node (PutMessage key value (wo_ttl opts) (wo_flags opts));
  Done (match r with
        | NoConnection => status_error NetworkError (str "Failed to connect")
        | SendFailed status => status
        | Answered (Some (PutResponseMessage code message)) =>
            if bool_decide (code = EOk) then make_ok else status_error code message
        | Answered _ => status_error NetworkError (str "Invalid response")
        end, c').

Definition remote_delete (now_ms : Z) (c : Cluster) (node : NodeId) (key : CacheKey) : outcome (Status * Cluster) :=
  '(r, c') ← exchange now_ms c node (DeleteMessage key);
  Done (match r with
        | NoConnection => status_error NetworkError (str "Failed to connect")
        | SendFailed status => status
        | Answered (Some (DeleteResponseMessage code _)) =>
            if bool_decide (code = EOk) then make_ok else status_error code (str "Delete failed")
        | Answered _ => status_error NetworkError (str "Invalid response")
        end, c').

Definition remote_check (now_ms : Z) (c : Cluster) (node : NodeId) (key : CacheKey) (range : option Range)
  : outcome (AvailabilityResult * Cluster) :=
  '(r, c') ← exchange now_ms c node (CheckMessage key range);
  Done (match r with
        | Answered (Some (CheckResponseMessage exists_ metadata available_ranges)) =>
            mkAvailability exists_ metadata available_ranges (av_missing_ranges AvailabilityResult_default)
        | _ => AvailabilityResult_default
        end, c').

Definition remote_get_chunk (now_ms : Z) (c : Cluster) (node : NodeId) (id : ChunkId) : outcome (SharedChunk * Cluster) :=
  '(r, c') ← exchange now_ms c node (GetChunkMessage id 0 0);
  Done (match r with
        | Answered (Some (GetChunkResponseMessage found data)) =>
            if negb found || bool_decide (data = []) then None else Some (Chunk_make data)
        | _ => None
        end, c').

Definition remote_put_chunk (now_ms : Z) (c : Cluster) (node : NodeId) (chunk : SharedChunk) : outcome (Status * Cluster) :=
  match chunk with
  | None => Done (status_error InvalidArgument (str "Null chunk"), c)
  | Some ch =>
      '(r, c') ← exchange now_ms c node (PutChunkMessage (Chunk_id ch).1 (chunk_data ch));
      Done (match r with
            | NoConnection => status_error NetworkError (str "Failed to connect")
            | SendFailed status => status
            | Answered (Some (PutChunkResponseMessage code)) =>
                if bool_decide (code = EOk) then make_ok else status_error code (str "PutChunk failed")
            | Answered _ => status_error NetworkError (str "Invalid response")
            end, c')
  end.

Definition remote_has_chunks (now_ms : Z) (c : Cluster) (node : NodeId) (ids : list ChunkId) : outcome (list bool * Cluster) :=
  '(r, c') ← exchange now_ms c node (HasChunkMessage ids);
  Done (match r with
        | Answered (Some (HasChunkResponseMessage exists_)) =>
            if bool_decide (length exists_ = length ids) then exists_ else replicate (length ids) false
        | _ => replicate (length ids) false
        end, c').

(** ** Statistics *)

Record ClusterStats := mkClusterStats {
  cs_total_nodes : Z; cs_active_nodes : Z;
  cs_total_memory_capacity : Z; cs_total_disk_capacity : Z;
  cs_total_memory_used : Z; cs_total_disk_used : Z
}.

Definition stats_add (s : ClusterStats) (n : ClusterNode) : ClusterStats :=
  let info := nd_info n in
  mkClusterStats (cs_total_nodes s) (if is_active n then cs_active_nodes s +w 1 else cs_active_nodes s)
    (cs_total_memory_capacity s +w ni_memory_capacity info) (cs_total_disk_capacity s +w ni_disk_capacity info)
    (cs_total_memory_used s +w ni_memory_used info) (cs_total_disk_used s +w ni_disk_used info).

Definition cluster_stats (c : Cluster) : ClusterStats :=
  foldl stats_add (mkClusterStats (Z.of_nat (size (k_nodes c))) 0 0 0 0 0) (all_nodes c).

(** ** Gossip *)

(** The loop of [handle_push] and [handle_ack]. *)
Definition hear (now : Z) (c : Cluster) (info : NodeInfo) : Cluster :=
  let c1 := handle_node_update c info in
  with_last_heard c1 (<[ni_id info := now]> (k_last_heard c1)).

Definition handle_push (now : Z) (c : Cluster) (nodes : list NodeInfo) : Cluster := foldl (hear now) c nodes.
Definition handle_ack (now : Z) (c : Cluster) (nodes : list NodeInfo) : Cluster := foldl (hear now) c nodes.

(** The sends of a round; their results are not looked at. *)
Fixpoint gossip_send (now_ms : Z) (c : Cluster) (push : Message) (targets : list NodeId) : outcome Cluster :=
  match targets with
  | [] => Done c
  | id :: rest =>
      if bool_decide (id = k_local c) then gossip_send now_ms c push rest
      else match get_node c id ≫= nd_connection with
           | Some k => if connected_at c k
                       then '(_, c') ← send_on now_ms c k push; gossip_send now_ms c' push rest
                       else gossip_send now_ms c push rest
           | None => gossip_send now_ms c push rest
           end
  end.

(** [order]: the identifiers of the active nodes as [std::shuffle] left them. *)
Definition gossip_round (now_ms : Z) (c : Cluster) (order : list NodeId) : outcome Cluster :=
  if size_of order <=? 1 then Done c
  else
    let fanout := Z.min (kc_gossip_fanout cfg) (size_of order) in
    let push := GossipPushMessage (k_local c) (nd_info <$> all_nodes c) in
    gossip_send now_ms c push (take (Z.to_nat fanout) order).

Definition check_failures (now : Z) (c : Cluster) : Cluster :=
  with_last_heard c (filter (fun e => ~ kc_failure_detection_timeout cfg < now - e.2) (k_last_heard c)).

(** ** Connections *)

(** [spawn(handle_connection(conn))]. *)
Definition spawn_handler (c : Cluster) (k : nat) : Cluster := with_tasks c (k_tasks c ++ [(k, true)]).

(** One round of [accept_loop]. *)
Definition accept_one (c : Cluster) (io : Conn) : Cluster :=
  let '(k, c') := new_connection c io in spawn_handler c' k.

(** The first message of a connection: only a Hello has an effect. The result tells whether to go on. *)
Definition handle_first (now_ms : Z) (c : Cluster) (k : nat) : outcome (bool * Cluster) :=
  '(msg, c1) ← receive_on c k;
  match msg with
  | None => Done (false, close_on c1 k)
  | Some (HelloMessage sender _ _) =>
      let c2 := handle_node_update c1 sender in
      let c3 := node_set_connection c2 (ni_id sender) k in
      match get_node c3 (k_local c3) with
      | None => Undef
      | Some local => '(_, c4) ← send_on now_ms c3 k (HelloAckMessage (nd_info local) true []); Done (true, c4)
      end
  | Some _ => Done (true, c1)
  end.

(** Every further message. *)
Definition handle_next (now : Z) (c : Cluster) (k : nat) : outcome (bool * Cluster) :=
  if negb (k_running c && connected_at c k) then Done (false, close_on c k)
  else
    '(msg, c1) ← receive_on c k;
    match msg with
    | None => Done (false, close_on c1 k)
    | Some (GossipPushMessage _ nodes) => Done (true, handle_push now c1 nodes)
    | Some (GossipAckMessage _ nodes) => Done (true, handle_ack now c1 nodes)
    | Some _ => Done (true, c1)
    end.

Definition handle_step (now_ms now : Z) (c : Cluster) (k : nat) (first : bool) : outcome (bool * Cluster) :=
  if first then handle_first now_ms c k else handle_next now c k.

(** One seed of [connect_to_seeds]; [None]: the address has no port. *)
Definition parse_seed (seed : bytes) : outcome (option (bytes * Z)) :=
  match rfind (str ":") seed with
  | None => Done None
  | Some colon =>
      host ← substr_n seed 0 colon;
      digits ← substr seed (colon + 1);
      port ← stoi digits;
      Done (Some (host, u16 port))
  end.

Definition connect_to_seed (now_ms : Z) (c : Cluster) (seed : bytes) : outcome Cluster :=
  parsed ← parse_seed seed;
  match parsed with
  | None => Done c
  | Some _ =>
      match connect_to_node c with
      | (None, c1) => Done c1
      | (Some k, c1) =>
          match get_node c1 (k_local c1) with
          | None => Undef
          | Some local =>
              '(status, c2) ← send_on now_ms c1 k (HelloMessage (nd_info local) (kc_cluster_name cfg) []);
              if negb (is_ok status) then Done (close_on c2 k)
              else
                '(response, c3) ← receive_on c2 k;
                match response with
                | Some (HelloAckMessage sender accepted _) =>
                    if negb accepted then Done (close_on c3 k)
                    else Done (spawn_handler (node_set_connection (handle_node_update c3 sender) (ni_id sender) k) k)
                | _ => Done (close_on c3 k)
                end
          end
      end
  end.

Fixpoint connect_to_seeds (now_ms : Z) (c : Cluster) (seeds : list bytes) : outcome Cluster :=
  match seeds with
  | [] => Done c
  | seed :: rest => c1 ← connect_to_seed now_ms c seed; connect_to_seeds now_ms c1 rest
  end.

(** [bound]: whether the listener could be bound. *)
Definition Cluster_start (now_ms : Z) (c : Cluster) (bound : bool) : outcome (Status * Cluster) :=
  let c1 := with_running c true in
  if negb bound
  then Done (status_error NetworkError (str "Failed to bind cluster port " ++ to_string (kc_cluster_port cfg)), c1)
  else c2 ← connect_to_seeds now_ms c1 (kc_seed_nodes cfg); Done (make_ok, c2).

(** Closes the connection of every node. *)
Definition Cluster_stop (c : Cluster) : Cluster :=
  foldl (fun c n => match nd_connection n with Some k => close_on c k | None => c end) (with_running c false) (all_nodes c).

(** ** Interleavings *)

Inductive cluster_step : Cluster -> Cluster -> Prop :=
| step_accept c io : k_running c = true -> cluster_step c (accept_one c io)
| step_handle c now_ms now i k first more c' :
    k_tasks c !! i = Some (k, first) -> handle_step now_ms now c k first = Done (more, c') ->
    cluster_step c (with_tasks c' (if more : bool then <[i := (k, false)]> (k_tasks c') else delete i (k_tasks c')))
| step_gossip c now_ms order c' :
    order ≡ₚ (fun n => ni_id (nd_info n)) <$> active_nodes c -> gossip_round now_ms c order = Done c' -> cluster_step c c'
| step_check c now : cluster_step c (check_failures now c)
| step_exchange c now_ms node msg r c' : is_Some (get_node c node) -> exchange now_ms c node msg = Done (r, c') -> cluster_step c c'
| step_seed c now_ms seed c' : connect_to_seed now_ms c seed = Done c' -> cluster_step c c'
| step_net c net : cluster_step c (with_net c net)
| step_callback c cb : cluster_step c (on_node_change c cb)
| step_start c : cluster_step c (with_running c true)
| step_stop c : cluster_step c (Cluster_stop c).

(** What the coordinator calls, on the real cluster. *)
Definition cluster_link (now_ms : Z) : ClusterLink := {|
  link_state := Cluster;
  link_local_id := k_local;
  link_nodes_for_key := fun c key => nodes_for_key c key 0;
  link_remote_get := remote_get now_ms;
  link_remote_put := remote_put now_ms;
  link_remote_delete := remote_delete now_ms;
  link_remote_check := remote_check now_ms
|}.

End cluster.

(** ** Messages over a connection *)

Section delivery.
Context `{HH : Hasher}.

Definition payload_fits (m : Message) : Prop := size_of (encode_payload m).2 < 2 ^ 32.

Lemma Connection_send_spec now_ms c msg :
  sched_ok (c_sched (cn_io c)) ->
  exists sched', Connection_send now_ms c msg =
    Done (make_ok, mkConnection (mkConn (c_in (cn_io c)) (c_out (cn_io c) ++ encode now_ms msg 0) sched') (cn_connected c)) /\ sched_ok sched'.
Proof.
  intros Hs. unfold Connection_send. rewrite write_stream_eq. destruct (write_all_spec (encode now_ms msg 0) (cn_io c) Hs) as (sched' & -> & Hs').
  by exists sched'.
Qed.

Lemma encode_split now_ms m :
  exists hdr, encode now_ms m 0 = hdr ++ (encode_payload m).2 /\ size_of hdr = HEADER_SIZE /\
    (payload_fits m -> forall rest,
     parse_header (hdr ++ rest) = Done (mkHeader MAGIC VERSION (type_code (encode_payload m).1) (size_of (encode_payload m).2) 0 (u64 now_ms))).
Proof.
  unfold encode, payload_fits. destruct (encode_payload m) as [t p]. cbn [fst snd]. pose proof (size_of_nonneg p).
  eexists. split_and!; [done|done|]. intros Hf rest. rewrite parse_encode_header; [|apply Z.mod_pos_bound; lia|done].
  by rewrite u32_small by (split; lia).
Qed.

(** What is decoded from a whole message. *)
Definition received (m : Message) (data : bytes) : outcome (option Message) :=
  match decode data with Done (m', _) => Done (Some m') | Throw _ => Done None | Undef => Undef | Spin => Spin end.

(** A connection on which a whole message waits. *)
Lemma Connection_receive_spec c now_ms m rest :
  pieces_ok (c_in (cn_io c)) -> payload_fits m -> concat (c_in (cn_io c)) = encode now_ms m 0 ++ rest ->
  exists input', pieces_ok input' /\ concat input' = rest /\
    Connection_receive c =
      '(r) ← received m (encode now_ms m 0);
      Done (r, mkConnection (mkConn input' (c_out (cn_io c)) (c_sched (cn_io c))) (cn_connected c)).
Proof.
  intros Hin Hfit Hcat. destruct (encode_split now_ms m) as (hdr & E & Hh & Hparse). rewrite E, <- app_assoc in Hcat.
  set (p := (encode_payload m).2) in *. pose proof (size_of_nonneg p). pose proof (size_of_nonneg rest). unfold Connection_receive.
  rewrite read_stream_eq. destruct (read_all_spec HEADER_SIZE (cn_io c) Hin) as (in1 & -> & Hin1 & Hc1); [done|].
  rewrite Hcat, size_of_app, Hh in Hc1 |- *. destruct (Z.leb_spec HEADER_SIZE (HEADER_SIZE + size_of (p ++ rest))); [|rewrite size_of_app in *; lia].
  specialize (Hc1 H1). assert (Z.to_nat HEADER_SIZE = length hdr) as Hn by (unfold size_of in Hh; lia).
  rewrite Hn, ?take_app_length, ?drop_app_length in *. cbn [mbind outcome_bind].
  pose proof (Hparse Hfit []) as Hp. rewrite app_nil_r in Hp. rewrite Hp. cbn [mbind outcome_bind h_magic h_length].
  unfold MAGIC. rewrite Z.eqb_refl. cbn [negb].
  rewrite read_stream_eq. destruct (read_all_spec (size_of p) (mkConn in1 (c_out (cn_io c)) (c_sched (cn_io c))) Hin1) as (in2 & E2 & Hin2 & Hc2); [done|].
  fold p. rewrite E2. cbn [c_in] in *. rewrite Hc1, size_of_app in *. destruct (Z.leb_spec (size_of p) (size_of p + size_of rest)); [|lia]. specialize (Hc2 H2).
  assert (Z.to_nat (size_of p) = length p) as Hn2 by (unfold size_of; lia). rewrite Hn2, ?take_app_length, ?drop_app_length in *.
  cbn [mbind outcome_bind c_out c_sched]. exists in2. split_and!; [done..|]. unfold received. rewrite E. by destruct (decode (hdr ++ p)) as [[? ?]| | |].
Qed.

Lemma received_ok now_ms m : msg_ok m -> decodable m = true -> received m (encode now_ms m 0) = Done (Some (wire m)).
Proof.
  intros Hok Hd. unfold received. rewrite <- (app_nil_r (encode now_ms m 0)), decode_header_payload by done.
  by rewrite decode_payload_encode.
Qed.

(** The kinds without a decoder are read and given up. *)
Lemma received_undecodable now_ms m : decodable m = false -> received m (encode now_ms m 0) = Done None.
Proof. intros Hd. unfold received. by rewrite codec_undecodable. Qed.

(** What the other end gets of a message. *)
Definition delivered (m : Message) : option Message := if decodable m then Some (wire m) else None.

Lemma received_delivered now_ms m : (decodable m = true -> msg_ok m) -> received m (encode now_ms m 0) = Done (delivered m).
Proof.
  intros Hok. unfold delivered. destruct (decodable m) eqn:Hd; [by apply received_ok; [apply Hok|]|by apply received_undecodable].
Qed.

End delivery.

Fixpoint send_each (c : Connection) (msgs : list (Z * Message)) : outcome Connection :=
  match msgs with
  | [] => Done c
  | (now_ms, m) :: msgs' =>
      '(status, c1) ← Connection_send now_ms c m;
      if is_ok status then send_each c1 msgs' else Throw "send failed"
  end.

Fixpoint receive_each `{HH : Hasher} (c : Connection) (n : nat) : outcome (list (option Message) * Connection) :=
  match n with
  | O => Done ([], c)
  | S n' => '(m, c1) ← Connection_receive c; '(ms, c2) ← receive_each c1 n'; Done (m :: ms, c2)
  end.

Section several.
Context `{HH : Hasher}.

Definition sendable (m : Message) : Prop := msg_ok m /\ decodable m = true /\ payload_fits m.

Definition on_wire (msgs : list (Z * Message)) : bytes := concat ((fun '(t, m) => encode t m 0) <$> msgs).

Lemma send_each_spec msgs : forall c, sched_ok (c_sched (cn_io c)) ->
  exists c', send_each c msgs = Done c' /\ c_out (cn_io c') = c_out (cn_io c) ++ on_wire msgs.
Proof.
  induction msgs as [|[t m] msgs IH]; intros c Hs; cbn [send_each].
  - exists c. split; [done|]. unfold on_wire. simpl. by rewrite app_nil_r.
  - destruct (Connection_send_spec t c m Hs) as (sched' & -> & Hs'). cbn [mbind outcome_bind]. change (is_ok make_ok) with true. cbn iota.
    destruct (IH (mkConnection (mkConn (c_in (cn_io c)) (c_out (cn_io c) ++ encode t m 0) sched') (cn_connected c)) Hs') as (c' & -> & Ho).
    exists c'. split; [done|]. rewrite Ho. cbn [cn_io c_out]. by rewrite <- app_assoc.
Qed.

(** Messages of any kind, the fields of the decodable ones within their types. *)
Definition typed_msg (m : Message) : Prop := payload_fits m /\ (decodable m = true -> msg_ok m).

Lemma receive_each_spec msgs : Forall (fun x => typed_msg x.2) msgs -> forall c rest,
  pieces_ok (c_in (cn_io c)) -> concat (c_in (cn_io c)) = on_wire msgs ++ rest ->
  exists c', receive_each c (length msgs) = Done ((fun x => delivered x.2) <$> msgs, c') /\
    concat (c_in (cn_io c')) = rest /\ cn_connected c' = cn_connected c.
Proof.
  induction 1 as [|[t m] msgs (Hf & Hok) _ IH]; intros c rest Hin Hcat; cbn [length receive_each].
  - by exists c.
  - unfold on_wire in Hcat. cbn [fmap list_fmap concat] in Hcat. rewrite <- app_assoc in Hcat. cbn [snd] in *.
    destruct (Connection_receive_spec c t m _ Hin Hf Hcat) as (in1 & Hin1 & Hc1 & ->). rewrite received_delivered by done. cbn [mbind outcome_bind].
    edestruct IH as (c' & -> & Hc' & Hcon); [exact Hin1|exact Hc1|]. cbn [mbind outcome_bind]. by exists c'.
Qed.

End several.

(** ** Membership *)

(** Table and ring hold the same nodes, the local one among them; every entry is under its own
    identifier; connections named by nodes and handlers exist. *)
Record cluster_inv (vn : Z) (c : Cluster) : Prop := {
  ci_members : dom (k_nodes c) = nodes_ (k_ring c);
  ci_ids : map_Forall (fun id n => ni_id (nd_info n) = id) (k_nodes c);
  ci_local : is_Some (k_nodes c !! k_local c);
  ci_ring : ring_wf (k_ring c) /\ virtual_nodes_ (k_ring c) = vn;
  ci_conns : map_Forall (fun _ n => forall k, nd_connection n = Some k -> (k < length (k_conns c))%nat) (k_nodes c);
  ci_tasks : Forall (fun t => (t.1 < length (k_conns c))%nat) (k_tasks c)
}.

(** How a cluster may change: nodes do not leave and generations do not go back. *)
Record grows (c c' : Cluster) : Prop := {
  gr_local : k_local c' = k_local c;
  gr_nodes : forall id n, k_nodes c !! id = Some n ->
    exists n', k_nodes c' !! id = Some n' /\ ni_generation (nd_info n) <= ni_generation (nd_info n');
  gr_conns : (length (k_conns c) <= length (k_conns c'))%nat
}.

#[export] Instance grows_preorder : PreOrder grows.
Proof.
  split.
  - intros c. split; [done| |lia]. intros id n E. exists n. split; [done|lia].
  - intros c1 c2 c3 [L1 N1 C1] [L2 N2 C2]. split; [congruence| |lia]. intros id n E.
    destruct (N1 _ _ E) as (n' & E' & ?). destruct (N2 _ _ E') as (n'' & E'' & ?). exists n''. split; [done|lia].
Qed.

(** A change that keeps the invariant. *)
Definition evolves (vn : Z) (c c' : Cluster) : Prop := cluster_inv vn c -> cluster_inv vn c' /\ grows c c'.

#[export] Instance evolves_preorder vn : PreOrder (evolves vn).
Proof.
  split; [by intros c Hi|]. intros c1 c2 c3 H1 H2 Hi. destruct (H1 Hi) as [Hi2 ?]. destruct (H2 Hi2) as [Hi3 ?].
  split; [done|]. by transitivity c2.
Qed.

Lemma add_node_members h id : nodes_ (add_node h id) = {[id]} ∪ nodes_ h.
Proof. unfold add_node. case_bool_decide; [set_solver|done]. Qed.

Lemma add_node_vn h id : virtual_nodes_ (add_node h id) = virtual_nodes_ h.
Proof. unfold add_node. by case_bool_decide. Qed.

Lemma with_conns_evolves vn c conns : (length (k_conns c) <= length conns)%nat -> evolves vn c (with_conns c conns).
Proof.
  intros Hl [? ? ? ? Hc Ht]. split; [|split; [done|intros id n E; exists n; split; [done|lia]|done]]. split; try done; simpl.
  - intros id n E k Hk. specialize (Hc _ _ E k Hk). lia.
  - eapply Forall_impl; [exact Ht|]. simpl. lia.
Qed.

(** Changes of the other fields. *)
Lemma same_tables_evolves vn c c' :
  k_local c' = k_local c -> k_nodes c' = k_nodes c -> k_ring c' = k_ring c -> k_conns c' = k_conns c -> k_tasks c' = k_tasks c ->
  evolves vn c c'.
Proof.
  intros E1 E2 E3 E4 E5 [? ? ? ? ? ?]. split; [split; rewrite ?E1, ?E2, ?E3, ?E4, ?E5; done|].
  split; [done| |by rewrite E4]. intros id n E. exists n. rewrite E2. split; [done|lia].
Qed.

Lemma handle_node_update_evolves vn c info : evolves vn c (handle_node_update c info).
Proof.
  intros [Hm Hi Hl [Hr Hv] Hc Ht]. unfold handle_node_update. destruct (k_nodes c !! ni_id info) as [n|] eqn:E.
  - assert (ni_id (nd_info (node_update n info)) = ni_id info /\ nd_connection (node_update n info) = nd_connection n /\
      ni_generation (nd_info n) <= ni_generation (nd_info (node_update n info))) as (E1 & E2 & E3).
    { unfold node_update. destruct (Z.ltb_spec (ni_generation (nd_info n)) (ni_generation info)); simpl; split_and!; try done; try lia.
      exact (Hi _ _ E). }
    split; [split; simpl; try done|split; simpl; try done].
    + rewrite dom_insert_lookup_L; eauto.
    + by apply map_Forall_insert_2.
    + destruct (decide (k_local c = ni_id info)) as [->|]; [rewrite lookup_insert_eq; eauto|by rewrite lookup_insert_ne].
    + apply map_Forall_insert_2; [|done]. intros k. rewrite E2. apply (Hc _ _ E).
    + intros id m Em. destruct (decide (id = ni_id info)) as [->|].
      * rewrite lookup_insert_eq. eexists. split; [done|]. congruence.
      * rewrite lookup_insert_ne by done. exists m. split; [done|lia].
  - split; [split; simpl; try done|split; simpl; try done].
    + by rewrite dom_insert_L, Hm, add_node_members.
    + by apply map_Forall_insert_2.
    + destruct (decide (k_local c = ni_id info)) as [->|]; [rewrite lookup_insert_eq; eauto|by rewrite lookup_insert_ne].
    + split; [by apply add_node_wf|by rewrite add_node_vn].
    + by apply map_Forall_insert_2.
    + intros id m Em. destruct (decide (id = ni_id info)) as [->|]; [congruence|].
      rewrite lookup_insert_ne by done. exists m. split; [done|lia].
Qed.

Lemma node_set_connection_evolves vn c id k : (k < length (k_conns c))%nat -> evolves vn c (node_set_connection c id k).
Proof.
  intros Hk [Hm Hi Hl Hr Hc Ht]. unfold node_set_connection. split; [split; simpl; try done|split; simpl; try done].
  - by rewrite dom_alter_L.
  - intros i n E. apply lookup_alter_Some in E as [(<- & n0 & E & ->)|[_ E]]; [exact (Hi _ _ E)|by apply Hi].
  - rewrite lookup_alter. case_decide as D; [subst; destruct Hl as [n ->]; eauto|done].
  - intros i n E. apply lookup_alter_Some in E as [(<- & n0 & E & ->)|[_ E]]; [|by apply (Hc _ _ E)]. simpl. intros k' [= <-]. done.
  - intros i n E. rewrite lookup_alter. case_decide; [|exists n; split; [done|lia]]. subst. rewrite E. eexists. split; [done|]. simpl. lia.
Qed.

Lemma spawn_handler_evolves vn c k : (k < length (k_conns c))%nat -> evolves vn c (spawn_handler c k).
Proof.
  intros Hk [? ? ? ? ? Ht]. split; [split; try done; simpl|split; [done|intros id n E; exists n; split; [done|lia]|done]].
  apply Forall_app. split; [done|by constructor].
Qed.

Section evolution.
Context `{HH : Hasher} (cfg : ClusterConfig) (vn : Z).

Lemma close_on_evolves c k : evolves vn c (close_on c k).
Proof. apply with_conns_evolves. by rewrite length_alter. Qed.

Lemma send_on_evolves now_ms c k m r c' : send_on now_ms c k m = Done (r, c') -> evolves vn c c' /\ length (k_conns c') = length (k_conns c).
Proof.
  unfold send_on. destruct (k_conns c !! k); [|done]. intros H. apply outcome_bind_Done in H as ([st conn'] & _ & [= <- <-]).
  split; [apply with_conns_evolves|simpl]; by rewrite length_insert.
Qed.

Lemma receive_on_evolves c k r c' : receive_on c k = Done (r, c') -> evolves vn c c' /\ length (k_conns c') = length (k_conns c).
Proof.
  unfold receive_on. destruct (k_conns c !! k); [|done]. intros H. apply outcome_bind_Done in H as ([st conn'] & _ & [= <- <-]).
  split; [apply with_conns_evolves|simpl]; by rewrite length_insert.
Qed.

Lemma connect_evolves c r c' :
  connect_to_node c = (r, c') -> evolves vn c c' /\ (forall k, r = Some k -> (k < length (k_conns c'))%nat).
Proof.
  unfold connect_to_node. destruct (k_net c) as [|[io|] rest]; intros [= <- <-].
  - by split.
  - split.
    + transitivity (with_net c rest); [by apply same_tables_evolves|]. apply with_conns_evolves. simpl. rewrite length_app. simpl. lia.
    + intros k [= <-]. simpl. rewrite length_app. simpl. lia.
  - split; [by apply same_tables_evolves|done].
Qed.

Lemma ensure_evolves c node r c' :
  ensure_connection c node = (r, c') -> evolves vn c c' /\ (cluster_inv vn c -> forall k, r = Some k -> (k < length (k_conns c'))%nat).
Proof.
  assert (forall r c', match connect_to_node c with
                       | (Some k', c') => (Some k', node_set_connection c' node k') | (None, c') => (None, c') end = (r, c') ->
    evolves vn c c' /\ (cluster_inv vn c -> forall k, r = Some k -> (k < length (k_conns c'))%nat)) as Hnew.
  { intros r0 c0. destruct (connect_to_node c) as [[k|] c1] eqn:E; intros [= <- <-].
    - destruct (connect_evolves _ _ _ E) as [He Hk]. split; [|intros _ k' [= <-]; simpl; auto].
      transitivity c1; [done|]. apply node_set_connection_evolves. auto.
    - destruct (connect_evolves _ _ _ E) as [He _]. by split. }
  unfold ensure_connection. destruct (get_node c node ≫= nd_connection) as [k|] eqn:E; [|apply Hnew].
  destruct (connected_at c k) eqn:Ec; [|apply Hnew]. intros [= <- <-]. split; [done|]. intros Hi k' [= <-].
  destruct (get_node c node) as [n|] eqn:En; [|done]. by apply (ci_conns _ _ Hi _ _ En).
Qed.

Lemma exchange_evolves now_ms c node m r c' : exchange now_ms c node m = Done (r, c') -> evolves vn c c'.
Proof.
  unfold exchange. destruct (ensure_connection c node) as [[k|] c1] eqn:E; destruct (ensure_evolves _ _ _ _ E) as [He _].
  - intros H. apply outcome_bind_Done in H as ([st c2] & Hs & H). destruct (send_on_evolves _ _ _ _ _ _ Hs) as [He2 _].
    destruct (negb (is_ok st)); [injection H as <- <-; by transitivity c1|].
    apply outcome_bind_Done in H as ([resp c3] & Hrv & [= <- <-]). destruct (receive_on_evolves _ _ _ _ Hrv) as [He3 _].
    transitivity c1; [done|]. by transitivity c2.
  - intros [= <- <-]. done.
Qed.

Lemma hear_evolves now c info : evolves vn c (hear now c info).
Proof. transitivity (handle_node_update c info); [apply handle_node_update_evolves|by apply same_tables_evolves]. Qed.

Lemma handle_push_evolves now nodes : forall c, evolves vn c (handle_push now c nodes).
Proof.
  induction nodes as [|i nodes IH]; intros c; [done|]. transitivity (hear now c i); [apply hear_evolves|apply IH].
Qed.

Lemma gossip_send_evolves now_ms m targets : forall c c', gossip_send now_ms c m targets = Done c' -> evolves vn c c'.
Proof.
  induction targets as [|id targets IH]; intros c c'; cbn [gossip_send]; [intros [= <-]; done|].
  case_bool_decide; [auto|]. destruct (get_node c id ≫= nd_connection) as [k|]; [|auto]. destruct (connected_at c k); [|auto].
  intros H'. apply outcome_bind_Done in H' as ([st c1] & Hs & H'). transitivity c1; [by eapply send_on_evolves|auto].
Qed.

(** A new entry under [info], with the connection [k]. *)
Lemma update_set_evolves c info k :
  (k < length (k_conns c))%nat -> evolves vn c (node_set_connection (handle_node_update c info) (ni_id info) k) /\
  k_conns (node_set_connection (handle_node_update c info) (ni_id info) k) = k_conns c.
Proof.
  assert (k_conns (handle_node_update c info) = k_conns c) as E by (unfold handle_node_update; by destruct (k_nodes c !! ni_id info)).
  intros Hk. split; [|done]. transitivity (handle_node_update c info); [apply handle_node_update_evolves|].
  apply node_set_connection_evolves. by rewrite E.
Qed.

Lemma handle_step_evolves now_ms now c k first more c' :
  (k < length (k_conns c))%nat -> handle_step now_ms now c k first = Done (more, c') -> evolves vn c c'.
Proof.
  intros Hk. unfold handle_step, handle_first, handle_next. destruct first.
  - intros H. apply outcome_bind_Done in H as ([msg c1] & Hrv & H). destruct (receive_on_evolves _ _ _ _ Hrv) as [He Hl].
    destruct msg as [m|]; [|injection H as <- <-; transitivity c1; [done|apply close_on_evolves]].
    destruct m; try (injection H as <- <-; done). cbn zeta in H.
    destruct (update_set_evolves c1 sender k) as [He2 Ec]; [by rewrite Hl|].
    destruct (get_node _ _) as [local|]; [|done]. apply outcome_bind_Done in H as ([st c4] & Hs & [= <- <-]).
    transitivity c1; [done|]. etransitivity; [exact He2|]. by eapply send_on_evolves.
  - destruct (negb _); [intros [= <- <-]; apply close_on_evolves|].
    intros H. apply outcome_bind_Done in H as ([msg c1] & Hrv & H). destruct (receive_on_evolves _ _ _ _ Hrv) as [He Hl].
    destruct msg as [m|]; [|injection H as <- <-; transitivity c1; [done|apply close_on_evolves]].
    destruct m; injection H as <- <-; try done; (transitivity c1; [done|apply handle_push_evolves]).
Qed.

Lemma connect_to_seed_evolves now_ms c seed c' : connect_to_seed cfg now_ms c seed = Done c' -> evolves vn c c'.
Proof.
  unfold connect_to_seed. intros H. apply outcome_bind_Done in H as (parsed & _ & H). destruct parsed; [|by injection H as <-].
  destruct (connect_to_node c) as [[k|] c1] eqn:E; destruct (connect_evolves _ _ _ E) as [He Hk]; [|by injection H as <-].
  specialize (Hk k eq_refl). destruct (get_node c1 _) as [local|]; [|done].
  apply outcome_bind_Done in H as ([st c2] & Hs & H). destruct (send_on_evolves _ _ _ _ _ _ Hs) as [He2 Hl2]. transitivity c1; [done|].
  transitivity c2; [done|]. destruct (negb (is_ok st)); [injection H as <-; apply close_on_evolves|].
  apply outcome_bind_Done in H as ([resp c3] & Hrv & H). destruct (receive_on_evolves _ _ _ _ Hrv) as [He3 Hl3]. transitivity c3; [done|].
  destruct resp as [[]|]; try (injection H as <-; apply close_on_evolves).
  destruct accepted; injection H as <-; [|apply close_on_evolves].
  destruct (update_set_evolves c3 sender k) as [He4 Ec]; [lia|]. etransitivity; [exact He4|]. apply spawn_handler_evolves. rewrite Ec. lia.
Qed.

Lemma close_nodes_evolves ns : forall c,
  evolves vn c (foldl (fun c n => match nd_connection n with Some k => close_on c k | None => c end) c ns).
Proof.
  induction ns as [|n ns IH]; intros c; [done|]. simpl. etransitivity; [|apply IH].
  destruct (nd_connection n); [apply close_on_evolves|done].
Qed.

End evolution.

Section reachable.
Context `{HH : Hasher} (cfg : ClusterConfig).

Lemma cluster_step_evolves vn c c' : cluster_step cfg c c' -> evolves vn c c'.
Proof.
  intros Hs Hi. destruct Hs as [c io _|c now_ms now i k first more c' Ht Hh|c now_ms order c' _ Hg|c now|c now_ms node msg r c' _ He
    |c now_ms seed c' Hc|c net|c cb|c|c].
  - unfold accept_one. simpl. revert Hi. change (evolves vn c (spawn_handler (with_conns c (k_conns c ++ [mkConnection io true])) (length (k_conns c)))).
    etransitivity; [|apply spawn_handler_evolves; simpl; rewrite length_app; simpl; lia].
    apply with_conns_evolves. rewrite length_app. lia.
  - pose proof (ci_tasks _ _ Hi) as Hts. rewrite Forall_lookup in Hts. specialize (Hts _ _ Ht). simpl in Hts.
    destruct (handle_step_evolves vn now_ms now c k first more c' Hts Hh Hi) as [[] Hg].
    split; [|destruct Hg; by split]. split; try done. simpl. pose proof (gr_conns _ _ Hg).
    destruct more; [apply Forall_insert; [done|simpl; lia]|by apply Forall_delete].
  - unfold gossip_round in Hg. destruct (size_of order <=? 1); [by injection Hg as <-|]. revert Hi. change (evolves vn c c'). by eapply gossip_send_evolves.
  - revert Hi. by apply (same_tables_evolves vn c (check_failures cfg now c)).
  - revert Hi. by apply (exchange_evolves vn now_ms c node msg r c').
  - revert Hi. by apply (connect_to_seed_evolves cfg vn now_ms c seed c').
  - revert Hi. by apply (same_tables_evolves vn c (with_net c net)).
  - revert Hi. by apply (same_tables_evolves vn c (on_node_change c cb)).
  - revert Hi. by apply (same_tables_evolves vn c (with_running c true)).
  - revert Hi. change (evolves vn c (Cluster_stop c)). unfold Cluster_stop. etransitivity; [|apply close_nodes_evolves]. by apply same_tables_evolves.
Qed.

Lemma reachable_evolves vn c c' : rtc (cluster_step cfg) c c' -> evolves vn c c'.
Proof. induction 1 as [|c1 c2 c3 Hs _ IH]; [done|]. transitivity c2; [by apply cluster_step_evolves|done]. Qed.

Lemma Cluster_make_inv id : cluster_inv (kc_virtual_nodes cfg) (Cluster_make cfg id).
Proof.
  split; simpl; try done.
  - rewrite add_node_members, dom_singleton_L. simpl. set_solver.
  - by apply map_Forall_singleton.
  - rewrite lookup_singleton_eq. eauto.
  - split; [apply add_node_wf, HashRing_make_wf|by rewrite add_node_vn].
  - by apply map_Forall_singleton.
Qed.

(** With the invariant nothing the ring names is missing from the table. *)
Lemma routed_all vn c ids : cluster_inv vn c -> (forall id, id ∈ ids -> id ∈ nodes_ (k_ring c)) -> routed c ids = ids.
Proof.
  intros Hi Hin. unfold routed. induction ids as [|id ids IH]; [done|]. simpl. rewrite bool_decide_true.
  - f_equal. apply IH. intros i Hi'. apply Hin. by right.
  - apply elem_of_dom. rewrite (ci_members _ _ Hi). apply Hin. by left.
Qed.

End reachable.

(** ** Gossip *)

(** What a cluster knows about its nodes. *)
Definition table (c : Cluster) : gmap NodeId NodeInfo := nd_info <$> k_nodes c.

Definition infos (c : Cluster) : list NodeInfo := nd_info <$> all_nodes c.

(** The newest information about [id] in a list. *)
Definition newest (l : list NodeInfo) (id : NodeId) (x : NodeInfo) : Prop :=
  x ∈ l /\ ni_id x = id /\ forall y, y ∈ l -> ni_id y = id -> ni_generation y <= ni_generation x.

(** A node does not say different things under one generation number. *)
Definition consistent (l : list NodeInfo) : Prop :=
  forall x y, x ∈ l -> y ∈ l -> ni_id x = ni_id y -> ni_generation x = ni_generation y -> x = y.

Lemma newest_unique l id x y : consistent l -> newest l id x -> newest l id y -> x = y.
Proof. intros Hc (Hx & Ex & Mx) (Hy & Ey & My). specialize (Mx y Hy Ey). specialize (My x Hx Ex). apply Hc; [done..|congruence|lia]. Qed.

Definition table_ok (l : list NodeInfo) (t : gmap NodeId NodeInfo) : Prop := forall id,
  match t !! id with Some x => newest l id x | None => forall y, y ∈ l -> ni_id y <> id end.

Lemma infos_table_ok vn c : cluster_inv vn c -> table_ok (infos c) (table c).
Proof.
  intros Hi id. unfold table, infos, all_nodes. rewrite lookup_fmap.
  assert (forall y, y ∈ nd_info <$> (map_to_list (k_nodes c)).*2 -> exists n, k_nodes c !! ni_id y = Some n /\ nd_info n = y) as Hel.
  { intros y Hy. apply list_elem_of_fmap in Hy as (n & -> & Hn). apply list_elem_of_fmap in Hn as ([i n'] & -> & Hn).
    apply elem_of_map_to_list in Hn. simpl. exists n'. pose proof (ci_ids _ _ Hi _ _ Hn) as E. simpl in E. by rewrite E. }
  destruct (k_nodes c !! id) as [n|] eqn:E; simpl.
  - pose proof (ci_ids _ _ Hi _ _ E) as Ei. simpl in Ei. split_and!; [|done|].
    + apply list_elem_of_fmap. exists n. split; [done|]. apply list_elem_of_fmap. exists (id, n). split; [done|]. by apply elem_of_map_to_list.
    + intros y Hy Ey. destruct (Hel y Hy) as (m & Em & <-). rewrite Ey, E in Em. injection Em as <-. lia.
  - intros y Hy Ey. destruct (Hel y Hy) as (m & Em & _). congruence.
Qed.

Lemma update_table_ok c l info :
  table_ok l (table c) -> table_ok (l ++ [info]) (table (handle_node_update c info)).
Proof.
  intros Ht id. specialize (Ht id) as Hid. unfold table, handle_node_update, newest in *. rewrite !lookup_fmap in *.
  destruct (k_nodes c !! ni_id info) as [n|] eqn:E; cbn [with_nodes notify_node_change k_nodes];
    (destruct (decide (id = ni_id info)) as [->|Hne]; [rewrite lookup_insert_eq|rewrite lookup_insert_ne by done]).
  - rewrite E in Hid. simpl in *. destruct Hid as (Hx & Ex & Mx). unfold node_update.
    destruct (Z.ltb_spec (ni_generation (nd_info n)) (ni_generation info)); simpl; (split_and!; [set_solver|done|]);
      intros y [Hy|Hy%list_elem_of_singleton]%elem_of_app Ey; try (subst; lia); specialize (Mx y Hy Ey); lia.
  - destruct (k_nodes c !! id) as [m|]; simpl in *.
    + destruct Hid as (Hx & Ex & Mx). split_and!; [set_solver|done|]. intros y [Hy|Hy%list_elem_of_singleton]%elem_of_app Ey; [auto|congruence].
    + intros y [Hy|Hy%list_elem_of_singleton]%elem_of_app Ey; [by eapply Hid|congruence].
  - rewrite E in Hid. simpl in *. split_and!; [set_solver|done|]. intros y [Hy|Hy%list_elem_of_singleton]%elem_of_app Ey; [|subst; lia].
    by destruct (Hid y Hy).
  - destruct (k_nodes c !! id) as [m|]; simpl in *.
    + destruct Hid as (Hx & Ex & Mx). split_and!; [set_solver|done|]. intros y [Hy|Hy%list_elem_of_singleton]%elem_of_app Ey; [auto|congruence].
    + intros y [Hy|Hy%list_elem_of_singleton]%elem_of_app Ey; [by eapply Hid|congruence].
Qed.

Lemma push_table_ok now us : forall c l, table_ok l (table c) -> table_ok (l ++ us) (table (handle_push now c us)).
Proof.
  induction us as [|u us IH]; intros c l Ht; [by rewrite app_nil_r|]. rewrite cons_middle, app_assoc.
  apply (IH (hear now c u)). by apply update_table_ok.
Qed.

Lemma table_ok_eq l l' t t' : consistent l -> (forall x, x ∈ l <-> x ∈ l') -> table_ok l t -> table_ok l' t' -> t = t'.
Proof.
  intros Hc He Ht Ht'. apply map_eq. intros id. specialize (Ht id). specialize (Ht' id).
  destruct (t !! id) as [x|], (t' !! id) as [y|]; try done.
  - f_equal. eapply (newest_unique l id); [done..|]. destruct Ht' as (Hy & Ey & My). split_and!; [by apply He|done|].
    intros z Hz. apply My. by apply He.
  - destruct Ht as (Hx & Ex & _). destruct (Ht' x); [by apply He|done].
  - destruct Ht' as (Hy & Ey & _). destruct (Ht y); [by apply He|done].
Qed.

(** ** Equal members give equal rings *)

Lemma ring_sorted_NoDup r : ring_sorted r -> NoDup r.
Proof.
  induction 1 as [|[p n] r _ IH Hlt]; constructor; [|done]. intros Hin. rewrite Forall_forall in Hlt. specialize (Hlt _ Hin). simpl in Hlt. lia.
Qed.

Lemma full_rings_equal h h' :
  ring_wf h -> ring_wf h' -> ring_full h -> ring_full h' -> nodes_ h = nodes_ h' -> virtual_nodes_ h = virtual_nodes_ h' -> h = h'.
Proof.
  intros [Ho Hp] [Ho' Hp'] Hf Hf' Hn Hv.
  assert (ring_ h = ring_ h') as Er; [|destruct h, h'; simpl in *; congruence].
  apply (StronglySorted_unique_strong (fun a b => a.1 < b.1)); [intros ? ? _ _ ? ?; lia|done|done|].
  apply NoDup_Permutation; [by apply ring_sorted_NoDup..|]. intros [p n]. split; intros Hin.
  - destruct (Hp _ _ Hin) as (Hm & i & Hi & ->). apply Hf'; [by rewrite <- Hn|lia].
  - destruct (Hp' _ _ Hin) as (Hm & i & Hi & ->). apply Hf; [by rewrite Hn|lia].
Qed.

Lemma no_shared_mono vn U V : no_shared_points vn U -> V ⊆ U -> no_shared_points vn V.
Proof. intros H Hs a b i j Ha Hb. apply H; set_solver. Qed.

Lemma update_ring_full vn U c info :
  cluster_inv vn c -> ring_full (k_ring c) -> no_shared_points vn U -> nodes_ (k_ring c) ⊆ U -> ni_id info ∈ U ->
  ring_full (k_ring (handle_node_update c info)) /\ nodes_ (k_ring (handle_node_update c info)) ⊆ U.
Proof.
  intros Hi Hf Hns Hsub Hin. unfold handle_node_update. destruct (k_nodes c !! ni_id info); [done|]. simpl.
  destruct (ci_ring _ _ Hi) as [Hw Hv]. rewrite add_node_members. split; [|set_solver]. apply add_node_full; [done..|].
  rewrite Hv. eapply no_shared_mono; [done|set_solver].
Qed.

Lemma push_ring_full vn U now us : no_shared_points vn U -> Forall (fun u => ni_id u ∈ U) us -> forall c,
  cluster_inv vn c -> ring_full (k_ring c) -> nodes_ (k_ring c) ⊆ U -> ring_full (k_ring (handle_push now c us)).
Proof.
  intros Hns. induction 1 as [|u us Hu _ IH]; intros c Hi Hf Hsub; [done|]. simpl.
  destruct (update_ring_full vn U c u Hi Hf Hns Hsub Hu) as [Hf' Hsub'].
  apply IH; [by apply hear_evolves|done|done].
Qed.

(** The members are the domain of the table. *)
Lemma members_table vn c : cluster_inv vn c -> nodes_ (k_ring c) = dom (table c).
Proof. intros Hi. unfold table. by rewrite dom_fmap_L, (ci_members _ _ Hi). Qed.

(** ** Properties *)

(** C12: the members of a cluster. In every state reachable by accepting connections, handling messages in any
    interleaving, gossiping, checking for failures, contacting seeds and calling other nodes, the table
    of nodes and the hash ring hold exactly the same nodes, every node is stored under its own
    identifier, the local node is among them, and the connections named by nodes exist; from then on no
    node ever leaves and no generation goes back. *)
Theorem cluster_membership `{HH : Hasher} cfg id c c' :
  rtc (cluster_step cfg) (Cluster_make cfg id) c -> rtc (cluster_step cfg) c c' ->
  cluster_inv (kc_virtual_nodes cfg) c' /\ k_local c' = id /\
  forall i n, k_nodes c !! i = Some n ->
    i ∈ nodes_ (k_ring c') /\ exists n', k_nodes c' !! i = Some n' /\ ni_generation (nd_info n) <= ni_generation (nd_info n').
Proof.
  intros H1 H2. destruct (reachable_evolves cfg _ _ _ H1 (Cluster_make_inv cfg id)) as [Hi [El _ _]].
  destruct (reachable_evolves cfg _ _ _ H2 Hi) as [Hi' [El' Hn _]]. split_and!; [done|by rewrite El', El|].
  intros i n E. destruct (Hn i n E) as (n' & E' & Hle). split; [|eauto].
  rewrite <- (ci_members _ _ Hi'). apply elem_of_dom. eauto.
Qed.

(** Gossip converges. Two nodes that have heard the same information, each in its own order and with any
    repetitions, agree on the state of every node (the newest generation) and, when the points of the
    nodes do not collide, route every key to the same nodes in the same order. *)
Theorem gossip_converges `{HH : Hasher} cfg vn U now1 now2 us1 us2 c1 c2 :
  cluster_inv vn c1 -> cluster_inv vn c2 -> consistent (infos c1 ++ us1) ->
  (forall x, x ∈ infos c1 ++ us1 <-> x ∈ infos c2 ++ us2) ->
  no_shared_points vn U -> ring_full (k_ring c1) -> ring_full (k_ring c2) -> nodes_ (k_ring c1) ∪ nodes_ (k_ring c2) ⊆ U ->
  Forall (fun u => ni_id u ∈ U) (us1 ++ us2) ->
  let d1 := handle_push now1 c1 us1 in let d2 := handle_push now2 c2 us2 in
  table d1 = table d2 /\ (forall id x, table d1 !! id = Some x -> newest (infos c1 ++ us1) id x) /\
  forall key count, nodes_for_key cfg d1 key count = nodes_for_key cfg d2 key count.
Proof.
  intros Hi1 Hi2 Hc He Hns Hf1 Hf2 Hsub Hus d1 d2. apply Forall_app in Hus as [Hu1 Hu2].
  pose proof (push_table_ok now1 us1 c1 _ (infos_table_ok vn c1 Hi1)) as Ht1.
  pose proof (push_table_ok now2 us2 c2 _ (infos_table_ok vn c2 Hi2)) as Ht2.
  assert (table d1 = table d2) as Et by (by eapply table_ok_eq).
  destruct (handle_push_evolves vn now1 us1 c1 Hi1) as [Hd1 _]. destruct (handle_push_evolves vn now2 us2 c2 Hi2) as [Hd2 _].
  fold d1 d2 in Hd1, Hd2.
  assert (k_ring d1 = k_ring d2) as Er.
  { apply full_rings_equal.
    - apply Hd1.
    - apply Hd2.
    - by apply (push_ring_full vn U); [..|set_solver].
    - by apply (push_ring_full vn U); [..|set_solver].
    - by rewrite !(members_table vn) by done; f_equal.
    - transitivity vn; [exact (proj2 (ci_ring _ _ Hd1))|symmetry; exact (proj2 (ci_ring _ _ Hd2))]. }
  split_and!; [done| |].
  - intros id x E. specialize (Ht1 id). fold d1 in Ht1. by rewrite E in Ht1.
  - intros key count. unfold nodes_for_key. rewrite Er. destruct (get_nodes_key _ _ _) as [ids| | |]; cbn [mbind outcome_bind]; try done.
    f_equal. unfold routed, get_node. induction ids as [|i ids IH]; [done|]. simpl.
    assert (is_Some (k_nodes d1 !! i) <-> is_Some (k_nodes d2 !! i)) as Hsome.
    { rewrite <- !elem_of_dom, (ci_members _ _ Hd1), (ci_members _ _ Hd2), Er. done. }
    rewrite (bool_decide_ext _ _ Hsome), IH. done.
Qed.

Definition sample_cluster_cfg : ClusterConfig := mkClusterConfig (str "127.0.0.1") 7890 1000 1000 (str "elcache") [] 10000 3 2 3 77 0.

Definition sample_info (id gen : Z) : NodeInfo := mkNodeInfo id (str "10.0.0.1") 7890 100 0 100 0 gen 2 0.

Lemma cluster_membership_witness :
  let c := Cluster_make sample_cluster_cfg 17 in let c' := check_failures sample_cluster_cfg 5 c in
  cluster_inv 3 c' /\ k_local c' = 17 /\
  forall i n, k_nodes c !! i = Some n ->
    i ∈ nodes_ (k_ring c') /\ exists n', k_nodes c' !! i = Some n' /\ ni_generation (nd_info n) <= ni_generation (nd_info n').
Proof.
  intros c c'. apply (cluster_membership (HH := fnv_hasher) sample_cluster_cfg 17 c c'); [apply rtc_refl|]. apply rtc_once. apply step_check.
Defined.

Definition sample_cluster : Cluster := Cluster_make sample_cluster_cfg 17.

Lemma sample_cluster_full : ring_full (k_ring sample_cluster).
Proof.
  apply add_node_full; [apply HashRing_make_wf|intros n i Hn; simpl in Hn; set_solver|].
  eapply no_shared_mono; [apply sample_no_shared|simpl; set_solver].
Qed.

Lemma gossip_converges_witness :
  let a := sample_info 99 1 in let b := sample_info 99 2 in let d := sample_info 5 1 in
  let d1 := handle_push 0 sample_cluster [a; b; d] in let d2 := handle_push 0 sample_cluster [d; b; a; b] in
  table d1 = table d2 /\ (forall id x, table d1 !! id = Some x -> newest (infos sample_cluster ++ [a; b; d]) id x) /\
  forall key count, nodes_for_key sample_cluster_cfg d1 key count = nodes_for_key sample_cluster_cfg d2 key count.
Proof.
  intros a b d. apply (gossip_converges (HH := fnv_hasher) sample_cluster_cfg 3 ({[5]} ∪ {[99; 17]}) 0 0 [a; b; d] [d; b; a; b] sample_cluster sample_cluster).
  - apply (Cluster_make_inv sample_cluster_cfg 17).
  - apply (Cluster_make_inv sample_cluster_cfg 17).
  - assert (infos sample_cluster = [local_info sample_cluster_cfg 17]) as -> by reflexivity.
    intros x y Hx Hy. simpl in Hx, Hy. rewrite !list_elem_of_In in Hx, Hy. simpl in Hx, Hy.
    intuition subst; try reflexivity; simpl in *; congruence.
  - intros x. rewrite !elem_of_app, !elem_of_cons, !elem_of_nil. tauto.
  - apply sample_no_shared.
  - apply sample_cluster_full.
  - apply sample_cluster_full.
  - simpl. set_solver.
  - repeat constructor; simpl; set_solver.
Defined.

(** C22: what a connection delivers. Whatever messages of all kinds are sent on one end, and however their bytes are cut
    into pieces: the other end receives, in order, each message of the ten kinds that the decoder knows (without the
    fields that are not sent) and nothing in the place of each message of another kind, such as the availability checks
    and chunk reads; it has then read everything and is as connected as before. *)
Theorem connection_delivers `{HH : Hasher} msgs src :
  Forall (fun x => typed_msg x.2) msgs -> sched_ok (c_sched (cn_io src)) -> c_out (cn_io src) = [] ->
  exists src', send_each src msgs = Done src' /\
    forall dst, pieces_ok (c_in (cn_io dst)) -> concat (c_in (cn_io dst)) = c_out (cn_io src') ->
    exists dst', receive_each dst (length msgs) = Done ((fun x => delivered x.2) <$> msgs, dst') /\
      concat (c_in (cn_io dst')) = [] /\ cn_connected dst' = cn_connected dst.
Proof.
  intros Hm Hs Ho. destruct (send_each_spec msgs src Hs) as (src' & E & Hout). exists src'. split; [done|]. intros dst Hin Hcat.
  rewrite Hout, Ho in Hcat. simpl app in Hcat. rewrite <- (app_nil_r (on_wire msgs)) in Hcat. by apply receive_each_spec.
Qed.

Lemma connection_delivers_witness :
  let msgs := [(7, DeleteResponseMessage NotFound true); (7, CheckMessage (mkCacheKey [] 0 Hash128_zero) None);
               (8, PutResponseMessage EOk (str "done"))] in
  exists src', send_each (mkConnection (mkConn [] [] [5; 100]) true) msgs = Done src' /\
    forall dst, pieces_ok (c_in (cn_io dst)) -> concat (c_in (cn_io dst)) = c_out (cn_io src') ->
    exists dst', receive_each (HH := fnv_hasher) dst (length msgs) =
        Done ([Some (DeleteResponseMessage NotFound true); None; Some (PutResponseMessage EOk (str "done"))], dst') /\
      concat (c_in (cn_io dst')) = [] /\ cn_connected dst' = cn_connected dst.
Proof.
  apply (connection_delivers (HH := fnv_hasher) [(7, DeleteResponseMessage NotFound true);
    (7, CheckMessage (mkCacheKey [] 0 Hash128_zero) None); (8, PutResponseMessage EOk (str "done"))]); [|repeat constructor|reflexivity].
  repeat constructor; vm_compute; congruence.
Defined.

(** ** Nobody answers *)

Lemma handle_push_conns now us : forall c, k_conns (handle_push now c us) = k_conns c.
Proof.
  induction us as [|u us IH]; intros c; [done|]. transitivity (k_conns (hear now c u)); [apply IH|].
  unfold hear, handle_node_update. by destruct (k_nodes c !! ni_id u).
Qed.

(** A handler takes a message that waits on its connection and, unless it is the Hello, writes nothing. *)
Lemma handle_step_silent `{HH : Hasher} now_ms now p j first conn t m rest :
  k_conns p !! j = Some conn -> cn_connected conn = true -> k_running p = true ->
  pieces_ok (c_in (cn_io conn)) -> concat (c_in (cn_io conn)) = encode t m 0 ++ rest -> sendable m ->
  (first = true -> forall s n cs, m <> HelloMessage s n cs) ->
  exists p' conn', handle_step now_ms now p j first = Done (true, p') /\ k_conns p' !! j = Some conn' /\
    cn_connected conn' = true /\ concat (c_in (cn_io conn')) = rest /\ c_out (cn_io conn') = c_out (cn_io conn).
Proof.
  intros Ej Hcon Hrun Hin Hcat (Hok & Hd & Hf) Hhello.
  destruct (Connection_receive_spec conn t m rest Hin Hf Hcat) as (in' & Hin' & Hc' & Er).
  rewrite received_ok in Er by done. cbn [mbind outcome_bind] in Er. set (conn' := mkConnection _ _) in Er.
  set (p1 := with_conns p (<[j := conn']> (k_conns p))).
  assert (receive_on p j = Done (Some (wire m), p1)) as Erp by (unfold receive_on; rewrite Ej, Er; done).
  assert (k_conns p1 !! j = Some conn') as Ej1 by (simpl; apply list_lookup_insert_eq; by eapply lookup_lt_Some).
  assert (exists p', handle_step now_ms now p j first = Done (true, p') /\ k_conns p' = k_conns p1) as (p' & Eh & Ec).
  { unfold handle_step, handle_first, handle_next. destruct first.
    - rewrite Erp. cbn [mbind outcome_bind]. specialize (Hhello eq_refl). destruct m; try done; try (by exists p1). by destruct (Hhello sender cluster_name capabilities).
    - unfold connected_at. rewrite Ej, Hcon, Hrun. cbn [andb negb]. rewrite Erp. cbn [mbind outcome_bind].
      destruct m; try done; try (by exists p1). eexists. split; [done|]. apply handle_push_conns. }
  exists p', conn'. rewrite Ec. split_and!; done.
Qed.

(** A request to a node from which nothing comes back. *)
Lemma exchange_silent `{HH : Hasher} now_ms c node n k conn m :
  get_node c node = Some n -> nd_connection n = Some k -> k_conns c !! k = Some conn -> cn_connected conn = true ->
  sched_ok (c_sched (cn_io conn)) -> c_in (cn_io conn) = [] ->
  exists c', exchange now_ms c node m = Done (Answered None, c').
Proof.
  intros En Ek Ec Hcon Hs Hin. unfold exchange, ensure_connection. rewrite En. cbn [mbind option_bind]. rewrite Ek. unfold connected_at. rewrite Ec, Hcon.
  unfold send_on. rewrite Ec. destruct (Connection_send_spec now_ms conn m Hs) as (sched' & -> & Hs'). cbn [mbind outcome_bind].
  change (is_ok make_ok) with true. cbn [negb]. unfold receive_on. cbn [with_conns k_conns].
  rewrite list_lookup_insert_eq by (by eapply lookup_lt_Some). unfold Connection_receive. cbn [cn_io]. rewrite Hin. by eexists.
Qed.

(** The cluster does not serve data. A node that receives a get, put or delete request on a connection,
    as its first message or later, takes it from the connection and writes nothing back; so a node that
    has sent one, and to which nothing else comes, reads a miss, or reports an invalid response. *)
Theorem cluster_never_answers `{HH : Hasher} now_ms now t p j first pconn m rest c node n k conn key opts value wopts :
  k_conns p !! j = Some pconn -> cn_connected pconn = true -> k_running p = true ->
  pieces_ok (c_in (cn_io pconn)) -> concat (c_in (cn_io pconn)) = encode t m 0 ++ rest -> sendable m ->
  m ∈ [GetMessage key false (ro_range opts); PutMessage key value (wo_ttl wopts) (wo_flags wopts); DeleteMessage key] ->
  get_node c node = Some n -> nd_connection n = Some k -> k_conns c !! k = Some conn -> cn_connected conn = true ->
  sched_ok (c_sched (cn_io conn)) -> c_in (cn_io conn) = [] ->
  (exists p' pconn', handle_step now_ms now p j first = Done (true, p') /\ k_conns p' !! j = Some pconn' /\
     concat (c_in (cn_io pconn')) = rest /\ c_out (cn_io pconn') = c_out (cn_io pconn)) /\
  (exists c', remote_get now_ms c node key opts = Done (ReadResult_default, c')) /\
  (exists c', remote_put now_ms c node key value wopts = Done (status_error NetworkError (str "Invalid response"), c')) /\
  (exists c', remote_delete now_ms c node key = Done (status_error NetworkError (str "Invalid response"), c')).
Proof.
  intros Ej Hpc Hrun Hin Hcat Hok Hm En Ek Ec Hcon Hs Hempty. split.
  - destruct (handle_step_silent now_ms now p j first pconn t m rest Ej Hpc Hrun Hin Hcat Hok) as (p' & pc & E & Epc & _ & Hr & Ho).
    { intros _ s nm cs ->. rewrite !elem_of_cons, elem_of_nil in Hm. naive_solver. }
    exists p', pc. done.
  - unfold remote_get, remote_put, remote_delete.
    split_and!; edestruct (exchange_silent now_ms c node n k conn) as (c' & ->); try done; cbn [mbind outcome_bind]; by eexists.
Qed.

(** Two nodes that know each other, connected, with a request on its way. *)
Definition sample_peers (mine theirs : list bytes) : Cluster * Cluster :=
  let conn input := mkConnection (mkConn input [] []) true in
  (mkCluster 17 {[17 := ClusterNode_make (sample_info 17 1); 99 := mkNode (sample_info 99 1) (Some 0%nat)]} (HashRing_make 3)
     [conn mine] [] [] [] [] true ∅,
   mkCluster 99 {[99 := ClusterNode_make (sample_info 99 1)]} (HashRing_make 3) [conn theirs] [] [(0%nat, false)] [] [] true ∅).

Lemma cluster_never_answers_witness :
  let key := @CacheKey_make fnv_hasher (str "k") in
  let msg := GetMessage key false None in
  let '(c, p) := sample_peers [] [encode 5 msg 0] in
  (exists p' pconn', handle_step (HH := fnv_hasher) 0 0 p 0 false = Done (true, p') /\ k_conns p' !! 0%nat = Some pconn' /\
     concat (c_in (cn_io pconn')) = [] /\ c_out (cn_io pconn') = []) /\
  (exists c', remote_get (HH := fnv_hasher) 0 c 99 key ReadOptions_default = Done (ReadResult_default, c')).
Proof.
  intros key msg.
  destruct (cluster_never_answers (HH := fnv_hasher) 0 0 5 (sample_peers [] [encode 5 msg 0]).2 0 false
    (mkConnection (mkConn [encode 5 msg 0] [] []) true) msg [] (sample_peers [] [encode 5 msg 0]).1 99 (mkNode (sample_info 99 1) (Some 0%nat)) 0
    (mkConnection (mkConn [] [] []) true) key ReadOptions_default [] WriteOptions_default)
    as (H1 & H2 & _); try reflexivity.
  - repeat constructor. vm_compute. discriminate.
  - repeat constructor; vm_compute; congruence.
  - left.
  - constructor.
  - split; [exact H1|exact H2].
Defined.

(** ** The coordinator on a cluster of such nodes *)

(** Nothing comes in on any connection, and no new one can be made. *)
Definition silent (c : Cluster) : Prop :=
  k_net c = [] /\ Forall (fun conn => sched_ok (c_sched (cn_io conn)) /\ c_in (cn_io conn) = []) (k_conns c).

Lemma exchange_of_silent `{HH : Hasher} now_ms c node m :
  silent c -> exists r c', exchange now_ms c node m = Done (r, c') /\ (r = NoConnection \/ r = Answered None) /\ silent c' /\ k_local c' = k_local c.
Proof.
  intros Hsil. pose proof Hsil as [Hnet Hconns]. unfold exchange, ensure_connection, connect_to_node. rewrite Hnet.
  destruct (get_node c node ≫= nd_connection) as [k|]; [|exists NoConnection, c; by eauto].
  unfold connected_at. destruct (k_conns c !! k) as [conn|] eqn:Ek; [|exists NoConnection, c; by eauto].
  destruct (cn_connected conn); [|exists NoConnection, c; by eauto].
  pose proof (Forall_lookup_1 _ _ _ _ Hconns Ek) as [Hs Hin]. unfold send_on. rewrite Ek.
  destruct (Connection_send_spec now_ms conn m Hs) as (sched' & -> & Hs'). cbn [mbind outcome_bind]. change (is_ok make_ok) with true. cbn [negb].
  unfold receive_on. cbn [with_conns k_conns]. rewrite list_lookup_insert_eq by (by eapply lookup_lt_Some).
  unfold Connection_receive. cbn [cn_io]. rewrite Hin. cbn [read_stream]. eexists _, _. split; [reflexivity|]. split_and!; [by right| |done].
  split; [done|]. cbn [with_conns k_conns]. rewrite list_insert_insert_eq. by apply Forall_insert.
Qed.

Lemma fetch_of_silent `{HH : Hasher} kcfg MT DT now now_ms nodes key opts : forall co cl,
  co_cluster MT DT (cluster_link kcfg now_ms) co = Some cl -> silent cl ->
  exists co', fetch_nodes MT DT (cluster_link kcfg now_ms) now co nodes key opts ReadResult_default = Done (ReadResult_default, co').
Proof.
  induction nodes as [|node nodes IH]; intros co cl Hco Hs; cbn [fetch_nodes]; [by eexists|].
  rewrite Hco. case_bool_decide; [eapply IH; eauto|]. cbn [link_remote_get cluster_link]. unfold remote_get.
  destruct (exchange_of_silent now_ms cl node (GetMessage key false (ro_range opts)) Hs) as (r & cl' & -> & Hr & Hs' & _).
  cbn [mbind outcome_bind]. destruct Hr as [->| ->]; cbn iota; change (rr_is_hit ReadResult_default) with false;
    change (rr_is_partial ReadResult_default) with false; cbn [andb]; (eapply IH; [reflexivity|done]).
Qed.

(** The coordinator on a cluster of such nodes: a get that both local tiers miss, asked of any nodes the ring
    names, is a miss, whatever the other nodes hold. *)
Theorem coord_cluster_miss `{HH : Hasher} kcfg MT DT cfg now now_ms co co1 co2 cl key opts ids :
  get_memory MT DT (cluster_link kcfg now_ms) cfg now co key opts = Done (None, co1) ->
  get_disk MT DT (cluster_link kcfg now_ms) now co1 key opts = Done (None, co2) ->
  co_cluster _ _ _ co2 = Some cl -> silent cl -> nodes_for_key kcfg cl key 0 = Done ids ->
  exists co', co_get MT DT (cluster_link kcfg now_ms) cfg now co key opts = Done (ReadResult_default, co').
Proof.
  intros Hm Hd Hcl Hs Hids. unfold co_get. rewrite Hm. cbn [mbind outcome_bind]. rewrite Hd. cbn [mbind outcome_bind].
  destruct (_ && _); [|by eexists]. unfold fetch_from_cluster. rewrite Hcl. cbn [link_nodes_for_key cluster_link]. rewrite Hids. cbn [mbind outcome_bind].
  destruct (fetch_of_silent kcfg MT DT now now_ms ids key opts co2 cl Hcl Hs) as [co' ->]. cbn [mbind outcome_bind].
  by destruct (settles opts ReadResult_default); eexists.
Qed.

Lemma coord_cluster_miss_witness :
  let cl := (sample_peers [] []).1 in
  let link := cluster_link (HH := fnv_hasher) sample_cluster_cfg 0 in
  exists co', co_get mem dsk link co_cfg 0 (mkCoordinator mem dsk link None None (Some cl)) (@CacheKey_make fnv_hasher (str "a")) ReadOptions_default
    = Done (ReadResult_default, co').
Proof.
  intros cl link. eapply (coord_cluster_miss (HH := fnv_hasher) sample_cluster_cfg mem dsk co_cfg 0 0); try reflexivity.
  split; [reflexivity|]. repeat constructor.
Defined.
