(* ===== verification/GossipLoops.v ===== *)
(** * The loops of the gossip protocol: [GossipProtocol::start], [stop], [gossip_loop] and
      [failure_detection_loop] of [src/network/cluster.cpp]

    [Cluster.v] lets a gossip round or a failure check happen at any time. Here are the two coroutines that
    do it: each is at the head of its loop or asleep until its timer fires, and looks at [running_] in both
    places. Everything else that happens to the node meanwhile is a step of [Cluster.v]. *)

From S2P Require Import Prelude CStd CText CDouble Types Chunk CacheApi CacheTier Codec Coordinator HashRing SparseCache UnixServer Cluster.
Open Scope Z_scope.

Inductive Loop := GossipLoop | FailureLoop.

#[export] Instance Loop_eq_dec : EqDecision Loop.
Proof. solve_decision. Defined.

(** [gs_loops]: the coroutines, each asleep ([true]) or at the head of its loop ([false]). *)
Record Gossip := mkGossip { gs_running : bool; gs_loops : list (Loop * bool); gs_cluster : Cluster }.

Definition with_loops (g : Gossip) (loops : list (Loop * bool)) : Gossip := mkGossip (gs_running g) loops (gs_cluster g).

Definition gossip_start (g : Gossip) : Gossip :=
  mkGossip true (gs_loops g ++ [(GossipLoop, false); (FailureLoop, false)]) (gs_cluster g).

Definition gossip_stop (g : Gossip) : Gossip := mkGossip false (gs_loops g) (gs_cluster g).

Section loops.
Context `{HH : Hasher} (cfg : ClusterConfig).

(** What a loop does when its timer has fired: the clock, and the order of the shuffle, are arguments. *)
Definition loop_body (now_ms now : Z) (order : list NodeId) (l : Loop) (c : Cluster) : outcome Cluster :=
  match l with
  | GossipLoop => gossip_round cfg now_ms c order
  | FailureLoop => Done (check_failures cfg now c)
  end.

(** Coroutine [i] runs until it sleeps again or ends: from the head of the loop to the timer, or from the timer
    through [if (!running_) break] and the body back to the head. *)
Definition resume (now_ms now : Z) (order : list NodeId) (g : Gossip) (i : nat) : outcome Gossip :=
  match gs_loops g !! i with
  | None => Done g
  | Some (l, false) => Done (with_loops g (if gs_running g then <[i := (l, true)]> (gs_loops g) else delete i (gs_loops g)))
  | Some (l, true) =>
      if negb (gs_running g) then Done (with_loops g (delete i (gs_loops g)))
      else c ← loop_body now_ms now order l (gs_cluster g); Done (mkGossip (gs_running g) (<[i := (l, false)]> (gs_loops g)) c)
  end.

Inductive gossip_step : Gossip -> Gossip -> Prop :=
| gossip_resumes g now_ms now order i g' :
    (i < length (gs_loops g))%nat -> order ≡ₚ (fun n => ni_id (nd_info n)) <$> active_nodes (gs_cluster g) ->
    resume now_ms now order g i = Done g' -> gossip_step g g'
| gossip_other g c : cluster_step cfg (gs_cluster g) c -> gossip_step g (mkGossip (gs_running g) (gs_loops g) c).

(** A step of the loops is a step of the node, or changes nothing of it. *)
Lemma gossip_step_cluster g g' : gossip_step g g' -> rtc (cluster_step cfg) (gs_cluster g) (gs_cluster g').
Proof.
  destruct 1 as [g now_ms now order i g' _ Ho Hr|g c Hs]; [|by apply rtc_once].
  unfold resume in Hr. destruct (gs_loops g !! i) as [[l []]|]; [|by injection Hr as <-..].
  destruct (negb (gs_running g)); [by injection Hr as <-|]. apply outcome_bind_Done in Hr as (c & Hb & [= <-]). apply rtc_once.
  destruct l; cbn [loop_body] in Hb; [by eapply step_gossip|]. injection Hb as <-. apply step_check.
Qed.

(** What resuming does when the protocol has been stopped. *)
Lemma resume_stopped now_ms now order g i : gs_running g = false -> (i < length (gs_loops g))%nat ->
  resume now_ms now order g i = Done (with_loops g (delete i (gs_loops g))).
Proof.
  intros Hr Hi. unfold resume. apply lookup_lt_is_Some in Hi as [[l b] ->]. rewrite Hr. by destruct b.
Qed.

(** How many coroutines of a kind there are. *)
Definition loop_count (l : Loop) (g : Gossip) : nat := length (filter (fun x => x.1 = l) (gs_loops g)).

Lemma count_start l g : loop_count l (gossip_start g) = S (loop_count l g).
Proof.
  unfold loop_count, gossip_start. cbn [gs_loops]. rewrite filter_app, length_app, !filter_cons, filter_nil. cbn [fst].
  destruct l; repeat case_decide; try done; cbn; lia.
Qed.

Lemma filter_insert_count (l : Loop) i b b' : forall xs : list (Loop * bool),
  xs !! i = Some (l, b) -> forall k, length (filter (fun x => x.1 = k) (<[i := (l, b')]> xs)) = length (filter (fun x => x.1 = k) xs).
Proof.
  induction i as [|i IH]; intros [|x xs] Hi k; try done.
  - cbn in Hi. injection Hi as ->. cbn [insert list_insert]. rewrite !filter_cons. cbn [fst]. by case_decide.
  - change (<[S i := (l, b')]> (x :: xs)) with (x :: <[i := (l, b')]> xs). rewrite !filter_cons. case_decide; cbn [length]; [f_equal|]; by apply IH.
Qed.

Lemma gossip_step_counts g g' l : gossip_step g g' -> gs_running g = true -> gs_running g' = true /\ loop_count l g' = loop_count l g.
Proof.
  destruct 1 as [g now_ms now order i g' _ _ Hr|g c _]; [|done]. intros Hrun. unfold resume in Hr. rewrite Hrun in Hr. cbn [negb] in Hr.
  destruct (gs_loops g !! i) as [[k []]|] eqn:Ei; [|injection Hr as <-|by injection Hr as <-].
  - apply outcome_bind_Done in Hr as (c & _ & [= <-]). cbn. split; [done|]. by eapply filter_insert_count.
  - unfold loop_count. cbn. split; [done|]. by eapply filter_insert_count.
Qed.

Lemma gossip_steps_counts g g' l : rtc gossip_step g g' -> gs_running g = true -> gs_running g' = true /\ loop_count l g' = loop_count l g.
Proof.
  induction 1 as [|g g1 g' Hs _ IH]; [done|]. intros Hr. destruct (gossip_step_counts _ _ l Hs Hr) as [Hr1 <-]. by apply IH.
Qed.

(** The loops of the stopped protocol resumed one after another: [woken] their positions. *)
Fixpoint resume_all (now_ms now : Z) (order : list NodeId) (g : Gossip) (woken : list nat) : outcome Gossip :=
  match woken with
  | [] => Done g
  | i :: rest => g' ← resume now_ms now order g i; resume_all now_ms now order g' rest
  end.

End loops.

(** ** Properties *)

(** One start gives one loop of each kind, whatever the node does meanwhile: gossip goes on at its interval,
    and every round and check is a step of the node. *)
Theorem gossip_runs `{HH : Hasher} cfg c g l :
  rtc (gossip_step cfg) (gossip_start (mkGossip false [] c)) g ->
  gs_running g = true /\ loop_count l g = 1%nat /\ rtc (cluster_step cfg) c (gs_cluster g).
Proof.
  intros Hr. destruct (gossip_steps_counts cfg _ _ l Hr eq_refl) as [Hrun Hc]. split_and!; [done|by destruct l|].
  change c with (gs_cluster (gossip_start (mkGossip false [] c))). clear Hrun Hc.
  induction Hr as [|g1 g2 g3 Hs _ IH]; [done|]. etransitivity; [by apply gossip_step_cluster|done].
Qed.

(** Stopping the gossip protocol. Once it is stopped no loop does anything any more: whichever loops wake
    up, in any order and at any time, the node is left alone, and each of them ends the first time it runs,
    so that after as many resumptions as there are loops none is left. *)
Theorem gossip_stops `{HH : Hasher} cfg now_ms now order g woken :
  (forall n i, woken !! n = Some i -> (i + n < length (gs_loops g))%nat) ->
  exists g', resume_all cfg now_ms now order (gossip_stop g) woken = Done g' /\ gs_running g' = false /\ gs_cluster g' = gs_cluster g /\
    (length (gs_loops g') = length (gs_loops g) - length woken)%nat.
Proof.
  change (gs_loops g) with (gs_loops (gossip_stop g)). change (gs_cluster g) with (gs_cluster (gossip_stop g)).
  assert (gs_running (gossip_stop g) = false) as Hr by done. revert Hr. generalize (gossip_stop g). clear g.
  induction woken as [|i woken IH]; intros g Hr His; cbn [resume_all].
  - exists g. cbn. split_and!; [done..|lia].
  - pose proof (His 0%nat i eq_refl) as Hi. rewrite resume_stopped by (done || lia). cbn [mbind outcome_bind].
    assert (length (delete i (gs_loops g)) = length (gs_loops g) - 1)%nat as Hl by (apply length_delete, lookup_lt_is_Some; lia).
    destruct (IH (with_loops g (delete i (gs_loops g)))) as (g' & -> & Hr' & Hc & Hlen); [done| |].
    { intros n j Hj. cbn. rewrite Hl. specialize (His (S n) j Hj). lia. }
    exists g'. split_and!; [done..|]. rewrite Hlen. cbn. rewrite Hl. lia.
Qed.

(** A stop followed by a start before the timers have fired does not replace the loops: the old ones find
    [running_] set when they wake up, and from then on there are two of each. *)
Theorem restart_doubles `{HH : Hasher} cfg g g' l :
  gs_running g = true -> rtc (gossip_step cfg) (gossip_start (gossip_stop g)) g' -> loop_count l g' = S (loop_count l g).
Proof.
  intros _ Hr. destruct (gossip_steps_counts cfg _ _ l Hr eq_refl) as [_ ->]. by rewrite count_start.
Qed.

#[local] Existing Instance fnv_hasher.

Definition sample_gossip : Gossip := gossip_start (mkGossip false [] (Cluster_make sample_cluster_cfg 17)).

Lemma gossip_runs_witness : gs_running sample_gossip = true /\ loop_count GossipLoop sample_gossip = 1%nat.
Proof.
  destruct (gossip_runs sample_cluster_cfg (Cluster_make sample_cluster_cfg 17) sample_gossip GossipLoop) as (Hr & Hc & _); [apply rtc_refl|].
  split; [exact Hr|exact Hc].
Defined.

Lemma gossip_stops_witness :
  exists g', resume_all sample_cluster_cfg 5 0 [] (gossip_stop sample_gossip) [1; 0]%nat = Done g' /\ gs_running g' = false /\
    gs_cluster g' = Cluster_make sample_cluster_cfg 17 /\ gs_loops g' = [].
Proof.
  destruct (gossip_stops sample_cluster_cfg 5 0 [] sample_gossip [1; 0]%nat) as (g' & E & Hr & Hc & Hl).
  - intros [|[|n]] i; cbn; intros [= <-]; lia.
  - exists g'. split_and!; [exact E|exact Hr|exact Hc|]. apply nil_length_inv. exact Hl.
Defined.

Lemma restart_doubles_witness : loop_count GossipLoop (gossip_start (gossip_stop sample_gossip)) = 2%nat.
Proof. apply (restart_doubles sample_cluster_cfg sample_gossip (gossip_start (gossip_stop sample_gossip)) GossipLoop eq_refl). apply rtc_refl. Defined.
