(* ===== verification/ClusterNetwork.v ===== *)
(** * Two nodes on a network: joining through a seed

    [Cluster.v] describes one node with whatever arrives on its connections. Here two nodes run against
    each other: what one writes on a connection is what the other reads from its end, cut into pieces in
    any way. The joining node runs [connect_to_seed], the seed accepts the connection and handles its
    first message; both go through the codec. The theorems give the state of both nodes afterwards, and
    what becomes of the first gossip on the new connection. *)

From S2P Require Import Prelude CStd CText CDouble Types Chunk CacheApi CacheTier Codec Coordinator HashRing SparseCache UnixServer Cluster.
Open Scope Z_scope.

Section handshake.
Context `{HH : Hasher}.

(** One end of a new connection: nothing written yet, the peer's bytes ahead, and writes that make progress. *)
Definition fresh_end (io : Conn) (arriving : bytes) : Prop :=
  pieces_ok (c_in io) /\ sched_ok (c_sched io) /\ c_out io = [] /\ concat (c_in io) = arriving.

(** The local node of a cluster and what it says of itself. *)
Definition local_is (c : Cluster) (info : NodeInfo) : Prop :=
  exists n, k_nodes c !! k_local c = Some n /\ nd_info n = info /\ ni_id info = k_local c.

Definition hello_of (cfg : ClusterConfig) (info : NodeInfo) : Message := HelloMessage info (kc_cluster_name cfg) [].
Definition ack_of (info : NodeInfo) : Message := HelloAckMessage info true [].

(** [c'] knows [info] and has the open connection [k] to it, on which it has written [out] and on which [rest] waits. *)
Record linked (c c' : Cluster) (info : NodeInfo) (k : nat) (out rest : bytes) : Prop := {
  lk_local : k_local c' = k_local c;
  lk_running : k_running c' = k_running c;
  lk_node : exists n, k_nodes c' !! ni_id info = Some n /\ nd_connection n = Some k /\
    (k_nodes c !! ni_id info = None -> nd_info n = info);
  lk_others : forall id, id <> ni_id info -> k_nodes c' !! id = k_nodes c !! id;
  lk_ring : k_ring c' = match k_nodes c !! ni_id info with Some _ => k_ring c | None => add_node (k_ring c) (ni_id info) end;
  lk_conn : exists conn, k_conns c' !! k = Some conn /\ cn_connected conn = true /\ c_out (cn_io conn) = out /\
    pieces_ok (c_in (cn_io conn)) /\ concat (c_in (cn_io conn)) = rest /\ sched_ok (c_sched (cn_io conn))
}.

(** After [handle_node_update] and [set_connection]. *)
Lemma update_then_link c info k conn out rest : k_conns c !! k = Some conn -> cn_connected conn = true ->
  c_out (cn_io conn) = out -> pieces_ok (c_in (cn_io conn)) -> concat (c_in (cn_io conn)) = rest -> sched_ok (c_sched (cn_io conn)) ->
  linked c (node_set_connection (handle_node_update c info) (ni_id info) k) info k out rest.
Proof.
  intros Hk Hcon Ho Hin Hr Hs. unfold handle_node_update. destruct (k_nodes c !! ni_id info) as [n|] eqn:En.
  - split; cbn; rewrite ?En; try done.
    + eexists. rewrite lookup_alter_eq, lookup_insert_eq. split; [reflexivity|]. done.
    + intros id Hne. rewrite lookup_alter_ne, lookup_insert_ne by done. done.
    + by exists conn.
  - split; cbn; rewrite ?En; try done.
    + eexists. rewrite lookup_alter_eq, lookup_insert_eq. split; [reflexivity|]. done.
    + intros id Hne. rewrite lookup_alter_ne, lookup_insert_ne by done. done.
    + by exists conn.
Qed.

(** Adding a connection, or a handler, changes nothing of the table. *)
Lemma linked_from c0 c c' info k out rest : k_local c0 = k_local c -> k_running c0 = k_running c -> k_nodes c0 = k_nodes c ->
  k_ring c0 = k_ring c -> linked c0 c' info k out rest -> linked c c' info k out rest.
Proof. intros E1 E2 E3 E4 [? ? ? ? ? ?]. split; rewrite <- ?E1, <- ?E2, <- ?E3, <- ?E4; done. Qed.

Lemma linked_spawn c c' info k out rest j : linked c c' info k out rest -> linked c (spawn_handler c' j) info k out rest.
Proof. intros [? ? ? ? ? ?]. by split. Qed.

(** The joining node. *)
Lemma seed_joins cfg t c seed host port io net info peer tp rest :
  local_is c info -> parse_seed seed = Done (Some (host, port)) -> k_net c = Some io :: net ->
  fresh_end io (encode tp (ack_of peer) 0 ++ rest) -> sendable (ack_of peer) ->
  exists c', connect_to_seed cfg t c seed = Done c' /\
    linked c c' (wire_node peer) (length (k_conns c)) (encode t (hello_of cfg info) 0) rest /\
    k_tasks c' = k_tasks c ++ [(length (k_conns c), true)] /\ k_conns c' !! length (k_conns c) <> None.
Proof.
  intros (n & Hn & Hi & _) Hp Hnet (Hin & Hs & Ho & Hcat) (Hok & Hd & Hf).
  unfold connect_to_seed. rewrite Hp. cbn [mbind outcome_bind]. unfold connect_to_node. rewrite Hnet.
  cbn [new_connection with_net with_conns k_conns k_local]. unfold get_node. cbn [with_net with_conns k_nodes k_local].
  rewrite Hn, Hi. set (kA := length (k_conns c)).
  assert (forall x y : Connection, <[kA := y]> (k_conns c ++ [x]) = k_conns c ++ [y]) as Hins.
  { intros x y. unfold kA. rewrite insert_app_r_alt, Nat.sub_diag by lia. done. }
  assert (forall x : Connection, (k_conns c ++ [x]) !! kA = Some x) as Hlk.
  { intros x. by apply list_lookup_middle. }
  unfold send_on. cbn [with_net with_conns k_conns]. rewrite Hlk.
  destruct (Connection_send_spec t (mkConnection io true) (HelloMessage info (kc_cluster_name cfg) []) Hs) as (sched' & -> & Hs').
  cbn [mbind outcome_bind]. change (is_ok make_ok) with true. cbn [negb]. unfold receive_on. cbn [with_net with_conns k_conns].
  rewrite Hins, Hlk. cbn [cn_io cn_connected].
  set (conn1 := mkConnection (mkConn (c_in io) (c_out io ++ encode t (HelloMessage info (kc_cluster_name cfg) []) 0) sched') true).
  destruct (Connection_receive_spec conn1 tp (ack_of peer) rest Hin Hf Hcat) as (in' & Hin' & Hc' & ->).
  rewrite received_ok by done. cbn [mbind outcome_bind ack_of wire negb]. cbn [with_net with_conns k_conns].
  rewrite Hins. set (conn2 := mkConnection (mkConn in' _ _) _). set (c3 := with_conns _ (k_conns c ++ [conn2])).
  eexists. split; [reflexivity|]. split_and!.
  - apply linked_spawn, (linked_from c3); [reflexivity..|].
    apply (update_then_link c3 (wire_node peer) kA conn2); try done; [apply Hlk|]. cbn. by rewrite Ho.
  - unfold handle_node_update. by destruct (k_nodes c3 !! ni_id (wire_node peer)).
  - unfold handle_node_update. destruct (k_nodes c3 !! ni_id (wire_node peer)); cbn; by rewrite Hlk.
Qed.

(** The seed. *)
Lemma seed_accepts t c io info peer name tp rest :
  local_is c info -> ni_id peer <> k_local c ->
  fresh_end io (encode tp (HelloMessage peer name []) 0 ++ rest) -> sendable (HelloMessage peer name []) ->
  let k := length (k_conns c) in
  exists c', handle_first t (accept_one c io) k = Done (true, c') /\ linked c c' (wire_node peer) k (encode t (ack_of info) 0) rest.
Proof.
  intros (n & Hn & Hi & _) Hne (Hin & Hs & Ho & Hcat) (Hok & Hd & Hf) k.
  unfold handle_first, receive_on, accept_one, new_connection. cbn [spawn_handler with_tasks with_conns k_conns].
  assert (forall x y : Connection, <[k := y]> (k_conns c ++ [x]) = k_conns c ++ [y]) as Hins.
  { intros x y. unfold k. rewrite insert_app_r_alt, Nat.sub_diag by lia. done. }
  assert (forall x : Connection, (k_conns c ++ [x]) !! k = Some x) as Hlk by (intros x; by apply list_lookup_middle).
  rewrite Hlk. destruct (Connection_receive_spec (mkConnection io true) tp (HelloMessage peer name []) rest Hin Hf Hcat)
    as (in' & Hin' & Hc' & ->). rewrite received_ok by done. cbn [mbind outcome_bind wire].
  cbn [with_conns with_tasks k_conns cn_io cn_connected]. rewrite Hins. fold k.
  set (conn1 := mkConnection (mkConn in' _ _) _). set (c1 := with_conns _ (k_conns c ++ [conn1])). set (c3 := node_set_connection _ _ _).
  assert (linked c c3 (wire_node peer) k [] rest) as Hlink.
  { apply (linked_from c1); [reflexivity..|]. apply (update_then_link c1 (wire_node peer) k conn1); try done. apply Hlk. }
  assert (get_node c3 (k_local c3) = Some n) as ->.
  { unfold get_node. rewrite (lk_local _ _ _ _ _ _ Hlink), (lk_others _ _ _ _ _ _ Hlink); [done|]. cbn. congruence. }
  rewrite Hi. destruct (lk_conn _ _ _ _ _ _ Hlink) as (conn & Hk & Hcon & Hout & Hin2 & Hc2 & Hs2). unfold send_on. rewrite Hk.
  destruct (Connection_send_spec t conn (ack_of info) Hs2) as (sched' & Esend & Hs'). unfold ack_of in Esend. rewrite Esend.
  cbn [mbind outcome_bind]. eexists. split; [reflexivity|]. destruct Hlink as [H1 H2 H3 H4 H5 _].
  split; try done. eexists. cbn [with_conns k_conns]. rewrite list_lookup_insert_eq by (by eapply lookup_lt_Some).
  split; [reflexivity|]. cbn [cn_connected cn_io c_out c_in c_sched]. by rewrite Hout.
Qed.

(** A first message that is no Hello is taken off the connection and has no other effect. *)
Lemma first_gossip_dropped now_ms c k conn t sender nodes rest :
  k_conns c !! k = Some conn -> pieces_ok (c_in (cn_io conn)) ->
  concat (c_in (cn_io conn)) = encode t (GossipPushMessage sender nodes) 0 ++ rest -> sendable (GossipPushMessage sender nodes) ->
  exists c', handle_first now_ms c k = Done (true, c') /\ k_nodes c' = k_nodes c /\ k_ring c' = k_ring c /\ k_last_heard c' = k_last_heard c.
Proof.
  intros Hk Hin Hcat (Hok & Hd & Hf). unfold handle_first, receive_on. rewrite Hk.
  destruct (Connection_receive_spec conn t _ rest Hin Hf Hcat) as (in' & _ & _ & ->). rewrite received_ok by done.
  cbn [mbind outcome_bind wire]. by eexists.
Qed.

(** Every later one is heard. *)
Lemma next_gossip_heard now c k conn t sender nodes rest :
  k_running c = true -> k_conns c !! k = Some conn -> cn_connected conn = true -> pieces_ok (c_in (cn_io conn)) ->
  concat (c_in (cn_io conn)) = encode t (GossipPushMessage sender nodes) 0 ++ rest -> sendable (GossipPushMessage sender nodes) ->
  exists c1 c', handle_next now c k = Done (true, c') /\ c' = handle_push now c1 (wire_node <$> nodes) /\ k_nodes c1 = k_nodes c.
Proof.
  intros Hr Hk Hcon Hin Hcat (Hok & Hd & Hf). unfold handle_next, connected_at. rewrite Hr, Hk, Hcon. cbn [andb negb].
  unfold receive_on. rewrite Hk. destruct (Connection_receive_spec conn t _ rest Hin Hf Hcat) as (in' & _ & _ & ->).
  rewrite received_ok by done. cbn [mbind outcome_bind wire]. by eexists _, _.
Qed.

End handshake.

(** ** Two new nodes *)

Section two_nodes.
Context `{HH : Hasher} (cfgA cfgB : ClusterConfig) (a b : NodeId).

Lemma make_local cfg id : local_is (Cluster_make cfg id) (local_info cfg id).
Proof. exists (ClusterNode_make (local_info cfg id)). cbn. by rewrite lookup_singleton_eq. Qed.

Lemma with_net_local c net info : local_is c info -> local_is (with_net c net) info.
Proof. done. Qed.

Lemma make_full cfg id U : no_shared_points (kc_virtual_nodes cfg) U -> id ∈ U -> ring_full (k_ring (Cluster_make cfg id)).
Proof.
  intros Hns Hid. apply add_node_full; [apply HashRing_make_wf|intros n i Hn; cbn in Hn; set_solver|].
  eapply no_shared_mono; [exact Hns|cbn; set_solver].
Qed.

(** A new node linked to one other: its members and its ring. *)
Lemma linked_pair cfg id c c' info k out rest : id <> ni_id info -> k_nodes c = k_nodes (Cluster_make cfg id) ->
  k_ring c = k_ring (Cluster_make cfg id) -> linked c c' info k out rest ->
  (forall i, is_Some (k_nodes c' !! i) <-> i = id \/ i = ni_id info) /\ k_ring c' = add_node (k_ring (Cluster_make cfg id)) (ni_id info) /\
  exists n, k_nodes c' !! ni_id info = Some n /\ nd_info n = info.
Proof.
  intros Hne En Er [_ _ (n & Hn & _ & Hinfo) Ho Hr _]. rewrite En in *. cbn [Cluster_make k_nodes] in *.
  rewrite lookup_singleton_ne in Hinfo, Hr by congruence. rewrite Er in Hr. split_and!; [|done|by exists n; auto].
  intros i. destruct (decide (i = ni_id info)) as [->|Hi]; [rewrite Hn; naive_solver|]. rewrite Ho by done.
  destruct (decide (i = id)) as [->|Hi']; [rewrite lookup_singleton_eq; naive_solver|].
  rewrite lookup_singleton_ne by done. split; [by intros [? ?]|]. intros []; done.
Qed.

(** Nodes with the same members and the same ring route alike. *)
Lemma same_routes cfg c c' key count : k_ring c = k_ring c' ->
  (forall i, is_Some (k_nodes c !! i) <-> is_Some (k_nodes c' !! i)) ->
  nodes_for_key cfg c key count = nodes_for_key cfg c' key count.
Proof.
  intros Er Hs. unfold nodes_for_key. rewrite Er. destruct (get_nodes_key _ _ _) as [ids| | |]; cbn [mbind outcome_bind]; try done.
  f_equal. unfold routed, get_node. induction ids as [|i ids IH]; [done|]. cbn. by rewrite (bool_decide_ext _ _ (Hs i)), IH.
Qed.

Lemma rings_meet U : a <> b -> kc_virtual_nodes cfgA = kc_virtual_nodes cfgB ->
  no_shared_points (kc_virtual_nodes cfgA) U -> {[a; b]} ⊆ U ->
  add_node (k_ring (Cluster_make cfgA a)) b = add_node (k_ring (Cluster_make cfgB b)) a.
Proof.
  intros Hne Hv Hns HU.
  assert (forall cfg x y, kc_virtual_nodes cfg = kc_virtual_nodes cfgA -> {[x; y]} ⊆ U ->
    let r := add_node (k_ring (Cluster_make cfg x)) y in
    ring_wf r /\ ring_full r /\ nodes_ r = {[x; y]} /\ virtual_nodes_ r = kc_virtual_nodes cfgA) as Hr.
  { intros cfg x y Ev Hxy r. pose proof (ci_ring _ _ (Cluster_make_inv cfg x)) as [Hw Hvn].
    assert (nodes_ (k_ring (Cluster_make cfg x)) = {[x]}) as Hm by (cbn; rewrite add_node_members; cbn; set_solver).
    split_and!; [by apply add_node_wf| | |by unfold r; rewrite add_node_vn, Hvn].
    - apply add_node_full; [done|apply (make_full cfg x U); [by rewrite Ev|set_solver]|].
      rewrite Hvn, Ev, Hm. eapply no_shared_mono; [exact Hns|set_solver].
    - unfold r. rewrite add_node_members, Hm. set_solver. }
  destruct (Hr cfgA a b eq_refl HU) as (W1 & F1 & N1 & V1). destruct (Hr cfgB b a (eq_sym Hv)) as (W2 & F2 & N2 & V2); [set_solver|].
  apply full_rings_equal; try done; [rewrite N1, N2; set_solver|congruence].
Qed.

End two_nodes.

(** ** Properties *)

(** C14: joining through a seed, end to end. Two nodes on one connection, the bytes each one writes being the
    bytes the other one reads, in any pieces: the joining node's [connect_to_seed] and the seed's handler
    for the accepted connection both succeed; each then knows the other, with what the other says of itself,
    has the connection registered for it and the connection open, and nothing else of its table has changed. *)
Theorem seed_handshake `{HH : Hasher} cfgA tA tB A B seed host port ioA ioB net infoA infoB restA restB :
  local_is A infoA -> local_is B infoB -> ni_id infoA <> ni_id infoB ->
  parse_seed seed = Done (Some (host, port)) -> k_net A = Some ioA :: net ->
  fresh_end ioA (encode tB (ack_of infoB) 0 ++ restA) -> fresh_end ioB (encode tA (hello_of cfgA infoA) 0 ++ restB) ->
  sendable (ack_of infoB) -> sendable (hello_of cfgA infoA) ->
  exists A' B', connect_to_seed cfgA tA A seed = Done A' /\
    handle_first tB (accept_one B ioB) (length (k_conns B)) = Done (true, B') /\
    linked A A' (wire_node infoB) (length (k_conns A)) (encode tA (hello_of cfgA infoA) 0) restA /\
    linked B B' (wire_node infoA) (length (k_conns B)) (encode tB (ack_of infoB) 0) restB.
Proof.
  intros HA HB Hne Hp Hnet HioA HioB Hsack Hshello.
  destruct (seed_joins cfgA tA A seed host port ioA net infoA infoB tB restA HA Hp Hnet HioA Hsack) as (A' & EA & LA & _).
  destruct HB as (nb & Hnb & Hib & Eib).
  destruct (seed_accepts tB B ioB infoB infoA (kc_cluster_name cfgA) tA restB) as (B' & EB & LB).
  - by exists nb.
  - congruence.
  - exact HioB.
  - exact Hshello.
  - by exists A', B'.
Qed.

(** A cluster of two. A new node that joins a new seed with the same number of virtual nodes: afterwards
    both have the same two members and the same ring, and route every key to the same nodes. *)
Theorem seed_cluster_agrees `{HH : Hasher} cfgA cfgB a b U tA tB seed host port ioA ioB restA restB cfg :
  a <> b -> kc_virtual_nodes cfgA = kc_virtual_nodes cfgB -> no_shared_points (kc_virtual_nodes cfgA) U -> {[a; b]} ⊆ U ->
  parse_seed seed = Done (Some (host, port)) ->
  fresh_end ioA (encode tB (ack_of (local_info cfgB b)) 0 ++ restA) ->
  fresh_end ioB (encode tA (hello_of cfgA (local_info cfgA a)) 0 ++ restB) ->
  sendable (ack_of (local_info cfgB b)) -> sendable (hello_of cfgA (local_info cfgA a)) ->
  exists A' B', connect_to_seed cfgA tA (with_net (Cluster_make cfgA a) [Some ioA]) seed = Done A' /\
    handle_first tB (accept_one (Cluster_make cfgB b) ioB) 0 = Done (true, B') /\
    (forall id, is_Some (k_nodes A' !! id) <-> id = a \/ id = b) /\ (forall id, is_Some (k_nodes B' !! id) <-> id = a \/ id = b) /\
    (forall key count, nodes_for_key cfg A' key count = nodes_for_key cfg B' key count).
Proof.
  intros Hne Hv Hns HU Hp HioA HioB Hs1 Hs2.
  destruct (seed_joins cfgA tA (with_net (Cluster_make cfgA a) [Some ioA]) seed host port ioA [] (local_info cfgA a) (local_info cfgB b) tB restA)
    as (A' & EA & LA & _); try done; [apply with_net_local, make_local|].
  destruct (seed_accepts tB (Cluster_make cfgB b) ioB (local_info cfgB b) (local_info cfgA a) (kc_cluster_name cfgA) tA restB) as (B' & EB & LB);
    try done; [apply make_local|].
  destruct (linked_pair cfgA a (with_net (Cluster_make cfgA a) [Some ioA]) A' (wire_node (local_info cfgB b)) _ _ _ Hne eq_refl eq_refl LA) as (MA & RA & _).
  destruct (linked_pair cfgB b _ B' (wire_node (local_info cfgA a)) _ _ _ (not_eq_sym Hne) eq_refl eq_refl LB) as (MB & RB & _).
  cbn [wire_node ni_id local_info] in *. exists A', B'. split_and!; [done|done|done| |].
  - intros id. rewrite MB. tauto.
  - intros key count. apply same_routes; [|intros i; rewrite MA, MB; tauto]. rewrite RA, RB. by apply (rings_meet cfgA cfgB a b U).
Qed.

(** The joining node is deaf to the first gossip of its seed: the handler it spawns for the connection
    still waits for the Hello that opened it, so the first push is taken off the connection without
    effect; the seed hears the first push of the joining node. *)
Theorem seed_gossip_lost `{HH : Hasher} cfgA t tA tB A B seed host port ioA ioB net infoA infoB now senderA nodesA senderB nodesB restA restB :
  local_is A infoA -> local_is B infoB -> ni_id infoA <> ni_id infoB -> k_running B = true ->
  parse_seed seed = Done (Some (host, port)) -> k_net A = Some ioA :: net ->
  fresh_end ioA (encode tB (ack_of infoB) 0 ++ encode t (GossipPushMessage senderB nodesB) 0 ++ restA) ->
  fresh_end ioB (encode tA (hello_of cfgA infoA) 0 ++ encode t (GossipPushMessage senderA nodesA) 0 ++ restB) ->
  sendable (ack_of infoB) -> sendable (hello_of cfgA infoA) ->
  sendable (GossipPushMessage senderA nodesA) -> sendable (GossipPushMessage senderB nodesB) ->
  exists A' A'' B' B1 B'' kA, connect_to_seed cfgA tA A seed = Done A' /\ (kA, true) ∈ k_tasks A' /\
    handle_step t now A' kA true = Done (true, A'') /\ k_nodes A'' = k_nodes A' /\
    handle_step tB now (accept_one B ioB) (length (k_conns B)) true = Done (true, B') /\
    handle_step t now B' (length (k_conns B)) false = Done (true, B'') /\
    B'' = handle_push now B1 (wire_node <$> nodesA) /\ k_nodes B1 = k_nodes B'.
Proof.
  intros HA HB Hne Hrun Hp Hnet HioA HioB Hsack Hshello HsA HsB.
  destruct (seed_joins cfgA tA A seed host port ioA net infoA infoB tB _ HA Hp Hnet HioA Hsack) as (A' & EA & LA & TA & _).
  destruct HB as (nb & Hnb & Hib & Eib).
  destruct (seed_accepts tB B ioB infoB infoA (kc_cluster_name cfgA) tA _ (ex_intro _ nb (conj Hnb (conj Hib Eib))) ltac:(congruence) HioB Hshello)
    as (B' & EB & LB).
  destruct (lk_conn _ _ _ _ _ _ LA) as (connA & KA & _ & _ & IA & CA & _).
  destruct (first_gossip_dropped t A' _ connA t senderB nodesB restA KA IA CA HsB) as (A'' & EA2 & NA & _).
  destruct (lk_conn _ _ _ _ _ _ LB) as (connB & KB & OB & _ & IB & CB & _).
  destruct (next_gossip_heard now B' (length (k_conns B)) connB t senderA nodesA restB) as (B1 & B'' & EB2 & -> & NB); try done.
  { by rewrite (lk_running _ _ _ _ _ _ LB). }
  exists A', A'', B', B1, (handle_push now B1 (wire_node <$> nodesA)), (length (k_conns A)). split_and!; try done.
  rewrite TA. apply elem_of_app. right. by left.
Qed.

(** ** Witnesses *)

#[local] Existing Instance fnv_hasher.

Definition sample_a : NodeInfo := local_info sample_cluster_cfg 17.
Definition sample_b : NodeInfo := local_info sample_cluster_cfg 99.
Definition sample_seed : bytes := str "10.0.0.2:7890".
Definition sample_push : Message := GossipPushMessage 99 [sample_b; sample_info 5 1].

(** The bytes to each end, the first byte on its own. *)
Definition in_two (bs : bytes) : list bytes := [take 1 bs; drop 1 bs].
Definition end_of (arriving : bytes) : Conn := mkConn (in_two arriving) [] [7; 1000].

Lemma end_of_fresh arriving : (1 < length arriving)%nat -> fresh_end (end_of arriving) arriving.
Proof.
  intros Hl. split_and!; [|repeat constructor|done|].
  - destruct arriving as [|x [|y l]]; cbn in Hl; [lia|lia|]. by repeat constructor.
  - cbn. by rewrite app_nil_r, take_drop.
Qed.

Definition to_a : bytes := encode 7 (ack_of sample_b) 0.
Definition to_b : bytes := encode 5 (hello_of sample_cluster_cfg sample_a) 0.

Lemma sample_sendable : sendable (ack_of sample_b) /\ sendable (hello_of sample_cluster_cfg sample_a) /\ sendable sample_push.
Proof. repeat split; repeat constructor; vm_compute; congruence. Qed.

Lemma seed_handshake_witness :
  let A := with_net (Cluster_make sample_cluster_cfg 17) [Some (end_of to_a)] in
  let B := Cluster_make sample_cluster_cfg 99 in
  exists A' B', connect_to_seed sample_cluster_cfg 5 A sample_seed = Done A' /\
    handle_first 7 (accept_one B (end_of to_b)) 0 = Done (true, B') /\
    linked A A' (wire_node sample_b) 0 to_b [] /\ linked B B' (wire_node sample_a) 0 to_a [].
Proof.
  intros A B.
  apply (seed_handshake sample_cluster_cfg 5 7 A B sample_seed (str "10.0.0.2") 7890 (end_of to_a) (end_of to_b) [] sample_a sample_b [] []).
  - apply with_net_local, make_local.
  - apply make_local.
  - discriminate.
  - vm_compute. reflexivity.
  - reflexivity.
  - rewrite app_nil_r. apply end_of_fresh. vm_compute. lia.
  - rewrite app_nil_r. apply end_of_fresh. vm_compute. lia.
  - apply sample_sendable.
  - apply sample_sendable.
Defined.

Lemma seed_cluster_agrees_witness :
  exists A' B', connect_to_seed sample_cluster_cfg 5 (with_net (Cluster_make sample_cluster_cfg 17) [Some (end_of to_a)]) sample_seed = Done A' /\
    handle_first 7 (accept_one (Cluster_make sample_cluster_cfg 99) (end_of to_b)) 0 = Done (true, B') /\
    (forall key count, nodes_for_key sample_cluster_cfg A' key count = nodes_for_key sample_cluster_cfg B' key count).
Proof.
  destruct (seed_cluster_agrees sample_cluster_cfg sample_cluster_cfg 17 99 ({[5]} ∪ {[99; 17]}) 5 7 sample_seed (str "10.0.0.2") 7890
    (end_of to_a) (end_of to_b) [] [] sample_cluster_cfg) as (A' & B' & EA & EB & _ & _ & Hr).
  - discriminate.
  - reflexivity.
  - apply sample_no_shared.
  - set_solver.
  - vm_compute. reflexivity.
  - rewrite app_nil_r. apply end_of_fresh. vm_compute. lia.
  - rewrite app_nil_r. apply end_of_fresh. vm_compute. lia.
  - apply sample_sendable.
  - apply sample_sendable.
  - exists A', B'. split; [exact EA|]. split; [exact EB|exact Hr].
Defined.

Lemma seed_gossip_lost_witness :
  let A := with_net (Cluster_make sample_cluster_cfg 17) [Some (end_of (to_a ++ encode 9 sample_push 0 ++ []))] in
  exists A' A'' kA, connect_to_seed sample_cluster_cfg 5 A sample_seed = Done A' /\
    handle_step 9 0 A' kA true = Done (true, A'') /\ k_nodes A'' = k_nodes A'.
Proof.
  intros A.
  destruct (seed_gossip_lost sample_cluster_cfg 9 5 7 A (with_running (Cluster_make sample_cluster_cfg 99) true) sample_seed (str "10.0.0.2") 7890
    (end_of (to_a ++ encode 9 sample_push 0 ++ [])) (end_of (to_b ++ encode 9 sample_push 0 ++ [])) [] sample_a sample_b 0 99
    [sample_b; sample_info 5 1] 99 [sample_b; sample_info 5 1] [] []) as (A' & A'' & _ & _ & _ & kA & EA & _ & EA2 & NA & _).
  - apply with_net_local, make_local.
  - apply make_local.
  - discriminate.
  - reflexivity.
  - vm_compute. reflexivity.
  - reflexivity.
  - apply end_of_fresh. vm_compute. lia.
  - apply end_of_fresh. vm_compute. lia.
  - apply sample_sendable.
  - apply sample_sendable.
  - apply sample_sendable.
  - apply sample_sendable.
  - exists A', A'', kA. split; [exact EA|]. split; [exact EA2|exact NA].
Defined.
