(* ===== verification/ClusterSystem.v ===== *)
(** * A cluster of any number of nodes on a network

    The nodes of a roster run as one system. Each node is a [Cluster]; every TCP connection joins an end at
    one node to an end at another, and what one end writes reaches the other in pieces of any size, later,
    or never. Steps of different nodes and of different coroutines interleave: the coroutines that wait for
    an answer ([connect_to_seed] after its Hello, the remote operations after their request) are suspended in
    [sys_waiting] until they run on, so that [connect_to_seed] and [exchange] are cut in two at the [co_await]
    of the response. Writes succeed; a read that finds the connection at its end fails, as in the code, and
    then nothing more arrives there. The theorem is about every reachable state: what nodes know of each
    other is what the nodes said of themselves, through any number of hops. *)

From S2P Require Import Prelude CStd CText CDouble Types Chunk CacheApi CacheTier Codec Coordinator HashRing SparseCache UnixServer Cluster ClusterNetwork.
Open Scope Z_scope.

(** ** The two halves of the operations that wait for an answer *)

Section halves.
Context `{HH : Hasher} (cfg : ClusterConfig).

(** [connect_to_seed] up to the Hello: the connection the answer will come on. *)
Definition seed_hello (now_ms : Z) (c : Cluster) : outcome (option nat * Cluster) :=
  match connect_to_node c with
  | (None, c1) => Done (None, c1)
  | (Some k, c1) =>
      match get_node c1 (k_local c1) with
      | None => Undef
      | Some local =>
          '(status, c2) ← send_on now_ms c1 k (HelloMessage (nd_info local) (kc_cluster_name cfg) []);
          if negb (is_ok status) then Done (None, close_on c2 k) else Done (Some k, c2)
      end
  end.

(** The rest of it. *)
Definition seed_ack (c : Cluster) (k : nat) : outcome Cluster :=
  '(response, c3) ← receive_on c k;
  match response with
  | Some (HelloAckMessage sender accepted _) =>
      if negb accepted then Done (close_on c3 k)
      else Done (spawn_handler (node_set_connection (handle_node_update c3 sender) (ni_id sender) k) k)
  | _ => Done (close_on c3 k)
  end.

Lemma connect_to_seed_split now_ms c seed :
  connect_to_seed cfg now_ms c seed =
  (parsed ← parse_seed seed;
   match parsed with
   | None => Done c
   | Some _ => '(r, c2) ← seed_hello now_ms c; match r with None => Done c2 | Some k => seed_ack c2 k end
   end).
Proof.
  unfold connect_to_seed, seed_hello, seed_ack. destruct (parse_seed seed) as [[p|]| | |]; try done. cbn [mbind outcome_bind].
  destruct (connect_to_node c) as [[k|] c1]; [|done]. destruct (get_node c1 (k_local c1)) as [n|]; [|done].
  destruct (send_on _ _ _ _) as [[st c2]| | |]; try done. cbn [mbind outcome_bind]. by destruct (negb (is_ok st)).
Qed.

(** A remote operation up to its request. *)
Definition exchange_send (now_ms : Z) (c : Cluster) (node : NodeId) (msg : Message) : outcome (Exchange * option nat * Cluster) :=
  match ensure_connection c node with
  | (None, c') => Done (NoConnection, None, c')
  | (Some k, c') =>
      '(status, c2) ← send_on now_ms c' k msg;
      if negb (is_ok status) then Done (SendFailed status, None, c2) else Done (Answered None, Some k, c2)
  end.

Lemma exchange_split now_ms c node msg :
  exchange now_ms c node msg =
  ('(r, k, c2) ← exchange_send now_ms c node msg;
   match k with None => Done (r, c2) | Some k => '(response, c3) ← receive_on c2 k; Done (Answered response, c3) end).
Proof.
  unfold exchange, exchange_send. destruct (ensure_connection c node) as [[k|] c1]; [|done].
  destruct (send_on _ _ _ _) as [[st c2]| | |]; try done. cbn [mbind outcome_bind]. by destruct (negb (is_ok st)).
Qed.

End halves.

(** ** The system *)

(** What an end of a connection reads: the other end (node and connection) and how many of its bytes have arrived. *)
Record Wire := mkWire { w_from : nat * nat; w_seen : nat }.

(** [sys_wires]: by receiving end. [sys_waiting]: node, connection, and whether it is [connect_to_seed]. *)
Record System := mkSystem {
  sys_nodes : list Cluster;
  sys_wires : gmap (nat * nat) Wire;
  sys_waiting : list (nat * nat * bool)
}.

Definition set_node (s : System) (i : nat) (c : Cluster) : System := mkSystem (<[i := c]> (sys_nodes s)) (sys_wires s) (sys_waiting s).

(** The bytes written so far on connection [k] of a node, and on an end of the system. *)
Definition written (c : Cluster) (k : nat) : bytes :=
  match k_conns c !! k with Some conn => c_out (cn_io conn) | None => [] end.

Definition sent (s : System) (e : nat * nat) : bytes :=
  match sys_nodes s !! e.1 with Some c => written c e.2 | None => [] end.

(** A connection as [tcp_connect] and [accept] return it. *)
Definition opened (sched : list Z) : Conn := mkConn [] [] sched.

Definition arrive (conn : Connection) (piece : bytes) : Connection :=
  mkConnection (mkConn (c_in (cn_io conn) ++ [piece]) (c_out (cn_io conn)) (c_sched (cn_io conn))) (cn_connected conn).

(** Connection [k] of node [i] meets the next connection that node [j] accepts. *)
Definition plug (s : System) (i k j : nat) (cj : Cluster) (sched : list Z) (waiting : nat * nat * bool) : System :=
  let l := length (k_conns cj) in
  mkSystem (<[j := accept_one cj (opened sched)]> (sys_nodes s))
           (<[(j, l) := mkWire (i, k) 0]> (<[(i, k) := mkWire (j, l) 0]> (sys_wires s)))
           (sys_waiting s ++ [waiting]).

(** The requests of the remote operations. *)
Definition is_request (m : Message) : bool :=
  match m with
  | GetMessage _ _ _ | PutMessage _ _ _ _ | DeleteMessage _ | CheckMessage _ _ | GetChunkMessage _ _ _ | PutChunkMessage _ _
  | HasChunkMessage _ => true
  | _ => false
  end.

Section system.
Context `{HH : Hasher}.

(** The steps of one node that need no other: those of [cluster_step]. *)
Inductive local_step (cfg : ClusterConfig) : Cluster -> Cluster -> Prop :=
| local_handle c now_ms now t k first more c' :
    k_tasks c !! t = Some (k, first) -> handle_step now_ms now c k first = Done (more, c') ->
    local_step cfg c (with_tasks c' (if more : bool then <[t := (k, false)]> (k_tasks c') else delete t (k_tasks c')))
| local_gossip c now_ms order c' :
    order ≡ₚ (fun n => ni_id (nd_info n)) <$> active_nodes c -> gossip_round cfg now_ms c order = Done c' -> local_step cfg c c'
| local_check c now : local_step cfg c (check_failures cfg now c)
| local_callback c cb : local_step cfg c (on_node_change c cb)
| local_start c : local_step cfg c (with_running c true)
| local_stop c : local_step cfg c (Cluster_stop c).

Lemma local_step_cluster cfg c c' : local_step cfg c c' -> cluster_step cfg c c'.
Proof. destruct 1; by econstructor. Qed.

(** Which node answers at an address is the network's choice. *)
Inductive system_step (roster : list (ClusterConfig * NodeId)) : System -> System -> Prop :=
| sys_local s i cfg id c c' :
    roster !! i = Some (cfg, id) -> sys_nodes s !! i = Some c -> local_step cfg c c' -> system_step roster s (set_node s i c')
| sys_seed_hello s i cfg id c now_ms seed host port sched k c' j cj sched' :
    roster !! i = Some (cfg, id) -> sys_nodes s !! i = Some c -> seed ∈ kc_seed_nodes cfg -> parse_seed seed = Done (Some (host, port)) ->
    sched_ok sched -> seed_hello cfg now_ms (with_net c [Some (opened sched)]) = Done (Some k, c') ->
    sys_nodes (set_node s i c') !! j = Some cj -> k_running cj = true -> sched_ok sched' ->
    system_step roster s (plug (set_node s i c') i k j cj sched' (i, k, true))
| sys_seed_ack s t i k c c' :
    sys_waiting s !! t = Some (i, k, true) -> sys_nodes s !! i = Some c -> seed_ack c k = Done c' ->
    system_step roster s (mkSystem (<[i := c']> (sys_nodes s)) (sys_wires s) (delete t (sys_waiting s)))
| sys_request s i c now_ms node msg r k c' :
    sys_nodes s !! i = Some c -> is_request msg = true -> payload_fits msg -> (decodable msg = true -> msg_ok msg) ->
    exchange_send now_ms c node msg = Done (r, Some k, c') -> length (k_conns c') = length (k_conns c) ->
    system_step roster s (mkSystem (<[i := c']> (sys_nodes s)) (sys_wires s) (sys_waiting s ++ [(i, k, false)]))
| sys_request_new s i c now_ms node msg sched r k c' j cj sched' :
    sys_nodes s !! i = Some c -> is_request msg = true -> payload_fits msg -> (decodable msg = true -> msg_ok msg) ->
    sched_ok sched -> exchange_send now_ms (with_net c [Some (opened sched)]) node msg = Done (r, Some k, c') ->
    length (k_conns c') = S (length (k_conns c)) ->
    sys_nodes (set_node s i c') !! j = Some cj -> k_running cj = true -> sched_ok sched' ->
    system_step roster s (plug (set_node s i c') i k j cj sched' (i, k, false))
| sys_response s t i k c r c' :
    sys_waiting s !! t = Some (i, k, false) -> sys_nodes s !! i = Some c -> receive_on c k = Done (r, c') ->
    system_step roster s (mkSystem (<[i := c']> (sys_nodes s)) (sys_wires s) (delete t (sys_waiting s)))
| sys_deliver s j l c conn w piece more :
    sys_wires s !! (j, l) = Some w -> sys_nodes s !! j = Some c -> k_conns c !! l = Some conn -> cn_connected conn = true ->
    drop (w_seen w) (sent s (w_from w)) = piece ++ more -> piece <> [] ->
    system_step roster s (mkSystem (<[j := with_conns c (<[l := arrive conn piece]> (k_conns c))]> (sys_nodes s))
                            (<[(j, l) := mkWire (w_from w) (w_seen w + length piece)]> (sys_wires s)) (sys_waiting s)).

(** Every node of the roster as it is constructed. *)
Definition System_make (roster : list (ClusterConfig * NodeId)) : System :=
  mkSystem ((fun p => Cluster_make p.1 p.2) <$> roster) ∅ [].

End system.

(** Hearing about nodes adds them to the table. *)
Lemma handle_push_dom now xs : forall c, dom (k_nodes (handle_push now c xs)) = list_to_set (ni_id <$> xs) ∪ dom (k_nodes c).
Proof.
  induction xs as [|x xs IH]; intros c; [set_solver|]. cbn [handle_push foldl]. fold (handle_push now (hear now c x) xs). rewrite IH. cbn [fmap list_fmap list_to_set].
  assert (dom (k_nodes (hear now c x)) = {[ni_id x]} ∪ dom (k_nodes c)) as ->; [|set_solver].
  unfold hear, handle_node_update. destruct (k_nodes c !! ni_id x) eqn:E; cbn; apply dom_insert_L.
Qed.

(** ** What is true in it *)

Section truth.
Context `{HH : Hasher} (roster : list (ClusterConfig * NodeId)) (vn A : Z).

(** Distinct identifiers, fields within their C++ types, one number of virtual nodes, and a table of all
    the nodes that fits in one message: [A] bounds the lengths of the addresses and of the cluster names. *)
Record roster_ok : Prop := {
  ro_ids : NoDup roster.*2;
  ro_nodes : Forall (fun p => node_ok (local_info p.1 p.2) /\ kc_virtual_nodes p.1 = vn /\
    size_of (kc_bind_address p.1) <= A /\ size_of (kc_cluster_name p.1) <= A) roster;
  ro_fits : 0 <= A /\ (A + 58) * size_of roster + A + 100 < 2 ^ 32
}.

(** What a node of the roster says of itself. *)
Definition genuine (x : NodeInfo) : Prop := exists p, p ∈ roster /\ x = local_info p.1 p.2.

Definition infos_of (m : Message) : list NodeInfo :=
  match m with
  | HelloMessage sender _ _ => [sender]
  | HelloAckMessage sender _ _ => [sender]
  | GossipPushMessage _ nodes => nodes
  | GossipAckMessage _ nodes => nodes
  | _ => []
  end.

Definition truthful (m : Message) : Prop := Forall genuine (infos_of m).

(** A message that can be framed, and decoded if the decoder knows its type. *)
Definition honest_msg (m : Message) : Prop := truthful m /\ payload_fits m /\ (decodable m = true -> msg_ok m).

Definition honest_stream (bs : bytes) : Prop := exists msgs, Forall (fun x => honest_msg x.2) msgs /\ bs = on_wire msgs.

Lemma honest_stream_app a b : honest_stream a -> honest_stream b -> honest_stream (a ++ b).
Proof.
  intros (x & Hx & ->) (y & Hy & ->). exists (x ++ y). split; [by apply Forall_app|]. unfold on_wire. by rewrite fmap_app, concat_app.
Qed.

Lemma honest_stream_nil : honest_stream [].
Proof. by exists []. Qed.

Lemma honest_stream_one t m : honest_msg m -> honest_stream (encode t m 0).
Proof. intros Hm. exists [(t, m)]. split; [by constructor|]. unfold on_wire. cbn. by rewrite app_nil_r. Qed.

Lemma wire_truthful m : truthful m -> decodable m = true -> truthful (wire m).
Proof.
  assert (forall x, genuine x -> genuine (wire_node x)) as Hw by (intros x (p & Hp & ->); by exists p).
  unfold truthful. destruct m; try done; cbn [infos_of wire]; intros H _.
  - apply Forall_singleton, Hw, (proj1 (Forall_singleton _ _) H).
  - apply Forall_singleton, Hw, (proj1 (Forall_singleton _ _) H).
  - apply Forall_fmap. by apply (Forall_impl genuine).
Qed.

(** ** One end of a connection *)

(** [rest] is still to arrive. *)
Definition reads_ok (conn : Connection) (rest : bytes) : Prop :=
  pieces_ok (c_in (cn_io conn)) /\ honest_stream (concat (c_in (cn_io conn)) ++ rest).

Definition end_ok (conn : Connection) (rest : bytes) : Prop :=
  if cn_connected conn then reads_ok conn rest else exists rest', reads_ok conn rest'.

Lemma end_ok_more conn rest more : end_ok conn rest -> honest_stream more -> end_ok conn (rest ++ more).
Proof.
  unfold end_ok. destruct (cn_connected conn); [|done]. intros [Hp Hs] Hm. split; [done|]. rewrite app_assoc. by apply honest_stream_app.
Qed.

Lemma end_ok_close conn rest : end_ok conn rest -> end_ok (Connection_close conn) rest.
Proof. unfold end_ok, Connection_close. destruct (cn_connected conn) eqn:E; cbn; [|by rewrite E]. intros H. by exists rest. Qed.

(** The first message waits entirely, or not. *)
Lemma honest_stream_head bs rest : bs <> [] -> honest_stream (bs ++ rest) ->
  exists t m more, honest_msg m /\ bs ++ rest = encode t m 0 ++ more /\ honest_stream more.
Proof.
  intros Hne ([|[t m] msgs] & Hm & E).
  { unfold on_wire in E. cbn in E. by apply app_eq_nil in E as [-> _]. }
  apply Forall_cons in Hm as [Hm Hms]. exists t, m, (on_wire msgs). split_and!; [done|by rewrite E|by exists msgs].
Qed.

(** A read that fails has taken everything there was. *)
Lemma read_all_fails (fuel : nat) : forall rem buf input input', pieces_ok input ->
  loop fuel read_all_step (rem, buf, input) = Some (None, input') -> input' = [].
Proof.
  induction fuel as [|fuel IH]; intros rem buf input input' Hok; cbn [loop read_all_step]; [done|].
  destruct (Z.ltb_spec 0 rem) as [Hp|]; [|done]. pose proof (recv_spec rem input Hp Hok) as Hr.
  destruct (recv rem input) as [got in1] eqn:E. destruct Hr as (Hok1 & _ & _ & Hz & _). destruct (Z.leb_spec (size_of got) 0) as [Hg|Hg]; [|by apply IH].
  intros [= <-]. specialize (Hz Hg). destruct input as [|f input]; [by injection E as _ <-|].
  apply Forall_cons in Hok as [Hf _]. cbn in Hz. by apply app_eq_nil in Hz as [-> _].
Qed.

Lemma read_stream_short len c : pieces_ok (c_in c) -> size_of (concat (c_in c)) < len ->
  read_stream len c = Done (None, mkConn [] (c_out c) (c_sched c)).
Proof.
  intros Hok Hl. pose proof (size_of_nonneg (concat (c_in c))). rewrite read_stream_eq. destruct (read_all_spec len c Hok) as (in1 & E & _); [lia|].
  rewrite E. destruct (Z.leb_spec len (size_of (concat (c_in c)))); [lia|]. unfold read_all in E. destruct (loop _ _ _) as [[r in2]|] eqn:El; [|done].
  injection E as -> ->. apply read_all_fails in El as ->; done.
Qed.

(** Reading a message that has not arrived entirely: the connection is at its end. *)
Lemma receive_short conn t m more :
  pieces_ok (c_in (cn_io conn)) -> payload_fits m -> more <> [] -> concat (c_in (cn_io conn)) ++ more = encode t m 0 ->
  Connection_receive conn = Done (None, mkConnection (mkConn [] (c_out (cn_io conn)) (c_sched (cn_io conn))) false).
Proof.
  intros Hin Hfit Hne Hcat. destruct (encode_split t m) as (hdr & E & Hh & Hparse). set (p := (encode_payload m).2) in *.
  pose proof (size_of_nonneg p). assert (0 < size_of more) by (destruct more; [done|unfold size_of; simpl; lia]).
  assert (size_of (concat (c_in (cn_io conn))) + size_of more = HEADER_SIZE + size_of p) as Hsz by (by rewrite <- size_of_app, Hcat, E, size_of_app, Hh).
  unfold Connection_receive. destruct (Z.lt_ge_cases (size_of (concat (c_in (cn_io conn)))) HEADER_SIZE) as [Hs|Hs].
  { by rewrite (read_stream_short HEADER_SIZE). }
  rewrite read_stream_eq. destruct (read_all_spec HEADER_SIZE (cn_io conn) Hin) as (in1 & -> & Hin1 & Hc1); [done|]. specialize (Hc1 Hs).
  destruct (Z.leb_spec HEADER_SIZE (size_of (concat (c_in (cn_io conn))))) as [_|]; [|lia].
  assert (Z.to_nat HEADER_SIZE = length hdr) as Hn by (unfold size_of in Hh; lia).
  assert (take (Z.to_nat HEADER_SIZE) (concat (c_in (cn_io conn))) = hdr) as ->.
  { rewrite <- (take_app_le _ more), Hcat, E, Hn by (unfold size_of in Hs; lia). by rewrite take_app_length. }
  cbn [mbind outcome_bind]. pose proof (Hparse Hfit []) as Hp. rewrite app_nil_r in Hp. rewrite Hp. cbn [mbind outcome_bind h_magic h_length].
  unfold MAGIC. rewrite Z.eqb_refl. cbn [negb]. fold p. rewrite read_stream_short; [done|done|]. cbn [c_in]. rewrite Hc1.
  unfold size_of in *. rewrite length_drop. lia.
Qed.

(** What a receive does to an end: the message, if any, tells the truth. *)
Lemma receive_end conn rest : end_ok conn rest ->
  exists r conn', Connection_receive conn = Done (r, conn') /\ end_ok conn' rest /\ c_out (cn_io conn') = c_out (cn_io conn) /\
    c_sched (cn_io conn') = c_sched (cn_io conn) /\ (forall m, r = Some m -> truthful m).
Proof.
  intros Hend. assert (exists rest0, reads_ok conn rest0 /\ (cn_connected conn = true -> rest0 = rest)) as (rest0 & [Hin Hst] & Hr0).
  { unfold end_ok in Hend. destruct (cn_connected conn); [by exists rest|]. destruct Hend as [rest' ?]. by exists rest'. }
  assert (forall t m more, payload_fits m -> more <> [] -> concat (c_in (cn_io conn)) ++ more = encode t m 0 ->
    exists r conn', Connection_receive conn = Done (r, conn') /\ end_ok conn' rest /\ c_out (cn_io conn') = c_out (cn_io conn) /\
      c_sched (cn_io conn') = c_sched (cn_io conn) /\ (forall m, r = Some m -> truthful m)) as Hshort.
  { intros t m more Hf Hne E. eexists _, _. split; [by eapply receive_short|]. split_and!; try done. exists []. split; [by constructor|apply honest_stream_nil]. }
  destruct (decide (concat (c_in (cn_io conn)) = [])) as [Ee|Hne].
  { apply (Hshort 0 (DeleteResponseMessage EOk true) (encode 0 (DeleteResponseMessage EOk true) 0)); [done..|]. by rewrite Ee. }
  destruct (honest_stream_head _ _ Hne Hst) as (t & m & more & (Ht & Hf & Hok) & Ecat & Hmore).
  destruct (decide (length (encode t m 0) <= length (concat (c_in (cn_io conn))))%nat) as [Hle|Hgt].
  - assert (exists tl, concat (c_in (cn_io conn)) = encode t m 0 ++ tl /\ more = tl ++ rest0) as (tl & Etl & ->).
    { exists (drop (length (encode t m 0)) (concat (c_in (cn_io conn)))). pose proof (f_equal (take (length (encode t m 0))) Ecat) as E1.
      pose proof (f_equal (drop (length (encode t m 0))) Ecat) as E2. rewrite take_app_length, take_app_le in E1 by done.
      rewrite drop_app_length, drop_app_le in E2 by done. split; [|done].
      rewrite <- (take_drop (length (encode t m 0)) (concat (c_in (cn_io conn)))) at 1. by rewrite E1. }
    destruct (Connection_receive_spec conn t m tl Hin Hf Etl) as (in' & Hin' & Ein' & ->).
    assert (exists r, received m (encode t m 0) = Done r /\ forall m', r = Some m' -> truthful m') as (r & -> & Hr).
    { destruct (decodable m) eqn:Hd.
      - rewrite received_ok by auto. eexists. split; [done|]. intros m' [= <-]. by apply wire_truthful.
      - unfold received. rewrite codec_undecodable by done. by exists None. }
    cbn [mbind outcome_bind]. eexists _, _. split; [done|]. split_and!; try done. unfold end_ok in *. cbn [cn_connected]. destruct (cn_connected conn).
    + split; [done|]. cbn. by rewrite Ein', <- (Hr0 eq_refl).
    + exists rest0. split; [done|]. cbn. by rewrite Ein'.
  - apply (Hshort t m (drop (length (concat (c_in (cn_io conn)))) (encode t m 0))); [done| |].
    + intros E. apply (f_equal length) in E. rewrite length_drop in E. cbn in E. lia.
    + pose proof (f_equal (take (length (concat (c_in (cn_io conn))))) Ecat) as E1. rewrite take_app_length, take_app_le in E1 by lia.
      rewrite E1 at 1. apply take_drop.
Qed.

(** ** One node *)

(** Its table holds what nodes say of themselves. [U]: the identifiers of the roster. *)
Definition U : gset NodeId := list_to_set roster.*2.

Record honest (id : NodeId) (c : Cluster) : Prop := {
  ho_inv : cluster_inv vn c;
  ho_local : k_local c = id;
  ho_table : map_Forall (fun _ n => genuine (nd_info n)) (k_nodes c);
  ho_sched : Forall (fun conn => sched_ok (c_sched (cn_io conn))) (k_conns c);
  ho_ring : no_shared_points vn U -> ring_full (k_ring c)
}.

(** [rest k] is still to arrive on connection [k]. *)
Definition ends_ok (rest : nat -> bytes) (c : Cluster) : Prop := forall k conn, k_conns c !! k = Some conn -> end_ok conn (rest k).

(** Whatever it writes is honest. *)
Definition speaks (c c' : Cluster) : Prop := forall k, exists bs, honest_stream bs /\ written c' k = written c k ++ bs.

#[export] Instance speaks_preorder : PreOrder speaks.
Proof.
  split.
  - intros c k. exists []. split; [apply honest_stream_nil|by rewrite app_nil_r].
  - intros c1 c2 c3 H1 H2 k. destruct (H1 k) as (b1 & Hb1 & E1), (H2 k) as (b2 & Hb2 & E2).
    exists (b1 ++ b2). split; [by apply honest_stream_app|]. by rewrite E2, E1, app_assoc.
Qed.

Lemma speaks_same c c' : k_conns c' = k_conns c -> speaks c c'.
Proof.
  intros Ec k. exists []. split; [apply honest_stream_nil|]. unfold written. by rewrite Ec, app_nil_r.
Qed.

(** What a step of a node may do. *)
Definition good_step (id : NodeId) (rest : nat -> bytes) (c c' : Cluster) : Prop :=
  honest id c -> ends_ok rest c -> honest id c' /\ ends_ok rest c' /\ speaks c c'.

#[export] Instance good_step_preorder id rest : PreOrder (good_step id rest).
Proof.
  split; [by intros c Hh He|]. intros c1 c2 c3 H1 H2 Hh He. destruct (H1 Hh He) as (Hh2 & He2 & Hs1). destruct (H2 Hh2 He2) as (Hh3 & He3 & Hs2).
  split_and!; [done..|by transitivity c2].
Qed.

(** Steps that leave the connections alone. *)
Lemma quiet_step id rest c c' : evolves vn c c' -> k_conns c' = k_conns c -> k_nodes c' = k_nodes c -> k_ring c' = k_ring c -> good_step id rest c c'.
Proof.
  intros Hev Ec En Er [Hi Hl Ht Hs Hr] He. destruct (Hev Hi) as [Hi' [Hl' _ _]]. split_and!.
  - split; rewrite ?En, ?Ec, ?Er; [done|by rewrite Hl'|done..].
  - intros k conn. rewrite Ec. apply He.
  - by apply speaks_same.
Qed.

(** Steps on one connection. *)
Lemma conn_honest id c k conn conn' : honest id c -> k_conns c !! k = Some conn ->
  (sched_ok (c_sched (cn_io conn)) -> sched_ok (c_sched (cn_io conn'))) -> honest id (with_conns c (<[k := conn']> (k_conns c))).
Proof.
  intros [Hi Hl Ht Hs Hr] Hk Hsch. split; try done.
  - by apply with_conns_evolves; [rewrite length_insert|].
  - cbn. apply Forall_insert; [done|]. apply Hsch. rewrite Forall_lookup in Hs. by eapply Hs.
Qed.

Lemma conn_speaks c k conn conn' bs : k_conns c !! k = Some conn -> honest_stream bs -> c_out (cn_io conn') = c_out (cn_io conn) ++ bs ->
  speaks c (with_conns c (<[k := conn']> (k_conns c))).
Proof.
  intros Hk Hbs Eo k'. unfold written. cbn. rewrite list_lookup_insert. case_decide as D.
  - destruct D as [<- _]. rewrite Hk. by exists bs.
  - exists []. split; [apply honest_stream_nil|by rewrite app_nil_r].
Qed.

Lemma conn_step id rest c k conn conn' bs : k_conns c !! k = Some conn -> (end_ok conn (rest k) -> end_ok conn' (rest k)) ->
  (sched_ok (c_sched (cn_io conn)) -> sched_ok (c_sched (cn_io conn'))) -> honest_stream bs -> c_out (cn_io conn') = c_out (cn_io conn) ++ bs ->
  good_step id rest c (with_conns c (<[k := conn']> (k_conns c))).
Proof.
  intros Hk Hend Hsch Hbs Eo Hh He. split_and!; [by eapply conn_honest| |by eapply conn_speaks].
  intros k' x. cbn. rewrite list_lookup_insert. case_decide as D; [|apply He]. destruct D as [<- _]. intros [= <-]. by apply Hend, He.
Qed.

(** Every step so far keeps the number of connections. *)
Lemma send_on_good id rest now_ms c k m : honest id c -> (k < length (k_conns c))%nat -> honest_msg m ->
  exists c', send_on now_ms c k m = Done (make_ok, c') /\ good_step id rest c c' /\ length (k_conns c') = length (k_conns c).
Proof.
  intros Hh Hk Hm. apply lookup_lt_is_Some in Hk as [conn Hk]. unfold send_on. rewrite Hk.
  pose proof (ho_sched _ _ Hh) as Hs. rewrite Forall_lookup in Hs. destruct (Connection_send_spec now_ms conn m (Hs _ _ Hk)) as (sched' & -> & Hs').
  cbn [mbind outcome_bind]. eexists. split; [done|]. split; [|apply length_insert]. eapply conn_step; [done..|by apply (honest_stream_one now_ms)|done].
Qed.

Lemma receive_on_good id rest c k : ends_ok rest c -> (k < length (k_conns c))%nat ->
  exists r c', receive_on c k = Done (r, c') /\ good_step id rest c c' /\ length (k_conns c') = length (k_conns c) /\
    (forall m, r = Some m -> truthful m).
Proof.
  intros He Hk. apply lookup_lt_is_Some in Hk as [conn Hk]. unfold receive_on. rewrite Hk.
  destruct (receive_end conn (rest k) (He _ _ Hk)) as (r & conn' & -> & Hend & Eo & Es & Hr). cbn [mbind outcome_bind].
  eexists _, _. split; [done|]. split_and!; [|apply length_insert|done].
  eapply conn_step; [done|done|by rewrite Es|apply honest_stream_nil|by rewrite app_nil_r].
Qed.

Lemma close_on_good id rest c k : good_step id rest c (close_on c k).
Proof.
  unfold close_on. destruct (k_conns c !! k) as [conn|] eqn:Hk.
  - assert (alter Connection_close k (k_conns c) = <[k := Connection_close conn]> (k_conns c)) as ->.
    { apply list_eq. intros j. rewrite list_lookup_insert. destruct (decide (k = j)) as [<-|Hne].
      - rewrite list_lookup_alter_eq, Hk, decide_True; [done|]. split; [done|by eapply lookup_lt_Some].
      - rewrite list_lookup_alter_ne, decide_False; [done| |done]. by intros []. }
    eapply (conn_step _ _ _ _ _ _ []); [done|apply end_ok_close| |apply honest_stream_nil|];
      unfold Connection_close; destruct (cn_connected conn); by rewrite ?app_nil_r.
  - assert (alter Connection_close k (k_conns c) = k_conns c) as ->.
    { apply list_eq. intros j. destruct (decide (k = j)) as [<-|Hne]; [by rewrite list_lookup_alter_eq, Hk|by rewrite list_lookup_alter_ne]. }
    by apply quiet_step; [apply with_conns_evolves|..].
Qed.

Lemma genuine_member x : genuine x -> ni_id x ∈ U.
Proof. intros (p & Hp & ->). unfold U. apply elem_of_list_to_set, list_elem_of_fmap. by exists p. Qed.

Lemma honest_members id c : honest id c -> dom (k_nodes c) ⊆ U.
Proof.
  intros Hh i Hi. apply elem_of_dom in Hi as [n Hn]. pose proof (ci_ids _ _ (ho_inv _ _ Hh) _ _ Hn) as E. cbn in E. rewrite <- E.
  apply genuine_member. by apply (ho_table _ _ Hh _ _ Hn).
Qed.

Lemma update_good id rest c info : genuine info -> good_step id rest c (handle_node_update c info) /\ k_conns (handle_node_update c info) = k_conns c.
Proof.
  intros Hg. assert (k_conns (handle_node_update c info) = k_conns c) as Ec by (unfold handle_node_update; by destruct (k_nodes c !! ni_id info)).
  split; [|done]. intros Hh He. pose proof (honest_members _ _ Hh) as Hm. destruct Hh as [Hi Hl Ht Hs Hr].
  destruct (handle_node_update_evolves vn c info Hi) as [Hi' [Hl' _ _]]. split_and!.
  - split; rewrite ?Ec; [done|by rewrite Hl'| |done|].
    + unfold handle_node_update. destruct (k_nodes c !! ni_id info) as [n|] eqn:En; cbn; apply map_Forall_insert_2; try done.
      unfold node_update. destruct (_ <? _); [done|]. by apply (Ht _ _ En).
    + intros Hns. apply (update_ring_full vn U); [done|by apply Hr|done|by rewrite <- (ci_members _ _ Hi)|by apply genuine_member].
  - intros k conn. rewrite Ec. apply He.
  - by apply speaks_same.
Qed.

Lemma set_connection_good id rest c i k : (k < length (k_conns c))%nat -> good_step id rest c (node_set_connection c i k).
Proof.
  intros Hk [Hi Hl Ht Hs Hr] He. destruct (node_set_connection_evolves vn c i k Hk Hi) as [Hi' [Hl' _ _]]. split_and!.
  - split; try done. intros j n E. cbn in E. apply lookup_alter_Some in E as [(<- & n0 & E & ->)|[_ E]]; by apply (Ht _ _ E).
  - apply He.
  - by apply speaks_same.
Qed.

Lemma spawn_good id rest c k : (k < length (k_conns c))%nat -> good_step id rest c (spawn_handler c k).
Proof. intros Hk. by apply quiet_step; [apply spawn_handler_evolves|..]. Qed.

Lemma link_good id rest c info k : genuine info -> (k < length (k_conns c))%nat ->
  let c' := node_set_connection (handle_node_update c info) (ni_id info) k in good_step id rest c c' /\ k_conns c' = k_conns c.
Proof.
  intros Hg Hk c'. destruct (update_good id rest c info Hg) as [Hu Ec]. split; [|done].
  transitivity (handle_node_update c info); [done|]. apply set_connection_good. by rewrite Ec.
Qed.

Lemma hear_all_good id rest now infos : Forall genuine infos -> forall c, good_step id rest c (handle_push now c infos).
Proof.
  induction 1 as [|x infos Hx _ IH]; intros c; [done|]. cbn. transitivity (hear now c x); [|apply IH].
  transitivity (handle_node_update c x); [by apply update_good|]. by apply quiet_step; [apply same_tables_evolves|..].
Qed.

(** ** The messages of a node *)

Hypothesis Hro : roster_ok.

Lemma encode_u16_size v : size_of (encode_u16 v) = 2.
Proof. done. Qed.

Lemma genuine_ok x : genuine x -> node_ok x /\ size_of (encode_node_info x) <= A + 58.
Proof.
  intros (p & Hp & ->). pose proof (ro_nodes Hro) as Hn. rewrite Forall_forall in Hn. destruct (Hn p Hp) as (Hok & _ & Ha & _).
  split; [done|]. unfold encode_node_info, encode_string. rewrite !size_of_app. cbn [local_info ni_address] in *.
  rewrite !encode_u64_size, !encode_u32_size, encode_u16_size. lia.
Qed.

Lemma hello_honest cfg id x : (cfg, id) ∈ roster -> genuine x -> honest_msg (HelloMessage x (kc_cluster_name cfg) []).
Proof.
  intros Hp Hg. pose proof (ro_nodes Hro) as Hn. rewrite Forall_forall in Hn. destruct (Hn _ Hp) as (_ & _ & _ & Hname). cbn in Hname.
  destruct (genuine_ok x Hg) as [Hok Hsz]. destruct (ro_fits Hro) as [HA Hfit].
  assert (0 < size_of roster) by (destruct roster; [set_solver|unfold size_of; simpl; lia]). split_and!.
  - by apply Forall_singleton.
  - unfold payload_fits. cbn [encode_payload snd]. unfold encode_string, encode_list. rewrite !size_of_app. cbn [fmap list_fmap concat].
    rewrite !encode_u32_size, size_of_nil. nia.
  - intros _. cbn [msg_ok]. split_and!; [done|unfold blob_ok; nia|constructor|done].
Qed.

Lemma ack_honest x : genuine x -> honest_msg (HelloAckMessage x true []).
Proof.
  intros Hg. destruct (genuine_ok x Hg) as [Hok Hsz]. destruct (ro_fits Hro) as [HA Hfit]. pose proof (size_of_nonneg roster). split_and!.
  - by apply Forall_singleton.
  - unfold payload_fits. cbn [encode_payload snd]. rewrite !size_of_app. change (size_of (encode_bool _)) with 1. change (size_of (encode_string [])) with 4. nia.
  - done.
Qed.

Lemma nodes_size xs : Forall genuine xs -> size_of (concat (encode_node_info <$> xs)) <= (A + 58) * size_of xs.
Proof.
  induction 1 as [|x xs Hx _ IH]; [unfold size_of; simpl; lia|]. cbn [fmap list_fmap concat]. rewrite size_of_app.
  destruct (genuine_ok x Hx) as [_ ?]. unfold size_of in *. cbn [length]. lia.
Qed.

Lemma push_honest id c : honest id c -> honest_msg (GossipPushMessage (k_local c) (nd_info <$> all_nodes c)).
Proof.
  intros Hh. assert (Forall genuine (nd_info <$> all_nodes c)) as Hg.
  { apply Forall_fmap, Forall_forall. intros n Hn. apply list_elem_of_fmap in Hn as ([i n'] & -> & Hn). apply elem_of_map_to_list in Hn.
    by apply (ho_table _ _ Hh _ _ Hn). }
  assert (size_of (nd_info <$> all_nodes c) <= size_of roster) as Hsz.
  { unfold size_of, all_nodes. rewrite !length_fmap, <- (length_fmap snd roster), length_map_to_list, <- size_dom. apply inj_le.
    transitivity (size U); [apply subseteq_size, (honest_members _ _ Hh)|]. unfold U. by rewrite size_list_to_set by apply (ro_ids Hro). }
  pose proof (nodes_size _ Hg). destruct (ro_fits Hro) as [HA Hfit]. pose proof (size_of_nonneg (nd_info <$> all_nodes c)). split_and!; [done| |].
  - unfold payload_fits. cbn [encode_payload snd]. unfold encode_list. rewrite !size_of_app.
    rewrite encode_u64_size, encode_u32_size. nia.
  - intros _. cbn [msg_ok]. split_and!; [|by eapply Forall_impl; [exact Hg|]; intros x Hx; apply genuine_ok|nia].
    destruct (ci_local _ _ (ho_inv _ _ Hh)) as [n Hn]. pose proof (ci_ids _ _ (ho_inv _ _ Hh) _ _ Hn) as E. cbn in E. rewrite <- E.
    destruct (genuine_ok (nd_info n)) as [Hok _]; [by apply (ho_table _ _ Hh _ _ Hn)|]. by apply Hok.
Qed.

(** ** The steps of a node *)

Lemma local_entry id c : honest id c -> exists n, get_node c (k_local c) = Some n /\ genuine (nd_info n).
Proof. intros Hh. destruct (ci_local _ _ (ho_inv _ _ Hh)) as [n Hn]. exists n. split; [done|]. by apply (ho_table _ _ Hh _ _ Hn). Qed.

Lemma handle_first_good id rest now_ms c k : honest id c -> ends_ok rest c -> (k < length (k_conns c))%nat ->
  exists more c', handle_first now_ms c k = Done (more, c') /\ good_step id rest c c'.
Proof.
  intros Hh He Hk. unfold handle_first. destruct (receive_on_good id rest c k He Hk) as (r & c1 & -> & G1 & L1 & Hr). cbn [mbind outcome_bind].
  destruct r as [m|]; [|eexists _, _; split; [done|]; transitivity c1; [done|apply close_on_good]].
  destruct m; try (by eexists _, _). cbn zeta. specialize (Hr _ eq_refl). apply (Forall_singleton genuine sender) in Hr.
  destruct (link_good id rest c1 sender k Hr) as [G2 E2]; [by rewrite L1|].
  set (c3 := node_set_connection _ _ _) in *. assert (good_step id rest c c3) as G3 by (by transitivity c1).
  destruct (G3 Hh He) as (Hh3 & _ & _). destruct (local_entry _ _ Hh3) as (n & -> & Hn).
  destruct (send_on_good id rest now_ms c3 k (HelloAckMessage (nd_info n) true []) Hh3) as (c4 & -> & G4 & _); [by rewrite E2, L1|by apply ack_honest|].
  cbn [mbind outcome_bind]. eexists _, _. split; [done|]. by transitivity c3.
Qed.

Lemma handle_next_good id rest now c k : honest id c -> ends_ok rest c -> (k < length (k_conns c))%nat ->
  exists more c', handle_next now c k = Done (more, c') /\ good_step id rest c c'.
Proof.
  intros Hh He Hk. unfold handle_next. destruct (negb _); [eexists _, _; split; [done|apply close_on_good]|].
  destruct (receive_on_good id rest c k He Hk) as (r & c1 & -> & G1 & _ & Hr). cbn [mbind outcome_bind].
  destruct r as [m|]; [|eexists _, _; split; [done|]; transitivity c1; [done|apply close_on_good]].
  specialize (Hr _ eq_refl). destruct m; try (by eexists _, _); (eexists _, _; split; [done|]; transitivity c1; [done|by apply hear_all_good]).
Qed.

(** No handler ever throws, or waits on a connection that does not exist. *)
Lemma handle_step_good id rest now_ms now c t k first : honest id c -> ends_ok rest c -> k_tasks c !! t = Some (k, first) ->
  exists more c', handle_step now_ms now c k first = Done (more, c') /\ good_step id rest c c' .
Proof.
  intros Hh He Ht. pose proof (ci_tasks _ _ (ho_inv _ _ Hh)) as Hts. rewrite Forall_lookup in Hts. specialize (Hts _ _ Ht). cbn in Hts.
  unfold handle_step. destruct first; [by apply handle_first_good|by apply handle_next_good].
Qed.

Lemma gossip_send_good id rest now_ms m targets : honest_msg m -> forall c, honest id c -> ends_ok rest c ->
  exists c', gossip_send now_ms c m targets = Done c' /\ good_step id rest c c'.
Proof.
  intros Hm. induction targets as [|i targets IH]; intros c Hh He; cbn [gossip_send]; [by exists c|].
  case_bool_decide; [by apply IH|]. destruct (get_node c i ≫= nd_connection) as [k|] eqn:Ek; [|by apply IH].
  destruct (connected_at c k) eqn:Hc; [|by apply IH]. unfold connected_at in Hc. destruct (k_conns c !! k) eqn:Elk; [|done].
  destruct (send_on_good id rest now_ms c k m Hh) as (c1 & -> & G1 & _); [by eapply lookup_lt_Some|done|]. cbn [mbind outcome_bind].
  destruct (G1 Hh He) as (Hh1 & He1 & _). destruct (IH c1 Hh1 He1) as (c' & -> & G'). exists c'. split; [done|]. by transitivity c1.
Qed.

Lemma node_stop_good id rest c : good_step id rest c (Cluster_stop c).
Proof.
  unfold Cluster_stop. transitivity (with_running c false); [by apply quiet_step; [apply same_tables_evolves|..]|].
  generalize (with_running c false). induction (all_nodes c) as [|n ns IH]; intros c'; [done|]. cbn. etransitivity; [|apply IH].
  destruct (nd_connection n); [apply close_on_good|done].
Qed.

Lemma local_step_good id rest cfg c c' : honest id c -> ends_ok rest c -> local_step cfg c c' -> good_step id rest c c'.
Proof.
  intros Hh He Hs. pose proof (cluster_step_evolves cfg vn c c' (local_step_cluster cfg c c' Hs)) as Hev.
  destruct Hs as [c now_ms now t k first more c' Ht Hd|c now_ms order c' _ Hd|c now|c cb|c|c].
  - destruct (handle_step_good id rest now_ms now c t k first Hh He Ht) as (m' & c1 & E & G). rewrite E in Hd. injection Hd as <- <-.
    intros Hh' He'. destruct (G Hh' He') as ([Hi Hl Htb Hsc Hrg] & He1 & Hsp). split_and!; [|done|done].
    by split; [apply Hev, (ho_inv _ _ Hh')|..].
  - unfold gossip_round in Hd. destruct (_ <=? _); [by injection Hd as <-|].
    destruct (gossip_send_good id rest now_ms _ (take (Z.to_nat (Z.min (kc_gossip_fanout cfg) (size_of order))) order) (push_honest _ _ Hh) c Hh He) as (c1 & E & G).
    rewrite E in Hd. by injection Hd as <-.
  - by apply quiet_step.
  - by apply quiet_step.
  - by apply quiet_step.
  - apply node_stop_good.
Qed.

(** A new connection, with [rest] of it to arrive. *)
Lemma new_conn_good id rest c sched : sched_ok sched -> honest_stream (rest (length (k_conns c))) ->
  good_step id rest c (with_conns c (k_conns c ++ [mkConnection (opened sched) true])).
Proof.
  intros Hsch Hr [Hi Hl Ht Hs Hrg] He. assert (length (k_conns c) <= length (k_conns c ++ [mkConnection (opened sched) true]))%nat as Hle by (rewrite length_app; lia).
  split_and!.
  - split; try done; [by apply with_conns_evolves|]. apply Forall_app. split; [done|by constructor].
  - intros k conn. cbn. intros [Hk|[Hk E]]%lookup_app_Some; [by apply He|]. apply list_lookup_singleton_Some in E as [E <-].
    assert (k = length (k_conns c)) as -> by lia. split; [by constructor|done].
  - intros k. exists []. split; [apply honest_stream_nil|]. unfold written. cbn. rewrite app_nil_r.
    destruct (k_conns c !! k) as [conn|] eqn:E; [by rewrite (lookup_app_l_Some _ _ _ _ E)|]. apply lookup_ge_None in E.
    rewrite lookup_app_r by done. by destruct (k - length (k_conns c))%nat.
Qed.

Lemma accept_good id rest c sched : sched_ok sched -> honest_stream (rest (length (k_conns c))) -> good_step id rest c (accept_one c (opened sched)).
Proof.
  intros Hs Hr. etransitivity; [by apply (new_conn_good id rest c sched)|]. apply spawn_good. cbn. rewrite length_app. cbn. lia.
Qed.

Lemma with_net_good id rest c net : good_step id rest c (with_net c net).
Proof. by apply quiet_step; [apply same_tables_evolves|..]. Qed.

Lemma seed_hello_good id rest cfg now_ms c sched : (cfg, id) ∈ roster -> honest id c -> ends_ok rest c -> sched_ok sched ->
  honest_stream (rest (length (k_conns c))) ->
  exists c', seed_hello cfg now_ms (with_net c [Some (opened sched)]) = Done (Some (length (k_conns c)), c') /\
    good_step id rest c c' /\ length (k_conns c') = S (length (k_conns c)).
Proof.
  intros Hp Hh He Hs Hr. unfold seed_hello, connect_to_node. cbn [with_net k_net new_connection]. set (c1 := with_conns _ _).
  assert (good_step id rest c c1) as G1.
  { transitivity (with_net c []); [apply with_net_good|]. by apply (new_conn_good id rest (with_net c []) sched). }
  destruct (G1 Hh He) as (Hh1 & He1 & _). destruct (local_entry _ _ Hh1) as (n & -> & Hn).
  assert (length (k_conns c1) = S (length (k_conns c))) as L1 by (cbn; rewrite length_app; cbn; lia).
  destruct (send_on_good id rest now_ms c1 (length (k_conns c)) (HelloMessage (nd_info n) (kc_cluster_name cfg) []) Hh1) as (c2 & E2 & G2 & L2);
    [lia|by eapply hello_honest|]. cbn [k_conns with_net] in *. rewrite E2. cbn [mbind outcome_bind]. change (is_ok make_ok) with true. cbn [negb].
  exists c2. split_and!; [done|by transitivity c1|lia].
Qed.

Lemma seed_ack_good id rest c k c' : ends_ok rest c -> seed_ack c k = Done c' -> good_step id rest c c'.
Proof.
  intros He Ha. unfold seed_ack in Ha. destruct (k_conns c !! k) as [conn|] eqn:Hk; [|unfold receive_on in Ha; by rewrite Hk in Ha].
  destruct (receive_on_good id rest c k He) as (r & c1 & E & G1 & L1 & Hr); [by eapply lookup_lt_Some|]. apply lookup_lt_Some in Hk.
  rewrite E in Ha. cbn [mbind outcome_bind] in Ha. transitivity c1; [done|].
  destruct r as [m|]; [|injection Ha as <-; apply close_on_good]. specialize (Hr _ eq_refl).
  destruct m; try (injection Ha as <-; apply close_on_good). apply (Forall_singleton genuine sender) in Hr.
  destruct accepted; injection Ha as <-; [|apply close_on_good]. destruct (link_good id rest c1 sender k Hr) as [G2 E2]; [lia|].
  etransitivity; [exact G2|]. apply spawn_good. rewrite E2. lia.
Qed.

(** An open connection of the node, or a new one. *)
Lemma ensure_cases c node k c1 : ensure_connection c node = (Some k, c1) ->
  (c1 = c /\ (k < length (k_conns c))%nat) \/
  exists io net, k_net c = Some io :: net /\ k = length (k_conns c) /\
    c1 = node_set_connection (with_conns (with_net c net) (k_conns c ++ [mkConnection io true])) node k.
Proof.
  assert (forall k c1, match connect_to_node c with
                       | (Some k', c') => (Some k', node_set_connection c' node k') | (None, c') => (None, c') end = (Some k, c1) ->
    exists io net, k_net c = Some io :: net /\ k = length (k_conns c) /\
      c1 = node_set_connection (with_conns (with_net c net) (k_conns c ++ [mkConnection io true])) node k) as Hnew.
  { intros k0 c0. unfold connect_to_node. destruct (k_net c) as [|[io|] net]; try done. cbn. intros [= <- <-]. by exists io, net. }
  unfold ensure_connection. destruct (get_node c node ≫= nd_connection) as [k'|]; [|intros E; right; by apply Hnew].
  unfold connected_at. destruct (k_conns c !! k') eqn:Ek; [|intros E; right; by apply Hnew].
  destruct (cn_connected _); [|intros E; right; by apply Hnew]. intros [= <- <-]. left. split; [done|by eapply lookup_lt_Some].
Qed.

Lemma request_honest m : is_request m = true -> payload_fits m -> (decodable m = true -> msg_ok m) -> honest_msg m.
Proof. intros Hq Hf Hok. split; [|done]. destruct m; try discriminate Hq; apply Forall_nil_2. Qed.

Lemma exchange_send_good id rest now_ms c node m r k c' : honest id c -> ends_ok rest c -> honest_msg m ->
  exchange_send now_ms c node m = Done (r, Some k, c') ->
  (length (k_conns c') = length (k_conns c) /\ good_step id rest c c') \/
  (length (k_conns c') = S (length (k_conns c)) /\ k = length (k_conns c) /\
   forall sched, k_net c = [Some (opened sched)] -> sched_ok sched -> honest_stream (rest k) -> good_step id rest c c').
Proof.
  intros Hh He Hm Hx. unfold exchange_send in Hx. destruct (ensure_connection c node) as [[k1|] c1] eqn:E; [|done].
  apply outcome_bind_Done in Hx as ([st c2] & Hsend & Hx). destruct (send_on_evolves vn _ _ _ _ _ _ Hsend) as [_ L2].
  destruct (negb (is_ok st)); [done|]. injection Hx as _ -> ->.
  destruct (ensure_cases _ _ _ _ E) as [[-> Hk]|(io & net & Hn & -> & ->)].
  - left. split; [done|]. destruct (send_on_good id rest now_ms c k m Hh Hk Hm) as (c2 & E2 & G & _). rewrite E2 in Hsend. by injection Hsend as _ <-.
  - right. split_and!; [rewrite L2; cbn; rewrite length_app; cbn; lia|done|]. intros sched Hnet Hs Hr. rewrite Hnet in Hn. injection Hn as <- <-.
    set (c1 := with_conns (with_net c []) _) in *. set (c1' := node_set_connection c1 node _) in *.
    assert (length (k_conns c1) = S (length (k_conns c))) as L1 by (cbn; rewrite length_app; cbn; lia).
    assert (good_step id rest c c1') as G1.
    { transitivity (with_net c []); [apply with_net_good|]. transitivity c1; [by apply (new_conn_good id rest (with_net c []) sched)|]. apply set_connection_good. lia. }
    destruct (G1 Hh He) as (Hh1 & _ & _).
    destruct (send_on_good id rest now_ms c1' (length (k_conns c)) m Hh1) as (c2 & E2 & G2 & _); [cbn [c1' node_set_connection with_nodes k_conns]; lia|done|].
    rewrite E2 in Hsend. injection Hsend as _ <-. by transitivity c1'.
Qed.

(** ** The system *)

(** What is still to arrive at the ends of node [i], with [wires] connecting them. *)
Definition to_arrive (s : System) (wires : gmap (nat * nat) Wire) (i k : nat) : bytes :=
  match wires !! (i, k) with Some w => drop (w_seen w) (sent s (w_from w)) | None => [] end.

Record sys_inv (s : System) : Prop := {
  si_nodes : forall i c, sys_nodes s !! i = Some c -> exists cfg id, roster !! i = Some (cfg, id) /\ honest id c;
  si_ends : forall i c, sys_nodes s !! i = Some c -> ends_ok (to_arrive s (sys_wires s) i) c;
  si_seen : forall e w, sys_wires s !! e = Some w -> (w_seen w <= length (sent s (w_from w)))%nat
}.

(** One node changes, and only the wires to it. *)
Lemma replace_node s i cfg id c c' wires waiting :
  sys_inv s -> sys_nodes s !! i = Some c -> roster !! i = Some (cfg, id) -> honest id c' -> speaks c c' -> ends_ok (to_arrive s wires i) c' ->
  (forall e w, wires !! e = Some w -> (w_seen w <= length (sent s (w_from w)))%nat) ->
  (forall j k, j <> i -> wires !! (j, k) = sys_wires s !! (j, k)) ->
  sys_inv (mkSystem (<[i := c']> (sys_nodes s)) wires waiting).
Proof.
  intros [Hn He Hs] Hi Hro' Hh Hsp Hends Hseen Hw. set (s' := mkSystem _ _ _).
  assert (forall e, exists bs, honest_stream bs /\ sent s' e = sent s e ++ bs) as Hsent.
  { intros [j k]. unfold sent. cbn. rewrite list_lookup_insert. case_decide as D.
    - destruct D as [<- _]. rewrite Hi. apply Hsp.
    - exists []. split; [apply honest_stream_nil|by rewrite app_nil_r]. }
  assert (forall j k conn, end_ok conn (to_arrive s wires j k) -> end_ok conn (to_arrive s' wires j k)) as Hmore.
  { intros j k conn. unfold to_arrive. destruct (wires !! (j, k)) as [w|] eqn:Ew; [|done]. destruct (Hsent (w_from w)) as (bs & Hbs & ->).
    rewrite drop_app_le by (by eapply Hseen). intros H. by apply end_ok_more. }
  split; cbn [s' sys_nodes sys_wires].
  - intros j x. rewrite list_lookup_insert. case_decide as D; [|apply Hn]. destruct D as [<- _]. intros [= <-]. by exists cfg, id.
  - intros j x. rewrite list_lookup_insert. case_decide as D.
    + destruct D as [<- _]. intros [= <-] k conn Hk. by apply Hmore, Hends.
    + intros Hj k conn Hk. apply Hmore. assert (j <> i) as Hne by (intros ->; apply D; split; [done|by eapply lookup_lt_Some]).
      unfold to_arrive. rewrite Hw by done. by apply (He _ _ Hj).
  - intros e w Ew. destruct (Hsent (w_from w)) as (bs & _ & ->). rewrite length_app. specialize (Hseen _ _ Ew). lia.
Qed.

(** The common case. *)
Lemma node_moves s i c c' waiting : sys_inv s -> sys_nodes s !! i = Some c ->
  (forall cfg id, roster !! i = Some (cfg, id) -> honest id c -> ends_ok (to_arrive s (sys_wires s) i) c -> good_step id (to_arrive s (sys_wires s) i) c c') ->
  sys_inv (mkSystem (<[i := c']> (sys_nodes s)) (sys_wires s) waiting).
Proof.
  intros Hinv Hi Hg. destruct (si_nodes _ Hinv _ _ Hi) as (cfg & id & Hp & Hh). pose proof (si_ends _ Hinv _ _ Hi) as He.
  destruct (Hg cfg id Hp Hh He Hh He) as (Hh' & He' & Hsp). by eapply replace_node; [..|apply Hinv|].
Qed.

Lemma written_fresh c k : (length (k_conns c) <= k)%nat -> written c k = [].
Proof. intros Hk. unfold written. by rewrite lookup_ge_None_2. Qed.

(** Adding a wire to a new end of node [i]. *)
Lemma new_wire s wires i c e : sys_nodes s !! i = Some c -> ends_ok (to_arrive s wires i) c ->
  ends_ok (to_arrive s (<[(i, length (k_conns c)) := mkWire e 0]> wires) i) c /\
  to_arrive s (<[(i, length (k_conns c)) := mkWire e 0]> wires) i (length (k_conns c)) = sent s e.
Proof.
  intros Hi He. split.
  - intros k conn Hk. unfold to_arrive. rewrite lookup_insert_ne; [by apply He|]. intros [= Ek]. apply lookup_lt_Some in Hk. lia.
  - unfold to_arrive. by rewrite lookup_insert_eq.
Qed.

Lemma new_wire_seen (s : System) (wires : gmap (nat * nat) Wire) (e0 e : nat * nat) : (forall (e : nat * nat) w, wires !! e = Some w -> (w_seen w <= length (sent s (w_from w)))%nat) ->
  forall e' w, <[e0 := mkWire e 0]> wires !! e' = Some w -> (w_seen w <= length (sent s (w_from w)))%nat.
Proof. intros Hs e' w. rewrite lookup_insert. case_decide; [intros [= <-]; cbn; lia|apply Hs]. Qed.

(** Node [i] opens a connection and writes its first message on it; node [j] accepts. *)
Lemma plug_inv s i c k c' j cj sched waiting : sys_inv s -> sys_nodes s !! i = Some c -> k = length (k_conns c) ->
  length (k_conns c') = S (length (k_conns c)) -> sys_nodes (set_node s i c') !! j = Some cj -> sched_ok sched ->
  (forall cfg id rest, roster !! i = Some (cfg, id) -> honest id c -> ends_ok rest c -> honest_stream (rest k) -> good_step id rest c c') ->
  sys_inv (plug (set_node s i c') i k j cj sched waiting).
Proof.
  intros Hinv Hi -> HL Hj Hs Hg. set (k := length (k_conns c)) in *. set (l := length (k_conns cj)).
  set (wires1 := <[(i, k) := mkWire (j, l) 0]> (sys_wires s)). set (s1 := mkSystem (<[i := c']> (sys_nodes s)) wires1 []).
  destruct (si_nodes _ Hinv _ _ Hi) as (cfg & id & Hp & Hh). destruct (new_wire s (sys_wires s) i c (j, l) Hi (si_ends _ Hinv _ _ Hi)) as [He1 Ek].
  fold k wires1 in He1, Ek. assert (sent s (j, l) = []) as E0.
  { unfold sent. cbn. cbn in Hj. rewrite list_lookup_insert in Hj. case_decide as D.
    - destruct D as [-> _]. injection Hj as <-. rewrite Hi. apply written_fresh. unfold l. lia.
    - rewrite Hj. by apply written_fresh. }
  destruct (Hg cfg id (to_arrive s wires1 i) Hp Hh He1) as (Hh' & He' & Hsp); [rewrite Ek, E0; apply honest_stream_nil|done|done|].
  assert (sys_inv s1) as Hinv1.
  { eapply replace_node; try done; [apply new_wire_seen, Hinv|]. intros j' k' Hne. unfold wires1. rewrite lookup_insert_ne by congruence. done. }
  assert (sys_nodes s1 !! j = Some cj) as Hj1 by done. destruct (si_nodes _ Hinv1 _ _ Hj1) as (cfgj & idj & Hpj & Hhj).
  destruct (new_wire s1 wires1 j cj (i, k) Hj1 (si_ends _ Hinv1 _ _ Hj1)) as [He2 El]. fold l in He2, El.
  destruct (accept_good idj (to_arrive s1 (<[(j, l) := mkWire (i, k) 0]> wires1) j) cj sched Hs) as (Hh2 & He3 & Hsp2); [|done|done|].
  { fold l. rewrite El. unfold sent. cbn. rewrite list_lookup_insert_eq by (by eapply lookup_lt_Some). destruct (Hsp k) as (bs & Hbs & ->).
    by rewrite written_fresh. }
  apply (replace_node s1 j cfgj idj cj); try done; [apply new_wire_seen, Hinv1|].
  intros j' k' Hne. cbn. by rewrite lookup_insert_ne by congruence.
Qed.

Lemma deliver_inv s j l c conn w piece more : sys_inv s -> sys_wires s !! (j, l) = Some w -> sys_nodes s !! j = Some c ->
  k_conns c !! l = Some conn -> cn_connected conn = true -> drop (w_seen w) (sent s (w_from w)) = piece ++ more -> piece <> [] ->
  sys_inv (mkSystem (<[j := with_conns c (<[l := arrive conn piece]> (k_conns c))]> (sys_nodes s))
             (<[(j, l) := mkWire (w_from w) (w_seen w + length piece)]> (sys_wires s)) (sys_waiting s)).
Proof.
  intros Hinv Hw Hj Hl Hcon Hd Hne. destruct (si_nodes _ Hinv _ _ Hj) as (cfg & id & Hp & Hh). pose proof (si_ends _ Hinv _ _ Hj) as He.
  pose proof (f_equal length Hd) as Hlen. rewrite length_drop, length_app in Hlen.
  apply (replace_node s j cfg id c); try done.
  - by eapply conn_honest.
  - eapply (conn_speaks _ _ _ _ []); [done|apply honest_stream_nil|by rewrite app_nil_r].
  - intros k x. cbn. rewrite list_lookup_insert. unfold to_arrive. case_decide as D.
    + destruct D as [<- _]. intros [= <-]. rewrite lookup_insert_eq. cbn [w_seen w_from]. specialize (He _ _ Hl). unfold to_arrive in He. rewrite Hw, Hd in He.
      unfold end_ok in *. cbn [arrive cn_connected]. rewrite Hcon in *. destruct He as [Hin Hst].
      rewrite <- drop_drop, Hd, drop_app_length. split; cbn.
      * apply Forall_app. split; [done|by constructor].
      * rewrite concat_app. cbn. by rewrite app_nil_r, <- app_assoc.
    + intros Hk. rewrite lookup_insert_ne; [by apply He|]. intros [= ->]. apply D. split; [done|by eapply lookup_lt_Some].
  - intros e w'. rewrite lookup_insert. case_decide; [|apply Hinv]. intros [= <-]. cbn. destruct piece; [done|]. cbn in *. lia.
  - intros j' k' Hne'. by rewrite lookup_insert_ne by congruence.
Qed.

(** Nothing is to arrive at an end that does not exist yet. *)
Definition trimmed (rest : nat -> bytes) (c : Cluster) (k : nat) : bytes := if decide (k < length (k_conns c))%nat then rest k else [].

Lemma trimmed_ok rest c : ends_ok rest c -> ends_ok (trimmed rest c) c /\ honest_stream (trimmed rest c (length (k_conns c))).
Proof.
  intros He. split.
  - intros k conn Hk. unfold trimmed. rewrite decide_True by (by eapply lookup_lt_Some). by apply He.
  - unfold trimmed. rewrite decide_False by lia. apply honest_stream_nil.
Qed.

Lemma seed_hello_inv s i cfg id c now_ms sched k c' j cj sched' : sys_inv s -> roster !! i = Some (cfg, id) -> sys_nodes s !! i = Some c ->
  sched_ok sched -> seed_hello cfg now_ms (with_net c [Some (opened sched)]) = Done (Some k, c') ->
  sys_nodes (set_node s i c') !! j = Some cj -> sched_ok sched' -> sys_inv (plug (set_node s i c') i k j cj sched' (i, k, true)).
Proof.
  intros Hinv Hp Hi Hs Hx Hj Hs'. destruct (si_nodes _ Hinv _ _ Hi) as (cfg' & id' & Hp' & Hh). rewrite Hp in Hp'. injection Hp' as <- <-.
  apply list_elem_of_lookup_2 in Hp as Hel. destruct (trimmed_ok _ _ (si_ends _ Hinv _ _ Hi)) as [Ht Htl].
  destruct (seed_hello_good id _ cfg now_ms c sched Hel Hh Ht Hs Htl) as (c2 & E & _ & L). rewrite E in Hx. injection Hx as <- <-.
  eapply plug_inv; try done. intros cfg1 id1 rest Hp1 Hh1 He1 Hr1. rewrite Hp in Hp1. injection Hp1 as <- <-.
  destruct (seed_hello_good id rest cfg now_ms c sched Hel Hh1 He1 Hs Hr1) as (c3 & E3 & G & _). rewrite E in E3. by injection E3 as ->.
Qed.

Lemma request_new_inv s i c now_ms node msg sched r k c' j cj sched' : sys_inv s -> sys_nodes s !! i = Some c -> honest_msg msg ->
  sched_ok sched -> exchange_send now_ms (with_net c [Some (opened sched)]) node msg = Done (r, Some k, c') ->
  length (k_conns c') = S (length (k_conns c)) -> sys_nodes (set_node s i c') !! j = Some cj -> sched_ok sched' ->
  sys_inv (plug (set_node s i c') i k j cj sched' (i, k, false)).
Proof.
  intros Hinv Hi Hm Hs Hx HL Hj Hs'.
  assert (forall id rest, honest id c -> ends_ok rest c -> k = length (k_conns c) /\ (honest_stream (rest k) -> good_step id rest c c')) as Hg.
  { intros id rest Hh He. set (cn := with_net c [Some (opened sched)]) in *. destruct (with_net_good id rest c [Some (opened sched)] Hh He) as (Hh1 & He1 & _).
    destruct (exchange_send_good id rest now_ms cn node msg r k c' Hh1 He1 Hm Hx) as [[L _]|(_ & -> & G)]; [cbn in L; lia|].
    split; [done|]. intros Hr. transitivity cn; [apply with_net_good|by apply (G sched)]. }
  destruct (si_nodes _ Hinv _ _ Hi) as (cfg & id & Hp & Hh). destruct (Hg id _ Hh (si_ends _ Hinv _ _ Hi)) as [Ek _].
  eapply plug_inv; try done. intros cfg1 id1 rest _ Hh1 He1 Hr1. by apply Hg.
Qed.

Lemma system_step_inv s s' : system_step roster s s' -> sys_inv s -> sys_inv s'.
Proof.
  destruct 1 as [s i cfg id c c' Hp Hi Hs|s i cfg id c now_ms seed host port sched k c' j cj sched' Hp Hi _ _ Hs Hx Hj _ Hs'
    |s t i k c c' _ Hi Hx|s i c now_ms node msg r k c' Hi Hq Hf Hok Hx HL|s i c now_ms node msg sched r k c' j cj sched' Hi Hq Hf Hok Hs Hx HL Hj _ Hs'
    |s t i k c r c' _ Hi Hx|s j l c conn w piece more Hw Hj Hl Hcon Hd Hne]; intros Hinv.
  - eapply node_moves; [done..|]. intros cfg' id' Hp' Hh He. rewrite Hp' in Hp. injection Hp as -> ->. by eapply local_step_good.
  - by apply (seed_hello_inv s i cfg id c now_ms sched k c' j cj sched').
  - eapply node_moves; [done..|]. intros cfg' id' _ _ He. by eapply seed_ack_good.
  - eapply node_moves; [done..|]. intros cfg' id' _ Hh He.
    destruct (exchange_send_good id' _ now_ms c node msg r k c' Hh He (request_honest _ Hq Hf Hok) Hx) as [[_ G]|[L _]]; [done|lia].
  - apply (request_new_inv s i c now_ms node msg sched r k c' j cj sched'); try done. by apply request_honest.
  - eapply node_moves; [done..|]. intros cfg' id' _ _ He. unfold receive_on in Hx. destruct (k_conns c !! k) as [conn|] eqn:Hk; [|done].
    destruct (receive_on_good id' _ c k He) as (r' & c1 & E & G & _); [by eapply lookup_lt_Some|]. unfold receive_on in E. rewrite Hk in E.
    rewrite E in Hx. by injection Hx as <- <-.
  - by eapply deliver_inv.
Qed.

Lemma System_make_inv : sys_inv (System_make roster).
Proof.
  split; [| |done].
  - intros i c. cbn. rewrite list_lookup_fmap. destruct (roster !! i) as [[cfg id]|] eqn:Hp; [|done]. cbn. intros [= <-]. exists cfg, id. split; [done|].
    apply list_elem_of_lookup_2 in Hp. pose proof (ro_nodes Hro) as Hn. rewrite Forall_forall in Hn. destruct (Hn _ Hp) as (_ & Hv & _). cbn in Hv.
    split; try done; [rewrite <- Hv; apply Cluster_make_inv| |].
    + cbn. apply map_Forall_singleton. by exists (cfg, id).
    + intros Hns. apply (make_full cfg id U); [by rewrite Hv|]. apply (genuine_member (local_info cfg id)). by exists (cfg, id).
  - intros i c. cbn. rewrite list_lookup_fmap. destruct (roster !! i) as [[cfg id]|]; [|done]. cbn. by intros [= <-] k conn.
Qed.

Lemma reachable_inv s : rtc (system_step roster) (System_make roster) s -> sys_inv s.
Proof.
  intros Hr. revert Hr. generalize System_make_inv. generalize (System_make roster). intros s0 H0 Hr.
  induction Hr as [|s1 s2 s3 Hs _ IH]; [done|]. by eapply IH, system_step_inv.
Qed.

(** ** Gossip gets through *)

(** What a node tells the others covers all it knows. *)
Lemma push_ids id c : honest id c -> list_to_set (ni_id <$> (wire_node <$> (nd_info <$> all_nodes c))) = dom (k_nodes c).
Proof.
  intros Hh. rewrite <- !list_fmap_compose. apply set_eq. intros i. rewrite elem_of_list_to_set, elem_of_dom. unfold all_nodes. split.
  - intros (m & -> & Hm)%list_elem_of_fmap. apply list_elem_of_fmap in Hm as ([x m'] & -> & Hm). apply elem_of_map_to_list in Hm. cbn.
    pose proof (ci_ids _ _ (ho_inv _ _ Hh) _ _ Hm) as E. cbn in E. rewrite E. eauto.
  - intros [n Hn]. pose proof (ci_ids _ _ (ho_inv _ _ Hh) _ _ Hn) as E. cbn in E. apply list_elem_of_fmap. exists n. split; [done|].
    apply list_elem_of_fmap. exists (i, n). split; [done|]. by apply elem_of_map_to_list.
Qed.

Lemma active_ids id c i n : honest id c -> k_nodes c !! i = Some n -> i ∈ (fun n => ni_id (nd_info n)) <$> active_nodes c.
Proof.
  intros Hh Hn. pose proof (ci_ids _ _ (ho_inv _ _ Hh) _ _ Hn) as E. cbn in E. apply list_elem_of_fmap. exists n. split; [done|].
  unfold active_nodes. apply list_elem_of_In, filter_In. split.
  - apply list_elem_of_In. unfold all_nodes. apply list_elem_of_fmap. exists (i, n). split; [done|]. by apply elem_of_map_to_list.
  - destruct (ho_table _ _ Hh _ _ Hn) as (p & _ & Ep). unfold is_active. by rewrite Ep.
Qed.

(** Whoever knows another node does gossip. *)
Lemma round_talks id c order peer n : honest id c -> order ≡ₚ (fun n => ni_id (nd_info n)) <$> active_nodes c -> peer <> k_local c ->
  k_nodes c !! peer = Some n -> (size_of order <=? 1) = false.
Proof.
  intros Hh Ho Hne Hn. destruct (local_entry _ _ Hh) as (n0 & Hn0 & _).
  pose proof (active_ids _ _ _ _ Hh Hn) as Hin. pose proof (active_ids _ _ _ _ Hh Hn0) as Hin0. rewrite <- Ho in Hin, Hin0.
  apply Z.leb_gt. destruct order as [|x [|y l]]; [by apply not_elem_of_nil in Hin| |].
  - apply list_elem_of_singleton in Hin, Hin0. congruence.
  - rewrite !size_of_cons. pose proof (size_of_nonneg l). lia.
Qed.

(** One send: only connection [k'] gets longer. *)
Lemma send_on_writes id rest now_ms c k' m : honest id c -> (k' < length (k_conns c))%nat -> honest_msg m ->
  exists c', send_on now_ms c k' m = Done (make_ok, c') /\ good_step id rest c c' /\ k_nodes c' = k_nodes c /\ k_local c' = k_local c /\
    (forall k, connected_at c' k = connected_at c k) /\
    (forall k, written c' k = written c k ++ (if decide (k = k') then encode now_ms m 0 else [])).
Proof.
  intros Hh Hk Hm. destruct (send_on_good id rest now_ms c k' m Hh Hk Hm) as (c' & E & G & _). exists c'. split; [done|]. split; [done|].
  apply lookup_lt_is_Some in Hk as [conn Hk]. unfold send_on in E. rewrite Hk in E. pose proof (ho_sched _ _ Hh) as Hs. rewrite Forall_lookup in Hs.
  destruct (Connection_send_spec now_ms conn m (Hs _ _ Hk)) as (sched' & Es & _). rewrite Es in E. injection E as <-. pose proof (lookup_lt_Some _ _ _ Hk) as Hlt.
  split_and!; [done|done|..]; intros k; unfold connected_at, written; cbn; destruct (decide (k = k')) as [->|Hne].
  - by rewrite list_lookup_insert_eq, Hk.
  - by rewrite list_lookup_insert_ne.
  - by rewrite list_lookup_insert_eq, Hk.
  - by rewrite list_lookup_insert_ne, app_nil_r.
Qed.

(** A round whose targets include the node at the other end of [k] writes the push on [k]. *)
Lemma gossip_send_writes id rest now_ms m targets peer n k : honest_msg m -> peer ∈ targets -> forall c, honest id c -> ends_ok rest c ->
  peer <> k_local c -> k_nodes c !! peer = Some n -> nd_connection n = Some k -> connected_at c k = true ->
  exists c' bs, gossip_send now_ms c m targets = Done c' /\ written c' k = written c k ++ encode now_ms m 0 ++ bs.
Proof.
  intros Hm Hin. induction targets as [|i targets IH]; intros c Hh He Hne Hn Hk Hc; [by apply not_elem_of_nil in Hin|]. cbn [gossip_send].
  assert (i <> peer -> exists c' bs, gossip_send now_ms c m targets = Done c' /\ written c' k = written c k ++ encode now_ms m 0 ++ bs) as Hrest.
  { intros Hi. apply elem_of_cons in Hin as [->|Hin]; [done|]. by apply IH. }
  case_bool_decide as Ei; [apply Hrest; congruence|]. unfold get_node. destruct (k_nodes c !! i ≫= nd_connection) as [k'|] eqn:Ek.
  2: { apply Hrest. intros ->. by rewrite Hn in Ek; cbn in Ek; rewrite Hk in Ek. }
  destruct (connected_at c k') eqn:Hc'; [|apply Hrest; intros ->; rewrite Hn in Ek; cbn in Ek; congruence].
  assert (k' < length (k_conns c))%nat as Hlt.
  { unfold connected_at in Hc'. destruct (k_conns c !! k') eqn:El; [|done]. by eapply lookup_lt_Some. }
  destruct (send_on_writes id rest now_ms c k' m Hh Hlt Hm) as (c1 & -> & G1 & En & El & Ec & Ew). cbn [mbind outcome_bind].
  destruct (G1 Hh He) as (Hh1 & He1 & _). destruct (decide (k = k')) as [<-|Hkk].
  - destruct (gossip_send_good id rest now_ms m targets Hm c1 Hh1 He1) as (c' & -> & G'). destruct (G' Hh1 He1) as (_ & _ & Hsp).
    destruct (Hsp k) as (bs & _ & Ebs). exists c', bs. split; [done|]. by rewrite Ebs, Ew, decide_True, <- app_assoc.
  - apply elem_of_cons in Hin as [->|Hin]; [rewrite Hn in Ek; cbn in Ek; congruence|].
    destruct (IH Hin c1 Hh1 He1) as (c' & bs & E & E'); [congruence..|by rewrite Ec|]. exists c', bs. split; [done|].
    by rewrite E', Ew, decide_False, app_nil_r.
Qed.

End truth.

(** ** Properties *)

Section properties.
Context `{HH : Hasher} (roster : list (ClusterConfig * NodeId)) (vn A : Z).

Lemma roster_unique cfg cfg' id : roster_ok roster vn A -> (cfg, id) ∈ roster -> (cfg', id) ∈ roster -> cfg = cfg'.
Proof.
  intros Hro [i Hi]%list_elem_of_lookup [j Hj]%list_elem_of_lookup.
  assert (i = j) as ->; [|congruence]. eapply NoDup_lookup; [apply (ro_ids _ _ _ Hro)|..]; rewrite list_lookup_fmap; [by rewrite Hi|by rewrite Hj].
Qed.

(** An entry of the table of an honest node. *)
Lemma honest_entry id0 c id n : honest roster vn id0 c -> k_nodes c !! id = Some n -> exists cfg, (cfg, id) ∈ roster /\ nd_info n = local_info cfg id.
Proof.
  intros Hh Hn. destruct (ho_table _ _ _ _ Hh _ _ Hn) as ([cfg id'] & Hp & E). cbn in E. pose proof (ci_ids _ _ (ho_inv _ _ _ _ Hh) _ _ Hn) as Ei. cbn in Ei.
  rewrite E in Ei. cbn in Ei. subst id'. by exists cfg.
Qed.

(** C13: the truth about members. However the nodes of a roster connect to each other, whatever is sent and
    in whatever order and pieces it arrives, and whatever is lost: what a node believes of another one is
    exactly what that one says of itself (nobody is made up, and every member counts as active), table and
    ring hold the same nodes, and no handler of a connection ever throws or is stuck. *)
Theorem system_truthful s i c :
  roster_ok roster vn A -> rtc (system_step roster) (System_make roster) s -> sys_nodes s !! i = Some c ->
  (exists cfg, roster !! i = Some (cfg, k_local c)) /\
  (forall id n, k_nodes c !! id = Some n -> (exists cfg, (cfg, id) ∈ roster /\ nd_info n = local_info cfg id) /\ is_active n = true) /\
  nodes_ (k_ring c) = dom (k_nodes c) /\
  (forall t k first now_ms now, k_tasks c !! t = Some (k, first) -> exists more c', handle_step now_ms now c k first = Done (more, c')).
Proof.
  intros Hro Hr Hi. pose proof (reachable_inv roster vn A Hro s Hr) as Hinv. destruct (si_nodes _ _ _ Hinv _ _ Hi) as (cfg & id & Hp & Hh).
  split_and!.
  - exists cfg. by rewrite (ho_local _ _ _ _ Hh).
  - intros id' n Hn. destruct (honest_entry _ _ _ _ Hh Hn) as (cfg' & Hp' & E). split; [by exists cfg'|]. unfold is_active. by rewrite E.
  - symmetry. apply (ci_members _ _ (ho_inv _ _ _ _ Hh)).
  - intros t k first now_ms now Ht. destruct (handle_step_good roster vn A Hro id _ now_ms now c t k first Hh (si_ends _ _ _ Hinv _ _ Hi) Ht) as (more & c' & E & _).
    by exists more, c'.
Qed.

(** C26: agreement. Any two nodes of a running cluster agree on every node that both know; when they know the
    same nodes and the points of the roster do not collide, they have the same ring and route every key alike. *)
Theorem system_agrees s i j ci cj :
  roster_ok roster vn A -> rtc (system_step roster) (System_make roster) s -> sys_nodes s !! i = Some ci -> sys_nodes s !! j = Some cj ->
  (forall id n n', k_nodes ci !! id = Some n -> k_nodes cj !! id = Some n' -> nd_info n = nd_info n') /\
  (no_shared_points vn (U roster) -> dom (k_nodes ci) = dom (k_nodes cj) ->
   k_ring ci = k_ring cj /\ forall cfg key count, nodes_for_key cfg ci key count = nodes_for_key cfg cj key count).
Proof.
  intros Hro Hr Hi Hj. pose proof (reachable_inv roster vn A Hro s Hr) as Hinv.
  destruct (si_nodes _ _ _ Hinv _ _ Hi) as (cfgi & idi & _ & Hhi). destruct (si_nodes _ _ _ Hinv _ _ Hj) as (cfgj & idj & _ & Hhj). split.
  - intros id n n' Hn Hn'. destruct (honest_entry _ _ _ _ Hhi Hn) as (cfg & Hp & ->). destruct (honest_entry _ _ _ _ Hhj Hn') as (cfg' & Hp' & ->).
    by rewrite (roster_unique cfg cfg' id Hro Hp Hp').
  - intros Hns Hd. destruct (ci_ring _ _ (ho_inv _ _ _ _ Hhi)) as [Hwi Hvi]. destruct (ci_ring _ _ (ho_inv _ _ _ _ Hhj)) as [Hwj Hvj].
    assert (k_ring ci = k_ring cj) as Er.
    { apply full_rings_equal; [done|done|by apply (ho_ring _ _ _ _ Hhi)|by apply (ho_ring _ _ _ _ Hhj)| |congruence].
      by rewrite <- (ci_members _ _ (ho_inv _ _ _ _ Hhi)), <- (ci_members _ _ (ho_inv _ _ _ _ Hhj)). }
    split; [done|]. intros cfg key count. apply same_routes; [done|]. intros id. by rewrite <- !elem_of_dom, Hd.
Qed.

(** C23: gossip gets through. In every reachable state: let node [i] have an open connection registered for node
    [j], and let node [j] run for the other end of it a handler that is past its first message and has read all that was
    sent so far. Then for every shuffle in which [j] is among the chosen targets, the round of [i] ends, and once
    the bytes of its push have arrived one turn of the handler makes [j] know exactly the nodes that [i] or [j]
    knew; round, arrival and turn are three steps of the system. (A handler still at its first message drops the
    push: [ClusterNetwork.seed_gossip_lost].) *)
Theorem gossip_spreads s i j cfg ci cj n k l t conn order now_ms now :
  roster_ok roster vn A -> rtc (system_step roster) (System_make roster) s -> i <> j ->
  roster !! i = Some (cfg, k_local ci) -> sys_nodes s !! i = Some ci -> sys_nodes s !! j = Some cj ->
  k_nodes ci !! k_local cj = Some n -> nd_connection n = Some k -> connected_at ci k = true ->
  sys_wires s !! (j, l) = Some (mkWire (i, k) (length (sent s (i, k)))) ->
  k_conns cj !! l = Some conn -> cn_connected conn = true -> c_in (cn_io conn) = [] ->
  k_running cj = true -> k_tasks cj !! t = Some (l, false) ->
  order ≡ₚ (fun n => ni_id (nd_info n)) <$> active_nodes ci ->
  k_local cj ∈ take (Z.to_nat (Z.min (kc_gossip_fanout cfg) (size_of order))) order ->
  exists ci' piece more cj' s',
    gossip_round cfg now_ms ci order = Done ci' /\
    drop (length (sent s (i, k))) (sent (set_node s i ci') (i, k)) = piece ++ more /\
    handle_step now_ms now (with_conns cj (<[l := arrive conn piece]> (k_conns cj))) l false = Done (true, cj') /\
    dom (k_nodes cj') = dom (k_nodes ci) ∪ dom (k_nodes cj) /\
    nsteps (system_step roster) 3 s s' /\ k_nodes <$> sys_nodes s' !! j = Some (k_nodes cj').
Proof.
  intros Hro Hr Hij Hp Hi Hj Hn Hk Hc Hw Hl Hcon Hin Hrun Ht Ho Htk. pose proof (reachable_inv roster vn A Hro s Hr) as Hinv.
  destruct (si_nodes _ _ _ Hinv _ _ Hi) as (cfg' & idi & Hp' & Hhi). pose proof (ho_local _ _ _ _ Hhi) as Eidi.
  destruct (si_nodes _ _ _ Hinv _ _ Hj) as (cfgj & idj & Hpj & Hhj).
  assert (k_local cj <> k_local ci) as Hne.
  { rewrite (ho_local _ _ _ _ Hhj). intros E. apply Hij.
    eapply NoDup_lookup; [apply (ro_ids _ _ _ Hro)|..]; rewrite list_lookup_fmap; [by rewrite Hp|by rewrite Hpj; cbn; rewrite E]. }
  set (push := GossipPushMessage (k_local ci) (nd_info <$> all_nodes ci)). pose proof (push_honest roster vn A Hro _ _ Hhi) as Hpush. fold push in Hpush.
  destruct (gossip_send_writes roster vn _ _ now_ms push _ _ n k Hpush Htk ci Hhi (si_ends _ _ _ Hinv _ _ Hi) Hne Hn Hk Hc) as (ci' & bs & Eg & Ew).
  destruct Hpush as (_ & Hfit & Hok). set (s1 := set_node s i ci'). set (enc := encode now_ms push 0) in *.
  set (cj2 := with_conns cj (<[l := arrive conn enc]> (k_conns cj))).
  assert (gossip_round cfg now_ms ci order = Done ci') as Er.
  { unfold gossip_round. rewrite (round_talks roster vn idi ci order (k_local cj) n Hhi Ho Hne Hn). exact Eg. }
  assert (drop (length (sent s (i, k))) (sent s1 (i, k)) = enc ++ bs) as Ed.
  { unfold sent. cbn. rewrite Hi, list_lookup_insert_eq by (by eapply lookup_lt_Some). by rewrite Ew, drop_app_length. }
  destruct (next_gossip_heard now cj2 l (arrive conn enc) now_ms (k_local ci) (nd_info <$> all_nodes ci) []) as (c1 & cj3 & Eh & -> & En).
  { done. } { cbn. apply list_lookup_insert_eq. by eapply lookup_lt_Some. } { done. }
  { cbn. rewrite Hin. by repeat constructor. } { cbn. by rewrite Hin. } { split_and!; [by apply Hok|done|done]. }
  eexists ci', enc, bs, _, _. split_and!; [done|done|exact Eh| | |].
  - rewrite handle_push_dom, En. cbn [cj2 with_conns k_nodes]. f_equal. by apply (push_ids roster vn idi).
  - eapply nsteps_l; [apply (sys_local _ s i cfg (k_local ci) ci ci' Hp Hi); by eapply local_gossip|]. fold s1.
    eapply nsteps_l; [apply (sys_deliver _ s1 j l cj conn (mkWire (i, k) _) enc bs Hw); try done|].
    { cbn. by rewrite list_lookup_insert_ne. }
    apply nsteps_once, (sys_local _ _ j cfgj idj cj2); [done|cbn; apply list_lookup_insert_eq; rewrite length_insert; by eapply lookup_lt_Some|].
    apply (local_handle _ cj2 now_ms now t l false true _ Ht Eh).
  - cbn. rewrite list_lookup_insert_eq; [done|]. rewrite !length_insert. by eapply lookup_lt_Some.
Qed.

End properties.

(** ** A run: one node joins another *)

#[local] Existing Instance fnv_hasher.

Definition joiner_cfg : ClusterConfig := mkClusterConfig (str "10.0.0.1") 7890 1000 1000 (str "elcache") [sample_seed] 10000 3 2 3 0 0.
Definition sample_roster : list (ClusterConfig * NodeId) := [(joiner_cfg, 17); (sample_cluster_cfg, 99)].

Definition ended {B} (o : outcome (B * Cluster)) (c : Cluster) : Cluster := match o with Done (_, c') => c' | _ => c end.

Definition a0 : Cluster := Cluster_make joiner_cfg 17.
Definition b0 : Cluster := with_running (Cluster_make sample_cluster_cfg 99) true.
(** The joining node has sent its Hello, the other one has accepted. *)
Definition a1 : Cluster := ended (seed_hello joiner_cfg 5 (with_net a0 [Some (opened [7; 1000])])) a0.
Definition b1 : Cluster := accept_one b0 (opened [3]).
Definition hello_bytes : bytes := written a1 0.
(** The Hello has arrived, and has been handled. *)
Definition b2 : Cluster := with_conns b1 [arrive (mkConnection (opened [3]) true) hello_bytes].
Definition b3 : Cluster := with_tasks (ended (handle_step 7 0 b2 0 true) b2) [(0%nat, false)].
Definition ack_bytes : bytes := written b3 0.
(** The answer arrives, and the joining node goes on. *)
Definition a2 : Cluster := with_conns a1 ((fun conn => arrive conn ack_bytes) <$> k_conns a1).
Definition a3 : Cluster := match seed_ack a2 0 with Done c => c | _ => a2 end.

Definition end_a : nat * nat := (0%nat, 0%nat).
Definition end_b : nat * nat := (1%nat, 0%nat).

Definition final_wires : gmap (nat * nat) Wire :=
  <[end_a := mkWire end_b (length ack_bytes)]> (<[end_b := mkWire end_a (length hello_bytes)]>
    (<[end_b := mkWire end_a 0]> (<[end_a := mkWire end_b 0]> ∅))).

Definition joined : System := mkSystem [a3; b3] final_wires [].

Lemma sample_roster_ok : roster_ok sample_roster 3 100.
Proof.
  split.
  - apply (bool_decide_unpack _). vm_compute. exact I.
  - repeat constructor; vm_compute; congruence.
  - vm_compute. split; congruence.
Qed.

Lemma joined_reachable : rtc (system_step sample_roster) (System_make sample_roster) joined.
Proof.
  eapply rtc_l; [eapply (sys_local _ _ 1%nat sample_cluster_cfg 99); [reflexivity|reflexivity|apply local_start]|].
  eapply rtc_l; [eapply (sys_seed_hello _ _ 0%nat joiner_cfg 17 a0 5 sample_seed (str "10.0.0.2") 7890 [7; 1000] 0%nat a1 1%nat b0 [3]);
    try reflexivity; try (by repeat constructor); vm_compute; reflexivity|].
  eapply rtc_l; [eapply (sys_deliver _ _ 1%nat 0%nat b1 (mkConnection (opened [3]) true) (mkWire end_a 0) hello_bytes []); try reflexivity|].
  { vm_compute. discriminate. }
  eapply rtc_l; [eapply (sys_local _ _ 1%nat sample_cluster_cfg 99 b2 b3); [reflexivity|reflexivity|]|].
  { apply (local_handle _ b2 7 0 0 0%nat true true (ended (handle_step 7 0 b2 0 true) b2)); vm_compute; reflexivity. }
  eapply rtc_l; [eapply (sys_deliver _ _ 0%nat 0%nat a1 _ (mkWire end_b 0) ack_bytes []); try reflexivity|].
  { vm_compute. discriminate. }
  eapply rtc_l; [eapply (sys_seed_ack _ _ 0%nat 0%nat 0%nat a2 a3); [reflexivity|vm_compute; reflexivity|vm_compute; reflexivity]|].
  apply rtc_refl.
Qed.

Lemma system_truthful_witness :
  is_Some (k_nodes b3 !! 17) /\
  (forall id n, k_nodes b3 !! id = Some n -> (exists cfg, (cfg, id) ∈ sample_roster /\ nd_info n = local_info cfg id) /\ is_active n = true) /\
  nodes_ (k_ring b3) = dom (k_nodes b3).
Proof.
  split; [vm_compute; eexists; reflexivity|].
  destruct (system_truthful sample_roster 3 100 joined 1 b3 sample_roster_ok joined_reachable eq_refl) as (_ & Ht & Hr & _).
  split; [exact Ht|exact Hr].
Defined.

Lemma system_agrees_witness :
  k_ring a3 = k_ring b3 /\ forall cfg key count, nodes_for_key cfg a3 key count = nodes_for_key cfg b3 key count.
Proof.
  destruct (system_agrees sample_roster 3 100 joined 0 1 a3 b3 sample_roster_ok joined_reachable eq_refl eq_refl) as [_ Ha].
  apply Ha.
  - apply (no_shared_mono 3 ({[5]} ∪ {[99; 17]})); [apply sample_no_shared|]. 
    intros x Hx. apply elem_of_list_to_set, list_elem_of_In in Hx. destruct Hx as [<-|[<-|[]]]; cbn [snd]; clear; set_solver.
  - vm_compute. reflexivity.
Defined.

Lemma gossip_spreads_witness :
  exists s' c', nsteps (system_step sample_roster) 3 joined s' /\ k_nodes <$> sys_nodes s' !! 1%nat = Some c' /\ dom c' = {[17; 99]}.
Proof.
  destruct (k_nodes a3 !! 99) as [n|] eqn:En; [|vm_compute in En; discriminate En].
  destruct (k_conns b3 !! 0%nat) as [conn|] eqn:Ec; [|vm_compute in Ec; discriminate Ec].
  destruct (gossip_spreads sample_roster 3 100 joined 0 1 joiner_cfg a3 b3 n 0 0 0 conn [99; 17] 40 50 sample_roster_ok joined_reachable)
    as (ci' & piece & more & cj' & s' & _ & _ & _ & Hd & Hr & Hc).
  - discriminate.
  - vm_compute. reflexivity.
  - reflexivity.
  - reflexivity.
  - replace (k_local b3) with 99 by (vm_compute; reflexivity). exact En.
  - vm_compute in En. injection En as <-. vm_compute. reflexivity.
  - vm_compute. reflexivity.
  - vm_compute. reflexivity.
  - exact Ec.
  - vm_compute in Ec. injection Ec as <-. reflexivity.
  - vm_compute in Ec. injection Ec as <-. reflexivity.
  - vm_compute. reflexivity.
  - vm_compute. reflexivity.
  - apply (bool_decide_unpack _). vm_compute. exact I.
  - apply (bool_decide_unpack _). vm_compute. exact I.
  - exists s', (k_nodes cj'). split; [exact Hr|]. split; [exact Hc|]. rewrite Hd. vm_compute. reflexivity.
Defined.
