(* ===== verification/Metrics.v ===== *)
(** * Metrics: [include/elcache/metrics.hpp], [src/http/metrics.cpp]

    Counters, gauges and latency histograms, the collector that copies cache and cluster statistics
    into gauges, and the two text exports. The global [Metrics] object is a value that is passed along;
    the clock readings are arguments, in nanoseconds. Every update of an atomic is one step. *)

From S2P Require Import Prelude CStd CText CDouble CFormat Types Chunk CacheApi ArcCache MemoryCache CacheTier Coordinator Cluster.
From Stdlib Require Import Strings.Byte SpecFloat Sorting.Sorted.
Open Scope Z_scope.

(** ** [Counter] and [Gauge] *)

Abbreviation Counter := Z.
Abbreviation Gauge := double.

Definition counter_inc (c : Counter) (n : Z) : Counter := c +w n.
Definition counter_reset (c : Counter) : Counter := 0.

Definition gauge_set (g : Gauge) (v : double) : Gauge := v.

(** The compare-and-exchange loop ends with the value last read plus [n]. *)
Definition gauge_inc (g : Gauge) (n : double) : Gauge := dadd g n.
Definition gauge_dec (g : Gauge) (n : double) : Gauge := gauge_inc g (SFopp n).

(** ** [LatencyHistogram] *)

Record LatencyHistogram := mkHistogram {
  hg_buckets : list (double * Z);
  hg_count : Z;
  hg_sum : double
}.

(** 0.1, 0.5, 1, 2.5, 5, 10, ..., 10000. *)
Definition DEFAULT_BUCKETS : list double :=
  [double_of_ratio false 1 10; double_of_ratio false 1 2; double_of_Z 1; double_of_ratio false 5 2] ++
  (double_of_Z <$> [5; 10; 25; 50; 100; 250; 500; 1000; 2500; 5000; 10000]).

Definition LatencyHistogram_make : LatencyHistogram :=
  mkHistogram ((fun b => (b, 0)) <$> (DEFAULT_BUCKETS ++ [S754_infinity false])) 0 dzero.

(** The first bucket whose bound is not below the value. *)
Fixpoint bump (value : double) (buckets : list (double * Z)) : list (double * Z) :=
  match buckets with
  | [] => []
  | (bound, n) :: rest => if dleb value bound then (bound, n +w 1) :: rest else (bound, n) :: bump value rest
  end.

Definition observe (h : LatencyHistogram) (value_ms : double) : LatencyHistogram :=
  mkHistogram (bump value_ms (hg_buckets h)) (hg_count h +w 1) (dadd (hg_sum h) value_ms).

Record Snapshot := mkSnapshot { sn_buckets : list (double * Z); sn_count : Z; sn_sum : double }.

Fixpoint accumulate (cumulative : Z) (buckets : list (double * Z)) : list (double * Z) :=
  match buckets with
  | [] => []
  | (bound, n) :: rest => (bound, cumulative +w n) :: accumulate (cumulative +w n) rest
  end.

Definition snapshot (h : LatencyHistogram) : Snapshot :=
  mkSnapshot (accumulate 0 (hg_buckets h)) (hg_count h) (hg_sum h).

Definition histogram_reset (h : LatencyHistogram) : LatencyHistogram :=
  mkHistogram ((fun b => (b.1, 0)) <$> hg_buckets h) 0 dzero.

(** The destructor of [LatencyTimer]. *)
Definition timer_stop (h : LatencyHistogram) (start now : Z) : LatencyHistogram :=
  observe h (ddiv (double_of_Z (now - start)) (double_of_Z 1000000)).

(** ** [Metrics] *)

Record Metrics := mkMetrics {
  m_cache_hits_total : Counter; m_cache_misses_total : Counter; m_cache_partial_hits_total : Counter;
  m_cache_gets_total : Counter; m_cache_puts_total : Counter; m_cache_deletes_total : Counter;
  m_bytes_read_total : Counter; m_bytes_written_total : Counter;
  m_memory_cache_size_bytes : Gauge; m_memory_cache_capacity_bytes : Gauge; m_memory_cache_entries : Gauge;
  m_disk_cache_size_bytes : Gauge; m_disk_cache_capacity_bytes : Gauge; m_disk_cache_entries : Gauge;
  m_memory_evictions_total : Counter; m_disk_evictions_total : Counter;
  m_get_latency_ms : LatencyHistogram; m_put_latency_ms : LatencyHistogram; m_delete_latency_ms : LatencyHistogram;
  m_cluster_nodes_total : Gauge; m_cluster_nodes_active : Gauge;
  m_cluster_messages_sent_total : Counter; m_cluster_messages_received_total : Counter;
  m_cluster_bytes_sent_total : Counter; m_cluster_bytes_received_total : Counter;
  m_http_requests_total : Counter; m_http_errors_total : Counter;
  m_http_request_latency_ms : LatencyHistogram; m_http_connections_active : Gauge;
  m_chunks_read_total : Counter; m_chunks_written_total : Counter; m_chunks_deleted_total : Counter;
  m_chunks_in_memory : Gauge; m_chunks_on_disk : Gauge;
  m_start_time : Z
}.

Definition Metrics_make (now : Z) : Metrics :=
  let h := LatencyHistogram_make in
  mkMetrics 0 0 0 0 0 0 0 0 dzero dzero dzero dzero dzero dzero 0 0 h h h dzero dzero 0 0 0 0 0 0 h dzero 0 0 0 dzero dzero now.

Definition uptime_seconds (m : Metrics) (now : Z) : double :=
  ddiv (double_of_Z (now - m_start_time m)) (double_of_Z 1000000000).

Definition set_memory_gauges (m : Metrics) (s : Stats) : Metrics :=
  mkMetrics (m_cache_hits_total m) (m_cache_misses_total m) (m_cache_partial_hits_total m) (m_cache_gets_total m)
    (m_cache_puts_total m) (m_cache_deletes_total m) (m_bytes_read_total m) (m_bytes_written_total m)
    (gauge_set (m_memory_cache_size_bytes m) (double_of_Z (s_size_bytes s)))
    (gauge_set (m_memory_cache_capacity_bytes m) (double_of_Z (s_capacity_bytes s)))
    (gauge_set (m_memory_cache_entries m) (double_of_Z (s_entry_count s)))
    (m_disk_cache_size_bytes m) (m_disk_cache_capacity_bytes m) (m_disk_cache_entries m) (m_memory_evictions_total m)
    (m_disk_evictions_total m) (m_get_latency_ms m) (m_put_latency_ms m) (m_delete_latency_ms m) (m_cluster_nodes_total m)
    (m_cluster_nodes_active m) (m_cluster_messages_sent_total m) (m_cluster_messages_received_total m)
    (m_cluster_bytes_sent_total m) (m_cluster_bytes_received_total m) (m_http_requests_total m) (m_http_errors_total m)
    (m_http_request_latency_ms m) (m_http_connections_active m) (m_chunks_read_total m) (m_chunks_written_total m)
    (m_chunks_deleted_total m) (m_chunks_in_memory m) (m_chunks_on_disk m) (m_start_time m).

Definition set_disk_gauges (m : Metrics) (s : Stats) : Metrics :=
  mkMetrics (m_cache_hits_total m) (m_cache_misses_total m) (m_cache_partial_hits_total m) (m_cache_gets_total m)
    (m_cache_puts_total m) (m_cache_deletes_total m) (m_bytes_read_total m) (m_bytes_written_total m)
    (m_memory_cache_size_bytes m) (m_memory_cache_capacity_bytes m) (m_memory_cache_entries m)
    (gauge_set (m_disk_cache_size_bytes m) (double_of_Z (s_size_bytes s)))
    (gauge_set (m_disk_cache_capacity_bytes m) (double_of_Z (s_capacity_bytes s)))
    (gauge_set (m_disk_cache_entries m) (double_of_Z (s_entry_count s))) (m_memory_evictions_total m)
    (m_disk_evictions_total m) (m_get_latency_ms m) (m_put_latency_ms m) (m_delete_latency_ms m) (m_cluster_nodes_total m)
    (m_cluster_nodes_active m) (m_cluster_messages_sent_total m) (m_cluster_messages_received_total m)
    (m_cluster_bytes_sent_total m) (m_cluster_bytes_received_total m) (m_http_requests_total m) (m_http_errors_total m)
    (m_http_request_latency_ms m) (m_http_connections_active m) (m_chunks_read_total m) (m_chunks_written_total m)
    (m_chunks_deleted_total m) (m_chunks_in_memory m) (m_chunks_on_disk m) (m_start_time m).

Definition set_cluster_gauges (m : Metrics) (s : ClusterStats) : Metrics :=
  mkMetrics (m_cache_hits_total m) (m_cache_misses_total m) (m_cache_partial_hits_total m) (m_cache_gets_total m)
    (m_cache_puts_total m) (m_cache_deletes_total m) (m_bytes_read_total m) (m_bytes_written_total m)
    (m_memory_cache_size_bytes m) (m_memory_cache_capacity_bytes m) (m_memory_cache_entries m)
    (m_disk_cache_size_bytes m) (m_disk_cache_capacity_bytes m) (m_disk_cache_entries m) (m_memory_evictions_total m)
    (m_disk_evictions_total m) (m_get_latency_ms m) (m_put_latency_ms m) (m_delete_latency_ms m)
    (gauge_set (m_cluster_nodes_total m) (double_of_Z (cs_total_nodes s)))
    (gauge_set (m_cluster_nodes_active m) (double_of_Z (cs_active_nodes s))) (m_cluster_messages_sent_total m)
    (m_cluster_messages_received_total m)
    (m_cluster_bytes_sent_total m) (m_cluster_bytes_received_total m) (m_http_requests_total m) (m_http_errors_total m)
    (m_http_request_latency_ms m) (m_http_connections_active m) (m_chunks_read_total m) (m_chunks_written_total m)
    (m_chunks_deleted_total m) (m_chunks_in_memory m) (m_chunks_on_disk m) (m_start_time m).

Section collector.
Context (MT DT : CacheTier) (CL : ClusterLink).

(** [MetricsCollector::collect]; the sources are the two pointers of the collector. *)
Definition collect (m : Metrics) (cache : option (Coordinator MT DT CL)) (cluster : option ClusterStats) : Metrics :=
  let m1 :=
    match cache with
    | None => m
    | Some co =>
        let m0 := set_memory_gauges m (co_stats MT DT CL co) in
        match co_disk _ _ _ co with
        | Some d => set_disk_gauges m0 (tier_stats d)
        | None => m0
        end
    end in
  match cluster with Some s => set_cluster_gauges m1 s | None => m1 end.
End collector.

(** ** Exports *)

Definition write_head (name help kind : string) : bytes :=
  str "# HELP " ++ str name ++ str " " ++ str help ++ nl ++ str "# TYPE " ++ str name ++ str " " ++ str kind ++ nl.

Definition write_counter (name help : string) (value : Z) : bytes :=
  write_head name help "counter" ++ str name ++ str " " ++ to_string value ++ nl.

Definition write_gauge (name help : string) (value : double) : bytes :=
  write_head name help "gauge" ++ str name ++ str " " ++ print_fixed 2 value ++ nl.

Definition is_inf (d : double) : bool := match d with S754_infinity _ => true | _ => false end.

Definition write_bucket (name : string) (bucket : double * Z) : bytes :=
  str name ++ str "_bucket{le=" ++ quoted (if is_inf bucket.1 then str "+Inf" else print_fixed 1 bucket.1) ++
  str "} " ++ to_string bucket.2 ++ nl.

Definition write_histogram (name help : string) (snap : Snapshot) : bytes :=
  write_head name help "histogram" ++ concat (write_bucket name <$> sn_buckets snap) ++
  str name ++ str "_sum " ++ print_fixed 3 (sn_sum snap) ++ nl ++ str name ++ str "_count " ++ to_string (sn_count snap) ++ nl.

Definition hit_rate (m : Metrics) : double :=
  let total_gets := m_cache_hits_total m +w m_cache_misses_total m +w m_cache_partial_hits_total m in
  if 0 <? total_gets then ddiv (double_of_Z (m_cache_hits_total m)) (double_of_Z total_gets) else dzero.

Definition export_prometheus (m : Metrics) (now : Z) : bytes :=
  write_counter "elcache_cache_hits_total" "Total number of cache hits" (m_cache_hits_total m) ++
  write_counter "elcache_cache_misses_total" "Total number of cache misses" (m_cache_misses_total m) ++
  write_counter "elcache_cache_partial_hits_total" "Total number of partial cache hits" (m_cache_partial_hits_total m) ++
  write_counter "elcache_cache_gets_total" "Total number of get operations" (m_cache_gets_total m) ++
  write_counter "elcache_cache_puts_total" "Total number of put operations" (m_cache_puts_total m) ++
  write_counter "elcache_cache_deletes_total" "Total number of delete operations" (m_cache_deletes_total m) ++
  write_counter "elcache_bytes_read_total" "Total bytes read from cache" (m_bytes_read_total m) ++
  write_counter "elcache_bytes_written_total" "Total bytes written to cache" (m_bytes_written_total m) ++
  write_gauge "elcache_memory_cache_size_bytes" "Current size of memory cache in bytes" (m_memory_cache_size_bytes m) ++
  write_gauge "elcache_memory_cache_capacity_bytes" "Capacity of memory cache in bytes" (m_memory_cache_capacity_bytes m) ++
  write_gauge "elcache_memory_cache_entries" "Number of entries in memory cache" (m_memory_cache_entries m) ++
  write_gauge "elcache_disk_cache_size_bytes" "Current size of disk cache in bytes" (m_disk_cache_size_bytes m) ++
  write_gauge "elcache_disk_cache_capacity_bytes" "Capacity of disk cache in bytes" (m_disk_cache_capacity_bytes m) ++
  write_gauge "elcache_disk_cache_entries" "Number of entries in disk cache" (m_disk_cache_entries m) ++
  write_counter "elcache_memory_evictions_total" "Total memory cache evictions" (m_memory_evictions_total m) ++
  write_counter "elcache_disk_evictions_total" "Total disk cache evictions" (m_disk_evictions_total m) ++
  write_histogram "elcache_get_latency_ms" "Get operation latency in milliseconds" (snapshot (m_get_latency_ms m)) ++
  write_histogram "elcache_put_latency_ms" "Put operation latency in milliseconds" (snapshot (m_put_latency_ms m)) ++
  write_histogram "elcache_delete_latency_ms" "Delete operation latency in milliseconds" (snapshot (m_delete_latency_ms m)) ++
  write_gauge "elcache_cluster_nodes_total" "Total number of nodes in cluster" (m_cluster_nodes_total m) ++
  write_gauge "elcache_cluster_nodes_active" "Number of active nodes in cluster" (m_cluster_nodes_active m) ++
  write_counter "elcache_cluster_messages_sent_total" "Total cluster messages sent" (m_cluster_messages_sent_total m) ++
  write_counter "elcache_cluster_messages_received_total" "Total cluster messages received" (m_cluster_messages_received_total m) ++
  write_counter "elcache_http_requests_total" "Total HTTP requests handled" (m_http_requests_total m) ++
  write_counter "elcache_http_errors_total" "Total HTTP errors" (m_http_errors_total m) ++
  write_histogram "elcache_http_request_latency_ms" "HTTP request latency in milliseconds" (snapshot (m_http_request_latency_ms m)) ++
  write_gauge "elcache_http_connections_active" "Active HTTP connections" (m_http_connections_active m) ++
  write_counter "elcache_chunks_read_total" "Total chunks read" (m_chunks_read_total m) ++
  write_counter "elcache_chunks_written_total" "Total chunks written" (m_chunks_written_total m) ++
  write_gauge "elcache_chunks_in_memory" "Chunks currently in memory" (m_chunks_in_memory m) ++
  write_gauge "elcache_chunks_on_disk" "Chunks currently on disk" (m_chunks_on_disk m) ++
  write_gauge "elcache_uptime_seconds" "Time since server start in seconds" (uptime_seconds m now) ++
  write_gauge "elcache_cache_hit_rate" "Cache hit rate (hits / total requests)" (hit_rate m).

Definition json_open (name : string) : bytes := str "  " ++ quoted (str name) ++ str ": {" ++ nl.
Definition json_close (rest : string) : bytes := str "  }" ++ str rest ++ nl.

(** An average latency. *)
Definition average (s : Snapshot) : double :=
  if 0 <? sn_count s then ddiv (sn_sum s) (double_of_Z (sn_count s)) else dzero.

Definition export_json (m : Metrics) (now : Z) : bytes :=
  let num name value rest := json_line "    " name (to_string value) rest in
  let cast name g rest := json_line "    " name (to_string (size_of_double g)) rest in
  str "{" ++ nl ++
  json_open "cache" ++
  num "hits" (m_cache_hits_total m) "," ++ num "misses" (m_cache_misses_total m) "," ++
  num "partial_hits" (m_cache_partial_hits_total m) "," ++ num "gets" (m_cache_gets_total m) "," ++
  num "puts" (m_cache_puts_total m) "," ++ num "deletes" (m_cache_deletes_total m) "," ++
  num "bytes_read" (m_bytes_read_total m) "," ++ num "bytes_written" (m_bytes_written_total m) EmptyString ++
  json_close "," ++
  json_open "memory_cache" ++
  cast "size_bytes" (m_memory_cache_size_bytes m) "," ++ cast "capacity_bytes" (m_memory_cache_capacity_bytes m) "," ++
  cast "entries" (m_memory_cache_entries m) "," ++ num "evictions" (m_memory_evictions_total m) EmptyString ++
  json_close "," ++
  json_open "disk_cache" ++
  cast "size_bytes" (m_disk_cache_size_bytes m) "," ++ cast "capacity_bytes" (m_disk_cache_capacity_bytes m) "," ++
  cast "entries" (m_disk_cache_entries m) "," ++ num "evictions" (m_disk_evictions_total m) EmptyString ++
  json_close "," ++
  json_open "cluster" ++
  cast "nodes_total" (m_cluster_nodes_total m) "," ++ cast "nodes_active" (m_cluster_nodes_active m) "," ++
  num "messages_sent" (m_cluster_messages_sent_total m) "," ++
  num "messages_received" (m_cluster_messages_received_total m) EmptyString ++
  json_close "," ++
  json_open "http" ++
  num "requests" (m_http_requests_total m) "," ++ num "errors" (m_http_errors_total m) "," ++
  cast "connections_active" (m_http_connections_active m) EmptyString ++
  json_close "," ++
  json_open "latency_ms" ++
  json_line "    " "get_avg" (print_fixed 3 (average (snapshot (m_get_latency_ms m)))) "," ++
  json_line "    " "put_avg" (print_fixed 3 (average (snapshot (m_put_latency_ms m)))) EmptyString ++
  json_close "," ++
  json_line "  " "uptime_seconds" (print_fixed 1 (uptime_seconds m now)) EmptyString ++
  str "}" ++ nl.

(** ** Comparison of doubles *)

Definition is_nan (d : double) : bool := match d with S754_nan => true | _ => false end.

(** Sign, exponent, mantissa: the comparison of [SpecFloat] is lexicographic. *)
Lemma dleb_trans a b c : dleb a b = true -> dleb b c = true -> dleb a c = true.
Proof.
  unfold dleb, SFleb, SFcompare.
  destruct a as [[]|[]| |[] ma ea], b as [[]|[]| |[] mb eb], c as [[]|[]| |[] mc ec]; try done; intros H1 H2.
  - destruct (Z.compare_spec ea eb), (Z.compare_spec eb ec), (Z.compare_spec ea ec); try lia; try done; subst;
      fold (Pos.compare ma mb) in *; fold (Pos.compare mb mc) in *; fold (Pos.compare ma mc) in *;
      destruct (Pos.compare_spec ma mb), (Pos.compare_spec mb mc), (Pos.compare_spec ma mc); simpl in *; try lia; done.
  - destruct (Z.compare_spec ea eb), (Z.compare_spec eb ec), (Z.compare_spec ea ec); try lia; try done; subst;
      fold (Pos.compare ma mb) in *; fold (Pos.compare mb mc) in *; fold (Pos.compare ma mc) in *;
      destruct (Pos.compare_spec ma mb), (Pos.compare_spec mb mc), (Pos.compare_spec ma mc); simpl in *; try lia; done.
Qed.

Lemma dleb_inf v : is_nan v = false -> dleb v (S754_infinity false) = true.
Proof. by destruct v as [[]|[]| |[] ? ?]. Qed.

(** ** Histories of a histogram *)

(** An observation, or a reset. *)
Definition histogram_run (h : LatencyHistogram) (op : option double) : LatencyHistogram :=
  match op with Some v => observe h v | None => histogram_reset h end.

Definition since_reset (acc : list double) (op : option double) : list double :=
  match op with Some v => acc ++ [v] | None => [] end.

(** How many observations are not above a bound. *)
Definition at_most (vs : list double) (bound : double) : Z := size_of (List.filter (fun v => dleb v bound) vs).

Definition bounds : list double := DEFAULT_BUCKETS ++ [S754_infinity false].

Lemma bounds_sorted : StronglySorted (fun a b => dleb a b = true) bounds.
Proof. repeat constructor; vm_compute; reflexivity. Qed.

Lemma accumulate_shift c bs : accumulate (c +w 1) bs = (fun x => (x.1, x.2 +w 1)) <$> accumulate c bs.
Proof.
  revert c. induction bs as [|[b n] bs IH]; intros c; [done|]. cbn [accumulate fmap list_fmap fst snd].
  assert (c +w 1 +w n = c +w n +w 1) as ->. { rewrite !u64_add_l. f_equal. lia. }
  by rewrite IH.
Qed.

Lemma accumulate_bounds c bs : (accumulate c bs).*1 = bs.*1.
Proof. revert c. induction bs as [|[b n] bs IH]; intros c; [done|]. cbn. f_equal. apply IH. Qed.

Lemma bump_bounds v bs : (bump v bs).*1 = bs.*1.
Proof. induction bs as [|[b n] bs IH]; [done|]. cbn [bump]. destruct (dleb v b); [done|]. cbn. f_equal. apply IH. Qed.

(** One observation raises exactly the buckets at or above it. *)
Lemma accumulate_bump v bs : StronglySorted (fun a b => dleb a b = true) bs.*1 -> forall c,
  accumulate c (bump v bs) = (fun x => (x.1, if dleb v x.1 then x.2 +w 1 else x.2)) <$> accumulate c bs.
Proof.
  induction bs as [|[b n] bs IH]; intros Hs c; [done|]. cbn [fmap list_fmap fst] in Hs. apply StronglySorted_inv in Hs as [Hs Hb].
  cbn [bump]. destruct (dleb v b) eqn:E; cbn [accumulate fmap list_fmap fst snd]; rewrite E; [|by rewrite IH].
  assert (c +w (n +w 1) = c +w n +w 1) as ->. { rewrite u64_add_l, u64_add_r. f_equal. lia. }
  f_equal. rewrite accumulate_shift. apply list_fmap_ext. intros i [b' n'] Hi. cbn [fst snd].
  assert (b' ∈ bs.*1) as Hin. { rewrite <- (accumulate_bounds (c +w n)). apply list_elem_of_fmap. exists (b', n'). split; [done|]. by eapply list_elem_of_lookup_2. }
  rewrite Forall_forall in Hb. by rewrite (dleb_trans v b b' E (Hb b' Hin)).
Qed.

Lemma at_most_snoc vs v b : at_most (vs ++ [v]) b = at_most vs b + (if dleb v b then 1 else 0).
Proof. unfold at_most. rewrite List.filter_app, size_of_app. cbn [List.filter]. by destruct (dleb v b). Qed.

(** What a histogram stands for after the observations [vs]. *)
Definition observed (h : LatencyHistogram) (vs : list double) : Prop :=
  (hg_buckets h).*1 = bounds /\ hg_count h = u64 (size_of vs) /\ hg_sum h = foldl dadd dzero vs /\
  accumulate 0 (hg_buckets h) = (fun b => (b, u64 (at_most vs b))) <$> bounds.

Lemma accumulate_zero (bs : list double) : accumulate 0 ((fun b => (b, 0)) <$> bs) = (fun b => (b, 0)) <$> bs.
Proof. induction bs as [|b bs IH]; [done|]. cbn [fmap list_fmap accumulate]. change (0 +w 0) with 0. by rewrite IH. Qed.

Lemma observed_empty (bs : list (double * Z)) : bs.*1 = bounds -> observed (mkHistogram ((fun b => (b.1, 0)) <$> bs) 0 dzero) [].
Proof.
  intros Hb. assert ((fun b : double * Z => (b.1, 0)) <$> bs = (fun b => (b, 0)) <$> bounds) as E.
  { rewrite <- Hb. by rewrite <- list_fmap_compose. }
  unfold observed. cbn [hg_buckets hg_count hg_sum]. rewrite E. split_and!; [by rewrite <- list_fmap_compose, list_fmap_id|done|done|].
  apply accumulate_zero.
Qed.

Lemma observed_make : observed LatencyHistogram_make [].
Proof.
  pose proof (observed_empty ((fun b => (b, 0)) <$> bounds)) as H. rewrite <- !list_fmap_compose in H.
  apply H. by rewrite list_fmap_id.
Qed.

Lemma observed_step h vs op : observed h vs -> observed (histogram_run h op) (since_reset vs op).
Proof.
  intros (Hb & Hc & Hsum & Hacc). destruct op as [v|]; cbn [histogram_run since_reset]; [|by apply observed_empty].
  unfold observed, observe. cbn [hg_buckets hg_count hg_sum]. split_and!.
  - by rewrite bump_bounds.
  - rewrite Hc, u64_add_l, size_of_app. done.
  - by rewrite foldl_app, Hsum.
  - rewrite accumulate_bump by (rewrite Hb; apply bounds_sorted). rewrite Hacc, <- list_fmap_compose.
    apply list_fmap_ext. intros i b _. cbn [compose fst snd]. rewrite at_most_snoc.
    destruct (dleb v b); [by rewrite u64_add_l|by rewrite Z.add_0_r].
Qed.

(** C37: after any history of observations and resets, the snapshot of a histogram is the cumulative one
    Prometheus expects: every bucket counts exactly the observations since the last reset that are not
    above its bound (modulo 2^64), the count is that of all of them, and it equals the +Inf bucket as
    long as no observation is a NaN. *)
Theorem histogram_cumulative ops :
  let vs := foldl since_reset [] ops in
  let s := snapshot (foldl histogram_run LatencyHistogram_make ops) in
  sn_buckets s = ((fun b => (b, u64 (at_most vs b))) <$> bounds) /\ sn_count s = u64 (size_of vs) /\
  sn_sum s = foldl dadd dzero vs /\
  (Forall (fun v => is_nan v = false) vs -> last (sn_buckets s) = Some (S754_infinity false, sn_count s)).
Proof.
  intros vs s. assert (observed (foldl histogram_run LatencyHistogram_make ops) vs) as (_ & Hc & Hsum & Hacc).
  { subst vs s. assert (forall h vs, observed h vs -> observed (foldl histogram_run h ops) (foldl since_reset vs ops)) as Hrun.
    { induction ops as [|op ops IH]; intros h vs Ho; [done|]. apply IH. by apply observed_step. }
    apply Hrun, observed_make. }
  subst s. unfold snapshot. cbn [sn_buckets sn_count sn_sum]. split_and!; [done..|]. intros Hnan. rewrite Hacc, Hc, fmap_last.
  unfold bounds. rewrite last_snoc. cbn [fmap option_fmap option_map]. unfold at_most.
  assert (List.filter (fun v => dleb v (S754_infinity false)) vs = vs) as ->; [|done].
  clear -Hnan. induction Hnan as [|v vs Hv _ IH]; [done|]. cbn [List.filter]. by rewrite dleb_inf, IH.
Qed.

Lemma histogram_cumulative_witness :
  let s := snapshot (foldl histogram_run LatencyHistogram_make [Some (double_of_Z 7); None; Some tenth; Some (double_of_Z 20000)]) in
  last (sn_buckets s) = Some (S754_infinity false, 2).
Proof.
  intros s. destruct (histogram_cumulative [Some (double_of_Z 7); None; Some tenth; Some (double_of_Z 20000)]) as (_ & _ & _ & H).
  apply H. repeat constructor.
Defined.

(** ** What the memory gauges show *)

(** [collect] fills the memory gauges from the statistics of both tiers together: with a disk tier the
    memory size, capacity and entry gauges show the sums over memory and disk. *)
Theorem collect_memory_gauges MT DT CL m (co : Coordinator MT DT CL) mem d :
  co_memory _ _ _ co = Some mem -> co_disk _ _ _ co = Some d ->
  let m' := collect MT DT CL m (Some co) None in
  let sm := tier_stats mem in let sd := tier_stats d in
  m_memory_cache_size_bytes m' = double_of_Z (s_size_bytes sm +w s_size_bytes sd) /\
  m_memory_cache_capacity_bytes m' = double_of_Z (s_capacity_bytes sm +w s_capacity_bytes sd) /\
  m_memory_cache_entries m' = double_of_Z (s_entry_count sm +w s_entry_count sd) /\
  m_disk_cache_size_bytes m' = double_of_Z (s_size_bytes sd).
Proof.
  intros Hm Hd. unfold collect, co_stats. rewrite Hd, Hm. cbn -[u64 Z.add double_of_Z tier_stats].
  by rewrite !Z.add_0_l, !u64_add_l.
Qed.

Lemma collect_memory_gauges_witness :
  let co := mkCoordinator mem mem link (Some (mc_make 100)) (Some (mc_make 300)) None in
  m_memory_cache_capacity_bytes (collect mem mem link (Metrics_make 0) (Some co) None) = double_of_Z 400.
Proof.
  intros co. destruct (collect_memory_gauges mem mem link (Metrics_make 0) co (mc_make 100) (mc_make 300)) as (_ & H & _);
    [reflexivity..|]. exact H.
Defined.
