(* ===== verification/HttpApi.v ===== *)
(** * The HTTP API: [include/elcache/http_api.hpp], [src/http/http_api.cpp]

    Requests and responses, range headers, the handlers over the coordinator and the sparse cache, and
    the table of routes. The HTTP server is the Elio library: the model starts from the method, path,
    query, headers and body its context holds ([Context_]) and ends at the status, body and headers
    handed back to it ([ElioResponse]). The headers of a request are an [unordered_map], here the list
    of its entries in the order of arrival (the order matters only to names that differ in case alone). An exception that leaves a handler is [Throw]; what Elio answers
    then is not part of the sources. The fields [cache_key] and [range] of [HttpRequest] are never set
    nor read and are left out. *)

From S2P Require Import Prelude CStd CText CDouble CFormat Types Chunk CacheApi CacheInterface ArcCache MemoryCache CacheTier Coordinator.
From S2P Require Import SparseCache UnixServer Cluster Metrics.
From Stdlib Require Import Strings.Byte SpecFloat.
Open Scope Z_scope.

(** ** [HttpRequest] *)

Record HttpRequest := mkRequest {
  hq_method : bytes;
  hq_path : bytes;
  hq_query : bytes;
  hq_headers : list (bytes * bytes);
  hq_body : bytes
}.

(** [elio::http::method]. *)
Inductive Method := GET | POST | PUT | DELETE_ | HEAD | OPTIONS | PATCH | OtherMethod.

#[export] Instance Method_eq_dec : EqDecision Method.
Proof. solve_decision. Defined.

Definition method_name (m : Method) : bytes :=
  match m with
  | GET => str "GET" | POST => str "POST" | PUT => str "PUT" | DELETE_ => str "DELETE"
  | HEAD => str "HEAD" | OPTIONS => str "OPTIONS" | PATCH => str "PATCH" | OtherMethod => str "UNKNOWN"
  end.

(** What the handlers read of an [elio::http::context]. *)
Record Context_ := mkContext {
  cx_method : Method;
  cx_path : bytes;
  cx_query : bytes;
  cx_headers : list (bytes * bytes);
  cx_body : bytes
}.

(** [headers[name] = value]. *)
Fixpoint set_header (name value : bytes) (headers : list (bytes * bytes)) : list (bytes * bytes) :=
  match headers with
  | [] => [(name, value)]
  | (k, v) :: rest => if bool_decide (k = name) then (k, value) :: rest else (k, v) :: set_header name value rest
  end.

Definition copy_headers (from : list (bytes * bytes)) : list (bytes * bytes) :=
  foldl (fun acc h => set_header h.1 h.2 acc) [] from.

Definition from_context (ctx : Context_) : outcome HttpRequest :=
  '(path, query) ←
    match find (str "?") (cx_path ctx) with
    | Some query_pos =>
        query ← substr (cx_path ctx) (query_pos + 1);
        path ← substr_n (cx_path ctx) 0 query_pos;
        Done (path, query)
    | None => Done (cx_path ctx, cx_query ctx)
    end;
  Done (mkRequest (method_name (cx_method ctx)) path query (copy_headers (cx_headers ctx)) (cx_body ctx)).

(** [headers.find(name)]. *)
Definition find_header (name : bytes) (headers : list (bytes * bytes)) : option bytes :=
  snd <$> List.find (fun h => bool_decide (h.1 = name)) headers.

Definition find_ignoring_case (name : bytes) (headers : list (bytes * bytes)) : option bytes :=
  snd <$> List.find (fun h => bool_decide (tolower <$> h.1 = tolower <$> name)) headers.

Definition header (req : HttpRequest) (name : bytes) : bytes :=
  match find_header name (hq_headers req) with
  | Some v => v
  | None => default [] (find_ignoring_case name (hq_headers req))
  end.

Definition content_length (req : HttpRequest) : outcome (option Z) :=
  let cl := header req (str "Content-Length") in
  if bool_decide (cl = []) then Done None else n ← stoull 10 cl; Done (Some n).

Definition has_range_header (req : HttpRequest) : bool := negb (bool_decide (header req (str "Range") = [])).

Definition parse_range_header (req : HttpRequest) (total_size : Z) : outcome Range :=
  let range_str := header req (str "Range") in
  if bool_decide (range_str = []) then Done (mkRange 0 total_size)
  else
    match find (str "=") range_str with
    | None => Done (mkRange 0 total_size)
    | Some eq =>
        range_val ← substr range_str (eq + 1);
        match find (str "-") range_val with
        | None => Done (mkRange 0 total_size)
        | Some dash =>
            start ← (if 0 <? dash then s ← substr_n range_val 0 dash; stoull 10 s else Done 0);
            end_ ← (if dash <? size_of range_val -w 1 then s ← substr range_val (dash + 1); stoull 10 s
                    else Done (total_size -w 1));
            let '(start, end_) := if dash =? 0 then (total_size -w end_, total_size -w 1) else (start, end_) in
            Done (mkRange start (end_ -w start +w 1))
        end
    end.

(** ** [HttpResponse] *)

Record HttpResponse := mkResponse {
  hr_status_code : Z;
  hr_status_text : bytes;
  hr_headers : list (bytes * bytes);
  hr_body : bytes
}.

Definition HttpResponse_default : HttpResponse := mkResponse 200 (str "OK") [] [].

Definition with_header (r : HttpResponse) (name : string) (value : bytes) : HttpResponse :=
  mkResponse (hr_status_code r) (hr_status_text r) (set_header (str name) value (hr_headers r)) (hr_body r).

Definition set_content_type (r : HttpResponse) (type : bytes) : HttpResponse := with_header r "Content-Type" type.
Definition set_content_length (r : HttpResponse) (len : Z) : HttpResponse := with_header r "Content-Length" (to_string len).

Definition set_range_headers (r : HttpResponse) (range : Range) (total : Z) : HttpResponse :=
  let value := str "bytes " ++ to_string (r_offset range) ++ str "-" ++
               to_string (r_offset range +w r_length range -w 1) ++ str "/" ++ to_string total in
  with_header (with_header r "Content-Range" value) "Accept-Ranges" (str "bytes").

Definition http_ok (body : bytes) : HttpResponse := mkResponse 200 (str "OK") [] body.
Definition http_created : HttpResponse := mkResponse 201 (str "Created") [] [].
Definition http_no_content : HttpResponse := mkResponse 204 (str "No Content") [] [].
Definition partial_content (body : bytes) (range : Range) (total : Z) : HttpResponse :=
  set_range_headers (mkResponse 206 (str "Partial Content") [] body) range total.

(** The four error responses and the conflicts: a code, its text and a message. *)
Definition text_response (code : Z) (text : string) (msg : bytes) : HttpResponse :=
  set_content_type (mkResponse code (str text) [] msg) (str "text/plain").
Definition not_found (msg : bytes) : HttpResponse := text_response 404 "Not Found" msg.
Definition bad_request (msg : bytes) : HttpResponse := text_response 400 "Bad Request" msg.
Definition internal_error (msg : bytes) : HttpResponse := text_response 500 "Internal Server Error" msg.
Definition service_unavailable (msg : bytes) : HttpResponse := text_response 503 "Service Unavailable" msg.
Definition conflict (msg : bytes) : HttpResponse := text_response 409 "Conflict" msg.

Definition json_response (body : bytes) : HttpResponse := set_content_type (http_ok body) (str "application/json").

(** What is handed to Elio: the status, the body and the calls of [set_header]. *)
Record ElioResponse := mkElioResponse { er_status : Z; er_body : bytes; er_headers : list (bytes * bytes) }.

Definition to_elio_response (r : HttpResponse) : ElioResponse :=
  mkElioResponse (hr_status_code r) (hr_body r) (hr_headers r).

(** [try { ... } catch (...) { ... }]. *)
Definition try_catch {A B} (m : outcome A) (handler : outcome B) (k : A -> outcome B) : outcome B :=
  match m with
  | Done a => k a
  | Throw _ => handler
  | Undef => Undef
  | Spin => Spin
  end.

(** ** [HttpHandler] *)

(** The collector's two source pointers, set or not. *)
Record MetricsCollector := mkCollector { mc_has_cache : bool; mc_has_cluster : bool }.

Section handlers.
Context `{HH : Hasher} (MT DT : CacheTier) (CL : ClusterLink) (cfg : CoordinatorConfig).

(** [cluster->stats()] of the cluster behind the link, the collector if one is set, and the order in
    which the compiler evaluates the arguments of one call (see [response_total]). *)
Context (link_stats : @link_state CL -> ClusterStats) (collector : option MetricsCollector) (moved_first : bool).

(** The cache, [global_sparse_cache()] and [metrics()]. *)
Record HttpState := mkHttp {
  hs_cache : Coordinator MT DT CL;
  hs_sparse : SparseCache;
  hs_metrics : Metrics
}.

Definition with_cache (s : HttpState) (co : Coordinator MT DT CL) : HttpState := mkHttp co (hs_sparse s) (hs_metrics s).
Definition with_sparse (s : HttpState) (sp : SparseCache) : HttpState := mkHttp (hs_cache s) sp (hs_metrics s).

(** [?range=offset-length]. *)
Definition query_range (query : bytes) : outcome (option Range) :=
  if bool_decide (query = []) then Done None
  else
    match find (str "range=") query with
    | None => Done None
    | Some range_pos =>
        range_str ← substr query (range_pos + 6);
        match find (str "-") range_str with
        | None => Done None
        | Some dash =>
            offset ← (s ← substr_n range_str 0 dash; stoull 10 s);
            length ← (s ← substr range_str (dash + 1); stoull 10 s);
            Done (Some (mkRange offset length))
        end
    end.

Definition read_range (s : HttpState) (key : bytes) (req : HttpRequest) : outcome (option Range) :=
  if has_range_header req then
    match co_metadata MT DT CL (hs_cache s) (CacheKey_make key) with
    | Some md => r ← parse_range_header req (md_total_size md); Done (Some r)
    | None => Done None
    end
  else Done None.

(** The total of a partial response. Without metadata it is the size of [result.data], an argument next
    to the one that moves [result.data] away: their order is the compiler's choice. *)
Definition response_total (result : ReadResult) : Z :=
  match rr_metadata result with
  | Some md => md_total_size md
  | None => if moved_first then 0 else size_of (rr_data result)
  end.

Definition hit_source (r : CacheResult) : bytes :=
  match r with Hit => str "hit" | PartialHit => str "partial" | _ => str "miss" end.

(** From the result of the cache to the response. *)
Definition get_response_of (result : ReadResult) (range : option Range) : HttpResponse :=
  let resp := if rr_is_partial result || bool_decide (is_Some range)
              then partial_content (rr_data result) (rr_actual_range result) (response_total result)
              else http_ok (rr_data result) in
  let resp := with_header resp "X-ElCache-Hit" (hit_source (rr_result result)) in
  let resp := match rr_metadata result with
              | Some md => with_header (with_header resp "X-ElCache-Size" (to_string (md_total_size md)))
                             "X-ElCache-Chunks" (to_string (md_chunk_count md))
              | None => resp
              end in
  let resp := set_content_type resp (str "application/octet-stream") in
  set_content_length resp (size_of (hr_body resp)).

Definition handle_get (now : Z) (s : HttpState) (req : HttpRequest) : outcome (HttpResponse * HttpState) :=
  key ← substr (hq_path req) 7;
  if bool_decide (key = []) then Done (bad_request (str "Missing cache key"), s)
  else
    header_range ← read_range s key req;
    param_range ← query_range (hq_query req);
    let range := match param_range with Some r => Some r | None => header_range end in
    let opts := mkReadOptions true (ro_prefer_local ReadOptions_default) (ro_update_access_time ReadOptions_default)
                  range (ro_timeout ReadOptions_default) in
    '(result, co) ← co_get MT DT CL cfg now (hs_cache s) (CacheKey_make key) opts;
    if rr_is_miss result then Done (not_found (str "Key not found"), with_cache s co)
    else Done (get_response_of result range, with_cache s co).

(** The options of a PUT; [flags] is converted to 32 bits. *)
Definition ttl_of (req : HttpRequest) : outcome (option Z) :=
  let ttl_header := header req (str "X-ElCache-TTL") in
  if bool_decide (ttl_header = []) then Done None else n ← stoll ttl_header; Done (Some n).

Definition put_options (req : HttpRequest) : outcome WriteOptions :=
  ttl ← ttl_of req;
  flags ← (let flags_header := header req (str "X-ElCache-Flags") in
           if bool_decide (flags_header = []) then Done 0 else n ← stoull 10 flags_header; Done (u32 n));
  let is_true name := bool_decide (header req (str name) = str "true") in
  Done (mkWriteOptions ttl flags (is_true "X-ElCache-No-Memory") (is_true "X-ElCache-No-Disk")
          (is_true "X-ElCache-No-Cluster") true).

Definition handle_put (now : Z) (s : HttpState) (req : HttpRequest) : outcome (HttpResponse * HttpState) :=
  key ← substr (hq_path req) 7;
  if bool_decide (key = []) then Done (bad_request (str "Missing cache key"), s)
  else if MAX_KEY_SIZE <? size_of key then Done (bad_request (str "Key too large"), s)
  else
    opts ← put_options req;
    '(status, co) ← co_put MT DT CL now (hs_cache s) (CacheKey_make key) (hq_body req) opts;
    Done (if is_ok status then http_created else internal_error (st_message status), with_cache s co).

Definition handle_delete (s : HttpState) (req : HttpRequest) : outcome (HttpResponse * HttpState) :=
  key ← substr (hq_path req) 7;
  if bool_decide (key = []) then Done (bad_request (str "Missing cache key"), s)
  else
    '(status, co) ← co_remove MT DT CL (hs_cache s) (CacheKey_make key) DeleteOptions_default;
    Done (if is_ok status then http_no_content
          else if bool_decide (st_code status = NotFound) then not_found (str "Key not found")
          else internal_error (st_message status), with_cache s co).

Definition handle_head (s : HttpState) (req : HttpRequest) : outcome (HttpResponse * HttpState) :=
  key ← substr (hq_path req) 7;
  if bool_decide (key = []) then Done (bad_request (str "Missing cache key"), s)
  else
    match co_metadata MT DT CL (hs_cache s) (CacheKey_make key) with
    | None => Done (not_found (str "Key not found"), s)
    | Some md =>
        let resp := with_header (mkResponse 200 (str "OK") [] []) "X-ElCache-Size" (to_string (md_total_size md)) in
        let resp := with_header resp "X-ElCache-Chunks" (to_string (md_chunk_count md)) in
        let resp := with_header resp "Accept-Ranges" (str "bytes") in
        Done (set_content_length resp (md_total_size md), s)
    end.

Definition handle_options (s : HttpState) (req : HttpRequest) : outcome (HttpResponse * HttpState) :=
  Done (with_header (with_header (mkResponse 200 (str "OK") [] []) "Allow" (str "GET, PUT, POST, DELETE, HEAD, OPTIONS"))
          "Accept-Ranges" (str "bytes"), s).

(** *** Statistics and administration *)

Definition hit_rate_percent (st : Stats) : double :=
  if 0 <? s_hits st +w s_misses st
  then dmul (ddiv (double_of_Z (s_hits st)) (double_of_Z (s_hits st +w s_misses st))) (double_of_Z 100)
  else dzero.

Definition stats_json (st : Stats) : bytes :=
  let num name value := json_line "  " name (to_string value) "," in
  str "{" ++ nl ++ num "hits" (s_hits st) ++ num "misses" (s_misses st) ++ num "partial_hits" (s_partial_hits st) ++
  num "bytes_read" (s_bytes_read st) ++ num "bytes_written" (s_bytes_written st) ++ num "evictions" (s_evictions st) ++
  num "entry_count" (s_entry_count st) ++ num "size_bytes" (s_size_bytes st) ++ num "capacity_bytes" (s_capacity_bytes st) ++
  json_line "  " "hit_rate_percent" (print_general (hit_rate_percent st)) EmptyString ++ str "}" ++ nl.

Definition handle_stats (s : HttpState) (req : HttpRequest) : outcome (HttpResponse * HttpState) :=
  Done (json_response (stats_json (co_stats MT DT CL (hs_cache s))), s).

(** A JSON object of one string, on one line. *)
Definition json_object1 (name value : string) : bytes :=
  str "{" ++ quoted (str name) ++ str ": " ++ quoted (str value) ++ str "}".

Definition handle_health (s : HttpState) (req : HttpRequest) : outcome (HttpResponse * HttpState) :=
  Done (json_response (json_object1 "status" "healthy"), s).

Definition cluster_json (st : ClusterStats) : bytes :=
  let num name value rest := json_line "  " name (to_string value) rest in
  str "{" ++ nl ++ json_line "  " "mode" (quoted (str "cluster")) "," ++ num "total_nodes" (cs_total_nodes st) "," ++
  num "active_nodes" (cs_active_nodes st) "," ++ num "total_memory_capacity" (cs_total_memory_capacity st) "," ++
  num "total_disk_capacity" (cs_total_disk_capacity st) "," ++ num "total_memory_used" (cs_total_memory_used st) "," ++
  num "total_disk_used" (cs_total_disk_used st) EmptyString ++ str "}" ++ nl.

Definition handle_cluster (s : HttpState) (req : HttpRequest) : outcome (HttpResponse * HttpState) :=
  match co_cluster _ _ _ (hs_cache s) with
  | None => Done (json_response (json_object1 "mode" "standalone"), s)
  | Some cl => Done (json_response (cluster_json (link_stats cl)), s)
  end.

Definition collect_for (col : MetricsCollector) (s : HttpState) : Metrics :=
  collect MT DT CL (hs_metrics s) (if mc_has_cache col then Some (hs_cache s) else None)
    (if mc_has_cluster col then link_stats <$> co_cluster _ _ _ (hs_cache s) else None).

(** [now]: the steady clock, which the uptime is taken from. *)
Definition handle_metrics (now : Z) (s : HttpState) (req : HttpRequest) : outcome (HttpResponse * HttpState) :=
  match collector with
  | None => Done (service_unavailable (str "Metrics not configured"), s)
  | Some col =>
      let m := collect_for col s in
      let s' := mkHttp (hs_cache s) (hs_sparse s) m in
      match find (str "application/json") (header req (str "Accept")) with
      | Some _ => Done (set_content_type (http_ok (export_json m now)) (str "application/json"), s')
      | None => Done (set_content_type (http_ok (export_prometheus m now)) (str "text/plain; version=0.0.4; charset=utf-8"), s')
      end
  end.

(** *** Position-based writes *)

Definition completion_text (sp : SparseCache) (key : bytes) : bytes := to_string_double (get_completion sp key) ++ str "%".

Definition handle_sparse_create (s : HttpState) (req : HttpRequest) : outcome (HttpResponse * HttpState) :=
  key ← substr (hq_path req) 8;
  if bool_decide (key = []) then Done (bad_request (str "Missing key"), s)
  else
    let size_header := header req (str "X-ElCache-Size") in
    if bool_decide (size_header = []) then Done (bad_request (str "X-ElCache-Size header required"), s)
    else
      try_catch (stoull 10 size_header) (Done (bad_request (str "Invalid X-ElCache-Size value"), s)) (fun total_size =>
        if total_size =? 0 then Done (bad_request (str "Size must be greater than 0"), s)
        else
          let '(created, sp) := sparse_create (hs_sparse s) key total_size in
          if created then Done (with_header http_created "X-ElCache-Size" (to_string total_size), with_sparse s sp)
          else Done (conflict (str "Sparse entry already exists"), with_sparse s sp)).

(** The offset of a write, or the message with which it is rejected. *)
Definition write_offset (req : HttpRequest) : outcome (bytes + Z) :=
  let content_range := header req (str "Content-Range") in
  if negb (bool_decide (content_range = [])) then
    match find (str "bytes ") content_range with
    | None => Done (inr 0)
    | Some bytes_pos =>
        range_part ← substr content_range (bytes_pos + 6);
        match find (str "-") range_part with
        | None => Done (inr 0)
        | Some dash_pos =>
            try_catch (s ← substr_n range_part 0 dash_pos; stoull 10 s) (Done (inl (str "Invalid Content-Range")))
              (fun offset => Done (inr offset))
        end
    end
  else
    match find (str "offset=") (hq_query req) with
    | None => Done (inr 0)
    | Some offset_pos =>
        try_catch (s ← substr (hq_query req) (offset_pos + 7); stoull 10 s) (Done (inl (str "Invalid offset parameter")))
          (fun offset => Done (inr offset))
    end.

Definition handle_sparse_write (s : HttpState) (req : HttpRequest) : outcome (HttpResponse * HttpState) :=
  key ← substr (hq_path req) 8;
  if bool_decide (key = []) then Done (bad_request (str "Missing key"), s)
  else
    parsed ← write_offset req;
    match parsed with
    | inl msg => Done (bad_request msg, s)
    | inr offset =>
        if bool_decide (hq_body req = []) then Done (bad_request (str "Request body is empty"), s)
        else
          '(success, sp) ← sparse_write_range (hs_sparse s) key offset (hq_body req);
          let s' := with_sparse s sp in
          if success : bool then
            Done (with_header (mkResponse 202 (str "Accepted") [] []) "X-ElCache-Completion" (completion_text sp key), s')
          else if negb (sparse_exists sp key) then Done (not_found (str "Sparse entry not found"), s')
          else Done (bad_request (str "Invalid range (offset + size exceeds total)"), s')
    end.

Definition handle_sparse_finalize (now : Z) (s : HttpState) (req : HttpRequest) : outcome (HttpResponse * HttpState) :=
  match rfind (str "/finalize") (hq_path req) with
  | None => Done (bad_request (str "Invalid path"), s)
  | Some finalize_pos =>
      key ← substr_n (hq_path req) 8 (finalize_pos -w 8);
      if bool_decide (key = []) then Done (bad_request (str "Missing key"), s)
      else
        let '(result, data, sp) := sparse_finalize (hs_sparse s) key in
        let s1 := with_sparse s sp in
        if result =? 1 then Done (not_found (str "Sparse entry not found"), s1)
        else if result =? 2 then
          Done (with_header (conflict (str "Not all ranges written")) "X-ElCache-Completion" (completion_text sp key), s1)
        else
          ttl ← ttl_of req;
          '(status, co) ← co_put MT DT CL now (hs_cache s1) (CacheKey_make key) data (mkWriteOptions ttl 0 false false false true);
          let s2 := with_cache s1 co in
          if is_ok status then Done (http_created, s2)
          else Done (internal_error (str "Failed to store finalized data: " ++ st_message status), s2)
  end.

Definition status_json (key : bytes) (total_size : Z) (completion : double) : bytes :=
  str "{" ++ nl ++ json_line "  " "key" (quoted key) "," ++ json_line "  " "total_size" (to_string total_size) "," ++
  json_line "  " "completion_percent" (print_general completion) "," ++
  json_line "  " "complete" (bool_text (dleb (double_of_Z 100) completion)) EmptyString ++ str "}" ++ nl.

Definition handle_sparse_status (s : HttpState) (req : HttpRequest) : outcome (HttpResponse * HttpState) :=
  key ← substr (hq_path req) 8;
  if bool_decide (key = []) then Done (bad_request (str "Missing key"), s)
  else if negb (sparse_exists (hs_sparse s) key) then Done (not_found (str "Sparse entry not found"), s)
  else Done (json_response (status_json key (get_total_size (hs_sparse s) key) (get_completion (hs_sparse s) key)), s).

(** *** Routing *)

(** A registered handler: method, prefix of the path, function. *)
Definition Handler : Type := HttpState -> HttpRequest -> outcome (HttpResponse * HttpState).

Definition add_route (routes : list (bytes * bytes * Handler)) (method pattern : bytes) (h : Handler)
  : list (bytes * bytes * Handler) := routes ++ [(method, pattern, h)].

Definition route_matches (req : HttpRequest) (route : bytes * bytes * Handler) : bool :=
  bool_decide (hq_method req = route.1.1) && bool_decide (find route.1.2 (hq_path req) = Some 0).

(** [HttpHandler::handle]. *)
Definition handle (routes : list (bytes * bytes * Handler)) (now clock : Z) (s : HttpState) (req : HttpRequest)
  : outcome (HttpResponse * HttpState) :=
  match List.find (route_matches req) routes with
  | Some route => route.2 s req
  | None =>
      let is_method name := bool_decide (hq_method req = str name) in
      let is_path p := bool_decide (hq_path req = str p) in
      let fallback := Done (not_found (str "Endpoint not found"), s) in
      if starts_with (str "/cache/") (hq_path req) then
        if is_method "GET" then handle_get now s req
        else if is_method "PUT" || is_method "POST" then handle_put now s req
        else if is_method "DELETE" then handle_delete s req
        else if is_method "HEAD" then handle_head s req
        else if is_method "OPTIONS" then handle_options s req
        else fallback
      else if is_path "/stats" && is_method "GET" then handle_stats s req
      else if is_path "/health" && is_method "GET" then handle_health s req
      else if is_path "/metrics" && is_method "GET" then handle_metrics clock s req
      else if starts_with (str "/cluster") (hq_path req) && is_method "GET" then handle_cluster s req
      else fallback
  end.

(** The functions [build_router] registers. *)
Inductive Endpoint :=
| EGet | EPut | EDelete | EHead | EOptions | EStats | EHealth | EMetrics | ECluster
| ESparseCreate | ESparseWrite | ESparseFinalize | ESparseStatus.

(** A route goes through the adapter of a handler, or is the lambda that aborts an upload. *)
Inductive Route := Through (e : Endpoint) | SparseAbort.

Definition build_router : list (Method * bytes * Route) :=
  [ (GET, str "/cache/:key", Through EGet); (PUT, str "/cache/:key", Through EPut); (POST, str "/cache/:key", Through EPut);
    (DELETE_, str "/cache/:key", Through EDelete); (HEAD, str "/cache/:key", Through EHead); (OPTIONS, str "/cache/:key", Through EOptions);
    (GET, str "/stats", Through EStats); (GET, str "/health", Through EHealth); (GET, str "/metrics", Through EMetrics);
    (GET, str "/cluster", Through ECluster); (GET, str "/cluster/nodes", Through ECluster);
    (POST, str "/sparse/:key", Through ESparseCreate); (PATCH, str "/sparse/:key", Through ESparseWrite); (PUT, str "/sparse/:key", Through ESparseWrite);
    (POST, str "/sparse/:key/finalize", Through ESparseFinalize); (GET, str "/sparse/:key", Through ESparseStatus);
    (DELETE_, str "/sparse/:key", SparseAbort) ].

(** The lambda registered for DELETE /sparse/:key. *)
Definition sparse_abort (s : HttpState) (ctx : Context_) : outcome (ElioResponse * HttpState) :=
  key ← substr (cx_path ctx) 8;
  Done (mkElioResponse 204 [] [], with_sparse s (sparse_remove (hs_sparse s) key).2).

(** The adapters: [from_context], the handler, [to_elio_response]. *)
Definition endpoint_handler (e : Endpoint) (now clock : Z) (s : HttpState) (req : HttpRequest) : outcome (HttpResponse * HttpState) :=
  match e with
  | EGet => handle_get now s req
  | EPut => handle_put now s req
  | EDelete => handle_delete s req
  | EHead => handle_head s req
  | EOptions => handle_options s req
  | EStats => handle_stats s req
  | EHealth => handle_health s req
  | EMetrics => handle_metrics clock s req
  | ECluster => handle_cluster s req
  | ESparseCreate => handle_sparse_create s req
  | ESparseWrite => handle_sparse_write s req
  | ESparseFinalize => handle_sparse_finalize now s req
  | ESparseStatus => handle_sparse_status s req
  end.

Definition run_route (r : Route) (now clock : Z) (s : HttpState) (ctx : Context_) : outcome (ElioResponse * HttpState) :=
  match r with
  | SparseAbort => sparse_abort s ctx
  | Through e =>
      req ← from_context ctx;
      '(resp, s') ← endpoint_handler e now clock s req;
      Done (to_elio_response resp, s')
  end.

End handlers.

Lemma dash_not_digit : ~ 48 <= Z_of_byte x2d < 58.
Proof. vm_compute. intros [? ?]. by destruct (H eq_refl). Qed.

(** ** Range headers *)

(** The three forms of a byte range: [a-b], [a-] and [-n]. *)
Inductive RangeSpec := FromTo (a b : Z) | From (a : Z) | Suffix (n : Z).

Definition range_ok (r : RangeSpec) : Prop :=
  match r with FromTo a b => is_u64 a /\ is_u64 b /\ a <= b /\ b - a + 1 < 2 ^ 64 | From a => is_u64 a | Suffix n => is_u64 n end.

Definition print_range (r : RangeSpec) : bytes :=
  str "bytes=" ++
  match r with
  | FromTo a b => to_string a ++ str "-" ++ to_string b
  | From a => to_string a ++ str "-"
  | Suffix n => str "-" ++ to_string n
  end.

(** The bytes of a value such a range stands for; a suffix longer than the value gives nothing. *)
Definition range_bytes (r : RangeSpec) (v : bytes) : bytes :=
  match r with
  | FromTo a b => slice a (b - a + 1) v
  | From a => drop (Z.to_nat a) v
  | Suffix n => if n <=? size_of v then slice (size_of v - n) n v else []
  end.

(** What [parse_range_header] makes of it. *)
Definition parsed_range (r : RangeSpec) (total : Z) : Range :=
  match r with
  | FromTo a b => mkRange a (b - a + 1)
  | From a => mkRange a (total -w a)
  | Suffix n => mkRange (total -w n) n
  end.

Lemma parse_range_header_spec req r total :
  header req (str "Range") = print_range r -> range_ok r -> is_u64 total ->
  parse_range_header req total = Done (parsed_range r total).
Proof.
  intros Hh Hok Ht. unfold parse_range_header. rewrite Hh. unfold print_range.
  assert (forall rest, find (str "=") (str "bytes=" ++ rest) = Some 5) as -> by reflexivity.
  assert (forall rest, substr (str "bytes=" ++ rest) (5 + 1) = Done rest) as -> by exact (substr_app (str "bytes=")).
  rewrite bool_decide_false by done. cbn [mbind outcome_bind]. destruct r as [a b|a|n]; cbn [range_ok] in Hok.
  - destruct Hok as (Ha & Hb & Hab & Hlen). change (str "-" ++ to_string b) with (x2d :: to_string b).
    rewrite (find_after_number x2d) by apply dash_not_digit.
    pose proof (to_string_size a). pose proof (to_string_size b).
    rewrite (if_ltb 0) by lia. rewrite substr_n_app. cbn [mbind outcome_bind].
    rewrite stoull_to_string by done. cbn [mbind outcome_bind].
    rewrite size_of_app, size_of_cons. rewrite (u64_small (size_of (to_string a) + (1 + size_of (to_string b)) - 1)) by (unfold is_u64; lia). rewrite (if_ltb (size_of (to_string a))) by lia. rewrite substr_after.
    cbn [mbind outcome_bind]. rewrite stoull_to_string by done. cbn [mbind outcome_bind].
    destruct (Z.eqb_spec (size_of (to_string a)) 0); [lia|]. unfold is_u64 in *. word_small. done.
  - change (str "-") with [x2d]. rewrite (find_after_number x2d) by apply dash_not_digit.
    pose proof (to_string_size a). rewrite (if_ltb 0) by lia. rewrite substr_n_app. cbn [mbind outcome_bind].
    rewrite stoull_to_string by done. cbn [mbind outcome_bind]. rewrite size_of_app. change (size_of [x2d]) with 1.
    rewrite (u64_small (size_of (to_string a) + 1 - 1)) by (unfold is_u64; lia). destruct (Z.ltb_spec (size_of (to_string a)) (size_of (to_string a) + 1 - 1)); [lia|].
    cbn [mbind outcome_bind]. destruct (Z.eqb_spec (size_of (to_string a)) 0); [lia|]. cbn [parsed_range].
    do 2 f_equal. rewrite !u64_sub_l, u64_add_l. f_equal. lia.
  - change (str "-" ++ to_string n) with (x2d :: to_string n). assert (find (str "-") (x2d :: to_string n) = Some 0) as -> by reflexivity.
    pose proof (to_string_size n). cbn [Z.ltb Z.compare mbind outcome_bind]. rewrite size_of_cons.
    rewrite (u64_small (1 + size_of (to_string n) - 1)) by (unfold is_u64; lia). rewrite (if_ltb 0) by lia.
    rewrite (substr_app [x2d] (to_string n) : substr (x2d :: to_string n) (0 + 1) = _). cbn [mbind outcome_bind]. rewrite stoull_to_string by done.
    cbn [mbind outcome_bind Z.eqb parsed_range]. do 2 f_equal. rewrite u64_sub_l, u64_sub_r, u64_add_l. rewrite <- (u64_small n) at 2 by done. f_equal. lia.
Qed.

Lemma parsed_range_bytes r v : range_ok r -> size_of v < 2 ^ 64 ->
  slice (r_offset (parsed_range r (size_of v))) (r_length (parsed_range r (size_of v))) v = range_bytes r v.
Proof.
  intros Hok Hv. pose proof (size_of_nonneg v) as Hn. destruct r as [a b|a|n]; cbn [parsed_range r_offset r_length range_bytes range_ok] in *; [done| |].
  - unfold slice, is_u64 in *. destruct (Z.le_gt_cases a (size_of v)).
    + word_small. apply take_ge. unfold size_of in *. rewrite length_drop. lia.
    + rewrite drop_ge by (unfold size_of in *; lia). by rewrite take_nil.
  - unfold is_u64 in Hok. destruct (Z.leb_spec n (size_of v)); [by word_small|].
    assert (size_of v -w n = 2 ^ 64 + size_of v - n) as ->.
    { unfold u64. replace (size_of v - n) with (2 ^ 64 + size_of v - n + (-1) * 2 ^ 64) by lia. rewrite Z_mod_plus_full. apply Z.mod_small. lia. }
    unfold slice. destruct (Z.le_gt_cases (size_of v) (2 ^ 64 + size_of v - n)); [|lia].
    rewrite drop_ge by (unfold size_of in *; lia). by rewrite take_nil.
Qed.

Lemma parsed_range_u64 r total : range_ok r -> is_u64 total ->
  is_u64 (r_offset (parsed_range r total)) /\ is_u64 (r_length (parsed_range r total)).
Proof. destruct r; cbn; intros Hok Ht; split; auto using u64_range; unfold is_u64 in *; lia. Qed.

(** ** Paths *)

Lemma find_None_app b pre key : b ∉ pre -> b ∉ key -> find [b] (pre ++ key) = None.
Proof. intros H1 H2. apply find_char_None. rewrite elem_of_app. tauto. Qed.

(** A request whose path holds no query is read as it is. *)
Lemma from_context_plain ctx : x3f ∉ cx_path ctx ->
  from_context ctx = Done (mkRequest (method_name (cx_method ctx)) (cx_path ctx) (cx_query ctx) (copy_headers (cx_headers ctx)) (cx_body ctx)).
Proof. intros H. unfold from_context. by rewrite (find_char_None x3f). Qed.

Lemma starts_with_cons b pat c s : starts_with (b :: pat) (c :: s) = true -> b = c.
Proof. cbn [starts_with]. intros H. by bool_hyps. Qed.

(** The pattern starts with a slash and has no other: its last match is the one at the end. *)
Lemma rfind_suffix b pat pre : b ∉ pat -> rfind (b :: pat) (pre ++ b :: pat) = Some (size_of pre).
Proof.
  intros Hb. assert (forall s, b ∉ s -> rfind (b :: pat) s = None) as Hnone.
  { induction s as [|c s IH]; intros Hs; [done|]. cbn [rfind]. rewrite IH by (intros ?; apply Hs; by right).
    destruct (starts_with (b :: pat) (c :: s)) eqn:E; [|done]. apply starts_with_cons in E as ->. exfalso. apply Hs. by left. }
  induction pre as [|c pre IH]; cbn [app].
  - change (rfind (b :: pat) (b :: pat)) with
      (match rfind (b :: pat) pat with Some i => Some (1 + i) | None => if starts_with (b :: pat) (b :: pat) then Some 0 else None end).
    rewrite Hnone by done. pose proof (starts_with_app (b :: pat) []) as H. rewrite app_nil_r in H. by rewrite H.
  - cbn [rfind]. rewrite IH, size_of_cons. done.
Qed.

Lemma finalize_path key : key <> [] ->
  rfind (str "/finalize") (str "/sparse/" ++ key ++ str "/finalize") = Some (8 + size_of key) /\
  (size_of key < 2 ^ 63 -> substr_n (str "/sparse/" ++ key ++ str "/finalize") 8 (8 + size_of key -w 8) = Done key).
Proof.
  intros Hne. pose proof (size_of_pos key Hne). split.
  - rewrite app_assoc. change (str "/finalize") with (x2f :: str "finalize").
    rewrite rfind_suffix by (apply (bool_decide_unpack _); by vm_compute).
    by rewrite size_of_app.
  - intros Hs. rewrite (u64_small (8 + size_of key - 8)) by (unfold is_u64; lia). unfold substr_n.
    rewrite !size_of_app. change (size_of (str "/sparse/")) with 8. change (size_of (str "/finalize")) with 9.
    destruct (Z.ltb_spec (8 + (size_of key + 9)) 8); [lia|]. rewrite Z.min_l by lia.
    rewrite slice_app_r by (change (size_of (str "/sparse/")) with 8; lia). change (8 - size_of (str "/sparse/")) with 0.
    rewrite slice_app_l by lia. rewrite slice_all by lia. done.
Qed.

(** ** Requests as a client makes them *)

Inductive HttpReq :=
| RGet (key : bytes) (range : option RangeSpec)
| RPut (key value : bytes) (ttl flags : option Z)
| RDelete (key : bytes)
| RHead (key : bytes)
| RCreate (key : bytes) (n : Z)
| RWrite (key : bytes) (offset : Z) (data : bytes) (total : Z)
| RFinalize (key : bytes) (ttl : option Z)
| RStatus (key : bytes)
| RAbort (key : bytes).

Definition cache_path (key : bytes) : bytes := str "/cache/" ++ key.
Definition sparse_path (key : bytes) : bytes := str "/sparse/" ++ key.

Definition number_header (name : string) (v : option Z) : list (bytes * bytes) :=
  match v with Some n => [(str name, to_string n)] | None => [] end.

(** [Content-Range: bytes first-last/total]. *)
Definition content_range (offset : Z) (data : bytes) (total : Z) : bytes :=
  str "bytes " ++ to_string offset ++ str "-" ++ to_string (offset + size_of data - 1) ++ str "/" ++ to_string total.

Definition context_of (q : HttpReq) : Context_ :=
  match q with
  | RGet key range =>
      mkContext GET (cache_path key) [] (match range with Some r => [(str "Range", print_range r)] | None => [] end) []
  | RPut key value ttl flags =>
      mkContext PUT (cache_path key) [] (number_header "X-ElCache-TTL" ttl ++ number_header "X-ElCache-Flags" flags) value
  | RDelete key => mkContext DELETE_ (cache_path key) [] [] []
  | RHead key => mkContext HEAD (cache_path key) [] [] []
  | RCreate key n => mkContext POST (sparse_path key) [] [(str "X-ElCache-Size", to_string n)] []
  | RWrite key offset data total => mkContext PATCH (sparse_path key) [] [(str "Content-Range", content_range offset data total)] data
  | RFinalize key ttl => mkContext POST (sparse_path key ++ str "/finalize") [] (number_header "X-ElCache-TTL" ttl) []
  | RStatus key => mkContext GET (sparse_path key) [] [] []
  | RAbort key => mkContext DELETE_ (sparse_path key) [] [] []
  end.

Definition route_of (q : HttpReq) : bytes * Route :=
  match q with
  | RGet _ _ => (str "/cache/:key", Through EGet)
  | RPut _ _ _ _ => (str "/cache/:key", Through EPut)
  | RDelete _ => (str "/cache/:key", Through EDelete)
  | RHead _ => (str "/cache/:key", Through EHead)
  | RCreate _ _ => (str "/sparse/:key", Through ESparseCreate)
  | RWrite _ _ _ _ => (str "/sparse/:key", Through ESparseWrite)
  | RFinalize _ _ => (str "/sparse/:key/finalize", Through ESparseFinalize)
  | RStatus _ => (str "/sparse/:key", Through ESparseStatus)
  | RAbort _ => (str "/sparse/:key", SparseAbort)
  end.

Lemma routes_registered q : (cx_method (context_of q), (route_of q).1, (route_of q).2) ∈ build_router.
Proof. destruct q; unfold build_router; cbn [context_of cx_method route_of fst snd]; rewrite !elem_of_cons; tauto. Qed.

(** ** What the service promises: a map of values and the uploads in progress *)

Record HttpSpec := mkHttpSpec { hsp_vals : gmap CacheKey bytes; hsp_uploads : sparse_spec }.

Section spec.
Context `{HH : Hasher} (MT DT : CacheTier) (accepts : CacheKey -> bytes -> bool).

Definition spec_put (m : HttpSpec) (key value : bytes) : HttpSpec :=
  if accepts (CacheKey_make key) value then mkHttpSpec (<[(CacheKey_make key) := value]> (hsp_vals m)) (hsp_uploads m) else m.

Definition upload_step (m : HttpSpec) (op : sparse_op) : HttpSpec := mkHttpSpec (hsp_vals m) (spec_step (hsp_uploads m) op).2.

Definition hspec_step (m : HttpSpec) (q : HttpReq) : HttpSpec :=
  match q with
  | RGet _ _ | RHead _ | RStatus _ => m
  | RPut key value _ _ => if MAX_KEY_SIZE <? size_of key then m else spec_put m key value
  | RDelete key => mkHttpSpec (delete (CacheKey_make key) (hsp_vals m)) (hsp_uploads m)
  | RCreate key n => upload_step m (SCreate key n)
  | RWrite key offset data _ => upload_step m (SWrite key offset data)
  | RFinalize key _ =>
      match hsp_uploads m !! key with
      | Some (n, ws) => if all_written n ws then spec_put (upload_step m (SFinalize key)) key (contents n ws) else m
      | None => m
      end
  | RAbort key => upload_step m (SRemove key)
  end.

Definition key_ok (key : bytes) : Prop := key <> [] /\ (x3f ∉ key) /\ size_of key < 2 ^ 63.

Definition ttl_ok (ttl : option Z) : Prop := match ttl with Some t => 0 <= t < 2 ^ 63 | None => True end.

(** Requests whose numbers fit, with values the tiers' contracts speak of. *)
Definition hreq_ok (m : HttpSpec) (q : HttpReq) : Prop :=
  match q with
  | RGet key range => key_ok key /\ match range with Some r => range_ok r | None => True end
  | RPut key value ttl flags => key_ok key /\ co_value MT DT value /\ ttl_ok ttl /\ match flags with Some f => is_u64 f | None => True end
  | RDelete key | RHead key | RStatus key | RAbort key => key_ok key
  | RCreate key n => key_ok key /\ 0 < n < 2 ^ 64
  | RWrite key offset data _ => key_ok key /\ data <> [] /\ is_u64 offset /\ offset + size_of data < 2 ^ 64
  | RFinalize key ttl =>
      key_ok key /\ ttl_ok ttl /\
      forall n ws, hsp_uploads m !! key = Some (n, ws) -> all_written n ws = true -> co_value MT DT (contents n ws)
  end.

Definition elio_header (r : ElioResponse) (name : string) : option bytes := find_header (str name) (er_headers r).

(** The bytes a GET asks for. *)
Definition get_bytes (range : option RangeSpec) (v : bytes) : bytes :=
  match range with None => v | Some r => range_bytes r v end.

(** The service is lossy: a GET may answer 404 for a key that is stored, and what a response marked partial
    carries is left open. A DELETE answers 204 whether or not the key is stored, see [http_delete_missing]. *)
Definition hanswer (m : HttpSpec) (q : HttpReq) (r : ElioResponse) : Prop :=
  match q with
  | RGet key range =>
      er_status r = 404 \/
      exists v, hsp_vals m !! CacheKey_make key = Some v /\
        (elio_header r "X-ElCache-Hit" = Some (str "hit") /\
           er_status r = (match range with None => 200 | Some _ => 206 end) /\ er_body r = get_bytes range v \/
         elio_header r "X-ElCache-Hit" = Some (str "partial") /\ er_status r = 206)
  | RPut key value _ _ =>
      er_status r = if MAX_KEY_SIZE <? size_of key then 400 else if accepts (CacheKey_make key) value then 201 else 500
  | RDelete key => er_status r = 204
  | RHead key =>
      match hsp_vals m !! CacheKey_make key with
      | Some v => er_status r = 200 /\ elio_header r "Content-Length" = Some (to_string (size_of v))
      | None => er_status r = 404
      end
  | RCreate key n => er_status r = match hsp_uploads m !! key with Some _ => 409 | None => 201 end
  | RWrite key offset data _ =>
      er_status r = match hsp_uploads m !! key with
                    | Some (n, _) => if write_fits n offset data then 202 else 400
                    | None => 404
                    end
  | RFinalize key _ =>
      er_status r = match hsp_uploads m !! key with
                    | Some (n, ws) => if all_written n ws
                                      then if accepts (CacheKey_make key) (contents n ws) then 201 else 500
                                      else 409
                    | None => 404
                    end
  | RStatus key => er_status r = match hsp_uploads m !! key with Some _ => 200 | None => 404 end
  | RAbort key => er_status r = 204
  end.
End spec.

(** ** The handlers keep it *)

Section refine.
Context `{HH : Hasher} (MT DT : CacheTier) (CL : ClusterLink) (cfg : CoordinatorConfig).
Context (link_stats : @link_state CL -> ClusterStats) (collector : option MetricsCollector) (moved_first : bool).
Context (Hacc : forall key v, @tier_accepts MT key v = true -> @tier_accepts DT key v = true).
Context (accepts : CacheKey -> bytes -> bool).

Local Abbreviation State := (HttpState MT DT CL).
Local Abbreviation run := (run_route MT DT CL cfg link_stats collector moved_first).
Local Abbreviation step := (hspec_step accepts).

Record http_rel (s : State) (m : HttpSpec) : Prop := {
  hrel_cache : co_inv MT DT CL (hsp_vals m) (hs_cache _ _ _ s);
  hrel_tiers : is_Some (co_memory _ _ _ (hs_cache _ _ _ s)) \/ is_Some (co_disk _ _ _ (hs_cache _ _ _ s));
  hrel_accepts : forall key v, co_accepts MT DT CL (hs_cache _ _ _ s) key v = accepts key v;
  hrel_sparse : sparse_rel (hs_sparse _ _ _ s) (hsp_uploads m)
}.

Definition refines_at (now clock : Z) (s : State) (m : HttpSpec) (q : HttpReq) : Prop :=
  exists r s', run (route_of q).2 now clock s (context_of q) = Done (r, s') /\ hanswer accepts m q r /\ http_rel s' (step m q).

Lemma http_rel_cache s m co vals :
  http_rel s m -> co_inv MT DT CL vals co -> same_tiers MT DT CL (hs_cache _ _ _ s) co ->
  http_rel (with_cache _ _ _ s co) (mkHttpSpec vals (hsp_uploads m)).
Proof.
  intros [Hc Ht Ha Hs] Hco [Hm Hd]. split; cbn [hs_cache with_cache hs_sparse hsp_vals hsp_uploads]; [done| | |done].
  - destruct Ht as [H|H]; [left; by apply Hm|right; by apply Hd].
  - intros key v. rewrite <- Ha. by apply co_accepts_same.
Qed.

(** The path of a request without a query. *)
Lemma plain_path pre key : x3f ∉ pre -> key_ok key -> x3f ∉ pre ++ key.
Proof. intros H (_ & Hk & _). rewrite elem_of_app. tauto. Qed.

Lemma no_query p : bool_decide (x3f ∈ str p) = false -> x3f ∉ str p.
Proof. apply bool_decide_eq_false. Qed.

Lemma cache_key key : substr (cache_path key) 7 = Done key.
Proof. exact (substr_app (str "/cache/") key). Qed.

Lemma sparse_key key : substr (sparse_path key) 8 = Done key.
Proof. exact (substr_app (str "/sparse/") key). Qed.

(** The request an adapter sees. *)
Ltac adapt Hk :=
  unfold refines_at; cbn [route_of snd run_route context_of];
  rewrite from_context_plain by (cbn [cx_path]; rewrite <- ?app_assoc; repeat (apply plain_path; [by apply no_query; vm_compute|]); done);
  cbn [mbind outcome_bind cx_method cx_path cx_query cx_headers cx_body endpoint_handler].

Lemma refines_delete now clock s m key : http_rel s m -> key_ok key -> refines_at now clock s m (RDelete key).
Proof.
  intros Hrel Hk. adapt Hk. unfold handle_delete. cbn [hq_path]. rewrite cache_key. cbn [mbind outcome_bind].
  rewrite bool_decide_false by apply Hk.
  destruct (co_remove_spec MT DT CL (hsp_vals m) (hs_cache _ _ _ s) (CacheKey_make key) DeleteOptions_default (hrel_cache _ _ Hrel))
    as (co & -> & Hinv & Hsame); [done..|].
  cbn [mbind outcome_bind]. eexists _, _. split; [reflexivity|]. split; [done|]. by eapply http_rel_cache.
Qed.

Lemma refines_head now clock s m key : http_rel s m -> key_ok key -> refines_at now clock s m (RHead key).
Proof.
  intros Hrel Hk. adapt Hk. unfold handle_head. cbn [hq_path]. rewrite cache_key. cbn [mbind outcome_bind].
  rewrite bool_decide_false by apply Hk. cbn [hspec_step hanswer].
  pose proof (co_metadata_spec MT DT CL _ _ (CacheKey_make key) (hrel_cache _ _ Hrel) (hrel_tiers _ _ Hrel)) as Hmd.
  destruct (hsp_vals m !! CacheKey_make key) as [v|].
  - destruct Hmd as (md & -> & <- & _). cbn [mbind outcome_bind]. eexists _, _. split; [reflexivity|]. split; [|done]. split; reflexivity.
  - rewrite Hmd. cbn [mbind outcome_bind]. eexists _, _. split; [reflexivity|]. split; [reflexivity|done].
Qed.

Definition number_text (v : option Z) : bytes := match v with Some n => to_string n | None => [] end.

(** What the handlers find in the headers of these requests. *)
Lemma put_headers ttl flags method path body :
  let req := mkRequest method path [] (copy_headers (number_header "X-ElCache-TTL" ttl ++ number_header "X-ElCache-Flags" flags)) body in
  header req (str "X-ElCache-TTL") = number_text ttl /\ header req (str "X-ElCache-Flags") = number_text flags /\
  header req (str "X-ElCache-No-Memory") = [] /\ header req (str "X-ElCache-No-Disk") = [] /\
  header req (str "X-ElCache-No-Cluster") = [].
Proof. destruct ttl, flags; split_and!; reflexivity. Qed.

Lemma ttl_of_number req ttl : header req (str "X-ElCache-TTL") = number_text ttl -> ttl_ok ttl -> ttl_of req = Done ttl.
Proof.
  intros Hh Ht. unfold ttl_of. rewrite Hh. destruct ttl as [t|]; [|done]. cbn [number_text ttl_ok] in *.
  rewrite bool_decide_false by apply to_string_nonempty. unfold stoll. rewrite sto_signed_to_string by (unfold is_u64; lia). done.
Qed.

Lemma put_options_of ttl flags method path body : ttl_ok ttl -> match flags with Some f => is_u64 f | None => True end ->
  exists f, put_options (mkRequest method path [] (copy_headers (number_header "X-ElCache-TTL" ttl ++ number_header "X-ElCache-Flags" flags)) body)
    = Done (mkWriteOptions ttl f false false false true).
Proof.
  intros Ht Hf. destruct (put_headers ttl flags method path body) as (H1 & H2 & H3 & H4 & H5). cbn beta zeta in *.
  unfold put_options. rewrite (ttl_of_number _ ttl H1 Ht), H2, H3, H4, H5. cbn [mbind outcome_bind].
  rewrite bool_decide_false by done. destruct flags as [f|]; cbn [number_text].
  - rewrite bool_decide_false by apply to_string_nonempty. rewrite stoull_to_string by done. cbn [mbind outcome_bind]. by eexists.
  - by eexists.
Qed.

Lemma refines_put now clock s m key value ttl flags :
  http_rel s m -> hreq_ok MT DT m (RPut key value ttl flags) -> refines_at now clock s m (RPut key value ttl flags).
Proof.
  intros Hrel (Hk & Hv & Ht & Hf). adapt Hk. unfold handle_put. cbn [hq_path hq_body]. rewrite cache_key. cbn [mbind outcome_bind].
  rewrite bool_decide_false by apply Hk. cbn [hspec_step hanswer]. destruct (MAX_KEY_SIZE <? size_of key).
  { cbn [mbind outcome_bind]. eexists _, _. split; [reflexivity|]. done. }
  destruct (put_options_of ttl flags (method_name PUT) (cache_path key) value Ht Hf) as [f ->]. cbn [mbind outcome_bind].
  destruct (co_put_spec MT DT CL Hacc (hsp_vals m) now (hs_cache _ _ _ s) (CacheKey_make key) value
    (mkWriteOptions ttl f false false false true) (hrel_cache _ _ Hrel) Hv) as (st & co & -> & Hst & Hinv & Hsame); [done..|].
  rewrite (hrel_accepts _ _ Hrel) in Hst, Hinv. cbn [mbind outcome_bind]. eexists _, _. split; [reflexivity|].
  unfold spec_put. rewrite Hst. destruct (accepts (CacheKey_make key) value).
  - split; [done|]. by eapply http_rel_cache.
  - split; [done|]. pose proof (http_rel_cache s m co (hsp_vals m) Hrel Hinv Hsame) as H. by destruct m.
Qed.

Lemma settles_kind opts r : settles opts r = true -> rr_result r = Hit \/ rr_result r = PartialHit \/ rr_result r = Miss.
Proof.
  unfold settles, rr_is_hit, rr_is_partial. intros [H|H]%orb_true_iff; bool_hyps; [by left|by right; left].
Qed.

Lemma get_memory_settles now co key opts r co' :
  get_memory MT DT CL cfg now co key opts = Done (Some r, co') -> settles opts r = true.
Proof.
  unfold get_memory. destruct (co_memory _ _ _ co); [|done]. destruct (cc_prefer_local cfg); [|done].
  intros ([r' m'] & _ & E)%outcome_bind_Done. destruct (settles opts r') eqn:Es; [by injection E as <- _|done].
Qed.

Lemma get_disk_settles now co key opts r co' :
  get_disk MT DT CL now co key opts = Done (Some r, co') -> settles opts r = true.
Proof.
  unfold get_disk. destruct (co_disk _ _ _ co); [|done].
  intros ([r' m'] & _ & E)%outcome_bind_Done. destruct (settles opts r') eqn:Es; [by injection E as <- _|done].
Qed.

(** A read settles on a hit, a partial hit or the default miss. *)
Lemma co_get_kinds now co key opts r co' :
  co_get MT DT CL cfg now co key opts = Done (r, co') -> rr_result r = Hit \/ rr_result r = PartialHit \/ rr_result r = Miss.
Proof.
  unfold co_get. intros ([r1 co1] & E1 & E)%outcome_bind_Done. destruct r1 as [r1|].
  { injection E as <- _. by eapply settles_kind, get_memory_settles. }
  apply outcome_bind_Done in E as ([r2 co2] & E2 & E). destruct r2 as [r2|].
  { injection E as <- _. by eapply settles_kind, get_disk_settles. }
  destruct (_ && _); [|injection E as <- _; by right; right].
  apply outcome_bind_Done in E as ([r3 co3] & _ & E).
  destruct (settles opts r3) eqn:Es; injection E as <- _; [by eapply settles_kind|by right; right].
Qed.

Lemma get_response_shape result range :
  let r := to_elio_response (get_response_of moved_first result range) in
  elio_header r "X-ElCache-Hit" = Some (hit_source (rr_result result)) /\ er_body r = rr_data result /\
  er_status r = if rr_is_partial result || bool_decide (is_Some range) then 206 else 200.
Proof.
  unfold get_response_of. destruct (rr_is_partial result || bool_decide (is_Some range)), (rr_metadata result); split_and!; reflexivity.
Qed.

(** The range a GET passes to the cache. *)
Lemma read_range_of s m key range method path :
  http_rel s m -> match range with Some r => range_ok r | None => True end ->
  let req := mkRequest method path [] (copy_headers (match range with Some r => [(str "Range", print_range r)] | None => [] end)) [] in
  read_range MT DT CL s key req =
  Done (r ← range; (fun v => parsed_range r (size_of v)) <$> (hsp_vals m !! CacheKey_make key)).
Proof.
  intros Hrel Hr req. unfold read_range, has_range_header.
  assert (header req (str "Range") = match range with Some r => print_range r | None => [] end) as Hh by (by destruct range).
  rewrite Hh. destruct range as [r|]; [|by rewrite bool_decide_true]. rewrite bool_decide_false by (by destruct r). cbn [negb].
  pose proof (co_metadata_spec MT DT CL _ _ (CacheKey_make key) (hrel_cache _ _ Hrel) (hrel_tiers _ _ Hrel)) as Hmd.
  cbn [mbind option_bind]. destruct (hsp_vals m !! CacheKey_make key) as [v|]; [|by rewrite Hmd].
  destruct Hmd as (md & -> & -> & Hmax). pose proof MAX_VALUE_SIZE_small. pose proof CHUNK_SIZE_pos. pose proof (size_of_nonneg v).
  rewrite (parse_range_header_spec req r (size_of v) Hh Hr) by (unfold is_u64; lia). done.
Qed.

Lemma http_get_answer m key range result md :
  rr_result result = Hit \/ rr_result result = PartialHit ->
  (match range with Some r => range_ok r | None => True end) ->
  hsp_vals m !! CacheKey_make key = Some md -> size_of md < 2 ^ 64 ->
  let parsed := r ← range; Some (parsed_range r (size_of md)) in
  (rr_result result = Hit -> rr_data result = match parsed with None => md | Some p => slice (r_offset p) (r_length p) md end) ->
  hanswer accepts m (RGet key range) (to_elio_response (get_response_of moved_first result parsed)).
Proof.
  intros Hkind Hr Hv Hsize parsed Hdata. cbn [hanswer]. right. exists md. split; [done|].
  destruct (get_response_shape result parsed) as (-> & -> & ->). unfold rr_is_partial. destruct Hkind as [Hk|Hk]; rewrite Hk.
  - left. split; [done|]. rewrite (Hdata Hk). rewrite bool_decide_false by done. subst parsed. destruct range as [r|]; [|done].
    cbn [mbind option_bind orb]. rewrite bool_decide_true by done. split; [done|]. by rewrite parsed_range_bytes.
  - right. by rewrite bool_decide_true.
Qed.

Lemma refines_get now clock s m key range :
  http_rel s m -> hreq_ok MT DT m (RGet key range) -> refines_at now clock s m (RGet key range).
Proof.
  intros Hrel [Hk Hr]. adapt Hk. unfold handle_get. cbn [hq_path hq_query]. rewrite cache_key. cbn [mbind outcome_bind].
  rewrite bool_decide_false by apply Hk. rewrite (read_range_of s m) by done. cbn [mbind outcome_bind].
  change (query_range []) with (@Done (option Range) None). cbn [mbind outcome_bind].
  set (parsed := r ← range; _). set (opts := mkReadOptions _ _ _ parsed _).
  pose proof (co_metadata_spec MT DT CL _ _ (CacheKey_make key) (hrel_cache _ _ Hrel) (hrel_tiers _ _ Hrel)) as Hmd.
  pose proof MAX_VALUE_SIZE_small. pose proof CHUNK_SIZE_pos.
  assert (opts_ok opts) as Hopts.
  { unfold opts_ok. cbn [ro_range opts]. subst parsed. destruct range as [r|]; [|done]. cbn [mbind option_bind].
    destruct (hsp_vals m !! CacheKey_make key) as [v|]; [|done]. destruct Hmd as (md & _ & _ & Hmax). pose proof (size_of_nonneg v).
    cbn [fmap option_fmap option_map]. apply parsed_range_u64; [done|unfold is_u64; lia]. }
  destruct (co_get_spec MT DT CL cfg _ now (hs_cache _ _ _ s) (CacheKey_make key) opts (hrel_cache _ _ Hrel) Hopts)
    as (result & co & E & Hinv & Hsame & Hhit & Hmiss).
  pose proof (co_get_kinds _ _ _ _ _ _ E) as Hkind. rewrite E. cbn [mbind outcome_bind hspec_step].
  assert (http_rel (with_cache MT DT CL s co) m) as Hrel'.
  { pose proof (http_rel_cache s m co _ Hrel Hinv Hsame) as H'. by destruct m. }
  destruct (rr_is_miss result) eqn:Em.
  { eexists _, _. split; [reflexivity|]. split; [by left|done]. }
  eexists _, _. split; [reflexivity|]. split; [|done]. unfold rr_is_miss in Em. bool_hyps.
  destruct (hsp_vals m !! CacheKey_make key) as [v|] eqn:Ev; [|by rewrite (Hmiss eq_refl) in Em].
  destruct Hmd as (md & _ & _ & Hmax). pose proof (http_get_answer m key range result v) as Hans. cbn zeta in Hans.
  apply Hans; [tauto|done|done|lia|]. intros Hh. destruct (Hhit Hh) as (v' & [= <-] & ->). unfold wanted, opts. cbn [ro_range]. by subst parsed.
Qed.

Lemma http_rel_op s m op :
  http_rel s m -> sparse_op_ok op ->
  exists sp, sparse_step (hs_sparse _ _ _ s) op = Done ((spec_step (hsp_uploads m) op).1, sp) /\
    http_rel (with_sparse _ _ _ s sp) (upload_step m op).
Proof.
  intros [Hc Ht Ha Hs] Hok. destruct (sparse_step_refines _ _ op Hs Hok) as (sp & E & Hrel). exists sp. split; [done|]. by split.
Qed.

(** An upload exists in the cache exactly when the specification has it. *)
Lemma sparse_exists_rel c u key : sparse_rel c u -> sparse_exists c key = bool_decide (is_Some (u !! key)).
Proof. intros H. specialize (H key). unfold sparse_exists. by destruct (c !! key), (u !! key) as [[? ?]|]. Qed.

Lemma refines_create now clock s m key n :
  http_rel s m -> hreq_ok MT DT m (RCreate key n) -> refines_at now clock s m (RCreate key n).
Proof.
  intros Hrel [Hk Hn]. adapt Hk. unfold handle_sparse_create. cbn [hq_path]. rewrite sparse_key. cbn [mbind outcome_bind].
  rewrite bool_decide_false by apply Hk.
  assert (forall method path, header (mkRequest method path [] (copy_headers [(str "X-ElCache-Size", to_string n)]) [])
    (str "X-ElCache-Size") = to_string n) as -> by reflexivity.
  rewrite bool_decide_false by apply to_string_nonempty. rewrite stoull_to_string by (unfold is_u64; lia). cbn [try_catch].
  destruct (Z.eqb_spec n 0); [lia|].
  destruct (http_rel_op s m (SCreate key n) Hrel) as (sp & E & Hrel'); [cbn; lia|]. cbn [sparse_step] in E.
  destruct (sparse_create (hs_sparse _ _ _ s) key n) as [created sp']. injection E as E ->.
  cbn [hspec_step hanswer]. cbn [spec_step] in E.
  destruct (hsp_uploads m !! key) as [[n' ws]|] eqn:Eu; injection E as ->; cbn [mbind outcome_bind]; (eexists _, _; split; [reflexivity|]; split; [reflexivity|done]).
Qed.

Lemma write_offset_of method path offset data total : is_u64 offset ->
  write_offset (mkRequest method path [] (copy_headers [(str "Content-Range", content_range offset data total)]) data) = Done (inr offset).
Proof.
  intros Ho. unfold write_offset.
  assert (header (mkRequest method path [] (copy_headers [(str "Content-Range", content_range offset data total)]) data) (str "Content-Range")
    = content_range offset data total) as -> by reflexivity.
  unfold content_range. rewrite bool_decide_false by done. cbn [negb].
  assert (forall rest, find (str "bytes ") (str "bytes " ++ rest) = Some 0) as -> by reflexivity.
  assert (forall rest, substr (str "bytes " ++ rest) (0 + 6) = Done rest) as -> by exact (substr_app (str "bytes ")).
  cbn [mbind outcome_bind]. set (rest := to_string (offset + _ - 1) ++ _). change (str "-" ++ rest) with (x2d :: rest).
  rewrite (find_after_number x2d) by apply dash_not_digit. rewrite substr_n_app. cbn [mbind outcome_bind].
  rewrite stoull_to_string by done. done.
Qed.

Lemma refines_write now clock s m key offset data total :
  http_rel s m -> hreq_ok MT DT m (RWrite key offset data total) -> refines_at now clock s m (RWrite key offset data total).
Proof.
  intros Hrel (Hk & Hd & Ho & Hov). adapt Hk. unfold handle_sparse_write. cbn [hq_path hq_body]. rewrite sparse_key. cbn [mbind outcome_bind].
  rewrite bool_decide_false by apply Hk. rewrite write_offset_of by done. cbn [mbind outcome_bind]. rewrite bool_decide_false by done.
  destruct (http_rel_op s m (SWrite key offset data) Hrel) as (sp & E & Hrel'); [split; [apply Ho|done]|]. cbn [sparse_step] in E.
  apply outcome_bind_Done in E as ([ok sp'] & -> & E). injection E as E ->. cbn [mbind outcome_bind hspec_step hanswer].
  pose proof (sparse_exists_rel _ _ key (hrel_sparse _ _ Hrel')) as Hex. cbn [with_sparse hs_sparse upload_step hsp_uploads] in Hex.
  rewrite Hex. cbn [spec_step] in *. destruct (hsp_uploads m !! key) as [[n ws]|] eqn:Eu.
  - destruct (write_fits n offset data); cbn [fst snd] in *; injection E as ->.
    + eexists _, _. split; [reflexivity|]. split; [reflexivity|done].
    + rewrite Eu, bool_decide_true by done. cbn [negb]. eexists _, _. split; [reflexivity|]. split; [reflexivity|done].
  - cbn [fst snd] in *. injection E as ->. rewrite Eu, bool_decide_false by by intros [? ?]. cbn [negb].
    eexists _, _. split; [reflexivity|]. split; [reflexivity|done].
Qed.

Lemma refines_status now clock s m key : http_rel s m -> key_ok key -> refines_at now clock s m (RStatus key).
Proof.
  intros Hrel Hk. adapt Hk. unfold handle_sparse_status. cbn [hq_path]. rewrite sparse_key. cbn [mbind outcome_bind].
  rewrite bool_decide_false by apply Hk. rewrite (sparse_exists_rel _ _ key (hrel_sparse _ _ Hrel)). cbn [hspec_step hanswer].
  destruct (hsp_uploads m !! key) as [[n ws]|].
  - rewrite bool_decide_true by done. cbn [negb mbind outcome_bind]. eexists _, _. split; [reflexivity|]. split; [reflexivity|done].
  - rewrite bool_decide_false by by intros [? ?]. cbn [negb mbind outcome_bind]. eexists _, _. split; [reflexivity|]. split; [reflexivity|done].
Qed.

Lemma refines_abort now clock s m key : http_rel s m -> key_ok key -> refines_at now clock s m (RAbort key).
Proof.
  intros Hrel Hk. unfold refines_at. cbn [route_of snd run_route context_of]. unfold sparse_abort. cbn [cx_path]. rewrite sparse_key.
  cbn [mbind outcome_bind]. destruct (http_rel_op s m (SRemove key) Hrel I) as (sp & E & Hrel'). cbn [sparse_step] in E.
  destruct (sparse_remove (hs_sparse _ _ _ s) key) as [b sp']. injection E as _ ->. eexists _, _. split; [reflexivity|]. split; [reflexivity|done].
Qed.

Lemma finalize_header method path ttl body :
  header (mkRequest method path [] (copy_headers (number_header "X-ElCache-TTL" ttl)) body) (str "X-ElCache-TTL") = number_text ttl.
Proof. by destruct ttl. Qed.

Lemma refines_finalize now clock s m key ttl :
  http_rel s m -> hreq_ok MT DT m (RFinalize key ttl) -> refines_at now clock s m (RFinalize key ttl).
Proof.
  intros Hrel (Hk & Ht & Hv). pose proof Hk as (Hne & Hq & Hsz). unfold refines_at. cbn [route_of snd run_route context_of].
  rewrite from_context_plain.
  2: { cbn [cx_path]. rewrite elem_of_app. intros [H|H]; [by apply (plain_path (str "/sparse/") key) in H; [|apply no_query|]|].
       revert H. by apply no_query. }
  cbn [mbind outcome_bind cx_method cx_path cx_query cx_headers cx_body endpoint_handler]. unfold handle_sparse_finalize, sparse_path. cbn [hq_path].
  rewrite <- app_assoc. destruct (finalize_path key Hne) as [-> Hsub]. rewrite Hsub by done. cbn [mbind outcome_bind].
  rewrite bool_decide_false by done.
  destruct (http_rel_op s m (SFinalize key) Hrel I) as (sp & E & Hrel'). cbn [sparse_step] in E.
  destruct (sparse_finalize (hs_sparse _ _ _ s) key) as [[code data] sp']. injection E as E ->. cbn [hspec_step hanswer].
  unfold upload_step in *. cbn [spec_step] in *. destruct (hsp_uploads m !! key) as [[n ws]|] eqn:Eu; cbn [fst snd] in *.
  2: { injection E as -> ->. eexists _, _. split; [reflexivity|]. split; [reflexivity|]. by destruct m. }
  destruct (all_written n ws) eqn:Ea; cbn [fst snd] in *; injection E as -> ->.
  2: { eexists _, _. split; [reflexivity|]. split; [reflexivity|]. by destruct m. }
  cbn [Z.eqb]. rewrite (ttl_of_number _ ttl) by (apply finalize_header || done). cbn [mbind outcome_bind].
  set (s1 := with_sparse _ _ _ s sp) in *. destruct (co_put_spec MT DT CL Hacc _ now (hs_cache _ _ _ s1) (CacheKey_make key) (contents n ws)
    (mkWriteOptions ttl 0 false false false true) (hrel_cache _ _ Hrel') (Hv n ws eq_refl Ea)) as (st & co & -> & Hst & Hinv & Hsame); [done..|].
  rewrite (hrel_accepts _ _ Hrel') in Hst, Hinv. cbn [mbind outcome_bind]. rewrite Hst. unfold spec_put. cbn [hsp_vals hsp_uploads] in *.
  destruct (accepts (CacheKey_make key) (contents n ws)); (eexists _, _; split; [reflexivity|]; split; [reflexivity|]).
  - by apply (http_rel_cache s1 _ co _ Hrel' Hinv Hsame).
  - by apply (http_rel_cache s1 _ co _ Hrel' Hinv Hsame).
Qed.

Lemma http_step_refines now clock s m q : http_rel s m -> hreq_ok MT DT m q -> refines_at now clock s m q.
Proof.
  intros Hrel Hok. destruct q.
  - by apply refines_get.
  - by apply refines_put.
  - by apply refines_delete.
  - by apply refines_head.
  - by apply refines_create.
  - by apply refines_write.
  - by apply refines_finalize.
  - by apply refines_status.
  - by apply refines_abort.
Qed.

(** A sequence of requests, each with the clock readings of its time. *)
Fixpoint http_run (s : State) (reqs : list (Z * Z * HttpReq)) : outcome (list ElioResponse * State) :=
  match reqs with
  | [] => Done ([], s)
  | (now, clock, q) :: rest =>
      '(r, s1) ← run (route_of q).2 now clock s (context_of q);
      '(rs, s2) ← http_run s1 rest;
      Done (r :: rs, s2)
  end.

Fixpoint hreqs_ok (m : HttpSpec) (reqs : list (Z * Z * HttpReq)) : Prop :=
  match reqs with [] => True | (_, _, q) :: rest => hreq_ok MT DT m q /\ hreqs_ok (step m q) rest end.

Fixpoint hanswers (m : HttpSpec) (reqs : list (Z * Z * HttpReq)) (rs : list ElioResponse) : Prop :=
  match reqs, rs with
  | [], [] => True
  | (_, _, q) :: reqs', r :: rs' => hanswer accepts m q r /\ hanswers (step m q) reqs' rs'
  | _, _ => False
  end.

Lemma http_run_refines reqs : forall s m, http_rel s m -> hreqs_ok m reqs ->
  exists rs s', http_run s reqs = Done (rs, s') /\ hanswers m reqs rs /\
    http_rel s' (foldl (fun m x => step m x.2) m reqs).
Proof.
  induction reqs as [|[[now clock] q] reqs IH]; intros s m Hrel Hok; [by exists [], s|]. destruct Hok as [Hq Hok].
  destruct (http_step_refines now clock s m q Hrel Hq) as (r & s1 & E & Ha & Hrel1). cbn [http_run]. rewrite E. cbn [mbind outcome_bind].
  destruct (IH s1 _ Hrel1 Hok) as (rs & s2 & -> & Has & Hrel2). cbn [mbind outcome_bind]. by exists (r :: rs), s2.
Qed.
End refine.

(** ** Uploads in parts *)







Section upload.
Context `{HH : Hasher} (MT DT : CacheTier) (accepts : CacheKey -> bytes -> bool) (key : bytes) (n : Z).

Local Abbreviation writes ws := ((fun w => RWrite key w.1 w.2 n) <$> ws).


End upload.

(** DELETE of a key that is not stored answers 204: the coordinator reports success for any key, and the 404 of
    the handler is never reached. *)
Lemma http_delete_missing `{HH : Hasher} MT DT CL cfg ls col mf accepts now clock s m key :
  (forall key v, @tier_accepts MT key v = true -> @tier_accepts DT key v = true) ->
  http_rel MT DT CL accepts s m -> key_ok key -> hsp_vals m !! CacheKey_make key = None ->
  exists r s', http_run MT DT CL cfg ls col mf s [(now, clock, RDelete key)] = Done ([r], s') /\ er_status r = 204.
Proof.
  intros Hacc Hrel Hk _. destruct (http_run_refines MT DT CL cfg ls col mf Hacc accepts [(now, clock, RDelete key)] s m Hrel)
    as (rs & s' & E & Ha & _); [by split|]. destruct rs as [|r [|]]; [done| |by destruct Ha]. exists r, s'. by destruct Ha.
Qed.

(** C2: the HTTP service refines its specification, a lossy map of values and the uploads in progress. For
    every sequence of GET (whole or a range), PUT, DELETE and HEAD on /cache and of the five operations on
    /sparse, with keys and numbers that fit, started from a state without a cluster that stands for the
    specification, every request is answered. A GET of a key that is not stored is a 404; for a stored key
    it may be a 404 too, or a hit with exactly the bytes asked for of the value last stored, or a 206 marked
    partial, of which nothing more is said; a DELETE is a 204 in any case; HEAD tells whether the key is stored
    and its size; a PUT, an upload and its parts are accepted exactly when the specification says so; a finished
    upload becomes the value of its key. *)
Theorem http_refines `{HH : Hasher} MT DT CL cfg ls col mf accepts reqs s m :
  (forall key v, @tier_accepts MT key v = true -> @tier_accepts DT key v = true) ->
  http_rel MT DT CL accepts s m -> hreqs_ok MT DT accepts m reqs ->
  exists rs s', http_run MT DT CL cfg ls col mf s reqs = Done (rs, s') /\ hanswers accepts m reqs rs /\
    http_rel MT DT CL accepts s' (foldl (fun m x => hspec_step accepts m x.2) m reqs).
Proof. intros Hacc. by apply http_run_refines. Qed.


(** The finalization of a complete upload that the cache refuses (a key above the limit, which only a PUT
    checks beforehand) answers 500, and the uploaded data is lost: the entry is already removed. *)
Theorem http_finalize_loses_upload `{HH : Hasher} MT DT CL cfg ls col mf accepts now clock s m key n ws :
  (forall key v, @tier_accepts MT key v = true -> @tier_accepts DT key v = true) ->
  http_rel MT DT CL accepts s m -> key_ok key -> hsp_uploads m !! key = Some (n, ws) -> all_written n ws = true ->
  co_value MT DT (contents n ws) -> accepts (CacheKey_make key) (contents n ws) = false ->
  exists r s', run_route MT DT CL cfg ls col mf (Through ESparseFinalize) now clock s (context_of (RFinalize key None)) = Done (r, s') /\
    er_status r = 500 /\ hs_sparse _ _ _ s' !! key = None /\ http_rel MT DT CL accepts s' (mkHttpSpec (hsp_vals m) (delete key (hsp_uploads m))).
Proof.
  intros Hacc Hrel Hk Hu Hall Hv Hno.
  destruct (http_step_refines MT DT CL cfg ls col mf Hacc accepts now clock s m (RFinalize key None) Hrel) as (r & s' & E & Hr & Hrel').
  { cbn [hreq_ok]. split_and!; [done|done|]. intros n' ws' Hu' _. rewrite Hu in Hu'. by injection Hu' as <- <-. }
  exists r, s'. split; [exact E|]. cbn [hanswer hspec_step] in *. unfold upload_step, spec_put in Hrel'. cbn [spec_step] in Hrel'.
  rewrite Hu, Hall, Hno in *. cbn [snd] in Hrel'. split_and!; [done| |done].
  pose proof (hrel_sparse _ _ _ _ _ _ Hrel' key) as Hs. cbn [hsp_uploads] in Hs. rewrite lookup_delete_eq in Hs.
  by destruct (hs_sparse _ _ _ s' !! key).
Qed.

(** ** Samples *)

Definition sample_http : HttpState mem dsk link := mkHttp mem dsk link co_sample ∅ (Metrics_make 0).
Definition sample_accepts : CacheKey -> bytes -> bool := co_accepts mem dsk link co_sample.
Definition no_stats (c : @link_state link) : ClusterStats := mkClusterStats 0 0 0 0 0 0.

Lemma sample_http_rel : http_rel mem dsk link sample_accepts sample_http (mkHttpSpec ∅ ∅).
Proof. split; [exact co_sample_inv|left; by eexists|done|]. intros key. cbn. by rewrite !lookup_empty. Qed.

Lemma sample_key_ok k : bool_decide (str k <> []) = true -> bool_decide (x3f ∈ str k) = false -> size_of (str k) < 2 ^ 63 -> key_ok (str k).
Proof. intros H1 H2 H3. bool_hyps. done. Qed.

Lemma hello_value : co_value mem dsk (str "hello").
Proof. split; [exact hello_pieces|]. split; [exact hello_pieces|]. apply Z.leb_le. reflexivity. Qed.

Lemma http_refines_witness :
  exists rs s', http_run (HH := fnv_hasher) mem dsk link co_cfg no_stats None true sample_http
      [(1, 1, RPut (str "a") (str "hello") None None); (2, 2, RGet (str "a") (Some (From 1))); (3, 3, RDelete (str "a"));
       (4, 4, RHead (str "a"))] = Done (rs, s') /\
    hanswers (HH := fnv_hasher) sample_accepts (mkHttpSpec ∅ ∅)
      [(1, 1, RPut (str "a") (str "hello") None None); (2, 2, RGet (str "a") (Some (From 1))); (3, 3, RDelete (str "a"));
       (4, 4, RHead (str "a"))] rs.
Proof.
  destruct (http_refines (HH := fnv_hasher) mem dsk link co_cfg no_stats None true sample_accepts
    [(1, 1, RPut (str "a") (str "hello") None None); (2, 2, RGet (str "a") (Some (From 1))); (3, 3, RDelete (str "a"));
     (4, 4, RHead (str "a"))] sample_http (mkHttpSpec ∅ ∅) mem_dsk_accepts sample_http_rel) as (rs & s' & E & Ha & _).
  - assert (key_ok (str "a")) as Hk by (by apply sample_key_ok). cbn [hreqs_ok hreq_ok ttl_ok range_ok].
    split_and!; try done. exact hello_value.
  - exists rs, s'. split; [exact E|exact Ha].
Defined.




Definition long_key : bytes := replicate (Z.to_nat 9000) x61.

Lemma http_finalize_loses_upload_witness :
  exists e r s', run_route (HH := fnv_hasher) mem dsk link co_cfg no_stats None true (Through ESparseFinalize) 0 0
      (mkHttp mem dsk link co_sample {[long_key := e]} (Metrics_make 0)) (context_of (RFinalize long_key None)) = Done (r, s') /\
    er_status r = 500 /\ hs_sparse _ _ _ s' !! long_key = None.
Proof.
  destruct (represents_write (SparseEntry_make 5) 5 [] 0 (str "hello")) as (e & _ & He); [by apply represents_make|done|done|].
  destruct (http_finalize_loses_upload (HH := fnv_hasher) mem dsk link co_cfg no_stats None true sample_accepts 0 0
    (mkHttp mem dsk link co_sample {[long_key := e]} (Metrics_make 0)) (mkHttpSpec ∅ {[long_key := (5, [(0, str "hello")])]})
    long_key 5 [(0, str "hello")] mem_dsk_accepts) as (r & s' & E & Hr & Hs & _).
  - split; [exact co_sample_inv|left; by eexists|reflexivity|]. intros key. cbn [hs_sparse hsp_uploads].
    destruct (decide (key = long_key)) as [->|Hne]; [by rewrite !lookup_singleton_eq|by rewrite !lookup_singleton_ne].
  - split; [discriminate|]. split; [|reflexivity]. intros H. unfold long_key in H. by apply elem_of_replicate_inv in H.
  - cbn [hsp_uploads]. apply lookup_singleton_eq.
  - reflexivity.
  - exact hello_value.
  - reflexivity.
  - exists e, r, s'. split; [exact E|]. split; [exact Hr|exact Hs].
Defined.
