(* ===== verification/Config.v ===== *)
(** * Configuration: [include/elcache/config.hpp], [src/core/config.cpp]

    The configuration records with their defaults, the JSON reader [SimpleJson] (a search for quoted
    names in the text), [load_json], [to_json] and [validate]. Durations are their counts, in the unit of
    the field. [load] and [save] read and write the text of a file, given here as the text. *)

From S2P Require Import Prelude CStd CText CDouble CFormat Types.
From Stdlib Require Import Strings.Byte SpecFloat.
Open Scope Z_scope.

Record MemoryCacheConfig := mkMemoryConfig {
  mem_max_size : Z; mem_arc_ghost_size : Z; mem_high_watermark : double; mem_low_watermark : double
}.

Record DiskCacheConfig := mkDiskConfig {
  disk_path : bytes; disk_max_size : Z; disk_block_size : Z; disk_use_direct_io : bool; disk_use_fallocate : bool;
  disk_write_buffer_size : Z; disk_high_watermark : double; disk_low_watermark : double
}.

Record NetworkConfig := mkNetworkConfig {
  net_bind_address : bytes; net_cluster_port : Z; net_http_port : Z; net_sdk_port : Z; net_unix_socket_path : bytes;
  net_shm_path : bytes; net_shm_size : Z; net_max_connections : Z; net_connect_timeout : Z; net_read_timeout : Z;
  net_write_timeout : Z; net_recv_buffer_size : Z; net_send_buffer_size : Z
}.

Record ClusterConfig := mkClusterSection {
  clu_cluster_name : bytes; clu_seed_nodes : list bytes; clu_gossip_interval : Z; clu_failure_detection_timeout : Z;
  clu_gossip_fanout : Z; clu_replication_factor : Z; clu_prefer_local : bool; clu_virtual_nodes : Z
}.

Record PoolConfig := mkPoolConfig {
  pool_memory_contribution : Z; pool_disk_contribution : Z; pool_accept_remote_reads : bool; pool_accept_remote_writes : bool
}.

Record PerformanceConfig := mkPerfConfig {
  perf_io_threads : Z; perf_worker_threads : Z; perf_max_concurrent_disk_ops : Z; perf_max_concurrent_network_ops : Z;
  perf_prefetch_chunks : Z; perf_enable_metrics : bool; perf_metrics_interval : Z
}.

Record Config := mkConfig {
  cf_node_name : bytes; cf_memory : MemoryCacheConfig; cf_disk : DiskCacheConfig; cf_network : NetworkConfig;
  cf_cluster : ClusterConfig; cf_pool : PoolConfig; cf_perf : PerformanceConfig
}.

(** A decimal literal with two digits after the point. *)
Definition percent (n : Z) : double := double_of_ratio false n 100.

Definition MemoryCacheConfig_default : MemoryCacheConfig := mkMemoryConfig (1024 * 1024 * 1024) 0 (percent 95) (percent 85).

Definition DiskCacheConfig_default : DiskCacheConfig :=
  mkDiskConfig (str "/var/cache/elcache") (100 * 1024 * 1024 * 1024) 4096 true true (64 * 1024 * 1024) (percent 90) (percent 80).

Definition NetworkConfig_default : NetworkConfig :=
  mkNetworkConfig (str "0.0.0.0") 7890 8080 7891 (str "/var/run/elcache/elcache.sock") (str "/elcache_shm") (256 * 1024 * 1024)
    10000 5000 30000 30000 (256 * 1024) (256 * 1024).

Definition ClusterConfig_default : ClusterConfig := mkClusterSection (str "elcache") [] 1000 10000 3 2 true 150.
Definition PoolConfig_default : PoolConfig := mkPoolConfig 0 0 true true.
Definition PerformanceConfig_default : PerformanceConfig := mkPerfConfig 0 0 64 256 2 true 60.

Definition Config_default : Config :=
  mkConfig [] MemoryCacheConfig_default DiskCacheConfig_default NetworkConfig_default ClusterConfig_default PoolConfig_default
    PerformanceConfig_default.

(** ** [SimpleJson] *)

(** [s.find(pat, pos)]. *)
Definition find_from (pat s : bytes) (pos : Z) : option Z :=
  if size_of s <? pos then None else (Z.add pos) <$> find pat (drop (Z.to_nat pos) s).

(** The longest prefix of bytes that satisfy a test. *)
Fixpoint prefix_of (p : byte -> bool) (s : bytes) : bytes :=
  match s with
  | b :: s' => if p b then b :: prefix_of p s' else []
  | [] => []
  end.

(** The position after the longest run of such bytes from [pos] on. *)
Definition skip_from (p : byte -> bool) (s : bytes) (pos : Z) : Z := pos + size_of (prefix_of p (drop (Z.to_nat pos) s)).

Definition isdigit (b : byte) : bool := let z := Z_of_byte b in (48 <=? z) && (z <=? 57).
Definition is_byte (x b : byte) : bool := bool_decide (b = x).

(** The position of the colon after a quoted name. *)
Definition key_colon (json key : bytes) : option Z :=
  pos ← find (quoted key) json; find_from (str ":") json pos.

Definition get_string (json key def : bytes) : outcome bytes :=
  match key_colon json key with
  | None => Done def
  | Some pos =>
      match find_from [x22] json pos with
      | None => Done def
      | Some pos =>
          match find_from [x22] json (pos + 1) with
          | None => Done def
          | Some end_ => substr_n json (pos + 1) (end_ - pos - 1)
          end
      end
  end.

(** The text of a number: blanks are skipped, then the bytes that satisfy [p] are taken. *)
Definition json_number (p : byte -> bool) (json key : bytes) : outcome (option bytes) :=
  match key_colon json key with
  | None => Done None
  | Some pos =>
      let pos := skip_from isspace json (pos + 1) in
      let end_ := skip_from p json pos in
      if end_ =? pos then Done None else s ← substr_n json pos (end_ - pos); Done (Some s)
  end.

Definition get_int (json key : bytes) (def : Z) : outcome Z :=
  s ← json_number (fun b => isdigit b || is_byte x2d b) json key;
  match s with None => Done def | Some s => stoll s end.

Definition get_double (json key : bytes) (def : double) : outcome double :=
  s ← json_number (fun b => isdigit b || is_byte x2d b || is_byte x2e b) json key;
  match s with None => Done def | Some s => stod s end.

(** The first [true] or [false] anywhere after the name. *)
Definition get_bool (json key : bytes) (def : bool) : bool :=
  match key_colon json key with
  | None => def
  | Some pos =>
      if bool_decide (is_Some (find_from (str "true") json pos)) then true
      else if bool_decide (is_Some (find_from (str "false") json pos)) then false
      else def
  end.

(** The loop of [get_string_array]: position and strings found. *)
Definition array_step (arr : bytes) (st : Z * list bytes) : (Z * list bytes) + outcome (list bytes) :=
  let '(start, result) := st in
  match find_from [x22] arr start with
  | None => inr (Done result)
  | Some start =>
      match find_from [x22] arr (start + 1) with
      | None => inr (Done result)
      | Some str_end =>
          match substr_n arr (start + 1) (str_end - start - 1) with
          | Done s => inl (str_end + 1, result ++ [s])
          | e => inr (result' ← e; Done (result ++ [result']))
          end
      end
  end.

(** Every round moves past two quotes: the length of the text is enough fuel. *)
Definition get_string_array (json key : bytes) : outcome (list bytes) :=
  match pos ← find (quoted key) json; find_from (str "[") json pos with
  | None => Done []
  | Some pos =>
      match find_from (str "]") json pos with
      | None => Done []
      | Some end_ =>
          arr ← substr_n json (pos + 1) (end_ - pos - 1);
          match loop (S (length arr)) (array_step arr) (0, []) with Some r => r | None => Spin end
      end
  end.

(** How many bytes the loop of [get_object] takes until the depth is 0. *)
Fixpoint match_braces (depth : Z) (s : bytes) : Z :=
  if depth <=? 0 then 0
  else match s with
       | [] => 0
       | b :: s' => 1 + match_braces (if is_byte x7b b then depth + 1 else if is_byte x7d b then depth - 1 else depth) s'
       end.

Definition get_object (json key : bytes) : outcome bytes :=
  match pos ← find (quoted key) json; find_from (str "{") json pos with
  | None => Done (str "{}")
  | Some pos =>
      let end_ := pos + 1 + match_braces 1 (drop (Z.to_nat (pos + 1)) json) in
      substr_n json pos (end_ - pos)
  end.

(** ** [Config] *)

Definition load_memory (mem : bytes) : outcome MemoryCacheConfig :=
  let d := MemoryCacheConfig_default in
  max_size ← get_int mem (str "max_size") (mem_max_size d);
  arc_ghost_size ← get_int mem (str "arc_ghost_size") (mem_arc_ghost_size d);
  high ← get_double mem (str "high_watermark") (percent 95);
  low ← get_double mem (str "low_watermark") (percent 85);
  Done (mkMemoryConfig (u64 max_size) (u64 arc_ghost_size) high low).

Definition load_disk (disk : bytes) : outcome DiskCacheConfig :=
  let d := DiskCacheConfig_default in
  path ← get_string disk (str "path") [];
  max_size ← get_int disk (str "max_size") (disk_max_size d);
  let use_direct_io := get_bool disk (str "use_direct_io") true in
  let use_fallocate := get_bool disk (str "use_fallocate") true in
  high ← get_double disk (str "high_watermark") (percent 90);
  low ← get_double disk (str "low_watermark") (percent 80);
  Done (mkDiskConfig (if bool_decide (path = []) then disk_path d else path) (u64 max_size) (disk_block_size d) use_direct_io
          use_fallocate (disk_write_buffer_size d) high low).

Definition load_network (net : bytes) : outcome NetworkConfig :=
  let d := NetworkConfig_default in
  bind_address ← get_string net (str "bind_address") (str "0.0.0.0");
  cluster_port ← get_int net (str "cluster_port") 7890;
  http_port ← get_int net (str "http_port") 8080;
  sdk_port ← get_int net (str "sdk_port") 7891;
  unix_socket_path ← get_string net (str "unix_socket_path") (str "/var/run/elcache/elcache.sock");
  shm_path ← get_string net (str "shm_path") (str "/elcache_shm");
  shm_size ← get_int net (str "shm_size") (256 * 1024 * 1024);
  max_connections ← get_int net (str "max_connections") 10000;
  Done (mkNetworkConfig bind_address (u16 cluster_port) (u16 http_port) (u16 sdk_port) unix_socket_path shm_path (u64 shm_size)
          (u64 max_connections) (net_connect_timeout d) (net_read_timeout d) (net_write_timeout d) (net_recv_buffer_size d)
          (net_send_buffer_size d)).

Definition load_cluster (cluster : bytes) : outcome ClusterConfig :=
  cluster_name ← get_string cluster (str "cluster_name") (str "elcache");
  seed_nodes ← get_string_array cluster (str "seed_nodes");
  gossip_interval ← get_int cluster (str "gossip_interval_ms") 1000;
  failure_detection_timeout ← get_int cluster (str "failure_detection_timeout_ms") 10000;
  gossip_fanout ← get_int cluster (str "gossip_fanout") 3;
  replication_factor ← get_int cluster (str "replication_factor") 2;
  let prefer_local := get_bool cluster (str "prefer_local") true in
  virtual_nodes ← get_int cluster (str "virtual_nodes") 150;
  Done (mkClusterSection cluster_name seed_nodes gossip_interval failure_detection_timeout (u64 gossip_fanout)
          (u64 replication_factor) prefer_local (u64 virtual_nodes)).

Definition load_pool (pool : bytes) : outcome PoolConfig :=
  memory_contribution ← get_int pool (str "memory_contribution") 0;
  disk_contribution ← get_int pool (str "disk_contribution") 0;
  Done (mkPoolConfig (u64 memory_contribution) (u64 disk_contribution) (get_bool pool (str "accept_remote_reads") true)
          (get_bool pool (str "accept_remote_writes") true)).

Definition load_performance (perf : bytes) : outcome PerformanceConfig :=
  io_threads ← get_int perf (str "io_threads") 0;
  worker_threads ← get_int perf (str "worker_threads") 0;
  max_concurrent_disk_ops ← get_int perf (str "max_concurrent_disk_ops") 64;
  max_concurrent_network_ops ← get_int perf (str "max_concurrent_network_ops") 256;
  prefetch_chunks ← get_int perf (str "prefetch_chunks") 2;
  Done (mkPerfConfig (u64 io_threads) (u64 worker_threads) (u64 max_concurrent_disk_ops) (u64 max_concurrent_network_ops)
          (u64 prefetch_chunks) (get_bool perf (str "enable_metrics") true) (perf_metrics_interval PerformanceConfig_default)).

Definition load_json (json : bytes) : outcome Config :=
  node_name ← get_string json (str "node_name") [];
  mem ← get_object json (str "memory");
  memory ← load_memory mem;
  disk ← get_object json (str "disk");
  disk ← load_disk disk;
  net ← get_object json (str "network");
  network ← load_network net;
  cluster ← get_object json (str "cluster");
  cluster ← load_cluster cluster;
  pool ← get_object json (str "pool");
  pool ← load_pool pool;
  perf ← get_object json (str "performance");
  perf ← load_performance perf;
  Done (mkConfig node_name memory disk network cluster pool perf).

(** [file]: the text of the file, when it can be opened. *)
Definition load (file : option bytes) : outcome Config :=
  match file with None => Throw "Failed to open config file" | Some text => load_json text end.

(** ** Output *)

Inductive JValue := JRaw (text : bytes) | JStr (s : bytes) | JArr (l : list bytes).

Fixpoint print_items (l : list bytes) : bytes :=
  match l with [] => [] | [s] => quoted s | s :: rest => quoted s ++ str ", " ++ print_items rest end.

Definition print_value (v : JValue) : bytes :=
  match v with JRaw text => text | JStr s => quoted s | JArr l => str "[" ++ print_items l ++ str "]" end.

(** The lines of a section: a comma after all but the last. *)
Fixpoint print_fields (fields : list (string * JValue)) : bytes :=
  match fields with
  | [] => []
  | [(k, v)] => json_line "    " k (print_value v) EmptyString
  | (k, v) :: rest => json_line "    " k (print_value v) "," ++ print_fields rest
  end.

Definition json_section (name : string) (fields : list (string * JValue)) (rest : string) : bytes :=
  str "  " ++ quoted (str name) ++ str ": {" ++ nl ++ print_fields fields ++ str "  }" ++ str rest ++ nl.

Definition jnum (n : Z) : JValue := JRaw (to_string n).
Definition jbool (b : bool) : JValue := JRaw (bool_text b).
Definition jdouble (d : double) : JValue := JRaw (print_general d).

Definition memory_fields (m : MemoryCacheConfig) : list (string * JValue) :=
  [("max_size", jnum (mem_max_size m)); ("arc_ghost_size", jnum (mem_arc_ghost_size m));
   ("high_watermark", jdouble (mem_high_watermark m)); ("low_watermark", jdouble (mem_low_watermark m))].

Definition disk_fields (d : DiskCacheConfig) : list (string * JValue) :=
  [("path", JStr (disk_path d)); ("max_size", jnum (disk_max_size d)); ("use_direct_io", jbool (disk_use_direct_io d));
   ("use_fallocate", jbool (disk_use_fallocate d)); ("high_watermark", jdouble (disk_high_watermark d));
   ("low_watermark", jdouble (disk_low_watermark d))].

Definition network_fields (n : NetworkConfig) : list (string * JValue) :=
  [("bind_address", JStr (net_bind_address n)); ("cluster_port", jnum (net_cluster_port n)); ("http_port", jnum (net_http_port n));
   ("sdk_port", jnum (net_sdk_port n)); ("unix_socket_path", JStr (net_unix_socket_path n)); ("shm_path", JStr (net_shm_path n));
   ("shm_size", jnum (net_shm_size n)); ("max_connections", jnum (net_max_connections n))].

Definition cluster_fields (c : ClusterConfig) : list (string * JValue) :=
  [("cluster_name", JStr (clu_cluster_name c)); ("seed_nodes", JArr (clu_seed_nodes c));
   ("gossip_interval_ms", JRaw (to_string_signed (clu_gossip_interval c)));
   ("failure_detection_timeout_ms", JRaw (to_string_signed (clu_failure_detection_timeout c)));
   ("gossip_fanout", jnum (clu_gossip_fanout c)); ("replication_factor", jnum (clu_replication_factor c));
   ("prefer_local", jbool (clu_prefer_local c)); ("virtual_nodes", jnum (clu_virtual_nodes c))].

Definition pool_fields (p : PoolConfig) : list (string * JValue) :=
  [("memory_contribution", jnum (pool_memory_contribution p)); ("disk_contribution", jnum (pool_disk_contribution p));
   ("accept_remote_reads", jbool (pool_accept_remote_reads p)); ("accept_remote_writes", jbool (pool_accept_remote_writes p))].

Definition performance_fields (p : PerformanceConfig) : list (string * JValue) :=
  [("io_threads", jnum (perf_io_threads p)); ("worker_threads", jnum (perf_worker_threads p));
   ("max_concurrent_disk_ops", jnum (perf_max_concurrent_disk_ops p));
   ("max_concurrent_network_ops", jnum (perf_max_concurrent_network_ops p)); ("prefetch_chunks", jnum (perf_prefetch_chunks p));
   ("enable_metrics", jbool (perf_enable_metrics p)); ("metrics_interval_s", JRaw (to_string_signed (perf_metrics_interval p)))].

Definition to_json (c : Config) : bytes :=
  str "{" ++ nl ++
  json_line "  " "node_name" (quoted (cf_node_name c)) "," ++
  json_section "memory" (memory_fields (cf_memory c)) "," ++
  json_section "disk" (disk_fields (cf_disk c)) "," ++
  json_section "network" (network_fields (cf_network c)) "," ++
  json_section "cluster" (cluster_fields (cf_cluster c)) "," ++
  json_section "pool" (pool_fields (cf_pool c)) "," ++
  json_section "performance" (performance_fields (cf_perf c)) EmptyString ++
  str "}" ++ nl.

(** The new text of the file, when it can be opened. *)
Definition save (c : Config) (opened : bool) : outcome bytes :=
  if opened then Done (to_json c) else Throw "Failed to open config file for writing".

(** ** [validate] *)

Definition validate (c : Config) : Status :=
  if (mem_max_size (cf_memory c) =? 0) && (disk_max_size (cf_disk c) =? 0) then
    status_error InvalidArgument (str "At least one of memory or disk cache must be enabled")
  else if dleb (mem_high_watermark (cf_memory c)) (mem_low_watermark (cf_memory c)) then
    status_error InvalidArgument (str "Memory high_watermark must be greater than low_watermark")
  else if dleb (disk_high_watermark (cf_disk c)) (disk_low_watermark (cf_disk c)) then
    status_error InvalidArgument (str "Disk high_watermark must be greater than low_watermark")
  else if (net_http_port (cf_network c) =? net_cluster_port (cf_network c)) ||
          (net_http_port (cf_network c) =? net_sdk_port (cf_network c)) ||
          (net_cluster_port (cf_network c) =? net_sdk_port (cf_network c)) then
    status_error InvalidArgument (str "Network ports must be unique")
  else if clu_replication_factor (cf_cluster c) =? 0 then
    status_error InvalidArgument (str "Replication factor must be at least 1")
  else make_ok.

Example default_reload : load_json (to_json Config_default) = Done Config_default /\ is_ok (validate Config_default) = true.
Proof. vm_compute. done. Qed.

(** ** Searching the printed text *)

















(** ** Values and fields *)















(** ** Reading back *)













(** *** Arrays of strings *)






(** *** Objects *)










Definition is_number_byte (b : byte) : bool := isdigit b || is_byte x2d b || is_byte x2e b.

(** What the six digits [operator<<] prints of a double read back as. *)
Definition reread (d : double) : double := match stod (print_general d) with Done x => x | _ => dzero end.

(** A double that is printed without exponent, as a number [std::stod] takes. *)
Definition plain (d : double) : bool :=
  forallb is_number_byte (print_general d) && (match stod (print_general d) with Done _ => true | _ => false end).







(** *** Sections *)









(** *** Cutting an object out *)













(** *** Flags *)










(** ** Which configurations read back *)





































(** *** The whole text *)












#[local] Instance double_eq_dec : EqDecision double.
Proof. solve_decision. Defined.

(** Thousandths survive the six digits, other watermarks are rounded. *)
Lemma watermarks_exact n : 0 <= n <= 1000 ->
  let d := ddiv (double_of_Z n) (double_of_Z 1000) in plain d = true /\ reread d = d.
Proof.
  intros Hn. assert (forallb (fun n => let d := ddiv (double_of_Z n) (double_of_Z 1000) in
    plain d && (if decide (reread d = d) then true else false)) (seqZ 0 1001) = true) as H by (vm_compute; reflexivity).
  rewrite forallb_forall in H. specialize (H n). rewrite <- list_elem_of_In, elem_of_seqZ in H. specialize (H ltac:(lia)).
  apply andb_true_iff in H as [H1 H2]. split; [done|]. by case_decide.
Qed.

Lemma watermark_rounded :
  let d := ddiv (double_of_Z 8999999) (double_of_Z 10000000) in reread d = ddiv (double_of_Z 9) (double_of_Z 10) /\ reread d <> d.
Proof. split; [by vm_compute|]. vm_compute. discriminate. Qed.



(** ** Validation *)

(** [validate] accepts exactly the configurations with some storage, watermarks in order, three
    different ports and at least one replica. *)
Theorem validate_spec c :
  is_ok (validate c) = true <->
  ~ (mem_max_size (cf_memory c) = 0 /\ disk_max_size (cf_disk c) = 0) /\
  dleb (mem_high_watermark (cf_memory c)) (mem_low_watermark (cf_memory c)) = false /\
  dleb (disk_high_watermark (cf_disk c)) (disk_low_watermark (cf_disk c)) = false /\
  NoDup [net_http_port (cf_network c); net_cluster_port (cf_network c); net_sdk_port (cf_network c)] /\
  clu_replication_factor (cf_cluster c) <> 0.
Proof.
  assert (is_ok (validate c) =
    negb ((mem_max_size (cf_memory c) =? 0) && (disk_max_size (cf_disk c) =? 0)) &&
    (negb (dleb (mem_high_watermark (cf_memory c)) (mem_low_watermark (cf_memory c))) &&
    (negb (dleb (disk_high_watermark (cf_disk c)) (disk_low_watermark (cf_disk c))) &&
    (negb ((net_http_port (cf_network c) =? net_cluster_port (cf_network c)) || (net_http_port (cf_network c) =? net_sdk_port (cf_network c)) ||
           (net_cluster_port (cf_network c) =? net_sdk_port (cf_network c))) && negb (clu_replication_factor (cf_cluster c) =? 0))))) as ->.
  { unfold validate. repeat (match goal with |- context [if ?b then _ else _] => destruct b end; [reflexivity|]). reflexivity. }
  rewrite !andb_true_iff, !negb_true_iff, !orb_false_iff, andb_false_iff, !Z.eqb_neq, !NoDup_cons, !elem_of_cons, !elem_of_nil.
  pose proof (NoDup_nil_2 (A := Z)). destruct (decide (mem_max_size (cf_memory c) = 0)); tauto.
Qed.
