(* ===== verification/Daemon.v ===== *)
(** * The daemon: [src/main.cpp], [include/elcache/elcache.hpp]

    The command line, the choice of the configuration, the wiring of [ElCacheServer] and its start and
    stop, and the running daemon: the HTTP service and any number of SDK connections, interleaved
    request by request over the state they share. Process start-up, signals, printed messages and the
    scheduler (the Elio library) are not modelled. *)

From S2P Require Import Prelude CStd CText CDouble Types Chunk CacheApi CacheInterface ArcCache MemoryCache CacheTier Codec DiskCache Coordinator HashRing.
From S2P Require Import SparseCache UnixServer UnixListener Cluster Metrics HttpApi Config.
From Stdlib Require Import Strings.Byte.
Open Scope Z_scope.

(** ** Command line *)

(** The loop over the arguments: an exit code, or the configuration and the path of its file. *)
Inductive ArgsResult := Exit (code : Z) | Run (config : Config) (config_file : bytes).

Definition is_option (arg : bytes) (short long : string) : bool := bool_decide (arg = str short) || bool_decide (arg = str long).

Definition set_http_port (c : Config) (port : Z) : Config :=
  let n := cf_network c in
  mkConfig (cf_node_name c) (cf_memory c) (cf_disk c)
    (mkNetworkConfig (net_bind_address n) (net_cluster_port n) port (net_sdk_port n) (net_unix_socket_path n) (net_shm_path n) (net_shm_size n)
       (net_max_connections n) (net_connect_timeout n) (net_read_timeout n) (net_write_timeout n) (net_recv_buffer_size n) (net_send_buffer_size n))
    (cf_cluster c) (cf_pool c) (cf_perf c).

Definition set_unix_path (c : Config) (path : bytes) : Config :=
  let n := cf_network c in
  mkConfig (cf_node_name c) (cf_memory c) (cf_disk c)
    (mkNetworkConfig (net_bind_address n) (net_cluster_port n) (net_http_port n) (net_sdk_port n) path (net_shm_path n) (net_shm_size n)
       (net_max_connections n) (net_connect_timeout n) (net_read_timeout n) (net_write_timeout n) (net_recv_buffer_size n) (net_send_buffer_size n))
    (cf_cluster c) (cf_pool c) (cf_perf c).

Definition set_memory_size (c : Config) (size : Z) : Config :=
  let m := cf_memory c in
  mkConfig (cf_node_name c) (mkMemoryConfig size (mem_arc_ghost_size m) (mem_high_watermark m) (mem_low_watermark m)) (cf_disk c) (cf_network c)
    (cf_cluster c) (cf_pool c) (cf_perf c).

Definition set_disk_config (c : Config) (d : Config.DiskCacheConfig) : Config :=
  mkConfig (cf_node_name c) (cf_memory c) d (cf_network c) (cf_cluster c) (cf_pool c) (cf_perf c).

Definition set_disk_path (c : Config) (path : bytes) : Config :=
  let d := cf_disk c in
  set_disk_config c (Config.mkDiskConfig path (disk_max_size d) (disk_block_size d) (disk_use_direct_io d) (disk_use_fallocate d)
    (disk_write_buffer_size d) (disk_high_watermark d) (disk_low_watermark d)).

Definition set_disk_size (c : Config) (size : Z) : Config :=
  let d := cf_disk c in
  set_disk_config c (Config.mkDiskConfig (disk_path d) size (disk_block_size d) (disk_use_direct_io d) (disk_use_fallocate d)
    (disk_write_buffer_size d) (disk_high_watermark d) (disk_low_watermark d)).

Definition add_seed (c : Config) (seed : bytes) : Config :=
  let k := cf_cluster c in
  mkConfig (cf_node_name c) (cf_memory c) (cf_disk c) (cf_network c)
    (mkClusterSection (clu_cluster_name k) (clu_seed_nodes k ++ [seed]) (clu_gossip_interval k) (clu_failure_detection_timeout k)
       (clu_gossip_fanout k) (clu_replication_factor k) (clu_prefer_local k) (clu_virtual_nodes k)) (cf_pool c) (cf_perf c).

(** The arguments after the program name. *)
Fixpoint parse_args (args : list bytes) (config : Config) (config_file : bytes) : outcome ArgsResult :=
  match args with
  | [] => Done (Run config config_file)
  | arg :: rest =>
      if is_option arg "-h" "--help" then Done (Exit 0)
      else if is_option arg "-v" "--version" then Done (Exit 0)
      else
        match rest with
        | value :: rest' =>
            if is_option arg "-c" "--config" then parse_args rest' config value
            else if is_option arg "-p" "--port" then port ← stoi value; parse_args rest' (set_http_port config (u16 port)) config_file
            else if is_option arg "-m" "--memory" then
              n ← stoull 10 value; parse_args rest' (set_memory_size config (n *w 1024 *w 1024)) config_file
            else if is_option arg "-d" "--disk" then parse_args rest' (set_disk_path config value) config_file
            else if is_option arg "-D" "--disk-size" then
              n ← stoull 10 value; parse_args rest' (set_disk_size config (n *w 1024 *w 1024 *w 1024)) config_file
            else if is_option arg "-s" "--seed" then parse_args rest' (add_seed config value) config_file
            else if is_option arg "-u" "--unix" then parse_args rest' (set_unix_path config value) config_file
            else Done (Exit 1)
        | [] => Done (Exit 1)
        end
  end.

(** [files]: the files that can be opened, with their text. *)
Definition main_config (files : bytes -> option bytes) (args : list bytes) : outcome (Z + Config) :=
  parsed ← parse_args args Config_default [];
  match parsed with
  | Exit code => Done (inl code)
  | Run config config_file =>
      let loaded := if bool_decide (config_file = []) then Done config else load (files config_file) in
      try_catch loaded (Done (inl 1)) (fun config =>
        if is_ok (validate config) then Done (inr config) else Done (inl 1))
  end.

(** [hardware]: what [hardware_concurrency] returned. *)
Definition num_threads (config : Config) (hardware : Z) : Z :=
  let n := perf_worker_threads (cf_perf config) in
  if n =? 0 then (if hardware =? 0 then 4 else hardware) else n.

(** ** [HttpServer]

    The server itself, the parser and the router are Elio's; the class configures and starts it. *)

Record ElioConfig := mkElioConfig {
  ec_max_request_size : Z; ec_read_buffer_size : Z; ec_keep_alive_timeout : Z; ec_max_keep_alive_requests : Z; ec_enable_logging : bool }.

(** [hv_server]: Elio's server, with its configuration and whether it was told to stop. *)
Record HttpServer := mkHttpServer { hv_config : NetworkConfig; hv_server : option (ElioConfig * bool); hv_running : bool }.

Definition HttpServer_make (config : NetworkConfig) : HttpServer := mkHttpServer config None false.

Definition HttpServer_start (h : HttpServer) : Status * HttpServer :=
  let server_config := mkElioConfig (100 * 1024 * 1024) (64 * 1024) (Z.quot (net_read_timeout (hv_config h)) 1000) 1000 true in
  (make_ok, mkHttpServer (hv_config h) (Some (server_config, false)) true).

Definition HttpServer_stop (h : HttpServer) : HttpServer :=
  mkHttpServer (hv_config h) ((fun '(c, _) => (c, true)) <$> hv_server h) false.

Definition HttpServer_port (h : HttpServer) : Z := net_http_port (hv_config h).

(** ** [ElCacheServer] *)

(** The parts of the configuration each component reads. *)
Definition coordinator_config (c : Config) : CoordinatorConfig :=
  mkCoordConfig (mem_max_size (cf_memory c)) (disk_max_size (cf_disk c)) (clu_prefer_local (cf_cluster c)) (clu_seed_nodes (cf_cluster c)).

Definition cluster_config (stray : Z * Z) (c : Config) : Cluster.ClusterConfig :=
  let k := cf_cluster c in
  mkClusterConfig (net_bind_address (cf_network c)) (net_cluster_port (cf_network c)) (mem_max_size (cf_memory c)) (disk_max_size (cf_disk c))
    (clu_cluster_name k) (clu_seed_nodes k) (clu_failure_detection_timeout k) (clu_gossip_fanout k) (clu_replication_factor k) (clu_virtual_nodes k)
    stray.1 stray.2.

(** What [DiskStore] and [DiskCache] read; [root]: the components of [disk.path]. *)
Definition disk_config (root : Path) (c : Config) : DiskCache.DiskCacheConfig :=
  let d := cf_disk c in
  DiskCache.mkDiskConfig root (disk_max_size d) (disk_use_fallocate d) (disk_high_watermark d) (disk_low_watermark d).

(** A cluster is joined when there are seeds or something to contribute. *)
Definition clustered (c : Config) : bool :=
  negb (bool_decide (clu_seed_nodes (cf_cluster c) = [])) || (0 <? pool_memory_contribution (cf_pool c)) ||
  (0 <? pool_disk_contribution (cf_pool c)).

Section server.
Context `{HH : Hasher} (MT DT : CacheTier) (now_ms : Z) (stray : Z * Z) (config : Config).

Local Abbreviation CL := (cluster_link (cluster_config stray config) now_ms).
Local Abbreviation Co := (Coordinator MT DT CL).

(** [memory], [disk]: the caches the coordinator makes; [id]: the generated identifier of this node. *)
Definition server_make (memory : @tier_state MT) (disk : @tier_state DT) (id : NodeId) : Co :=
  let co := co_make MT DT CL (coordinator_config config) memory disk in
  if clustered config then set_cluster MT DT CL co (Some (Cluster_make (cluster_config stray config) id)) else co.

Definition server_collector : MetricsCollector := mkCollector true (clustered config).

Record ElCacheServer := mkElCache { el_coordinator : Co; el_http : HttpServer; el_unix : UnixSocketServer; el_running : bool }.

(** [sync]: the global cache of the socket server. *)
Definition ElCacheServer_make (memory : @tier_state MT) (disk : @tier_state DT) (id : NodeId) (sync : Server) : ElCacheServer :=
  mkElCache (server_make memory disk id) (HttpServer_make (cf_network config)) (us_make (net_unix_socket_path (cf_network config)) sync) false.

(** The coordinator, then the cluster when there is one; [bound]: whether its listener could be bound. *)
Definition caches_start (co : Co) (bound : bool) : outcome (Status * Co) :=
  '(status, co1) ← co_start MT DT CL co;
  if negb (is_ok status) then Done (status, co1)
  else
    match co_cluster _ _ _ co1 with
    | Some cl =>
        '(status, cl') ← Cluster_start (cluster_config stray config) now_ms cl bound;
        Done (status, set_cluster MT DT CL co1 (Some cl'))
    | None => Done (status, co1)
    end.

(** [env]: the system calls of the socket server. Its start is spawned, and what it reports is dropped. *)
Definition server_start (el : ElCacheServer) (bound : bool) (env : StartEnv) : outcome (Status * ElCacheServer) :=
  '(status, co) ← caches_start (el_coordinator el) bound;
  let el1 := mkElCache co (el_http el) (el_unix el) true in
  if negb (is_ok status) then Done (status, el1)
  else
    let '(status, http) := HttpServer_start (el_http el) in
    let el2 := mkElCache co http (el_unix el) true in
    if negb (is_ok status) then Done (status, el2)
    else
      '(_, unix) ← us_start env (el_unix el);
      Done (make_ok, mkElCache co http unix true).

(** [ElCacheServer::stop]: the socket server, the HTTP server, the cluster, the caches. *)
Definition server_stop (el : ElCacheServer) : outcome ElCacheServer :=
  unix ← us_stop (el_unix el);
  let co := el_coordinator el in
  Done (mkElCache (co_stop MT DT CL (set_cluster MT DT CL co (Cluster_stop <$> co_cluster _ _ _ co)))
                  (HttpServer_stop (el_http el)) unix false).

End server.

(** ** [main]

    After the configuration is accepted, [main] starts a scheduler, spawns the start-up task and waits. A
    round of its loop reads [g_running] and asks the scheduler; in between, a signal may have arrived or
    the start-up task may have failed, either of which clears [g_running]. *)

Record Round := mkRound { rd_signal : bool; rd_start_failed : bool; rd_scheduler_running : bool }.

(** The rounds left when the loop ends; [None] while it still waits. *)
Fixpoint main_loop (g_running : bool) (rounds : list Round) : option (list Round) :=
  match rounds with
  | [] => None
  | r :: rest =>
      let g := g_running && negb (rd_signal r) && negb (rd_start_failed r) in
      if g && rd_scheduler_running r then main_loop g rest else Some rest
  end.

(** [constructed]: whether the scheduler and the server could be made without an exception. The exit code,
    [None] while the daemon runs. *)
Definition main_exit (files : bytes -> option bytes) (args : list bytes) (constructed : bool) (rounds : list Round) : outcome (option Z) :=
  result ← main_config files args;
  match result with
  | inl code => Done (Some code)
  | inr config =>
      if negb constructed then Done (Some 1)
      else match main_loop true rounds with Some _ => Done (Some 0) | None => Done None end
  end.

(** ** The running daemon

    One process serves HTTP requests and any number of SDK connections. They share the table of uploads
    in progress ([global_sparse_cache]); stored values are kept apart, in the coordinator's tiers for HTTP
    and in the server's own map for the SDK. A step is one whole request. *)

Inductive DaemonStep :=
| StepHttp (now clock : Z) (route : Route) (ctx : Context_)
| StepSdk (conn : nat) (now : Clock)
| StepConnect (conn : Conn).

Section daemon.
Context `{HH : Hasher} (MT DT : CacheTier) (CL : ClusterLink) (cfg : CoordinatorConfig).
Context (link_stats : @link_state CL -> ClusterStats) (collector : option MetricsCollector) (moved_first : bool).

Record Daemon := mkDaemon { dm_http : HttpState MT DT CL; dm_sync : SyncCache; dm_conns : list Conn }.

Definition daemon_step (d : Daemon) (e : DaemonStep) : outcome (list ElioResponse * Daemon) :=
  match e with
  | StepHttp now clock route ctx =>
      '(r, h) ← run_route MT DT CL cfg link_stats collector moved_first route now clock (dm_http d) ctx;
      Done ([r], mkDaemon h (dm_sync d) (dm_conns d))
  | StepSdk i now =>
      match dm_conns d !! i with
      | None => Done ([], d)
      | Some c =>
          '(_, s, c') ← process_request_thread now (mkServer (dm_sync d) (hs_sparse _ _ _ (dm_http d))) c;
          Done ([], mkDaemon (with_sparse _ _ _ (dm_http d) (g_sparse s)) (g_sync s) (<[i := c']> (dm_conns d)))
      end
  | StepConnect c => Done ([], mkDaemon (dm_http d) (dm_sync d) (dm_conns d ++ [c]))
  end.

Fixpoint daemon_run (d : Daemon) (es : list DaemonStep) : outcome (list ElioResponse * Daemon) :=
  match es with
  | [] => Done ([], d)
  | e :: es' => '(r, d1) ← daemon_step d e; '(rs, d2) ← daemon_run d1 es'; Done (r ++ rs, d2)
  end.
End daemon.

(** *** What it promises *)

(** The requests as their clients made them. *)
Inductive Event :=
| EHttp (now clock : Z) (q : HttpReq)
| ESdk (conn : nat) (now : Clock) (ms rid : Z) (q : UdsReq)
| EConnect (input : list bytes) (sched : list Z).

Definition step_of (e : Event) : DaemonStep :=
  match e with
  | EHttp now clock q => StepHttp now clock (route_of q).2 (context_of q)
  | ESdk i now _ _ _ => StepSdk i now
  | EConnect input sched => StepConnect (mkConn input [] sched)
  end.

(** What connection [i] sends over a history. *)
Definition sdk_reqs (i : nat) (es : list Event) : list (Z * Z * UdsReq) :=
  omap (fun e => match e with ESdk j _ ms rid q => if decide (j = i) then Some (ms, rid, q) else None | _ => None end) es.

(** The values seen over HTTP and over the SDK, the uploads both share, and what each client has read. *)
Record DaemonSpec := mkDaemonSpec {
  ds_vals : gmap CacheKey bytes; ds_sync : gmap bytes bytes; ds_uploads : sparse_spec; ds_outs : list bytes }.

Definition ds_http (m : DaemonSpec) : HttpSpec := mkHttpSpec (ds_vals m) (ds_uploads m).
Definition ds_sdk (m : DaemonSpec) : UdsSpec := mkSpec (ds_sync m) (ds_uploads m).

Section daemon_spec.
Context `{HH : Hasher} (MT DT : CacheTier) (accepts : CacheKey -> bytes -> bool).

(** [tails]: what connection [i] sends after its requests. *)
Context (tails : nat -> bytes).

Definition dspec_step (m : DaemonSpec) (e : Event) : DaemonSpec :=
  match e with
  | EHttp _ _ q =>
      let h := hspec_step accepts (ds_http m) q in mkDaemonSpec (hsp_vals h) (ds_sync m) (hsp_uploads h) (ds_outs m)
  | ESdk i now _ rid q =>
      let r := req_spec (ds_sdk m) q in
      mkDaemonSpec (ds_vals m) (sp_values r.2) (sp_sparse r.2) (alter (fun out => out ++ answer_bytes now out rid r) i (ds_outs m))
  | EConnect _ _ => mkDaemonSpec (ds_vals m) (ds_sync m) (ds_uploads m) (ds_outs m ++ [[]])
  end.

Fixpoint devents_ok (m : DaemonSpec) (es : list Event) : Prop :=
  match es with
  | [] => True
  | e :: es' =>
      match e with
      | EHttp _ _ q => hreq_ok MT DT (ds_http m) q
      | ESdk i _ _ rid q => (i < length (ds_outs m))%nat /\ req_ok q /\ is_u32 rid
      | EConnect input sched =>
          let i := length (ds_outs m) in
          pieces_ok input /\ sched_ok sched /\ concat input = sent (sdk_reqs i es') ++ tails i
      end /\ devents_ok (dspec_step m e) es'
  end.

Fixpoint danswers (m : DaemonSpec) (es : list Event) (rs : list ElioResponse) : Prop :=
  match es with
  | [] => rs = []
  | EHttp now clock q as e :: es' =>
      match rs with r :: rs' => hanswer accepts (ds_http m) q r /\ danswers (dspec_step m e) es' rs' | [] => False end
  | e :: es' => danswers (dspec_step m e) es' rs
  end.
End daemon_spec.

(** *** It keeps the promise *)

Section daemon_refine.
Context `{HH : Hasher} (MT DT : CacheTier) (CL : ClusterLink) (cfg : CoordinatorConfig).
Context (link_stats : @link_state CL -> ClusterStats) (collector : option MetricsCollector) (moved_first : bool).
Context (Hacc : forall key v, @tier_accepts MT key v = true -> @tier_accepts DT key v = true).
Context (accepts : CacheKey -> bytes -> bool) (tails : nat -> bytes).

Local Abbreviation drun := (daemon_run MT DT CL cfg link_stats collector moved_first).
Local Abbreviation dstep := (daemon_step MT DT CL cfg link_stats collector moved_first).
Local Abbreviation sstep := (dspec_step accepts).

(** A connection has [reqs] ahead of it (and unread bytes after them) and [out] behind it. *)
Definition conn_rel (i : nat) (reqs : list (Z * Z * UdsReq)) (c : Conn) (out : bytes) : Prop :=
  pieces_ok (c_in c) /\ sched_ok (c_sched c) /\ concat (c_in c) = sent reqs ++ tails i /\ c_out c = out.

Record daemon_rel (d : Daemon MT DT CL) (m : DaemonSpec) (es : list Event) : Prop := {
  drel_http : http_rel MT DT CL accepts (dm_http _ _ _ d) (ds_http m);
  drel_sync : dm_sync _ _ _ d = ds_sync m;
  drel_len : length (dm_conns _ _ _ d) = length (ds_outs m);
  drel_conns : forall i c out, dm_conns _ _ _ d !! i = Some c -> ds_outs m !! i = Some out -> conn_rel i (sdk_reqs i es) c out
}.

Lemma http_rel_sparse s m sp u :
  http_rel MT DT CL accepts s m -> sparse_rel sp u -> http_rel MT DT CL accepts (with_sparse _ _ _ s sp) (mkHttpSpec (hsp_vals m) u).
Proof. intros [? ? ? ?] ?. by split. Qed.

Lemma http_event_refines d m now clock q es :
  daemon_rel d m (EHttp now clock q :: es) -> hreq_ok MT DT (ds_http m) q ->
  exists r d', dstep d (StepHttp now clock (route_of q).2 (context_of q)) = Done ([r], d') /\ hanswer accepts (ds_http m) q r /\
    daemon_rel d' (sstep m (EHttp now clock q)) es.
Proof.
  intros [Hh Hs Hl Hc] Hq.
  destruct (http_step_refines MT DT CL cfg link_stats collector moved_first Hacc accepts now clock _ _ q Hh Hq) as (r & h & E & Ha & Hh').
  cbn [daemon_step]. rewrite E. cbn [mbind outcome_bind]. eexists r, _. split; [reflexivity|]. split; [done|].
  split; cbn [dm_http dm_sync dm_conns dspec_step ds_sync ds_outs]; [|done..].
  revert Hh'. generalize (hspec_step accepts (ds_http m) q). by intros [vals uploads].
Qed.

Lemma sdk_event_refines d m i now ms rid q es :
  daemon_rel d m (ESdk i now ms rid q :: es) -> (i < length (ds_outs m))%nat -> req_ok q -> is_u32 rid ->
  exists d', dstep d (StepSdk i now) = Done ([], d') /\ daemon_rel d' (sstep m (ESdk i now ms rid q)) es.
Proof.
  intros [Hh Hs Hl Hc] Hi Hq Hrid.
  destruct (lookup_lt_is_Some_2 (dm_conns _ _ _ d) i) as [c Ec]; [lia|]. destruct (lookup_lt_is_Some_2 (ds_outs m) i Hi) as [out Eo].
  destruct (Hc i c out Ec Eo) as (Hin & Hsched & Hcat & Hout). unfold sdk_reqs in Hcat. cbn [omap list_omap] in Hcat.
  rewrite decide_True, sent_cons, <- app_assoc in Hcat by done.
  assert (server_rel (mkServer (dm_sync _ _ _ d) (hs_sparse _ _ _ (dm_http _ _ _ d))) (ds_sdk m)) as Hsv
    by (split; [done|exact (hrel_sparse _ _ _ _ _ _ Hh)]).
  destruct (process_request_spec now _ _ c ms rid q _ Hsv Hin Hsched Hq Hrid Hcat) as (s' & c' & E & [Hs1 Hs2] & Hin' & Hsched' & Hcat' & Hout').
  cbn [daemon_step]. rewrite Ec, E. cbn [mbind outcome_bind]. eexists. split; [reflexivity|].
  split; cbn [dm_http dm_sync dm_conns dspec_step ds_sync ds_outs].
  - exact (http_rel_sparse _ _ _ _ Hh Hs2).
  - done.
  - by rewrite length_insert, length_alter.
  - intros j cj oj. destruct (decide (j = i)) as [->|Hne].
    + rewrite list_lookup_insert_eq, list_lookup_alter_eq by (rewrite Hl; exact Hi). rewrite Eo. intros [= <-] [= <-].
      split_and!; [done..|]. by rewrite Hout', Hout.
    + rewrite list_lookup_insert_ne, list_lookup_alter_ne by done. intros H1 H2. specialize (Hc j cj oj H1 H2).
      unfold conn_rel, sdk_reqs in Hc. cbn [omap list_omap] in Hc. by rewrite decide_False in Hc.
Qed.

Lemma connect_event_refines d m input sched es :
  daemon_rel d m (EConnect input sched :: es) ->
  (let i := length (ds_outs m) in pieces_ok input /\ sched_ok sched /\ concat input = sent (sdk_reqs i es) ++ tails i) ->
  exists d', dstep d (StepConnect (mkConn input [] sched)) = Done ([], d') /\ daemon_rel d' (sstep m (EConnect input sched)) es.
Proof.
  intros [Hh Hs Hl Hc] (Hin & Hsched & Hcat). eexists. split; [reflexivity|].
  split; cbn [dm_http dm_sync dm_conns dspec_step ds_sync ds_outs]; [done|done|by rewrite !length_app, Hl|].
  intros i c out Ec Eo. apply lookup_app_Some in Ec as [Ec|[Hge Ec]].
  - rewrite lookup_app_l in Eo by (rewrite <- Hl; by eapply lookup_lt_Some). exact (Hc i c out Ec Eo).
  - rewrite Hl in *. rewrite lookup_app_r in Eo by done.
    apply list_lookup_singleton_Some in Ec as [Ei <-], Eo as [_ <-].
    replace i with (length (ds_outs m)) by lia. by split_and!.
Qed.

Lemma daemon_run_refines es : forall d m, daemon_rel d m es -> devents_ok MT DT accepts tails m es ->
  exists rs d', drun d (step_of <$> es) = Done (rs, d') /\ danswers accepts m es rs /\ daemon_rel d' (foldl sstep m es) [].
Proof.
  induction es as [|e es IH]; intros d m Hrel Hok; [by exists [], d|]. destruct Hok as [Hq Hok]. destruct e as [now clock q|i now ms rid q|input sched].
  - destruct (http_event_refines _ _ _ _ _ _ Hrel Hq) as (r & d1 & E & Ha & Hrel1). destruct (IH d1 _ Hrel1 Hok) as (rs & d2 & E2 & Has & Hrel2).
    exists (r :: rs), d2. cbn [fmap list_fmap step_of daemon_run]. rewrite E. cbn [mbind outcome_bind]. rewrite E2. by split_and!.
  - destruct Hq as (Hi & Hq & Hrid). destruct (sdk_event_refines _ _ _ _ _ _ _ _ Hrel Hi Hq Hrid) as (d1 & E & Hrel1).
    destruct (IH d1 _ Hrel1 Hok) as (rs & d2 & E2 & Has & Hrel2).
    exists rs, d2. cbn [fmap list_fmap step_of daemon_run]. rewrite E. cbn [mbind outcome_bind]. rewrite E2. by split_and!.
  - destruct (connect_event_refines _ _ _ _ _ Hrel Hq) as (d1 & E & Hrel1). destruct (IH d1 _ Hrel1 Hok) as (rs & d2 & E2 & Has & Hrel2).
    exists rs, d2. cbn [fmap list_fmap step_of daemon_run]. rewrite E. cbn [mbind outcome_bind]. rewrite E2. by split_and!.
Qed.
End daemon_refine.

(** ** The command line as it is meant *)

Inductive CliOption :=
| OConfig (path : bytes) | OPort (port : Z) | OMemory (mb : Z) | ODisk (path : bytes) | ODiskSize (gb : Z) | OSeed (seed : bytes) | OUnix (path : bytes).

Definition cli_args (o : CliOption) : list bytes :=
  match o with
  | OConfig path => [str "--config"; path]
  | OPort port => [str "-p"; to_string port]
  | OMemory mb => [str "--memory"; to_string mb]
  | ODisk path => [str "-d"; path]
  | ODiskSize gb => [str "--disk-size"; to_string gb]
  | OSeed seed => [str "--seed"; seed]
  | OUnix path => [str "-u"; path]
  end.

Definition cli_ok (o : CliOption) : Prop :=
  match o with OPort port => is_u16 port | OMemory n | ODiskSize n => is_u64 n | _ => True end.

(** The configuration and the configuration file after an option. *)
Definition cli_apply (r : Config * bytes) (o : CliOption) : Config * bytes :=
  let '(c, file) := r in
  match o with
  | OConfig path => (c, path)
  | OPort port => (set_http_port c port, file)
  | OMemory mb => (set_memory_size c (u64 (mb * 2 ^ 20)), file)
  | ODisk path => (set_disk_path c path, file)
  | ODiskSize gb => (set_disk_size c (u64 (gb * 2 ^ 30)), file)
  | OSeed seed => (add_seed c seed, file)
  | OUnix path => (set_unix_path c path, file)
  end.

Lemma parse_number n : is_u64 n -> stoull 10 (to_string n) = Done n.
Proof. apply stoull_to_string. Qed.

Lemma parse_port n : is_u16 n -> stoi (to_string n) = Done n.
Proof. unfold is_u16. intros H. apply sto_signed_to_string; [lia|unfold is_u64; lia]. Qed.

Lemma times_wraps n a b : u64 (u64 (n * a) * b) = u64 (n * (a * b)).
Proof. unfold u64. rewrite Zmult_mod_idemp_l. f_equal. lia. Qed.

(** The options of a command line take effect in order. *)
Lemma parse_cli opts : Forall cli_ok opts -> forall c file,
  parse_args (concat (cli_args <$> opts)) c file = Done (let r := foldl cli_apply (c, file) opts in Run r.1 r.2).
Proof.
  induction 1 as [|o opts Ho _ IH]; intros c file; [done|]. destruct o; cbn [fmap list_fmap concat cli_args app foldl cli_apply cli_ok] in *.
  all: cbn [parse_args]; unfold is_option; repeat (rewrite bool_decide_false by done); repeat (rewrite bool_decide_true by done); cbn [orb].
  - apply IH.
  - rewrite parse_port by done. cbn [mbind outcome_bind]. rewrite IH. unfold u16. by rewrite Z.mod_small by done.
  - rewrite parse_number by done. cbn [mbind outcome_bind]. rewrite IH. by rewrite times_wraps.
  - apply IH.
  - rewrite parse_number by done. cbn [mbind outcome_bind]. rewrite IH. by rewrite !times_wraps.
  - apply IH.
  - apply IH.
Qed.

(** The last configuration file named. *)
Definition cli_file (opts : list CliOption) : bytes := (foldl cli_apply (Config_default, []) opts).2.

Lemma main_config_cli files opts : Forall cli_ok opts ->
  main_config files (concat (cli_args <$> opts)) =
  try_catch (if bool_decide (cli_file opts = []) then Done (foldl cli_apply (Config_default, []) opts).1 else load (files (cli_file opts)))
    (Done (inl 1)) (fun config => if is_ok (validate config) then Done (inr config) else Done (inl 1)).
Proof. intros Hok. unfold main_config. by rewrite parse_cli. Qed.

(** ** Starting up *)

Lemma main_config_valid files args config : main_config files args = Done (inr config) -> is_ok (validate config) = true.
Proof.
  unfold main_config. destruct (parse_args args Config_default []) as [[?|c file]| | |]; try done. cbn [mbind outcome_bind].
  destruct (if bool_decide (file = []) then Done c else load (files file)) as [c'| | |]; cbn [try_catch]; try done.
  destruct (is_ok (validate c')) eqn:E; [|done]. by intros [= <-].
Qed.

Lemma validate_storage c : is_ok (validate c) = true -> mem_max_size (cf_memory c) <> 0 \/ disk_max_size (cf_disk c) <> 0.
Proof.
  unfold validate. destruct (Z.eqb_spec (mem_max_size (cf_memory c)) 0) as [_|]; [|by left].
  destruct (Z.eqb_spec (disk_max_size (cf_disk c)) 0) as [_|]; [done|by right].
Qed.

(** A server on its own, with an empty directory on a disk whose calls succeed, starts with empty caches, at
    least one of them. *)
Lemma standalone_starts `{HH : Hasher} `{BC : !BoundedCache ChunkId SharedChunk chunk_size_fn} P (Hset : chunk_set P)
    root steady strerror now_ms stray config id bound metrics :
  is_ok (validate config) = true -> clustered config = false -> 0 <= mem_max_size (cf_memory config) -> 0 <= disk_max_size (cf_disk config) ->
  let MT := memory_tier P (proj1 Hset) in
  let DT := disk_tier (disk_config root config) steady strerror (fun _ => []) P Hset in
  let CL := cluster_link (cluster_config stray config) now_ms in
  exists co, caches_start MT DT now_ms stray config
      (server_make MT DT now_ms stray config (mc_make (mem_max_size (cf_memory config))) (dc_make (mkDisk ∅ ∅ [] false)) id) bound
      = Done (make_ok, co) /\
    http_rel MT DT CL (co_accepts MT DT CL co) (mkHttp MT DT CL co ∅ metrics) (mkHttpSpec ∅ ∅).
Proof.
  intros Hv Hc Hm Hd MT DT CL. apply validate_storage in Hv. unfold server_make. rewrite Hc. unfold caches_start, co_start, co_make.
  cbn [co_memory co_disk coordinator_config cc_memory_max_size cc_disk_max_size].
  destruct (dc_start_empty (disk_config root config) steady strerror (fun _ => []) (fun _ => eq_refl)) as (dc & Es & Hdc & _).
  assert (http_rel MT DT CL (co_accepts MT DT CL (mkCoordinator MT DT CL
      (if 0 <? mem_max_size (cf_memory config) then Some (mc_make (mem_max_size (cf_memory config))) else None)
      (if 0 <? disk_max_size (cf_disk config) then Some dc else None) None))
    (mkHttp MT DT CL (mkCoordinator MT DT CL (if 0 <? mem_max_size (cf_memory config) then Some (mc_make (mem_max_size (cf_memory config))) else None)
      (if 0 <? disk_max_size (cf_disk config) then Some dc else None) None) ∅ metrics) (mkHttpSpec ∅ ∅)) as Hrel.
  { split; cbn [hs_cache hs_sparse hsp_vals hsp_uploads co_memory co_disk]; [split; cbn| |done|].
    - case_match; intros ? [= <-]. apply mc_make_inv.
    - case_match; intros ? [= <-]. apply Hdc.
    - done.
    - destruct Hv as [Hv|Hv]; [left|right]; rewrite (proj2 (Z.ltb_lt _ _)) by lia; by eexists.
    - intros key. by rewrite !lookup_empty. }
  eexists. split; [|exact Hrel].
  assert (forall m : @tier_state MT, tier_start m = Done (make_ok, m)) as Em by done.
  assert (@tier_start DT (dc_make (mkDisk ∅ ∅ [] false)) = Done (make_ok, dc)) as Ed by exact Es.
  destruct (0 <? mem_max_size (cf_memory config)), (0 <? disk_max_size (cf_disk config)); rewrite ?Em; cbn [mbind outcome_bind];
    change (is_ok make_ok) with true; cbn [negb co_disk set_memory]; rewrite ?Ed; reflexivity.
Qed.

(** Success is reported with the one status for it. *)
Lemma caches_start_ok `{HH : Hasher} MT DT now_ms stray config co bound st co' :
  caches_start MT DT now_ms stray config co bound = Done (st, co') -> is_ok st = true -> st = make_ok.
Proof.
  unfold caches_start. intros E Hok. apply outcome_bind_Done in E as ([st1 co1] & E1 & E).
  assert (is_ok st1 = true -> st1 = make_ok) as H1.
  { unfold co_start in E1. apply outcome_bind_Done in E1 as ([st2 co2] & _ & E1).
    destruct (is_ok st2) eqn:H2; cbn [negb] in E1; [|injection E1 as <- <-; congruence].
    apply outcome_bind_Done in E1 as ([st3 co3] & _ & E1).
    destruct (is_ok st3) eqn:H3; cbn [negb] in E1; injection E1 as <- <-; congruence. }
  destruct (is_ok st1) eqn:Hs; cbn [negb] in E; [|injection E as <- <-; congruence].
  destruct (co_cluster _ _ _ co1) as [cl|]; [|injection E as <- <-; auto].
  apply outcome_bind_Done in E as ([st4 cl'] & E4 & [= <- <-]). unfold Cluster_start in E4.
  destruct bound; cbn [negb] in E4; [|by injection E4 as <- <-].
  by apply outcome_bind_Done in E4 as (c2 & _ & [= <- <-]).
Qed.

(** ** Properties *)

(** C1: the daemon without a cluster refines its specification. Whatever HTTP requests, new SDK connections and SDK
    requests of any number of connections are interleaved, all well formed and with keys and numbers that fit, and however
    the SDK clients' bytes are cut into pieces, every request is answered at its place in the order: HTTP requests
    as a lossy map of the values stored over HTTP ([hanswer]: a GET may miss or be marked partial, a hit is exact,
    a DELETE is a 204 whether or not the key is there), SDK requests by exactly what was stored over the
    SDK, and uploads in parts by the one table both share; at the end each client has been sent exactly its own answers,
    in order, and the stores are those of the specification. *)
Theorem daemon_refines `{HH : Hasher} MT DT CL cfg ls col mf accepts tails d m es :
  (forall key v, @tier_accepts MT key v = true -> @tier_accepts DT key v = true) ->
  daemon_rel MT DT CL accepts tails d m es -> devents_ok MT DT accepts tails m es ->
  exists rs d', daemon_run MT DT CL cfg ls col mf d (step_of <$> es) = Done (rs, d') /\ danswers accepts m es rs /\
    daemon_rel MT DT CL accepts tails d' (foldl (dspec_step accepts) m es) [].
Proof. intros Hacc. by apply daemon_run_refines. Qed.

(** Events over HTTP, and SDK requests that store nothing under [key]. *)
Definition leaves_sdk_key (key : bytes) (e : Event) : Prop :=
  match e with ESdk _ _ _ _ (QPut k _ _) | ESdk _ _ _ _ (QFinalize k) => k <> key | _ => True end.

Lemma sdk_key_kept `{HH : Hasher} accepts key es : Forall (leaves_sdk_key key) es -> forall m,
  ds_sync m !! key = None -> ds_sync (foldl (dspec_step accepts) m es) !! key = None.
Proof.
  induction 1 as [|e es He _ IH]; intros m Hm; [done|]. cbn [foldl]. apply IH.
  destruct e as [|i now ms rid []|]; cbn [dspec_step ds_sync leaves_sdk_key req_spec snd sp_values ds_sdk sp_sparse] in *; try done.
  - by rewrite lookup_insert_ne.
  - by destruct (decide (key0 = key)) as [->|]; [rewrite lookup_delete_eq|rewrite lookup_delete_ne].
  - destruct (ds_uploads m !! key0) as [[n ws]|]; [|done]. destruct (all_written n ws); [|done]. cbn [snd sp_values]. by rewrite lookup_insert_ne.
Qed.

(** What is stored over HTTP cannot be read over the SDK: after any history in which no SDK client has
    stored a key, however often it was stored over HTTP, an SDK read of it is answered "not found". *)
Theorem sdk_blind_to_http `{HH : Hasher} MT DT CL cfg ls col mf accepts tails d m es i now ms rid key meta range out :
  (forall key v, @tier_accepts MT key v = true -> @tier_accepts DT key v = true) ->
  let all := es ++ [ESdk i now ms rid (QGet key meta range)] in
  daemon_rel MT DT CL accepts tails d m all -> devents_ok MT DT accepts tails m all ->
  ds_sync m !! key = None -> Forall (leaves_sdk_key key) es -> ds_outs (foldl (dspec_step accepts) m es) !! i = Some out ->
  exists rs d' c, daemon_run MT DT CL cfg ls col mf d (step_of <$> all) = Done (rs, d') /\ dm_conns _ _ _ d' !! i = Some c /\
    c_out c = out ++ uds_header (now out) (uds_code UGetResponse) 9 rid ++ encode_u32 1 ++ [x00] ++ encode_u32 0.
Proof.
  intros Hacc all Hrel Hok Hkey Hes Hout.
  destruct (daemon_run_refines MT DT CL cfg ls col mf Hacc accepts tails all d m Hrel Hok) as (rs & d' & E & _ & Hrel').
  exists rs, d'. subst all. rewrite foldl_snoc in Hrel'. set (m1 := foldl _ m es) in *.
  assert (ds_sync m1 !! key = None) as Hnone by by apply sdk_key_kept. destruct Hrel' as [_ _ Hl Hc].
  cbn [dspec_step ds_outs] in Hl, Hc. rewrite length_alter in Hl.
  destruct (lookup_lt_is_Some_2 (dm_conns _ _ _ d') i) as [c Ec]; [rewrite Hl; by eapply lookup_lt_Some|]. exists c. split; [done|]. split; [done|].
  destruct (Hc i c (out ++ answer_bytes now out rid (req_spec (ds_sdk m1) (QGet key meta range))) Ec) as (_ & _ & _ & ->); [rewrite list_lookup_alter_eq, Hout; reflexivity|]. f_equal.
  unfold answer_bytes. cbn [req_spec ds_sdk sp_values fst snd]. rewrite Hnone. reflexivity.
Qed.

(** A configuration file given on the command line replaces everything the other options say: the daemon
    runs with the file alone, wherever the options stand. *)
Theorem config_file_discards_options files opts :
  Forall cli_ok opts -> cli_file opts <> [] ->
  main_config files (concat (cli_args <$> opts)) = main_config files [str "--config"; cli_file opts].
Proof.
  intros Hok Hf. rewrite main_config_cli by done. change [str "--config"; cli_file opts] with (concat (cli_args <$> [OConfig (cli_file opts)])).
  rewrite main_config_cli by (by constructor). unfold cli_file at 3 4. cbn [foldl cli_apply snd]. by rewrite !bool_decide_false.
Qed.

(** C30: a daemon on its own, from its command line to its answers. When the command line and the
    configuration file let it start and no cluster is configured, the caches are made with the configured
    sizes, the directory of the disk tier is empty and its system calls succeed, then [start] succeeds, whatever
    the calls of the socket server return, and every sequence of HTTP requests with keys and numbers that fit,
    whose values have chunks the content hash separates, is answered as [http_refines] says for an empty
    store. *)
Theorem standalone_serves `{HH : Hasher} `{BC : !BoundedCache ChunkId SharedChunk chunk_size_fn} P (Hset : chunk_set P)
    root steady strerror now_ms stray files args config id sync bound env metrics ls col mf reqs :
  main_config files args = Done (inr config) -> clustered config = false ->
  0 <= mem_max_size (cf_memory config) -> 0 <= disk_max_size (cf_disk config) ->
  let MT := memory_tier P (proj1 Hset) in
  let DT := disk_tier (disk_config root config) steady strerror (fun _ => []) P Hset in
  let CL := cluster_link (cluster_config stray config) now_ms in
  exists el, server_start MT DT now_ms stray config
      (ElCacheServer_make MT DT now_ms stray config (mc_make (mem_max_size (cf_memory config))) (dc_make (mkDisk ∅ ∅ [] false)) id sync) bound env
      = Done (make_ok, el) /\ hv_running (el_http _ _ _ _ _ el) = true /\
    let co := el_coordinator _ _ _ _ _ el in
    (hreqs_ok MT DT (co_accepts MT DT CL co) (mkHttpSpec ∅ ∅) reqs ->
     exists rs s', http_run MT DT CL (coordinator_config config) ls col mf (mkHttp MT DT CL co ∅ metrics) reqs = Done (rs, s') /\
       hanswers (co_accepts MT DT CL co) (mkHttpSpec ∅ ∅) reqs rs).
Proof.
  intros Hm Hc H1 H2 MT DT CL. apply main_config_valid in Hm.
  destruct (standalone_starts P Hset root steady strerror now_ms stray config id bound metrics Hm Hc H1 H2) as (co & Es & Hrel).
  destruct (us_start_cases (net_unix_socket_path (cf_network config)) sync env) as (st & us & Eu & _).
  eexists. split; [|split; [|intros co0 Hok]].
  - unfold server_start, ElCacheServer_make. cbn [el_coordinator el_http el_unix]. subst MT DT CL. rewrite Es. cbn [mbind outcome_bind].
    change (is_ok make_ok) with true. cbn [negb HttpServer_start]. change (is_ok make_ok) with true. cbn [negb].
    rewrite Eu. cbn [mbind outcome_bind]. reflexivity.
  - reflexivity.
  - assert (forall key v, @tier_accepts MT key v = true -> @tier_accepts DT key v = true) as Hacc.
    { intros key v. simpl. unfold put_accepted, dc_accepts. by intros [? _]%andb_true_iff. }
    destruct (http_run_refines MT DT CL (coordinator_config config) ls col mf Hacc _ reqs _ _ Hrel Hok) as (rs & s' & E & Ha & _).
    by exists rs, s'.
Qed.

(** Starting all services: the answer is that of the caches and the cluster. With success the HTTP server
    runs on the configured port; whether SDK clients can connect is not part of the answer: the socket server
    listens exactly when its own system calls allow it, and a failure there is dropped. *)
Theorem server_start_spec `{HH : Hasher} MT DT now_ms stray config memory disk id sync bound env st el :
  let el0 := ElCacheServer_make MT DT now_ms stray config memory disk id sync in
  server_start MT DT now_ms stray config el0 bound env = Done (st, el) ->
  (exists co, caches_start MT DT now_ms stray config (el_coordinator _ _ _ _ _ el0) bound = Done (st, co) /\ el_coordinator _ _ _ _ _ el = co) /\
  (is_ok st = true ->
     hv_running (el_http _ _ _ _ _ el) = true /\ HttpServer_port (el_http _ _ _ _ _ el) = net_http_port (cf_network config) /\
     us_inv (el_unix _ _ _ _ _ el) /\
     (start_succeeds (net_unix_socket_path (cf_network config)) env = true -> listening (el_unix _ _ _ _ _ el)) /\
     (start_succeeds (net_unix_socket_path (cf_network config)) env = false -> us_fds (el_unix _ _ _ _ _ el) = ∅)) /\
  (is_ok st = false -> el_unix _ _ _ _ _ el = el_unix _ _ _ _ _ el0 /\ hv_running (el_http _ _ _ _ _ el) = false).
Proof.
  intros el0 E. unfold server_start in E. apply outcome_bind_Done in E as ([st1 co] & E1 & E).
  destruct (is_ok st1) eqn:Eok; cbn [negb] in E.
  - cbn [HttpServer_start] in E. change (is_ok make_ok) with true in E. cbn [negb] in E.
    apply outcome_bind_Done in E as ([st2 unix] & Eu & E). injection E as <- <-.
    assert (st1 = make_ok) as -> by (by apply caches_start_ok in E1).
    destruct (us_start_cases (net_unix_socket_path (cf_network config)) sync env) as (st' & s' & Eu' & _ & _ & _ & Hs & Hok & Herr).
    change (el_unix _ _ _ _ _ el0) with (us_make (net_unix_socket_path (cf_network config)) sync) in Eu.
    pose proof (us_start_inv _ _ _ _ _ Eu) as Hinv. rewrite Eu in Eu'. injection Eu' as <- <-.
    split; [by exists co|]. split; [|done]. intros _. rewrite <- Hs. split_and!; try done. intros Hf. by apply Herr.
  - injection E as <- <-. split; [by exists co|]. split; [by rewrite Eok|done].
Qed.

(** A daemon that cannot start its services still ends with exit code 0, as after a normal shutdown. *)
Theorem failed_start_exits_zero files args config r rounds :
  main_config files args = Done (inr config) -> rd_start_failed r = true ->
  main_exit files args true (r :: rounds) = Done (Some 0).
Proof.
  intros E Hr. unfold main_exit. rewrite E. cbn [mbind outcome_bind negb main_loop]. rewrite Hr. cbn [negb].
  by rewrite andb_false_r.
Qed.

(** ** Samples *)

Definition sample_daemon (input : list (list bytes)) : Daemon mem dsk link :=
  mkDaemon mem dsk link sample_http ∅ ((fun i => mkConn i [] []) <$> input).

Definition sample_spec (n : nat) : DaemonSpec := mkDaemonSpec ∅ ∅ ∅ (replicate n []).

(** An upload created over HTTP, filled by two SDK clients, one of which connects later, and finished over HTTP. *)
Definition sample_events : list Event :=
  [EHttp 0 0 (RCreate (str "a") 5); EConnect [frame 0 1 (QWriteRange (str "a") 0 (str "hel"))] []; ESdk 0 (fun _ => 0) 0 1 (QWriteRange (str "a") 3 (str "lo"));
   ESdk 1 (fun _ => 0) 0 1 (QWriteRange (str "a") 0 (str "hel")); EHttp 0 0 (RFinalize (str "a") None); EHttp 0 0 (RGet (str "a") None)].

Definition sample_input (n : nat) (es : list Event) : list (list bytes) := (fun i => [sent (sdk_reqs i es)]) <$> seq 0 n.

(** Clients that each send everything in one piece. *)
Lemma sample_daemon_rel n es :
  Forall pieces_ok ((fun i => [sent (sdk_reqs i es)]) <$> seq 0 n) ->
  daemon_rel mem dsk link put_accepted (fun _ => []) (sample_daemon (sample_input n es)) (sample_spec n) es.
Proof.
  intros Hp. split.
  - split; [exact co_sample_inv|left; by eexists|done|]. intros key. cbn. by rewrite !lookup_empty.
  - reflexivity.
  - cbn. unfold sample_input. by rewrite !length_fmap, length_seq, length_replicate.
  - intros i c out Ec Eo. cbn [dm_conns sample_daemon ds_outs sample_spec] in *. unfold sample_input in *.
    rewrite !list_lookup_fmap in Ec. apply lookup_replicate_1 in Eo as [-> Hi]. rewrite lookup_seq_lt in Ec by done. cbn in Ec. simplify_eq.
    rewrite Forall_fmap, Forall_seq in Hp. split; [apply Hp; lia|]. split; [by constructor|]. split; [|done]. cbn [c_in concat]. by rewrite !app_nil_r.
Qed.

Lemma daemon_refines_witness :
  exists rs d', daemon_run (HH := fnv_hasher) mem dsk link co_cfg no_stats None true (sample_daemon (sample_input 1 sample_events))
      (step_of <$> sample_events) = Done (rs, d') /\
    danswers (HH := fnv_hasher) put_accepted (sample_spec 1) sample_events rs /\
    ds_vals (foldl (dspec_step (HH := fnv_hasher) put_accepted) (sample_spec 1) sample_events) !!
      CacheKey_make (H := fnv_hasher) (str "a") = Some (str "hello").
Proof.
  destruct (daemon_refines (HH := fnv_hasher) mem dsk link co_cfg no_stats None true put_accepted (fun _ => [])
    (sample_daemon (sample_input 1 sample_events)) (sample_spec 1) sample_events mem_dsk_accepts) as (rs & d' & E & Ha & _).
  - apply (sample_daemon_rel 1). repeat constructor; vm_compute; discriminate.
  - assert (key_ok (str "a")) as Hk by (by apply sample_key_ok). unfold sample_events. cbn [devents_ok hreq_ok].
    split; [split; [exact Hk|lia]|].
    split; [split; [repeat constructor; vm_compute; discriminate|]; split; [constructor|vm_compute; reflexivity]|].
    split; [split; [cbn; lia|]; split; [|unfold is_u32; lia]; vm_compute; intuition congruence|].
    split; [split; [cbn; lia|]; split; [|unfold is_u32; lia]; vm_compute; intuition congruence|]. split; [|split; [split; [exact Hk|exact I]|exact I]].
    split; [exact Hk|]. split; [exact I|]. intros n ws Hu _. vm_compute in Hu. injection Hu as <- <-. exact hello_value.
  - exists rs, d'. split; [exact E|]. split; [exact Ha|]. vm_compute. reflexivity.
Defined.

(** A value stored over HTTP, then read over the SDK. *)
Lemma sdk_blind_to_http_witness :
  let events := [EHttp 0 0 (RPut (str "a") (str "hello") None None)] ++ [ESdk 0 (fun _ => 0) 0 1 (QGet (str "a") false None)] in
  exists rs d' c, daemon_run (HH := fnv_hasher) mem dsk link co_cfg no_stats None true
      (sample_daemon (sample_input 1 events)) (step_of <$> events) = Done (rs, d') /\ dm_conns _ _ _ d' !! 0%nat = Some c /\
    c_out c = [] ++ uds_header 0 (uds_code UGetResponse) 9 1 ++ encode_u32 1 ++ [x00] ++ encode_u32 0.
Proof.
  intros events.
  apply (sdk_blind_to_http (HH := fnv_hasher) mem dsk link co_cfg no_stats None true put_accepted (fun _ => [])
    (sample_daemon (sample_input 1 events)) (sample_spec 1) [EHttp 0 0 (RPut (str "a") (str "hello") None None)] 0 (fun _ => 0) 0 1
    (str "a") false None []).
  - exact mem_dsk_accepts.
  - apply (sample_daemon_rel 1). repeat constructor. vm_compute. discriminate.
  - split; [|split; [|exact I]].
    + split; [by apply sample_key_ok|]. split; [exact hello_value|]. split; exact I.
    + split; [cbn; lia|]. split; [|unfold is_u32; lia]. vm_compute. split; [reflexivity|exact I].
  - reflexivity.
  - repeat constructor.
  - reflexivity.
Defined.

(** A daemon whose socket directory cannot be made starts all the same, and no SDK client can connect. *)
Definition no_directory : StartEnv := mkStartEnv (Some (str "Permission denied")) None (inl []) None None.

Lemma server_start_spec_witness :
  let el0 := ElCacheServer_make (HH := fnv_hasher) mem mem 0 (0, 0) Config_default (mc_make 100) (mc_make 100) 7 (mkServer ∅ ∅) in
  exists el, server_start (HH := fnv_hasher) mem mem 0 (0, 0) Config_default el0 true no_directory = Done (make_ok, el) /\
    hv_running (el_http _ _ _ _ _ el) = true /\ us_fds (el_unix _ _ _ _ _ el) = ∅.
Proof.
  intros el0. pose proof (server_start_spec (HH := fnv_hasher) mem mem 0 (0, 0) Config_default (mc_make 100) (mc_make 100) 7 (mkServer ∅ ∅) true
    no_directory make_ok) as H. cbn zeta in H. fold el0 in H.
  eexists. split; [reflexivity|]. destruct (H _ eq_refl) as (_ & Hok & _).
  destruct (Hok eq_refl) as (Hr & _ & _ & _ & Hf). split; [exact Hr|]. apply Hf. reflexivity.
Defined.

Lemma failed_start_exits_zero_witness :
  main_exit (fun _ => None) [str "-p"; str "9000"] true [mkRound false true true] = Done (Some 0).
Proof.
  apply (failed_start_exits_zero (fun _ => None) [str "-p"; str "9000"] (set_http_port Config_default 9000) (mkRound false true true) []); reflexivity.
Defined.

Lemma config_file_discards_options_witness :
  main_config (fun _ => Some (str "{}")) (concat (cli_args <$> [OPort 9000; OConfig (str "a.json"); OMemory 64])) =
  main_config (fun _ => Some (str "{}")) [str "--config"; str "a.json"].
Proof.
  apply (config_file_discards_options (fun _ => Some (str "{}")) [OPort 9000; OConfig (str "a.json"); OMemory 64]).
  - repeat constructor; vm_compute; discriminate.
  - discriminate.
Defined.

Definition dsk_of (config : Config) : CacheTier :=
  disk_tier (HH := fnv_hasher) (disk_config [str "cache"] config) Z.of_nat [] (fun _ => []) two_samples two_samples_set.

Definition no_files : DiskCache := dc_make (mkDisk ∅ ∅ [] false).

Lemma standalone_serves_witness :
  exists config el rs s', main_config (fun _ => None) [str "-p"; str "9000"] = Done (inr config) /\ net_http_port (cf_network config) = 9000 /\
    server_start (HH := fnv_hasher) mem (dsk_of config) 0 (0, 0) config
      (ElCacheServer_make mem (dsk_of config) 0 (0, 0) config (mc_make (mem_max_size (cf_memory config))) no_files 7 (mkServer ∅ ∅)) true no_directory
      = Done (make_ok, el) /\
    http_run (HH := fnv_hasher) mem (dsk_of config) (cluster_link (cluster_config (0, 0) config) 0) (coordinator_config config)
      (fun _ => mkClusterStats 0 0 0 0 0 0) None true
      (mkHttp mem (dsk_of config) (cluster_link (cluster_config (0, 0) config) 0) (el_coordinator _ _ _ _ _ el) ∅ (Metrics_make 0))
      [(0, 0, RPut (str "a") (str "hello") None None); (1, 1, RGet (str "a") None)] = Done (rs, s').
Proof.
  exists (set_http_port Config_default 9000).
  destruct (standalone_serves (HH := fnv_hasher) (BC := arc_bounded_cache chunk_size_fn chunk_size_fn_u64) two_samples two_samples_set [str "cache"] Z.of_nat [] 0 (0, 0) (fun _ => None) [str "-p"; str "9000"]
    (set_http_port Config_default 9000) 7 (mkServer ∅ ∅) true no_directory (Metrics_make 0) (fun _ => mkClusterStats 0 0 0 0 0 0) None true
    [(0, 0, RPut (str "a") (str "hello") None None); (1, 1, RGet (str "a") None)]) as (el & Es & _ & H).
  - reflexivity.
  - reflexivity.
  - discriminate.
  - discriminate.
  - destruct H as (rs & s' & E & _).
    + assert (key_ok (str "a")) as Hk by (by apply sample_key_ok). split; [|split; [|exact I]].
      * split; [exact Hk|]. split; [|split; exact I]. split; [exact hello_pieces|]. split; [exact hello_pieces|]. apply Z.leb_le. reflexivity.
      * split; [exact Hk|exact I].
    + exists el, rs, s'. split; [reflexivity|]. split; [reflexivity|]. split; [exact Es|]. exact E.
Defined.
